(* ===== verification/_CoqProject ===== *)
-Q . S2P
Prelude.v
CompletionQueue.v
Futures.v
LogTypes.v
Metadata.v
NanoLog.v
KVStore.v
TxnStore.v
RocksNanoLog.v
Replica.v
Program.v
VirtualLog.v
FailureDetector.v
LogWorld.v
LogSafety.v
LogReads.v
LogRun.v
LogFactory.v
Paxos.v
Proposer.v
PaxosSafety.v
Wor.v
PaxosRun.v
ReplicatedMetadata.v
Process.v
LogServer.v
Schema.v
KeySerializer.v
Arrow.v
RowSerializer.v
QueryExecutor.v
QueryPlanner.v
Transformer.v
DbImpl.v
Partitions.v
Deadlock.v
FlatMap.v
LogMachine.v
Counter.v
ReplicatedLog.v
CounterServer.v
EntryPoints.v
TxnMachine.v
Remote.v
DbServer.v
