(* ===== verification/Prelude.v ===== *)
(** * Verification of replicated_counter

    The repository is a replicated log with applications on top of it.

    - The log ([src/log/]): a sequencer hands out log positions and sends each
      entry to the replicas; a replica keeps one nanolog (a segment) per
      version of the configuration; the metadata store is a chain of
      configurations, each of which starts where the one before it ends; the
      virtual log appends through the sequencer of the current configuration
      and reconfigures: it seals the replicas, finds the end of the segment,
      copies what is not yet everywhere, and installs the next configuration.  A
      failure detector starts that when health checks fail.  Replicas,
      sequencers and the metadata store can be in other processes.
    - Write-once registers ([src/wor/]): Paxos proposers and acceptors, one
      register per instance, and chains of registers.
    - The replicated metadata store ([src/statemachine/], [src/log/impl/
      PersistentMetadataStore.h]): the metadata store as a state machine over a
      chain of registers.
    - State machines ([src/statemachine/]): every process applies the entries
      of a log or of a chain of registers, in their order, to its state; a
      client's call returns with the result of its own entry.
    - The counters ([src/applications/counter/]): named counters as such a
      state, with snapshots, a service, a client and a health check.
    - The database ([src/applications/mydb/]): tables of typed rows, stored as
      key-value pairs in RocksDB, with queries over Arrow tables, a server and
      its client, and an experiment in deadlock detection.
    - The key-value stores ([src/persistence/]) they keep their data in, with
      optimistic transactions.
    - The servers ([src/log/server/], [src/applications/counter/server/]): a
      process makes its replica, sequencer, acceptor and metadata store from a
      configuration file, serves them, and calls those of the other processes.

    ** The files

    Definitions keep the names of the source.  Every file opens with the source
    files it models; every definition that models code is an executable
    function.

    - [Prelude]: outcomes (a value, an exception, or a suspension for ever),
      the state and exception monad [M], ordered maps ([std::map] as a sorted
      list), machine integers, and the lemmas and tactics shared by the others.
    - [CompletionQueue], [Futures]: [log/utils/OrderedCompletionQueue.h],
      [FutureUtils.h].  A promise is a number; completing it is an output.
      A quorum is a fold over the futures in their order of completion.
    - [LogTypes], [Metadata]: [log/include/Common.h], the messages, and
      [log/impl/InMemoryMetadataStore.cc], with its specification, a chain of
      configurations under compare-and-append.
    - [NanoLog], [KVStore], [RocksNanoLog]: the interfaces [NanoLog] and
      [KVStoreLite] as type classes, the nanolog in memory, the key-value store
      over RocksDB and the nanolog over any key-value store, which behaves like
      the one in memory next to an end index of its own.
    - [TxnStore]: [persistence/TransactionalRocksKVStoreLite.h], transactions on
      the key-value store and what their commits do to each other.
    - [Replica]: [log/impl/ReplicaImpl.cc], [NanoLogStoreImpl.cc],
      [NanoLogFactory.h], over any nanolog.
    - [Program], [VirtualLog], [FailureDetector], [LogWorld], [LogSafety],
      [LogReads]: the coroutines of the sequencer, of the virtual log and of the
      failure detector are programs over the calls they make ([Program]);
      [LogWorld] is a step relation in which any number of them run at once,
      their calls being carried out by the models of the replicas and of the
      metadata store in any order, or lost; [LogSafety] proves the invariants of
      that system, [LogReads] what clients read from it.
    - [LogRun], [ReplicatedLog]: the log as a list.  [LogRun] runs the programs
      one after the other while a majority of the replicas is up, with any
      order that [std::shuffle] may give, shows that such a run is an execution
      of [LogWorld], and compares it with a list of payloads and a chain of
      configurations; [ReplicatedLog] makes it an
      instance of the class of logs that state machines call, and puts the
      counters on top.
    - [LogFactory]: [log/impl/VirtualLogFactory.cc], whose logs are initial
      states of [LogWorld].
    - [Paxos], [Proposer], [PaxosSafety]: the acceptors with their service and
      client, the proposers as programs over requests, and the network in which
      they run.
    - [Wor], [ReplicatedMetadata]: the registers in memory, their chains, the
      appender, and the metadata store over them.
    - [PaxosRun]: the programs of [Proposer] one after the other, each register
      with a proposer of its own or several sharing one, on local acceptors
      that answer, compared with one record per instance and with the registers
      of [Wor], and the chain of Paxos registers of [wor/WORFactory.cc].
    - [Process], [LogServer], [CounterServer], [EntryPoints]: the objects of a process on a
      heap and the servers in front of them, [log/server/LogServer.h], and
      [applications/counter/CounterAppServer.h] with the ensemble of
      [CounterAppEnsembleNode.h], and the [main] functions that start them.
    - [Schema], [KeySerializer], [Arrow], [RowSerializer]: the schemas of
      tables, the keys under which the parts of a row are stored and their
      parser, the interface to Arrow, and the serialization of rows.
    - [QueryExecutor], [QueryPlanner]: insertions, updates, lookups, scans and
      the generator of pages; conditions, plans and their execution.
    - [Transformer], [DbImpl]: between requests and tables, and the operations
      of the database over all of these.
    - [Partitions]: [PartitionMap.h] and [transaction/TwoPhaseCommit.cc], both
      unfinished.
    - [Deadlock]: the locks, the graph of waiting transactions and the search
      for a cycle in it.
    - [FlatMap], [LogMachine]: [log/utils/FlatMapSequential.h], which runs
      fetches in parallel and yields them in order, and
      [statemachine/VirtualLogStateMachine.h] with the machines above it.  The
      log is a class ([VirtualLogOps], with the laws a client relies on), the
      application another ([StateMachine]); a step relation interleaves the
      producer, the fetches, the consumer, the tasks and the calls of clients
      of any number of machines.
    - [Counter]: the counters as an instance of [StateMachine].
    - [TxnMachine]: [RocksStateMachine.h] and its conflict detector, over the
      chain of registers of [Wor].
    - [Remote]: the services, their clients, and the remote objects of the log,
      over gRPC as a class.
    - [DbServer]: the interface [Db] as a class, with the database, its server
      and its client as instances.

    ** What the theorems show

    - Safety of the log, within one epoch (from a set-up ensemble until the next
      configuration is installed, with everything in between interleaved,
      reordered and lost): a reconfiguration loses no entry that a majority
      acknowledged in time, replicas do not disagree on a position, the commit
      index is durable, and reads return what was appended.  Across an install
      there are two races in which an acknowledged entry is lost: an
      acknowledgement during a reconfiguration, and an append whose position is
      older than its version.
    - Refinement of the log over any number of configurations, one call after
      the other: with a majority of the replicas up, every sequence of appends,
      reads, syncs and reconfigurations, also to other sequencers, ends and
      answers what a list answers, provided that the replicas a reconfiguration
      draws first are up (otherwise it can fail, [unlucky_reconfigure]); over it,
      the counters of every node are the sums of the changes in that list.  In a
      log that was set up in an empty metadata store the first append takes
      position 0, which no machine reads.
    - The machines over a log apply a prefix of it, and every call is answered
      with the result of its entry; as long as no call was lost to a race, the
      machine can always run on until all calls are answered.  So the counters
      of all nodes are the sums of what is in their prefix.
    - A failure detector reconfigures exactly while none of the last five
      checks has succeeded; safety of the log covers its reconfigurations.
    - An answer of a remote object is one its object has given, whatever the
      network does; a row is added through a network once or not at all.
    - The first of two transactions to commit a key wins, and the database is
      what the puts of the committed transactions make of it, one transaction
      after the other.
    - Start: log servers with consistent configurations call each other where
      they serve; the counters start over such a server, but a virtual log that
      nobody reconfigures never appends, and the one of [makeVirtualLog] cannot
      be reconfigured.
    - Paxos agreement, and that of the metadata store over it, where requests to
      the acceptors are delayed, reordered and lost but every acceptor is reached
      through its object in this process; and the two ways in which the code as
      deployed departs from it: acceptors behind gRPC do not agree, and neither
      do readers with a majority below all acceptors.
    - Refinement of the registers: with local acceptors that answer, every run of
      locks, writes and reads ends and answers what one record per instance
      answers, whether registers share proposers or not; with a proposer each,
      what registers in memory answer as long as a lock is used for one write.  A lock that is used twice rewrites its register, and registers
      that share their proposer can be given each other's values; written one
      after the other they are not.
    - Refinement: the metadata store implements its chain, the nanolog over
      RocksDB the one in memory with an end index, an acceptor over a store an
      instance per id, the replicated store a sequence of configurations, the
      executor of the database a set of rows with one row per key.  What is
      proved of the database is for rows that are apart: no key of a row is a
      prefix of a key of another one (ids 1 and 10 are not apart, and then the
      code mixes the rows up, [insert_rejects_prefix_key]).
    - Round trips: keys, rows and snapshots are read back as they were written;
      whatever is in the store, what is read from it is well typed.
    - Functional behaviour of the queue, the quorum, the nanologs, the chains,
      the planner (a query selects the rows that satisfy its condition) and
      the operations of the database, on every branch.
    - Termination and liveness: parsing ends on every string, the search for
      a cycle ends and is right, a generator ends when its pages are full.
    - Errors: what the code does where it does not do what it means to; each
      is also listed as a finding.

    ** Bounds and fuel

    Positions are [int64], ids of the database [uint32]; both wrap as in the
    code.  Recursion that is not structural takes fuel: [parse_loop] the length
    of the key, [search] one more than the number of transactions, both proved
    to be enough; the loops of the appenders and proposers, which the code
    repeats until they succeed, and the generator, which can go on for ever,
    take it as an argument, and the theorems say what holds for every fuel or
    for one that is named.  The theorems of [LogRun] are about logs in which
    there are positions left: fewer than 2^63 - 1 are used when the run ends.

    ** Steps

    In [LogWorld] the steps of a coroutine are its calls; a call that a replica
    or the metadata store carries out is one step.  Inside a replica there are
    two places where the code lets go of its mutex: between the lookup of a
    nanolog and its append, where nothing is lost ([append_lookup_early]), and
    between the nanolog's check of the seal and its append, where a seal can
    come: [seal_misses_checked_append] shows the race, which the theorems on
    reconfiguration leave out.  The detector's [CHECK]s end the process.

    ** What the code relies on

    RocksDB, the conversions of folly and the tables and expressions of Arrow
    are classes of operations with the laws their documentation states; each
    has a concrete instance, with which the witnesses compute.  So are the
    optimistic transactions of RocksDB, which validate on commit the keys that
    were written, the calls of gRPC, and the servers it starts.  Protocol buffer
    messages are records; a message that is stored as bytes goes through a
    codec with a round-trip law.

    ** What is not modelled

    The overflow of counters that grow by one and that the code does not bound:
    the positions of [CompletionQueue], the log ids of [LogMachine] and the
    register ids of [ReplicatedMetadata] are unbounded integers there.  A gRPC
    handler that is still running after its client's deadline: [GrpcLaws] has a
    call take effect before it returns, or never.

    Logging, metrics, thread pools and the demonstrations ([src/main.cpp],
    [applications/mydb/main.cc]), which only call what is modelled and print;
    [TxnCoordinator.cc] and [TxnManager.cc] of the database, which name types
    and functions that are declared nowhere. *)

From stdpp Require Import base gmap sets list strings sorting pretty.
From Stdlib Require Import ZArith Lia Ascii.

Declare Scope repl_scope.
Delimit Scope repl_scope with repl.
#[export] Set Default Goal Selector "!".
Open Scope Z_scope.
#[global] Coercion Z.of_nat : nat >-> Z.

(** ** Machine integers

    [std::int64_t] values are integers [z] with [in_i64 z]; [wrap64] is the
    two's complement wrap-around that the C++ atomics are specified to have. *)
Definition i64_min : Z := - 2 ^ 63.
Definition i64_max : Z := 2 ^ 63 - 1.
Definition in_i64 (z : Z) : bool := bool_decide (i64_min ≤ z ≤ i64_max).
Definition wrap64 (z : Z) : Z := (z + 2 ^ 63) `mod` 2 ^ 64 - 2 ^ 63.

(** ** Outcomes of a coroutine

    A coroutine returns a value, throws, or stays suspended on a future that
    no one completes ([Block]).  The exception type is the union of the
    exception classes the program throws. *)
Inductive exn : Type :=
  | NonRecoverableError
  | NullSequencerException
  | NotImplementedException
  | MetadataBlockNotFound
  | OptimisticConcurrencyException
  | NanoLogSealedException (versionId : string)
  | NanoLogLogPositionAlreadyOccupied
  | NanoLogLogNotAvailable
  | MultipleExceptions (exceptions : list (nat * exn))
  | NullStateMachineError
  | DbError (errorCode : Z)
  | RuntimeError (what : string)
  | WrappedException (e : exn)
  | NullPointer
  | OutOfRange
  | AssertFailure.

(** What [catch (const std::exception& e)] catches: a folly
    [exception_wrapper] that is thrown is no [std::exception],
    [NullStateMachineError] inherits privately, and a failed assertion ends the
    process. *)
Definition is_std_exception (e : exn) : bool :=
  match e with
  | WrappedException _ | NullStateMachineError | NullPointer | AssertFailure => false
  | _ => true
  end.

Inductive outcome (A : Type) : Type :=
  | Ret (a : A)
  | Throw (e : exn)
  | Block.
Arguments Ret {A} a.
Arguments Throw {A} e.
Arguments Block {A}.

Definition M (S A : Type) : Type := S → outcome A * S.

Section monad.
Context {S : Type}.
#[global] Instance M_ret : MRet (M S) := λ A a s, (Ret a, s).
#[global] Instance M_bind : MBind (M S) := λ A B f m s,
  match m s with
  | (Ret a, s') => f a s'
  | (Throw e, s') => (Throw e, s')
  | (Block, s') => (Block, s')
  end.
Definition throw {A} (e : exn) : M S A := λ s, (Throw e, s).
Definition block {A} : M S A := λ s, (Block, s).
Definition get : M S S := λ s, (Ret s, s).
Definition put (s : S) : M S () := λ _, (Ret (), s).
Definition gets {A} (f : S → A) : M S A := λ s, (Ret (f s), s).
Definition modify (f : S → S) : M S () := λ s, (Ret (), f s).
Definition of_outcome {A} (o : outcome A) : M S A := λ s, (o, s).
(** [try { m } catch (...) { h }]: the state changes of [m] are kept. *)
Definition catch {A} (m : M S A) (h : exn → M S A) : M S A := λ s,
  match m s with
  | (Throw e, s') => h e s'
  | r => r
  end.
(** [assert] and glog's [CHECK] stop the process; the model stops with
    [AssertFailure]. *)
Definition check (b : bool) : M S () :=
  if b then mret () else throw AssertFailure.
End monad.

(** Code without effects on the state. *)
#[global] Instance outcome_ret : MRet outcome := λ A, Ret.
#[global] Instance outcome_bind : MBind outcome := λ A B f o,
  match o with Ret a => f a | Throw e => Throw e | Block => Block end.

(** [for] over a range, in order, stopping at the first exception. *)
Fixpoint for_each {S A} (l : list A) (body : A → M S ()) : M S () :=
  match l with
  | [] => mret ()
  | a :: l' => _ ← body a; for_each l' body
  end.

(** Running a computation on one field of a larger state. *)
Definition zoom {S T A} (get_ : T → S) (set_ : S → T → T) (m : M S A) : M T A :=
  λ t, let '(o, s') := m (get_ t) in (o, set_ s' t).

(** ** Ordered maps: [std::map]

    The entries in key order, so that iteration, [upper_bound], [begin] and
    [rbegin] are the operations of the list. *)
Class KeyOrder (K : Type) := {
  key_eq_dec :: EqDecision K;
  key_le : relation K;
  key_le_dec :: RelDecision key_le;
  key_le_po :: PartialOrder key_le;
  key_le_total :: Total key_le }.

#[global] Instance Z_KeyOrder : KeyOrder Z := {| key_le := Z.le |}.
#[global] Instance string_KeyOrder : KeyOrder string := {| key_le := String.le |}.

Definition key_lt {K} `{KeyOrder K} : relation K := strict key_le.

Abbreviation ordmap K V := (list (K * V)).

Section omap.
Context {K V : Type} `{KeyOrder K}.
Implicit Types m : ordmap K V.

(** [find] *)
Fixpoint om_find (k : K) m : option V :=
  match m with
  | [] => None
  | (k', v) :: m' => if decide (k = k') then Some v else om_find k m'
  end.

(** [m[k] = v] *)
Fixpoint om_set (k : K) (v : V) m : ordmap K V :=
  match m with
  | [] => [(k, v)]
  | (k', v') :: m' =>
      if decide (k = k') then (k, v) :: m'
      else if decide (key_le k k') then (k, v) :: m
      else (k', v') :: om_set k v m'
  end.

(** [emplace]: keeps an existing entry and reports whether it inserted. *)
Definition om_emplace (k : K) (v : V) m : bool * ordmap K V :=
  match om_find k m with
  | Some _ => (false, m)
  | None => (true, om_set k v m)
  end.

(** [erase] by key *)
Definition om_erase (k : K) m : ordmap K V :=
  filter (λ e : K * V, e.1 ≠ k) m.

(** The entries before [upper_bound(k)], nearest first, and the ones from it
    on. *)
Definition om_upto (k : K) m : ordmap K V :=
  filter (λ e : K * V, key_le e.1 k) m.
Definition om_upper_bound (k : K) m : ordmap K V :=
  filter (λ e : K * V, ¬ key_le e.1 k) m.

(** [*rbegin] *)
Definition om_last m : option (K * V) := last m.

Definition om_sorted m : Prop :=
  StronglySorted (λ a b : K * V, key_lt a.1 b.1) m.

#[global] Instance key_lt_dec : RelDecision (@key_lt K _).
Proof. intros k1 k2. unfold key_lt, strict. apply _. Defined.

Fixpoint om_sortedb m : bool :=
  match m with
  | [] => true
  | (k, _) :: m' => forallb (λ e, bool_decide (key_lt k e.1)) m' && om_sortedb m'
  end.
End omap.

(** ** Strings *)

(** Rocksdb's [Slice::starts_with]. *)
Definition starts_with (s prefix : string) : bool := String.prefix prefix s.

(** ** Lemmas: monad *)

Lemma bind_Ret {S A B} (m : M S A) (f : A → M S B) s a s' :
  m s = (Ret a, s') → (x ← m; f x) s = f a s'.
Proof. intros E. unfold mbind, M_bind. by rewrite E. Qed.

Lemma bind_inv_Ret {S A B} (m : M S A) (f : A → M S B) s b s' :
  (x ← m; f x) s = (Ret b, s') →
  ∃ a s1, m s = (Ret a, s1) ∧ f a s1 = (Ret b, s').
Proof.
  unfold mbind, M_bind. destruct (m s) as [[a|e|] s1]; intros ?; simplify_eq; eauto.
Qed.

Lemma first_result {A B} (x : A * B) a : x.1 = a → x = (a, x.2).
Proof. by destruct x; simpl; intros ->. Qed.

(** ** Lemmas: strings *)

Lemma Ascii_compare_refl a : Ascii.compare a a = Eq.
Proof. apply N.compare_refl. Qed.

(** [String.leb] one character at a time. *)
Lemma string_le_cons a s b t :
  String.le (String a s) (String b t) ↔
  Ascii.compare a b = Lt ∨ (a = b ∧ String.le s t).
Proof.
  unfold String.le, String.leb. simpl. destruct (Ascii.compare a b) eqn:E.
  - apply Ascii.compare_eq_iff in E as ->.
    split; [auto|]. by intros [|[_ ?]].
  - naive_solver.
  - split; [done|]. intros [|[-> _]]; [done|]. by rewrite Ascii_compare_refl in E.
Qed.

(** ** Lemmas: machine integers *)

Lemma in_i64_spec z : in_i64 z = true ↔ i64_min ≤ z ≤ i64_max.
Proof. unfold in_i64. apply bool_decide_eq_true. Qed.

Lemma wrap64_id z : in_i64 z = true → wrap64 z = z.
Proof.
  rewrite in_i64_spec. unfold wrap64, i64_min, i64_max. intros Hz.
  rewrite Z.mod_small; lia.
Qed.

Lemma wrap64_in z : in_i64 (wrap64 z) = true.
Proof.
  rewrite in_i64_spec. unfold wrap64, i64_min, i64_max.
  pose proof (Z.mod_pos_bound (z + 2 ^ 63) (2 ^ 64)). lia.
Qed.

(** ** Lemmas: lists *)

Section list_lemmas.
Context {A : Type} (P : A → Prop) `{∀ x, Decision (P x)}.

Lemma filter_all (l : list A) : (∀ x, x ∈ l → P x) → filter P l = l.
Proof.
  induction l as [|x l IH]; intros Hl; [done|].
  rewrite filter_cons_True by (apply Hl; left).
  f_equal. apply IH. intros y Hy. apply Hl. by right.
Qed.

Lemma filter_none (l : list A) : (∀ x, x ∈ l → ¬ P x) → filter P l = [].
Proof.
  induction l as [|x l IH]; intros Hl; [done|].
  rewrite filter_cons_False by (apply Hl; left).
  apply IH. intros y Hy. apply Hl. by right.
Qed.

(** A list splits in at most one way into elements that satisfy [P] followed
    by elements that do not. *)
Lemma split_unique (l1 l2 k1 k2 : list A) :
  l1 ++ l2 = k1 ++ k2 → Forall P l1 → Forall (λ x, ¬ P x) l2 →
  Forall P k1 → Forall (λ x, ¬ P x) k2 → l1 = k1 ∧ l2 = k2.
Proof.
  revert k1. induction l1 as [|x l1 IH]; intros [|y k1]; simpl.
  - done.
  - intros -> _ [? _]%Forall_cons [? _]%Forall_cons. done.
  - intros <- [? _]%Forall_cons _ _ [? _]%Forall_cons. done.
  - intros [= -> E] [_ ?]%Forall_cons ? [_ ?]%Forall_cons ?.
    by destruct (IH k1 E) as [-> ->].
Qed.
End list_lemmas.

(** ** Lemmas: ordered maps *)

Lemma key_lt_Z (a b : Z) : key_lt a b ↔ a < b.
Proof. unfold key_lt, strict. simpl. lia. Qed.

Section omap_lemmas.
Context {K V : Type} `{KeyOrder K}.
Implicit Types m : ordmap K V.

Lemma key_lt_irrefl k : ¬ key_lt k k.
Proof. intros [? []]; done. Qed.

Lemma key_lt_trans k1 k2 k3 : key_lt k1 k2 → key_lt k2 k3 → key_lt k1 k3.
Proof.
  intros [H1 H2] [H3 H4]. split; [by etrans|].
  intros H5. apply H2. by etrans.
Qed.

Lemma key_lt_ne k1 k2 : key_lt k1 k2 → k1 ≠ k2.
Proof. intros Hlt ->. by eapply key_lt_irrefl. Qed.

Lemma not_key_le k1 k2 : k1 ≠ k2 → ¬ key_le k1 k2 → key_lt k2 k1.
Proof. intros _ Hn. split; [|done]. by destruct (total key_le k1 k2). Qed.

Lemma key_le_lt k1 k2 : k1 ≠ k2 → key_le k1 k2 → key_lt k1 k2.
Proof. intros Hne Hle. split; [done|]. intros ?. apply Hne. by apply (anti_symm key_le). Qed.

Lemma om_sorted_nil : om_sorted (@nil (K * V)).
Proof. constructor. Qed.

Lemma om_sorted_cons k v m :
  om_sorted ((k, v) :: m) ↔ Forall (λ e, key_lt k e.1) m ∧ om_sorted m.
Proof.
  split.
  - inversion 1; subst. done.
  - intros [? ?]. by constructor.
Qed.

Lemma om_sortedb_sorted m : om_sortedb m = true → om_sorted m.
Proof.
  induction m as [|[k v] m IH]; simpl; [constructor|].
  rewrite andb_true_iff, forallb_forall. intros [Hall Hs].
  apply om_sorted_cons. split; [|auto].
  apply Forall_forall. intros e He. apply list_elem_of_In in He.
  by eapply bool_decide_unpack, Is_true_true_2, Hall.
Qed.

Lemma om_find_Some_elem k v m : om_find k m = Some v → (k, v) ∈ m.
Proof.
  induction m as [|[k' v'] m IH]; simpl; [done|].
  case_decide; intros; simplify_eq; [by left|right; auto].
Qed.

Lemma om_find_None k m : om_find k m = None ↔ k ∉ m.*1.
Proof.
  induction m as [|[k' v'] m IH]; simpl.
  - split; [intros _; apply not_elem_of_nil|done].
  - case_decide as E.
    + subst. split; [done|]. intros Hn. exfalso. apply Hn. left.
    + rewrite IH, not_elem_of_cons. naive_solver.
Qed.

Lemma om_elem_find k v m : om_sorted m → (k, v) ∈ m → om_find k m = Some v.
Proof.
  induction m as [|[k' v'] m IH]; [by rewrite elem_of_nil|].
  rewrite om_sorted_cons. intros [Hall Hs] [E|Hin]%elem_of_cons; simpl.
  - simplify_eq. by case_decide.
  - rewrite decide_False; [auto|].
    rewrite Forall_forall in Hall. intros ->. eapply key_lt_irrefl, (Hall _ Hin).
Qed.

Lemma om_find_elem k v m : om_sorted m → om_find k m = Some v ↔ (k, v) ∈ m.
Proof. split; auto using om_find_Some_elem, om_elem_find. Qed.

Lemma om_find_set_eq k v m : om_find k (om_set k v m) = Some v.
Proof.
  induction m as [|[k' v'] m IH]; simpl; [by rewrite decide_True|].
  repeat case_decide; simpl; repeat case_decide; congruence.
Qed.

Lemma om_find_set_ne k k' v m : k ≠ k' → om_find k' (om_set k v m) = om_find k' m.
Proof.
  intros Hne. induction m as [|[k2 v2] m IH]; simpl; [by rewrite decide_False|].
  repeat case_decide; simpl; repeat case_decide; congruence.
Qed.

Lemma om_find_set k k' v m :
  om_find k' (om_set k v m) = if decide (k = k') then Some v else om_find k' m.
Proof. case_decide; subst; auto using om_find_set_eq, om_find_set_ne. Qed.

Lemma Forall_om_set (P : K * V → Prop) k v m :
  P (k, v) → Forall P m → Forall P (om_set k v m).
Proof.
  intros Hk Hm. induction Hm as [|[k' v'] m Hk' Hm IH]; simpl; [by constructor|].
  repeat case_decide; repeat constructor; auto.
Qed.

Lemma om_sorted_set k v m : om_sorted m → om_sorted (om_set k v m).
Proof.
  induction m as [|[k' v'] m IH]; intros Hs; simpl.
  - repeat constructor.
  - pose proof Hs as Hs'. apply om_sorted_cons in Hs' as [Hall Hs'].
    case_decide as E; [subst; by apply om_sorted_cons|].
    case_decide as E2.
    + apply om_sorted_cons. split; [|done].
      pose proof (key_le_lt _ _ E E2). constructor; [done|].
      eapply Forall_impl; [done|]. eauto using key_lt_trans.
    + apply om_sorted_cons. split; [|auto].
      apply Forall_om_set; [|done]. simpl. by apply not_key_le.
Qed.

Lemma om_sorted_filter (P : K * V → Prop) `{∀ x, Decision (P x)} m :
  om_sorted m → om_sorted (filter P m).
Proof.
  induction m as [|[k v] m IH]; [done|]. rewrite om_sorted_cons. intros [Hall Hs].
  rewrite filter_cons. case_decide; [|auto].
  apply om_sorted_cons. split; [|auto].
  apply Forall_forall. intros e [_ He]%list_elem_of_filter. by eapply Forall_forall in Hall.
Qed.

Lemma om_sorted_erase k m : om_sorted m → om_sorted (om_erase k m).
Proof. apply om_sorted_filter. Qed.

Lemma om_find_erase k k' m :
  om_find k' (om_erase k m) = if decide (k = k') then None else om_find k' m.
Proof.
  unfold om_erase. induction m as [|[k2 v2] m IH]; simpl; [by case_decide|].
  rewrite filter_cons. simpl.
  repeat case_decide; simpl; repeat case_decide; naive_solver.
Qed.

Lemma om_sorted_NoDup m : om_sorted m → NoDup m.*1.
Proof.
  induction m as [|[k v] m IH]; [constructor|].
  rewrite om_sorted_cons. intros [Hall Hs]. simpl. constructor; [|auto].
  rewrite list_elem_of_fmap. intros ([k' v'] & -> & Hin). simpl in *.
  rewrite Forall_forall in Hall. eapply key_lt_irrefl, (Hall _ Hin).
Qed.

(** Two ordered maps with the same entries, or the same lookups, are equal. *)
Lemma om_ext_elem m1 m2 :
  om_sorted m1 → om_sorted m2 → (∀ k v, (k, v) ∈ m1 ↔ (k, v) ∈ m2) → m1 = m2.
Proof.
  intros H1 H2 Hf. eapply (StronglySorted_unique_strong (λ a b : K * V, key_lt a.1 b.1)).
  - intros [k1 v1] [k2 v2] _ _ Hlt Hlt'. exfalso.
    simpl in *. by eapply key_lt_irrefl, key_lt_trans.
  - done.
  - done.
  - apply NoDup_Permutation.
    + eapply NoDup_fmap_1. by apply om_sorted_NoDup.
    + eapply NoDup_fmap_1. by apply om_sorted_NoDup.
    + intros [k v]. apply Hf.
Qed.
Lemma om_ext m1 m2 :
  om_sorted m1 → om_sorted m2 → (∀ k, om_find k m1 = om_find k m2) → m1 = m2.
Proof.
  intros H1 H2 Hf. apply om_ext_elem; [done..|]. intros k v. rewrite <- !om_find_elem by done. by rewrite Hf.
Qed.

Lemma om_set_snoc k v m :
  Forall (λ e, key_lt e.1 k) m → om_set k v m = m ++ [(k, v)].
Proof.
  induction m as [|[k' v'] m IH]; intros Hall; simpl; [done|].
  apply Forall_cons in Hall as [Hk Hall]. simpl in Hk.
  rewrite decide_False by (apply not_eq_sym; by apply key_lt_ne).
  rewrite decide_False by (by destruct Hk). by rewrite IH.
Qed.

Lemma om_set_last k v v0 m :
  Forall (λ e, key_lt e.1 k) m → om_set k v (m ++ [(k, v0)]) = m ++ [(k, v)].
Proof.
  induction m as [|[k' v'] m IH]; intros Hall; simpl; [by rewrite decide_True|].
  apply Forall_cons in Hall as [Hk Hall]. simpl in Hk.
  rewrite decide_False by (apply not_eq_sym; by apply key_lt_ne).
  rewrite decide_False by (by destruct Hk). by rewrite IH.
Qed.

Lemma om_find_last k v m :
  Forall (λ e, key_lt e.1 k) m → om_find k (m ++ [(k, v)]) = Some v.
Proof.
  induction m as [|[k' v'] m IH]; intros Hall; simpl; [by rewrite decide_True|].
  apply Forall_cons in Hall as [Hk Hall]. simpl in Hk.
  rewrite decide_False by (apply not_eq_sym; by apply key_lt_ne). auto.
Qed.

Lemma om_emplace_spec k v m b m' :
  om_emplace k v m = (b, m') →
  (b = false ∧ m' = m ∧ is_Some (om_find k m)) ∨
  (b = true ∧ m' = om_set k v m ∧ om_find k m = None).
Proof. unfold om_emplace. destruct (om_find k m); intros; simplify_eq; eauto. Qed.
End omap_lemmas.

Create HintDb repl discriminated.
#[export] Hint Resolve om_sorted_nil om_sorted_set om_sorted_erase wrap64_in : repl.

(** ** Lemmas: quorums *)

Lemma quorum_intersect `{Countable A} (U X Y : gset A) :
  X ⊆ U → Y ⊆ U → (size U < size X + size Y)%nat → ∃ a, a ∈ X ∧ a ∈ Y.
Proof.
  intros HX HY Hsz. destruct (decide (X ∩ Y = ∅)) as [E|E].
  - exfalso. assert (size (X ∪ Y) ≤ size U)%nat by (apply subseteq_size; set_solver).
    rewrite size_union in *; [lia|set_solver].
  - apply set_choose_L in E as [a Ha]. exists a. set_solver.
Qed.

(** ** Tactics *)

(** Run the monadic code of the goal on a concrete outcome. *)
Ltac mred := unfold mbind, M_bind, mret, M_ret, throw, block, get, put, gets, modify,
  of_outcome, catch, check, zoom in *.

(** ** A serialization of countable data, for concrete instances *)

Fixpoint pos_bits (p : positive) : string :=
  match p with
  | xH => EmptyString
  | xO p => String "0"%char (pos_bits p)
  | xI p => String "1"%char (pos_bits p)
  end.
Fixpoint bits_pos (s : string) : option positive :=
  match s with
  | EmptyString => Some xH
  | String "0"%char s => xO <$> bits_pos s
  | String "1"%char s => xI <$> bits_pos s
  | _ => None
  end.
Definition to_bits `{Countable A} (x : A) : string := pos_bits (encode x).
Definition of_bits `{Countable A} (s : string) : option A := bits_pos s ≫= decode.

Lemma of_to_bits `{Countable A} (x : A) : of_bits (to_bits x) = Some x.
Proof.
  unfold of_bits, to_bits. assert (E : ∀ p, bits_pos (pos_bits p) = Some p).
  { by induction p as [p IH|p IH|]; simpl; rewrite ?IH. }
  rewrite E. apply decode_encode.
Qed.

(** ** Decimal numerals: reading what [std::to_string] writes *)

Fixpoint parse_digits (acc : Z) (s : string) : option Z :=
  match s with
  | EmptyString => Some acc
  | String c s' =>
      let d := Z.of_N (N_of_ascii c) - 48 in
      if (0 <=? d) && (d <=? 9) then parse_digits (10 * acc + d) s' else None
  end.
Definition parse_decimal (s : string) : option Z :=
  match s with
  | EmptyString => None
  | String "-" s' => option_map Z.opp (parse_digits 0 s')
  | _ => parse_digits 0 s
  end.

Lemma parse_pretty_N_go x s :
  parse_digits 0 (pretty_N_go x s) = parse_digits (Z.of_N x) s.
Proof.
  revert s. induction (N.lt_wf_0 x) as [x _ IH]; intros s.
  destruct (decide (0 < x)%N) as [Hx|Hx].
  - rewrite pretty_N_go_step by done. rewrite IH by (apply N.div_lt; lia). simpl.
    assert (Hd : (x `mod` 10 < 10)%N) by (apply N.mod_lt; lia).
    assert (Hc : Z.of_N (N_of_ascii (pretty_N_char (x `mod` 10))) - 48 = Z.of_N (x `mod` 10)).
    { assert (∀ d, (d < 10)%N → Z.of_N (N_of_ascii (pretty_N_char d)) - 48 = Z.of_N d) as Hall.
      { intros d Hlt. destruct d as [|d]; [done|].
        do 10 (destruct d as [d|d|]; try done; try lia). }
      by apply Hall. }
    rewrite Hc. assert (0 ≤ Z.of_N (x `mod` 10) ≤ 9) as [H0 H9].
    { generalize dependent (x `mod` 10)%N. intros y Hy _. lia. }
    apply Z.leb_le in H0 as ->. apply Z.leb_le in H9 as ->. simpl.
    f_equal. rewrite N2Z.inj_div, N2Z.inj_mod.
    rewrite (Z.div_mod (Z.of_N x) 10) at 3 by lia. lia.
  - assert (x = 0%N) as -> by lia. by rewrite pretty_N_go_0.
Qed.

Lemma parse_digits_pretty (x : N) : parse_digits 0 (pretty x) = Some (Z.of_N x).
Proof.
  unfold pretty, pretty_N. case_decide; [by subst|]. by rewrite parse_pretty_N_go.
Qed.

Lemma parse_pretty z : parse_decimal (pretty z) = Some z.
Proof.
  pose proof parse_digits_pretty as Hpos.
  assert (Hnat : ∀ x : N, parse_decimal (pretty x) = Some (Z.of_N x)).
  { intros x. rewrite <- Hpos. destruct (pretty x) as [|c s] eqn:E.
    - specialize (Hpos x). rewrite E in Hpos. injection Hpos as Hx.
      assert (x = 0%N) as -> by lia. done.
    - unfold parse_decimal. destruct (decide (c = "-"%char)) as [->|Hc].
      + specialize (Hpos x). by rewrite E in Hpos.
      + destruct c as [[] [] [] [] [] [] [] []]; done. }
  destruct z as [|z|z].
  - done.
  - exact (Hnat (Npos z)).
  - exact (f_equal (option_map Z.opp) (Hpos (Npos z))).
Qed.
