(* ===== verification/CompletionQueue.v ===== *)
(** * The ordered completion queue

    [src/log/utils/OrderedCompletionQueue.h]: the promises of the appends a
    nanolog has stored, keyed by log position.  A promise is completed once
    every position from [currentIndex_] up to its own is present, or once the
    caller declares all positions below an index complete.  Completing a
    promise is an effect on the outside: the operations return the list of
    completed promises, in the order in which [setValue] is called. *)

From stdpp Require Import base gmap sets list sorting.
From Stdlib Require Import ZArith Lia.
From S2P Require Import Prelude.

Open Scope Z_scope.

Section queue.
(** [P] is the type of promise handles ([folly::Promise<T>]). *)
Context {P T : Type}.

Record PromiseState := { promise : P; result : T }.

Record OrderedCompletionQueue := {
  currentIndex : Z;
  promises : ordmap Z PromiseState }.

Definition make (startIndex : Z) : OrderedCompletionQueue :=
  {| currentIndex := startIndex; promises := [] |}.

Definition fulfil (v : PromiseState) : P * T := (promise v, result v).

(** The iteration of [completeAllBelow]: fulfils the leading promises below
    [index] and collects their keys. *)
Fixpoint complete_below_loop (index : Z) (l : ordmap Z PromiseState)
    : list (P * T) * list Z :=
  match l with
  | [] => ([], [])
  | (key, value) :: l' =>
      if key <? index then
        let '(done, toDelete) := complete_below_loop index l' in
        (fulfil value :: done, key :: toDelete)
      else ([], [])
  end.

(** The iteration of [checkAndCompleteAfterCurrentIndex]. *)
Fixpoint check_loop (startIndex : Z) (l : ordmap Z PromiseState)
    : list (P * T) * list Z * Z :=
  match l with
  | [] => ([], [], startIndex)
  | (key, value) :: l' =>
      if key =? startIndex then
        let '(done, toDelete, startIndex') := check_loop (startIndex + 1) l' in
        (fulfil value :: done, startIndex :: toDelete, startIndex')
      else ([], [], startIndex)
  end.

Definition erase_all (toDelete : list Z) (l : ordmap Z PromiseState)
    : ordmap Z PromiseState :=
  foldl (λ m key, om_erase key m) l toDelete.

Definition checkAndCompleteAfterCurrentIndex (q : OrderedCompletionQueue)
    : list (P * T) * OrderedCompletionQueue :=
  let '(done, toDelete, startIndex) := check_loop (currentIndex q) (promises q) in
  (done, {| currentIndex := startIndex;
            promises := erase_all toDelete (promises q) |}).

Definition completeAllBelow (index : Z) (q : OrderedCompletionQueue)
    : list (P * T) * OrderedCompletionQueue :=
  let '(done, toDelete) := complete_below_loop index (promises q) in
  let promises' := erase_all toDelete (promises q) in
  let currentIndex' := if index >? currentIndex q then index else currentIndex q in
  let '(done', q') := checkAndCompleteAfterCurrentIndex
    {| currentIndex := currentIndex'; promises := promises' |} in
  (done ++ done', q').

Definition add (index : Z) (p : P) (r : T) (complete : bool)
    (q : OrderedCompletionQueue) : list (P * T) * OrderedCompletionQueue :=
  let q' := {| currentIndex := currentIndex q;
               promises := om_set index {| promise := p; result := r |} (promises q) |} in
  if complete then checkAndCompleteAfterCurrentIndex q' else ([], q').

(** The iteration of [getRangeEligibleForCompletion]. *)
Fixpoint range_loop (startIndex : Z) (l : ordmap Z PromiseState) : Z :=
  match l with
  | [] => startIndex
  | (key, _) :: l' =>
      if key =? startIndex then range_loop (startIndex + 1) l' else startIndex
  end.

Definition getRangeEligibleForCompletion (q : OrderedCompletionQueue) : Z * Z :=
  (currentIndex q, range_loop (currentIndex q) (promises q)).

Definition getCurrentIndex (q : OrderedCompletionQueue) : Z := currentIndex q.

(** ** Invariant and specification *)

(** Sorted, and every waiting promise is beyond the first hole. *)
Definition settled (q : OrderedCompletionQueue) : Prop :=
  om_sorted (promises q) ∧ Forall (λ e, currentIndex q < e.1) (promises q).

(** [hole c m]: the first position from [c] on that is missing in [m]. *)
Definition first_hole (c : Z) (m : ordmap Z PromiseState) (h : Z) : Prop :=
  c ≤ h ∧ (∀ k, c ≤ k < h → is_Some (om_find k m)) ∧ om_find h m = None.

Definition waiting (q : OrderedCompletionQueue) : list (P * T) :=
  map (λ e, fulfil e.2) (promises q).
Definition entries_below (h : Z) (m : ordmap Z PromiseState) : list (P * T) :=
  map (λ e, fulfil e.2) (filter (λ e : Z * PromiseState, e.1 < h) m).
Definition entries_from (h : Z) (m : ordmap Z PromiseState) : ordmap Z PromiseState :=
  filter (λ e : Z * PromiseState, h ≤ e.1) m.
End queue.
Arguments OrderedCompletionQueue : clear implicits.
Arguments PromiseState : clear implicits.

(** ** The loops, as splits of the entry list *)

Section lemmas.
Context {P T : Type}.
Implicit Types (q : OrderedCompletionQueue P T) (m l : ordmap Z (PromiseState P T)).

Lemma sorted_app (l1 l2 : ordmap Z (PromiseState P T)) :
  om_sorted (l1 ++ l2) →
  om_sorted l1 ∧ om_sorted l2 ∧ (∀ a b, a ∈ l1 → b ∈ l2 → a.1 < b.1).
Proof.
  intros (H1 & H2 & H3)%StronglySorted_app. split_and!; [done..|].
  intros a b Ha Hb. by apply key_lt_Z, H1.
Qed.

(** Erasing the keys of a prefix of a sorted map drops the prefix. *)
Lemma erase_all_prefix (l1 l2 : ordmap Z (PromiseState P T)) :
  om_sorted (l1 ++ l2) → erase_all l1.*1 (l1 ++ l2) = l2.
Proof.
  induction l1 as [|[k v] l1 IH]; intros Hs; [done|].
  simpl in *. apply om_sorted_cons in Hs as [Hall Hs].
  unfold erase_all in *; simpl.
  rewrite <- (IH Hs) at 2. f_equal. unfold om_erase. rewrite filter_cons_False; [|naive_solver].
  apply filter_all. intros e He. rewrite Forall_forall in Hall.
  apply not_eq_sym, key_lt_ne. by apply Hall.
Qed.

Lemma complete_below_loop_spec index l :
  om_sorted l →
  ∃ l1 l2, l = l1 ++ l2 ∧
    complete_below_loop index l = (map (λ e, fulfil e.2) l1, l1.*1) ∧
    Forall (λ e, e.1 < index) l1 ∧ Forall (λ e, index ≤ e.1) l2.
Proof.
  induction l as [|[k v] l IH]; intros Hs; [by exists [], []|].
  pose proof Hs as [Hall Hs']%om_sorted_cons. simpl.
  destruct (Z.ltb_spec k index).
  - destruct (IH Hs') as (l1 & l2 & -> & -> & H1 & H2).
    exists ((k, v) :: l1), l2. split_and!; [done..|by constructor|done].
  - exists [], ((k, v) :: l). split_and!; [done..|]. constructor; [done|].
    eapply Forall_impl; [done|]. intros e Hlt. apply key_lt_Z in Hlt. lia.
Qed.

(** [check_loop] splits off the run of consecutive keys from [c]. *)
Lemma check_loop_spec c l :
  ∃ l1 l2, l = l1 ++ l2 ∧
    check_loop c l = (map (λ e, fulfil e.2) l1, l1.*1, c + length l1) ∧
    l1.*1 = seqZ c (length l1) ∧
    (∀ e, head l2 = Some e → e.1 ≠ c + length l1).
Proof.
  revert c. induction l as [|[k v] l IH]; intros c.
  { exists [], []. simpl. split_and!; [done| |done|done]. by rewrite Z.add_0_r. }
  simpl. destruct (Z.eqb_spec k c) as [->|Hne].
  - destruct (IH (c + 1)) as (l1 & l2 & -> & -> & H1 & H2).
    exists ((c, v) :: l1), l2. split_and!.
    + done.
    + cbn [length]. by replace (c + S (length l1)) with (c + 1 + length l1) by lia.
    + rewrite fmap_cons, H1, (seqZ_cons c) by (cbn [length]; lia). cbn [length].
      f_equal. f_equal; lia.
    + intros e He. specialize (H2 e He). cbn [length]. lia.
  - exists [], ((k, v) :: l). simpl. split_and!; [done| |done|].
    + by rewrite Z.add_0_r.
    + intros e [= <-]. simpl. lia.
Qed.

Lemma range_loop_check c l :
  range_loop c l = (check_loop c l).2.
Proof.
  revert c. induction l as [|[k v] l IH]; intros c; simpl; [done|].
  destruct (k =? c); [|done]. rewrite IH. by destruct (check_loop (c + 1) l) as [[]].
Qed.

(** On a sorted map without stale keys, [checkAndComplete...] stops at the
    first hole, completes what is below it and keeps what is above it. *)
Lemma check_spec q done q' :
  om_sorted (promises q) → Forall (λ e, currentIndex q ≤ e.1) (promises q) →
  checkAndCompleteAfterCurrentIndex q = (done, q') →
  first_hole (currentIndex q) (promises q) (currentIndex q') ∧
  done = entries_below (currentIndex q') (promises q) ∧
  promises q' = entries_from (currentIndex q') (promises q) ∧
  settled q'.
Proof.
  destruct q as [c m]. simpl. intros Hs Hge.
  unfold checkAndCompleteAfterCurrentIndex. simpl.
  destruct (check_loop_spec c m) as (l1 & l2 & -> & -> & Hkeys & Hhd).
  intros ?; simplify_eq; simpl. rewrite erase_all_prefix by done.
  apply sorted_app in Hs as Hs'. destruct Hs' as (Hs1 & Hs2 & Hs12).
  assert (H1 : ∀ e, e ∈ l1 → c ≤ e.1 < c + length l1).
  { intros e He. assert (e.1 ∈ l1.*1) as Hin by (apply list_elem_of_fmap; eauto).
    rewrite Hkeys, elem_of_seqZ in Hin. lia. }
  assert (H2 : Forall (λ e, c + length l1 < e.1) l2).
  { destruct l2 as [|e2 l2]; [constructor|].
    assert (c + length l1 ≤ e2.1).
    { destruct l1 as [|e1 l1' _] using rev_ind.
      - rewrite Forall_app, Forall_cons in Hge. simpl. destruct Hge as [_ [? _]]. lia.
      - assert (e1.1 = c + length l1').
        { rewrite fmap_app, length_app, Nat2Z.inj_add, seqZ_app in Hkeys by lia.
          apply app_inj_2 in Hkeys as [_ Hk]; [|by rewrite length_fmap, length_seqZ; lia].
          cbn [length] in Hk. rewrite seqZ_cons in Hk by lia. injection Hk as Hk. lia. }
        specialize (Hs12 e1 e2). rewrite length_app; simpl.
        assert (e1.1 < e2.1) by (apply Hs12; [apply elem_of_app; right|]; constructor). lia. }
    pose proof (Hhd e2 eq_refl). destruct e2 as [k2 v2].
    apply om_sorted_cons in Hs2 as [Hall _]. simpl in *. constructor; [simpl; lia|]. eapply Forall_impl; [done|]. intros e He. apply key_lt_Z in He. lia. }
  rewrite Forall_forall in H2. split_and!.
  - unfold first_hole. simpl. split_and!; [lia| |].
    + intros k Hk. assert (k ∈ l1.*1) as Hin by (rewrite Hkeys, elem_of_seqZ; lia).
      apply list_elem_of_fmap in Hin as ([k' v] & -> & Hin). exists v.
      apply om_elem_find; [done|]. apply elem_of_app. by left.
    + apply om_find_None. rewrite fmap_app, elem_of_app, !list_elem_of_fmap.
      intros [([k v] & E & Hin)|([k v] & E & Hin)]; simpl in *; subst.
      * apply H1 in Hin. simpl in *. lia.
      * apply H2 in Hin. simpl in *. lia.
  - unfold entries_below. rewrite filter_app.
    rewrite filter_all, filter_none, app_nil_r; [done| |].
    + intros e He. apply H2 in He. lia.
    + intros e He. apply H1 in He. lia.
  - unfold entries_from. rewrite filter_app.
    rewrite filter_none, filter_all; [done| |].
    + intros e He. apply H2 in He. lia.
    + intros e He. apply H1 in He. lia.
  - split; [done|]. by apply Forall_forall.
Qed.
End lemmas.

(** ** Properties *)

Section properties.
Context {P T : Type}.
Implicit Types (q : OrderedCompletionQueue P T) (m l : ordmap Z (PromiseState P T)).

(** The completed promises are the leading ones, and the index advances over
    their keys. *)
Lemma check_split q done q' :
  om_sorted (promises q) →
  checkAndCompleteAfterCurrentIndex q = (done, q') →
  ∃ l1, promises q = l1 ++ promises q' ∧ done = map (λ e, fulfil e.2) l1 ∧
    currentIndex q ≤ currentIndex q' ∧
    (∀ k, currentIndex q ≤ k < currentIndex q' ↔ k ∈ l1.*1).
Proof.
  destruct q as [c m]. unfold checkAndCompleteAfterCurrentIndex. simpl. intros Hs.
  destruct (check_loop_spec c m) as (l1 & l2 & -> & -> & Hk & _).
  intros ?; simplify_eq; simpl. rewrite erase_all_prefix by done.
  exists l1. split_and!; [done|done|lia|]. intros k. rewrite Hk, elem_of_seqZ. lia.
Qed.

Lemma check_conserves q done q' :
  om_sorted (promises q) →
  checkAndCompleteAfterCurrentIndex q = (done, q') →
  waiting q = done ++ waiting q' ∧ currentIndex q ≤ currentIndex q' ∧ om_sorted (promises q').
Proof.
  intros Hs E. destruct (check_split _ _ _ Hs E) as (l1 & Hp & -> & Hle & _).
  unfold waiting. rewrite Hp, map_app in *. split_and!; [done|done|].
  by apply sorted_app in Hs as (_ & ? & _).
Qed.

Lemma complete_below_split index q :
  om_sorted (promises q) →
  ∃ l1 l2, promises q = l1 ++ l2 ∧
    Forall (λ e, e.1 < index) l1 ∧ Forall (λ e, index ≤ e.1) l2 ∧
    om_sorted l2 ∧
    completeAllBelow index q =
      (let '(d, q') := checkAndCompleteAfterCurrentIndex
         {| currentIndex := Z.max index (currentIndex q); promises := l2 |} in
       (map (λ e, fulfil e.2) l1 ++ d, q')).
Proof.
  intros Hs. destruct (complete_below_loop_spec index _ Hs) as (l1 & l2 & E & El & H1 & H2).
  exists l1, l2. split_and!; [done..| |].
  - rewrite E in Hs. by apply sorted_app in Hs as (_ & ? & _).
  - unfold completeAllBelow. rewrite El, E. rewrite erase_all_prefix by congruence.
    rewrite Z.gtb_ltb. destruct (Z.ltb_spec (currentIndex q) index).
    + by rewrite Z.max_l by lia.
    + by rewrite Z.max_r by lia.
Qed.

Lemma add_sorted index p r b q done q' :
  om_sorted (promises q) → add index p r b q = (done, q') → om_sorted (promises q').
Proof.
  unfold add. intros Hs. destruct b.
  - intros E. apply check_conserves in E as (_ & _ & ?); [done|by apply om_sorted_set].
  - intros; simplify_eq; simpl. by apply om_sorted_set.
Qed.

Lemma completeAllBelow_sorted index q done q' :
  om_sorted (promises q) → completeAllBelow index q = (done, q') → om_sorted (promises q').
Proof.
  intros Hs. destruct (complete_below_split index q Hs) as (l1 & l2 & _ & _ & _ & Hs2 & ->).
  destruct (checkAndCompleteAfterCurrentIndex _) as [d q1] eqn:E. intros; simplify_eq.
  by apply check_conserves in E as (_ & _ & ?).
Qed.

Lemma add_index_mono index p r b q done q' :
  om_sorted (promises q) → add index p r b q = (done, q') → currentIndex q ≤ currentIndex q'.
Proof.
  unfold add. intros Hs. destruct b.
  - intros E. apply check_conserves in E as (_ & ? & _); [done|by apply om_sorted_set].
  - intros; simplify_eq; simpl. lia.
Qed.

Lemma completeAllBelow_index_mono index q done q' :
  om_sorted (promises q) → completeAllBelow index q = (done, q') →
  Z.max index (currentIndex q) ≤ currentIndex q'.
Proof.
  intros Hs. destruct (complete_below_split index q Hs) as (l1 & l2 & _ & _ & _ & Hs2 & ->).
  destruct (checkAndCompleteAfterCurrentIndex _) as [d q1] eqn:E. intros; simplify_eq.
  by apply check_conserves in E as (_ & ? & _).
Qed.

Lemma completeAllBelow_split index q done q' :
  om_sorted (promises q) → completeAllBelow index q = (done, q') →
  ∃ l1, promises q = l1 ++ promises q' ∧ done = map (λ e, fulfil e.2) l1 ∧
    Z.max index (currentIndex q) ≤ currentIndex q' ∧
    (∀ k, k ∈ l1.*1 → k < currentIndex q') ∧
    (∀ k, Z.max index (currentIndex q) ≤ k < currentIndex q' → k ∈ l1.*1).
Proof.
  intros Hs. destruct (complete_below_split index q Hs) as (l1 & l2 & E & H1 & _ & Hs2 & ->).
  destruct (checkAndCompleteAfterCurrentIndex _) as [d q1] eqn:Ec. intros; simplify_eq.
  apply check_split in Ec as (l3 & Hp & -> & Hle & Hk); [|done]. simpl in *.
  exists (l1 ++ l3). rewrite E, Hp, map_app, <- app_assoc. split_and!; [done..| |].
  - intros k. rewrite fmap_app, elem_of_app, <- Hk. intros [Hin|]; [|lia].
    apply list_elem_of_fmap in Hin as (e & -> & Hin).
    rewrite Forall_forall in H1. apply H1 in Hin. lia.
  - intros k Hk'. rewrite fmap_app, elem_of_app. right. by apply Hk.
Qed.

Lemma settled_add index p r q :
  settled q → currentIndex q ≤ index →
  let m := om_set index {| promise := p; result := r |} (promises q) in
  om_sorted m ∧ Forall (λ e, currentIndex q ≤ e.1) m.
Proof.
  intros [Hs Hgt] Hi. split; [by apply om_sorted_set|].
  apply Forall_om_set; [done|]. eapply Forall_impl; [done|]. simpl. lia.
Qed.

Lemma add_spec index p r q done q' :
  settled q → currentIndex q ≤ index →
  add index p r true q = (done, q') →
  let m := om_set index {| promise := p; result := r |} (promises q) in
  first_hole (currentIndex q) m (currentIndex q') ∧
  done = entries_below (currentIndex q') m ∧
  promises q' = entries_from (currentIndex q') m ∧
  settled q'.
Proof.
  intros Hq Hi E. destruct (settled_add index p r q Hq Hi) as [Hs Hge].
  exact (check_spec {| currentIndex := currentIndex q;
                       promises := om_set index {| promise := p; result := r |} (promises q) |}
           _ _ Hs Hge E).
Qed.

Lemma waiting_om_set index p r (m : ordmap Z (PromiseState P T)) :
  om_find index m = None →
  (p, r) :: map (λ e, fulfil e.2) m ≡ₚ
  map (λ e, fulfil e.2) (om_set index {| promise := p; result := r |} m).
Proof.
  induction m as [|[k v] m IH]; simpl; [done|].
  repeat case_decide; simpl; try done. intros ?. rewrite <- IH by done. constructor.
Qed.

Lemma add_conserves index p r b q done q' :
  om_sorted (promises q) → om_find index (promises q) = None →
  add index p r b q = (done, q') → (p, r) :: waiting q ≡ₚ done ++ waiting q'.
Proof.
  intros Hs Hnone E. pose proof (waiting_om_set index p r _ Hnone) as Hp.
  unfold add in E. destruct b.
  - apply check_conserves in E as (Hw & _ & _); [|by apply om_sorted_set].
    unfold waiting in *. simpl in Hw. by rewrite Hp, Hw.
  - simplify_eq. done.
Qed.

(** C26: [add] at or after the current index completes, in order, exactly the
    promises before the first hole, moves the current index to that hole and
    keeps the others: "all promises from the currentIndex to the first hole
    are completed".  *)
Theorem add_completes_to_first_hole index p r q done q' :
  settled q → currentIndex q ≤ index →
  add index p r true q = (done, q') →
  let m := om_set index {| promise := p; result := r |} (promises q) in
  first_hole (currentIndex q) m (currentIndex q') ∧
  done = entries_below (currentIndex q') m ∧
  promises q' = entries_from (currentIndex q') m ∧
  settled q'.
Proof. apply add_spec. Qed.

(** [completeAllBelow index] completes every promise below [index] and
    then on to the first hole from there, even if promises were left behind
    the current index. *)
Theorem completeAllBelow_spec index q done q' :
  om_sorted (promises q) →
  (∀ k, is_Some (om_find k (promises q)) → k < index ∨ currentIndex q ≤ k) →
  completeAllBelow index q = (done, q') →
  (∀ k, Z.max index (currentIndex q) ≤ k < currentIndex q' →
        is_Some (om_find k (promises q))) ∧
  om_find (currentIndex q') (promises q) = None ∧
  done = entries_below (currentIndex q') (promises q) ∧
  settled q'.
Proof.
  intros Hs Hk. destruct (complete_below_split index q Hs) as (l1 & l2 & E & H1 & H2 & Hs2 & ->).
  destruct (checkAndCompleteAfterCurrentIndex _) as [d q1] eqn:Ec.
  intros [= <- <-]. rewrite E in *. rewrite Forall_forall in H1, H2.
  assert (Hfind : ∀ k, index ≤ k → om_find k (l1 ++ l2) = om_find k l2).
  { intros k Hle. apply option_eq. intros v. rewrite !om_find_elem, elem_of_app by done.
    split; [intros [Hin|]; [|done]|by right]. apply H1 in Hin. simpl in Hin. lia. }
  apply check_spec in Ec as ((Hle & Hall & Hnone) & -> & _ & Hset); [|done|].
  - simpl in *. split_and!.
    + intros k Hk'. rewrite Hfind by lia. by apply Hall.
    + by rewrite Hfind by lia.
    + unfold entries_below. rewrite filter_app, map_app. f_equal.
      rewrite filter_all; [done|]. intros e He. apply H1 in He. lia.
    + done.
  - simpl. apply Forall_forall. intros [k v] He. simpl. apply H2 in He as Hge. simpl in *.
    destruct (Hk k) as [?|?]; [|lia|lia].
    exists v. apply om_find_elem; [done|]. apply elem_of_app. by right.
Qed.

(** Exactly once: an operation neither loses nor duplicates a promise.
    The completed promises and the waiting ones of the new queue are those
    of the old one, plus the added one. *)
Theorem promises_conserved q :
  om_sorted (promises q) →
  (∀ index done q', completeAllBelow index q = (done, q') →
     waiting q = done ++ waiting q') ∧
  (∀ index p r b done q', om_find index (promises q) = None →
     add index p r b q = (done, q') → (p, r) :: waiting q ≡ₚ done ++ waiting q').
Proof.
  intros Hs. split.
  - intros index done q'.
    destruct (complete_below_split index q Hs) as (l1 & l2 & E & _ & _ & Hs2 & ->).
    destruct (checkAndCompleteAfterCurrentIndex _) as [d q1] eqn:Ec. intros [= <- <-].
    apply check_conserves in Ec as (Hw & _ & _); [|done].
    rewrite <- app_assoc, <- Hw. unfold waiting. simpl. by rewrite E, map_app.
  - intros index p r b done q'. by apply add_conserves.
Qed.

(** The range reported by [getRangeEligibleForCompletion] after an [add]
    that does not complete is exactly the range the completing [add] would
    advance over. *)
Theorem range_is_what_add_completes index p r q :
  getRangeEligibleForCompletion (add index p r false q).2 =
  (currentIndex q, currentIndex (add index p r true q).2).
Proof.
  unfold getRangeEligibleForCompletion, add, checkAndCompleteAfterCurrentIndex. simpl.
  rewrite range_loop_check. by destruct (check_loop _ _) as [[]].
Qed.

(** A promise added below the current index is not completed by [add],
    and while it is there no [add] completes anything: it stands in front of
    the current index until [completeAllBelow] is called above it. *)
Theorem add_below_current_stalls index p r q :
  settled q → index < currentIndex q →
  let q1 := (add index p r true q).2 in
  (add index p r true q).1 = [] ∧ currentIndex q1 = currentIndex q ∧
  ∀ k p' r', index < k →
    (add k p' r' true q1).1 = [] ∧ currentIndex (add k p' r' true q1).2 = currentIndex q.
Proof.
  destruct q as [c m]. intros [Hs Hgt] Hi. simpl in *.
  assert (Hhd : om_set index {| promise := p; result := r |} m
                = (index, {| promise := p; result := r |}) :: m).
  { destruct m as [|[k v] m]; [done|]. simpl.
    apply Forall_cons in Hgt as [Hk _]. simpl in Hk.
    rewrite decide_False by lia. rewrite decide_True; [done|]. simpl. lia. }
  unfold add, checkAndCompleteAfterCurrentIndex. simpl. rewrite Hhd. simpl.
  destruct (Z.eqb_spec index c); [lia|]. simpl. split_and!; [done..|].
  intros k p' r' Hk. rewrite decide_False by lia. rewrite decide_False by (simpl; lia).
  simpl. destruct (Z.eqb_spec index c); [lia|]. done.
Qed.
End properties.

(** ** Witnesses *)

Definition example_queue : OrderedCompletionQueue nat Z :=
  {| currentIndex := 4;
     promises := [(5, {| promise := 5%nat; result := 5 |});
                  (7, {| promise := 7%nat; result := 7 |});
                  (8, {| promise := 8%nat; result := 8 |})] |}.

Lemma example_queue_settled : settled example_queue.
Proof.
  split; [|repeat constructor; simpl; lia]. by apply om_sortedb_sorted.
Qed.

(** The example of the source comment: adding 4 to [4]HOLE, 5, HOLE, 7, 8
    completes 4 and 5. *)
Lemma add_completes_to_first_hole_witness :
  first_hole 4 (om_set 4 {| promise := 4%nat; result := 4 |} (promises example_queue)) 6 ∧
  (add 4 4%nat 4 true example_queue).1 = [(4%nat, 4); (5%nat, 5)].
Proof.
  split; [|reflexivity].
  apply (add_completes_to_first_hole 4 4%nat 4 example_queue
           (add 4 4%nat 4 true example_queue).1 (add 4 4%nat 4 true example_queue).2);
    [exact example_queue_settled|simpl; lia|reflexivity].
Defined.

Lemma completeAllBelow_spec_witness :
  (completeAllBelow 7 example_queue).1 = [(5%nat, 5); (7%nat, 7); (8%nat, 8)] ∧
  settled (completeAllBelow 7 example_queue).2.
Proof.
  split; [reflexivity|].
  apply (completeAllBelow_spec 7 example_queue
           (completeAllBelow 7 example_queue).1 (completeAllBelow 7 example_queue).2).
  - exact (proj1 example_queue_settled).
  - intros k [v Hv]. right. apply om_find_Some_elem in Hv. simpl in *.
    assert (k ∈ [5; 7; 8]) by (apply (list_elem_of_fmap_2 fst) in Hv; exact Hv).
    set_unfold. lia.
  - reflexivity.
Defined.

Lemma promises_conserved_witness :
  waiting example_queue =
    (completeAllBelow 6 example_queue).1 ++ waiting (completeAllBelow 6 example_queue).2.
Proof.
  apply (proj1 (promises_conserved example_queue (proj1 example_queue_settled)) 6).
  reflexivity.
Defined.

Lemma add_below_current_stalls_witness :
  (add 4 0%nat 4 true (add 3 0%nat 3 true example_queue).2).1 = [].
Proof.
  apply (add_below_current_stalls 3 0%nat 3 example_queue example_queue_settled);
    simpl; lia.
Defined.
