(* ===== verification/Futures.v ===== *)
(** * Quorum futures

    [src/log/utils/FutureUtils.h]: [anyNSuccessful] turns the futures of the
    calls to all replicas into one future that is completed by the [n]-th
    success or, when all have finished without [n] successes, by an exception
    that collects the failures.  The model processes the completions of the
    futures one after the other, in the order in which they happen. *)

From stdpp Require Import base gmap sets list.
From Stdlib Require Import ZArith Lia.
From S2P Require Import Prelude.

Open Scope Z_scope.

(** The shared counters, the collected exceptions and the promise that the
    continuations of [anyNSuccessful] close over. *)
Record QuorumState := {
  successCounter : Z;
  failureCounter : Z;
  exceptions_ : list (nat * exn);
  promise_ : option (outcome ()) }.

Definition quorum_init : QuorumState :=
  {| successCounter := 0; failureCounter := 0; exceptions_ := []; promise_ := None |}.

(** [promise->setValue()] / [setException()]: a promise that is already
    satisfied throws [PromiseAlreadySatisfied] into the continuation's own
    future, which nobody reads. *)
Definition satisfy (o : outcome ()) (p : option (outcome ())) : option (outcome ()) :=
  match p with
  | Some _ => p
  | None => Some o
  end.

Definition MultipleExceptions_add (index : nat) (e : exn) (es : list (nat * exn))
    : list (nat * exn) := es ++ [(index, e)].

(** The continuation attached to future [index]; [inr tt] is a value. *)
Definition quorum_step (n : Z) (totalPromises : nat)
    (st : QuorumState) (ev : nat * (exn + ())) : QuorumState :=
  let '(index, res) := ev in
  let '(s, f, es) :=
    match res with
    | inr _ => (successCounter st + 1, failureCounter st, exceptions_ st)
    | inl e => (successCounter st, failureCounter st + 1,
                MultipleExceptions_add index e (exceptions_ st))
    end in
  let p :=
    if s =? n then satisfy (Ret ()) (promise_ st)
    else if s + f =? totalPromises then satisfy (Throw (MultipleExceptions es)) (promise_ st)
    else promise_ st in
  {| successCounter := s; failureCounter := f; exceptions_ := es; promise_ := p |}.

Definition anyNSuccessful_run (n : Z) (totalPromises : nat) (evs : list (nat * (exn + ())))
    : QuorumState :=
  foldl (quorum_step n totalPromises) quorum_init evs.

(** The future returned by [anyNSuccessful] after the completions [evs]. *)
Definition anyNSuccessful (n : Z) (totalPromises : nat) (evs : list (nat * (exn + ())))
    : outcome () :=
  match promise_ (anyNSuccessful_run n totalPromises evs) with
  | Some o => o
  | None => Block
  end.

(** ** Specification *)

Definition succeeded (ev : nat * (exn + ())) : bool :=
  match ev.2 with inr _ => true | inl _ => false end.

Definition successes (evs : list (nat * (exn + ()))) : nat :=
  length (filter (λ ev, succeeded ev) evs).

Definition failures (evs : list (nat * (exn + ()))) : list (nat * exn) :=
  omap (λ ev : nat * (exn + ()), match ev.2 with inl e => Some (ev.1, e) | inr _ => None end) evs.

Definition quorum_spec (n : Z) (totalPromises : nat) (evs : list (nat * (exn + ())))
    : option (outcome ()) :=
  if bool_decide (n ≤ successes evs) then Some (Ret ())
  else if bool_decide (length evs = totalPromises)
       then Some (Throw (MultipleExceptions (failures evs)))
  else None.

(** ** Properties *)

Lemma successes_snoc evs ev :
  Z.of_nat (successes (evs ++ [ev])) =
  successes evs + match ev.2 with inr _ => 1 | inl _ => 0 end.
Proof.
  unfold successes. rewrite filter_app, length_app, filter_cons.
  destruct ev as [i [e|[]]]; simpl.
  - lia.
  - lia.
Qed.

Lemma successes_le evs : (successes evs ≤ length evs)%nat.
Proof. apply length_filter. Qed.

Lemma failures_snoc evs ev :
  failures (evs ++ [ev]) =
  failures evs ++ match ev.2 with inl e => [(ev.1, e)] | inr _ => [] end.
Proof. unfold failures. rewrite omap_app. simpl. by destruct ev as [i [e|[]]]. Qed.

(** The counters count, the exceptions are the failures in completion order,
    and the promise is the one of the specification. *)
Lemma quorum_run_spec n total evs :
  1 ≤ n → (length evs ≤ total)%nat →
  let st := anyNSuccessful_run n total evs in
  successCounter st = successes evs ∧
  successCounter st + failureCounter st = length evs ∧
  exceptions_ st = failures evs ∧
  promise_ st = (if bool_decide (evs = []) then None else quorum_spec n total evs).
Proof.
  intros Hn. induction evs as [|ev evs IH] using rev_ind; intros Hlen; simpl.
  { done. }
  unfold anyNSuccessful_run in *. rewrite foldl_app, length_app in *. simpl in *.
  destruct IH as (Hs & Hf & He & Hp); [lia|].
  set (st := foldl _ _ evs) in *. clearbody st.
  rewrite (bool_decide_false (evs ++ [ev] = [])) by (by destruct evs).
  unfold quorum_spec. rewrite successes_snoc, failures_snoc, length_app.
  pose proof (successes_le evs). cbn [length].
  assert (Hp' : promise_ st = if bool_decide (n ≤ successes evs) then Some (Ret ()) else None).
  { rewrite Hp. unfold quorum_spec. destruct evs as [|ev0 evs0]; simpl.
    - rewrite bool_decide_false; [done|]. unfold successes; simpl; lia.
    - case_bool_decide; [done|]. rewrite (bool_decide_false (_ = total)); [done|].
      simpl in *. lia. }
  destruct ev as [i [e|[]]]; simpl; rewrite Hp', He, Hs.
  - rewrite Z.add_0_r. split_and!; [lia|lia|done|].
    destruct (Z.eqb_spec (successes evs) n) as [E|E].
    { rewrite (bool_decide_true (n ≤ _)) by lia. done. }
    case_bool_decide as E1; [by destruct (_ =? _)|].
    destruct (Z.eqb_spec (successes evs + (failureCounter st + 1)) total).
    + rewrite bool_decide_true by lia. done.
    + rewrite bool_decide_false by lia. done.
  - rewrite app_nil_r. split_and!; [lia|lia|done|].
    destruct (Z.eqb_spec (successes evs + 1) n) as [E|E].
    { rewrite (bool_decide_false (n ≤ successes evs)), (bool_decide_true (n ≤ _)) by lia. done. }
    destruct (bool_decide_reflect (n ≤ successes evs)) as [E1|E1].
    { rewrite (bool_decide_true (n ≤ _ + 1)) by lia. by destruct (_ =? _). }
    rewrite (bool_decide_false (n ≤ _ + 1)) by lia.
    destruct (Z.eqb_spec (successes evs + 1 + failureCounter st) total).
    + rewrite bool_decide_true by lia. done.
    + rewrite bool_decide_false by lia. done.
Qed.

(** The result is a value only after [n] successes. *)
Lemma anyNSuccessful_Ret n total evs :
  anyNSuccessful n total evs = Ret () → n ≤ successes evs.
Proof.
  unfold anyNSuccessful. destruct (promise_ _) as [o|] eqn:E; [|done]. intros ->.
  revert E. unfold anyNSuccessful_run.
  enough (H : let st := foldl (quorum_step n total) quorum_init evs in
    successCounter st = successes evs ∧ (promise_ st = Some (Ret ()) → n ≤ successes evs))
    by apply H.
  induction evs as [|ev evs IH] using rev_ind; [done|].
  rewrite foldl_app. simpl. destruct IH as [Hs Hp]. rewrite successes_snoc.
  set (st := foldl _ _ evs) in *. destruct ev as [i [e|[]]]; simpl.
  - split; [lia|]. rewrite Hs. destruct (Z.eqb_spec (successes evs) n); [lia|].
    destruct (_ =? _); [|intros ?%Hp; lia].
    unfold satisfy. destruct (promise_ st); [intros ?%Hp; lia|done].
  - split; [lia|]. rewrite Hs. destruct (Z.eqb_spec (successes evs + 1) n); [lia|].
    destruct (_ =? _); [|intros ?%Hp; lia].
    unfold satisfy. destruct (promise_ st); [intros ?%Hp; lia|done].
Qed.

(** For a positive quorum [n] and at least one future, in whatever order
    the futures finish: the result is a value as soon as [n] have succeeded
    and stays a value; it is the exception with all failures exactly when all
    have finished with fewer than [n] successes; it is pending otherwise. *)
Theorem anyNSuccessful_spec n total evs :
  1 ≤ n → (length evs ≤ total)%nat → (1 ≤ total)%nat →
  anyNSuccessful n total evs =
  match quorum_spec n total evs with Some o => o | None => Block end.
Proof.
  intros Hn Hlen Htot. destruct (quorum_run_spec n total evs Hn Hlen) as (_ & _ & _ & Hp).
  unfold anyNSuccessful. rewrite Hp. case_bool_decide as E; [|done]. subst.
  unfold quorum_spec, successes. simpl. rewrite !bool_decide_false; [done|lia|lia].
Qed.

Lemma anyNSuccessful_spec_witness :
  anyNSuccessful 2 3 [(1%nat, inr ()); (0%nat, inl NullPointer); (2%nat, inr ())] = Ret ().
Proof.
  rewrite (anyNSuccessful_spec 2 3); [reflexivity|lia|simpl; lia|lia].
Defined.

(** With no futures at all, the future [anyNSuccessful] returns is never
    completed, whatever the quorum. *)
Theorem anyNSuccessful_empty n : anyNSuccessful n 0 [] = Block.
Proof. done. Qed.
