(* ===== verification/LogTypes.v ===== *)
(** * Data of the log

    The types of [src/log/include/Common.h], of the protocol buffer messages
    of [src/log/proto/] and of [src/common/proto/Common.proto].  A protocol
    buffer message is the record of its fields; an unset field reads as its
    default, so [default_...] is the freshly constructed message. *)

From stdpp Require Import base strings list.
From Stdlib Require Import ZArith.
From S2P Require Import Prelude.

Open Scope Z_scope.

Definition LogId := Z.
Definition VersionId := Z.

Definition LowestNonExistingLogId : Z := i64_min.
Definition HighestNonExistingLogId : Z := i64_max.

Record LogEntry := mkLogEntry { logId : Z; payload : string }.

Inductive LogReadError := IndexOutOfBounds | NotFound | Unknown.

(** [operator<<] on [LogReadError]. *)
Definition readErrorString (e : LogReadError) : string :=
  match e with
  | IndexOutOfBounds => "LogReadError"
  | NotFound => "NotFound"
  | Unknown => "Unknown"
  end.

Record IpAddress := { host : string; port : Z }.
Record SequencerConfig := { sequencer_id : string; sequencer_ip : IpAddress }.
Record ReplicaConfig := { replica_id : string; replica_ip : IpAddress; local : bool }.

Record MetadataConfig := {
  version_id : Z;
  previous_version_id : Z;
  start_index : Z;
  end_index : Z;
  previous_version_end_index : Z;
  sequencer_config : SequencerConfig;
  replica_set_config : list ReplicaConfig }.

Definition default_IpAddress : IpAddress := {| host := ""; port := 0 |}.
Definition default_SequencerConfig : SequencerConfig :=
  {| sequencer_id := ""; sequencer_ip := default_IpAddress |}.
Definition default_MetadataConfig : MetadataConfig :=
  {| version_id := 0; previous_version_id := 0; start_index := 0; end_index := 0;
     previous_version_end_index := 0; sequencer_config := default_SequencerConfig;
     replica_set_config := [] |}.

Definition set_end_index (e : Z) (c : MetadataConfig) : MetadataConfig :=
  {| version_id := version_id c; previous_version_id := previous_version_id c;
     start_index := start_index c; end_index := e;
     previous_version_end_index := previous_version_end_index c;
     sequencer_config := sequencer_config c; replica_set_config := replica_set_config c |}.

#[export] Instance LogEntry_eq_dec : EqDecision LogEntry.
Proof. solve_decision. Defined.
#[export] Instance LogReadError_eq_dec : EqDecision LogReadError.
Proof. solve_decision. Defined.
#[export] Instance IpAddress_eq_dec : EqDecision IpAddress.
Proof. solve_decision. Defined.
#[export] Instance SequencerConfig_eq_dec : EqDecision SequencerConfig.
Proof. solve_decision. Defined.
#[export] Instance ReplicaConfig_eq_dec : EqDecision ReplicaConfig.
Proof. solve_decision. Defined.
#[export] Instance MetadataConfig_eq_dec : EqDecision MetadataConfig.
Proof. solve_decision. Defined.
