(* ===== verification/Metadata.v ===== *)
(** * The in-memory metadata store

    [src/log/impl/InMemoryMetadataStore.cc]: the chain of metadata configs,
    by version and by start index, and its compare-and-append.  The mutex
    makes each operation one step. *)

From stdpp Require Import base gmap strings list sorting.
From Stdlib Require Import ZArith Lia.
From S2P Require Import Prelude LogTypes.

Open Scope Z_scope.

Record State := {
  configs_ : ordmap Z MetadataConfig;
  logIdToConfig_ : ordmap Z MetadataConfig }.

Definition empty_store : State := {| configs_ := []; logIdToConfig_ := [] |}.

(** The [while] loop of [getConfigUsingLogId], over the configs from the
    iterator back to [begin()]. *)
Fixpoint walk_back (logId : Z) (l : list MetadataConfig) : option MetadataConfig :=
  match l with
  | [] => None
  | c :: l' =>
      if (start_index c <=? logId) && (logId <? end_index c) then Some c
      else walk_back logId l'
  end.

Definition getConfigUsingLogId (logId : Z) (st : State) : option MetadataConfig :=
  match logIdToConfig_ st with
  | [] => None
  | m =>
      let before := rev (om_upto logId m).*2 in
      match om_upper_bound logId m with
      | [] => walk_back logId before
      | (_, c) :: _ => walk_back logId (c :: before)
      end
  end.

Definition getConfig (versionId : Z) (st : State) : option MetadataConfig :=
  if versionId =? 0 then Some default_MetadataConfig
  else om_find versionId (configs_ st).

Definition getCurrentVersionId (st : State) : Z :=
  match om_last (configs_ st) with
  | None => 0
  | Some (v, _) => v
  end.

Definition append_config (c : MetadataConfig) (st : State) : State :=
  {| configs_ := om_set (version_id c) c (configs_ st);
     logIdToConfig_ := om_set (start_index c) c (logIdToConfig_ st) |}.

(** [configs_[versionId].set_end_index(e)] *)
Definition close_config (versionId e : Z) (st : State) : State :=
  {| configs_ := om_set versionId
       (set_end_index e (default default_MetadataConfig (om_find versionId (configs_ st))))
       (configs_ st);
     logIdToConfig_ := logIdToConfig_ st |}.

Definition compareAndAppendRange (c : MetadataConfig) : M State () := λ st,
  let versionId := previous_version_id c in
  match om_last (configs_ st) with
  | None =>
      if negb (versionId =? 0) then (Throw OptimisticConcurrencyException, st)
      else (Ret (), append_config c st)
  | Some (last, _) =>
      if (last =? versionId) && (last + 1 =? version_id c) then
        (Ret (), append_config c (close_config versionId (start_index c) st))
      else (Throw OptimisticConcurrencyException, st)
  end.

(** ** Specification: the store is a chain of configs, oldest first *)

(** A config is closed by its successor. *)
Fixpoint close_chain (ch : list MetadataConfig) : list MetadataConfig :=
  match ch with
  | c :: ((c' :: _) as ch') => set_end_index (start_index c') c :: close_chain ch'
  | _ => ch
  end.

Definition configs_of (ch : list MetadataConfig) : ordmap Z MetadataConfig :=
  map (λ c, (version_id c, c)) (close_chain ch).

Definition by_start (ch : list MetadataConfig) : ordmap Z MetadataConfig :=
  foldl (λ m c, om_set (start_index c) c m) [] ch.

Definition consecutive (ch : list MetadataConfig) : Prop :=
  ∃ v, map version_id ch = seqZ v (length ch).

(** Each config names its predecessor; the first one the empty store. *)
Fixpoint linked (prev : Z) (ch : list MetadataConfig) : Prop :=
  match ch with
  | [] => True
  | c :: ch' => previous_version_id c = prev ∧ linked (version_id c) ch'
  end.

Definition represents (ch : list MetadataConfig) (st : State) : Prop :=
  consecutive ch ∧ linked 0 ch ∧
  configs_ st = configs_of ch ∧ logIdToConfig_ st = by_start ch.

Definition chain_version (ch : list MetadataConfig) : Z :=
  match last ch with None => 0 | Some c => version_id c end.

Definition chain_accepts (c : MetadataConfig) (ch : list MetadataConfig) : bool :=
  match last ch with
  | None => previous_version_id c =? 0
  | Some l => (previous_version_id c =? version_id l) && (version_id c =? version_id l + 1)
  end.

Definition chain_lookup (logId : Z) (ch : list MetadataConfig) : option MetadataConfig :=
  last (filter (λ c, start_index c ≤ logId) ch).

Definition starts_increase (ch : list MetadataConfig) : Prop :=
  StronglySorted (λ a b, start_index a ≤ start_index b) ch.

(** ** The chain of the configs *)

Lemma close_chain_versions ch : map version_id (close_chain ch) = map version_id ch.
Proof.
  induction ch as [|c [|c' ch] IH]; [done..|]. simpl in *. by rewrite IH.
Qed.

Lemma length_close_chain ch : length (close_chain ch) = length ch.
Proof. rewrite <- (length_map version_id), close_chain_versions. apply length_map. Qed.

(** Appending a config closes the last one and leaves the others alone. *)
Lemma close_chain_snoc ch l :
  ∃ ch', map version_id ch' = map version_id ch ∧
    close_chain (ch ++ [l]) = ch' ++ [l] ∧
    ∀ c, close_chain (ch ++ [l; c]) = ch' ++ [set_end_index (start_index c) l; c].
Proof.
  induction ch as [|c0 ch IH]; [by exists []|].
  destruct IH as (ch' & Hv & E1 & E2).
  destruct ch as [|c1 ch].
  - destruct ch'; [|done]. exists [set_end_index (start_index l) c0]. done.
  - exists (set_end_index (start_index c1) c0 :: ch').
    split_and!; [simpl in *; by rewrite Hv| |].
    + change (close_chain ((c0 :: c1 :: ch) ++ [l]))
        with (set_end_index (start_index c1) c0 :: close_chain ((c1 :: ch) ++ [l])).
      by rewrite E1.
    + intros c. change (close_chain ((c0 :: c1 :: ch) ++ [l; c]))
        with (set_end_index (start_index c1) c0 :: close_chain ((c1 :: ch) ++ [l; c])).
      by rewrite E2.
Qed.

Lemma consecutive_snoc ch l :
  consecutive (ch ++ [l]) →
  consecutive ch ∧ Forall (λ c, version_id c < version_id l) ch ∧
  ∀ c, version_id c = version_id l + 1 → consecutive (ch ++ [l; c]).
Proof.
  intros [v Hv]. rewrite map_app, length_app, Nat2Z.inj_add, seqZ_app in Hv by lia.
  apply app_inj_2 in Hv as [Hv Hl]; [|done].
  simpl in Hl. rewrite seqZ_cons in Hl by lia. injection Hl as Hl.
  split_and!; [by exists v| |].
  - apply Forall_forall. intros c Hc.
    assert (version_id c ∈ map version_id ch) as Hin by (by apply list_elem_of_fmap_2).
    rewrite Hv, elem_of_seqZ in Hin. lia.
  - intros c Hc. exists v. rewrite map_app, length_app, Nat2Z.inj_add, seqZ_app, Hv by lia.
    f_equal. simpl. rewrite !seqZ_cons by lia. simpl. repeat f_equal; lia.
Qed.

Lemma configs_of_sorted ch : consecutive ch → om_sorted (configs_of ch).
Proof.
  intros [v Hv]. unfold configs_of. rewrite <- close_chain_versions, <- length_close_chain in Hv.
  revert v Hv. generalize (close_chain ch) as l. intros l.
  induction l as [|c l IH]; intros v Hv; simpl in *; [constructor|].
  rewrite seqZ_cons in Hv by lia. injection Hv as Hc Hv.
  replace (Z.pred (S (length l))) with (Z.of_nat (length l)) in Hv by lia.
  apply om_sorted_cons. split; [|by eapply IH].
  apply Forall_forall. intros [k c'] Hin. apply key_lt_Z. simpl.
  apply list_elem_of_fmap in Hin as (c2 & [= -> ->] & Hin).
  apply (list_elem_of_fmap_2 version_id) in Hin.
  change (version_id c2 ∈ map version_id l) in Hin. rewrite Hv, elem_of_seqZ in Hin. lia.
Qed.

Lemma configs_of_snoc ch l :
  consecutive (ch ++ [l]) →
  ∃ m, Forall (λ e, key_lt e.1 (version_id l)) m ∧
    configs_of (ch ++ [l]) = m ++ [(version_id l, l)] ∧
    ∀ c, configs_of (ch ++ [l; c]) =
      m ++ [(version_id l, set_end_index (start_index c) l); (version_id c, c)].
Proof.
  intros Hc. destruct (close_chain_snoc ch l) as (ch' & Hv & E1 & E2).
  apply consecutive_snoc in Hc as (_ & Hlt & _).
  exists (map (λ c, (version_id c, c)) ch'). unfold configs_of. rewrite E1. split_and!.
  - apply Forall_forall. intros [k c] Hin. simpl. apply key_lt_Z.
    apply list_elem_of_fmap in Hin as (c2 & [= -> ->] & Hin).
    apply (list_elem_of_fmap_2 version_id) in Hin.
    change (version_id c2 ∈ map version_id ch') in Hin. rewrite Hv in Hin.
    apply list_elem_of_fmap in Hin as (c3 & -> & Hin). rewrite Forall_forall in Hlt. auto.
  - by rewrite map_app.
  - intros c. by rewrite E2, map_app.
Qed.

Lemma chain_snoc_cases (ch : list MetadataConfig) : ch = [] ∨ ∃ ch0 l, ch = ch0 ++ [l].
Proof. destruct ch as [|l ch0 _] using rev_ind; eauto. Qed.

Lemma represents_last ch st :
  represents ch st → om_last (configs_ st) = (λ c, (version_id c, c)) <$> last ch.
Proof.
  intros (Hc & _ & -> & _). destruct (chain_snoc_cases ch) as [->|(ch0 & l & ->)]; [done|].
  destruct (configs_of_snoc ch0 l Hc) as (m & _ & -> & _).
  unfold om_last. by rewrite !last_snoc.
Qed.

Lemma by_start_snoc ch c : by_start (ch ++ [c]) = om_set (start_index c) c (by_start ch).
Proof. unfold by_start. by rewrite foldl_app. Qed.

Lemma linked_snoc prev ch c :
  linked prev (ch ++ [c]) ↔
  linked prev ch ∧ previous_version_id c = default prev (version_id <$> last ch).
Proof.
  revert prev. induction ch as [|c0 ch IH]; intros prev; simpl; [naive_solver|].
  rewrite IH. destruct ch as [|c1 ch]; simpl; [naive_solver|].
  destruct (last (c1 :: ch)) eqn:E; [naive_solver|]. by rewrite last_None in E.
Qed.

Lemma represents_append ch c st :
  represents ch st → chain_accepts c ch = true →
  (compareAndAppendRange c st).1 = Ret () ∧
  represents (ch ++ [c]) (compareAndAppendRange c st).2.
Proof.
  intros Hrep. pose proof (represents_last _ _ Hrep) as Hlast.
  destruct Hrep as (Hc & Hlk & Hcfg & Hby). unfold chain_accepts, compareAndAppendRange.
  rewrite Hlast. destruct (chain_snoc_cases ch) as [->|(ch0 & l & ->)]; simpl.
  - intros Hp. rewrite Hp. simpl. split; [done|]. split_and!.
    + exists (version_id c). done.
    + simpl. split; [|done]. by apply Z.eqb_eq.
    + simpl. by rewrite Hcfg.
    + simpl. by rewrite Hby.
  - rewrite last_snoc. simpl. rewrite andb_true_iff, !Z.eqb_eq. intros [Hp Hv].
    rewrite (proj2 (Z.eqb_eq _ _)) by done. rewrite (proj2 (Z.eqb_eq (version_id l + 1) _)) by lia.
    simpl. split; [done|].
    destruct (configs_of_snoc ch0 l Hc) as (m & Hm & E1 & E2).
    split_and!.
    + rewrite <- app_assoc. by apply consecutive_snoc.
    + apply linked_snoc. split; [done|]. by rewrite last_snoc.
    + rewrite <- app_assoc. simpl. rewrite E2, Hcfg, E1, Hp.
      rewrite om_find_last, om_set_last by done. simpl.
      rewrite om_set_snoc; [by rewrite <- app_assoc|].
      apply Forall_app. split.
      * eapply Forall_impl; [done|]. intros e He. apply key_lt_Z in He. apply key_lt_Z. lia.
      * constructor; [|done]. apply key_lt_Z. simpl. lia.
    + simpl. by rewrite by_start_snoc, Hby.
Qed.

Lemma compareAndAppend_rejects ch c st :
  represents ch st → chain_accepts c ch = false →
  compareAndAppendRange c st = (Throw OptimisticConcurrencyException, st).
Proof.
  intros Hrep. pose proof (represents_last _ _ Hrep) as Hlast.
  unfold chain_accepts, compareAndAppendRange. rewrite Hlast.
  destruct (last ch) as [l|]; simpl.
  - rewrite (Z.eqb_sym (version_id l)), (Z.eqb_sym (_ + 1)). by intros ->.
  - by intros ->.
Qed.

(** ** Lookup by log id *)

Lemma om_upto_set_gt logId k (v : MetadataConfig) m :
  ¬ k ≤ logId → om_upto logId (om_set k v m) = om_upto logId m.
Proof.
  intros Hk. unfold om_upto. simpl. induction m as [|[k' v'] m IH]; simpl.
  - by rewrite filter_cons_False by (simpl; lia).
  - case_decide as E; [subst; by rewrite !filter_cons_False by (simpl; lia)|].
    case_decide as E2; [by rewrite filter_cons_False by (simpl; lia)|].
    rewrite !(filter_cons _ (k', v')). by rewrite IH.
Qed.

Lemma last_upto_set logId k (v : MetadataConfig) m :
  k ≤ logId → Forall (λ e, e.1 ≤ k) m → om_sorted m →
  last (om_upto logId (om_set k v m)) = Some (k, v).
Proof.
  intros Hk Hall Hs. unfold om_upto. simpl.
  assert (∃ m0, om_set k v m = m0 ++ [(k, v)]) as [m0 ->].
  { clear Hk. induction m as [|[k' v'] m IH]; simpl; [by exists []|].
    apply om_sorted_cons in Hs as [Hlt Hs]. apply Forall_cons in Hall as [Hk Hall]. simpl in Hk.
    case_decide as E.
    - subst. destruct m as [|[k2 v2] m]; [by exists []|].
      apply Forall_cons in Hlt as [Hlt _]. apply Forall_cons in Hall as [Hle _].
      apply key_lt_Z in Hlt. simpl in *. lia.
    - rewrite decide_False by (simpl; lia). destruct IH as [m0 ->]; [done..|].
      by exists ((k', v') :: m0). }
  rewrite filter_app, (filter_cons_True _ (k, v)), filter_nil by done. apply last_snoc.
Qed.

Lemma by_start_ok ch :
  om_sorted (by_start ch) ∧ Forall (λ e, e.1 = start_index e.2 ∧ e.2 ∈ ch) (by_start ch).
Proof.
  induction ch as [|c ch [IH1 IH2]] using rev_ind; [by split; constructor|].
  rewrite by_start_snoc. split; [by apply om_sorted_set|].
  apply Forall_om_set; [split; [done|set_solver]|].
  eapply Forall_impl; [done|]. set_solver.
Qed.

Lemma last_upto_by_start logId ch :
  starts_increase ch →
  snd <$> last (om_upto logId (by_start ch)) = chain_lookup logId ch.
Proof.
  induction ch as [|c ch IH] using rev_ind; intros Hs; [done|].
  apply StronglySorted_app in Hs as (Hle & Hs & _). specialize (IH Hs).
  rewrite by_start_snoc. unfold chain_lookup in *. rewrite filter_app, filter_cons, filter_nil.
  destruct (by_start_ok ch) as [Hsort Hin]. case_decide as E.
  - rewrite last_snoc, last_upto_set; [done|done| |done].
    eapply Forall_impl; [done|]. intros e [-> He]. apply Hle; [done|by left].
  - rewrite app_nil_r, om_upto_set_gt by done. done.
Qed.

Lemma represents_empty : represents [] empty_store.
Proof. split_and!; [by exists 0|done|done|done]. Qed.

(** ** Properties *)

(** A sequence of [compareAndAppendRange] calls and their results, on the
    store and on the chain. *)
Fixpoint run_appends (cs : list MetadataConfig) (st : State) : list (outcome ()) * State :=
  match cs with
  | [] => ([], st)
  | c :: cs' =>
      let '(o, st1) := compareAndAppendRange c st in
      let '(os, st2) := run_appends cs' st1 in (o :: os, st2)
  end.

Fixpoint run_chain (cs : list MetadataConfig) (ch : list MetadataConfig)
    : list bool * list MetadataConfig :=
  match cs with
  | [] => ([], ch)
  | c :: cs' =>
      let ok := chain_accepts c ch in
      let '(oks, ch') := run_chain cs' (if ok then ch ++ [c] else ch) in (ok :: oks, ch')
  end.

Lemma run_refines cs ch st :
  represents ch st →
  (run_appends cs st).1 =
    map (λ ok : bool, if ok then Ret () else Throw OptimisticConcurrencyException)
      (run_chain cs ch).1 ∧
  represents (run_chain cs ch).2 (run_appends cs st).2.
Proof.
  revert ch st. induction cs as [|c cs IH]; intros ch st Hrep; simpl; [done|].
  destruct (chain_accepts c ch) eqn:Ha.
  - destruct (represents_append ch c st Hrep Ha) as [E1 E2].
    destruct (compareAndAppendRange c st) as [o st1]. simpl in *. subst.
    specialize (IH _ _ E2). destruct (run_appends cs st1), (run_chain cs (ch ++ [c])).
    simpl in *. destruct IH as [-> ?]. done.
  - rewrite (compareAndAppend_rejects ch c st Hrep Ha).
    specialize (IH _ _ Hrep). destruct (run_appends cs st), (run_chain cs ch).
    simpl in *. destruct IH as [-> ?]. done.
Qed.

(** C20: the store refines the chain of configs: from the empty store, any
    sequence of [compareAndAppendRange] calls returns what the abstract chain
    answers, and ends in a store that represents the chain, so that the current
    version is the last one's. *)
Theorem metadata_store_refines_chain cs :
  let '(os, st) := run_appends cs empty_store in
  let '(oks, ch) := run_chain cs [] in
  os = map (λ ok : bool, if ok then Ret () else Throw OptimisticConcurrencyException) oks ∧
  represents ch st ∧
  getCurrentVersionId st = chain_version ch ∧
  (∀ v, v ≠ 0 → getConfig v st = om_find v (configs_of ch)).
Proof.
  pose proof (run_refines cs [] empty_store represents_empty) as H.
  destruct (run_appends cs empty_store) as [os st], (run_chain cs []) as [oks ch].
  simpl in H. destruct H as [-> Hrep]. split_and!; [done|done| |].
  - unfold getCurrentVersionId, chain_version. rewrite (represents_last _ _ Hrep).
    by destruct (last ch).
  - intros v Hv. unfold getConfig. rewrite (proj2 (Z.eqb_neq _ _) Hv).
    destruct Hrep as (_ & _ & -> & _). done.
Qed.

(** Of the compare-and-appends against one version at most one succeeds:
    after a success, every other config that names the same previous version
    is refused and changes nothing. *)
Theorem compareAndAppend_one_winner ch st st1 c1 c2 :
  represents ch st → version_id c1 ≠ previous_version_id c1 →
  compareAndAppendRange c1 st = (Ret (), st1) →
  previous_version_id c2 = previous_version_id c1 →
  compareAndAppendRange c2 st1 = (Throw OptimisticConcurrencyException, st1).
Proof.
  intros Hrep Hne E Hp. destruct (chain_accepts c1 ch) eqn:Ha.
  - destruct (represents_append ch c1 st Hrep Ha) as [_ Hrep']. rewrite E in Hrep'.
    eapply compareAndAppend_rejects; [done|]. unfold chain_accepts. rewrite last_snoc, Hp.
    apply andb_false_iff. left. apply Z.eqb_neq. lia.
  - rewrite (compareAndAppend_rejects ch c1 st Hrep Ha) in E. done.
Qed.

(** The ranges of consecutive versions meet: once version [v] has a
    successor, its [end_index] is the successor's [start_index]. *)
Theorem getConfig_ranges_meet ch st v a b :
  represents ch st → v ≠ 0 → v + 1 ≠ 0 →
  getConfig v st = Some a → getConfig (v + 1) st = Some b →
  end_index a = start_index b.
Proof.
  intros (Hc & _ & Hcfg & _) Hv Hv1. unfold getConfig.
  rewrite (proj2 (Z.eqb_neq _ _) Hv), (proj2 (Z.eqb_neq _ _) Hv1), Hcfg. clear Hcfg st.
  revert a b. induction ch as [|c ch IH] using rev_ind; [done|]. intros a b.
  destruct (chain_snoc_cases ch) as [->|(ch0 & l & ->)].
  { simpl. case_decide; [|done]. rewrite decide_False by lia. done. }
  apply consecutive_snoc in Hc as (Hc & Hlt & _).
  rewrite <- app_assoc. simpl. destruct (configs_of_snoc ch0 l Hc) as (m & Hm & E1 & E2).
  rewrite Forall_app, Forall_singleton in Hlt. destruct Hlt as [_ Hlt].
  specialize (IH Hc). rewrite E2. rewrite E1 in IH.
  assert (Hf : ∀ k x, k ≤ version_id l → om_find k (m ++ [(version_id l, x); (version_id c, c)]) =
    if decide (k = version_id l) then Some x else om_find k (m ++ [(version_id l, l)])).
  { intros k x Hk. clear -Hm Hk Hlt. induction m as [|[k' v'] m IHm]; simpl in *.
    - repeat case_decide; first [done | lia].
    - apply Forall_cons in Hm as [Hm0 Hm]. apply key_lt_Z in Hm0. simpl in Hm0.
      rewrite (IHm Hm). repeat case_decide; first [done | lia]. }
  destruct (decide (version_id l < v + 1)) as [Hgt|Hle].
  - intros Ha Hb.
    assert (Hb' : v + 1 = version_id c ∧ b = c).
    { apply om_find_Some_elem in Hb. rewrite elem_of_app in Hb.
      destruct Hb as [Hb|Hb].
      - rewrite Forall_forall in Hm. apply Hm in Hb. apply key_lt_Z in Hb. simpl in Hb. lia.
      - rewrite elem_of_cons, list_elem_of_singleton in Hb.
        destruct Hb as [[= Hv' Hb]|[= Hv' Hb]]; [lia|done]. }
    destruct Hb' as [Hv' ->].
    destruct (decide (v = version_id l)) as [->|].
    + rewrite Hf, decide_True in Ha by (done || lia). by simplify_eq.
    + exfalso. apply om_find_Some_elem in Ha. rewrite elem_of_app in Ha.
      destruct Ha as [Ha|Ha].
      * rewrite Forall_forall in Hm. apply Hm in Ha. apply key_lt_Z in Ha. simpl in Ha. lia.
      * rewrite elem_of_cons, list_elem_of_singleton in Ha.
        destruct Ha as [[= Ha _]|[= Ha _]]; lia.
  - rewrite Hf, decide_False by lia. rewrite Hf by lia. case_decide as Ev.
    + intros Ha [= <-]. simpl. apply (IH a l); [done|].
      rewrite Ev. by apply om_find_last.
    + apply IH.
Qed.

(** Whatever it finds is one of the configs. *)
(** What is found contains the position. *)
Lemma walk_back_range l cs c : walk_back l cs = Some c → start_index c ≤ l < end_index c.
Proof.
  induction cs as [|c' cs IH]; simpl; [done|].
  destruct (Z.leb_spec (start_index c') l); [|exact IH]; simpl.
  destruct (Z.ltb_spec l (end_index c')); [|exact IH]. intros [= ->]. lia.
Qed.

Lemma getConfigUsingLogId_range l st c : getConfigUsingLogId l st = Some c → start_index c ≤ l < end_index c.
Proof.
  unfold getConfigUsingLogId. destruct (logIdToConfig_ st); [done|].
  destruct (om_upper_bound _ _) as [|[]]; apply walk_back_range.
Qed.

Lemma getConfigUsingLogId_elem logId st c :
  getConfigUsingLogId logId st = Some c → c ∈ (logIdToConfig_ st).*2.
Proof.
  assert (Hw : ∀ l, walk_back logId l = Some c → c ∈ l).
  { induction l as [|c' l IH]; simpl; [done|]. destruct (_ && _); [intros [= ->]; by left|].
    intros ?%IH. by right. }
  assert (Hb : ∀ c', c' ∈ rev (om_upto logId (logIdToConfig_ st)).*2 → c' ∈ (logIdToConfig_ st).*2).
  { intros c'. rewrite list_elem_of_In, <-in_rev, <-list_elem_of_In, !list_elem_of_fmap. unfold om_upto.
    intros (e & -> & [_ He]%list_elem_of_filter). eauto. }
  unfold getConfigUsingLogId. destruct (logIdToConfig_ st) as [|e m] eqn:Em; [done|].
  rewrite <-Em in *. destruct (om_upper_bound logId (logIdToConfig_ st)) as [|[k c'] after] eqn:E.
  - intros ?%Hw. by apply Hb.
  - intros [->|?]%Hw%elem_of_cons; [|by apply Hb].
    assert ((k, c') ∈ om_upper_bound logId (logIdToConfig_ st)) as Hin by (rewrite E; left).
    apply list_elem_of_filter in Hin as [_ Hin]. by apply (list_elem_of_fmap_2 snd) in Hin.
Qed.

(** [getConfigUsingLogId] finds the newest config that starts at or before
    the log id, provided the start indexes never decrease and the configs
    were appended with ends beyond it (as [reconfigure] does). *)
Theorem getConfigUsingLogId_newest ch st logId :
  represents ch st → starts_increase ch →
  Forall (λ c, logId < end_index c) ch →
  getConfigUsingLogId logId st = chain_lookup logId ch.
Proof.
  intros (_ & _ & _ & Hby) Hs Hend. rewrite <- last_upto_by_start by done.
  unfold getConfigUsingLogId. rewrite Hby.
  destruct (by_start_ok ch) as [Hsort Hin].
  assert (Hw : walk_back logId (rev (om_upto logId (by_start ch)).*2) =
               snd <$> last (om_upto logId (by_start ch))).
  { destruct (om_upto logId (by_start ch)) as [|[k c] l _] eqn:E using rev_ind; [done|].
    rewrite last_snoc, fmap_app, rev_app_distr. simpl.
    assert ((k, c) ∈ om_upto logId (by_start ch)) as Hc by (rewrite E; set_solver).
    unfold om_upto in Hc. apply list_elem_of_filter in Hc as [Hk Hc]. simpl in Hk.
    rewrite Forall_forall in Hin. rewrite Forall_forall in Hend. destruct (Hin _ Hc) as [Hst Hch]. simpl in *.
    specialize (Hend _ Hch). rewrite (proj2 (Z.leb_le _ _)), (proj2 (Z.ltb_lt _ _)) by lia.
    done. }
  destruct (by_start ch) as [|e m] eqn:Em; [done|]. rewrite <- Em in *.
  destruct (om_upper_bound logId (by_start ch)) as [|[k c] after] eqn:E; [done|].
  assert ((k, c) ∈ om_upper_bound logId (by_start ch)) as Hc by (rewrite E; set_solver).
  unfold om_upper_bound in Hc. apply list_elem_of_filter in Hc as [Hk Hc]. simpl in Hk.
  rewrite Forall_forall in Hin. destruct (Hin _ Hc) as [Hst _]. simpl in *.
  rewrite (proj2 (Z.leb_gt _ _)) by lia. simpl. done.
Qed.

(** ** Witnesses: three versions, the second one's segment being empty *)

Definition sample_config (v s : Z) : MetadataConfig :=
  {| version_id := v; previous_version_id := v - 1; start_index := s; end_index := i64_max;
     previous_version_end_index := s; sequencer_config := default_SequencerConfig;
     replica_set_config := [] |}.

Definition sample_chain : list MetadataConfig :=
  [sample_config 1 1; sample_config 2 5; sample_config 3 5].

Definition sample_store : State := (run_appends sample_chain empty_store).2.

Lemma sample_represents : represents sample_chain sample_store.
Proof. exact (proj2 (run_refines sample_chain [] empty_store represents_empty)). Qed.

Lemma compareAndAppend_one_winner_witness :
  compareAndAppendRange (sample_config 4 9) (compareAndAppendRange (sample_config 4 7) sample_store).2
  = (Throw OptimisticConcurrencyException,
     (compareAndAppendRange (sample_config 4 7) sample_store).2).
Proof.
  apply (compareAndAppend_one_winner sample_chain sample_store _ (sample_config 4 7));
    [exact sample_represents|done|vm_compute; reflexivity|done].
Defined.

Lemma getConfig_ranges_meet_witness :
  end_index <$> getConfig 1 sample_store = Some 5 ∧ start_index (sample_config 2 5) = 5.
Proof.
  assert (H : ∀ a, getConfig 1 sample_store = Some a →
                end_index a = start_index (set_end_index 5 (sample_config 2 5))).
  { intros a Ha. apply (getConfig_ranges_meet sample_chain sample_store 1 a);
      [exact sample_represents|done|done|done|vm_compute; reflexivity]. }
  destruct (getConfig 1 sample_store) as [a|] eqn:E; [|vm_compute in E; discriminate E].
  split; [|done]. simpl. by rewrite (H a).
Defined.

Lemma getConfigUsingLogId_newest_witness :
  getConfigUsingLogId 7 sample_store = Some (sample_config 3 5).
Proof.
  rewrite (getConfigUsingLogId_newest sample_chain sample_store 7);
    [vm_compute; reflexivity|exact sample_represents| |repeat constructor; done].
  repeat constructor; done.
Defined.
