(* ===== verification/NanoLog.v ===== *)
(** * Nanologs: the interface and the in-memory implementation

    [src/log/include/NanoLog.h] and [src/log/impl/InMemoryNanoLog.cc].  A
    nanolog is one replica's segment of one metadata version.  An [append]
    hands in a promise; the future it returns is completed by that promise,
    possibly much later and by another append, so an operation returns the
    promises it completed next to its own result. *)

From stdpp Require Import base gmap strings list sorting.
From Stdlib Require Import ZArith Lia.
From S2P Require Import Prelude LogTypes CompletionQueue.

Open Scope Z_scope.

(** The future an [append] returns: decided at once, or the one of promise
    [p]. *)
Inductive future (P : Type) : Type :=
  | Ready (o : outcome Z)
  | Pending (p : P).
Arguments Ready {P} o.
Arguments Pending {P} p.

(** [class NanoLog] *)
Class NanoLogOps (P N : Type) := {
  nl_getMetadataVersionId : N → string;
  nl_append : P → option Z → Z → string → bool → N → (future P * list (P * Z)) * N;
  nl_getLogEntry : Z → M N (LogEntry + LogReadError);
  nl_seal : M N Z;
  nl_getLocalCommitIndex : M N Z;
  nl_trim : Z → M N Z;
  nl_getStartIndex : N → Z;
  nl_getEndIndex : M N Z;
  nl_isSealed : M N bool }.

Section inmemory.
Context {P : Type}.

Record InMemoryNanoLog := mkInMemoryNanoLog {
  id_ : string;
  name_ : string;
  metadataVersionId_ : string;
  startIndex_ : Z;
  endIndex_ : Z;
  sealed_ : bool;
  logs_ : ordmap Z string;
  completionQueue_ : OrderedCompletionQueue P Z }.

Definition makeInMemoryNanoLog (id name metadataVersionId : string)
    (startIndex endIndex : Z) (sealed : bool) : InMemoryNanoLog :=
  mkInMemoryNanoLog id name metadataVersionId startIndex endIndex sealed
    [] (CompletionQueue.make startIndex).

Definition with_sealed (b : bool) (n : InMemoryNanoLog) : InMemoryNanoLog :=
  mkInMemoryNanoLog (id_ n) (name_ n) (metadataVersionId_ n) (startIndex_ n) (endIndex_ n)
    b (logs_ n) (completionQueue_ n).
Definition with_logs (l : ordmap Z string) (q : OrderedCompletionQueue P Z)
    (n : InMemoryNanoLog) : InMemoryNanoLog :=
  mkInMemoryNanoLog (id_ n) (name_ n) (metadataVersionId_ n) (startIndex_ n) (endIndex_ n)
    (sealed_ n) l q.

(** The part of [append] under the mutex; the read of [sealed_] comes before it,
    outside the mutex. *)
Definition append_locked (p : P) (globalCommitIndex : option Z) (logId : Z)
    (logEntryPayload : string) (skipSeal : bool) (n : InMemoryNanoLog)
    : (future P * list (P * Z)) * InMemoryNanoLog :=
  let '(inserted, logs') := om_emplace logId logEntryPayload (logs_ n) in
  if negb inserted then
    if skipSeal then (Ready (Ret logId), [], n)
    else (Ready (Throw NanoLogLogPositionAlreadyOccupied), [], n)
  else
    let '(done1, q1) := add logId p logId true (completionQueue_ n) in
    let '(done2, q2) :=
      match globalCommitIndex with
      | Some g => completeAllBelow g q1
      | None => ([], q1)
      end in
    (Pending p, done1 ++ done2, with_logs logs' q2 n).

Definition append (p : P) (globalCommitIndex : option Z) (logId : Z)
    (logEntryPayload : string) (skipSeal : bool) (n : InMemoryNanoLog)
    : (future P * list (P * Z)) * InMemoryNanoLog :=
  if negb skipSeal && sealed_ n then
    (Ready (Throw (NanoLogSealedException (metadataVersionId_ n))), [], n)
  else append_locked p globalCommitIndex logId logEntryPayload skipSeal n.

Definition getLogEntry (logId : Z) : M InMemoryNanoLog (LogEntry + LogReadError) := λ n,
  match om_find logId (logs_ n) with
  | Some payload => (Ret (inl (mkLogEntry logId payload)), n)
  | None => (Ret (inr NotFound), n)
  end.

Definition seal : M InMemoryNanoLog Z := λ n,
  let n' := with_sealed true n in
  (Ret (getCurrentIndex (completionQueue_ n')), n').

Definition getStartIndex (n : InMemoryNanoLog) : Z := startIndex_ n.
Definition getEndIndex : M InMemoryNanoLog Z := gets endIndex_.
Definition isSealed : M InMemoryNanoLog bool := gets sealed_.

Definition getLocalCommitIndex : M InMemoryNanoLog Z :=
  gets (λ n, getCurrentIndex (completionQueue_ n)).

Definition trim (logId : Z) : M InMemoryNanoLog Z := mret logId.

#[global] Instance InMemory_NanoLogOps : NanoLogOps P InMemoryNanoLog := {|
  nl_getMetadataVersionId := metadataVersionId_;
  nl_append := append;
  nl_getLogEntry := getLogEntry;
  nl_seal := seal;
  nl_getLocalCommitIndex := getLocalCommitIndex;
  nl_trim := trim;
  nl_getStartIndex := getStartIndex;
  nl_getEndIndex := getEndIndex;
  nl_isSealed := isSealed |}.

(** ** Invariant *)

Definition commitIndex (n : InMemoryNanoLog) : Z := currentIndex (completionQueue_ n).

(** The maps are ordered, every waiting promise is for a stored entry and
    will be completed with its own position. *)
Record log_inv (n : InMemoryNanoLog) : Prop := {
  inv_logs : om_sorted (logs_ n);
  inv_queue : om_sorted (promises (completionQueue_ n));
  inv_waiting : ∀ k v, (k, v) ∈ promises (completionQueue_ n) →
    result v = k ∧ is_Some (om_find k (logs_ n)) }.

(** Every position between the start index and the commit index is stored. *)
Definition no_holes (n : InMemoryNanoLog) : Prop :=
  ∀ k, startIndex_ n ≤ k < commitIndex n → is_Some (om_find k (logs_ n)).
End inmemory.
Arguments InMemoryNanoLog : clear implicits.

(** ** Sequences of operations on a nanolog *)

Section operations.
Context {P : Type}.

(** The operations a replica can receive for one segment. *)
Inductive log_op :=
  | OpAppend (p : P) (g : option Z) (logId : Z) (payload : string)
  | OpSeal
  | OpRead (logId : Z)
  | OpCommitIndex.

(** The answers: what an append returned and completed, the index of a seal,
    the entry, the commit index. *)
Inductive log_answer :=
  | AnsAppend (f : future P) (done : list (P * Z))
  | AnsSeal (o : outcome Z)
  | AnsRead (o : outcome (LogEntry + LogReadError))
  | AnsCommitIndex (o : outcome Z).

Definition run_op {N} `{NanoLogOps P N} (op : log_op) (n : N) : log_answer * N :=
  match op with
  | OpAppend p g k v =>
      let '((f, done), n') := nl_append p g k v false n in (AnsAppend f done, n')
  | OpSeal => let '(o, n') := nl_seal n in (AnsSeal o, n')
  | OpRead k => let '(o, n') := nl_getLogEntry k n in (AnsRead o, n')
  | OpCommitIndex => let '(o, n') := nl_getLocalCommitIndex n in (AnsCommitIndex o, n')
  end.

Fixpoint run_ops {N} `{NanoLogOps P N} (ops : list log_op) (n : N)
    : list log_answer * N :=
  match ops with
  | [] => ([], n)
  | op :: ops' =>
      let '(a, n1) := run_op op n in
      let '(al, n2) := run_ops ops' n1 in (a :: al, n2)
  end.
End operations.
Arguments log_op : clear implicits.
Arguments log_answer : clear implicits.

(** ** Lemmas *)

Section inmemory_lemmas.
Context {P : Type}.
Implicit Types n : InMemoryNanoLog P.

(** Operations that only add to the log. *)
Definition logs_extend n n' : Prop :=
  ∀ k v, om_find k (logs_ n) = Some v → om_find k (logs_ n') = Some v.

(** What an accepted append does to the queue, whatever it completes. *)
Lemma accepted_queue (p : P) g logId q done1 q1 done2 q2 :
  om_sorted (promises q) →
  add logId p logId true q = (done1, q1) →
  (match g with Some g => completeAllBelow g q1 | None => ([], q1) end) = (done2, q2) →
  let m := om_set logId {| promise := p; result := logId |} (promises q) in
  ∃ l1, m = l1 ++ promises q2 ∧ done1 ++ done2 = map (λ e, fulfil e.2) l1 ∧
    currentIndex q ≤ currentIndex q2 ∧
    (∀ g', g = Some g' → g' ≤ currentIndex q2) ∧
    (∀ k, k ∈ l1.*1 → k < currentIndex q2) ∧
    (∀ k, currentIndex q ≤ k < currentIndex q2 →
      k ∈ l1.*1 ∨ ∃ g', g = Some g' ∧ k < g').
Proof.
  intros Hs E1 E2 m. unfold add in E1.
  apply check_split in E1 as (la & Hp1 & -> & Hle1 & Hk1); [|by apply om_sorted_set].
  simpl in *. fold m in Hp1.
  assert (Hs1 : om_sorted (promises q1)).
  { pose proof (om_sorted_set logId {| promise := p; result := logId |} _ Hs) as Hm.
    fold m in Hm. rewrite Hp1 in Hm. by apply sorted_app in Hm as (_ & ? & _). }
  destruct g as [g|].
  - apply completeAllBelow_split in E2 as (lb & Hp2 & -> & Hle2 & Hk2 & Hk3); [|done].
    exists (la ++ lb). rewrite Hp1, Hp2, map_app, <- app_assoc.
    split_and!; [done|done|lia|intros ? [= <-]; lia| |].
    + intros k. rewrite fmap_app, elem_of_app, <- Hk1. intros [|Hin]; [lia|by apply Hk2].
    + intros k Hk. rewrite fmap_app, elem_of_app, <- Hk1.
      destruct (decide (k < currentIndex q1)); [left; left; lia|].
      destruct (decide (k < g)); [right; eauto|left; right; apply Hk3; lia].
  - simplify_eq. exists la. rewrite Hp1, app_nil_r. split_and!; [done..|lia|done| |].
    + intros k. rewrite <- Hk1. lia.
    + intros k Hk. left. apply Hk1. lia.
Qed.

(** The four branches of [append]. *)
Lemma append_cases (p : P) g logId payload skipSeal n f done n' :
  log_inv n →
  append p g logId payload skipSeal n = ((f, done), n') →
  (skipSeal = false ∧ sealed_ n = true ∧
     f = Ready (Throw (NanoLogSealedException (metadataVersionId_ n))) ∧ done = [] ∧ n' = n) ∨
  (is_Some (om_find logId (logs_ n)) ∧ done = [] ∧ n' = n ∧
     f = Ready (if skipSeal then Ret logId else Throw NanoLogLogPositionAlreadyOccupied)) ∨
  ((skipSeal = true ∨ sealed_ n = false) ∧ om_find logId (logs_ n) = None ∧ f = Pending p ∧
     ∃ q' l1, n' = with_logs (om_set logId payload (logs_ n)) q' n ∧
       om_set logId {| promise := p; result := logId |} (promises (completionQueue_ n))
         = l1 ++ promises q' ∧
       done = map (λ e, fulfil e.2) l1 ∧
       commitIndex n ≤ currentIndex q' ∧
       (∀ g', g = Some g' → g' ≤ currentIndex q') ∧
       (∀ k, k ∈ l1.*1 → k < currentIndex q') ∧
       (∀ k, commitIndex n ≤ k < currentIndex q' →
         k ∈ l1.*1 ∨ ∃ g', g = Some g' ∧ k < g')).
Proof.
  intros Hinv. unfold append, append_locked.
  destruct (negb skipSeal && sealed_ n) eqn:Hseal.
  { apply andb_true_iff in Hseal as [Hsk%negb_true_iff Hse]. intros; simplify_eq. auto 8. }
  unfold om_emplace. destruct (om_find logId (logs_ n)) as [x|] eqn:Hf; cbn [negb].
  { intros E. right. left. destruct skipSeal; simplify_eq; eauto. }
  destruct (add _ _ _ _ _) as [done1 q1] eqn:E1.
  destruct (match g with Some _ => _ | None => _ end) as [done2 q2] eqn:E2.
  intros; simplify_eq. right. right. split_and!; [|done|done|].
  { destruct skipSeal; [by left|right]. by apply andb_false_iff in Hseal as [|]. }
  destruct (accepted_queue p g logId _ _ _ _ _ (inv_queue n Hinv) E1 E2)
    as (l1 & ? & ? & ? & ? & ? & ?).
  exists q2, l1. done.
Qed.

Lemma waiting_of_queue (p : P) logId payload n l1 q' :
  log_inv n →
  om_set logId {| promise := p; result := logId |} (promises (completionQueue_ n))
    = l1 ++ promises q' →
  ∀ k v, (k, v) ∈ l1 ∨ (k, v) ∈ promises q' →
    result v = k ∧ is_Some (om_find k (om_set logId payload (logs_ n))).
Proof.
  intros Hinv E k v Hin.
  assert ((k, v) ∈ om_set logId {| promise := p; result := logId |}
            (promises (completionQueue_ n))) as Hin'.
  { rewrite E, elem_of_app. done. }
  apply om_elem_find in Hin'; [|apply om_sorted_set, Hinv].
  rewrite om_find_set in Hin'. rewrite om_find_set. case_decide as Ek; [subst|].
  - simplify_eq. split; [done|eauto].
  - apply om_find_Some_elem in Hin'. by apply (inv_waiting n Hinv).
Qed.

Lemma append_inv (p : P) g logId payload skipSeal n f done n' :
  log_inv n → append p g logId payload skipSeal n = ((f, done), n') → log_inv n'.
Proof.
  intros Hinv E. destruct (append_cases _ _ _ _ _ _ _ _ _ Hinv E)
    as [(_ & _ & _ & _ & ->)|[(_ & _ & -> & _)|(_ & Hf & _ & q' & l1 & -> & Hq & _)]]; [done..|].
  split; simpl.
  - apply om_sorted_set, Hinv.
  - pose proof (om_sorted_set logId {| promise := p; result := logId |} _ (inv_queue n Hinv)) as Hs.
    rewrite Hq in Hs. by apply sorted_app in Hs as (_ & ? & _).
  - intros k v Hin. eapply waiting_of_queue; eauto.
Qed.

Lemma seal_inv n : log_inv n → log_inv (seal n).2.
Proof. intros []. by split. Qed.

Lemma append_extends (p : P) g logId payload skipSeal n f done n' :
  log_inv n → append p g logId payload skipSeal n = ((f, done), n') → logs_extend n n'.
Proof.
  intros Hinv E. destruct (append_cases _ _ _ _ _ _ _ _ _ Hinv E)
    as [(_ & _ & _ & _ & ->)|[(_ & _ & -> & _)|(_ & Hf & _ & q' & l1 & -> & _)]]; intros k v Hk; [done..|]. simpl. rewrite om_find_set_ne; [done|]. congruence.
Qed.

Lemma append_commit_mono (p : P) g logId payload skipSeal n f done n' :
  log_inv n → append p g logId payload skipSeal n = ((f, done), n') →
  commitIndex n ≤ commitIndex n'.
Proof.
  intros Hinv E. destruct (append_cases _ _ _ _ _ _ _ _ _ Hinv E)
    as [(_ & _ & _ & _ & ->)|[(_ & _ & -> & _)|(_ & Hf & _ & q' & l1 & -> & _ & _ & ? & _)]];
    [lia..|done].
Qed.

Lemma make_inv id name version start end_ sealed :
  log_inv (makeInMemoryNanoLog (P := P) id name version start end_ sealed).
Proof. split; simpl; [constructor..|]. intros k v Hin. by apply not_elem_of_nil in Hin. Qed.
End inmemory_lemmas.
#[export] Hint Resolve make_inv seal_inv append_inv : repl.

(** ** Properties *)

Section inmemory_properties.
Context {P : Type}.
Implicit Types n : InMemoryNanoLog P.

(** An append that is refused changes nothing and completes nothing; an
    accepted one stores its entry, never touches another entry, and every
    promise completed with it (its own or an earlier one's) is for a stored
    entry below the new commit index. *)
Theorem append_acknowledges_stored (p : P) g logId payload skipSeal n f done n' :
  log_inv n →
  append p g logId payload skipSeal n = ((f, done), n') →
  logs_extend n n' ∧ commitIndex n ≤ commitIndex n' ∧
  match f with
  | Pending p' => p' = p ∧ om_find logId (logs_ n') = Some payload
  | Ready o => n' = n ∧ done = [] ∧
      match o with
      | Ret r => r = logId ∧ is_Some (om_find logId (logs_ n))
      | _ => True
      end
  end ∧
  ∀ p' r, (p', r) ∈ done → is_Some (om_find r (logs_ n')) ∧ r < commitIndex n'.
Proof.
  intros Hinv E. split; [eauto using append_extends|].
  split; [eauto using append_commit_mono|].
  destruct (append_cases _ _ _ _ _ _ _ _ _ Hinv E)
    as [(_ & _ & -> & -> & ->)|[(Hs & -> & -> & ->)
       |(_ & Hf & -> & q' & l1 & -> & Hq & -> & _ & _ & Hlt & _)]].
  - split; [done|]. intros ?? []%not_elem_of_nil.
  - split; [by destruct skipSeal|]. intros ?? []%not_elem_of_nil.
  - simpl. split; [by rewrite om_find_set_eq|].
    intros p' r Hin. apply list_elem_of_fmap in Hin as ([k v] & [= -> ->] & Hin).
    destruct (waiting_of_queue p logId payload n l1 q' Hinv Hq k v (or_introl Hin)) as [-> ?].
    split; [done|]. by apply Hlt, (list_elem_of_fmap_2 fst _ (k, v)).
Qed.

(** Sealing fences the segment: whatever clients do afterwards, every
    append is refused with [NanoLogSealedException], nothing is
    acknowledged, the segment does not change, and sealing again returns the
    same commit index. *)
Theorem seal_fences n (ops : list (log_op P)) :
  let n1 := (seal n).2 in
  (seal n).1 = Ret (commitIndex n) ∧
  (run_ops ops n1).2 = n1 ∧
  Forall2 (λ op a,
    match op with
    | OpAppend _ _ _ _ =>
        a = AnsAppend (Ready (Throw (NanoLogSealedException (metadataVersionId_ n)))) []
    | OpSeal => a = AnsSeal (Ret (commitIndex n))
    | OpRead k => a = AnsRead (getLogEntry k n).1
    | OpCommitIndex => a = AnsCommitIndex (Ret (commitIndex n))
    end) ops (run_ops ops n1).1.
Proof.
  intros n1. split; [done|].
  assert (Hrun : ∀ op, run_op op n1 = (
    match op with
    | OpAppend _ _ _ _ =>
        AnsAppend (Ready (Throw (NanoLogSealedException (metadataVersionId_ n)))) []
    | OpSeal => AnsSeal (Ret (commitIndex n))
    | OpRead k => AnsRead (getLogEntry k n).1
    | OpCommitIndex => AnsCommitIndex (Ret (commitIndex n))
    end, n1)).
  { intros []; simpl; [done|done| |done]. unfold getLogEntry. simpl. by destruct (om_find _ _). }
  induction ops as [|op ops IH]; simpl; [done|]. rewrite Hrun.
  destruct (run_ops ops n1) as [al n2]. simpl in *. destruct IH as [-> IH].
  split; [done|]. constructor; [by destruct op|done].
Qed.
End inmemory_properties.

(** ** The fencing contract

    What replicas and reconfiguration rely on: once a seal has answered with an
    index (not [-1]), no ordinary append is accepted any more, whatever other
    operations come in between. *)
Class NanoLogFencing (P N : Type) `{NanoLogOps P N} := {
  fenced : N → Prop;
  fenced_seal n e n' : nl_seal n = (Ret e, n') → e ≠ -1 → fenced n';
  fenced_refuses n p g k x : fenced n →
    nl_append p g k x false n =
      ((Ready (Throw (NanoLogSealedException (nl_getMetadataVersionId n))), []), n);
  fenced_append n p g k x b : fenced n → fenced (nl_append p g k x b n).2;
  fenced_getLogEntry n k : fenced n → fenced (nl_getLogEntry k n).2;
  fenced_commitIndex n : fenced n → fenced (nl_getLocalCommitIndex n).2;
  fenced_trim n k : fenced n → fenced (nl_trim k n).2 }.

Lemma append_same_identity {P} (p : P) g k x b n :
  sealed_ (append p g k x b n).2 = sealed_ n ∧
  metadataVersionId_ (append p g k x b n).2 = metadataVersionId_ n.
Proof.
  unfold append, append_locked. destruct (_ && _); [done|]. unfold om_emplace.
  destruct (om_find _ _); cbn [negb]; [by destruct b|].
  destruct (add _ _ _ _ _), (match g with Some _ => _ | _ => _ end). done.
Qed.

#[export, program] Instance InMemory_fencing {P} : NanoLogFencing P (InMemoryNanoLog P) := {|
  fenced := λ n, sealed_ n = true |}.
Next Obligation. intros P n e n'. simpl. by intros [= _ <-]. Qed.
Next Obligation. intros P n p g k x Hs. simpl in *. unfold append. by rewrite Hs. Qed.
Next Obligation.
  intros P n p g k x b Hs. simpl in *. by rewrite (proj1 (append_same_identity p g k x b n)).
Qed.
Next Obligation. intros P n k Hs. simpl. unfold getLogEntry. by destruct (om_find _ _). Qed.
Next Obligation. done. Qed.
Next Obligation. done. Qed.

(** ** Appends without a commit index: no holes below the commit index *)

Section tight.
Context {P : Type}.
Implicit Types n : InMemoryNanoLog P.

(** Below the commit index everything is stored; what is stored from there
    on is exactly what waits, and the commit index itself is missing. *)
Record tight n : Prop := {
  t_inv : log_inv n;
  t_settled : settled (completionQueue_ n);
  t_no_holes : no_holes n;
  t_start : startIndex_ n ≤ commitIndex n;
  t_pending : ∀ k, commitIndex n ≤ k → is_Some (om_find k (logs_ n)) →
    is_Some (om_find k (promises (completionQueue_ n))) }.

Lemma tight_missing n : tight n → om_find (commitIndex n) (logs_ n) = None.
Proof.
  intros Ht. apply eq_None_not_Some. intros Hs.
  apply (t_pending n Ht) in Hs as [v Hv]; [|done]. apply om_find_Some_elem in Hv.
  destruct (t_settled n Ht) as [_ Hgt]. rewrite Forall_forall in Hgt. apply Hgt in Hv.
  unfold commitIndex in Hv. simpl in Hv. lia.
Qed.

Lemma tight_fresh n k :
  tight n → startIndex_ n ≤ k → om_find k (logs_ n) = None →
  commitIndex n ≤ k ∧ om_find k (promises (completionQueue_ n)) = None.
Proof.
  intros Ht Hk Hf. split.
  - destruct (decide (commitIndex n ≤ k)); [done|].
    destruct (t_no_holes n Ht k); [lia|congruence].
  - apply eq_None_not_Some. intros [v Hv]. apply om_find_Some_elem in Hv.
    apply (inv_waiting n (t_inv n Ht)) in Hv as [_ [x Hx]]. congruence.
Qed.

Lemma entries_from_find h (m : ordmap Z (PromiseState P Z)) k :
  om_sorted m → h ≤ k → om_find k (entries_from h m) = om_find k m.
Proof.
  intros Hs Hk. apply option_eq. intros v. unfold entries_from.
  rewrite !om_find_elem by (done || by apply om_sorted_filter).
  rewrite list_elem_of_filter. simpl. naive_solver.
Qed.

Lemma append_accepted (p : P) k v n :
  tight n → sealed_ n = false → startIndex_ n ≤ k → om_find k (logs_ n) = None →
  ∃ done n', append p None k v false n = ((Pending p, done), n') ∧
    tight n' ∧ sealed_ n' = false ∧ startIndex_ n' = startIndex_ n ∧
    logs_ n' = om_set k v (logs_ n) ∧
    (p, k) :: waiting (completionQueue_ n) ≡ₚ done ++ waiting (completionQueue_ n').
Proof.
  intros Ht Hse Hk Hf. destruct (tight_fresh n k Ht Hk Hf) as [Hc Hq].
  destruct (append p None k v false n) as [[f done] n'] eqn:E.
  pose proof (append_inv _ _ _ _ _ _ _ _ _ (t_inv n Ht) E) as Hinv'.
  unfold append, append_locked, om_emplace in E. rewrite Hse, Hf in E. cbn [negb andb] in E.
  destruct (add _ _ _ _ _) as [done1 q1] eqn:Ea. rewrite app_nil_r in E.
  injection E as <- <- <-. exists done1, (with_logs (om_set k v (logs_ n)) q1 n).
  destruct (add_spec k p k _ _ _ (t_settled n Ht) Hc Ea)
    as ((Hle & Hfull & Hhole) & _ & Hp & Hset).
  destruct (settled_add k p k _ (t_settled n Ht) Hc) as [Hsm _]. simpl in *.
  split_and!; [done| |done..|].
  - split; [done|done| | |].
    + intros j Hj. unfold commitIndex in *. simpl in *.
      destruct (decide (j < currentIndex (completionQueue_ n))).
      * rewrite om_find_set. case_decide; [eauto|]. apply (t_no_holes n Ht).
        unfold commitIndex. lia.
      * destruct (Hfull j) as [s Hs]; [lia|]. rewrite om_find_set in Hs. rewrite om_find_set.
        case_decide; [eauto|]. apply om_find_Some_elem in Hs.
        by apply (inv_waiting n (t_inv n Ht)) in Hs as [_ Hs].
    + pose proof (t_start n Ht). unfold commitIndex in *. simpl. lia.
    + intros j Hj. unfold commitIndex in Hj. simpl in *. rewrite Hp.
      rewrite entries_from_find by done. rewrite !om_find_set. case_decide; [eauto|].
      apply (t_pending n Ht). unfold commitIndex. lia.
  - exact (add_conserves k p k true _ _ _ (inv_queue n (t_inv n Ht)) Hq Ea).
Qed.

Fixpoint run_stores (items : list (P * Z * string)) (n : InMemoryNanoLog P)
    : list (P * Z) * InMemoryNanoLog P :=
  match items with
  | [] => ([], n)
  | (p, k, v) :: items' =>
      let '((_, done), n1) := append p None k v false n in
      let '(dones, n2) := run_stores items' n1 in (done ++ dones, n2)
  end.

Definition item_key (it : P * Z * string) : Z := it.1.2.

Lemma run_stores_tight items n :
  tight n → sealed_ n = false →
  NoDup (map item_key items) →
  (∀ it, it ∈ items → startIndex_ n ≤ item_key it ∧ om_find (item_key it) (logs_ n) = None) →
  let '(dones, n') := run_stores items n in
  tight n' ∧ startIndex_ n' = startIndex_ n ∧
  map fst items ++ waiting (completionQueue_ n) ≡ₚ dones ++ waiting (completionQueue_ n') ∧
  (∀ k, is_Some (om_find k (logs_ n')) ↔
        k ∈ map item_key items ∨ is_Some (om_find k (logs_ n))).
Proof.
  revert n. induction items as [|[[p k] v] items IH]; intros n Ht Hse Hnd Hin; simpl.
  { split_and!; [done..|]. intros j. set_solver. }
  apply NoDup_cons in Hnd as [Hk Hnd].
  destruct (Hin (p, k, v)) as [Hge Hf]; [by left|].
  destruct (append_accepted p k v n Ht Hse Hge Hf)
    as (done & n1 & -> & Ht1 & Hse1 & Hst1 & Hl1 & Hw1).
  specialize (IH n1 Ht1 Hse1 Hnd). rewrite Hst1, Hl1 in IH.
  destruct (run_stores items n1) as [dones n2].
  destruct IH as (Ht2 & -> & Hw2 & Hl2).
  { intros it Hit. split; [apply Hin; by right|]. rewrite om_find_set_ne.
    - apply Hin. by right.
    - intros E. apply Hk. change (k ∈ item_key <$> items). rewrite E.
      by apply list_elem_of_fmap_2. }
  split_and!; [done..| |].
  - rewrite <- app_assoc, <- Hw2.
    rewrite (app_assoc done), (Permutation_app_comm done), <- app_assoc, <- Hw1.
    by rewrite Permutation_middle.
  - intros j. rewrite Hl2, om_find_set, elem_of_cons. unfold item_key. simpl.
    case_decide; subst; naive_solver.
Qed.

Lemma make_tight id name version start end_ :
  tight (makeInMemoryNanoLog (P := P) id name version start end_ false).
Proof.
  split; [apply make_inv|split; simpl; [constructor|constructor]| | |].
  - intros k Hk. unfold commitIndex in Hk. simpl in Hk. lia.
  - unfold commitIndex. simpl. lia.
  - intros k _ [x Hx]. done.
Qed.

(** C19: the entries of a fresh segment may arrive in any order: once
    positions [start .. start+n-1] have all been appended, every one of
    those appends has been acknowledged exactly once, with its own position,
    the commit index is [start+n], and nothing waits. *)
Theorem any_order_appends_complete id name version start end_ items :
  map item_key items ≡ₚ seqZ start (length items) →
  let '(dones, n') :=
    run_stores items (makeInMemoryNanoLog id name version start end_ false) in
  dones ≡ₚ map fst items ∧
  commitIndex n' = start + length items ∧
  waiting (completionQueue_ n') = [].
Proof.
  intros Hperm. set (n := makeInMemoryNanoLog id name version start end_ false).
  pose proof (run_stores_tight items n) as H.
  destruct (run_stores items n) as [dones n'].
  destruct H as (Ht & Hst & Hw & Hl).
  - apply make_tight.
  - done.
  - rewrite Hperm. apply NoDup_seqZ.
  - intros it Hit. split; [|done].
    assert (item_key it ∈ map item_key items) as Hin by by apply list_elem_of_fmap_2.
    rewrite Hperm, elem_of_seqZ in Hin. simpl. lia.
  - simpl in *. rewrite app_nil_r in Hw.
    assert (Hdom : ∀ k, is_Some (om_find k (logs_ n')) ↔ start ≤ k < start + length items).
    { intros k. rewrite Hl, Hperm, elem_of_seqZ. split; [intros [|[? [=]]]; lia|lia]. }
    assert (Hc : commitIndex n' = start + length items).
    { pose proof (tight_missing n' Ht) as Hm. pose proof (t_start n' Ht) as Hs.
      destruct (decide (commitIndex n' < start + length items)) as [Hlt|].
      - destruct (proj2 (Hdom (commitIndex n'))) as [x Hx]; [lia|congruence].
      - destruct (decide (start + length items < commitIndex n')); [|lia].
        assert (is_Some (om_find (start + length items) (logs_ n'))) as Hx
          by (apply (t_no_holes n' Ht); lia).
        apply Hdom in Hx. lia. }
    assert (Hq : promises (completionQueue_ n') = []).
    { destruct (promises (completionQueue_ n')) as [|[k v] m] eqn:E; [done|].
      assert ((k, v) ∈ promises (completionQueue_ n')) as Hin by (rewrite E; left).
      destruct (t_settled n' Ht) as [_ Hgt]. rewrite Forall_forall in Hgt.
      apply Hgt in Hin as Hlt. apply (inv_waiting n' (t_inv n' Ht)) in Hin as [_ Hin].
      apply Hdom in Hin. unfold commitIndex in Hc. simpl in *. lia. }
    unfold waiting in *. rewrite Hq in *. simpl in *. rewrite app_nil_r in Hw.
    by split_and!.
Qed.
End tight.

(** ** Appends that race with a seal

    [append] reads [sealed_] before it takes the mutex, so a seal may come
    between the check and the rest.  Here the two halves are steps of their own:
    an append that has passed its check is in flight until its locked part
    runs. *)
Section race.
Context {P : Type}.
Implicit Types n : InMemoryNanoLog P.

Record appending := mkAppending {
  ap_promise : P;
  ap_commitIndex : option Z;
  ap_logId : Z;
  ap_payload : string;
  ap_skipSeal : bool }.

Inductive half_op :=
  | HalfCheck (a : appending)
  | HalfStore (i : nat)
  | HalfSeal
  | HalfRead (logId : Z)
  | HalfCommitIndex.

(** The step, and what it answers ([None]: nothing yet). *)
Definition half_step (op : half_op) (s : InMemoryNanoLog P * list appending)
    : option (log_answer P) * (InMemoryNanoLog P * list appending) :=
  let '(n, fl) := s in
  match op with
  | HalfCheck a =>
      if negb (ap_skipSeal a) && sealed_ n then
        (Some (AnsAppend (Ready (Throw (NanoLogSealedException (metadataVersionId_ n)))) []), s)
      else (None, (n, fl ++ [a]))
  | HalfStore i =>
      match fl !! i with
      | Some a =>
          let '((f, done), n') := append_locked (ap_promise a) (ap_commitIndex a) (ap_logId a)
                                    (ap_payload a) (ap_skipSeal a) n in
          (Some (AnsAppend f done), (n', delete i fl))
      | None => (None, s)
      end
  | HalfSeal => let '(o, n') := seal n in (Some (AnsSeal o), (n', fl))
  | HalfRead k => let '(o, n') := getLogEntry k n in (Some (AnsRead o), (n', fl))
  | HalfCommitIndex => let '(o, n') := getLocalCommitIndex n in (Some (AnsCommitIndex o), (n', fl))
  end.

Definition half_run (ops : list half_op) (s : InMemoryNanoLog P * list appending)
    : InMemoryNanoLog P * list appending :=
  foldl (λ s op, (half_step op s).2) s ops.

Lemma append_locked_identity (p : P) g k x b n :
  sealed_ (append_locked p g k x b n).2 = sealed_ n.
Proof.
  unfold append_locked, om_emplace. destruct (om_find _ _); cbn [negb]; [by destruct b|].
  by destruct (add _ _ _ _ _), (match g with Some _ => _ | _ => _ end).
Qed.

(** With no step in between, the two halves are [append]. *)
Lemma halves_append a n fl :
  sealed_ n = false ∨ ap_skipSeal a = true →
  half_step (HalfStore (length fl)) (half_step (HalfCheck a) (n, fl)).2 =
  let '((f, done), n') := append (ap_promise a) (ap_commitIndex a) (ap_logId a) (ap_payload a)
                            (ap_skipSeal a) n in
  (Some (AnsAppend f done), (n', fl)).
Proof.
  intros Hs. assert (E : negb (ap_skipSeal a) && sealed_ n = false)
    by (destruct Hs as [->| ->]; [apply andb_false_r|done]).
  unfold append, half_step. rewrite E. cbn [snd]. rewrite list_lookup_middle by done.
  by rewrite delete_middle, app_nil_r.
Qed.

Lemma half_step_sealed op n fl :
  sealed_ n = true →
  let s := (half_step op (n, fl)).2 in
  sealed_ s.1 = true ∧ filter (λ a, ap_skipSeal a = false) s.2 ⊆+ filter (λ a, ap_skipSeal a = false) fl.
Proof.
  intros Hs. destruct op as [a|i| |k|]; simpl; [| |done| |done].
  - rewrite Hs. destruct (ap_skipSeal a) eqn:Ea; simpl; [|done]. split; [done|].
    rewrite filter_app, filter_cons_False by congruence. by rewrite app_nil_r.
  - destruct (fl !! i) as [a|] eqn:Ei; simpl; [|done].
    pose proof (append_locked_identity (ap_promise a) (ap_commitIndex a) (ap_logId a)
      (ap_payload a) (ap_skipSeal a) n) as Hsl.
    destruct (append_locked _ _ _ _ _ n) as [[f d] n']. simpl in *. split; [congruence|].
    rewrite delete_take_drop. rewrite <- (take_drop_middle fl i a Ei) at 3.
    rewrite !filter_app, filter_cons. case_decide; [|done].
    apply submseteq_skips_l, submseteq_cons. done.
  - unfold getLogEntry. by destruct (om_find _ _).
Qed.

(** After a seal no ordinary append gets in flight: the ordinary appends whose
    locked part can still run are among those that had passed the check before
    it, each of which runs at most once. *)
Theorem seal_stops_checks n fl ops :
  filter (λ a, ap_skipSeal a = false) (half_run ops (half_step HalfSeal (n, fl)).2).2 ⊆+
  filter (λ a, ap_skipSeal a = false) fl.
Proof.
  unfold half_run. cbn [half_step seal snd]. set (n1 := with_sealed true n).
  assert (Hs : sealed_ n1 = true) by done. clearbody n1. clear n. revert n1 fl Hs.
  induction ops as [|op ops IH]; intros n fl Hs; [done|]. cbn [foldl].
  destruct (half_step_sealed op n fl Hs) as [Hs' Hsub].
  destruct (half_step op (n, fl)) as [o [n' fl']]. cbn [fst snd] in *.
  etrans; [by apply IH|done].
Qed.

(** Those can still be stored and acknowledged behind the seal's back: the seal
    answers that position [i] is the first one not committed, and then the
    append in flight for [i] stores its entry there and is acknowledged. *)
Theorem seal_misses_checked_append (p : P) x n :
  tight n → sealed_ n = false →
  let i := commitIndex n in
  let a := mkAppending p None i x false in
  let s := (half_step HalfSeal (half_step (HalfCheck a) (n, [])).2) in
  s.1 = Some (AnsSeal (Ret i)) ∧
  ∃ done n', half_step (HalfStore 0) s.2 = (Some (AnsAppend (Pending p) done), (n', [])) ∧
    (p, i) ∈ done ∧ sealed_ n' = true ∧ om_find i (logs_ n') = Some x.
Proof.
  intros Ht Hs i a s.
  destruct (append_accepted p i x n Ht Hs (t_start n Ht) (tight_missing n Ht))
    as (done & n' & E & Ht' & _ & _ & Hl & Hw).
  pose proof (append_commit_mono _ _ _ _ _ _ _ _ _ (t_inv n Ht) E) as Hmono.
  assert (Hdone : (p, i) ∈ done).
  { assert (Hin : (p, i) ∈ done ++ waiting (completionQueue_ n')) by (rewrite <- Hw; left).
    apply elem_of_app in Hin as [|Hin]; [done|].
    apply list_elem_of_fmap in Hin as ([k v] & [= -> Hr] & Hin).
    destruct (t_settled n' Ht') as [_ Hgt]. rewrite Forall_forall in Hgt. apply Hgt in Hin as Hlt.
    apply (inv_waiting n' (t_inv n' Ht')) in Hin as [Hk _]. unfold commitIndex in *. simpl in *.
    subst i. unfold commitIndex in *. lia. }
  subst s a. unfold append in E. rewrite Hs in E. cbn [negb andb] in E.
  unfold half_step. cbn [ap_skipSeal negb andb]. rewrite Hs. simpl. split; [done|].
  unfold append_locked in *. simpl in *. destruct (om_emplace i x (logs_ n)) as [[] logs'];
    simpl in *; [|done].
  destruct (checkAndCompleteAfterCurrentIndex _) as [d1 q1]. injection E as <- <-.
  eexists _, _. split; [done|]. split_and!; [done|done|]. simpl in *. rewrite Hl.
  by rewrite om_find_set_eq.
Qed.
End race.
Arguments appending : clear implicits.
Arguments half_op : clear implicits.

(** ** Witnesses *)

Definition sample_log : InMemoryNanoLog nat :=
  (run_stores [(0%nat, 1, "a"%string); (1%nat, 3, "c"%string)]
     (makeInMemoryNanoLog "id" "log" "1" 1 i64_max false)).2.

Lemma sample_log_inv : log_inv sample_log.
Proof.
  unfold sample_log. simpl. apply (append_inv 1%nat None 3 "c" false
    (append 0%nat None 1 "a" false (makeInMemoryNanoLog "id" "log" "1" 1 i64_max false)).2
    (Pending 1%nat) []); [|reflexivity].
  apply (append_inv 0%nat None 1 "a" false (makeInMemoryNanoLog "id" "log" "1" 1 i64_max false)
    (Pending 0%nat) [(0%nat, 1)]); [apply make_inv|reflexivity].
Qed.

Lemma append_acknowledges_stored_witness :
  (append 2%nat None 2 "b" false sample_log).1.2 = [(2%nat, 2); (1%nat, 3)] ∧
  3 < commitIndex (append 2%nat None 2 "b" false sample_log).2.
Proof.
  split; [reflexivity|].
  refine (proj2 (proj2 (proj2 (proj2 (append_acknowledges_stored 2%nat None 2 "b" false sample_log
    (Pending 2%nat) [(2%nat, 2); (1%nat, 3)] _ sample_log_inv eq_refl))) 1%nat 3 _)).
  right. left.
Defined.

Lemma any_order_appends_complete_witness :
  commitIndex (run_stores [(0%nat, 2, "b"%string); (1%nat, 1, "a"%string)]
    (makeInMemoryNanoLog "id" "log" "1" 1 i64_max false)).2 = 3.
Proof.
  apply (any_order_appends_complete "id" "log" "1" 1 i64_max
    [(0%nat, 2, "b"%string); (1%nat, 1, "a"%string)]).
  constructor.
Defined.

Lemma seal_misses_checked_append_witness :
  let n := makeInMemoryNanoLog "id" "log" "1" 1 i64_max false in
  let a := mkAppending 0%nat None 1 "a" false in
  ∃ done n', half_step (HalfStore 0) (half_step HalfSeal (half_step (HalfCheck a) (n, [])).2).2 =
      (Some (AnsAppend (Pending 0%nat) done), (n', [])) ∧
    (0%nat, 1) ∈ done ∧ sealed_ n' = true ∧ om_find 1 (logs_ n') = Some "a"%string.
Proof.
  exact (proj2 (seal_misses_checked_append 0%nat "a"
    (makeInMemoryNanoLog "id" "log" "1" 1 i64_max false)
    (make_tight "id" "log" "1" 1 i64_max) eq_refl)).
Defined.
