(* ===== verification/KVStore.v ===== *)
(** * Key-value stores

    [src/persistence/]: the interface [KVStoreLite] and its RocksDB
    implementations.  RocksDB itself is a parameter: the class [RocksDB] lists
    the calls the program makes, [RocksDBLaws] what its documentation says of
    them.  The store's clients are proved against [KVStoreLaws], the contract
    of the interface; [RocksKVStoreLite_laws] discharges it. *)

From stdpp Require Import base gmap sets list strings sorting.
From Stdlib Require Import ZArith Lia Ascii.
From S2P Require Import Prelude.

Open Scope Z_scope.

(** ** RocksDB *)

(** [rocksdb::Status] *)
Inductive Status :=
  | StatusOk
  | StatusNotFound
  | StatusError (message : string).

Inductive BatchOp :=
  | BatchPut (key value : string)
  | BatchDelete (key : string).

Definition ok (s : Status) : bool := match s with StatusOk => true | _ => false end.
Definition IsNotFound (s : Status) : bool :=
  match s with StatusNotFound => true | _ => false end.

Class RocksDB (D : Type) := {
  db_Write : list BatchOp → D → Status * D;
  db_Get : string → D → Status * string;
  db_DeleteRange : string → string → D → Status * D;
  (** what [NewIterator] iterates over: a snapshot in key order *)
  db_Snapshot : D → list (string * string);
  db_FlushWAL : D → Status * D;
  db_ToString : Status → string }.

(** [rocksdb::Checkpoint]: [Create] makes an object for a database, whose
    [CreateCheckpoint] writes a copy of it to a directory of the files [F]. *)
Class RocksCheckpoints (D F : Type) := {
  Checkpoint_Create : D → F → Status;
  CreateCheckpoint : string → D → F → Status * F }.

(** The pointer is not set when [Create] fails, and is used all the same. *)
Definition write_checkpoint {D F : Type} `{RocksCheckpoints D F} (checkpointDir : string) (d : D)
    : M F () := λ f,
  if ok (Checkpoint_Create d f) then (Ret (), (CreateCheckpoint checkpointDir d f).2)
  else (Throw NullPointer, f).

(** ** RocksDbFactory *)

Record RocksDbConfig := {
  path : string;
  createIfMissing : bool;
  manualWALFlush : bool;
  destroyIfExists : bool }.

(** The files RocksDB works on ([F]), and the two calls on them. *)
Class RocksFiles (F D : Type) := {
  DestroyDB : string → F → Status * F;
  DB_Open : RocksDbConfig → F → (Status * option D) * F }.

Section provide.
Context {D F : Type} `{RocksDB D} `{RocksFiles F D}.

Definition provideSharedPtr (config : RocksDbConfig) : M F D :=
  _ ← (if destroyIfExists config then
         destroyStatus ← (λ f, let '(st, f') := DestroyDB (path config) f in (Ret st, f'));
         check (ok destroyStatus)
       else mret ());
  r ← (λ f, let '(r, f') := DB_Open config f in (Ret r, f'));
  match r with
  | (StatusOk, Some db) => mret db
  | (status, _) =>
      throw (RuntimeError ("rocks instance could not be created: " +:+ db_ToString status))
  end.
End provide.

(** ** The interface *)

Class KVStoreLite (K : Type) := {
  kv_put : string → string → M K bool;
  kv_putIfNotExists : string → string → M K bool;
  kv_get : string → M K (option string);
  kv_deleteRange : string → string → M K bool;
  kv_scan : string → M K (list (string * string));
  kv_flushWal : M K bool }.

(** ** RocksKVStoreLite *)

Module Rocks.
Section rocks.
Context {D : Type} `{RocksDB D}.

Record RocksKVStoreLite := { rocks_ : D }.

Definition put (key value : string) : M RocksKVStoreLite bool := λ s,
  let '(status, d) := db_Write [BatchPut key value] (rocks_ s) in
  (Ret (ok status), {| rocks_ := d |}).

Definition get (key : string) : M RocksKVStoreLite (option string) := λ s,
  let '(status, value) := db_Get key (rocks_ s) in
  if ok status then (Ret (Some value), s)
  else if IsNotFound status then (Ret None, s)
  else (Throw (RuntimeError (db_ToString status)), s).

Definition putIfNotExists (key value : string) : M RocksKVStoreLite bool :=
  getResult ← get key;
  match getResult with
  | Some _ => mret false
  | None => put key value
  end.

Definition deleteRange (start end_ : string) : M RocksKVStoreLite bool := λ s,
  let '(status, d) := db_DeleteRange start end_ (rocks_ s) in
  (Ret (ok status), {| rocks_ := d |}).

(** The iterator: [Seek] skips to the first key not below the prefix, the
    loop yields while the key starts with it. *)
Fixpoint seek (target : string) (l : list (string * string)) : list (string * string) :=
  match l with
  | [] => []
  | e :: l' => if decide (key_lt e.1 target) then seek target l' else l
  end.
Fixpoint scan_loop (prefix : string) (l : list (string * string)) : list (string * string) :=
  match l with
  | [] => []
  | e :: l' => if starts_with e.1 prefix then e :: scan_loop prefix l' else []
  end.
Definition scan (prefix : string) : M RocksKVStoreLite (list (string * string)) :=
  gets (λ s, scan_loop prefix (seek prefix (db_Snapshot (rocks_ s)))).

Definition flushWal : M RocksKVStoreLite bool := λ s,
  let '(status, d) := db_FlushWAL (rocks_ s) in
  (Ret (ok status), {| rocks_ := d |}).

Definition checkpoint {F} `{RocksCheckpoints D F} (checkpointDir : string) : M (RocksKVStoreLite * F) () :=
  s ← gets fst;
  zoom snd (λ f x, (x.1, f)) (write_checkpoint checkpointDir (rocks_ s)).

#[global] Instance RocksKVStoreLite_KVStoreLite : KVStoreLite RocksKVStoreLite := {|
  kv_put := put;
  kv_putIfNotExists := putIfNotExists;
  kv_get := get;
  kv_deleteRange := deleteRange;
  kv_scan := scan;
  kv_flushWal := flushWal |}.
End rocks.
Arguments RocksKVStoreLite : clear implicits.
End Rocks.
Import Rocks.

(** ** Contracts *)

(** The keys [start <= k < end]. *)
Definition in_key_range (start end_ k : string) : Prop :=
  key_le start k ∧ key_lt k end_.
#[global] Instance in_key_range_dec start end_ k : Decision (in_key_range start end_ k).
Proof. unfold in_key_range. apply _. Defined.

Definition om_delete_range (start end_ : string) (m : ordmap string string)
    : ordmap string string :=
  filter (λ e : string * string, ¬ in_key_range start end_ e.1) m.

Definition apply_batch_op (m : ordmap string string) (op : BatchOp) : ordmap string string :=
  match op with
  | BatchPut k v => om_set k v m
  | BatchDelete k => om_erase k m
  end.

(** RocksDB: a write that reports success is applied whole, one that reports
    an error not at all; a read answers from the contents or reports an error;
    an iterator runs over the contents in byte order of the keys.  A healthy
    database reports no errors. *)
Class RocksDBLaws (D : Type) `{RocksDB D} := {
  db_contents : D → ordmap string string;
  db_healthy : D → Prop;
  db_sorted d : om_sorted (db_contents d);
  db_Write_spec ops d st d' : db_Write ops d = (st, d') →
    db_contents d' =
      if ok st then foldl apply_batch_op (db_contents d) ops else db_contents d;
  db_Get_spec key d st v : db_Get key d = (st, v) →
    match st with
    | StatusOk => om_find key (db_contents d) = Some v
    | StatusNotFound => om_find key (db_contents d) = None
    | StatusError _ => True
    end;
  db_DeleteRange_spec start end_ d st d' : db_DeleteRange start end_ d = (st, d') →
    db_contents d' =
      if ok st then om_delete_range start end_ (db_contents d) else db_contents d;
  db_Snapshot_spec d : db_Snapshot d = db_contents d;
  db_FlushWAL_spec d : db_contents (db_FlushWAL d).2 = db_contents d;
  db_healthy_Write ops d : db_healthy d →
    (db_Write ops d).1 = StatusOk ∧ db_healthy (db_Write ops d).2;
  db_healthy_Get key d : db_healthy d → ok (db_Get key d).1 = true ∨ (db_Get key d).1 = StatusNotFound;
  db_healthy_DeleteRange start end_ d : db_healthy d →
    (db_DeleteRange start end_ d).1 = StatusOk ∧ db_healthy (db_DeleteRange start end_ d).2;
  db_healthy_FlushWAL d : db_healthy d →
    (db_FlushWAL d).1 = StatusOk ∧ db_healthy (db_FlushWAL d).2 }.

Definition succeeded (o : outcome bool) : bool :=
  match o with Ret b => b | _ => false end.

(** The contract of [KVStoreLite]. *)
Class KVStoreLaws (K : Type) `{KVStoreLite K} := {
  kv_contents : K → ordmap string string;
  kv_healthy : K → Prop;
  kv_sorted s : om_sorted (kv_contents s);
  kv_put_spec k v s o s' : kv_put k v s = (o, s') →
    kv_contents s' = if succeeded o then om_set k v (kv_contents s) else kv_contents s;
  kv_get_spec k s o s' : kv_get k s = (o, s') →
    s' = s ∧ (∀ x, o = Ret x → x = om_find k (kv_contents s));
  kv_putIfNotExists_spec k v s o s' : kv_putIfNotExists k v s = (o, s') →
    kv_contents s' =
      (if succeeded o then om_set k v (kv_contents s) else kv_contents s) ∧
    (succeeded o = true → om_find k (kv_contents s) = None);
  kv_deleteRange_spec start end_ s o s' : kv_deleteRange start end_ s = (o, s') →
    kv_contents s' =
      if succeeded o then om_delete_range start end_ (kv_contents s)
      else kv_contents s;
  kv_scan_spec p s : kv_scan p s =
    (Ret (filter (λ e : string * string, starts_with e.1 p) (kv_contents s)), s);
  kv_flushWal_spec s : kv_contents (kv_flushWal s).2 = kv_contents s;
  kv_healthy_put k v s : kv_healthy s →
    (kv_put k v s).1 = Ret true ∧ kv_healthy (kv_put k v s).2;
  kv_healthy_get k s : kv_healthy s → kv_get k s = (Ret (om_find k (kv_contents s)), s);
  kv_healthy_putIfNotExists k v s : kv_healthy s →
    (kv_putIfNotExists k v s).1 = Ret (bool_decide (om_find k (kv_contents s) = None)) ∧
    kv_healthy (kv_putIfNotExists k v s).2;
  kv_healthy_deleteRange start end_ s : kv_healthy s →
    (kv_deleteRange start end_ s).1 = Ret true ∧ kv_healthy (kv_deleteRange start end_ s).2;
  kv_healthy_flushWal s : kv_healthy s →
    (kv_flushWal s).1 = Ret true ∧ kv_healthy (kv_flushWal s).2 }.

(** ** Prefixes and byte order *)

Lemma starts_with_le s p : starts_with s p = true → String.le p s.
Proof.
  unfold starts_with. revert s. induction p as [|a p IH]; intros s Hs; [by destruct s|].
  destruct s as [|b s]; [done|]. simpl in Hs. destruct (ascii_dec a b); [|done].
  apply string_le_cons. right. auto.
Qed.

(** The strings with a given prefix are an interval of the byte order. *)
Lemma starts_with_convex s t p :
  String.le p s → String.le s t → starts_with t p = true → starts_with s p = true.
Proof.
  unfold starts_with. revert s t. induction p as [|a p IH]; intros s t Hps Hst Ht.
  { by destruct s. }
  destruct t as [|c t]; [done|]. simpl in Ht. destruct (ascii_dec a c) as [->|]; [|done].
  destruct s as [|b s]; [done|].
  apply string_le_cons in Hps as [Hlt|[<- Hps]].
  - apply string_le_cons in Hst as [Hlt'|[-> _]].
    + unfold Ascii.compare in *. rewrite N.compare_lt_iff in Hlt, Hlt'. lia.
    + by rewrite Ascii_compare_refl in Hlt.
  - simpl. destruct (ascii_dec c c); [|done].
    apply string_le_cons in Hst as [Hlt'|[_ Hst]]; [by rewrite Ascii_compare_refl in Hlt'|].
    by apply (IH s t).
Qed.

Section scan_lemmas.
Implicit Types m : ordmap string string.

Lemma scan_loop_filter p m :
  om_sorted m → Forall (λ e : string * string, String.le p e.1) m →
  scan_loop p m = filter (λ e : string * string, starts_with e.1 p) m.
Proof.
  induction m as [|[k v] m IH]; intros Hs Hall; simpl; [done|].
  apply om_sorted_cons in Hs as [Hlt Hs]. apply Forall_cons in Hall as [Hp Hall].
  simpl in Hp. destruct (starts_with k p) eqn:E.
  - rewrite filter_cons_True by (simpl; by rewrite E). by rewrite IH.
  - rewrite filter_cons_False by (simpl; rewrite E; by intros []).
    rewrite filter_none; [done|]. intros [k' v'] Hin Hst. simpl in Hst.
    apply Is_true_true in Hst.
    rewrite Forall_forall in Hlt. destruct (Hlt _ Hin) as [Hle _]. simpl in Hle.
    by rewrite (starts_with_convex k k' p) in E.
Qed.

Lemma seek_spec p m :
  om_sorted m →
  seek p m = filter (λ e : string * string, String.le p e.1) m.
Proof.
  induction m as [|[k v] m IH]; intros Hs; simpl; [done|].
  pose proof Hs as [Hlt Hs']%om_sorted_cons. case_decide as Hk.
  - rewrite IH by done. rewrite filter_cons_False; [done|]. intros Hle. exact (proj2 Hk Hle).
  - assert (Hpk : String.le p k).
    { destruct (total String.le p k) as [|Hkp]; [done|].
      destruct (decide (String.le p k)); [done|]. by destruct Hk; split. }
    rewrite filter_all; [done|]. intros e [->|Hin]%elem_of_cons; [done|].
    rewrite Forall_forall in Hlt. destruct (Hlt _ Hin) as [Hle _].
    simpl in Hle. by transitivity k.
Qed.

(** [Seek] and the loop together yield the entries with the prefix. *)
Lemma scan_spec p m :
  om_sorted m →
  scan_loop p (seek p m) = filter (λ e : string * string, starts_with e.1 p) m.
Proof.
  intros Hs. rewrite seek_spec by done.
  rewrite scan_loop_filter;
    [|by apply om_sorted_filter|apply Forall_forall; by intros e [? _]%list_elem_of_filter].
  induction m as [|[k v] m IH]; [done|]. apply om_sorted_cons in Hs as [_ Hs].
  rewrite (filter_cons _ (k, v)). simpl. case_decide as Hk.
  - rewrite !filter_cons. by rewrite IH.
  - rewrite (filter_cons_False _ (k, v)); [by apply IH|]. simpl.
    intros Hst%Is_true_true%starts_with_le. done.
Qed.
End scan_lemmas.

(** ** RocksKVStoreLite implements the contract *)

Section rocks_laws.
Context {D : Type} `{RocksDBLaws D}.
Implicit Types s : RocksKVStoreLite D.

Definition rocks_contents s : ordmap string string := db_contents (rocks_ s).

Lemma put_spec k v s o s' :
  put k v s = (o, s') →
  rocks_contents s' =
    if succeeded o then om_set k v (rocks_contents s) else rocks_contents s.
Proof.
  unfold put. destruct (db_Write _ _) as [st d] eqn:E. intros; simplify_eq.
  apply db_Write_spec in E. exact E.
Qed.

Lemma get_spec k s o s' :
  get k s = (o, s') → s' = s ∧ (∀ x, o = Ret x → x = om_find k (rocks_contents s)).
Proof.
  unfold get. destruct (db_Get k (rocks_ s)) as [st v] eqn:E. apply db_Get_spec in E.
  destruct st; simpl; intros; simplify_eq; split; naive_solver.
Qed.

Lemma putIfNotExists_spec k v s o s' :
  putIfNotExists k v s = (o, s') →
  rocks_contents s' =
    (if succeeded o then om_set k v (rocks_contents s) else rocks_contents s) ∧
  (succeeded o = true → om_find k (rocks_contents s) = None).
Proof.
  unfold putIfNotExists. mred. destruct (get k s) as [[[x|]|e|] s1] eqn:E;
    apply get_spec in E as [-> Hx]; intros Hp; simplify_eq; simpl; [done| |done|done].
  apply put_spec in Hp as ->. split; [done|]. intros _. by rewrite <- (Hx None).
Qed.

Lemma scan_filter p s :
  scan p s = (Ret (filter (λ e : string * string, starts_with e.1 p) (rocks_contents s)), s).
Proof.
  unfold scan, gets. rewrite db_Snapshot_spec, scan_spec by apply db_sorted. done.
Qed.

Lemma get_healthy k s :
  db_healthy (rocks_ s) → get k s = (Ret (om_find k (rocks_contents s)), s).
Proof.
  intros Hh. unfold get. destruct (db_Get k (rocks_ s)) as [st v] eqn:E.
  pose proof (db_healthy_Get k _ Hh) as Hst. rewrite E in Hst. simpl in Hst.
  apply db_Get_spec in E. unfold rocks_contents. destruct st; simpl.
  - by rewrite E.
  - by rewrite E.
  - by destruct Hst.
Qed.

Lemma put_healthy k v s :
  db_healthy (rocks_ s) → (put k v s).1 = Ret true ∧ db_healthy (rocks_ (put k v s).2).
Proof.
  intros Hh. unfold put. pose proof (db_healthy_Write [BatchPut k v] _ Hh) as [Hst ?].
  destruct (db_Write _ _) as [st d]. simpl in *. by rewrite Hst.
Qed.

Lemma putIfNotExists_healthy k v s :
  db_healthy (rocks_ s) →
  (putIfNotExists k v s).1 = Ret (bool_decide (om_find k (rocks_contents s) = None)) ∧
  db_healthy (rocks_ (putIfNotExists k v s).2).
Proof.
  intros Hh. unfold putIfNotExists. mred. rewrite get_healthy by done.
  destruct (om_find k (rocks_contents s)); simpl; [done|].
  by apply put_healthy.
Qed.

#[global, program] Instance RocksKVStoreLite_laws : KVStoreLaws (RocksKVStoreLite D) := {|
  kv_contents := rocks_contents;
  kv_healthy := λ s, db_healthy (rocks_ s) |}.
Next Obligation. intros s. apply db_sorted. Qed.
Next Obligation. exact put_spec. Qed.
Next Obligation. exact get_spec. Qed.
Next Obligation. exact putIfNotExists_spec. Qed.
Next Obligation.
  intros start end_ s o s'. simpl. unfold deleteRange.
  destruct (db_DeleteRange _ _ _) as [st d] eqn:E. intros; simplify_eq.
  apply db_DeleteRange_spec in E. exact E.
Qed.
Next Obligation. exact scan_filter. Qed.
Next Obligation.
  intros s. simpl. unfold flushWal. pose proof (db_FlushWAL_spec (rocks_ s)) as Hc.
  destruct (db_FlushWAL _) as [st d]. exact Hc.
Qed.
Next Obligation. exact put_healthy. Qed.
Next Obligation. exact get_healthy. Qed.
Next Obligation. exact putIfNotExists_healthy. Qed.
Next Obligation.
  intros start end_ s Hh. simpl. unfold deleteRange.
  pose proof (db_healthy_DeleteRange start end_ _ Hh) as [Hst ?].
  destruct (db_DeleteRange _ _ _) as [st d]. simpl in *. by rewrite Hst.
Qed.
Next Obligation.
  intros s Hh. simpl. unfold flushWal.
  pose proof (db_healthy_FlushWAL _ Hh) as [Hst ?].
  destruct (db_FlushWAL _) as [st d]. simpl in *. by rewrite Hst.
Qed.

(** [scan prefix] yields every entry whose key starts with the prefix, in
    key order, and nothing else, although it seeks to the prefix and stops
    at the first key without it. *)
Theorem scan_yields_prefix p s :
  ∃ l, scan p s = (Ret l, s) ∧ om_sorted l ∧
    ∀ k v, (k, v) ∈ l ↔ starts_with k p = true ∧ om_find k (rocks_contents s) = Some v.
Proof.
  eexists. split; [apply scan_filter|]. split; [apply om_sorted_filter, db_sorted|].
  intros k v. rewrite list_elem_of_filter. simpl. rewrite Is_true_true.
  by rewrite <- om_find_elem by apply db_sorted.
Qed.

(** [putIfNotExists] is a test-and-set: it never overwrites an existing
    entry, and when it reports success the entry was absent and is now
    stored.  A failing database changes nothing. *)
Theorem putIfNotExists_never_overwrites k v s o s' :
  putIfNotExists k v s = (o, s') →
  (∀ k' v', om_find k' (rocks_contents s) = Some v' → om_find k' (rocks_contents s') = Some v') ∧
  (o = Ret true → om_find k (rocks_contents s) = None ∧
     om_find k (rocks_contents s') = Some v) ∧
  (o ≠ Ret true → rocks_contents s' = rocks_contents s).
Proof.
  intros E. apply putIfNotExists_spec in E as [Hc Hn].
  split_and!.
  - intros k' v' Hk. rewrite Hc. destruct (succeeded o); [|done].
    rewrite om_find_set_ne; [done|]. intros <-. by rewrite Hn in Hk.
  - intros ->. split; [by apply Hn|]. rewrite Hc. simpl. by rewrite om_find_set_eq.
  - intros Ho. rewrite Hc. destruct o as [[]| |]; done.
Qed.
End rocks_laws.

(** ** A database for the witnesses: an ordered map that can be switched to
    report errors. *)

Record MemDB := { mem_data : ordmap string string; mem_sorted : om_sorted mem_data;
                  mem_failing : bool }.

Lemma apply_batch_sorted ops m : om_sorted m → om_sorted (foldl apply_batch_op m ops).
Proof.
  revert m. induction ops as [|[] ops IH]; intros m Hs; simpl; [done|..]; apply IH;
    auto using om_sorted_set, om_sorted_erase.
Qed.

Definition mem_set (m : ordmap string string) (Hm : om_sorted m) (d : MemDB) : MemDB :=
  {| mem_data := m; mem_sorted := Hm; mem_failing := mem_failing d |}.

#[global] Instance MemDB_RocksDB : RocksDB MemDB := {|
  db_Write := λ ops d, if mem_failing d then (StatusError "IO error", d) else
    (StatusOk, mem_set _ (apply_batch_sorted ops _ (mem_sorted d)) d);
  db_Get := λ k d, if mem_failing d then (StatusError "IO error", ""%string) else
    match om_find k (mem_data d) with
    | Some v => (StatusOk, v)
    | None => (StatusNotFound, ""%string)
    end;
  db_DeleteRange := λ start end_ d, if mem_failing d then (StatusError "IO error", d) else
    (StatusOk, mem_set (om_delete_range start end_ (mem_data d))
                 (om_sorted_filter _ _ (mem_sorted d)) d);
  db_Snapshot := mem_data;
  db_FlushWAL := λ d, (if mem_failing d then StatusError "IO error" else StatusOk, d);
  db_ToString := λ st, match st with
    | StatusOk => "OK" | StatusNotFound => "NotFound: " | StatusError m => m end%string |}.

#[global, program] Instance MemDB_laws : RocksDBLaws MemDB := {|
  db_contents := mem_data;
  db_healthy := λ d, mem_failing d = false |}.
Next Obligation. apply mem_sorted. Qed.
Next Obligation. intros ops d st d'. simpl. by destruct (mem_failing d); intros; simplify_eq. Qed.
Next Obligation.
  intros k d st v. simpl. destruct (mem_failing d); [by intros; simplify_eq|].
  by destruct (om_find k _) eqn:E; intros; simplify_eq.
Qed.
Next Obligation. intros s e d st d'. simpl. by destruct (mem_failing d); intros; simplify_eq. Qed.
Next Obligation. done. Qed.
Next Obligation. done. Qed.
Next Obligation. intros ops d Hd. cbn. rewrite Hd. cbn. done. Qed.
Next Obligation. intros k d. simpl. intros ->. destruct (om_find _ _); simpl; auto. Qed.
Next Obligation. intros s e d Hd. cbn. rewrite Hd. cbn. done. Qed.
Next Obligation. intros d Hd. cbn. rewrite Hd. cbn. done. Qed.

Definition empty_db : MemDB :=
  {| mem_data := []; mem_sorted := om_sorted_nil; mem_failing := false |}.
Definition empty_store : RocksKVStoreLite MemDB := {| rocks_ := empty_db |}.

(** ** Witnesses *)

Definition sample_kv : RocksKVStoreLite MemDB :=
  (put "a/2" "y" (put "b/1" "z" (put "a/1" "x" empty_store).2).2).2.

Lemma putIfNotExists_never_overwrites_witness :
  om_find "a/1" (rocks_contents (putIfNotExists "a/1" "w" sample_kv).2) = Some "x"%string.
Proof.
  apply (putIfNotExists_never_overwrites "a/1" "w" sample_kv
    (putIfNotExists "a/1" "w" sample_kv).1 (putIfNotExists "a/1" "w" sample_kv).2); reflexivity.
Defined.

Lemma scan_yields_prefix_witness :
  ∃ l, scan "a/" sample_kv = (Ret l, sample_kv) ∧ om_sorted l ∧
    ("a/2"%string, "y"%string) ∈ l.
Proof.
  destruct (scan_yields_prefix "a/" sample_kv) as (l & Hl & Hs & Hin).
  exists l. split_and!; [exact Hl|exact Hs|apply Hin; split; vm_compute; reflexivity].
Defined.
