(* ===== verification/TxnStore.v ===== *)
(** * Transactions on the key-value store

    [src/persistence/TransactionalRocksKVStoreLite.h]: a key-value store that is
    one transaction of an optimistic transaction database, and the manager that
    begins transactions and finds them by their id.  The database is a
    parameter: [OptimisticTransactionDB] lists the calls the program makes,
    [OptimisticTransactionLaws] what RocksDB's documentation says of them.

    Transactions are shared pointers; the manager's heap names them by
    numbers. *)

From stdpp Require Import base gmap sets list strings.
From Stdlib Require Import ZArith Lia.
From S2P Require Import Prelude KVStore.
Import Rocks (seek, scan_loop).

Open Scope Z_scope.

(** ** Optimistic transactions *)

(** A database [D] and a transaction [T] of it. *)
Class OptimisticTransactionDB (D T : Type) := {
  BeginTransaction : D → T * D;
  txn_GetId : T → Z;
  txn_Put : string → string → D → T → Status * T;
  txn_Delete : string → D → T → Status * T;
  txn_Get : string → D → T → Status * string;
  (** what [GetIterator] iterates over *)
  txn_Iterator : D → T → list (string * string);
  (** what is left of an iteration when the key it is at is deleted: the
      documentation calls the iterator invalid then *)
  itr_deleted : list (string * string) → list (string * string);
  txn_Commit : D → T → Status * D * T;
  txndb_FlushWAL : D → Status * D;
  txn_ToString : Status → string }.

(** The key an operation of a batch is about. *)
Definition op_key (op : BatchOp) : string :=
  match op with BatchPut k _ | BatchDelete k => k end.

(** A transaction buffers its writes, and reads the database through them.  It
    remembers, for every key it writes, the last write of that key by others;
    a commit that succeeds found none of these keys written since, and writes
    the whole buffer; one that fails writes nothing.  On a healthy database
    a commit fails only for a conflict. *)
Class OptimisticTransactionLaws (D T : Type) `{OptimisticTransactionDB D T} := {
  txndb_contents : D → ordmap string string;
  (** how often a key has been written *)
  key_seq : string → D → nat;
  txndb_healthy : D → Prop;
  txn_writes : T → list BatchOp;
  txn_tracked : T → gmap string nat;
  txndb_sorted d : om_sorted (txndb_contents d);
  Begin_spec d t d' : BeginTransaction d = (t, d') →
    txn_writes t = [] ∧ txn_tracked t = ∅ ∧ txndb_contents d' = txndb_contents d ∧
    (∀ k, key_seq k d' = key_seq k d) ∧ (txndb_healthy d → txndb_healthy d');
  Put_spec k v d t st t' : txn_Put k v d t = (st, t') →
    if ok st then
      txn_writes t' = txn_writes t ++ [BatchPut k v] ∧
      txn_tracked t' = match txn_tracked t !! k with
                       | Some _ => txn_tracked t
                       | None => <[k := key_seq k d]> (txn_tracked t)
                       end
    else txn_writes t' = txn_writes t ∧ txn_tracked t' = txn_tracked t;
  Delete_spec k d t st t' : txn_Delete k d t = (st, t') →
    if ok st then
      txn_writes t' = txn_writes t ++ [BatchDelete k] ∧
      txn_tracked t' = match txn_tracked t !! k with
                       | Some _ => txn_tracked t
                       | None => <[k := key_seq k d]> (txn_tracked t)
                       end
    else txn_writes t' = txn_writes t ∧ txn_tracked t' = txn_tracked t;
  Get_spec k d t st v : txn_Get k d t = (st, v) →
    match st with
    | StatusOk => om_find k (foldl apply_batch_op (txndb_contents d) (txn_writes t)) = Some v
    | StatusNotFound => om_find k (foldl apply_batch_op (txndb_contents d) (txn_writes t)) = None
    | StatusError _ => True
    end;
  Iterator_spec d t : txn_Iterator d t = foldl apply_batch_op (txndb_contents d) (txn_writes t);
  Commit_spec d t st d' t' : txn_Commit d t = (st, d', t') →
    if ok st then
      (∀ k n, txn_tracked t !! k = Some n → key_seq k d = n) ∧
      txndb_contents d' = foldl apply_batch_op (txndb_contents d) (txn_writes t) ∧
      (∀ k, (key_seq k d ≤ key_seq k d')%nat) ∧
      (∀ k, k ∈ map op_key (txn_writes t) → (key_seq k d < key_seq k d')%nat) ∧
      (∀ k n, txn_tracked t' !! k = Some n → (n ≤ key_seq k d')%nat)
    else txndb_contents d' = txndb_contents d ∧ (∀ k, key_seq k d' = key_seq k d) ∧
         txn_tracked t' = txn_tracked t;
  FlushWAL_spec d : txndb_contents (txndb_FlushWAL d).2 = txndb_contents d ∧
    ∀ k, key_seq k (txndb_FlushWAL d).2 = key_seq k d;
  healthy_Put k v d t : txndb_healthy d → (txn_Put k v d t).1 = StatusOk;
  healthy_Get k d t : txndb_healthy d →
    ok (txn_Get k d t).1 = true ∨ (txn_Get k d t).1 = StatusNotFound;
  healthy_Commit d t : txndb_healthy d →
    (∀ k n, txn_tracked t !! k = Some n → key_seq k d = n) →
    (txn_Commit d t).1.1 = StatusOk;
  healthy_after_Commit d t : txndb_healthy d → txndb_healthy (txn_Commit d t).1.2 }.

(** [RocksDbFactory::provideOptimisticDb] *)
Definition provideOptimisticDb {D T F : Type} `{OptimisticTransactionDB D T} `{RocksFiles F D}
    (config : RocksDbConfig) : M F D :=
  _ ← (if destroyIfExists config then
         destroyStatus ← (λ f, let '(st, f') := DestroyDB (path config) f in (Ret st, f'));
         check (ok destroyStatus)
       else mret ());
  r ← (λ f, let '(r, f') := DB_Open config f in (Ret r, f'));
  match r with
  | (StatusOk, Some db) => mret db
  | (status, _) =>
      throw (RuntimeError ("rocks instance could not be created: " +:+ txn_ToString status))
  end.

(** ** TransactionalRocksKVStoreLite: a transaction and its database *)

Section txn.
Context {D T : Type} `{OptimisticTransactionDB D T}.

Definition getId : M (T * D) Z := gets (λ s, txn_GetId s.1).

Definition put (key value : string) : M (T * D) bool := λ '(t, d),
  let '(status, t') := txn_Put key value d t in
  if ok status then (Ret true, (t', d))
  else (Throw (RuntimeError (txn_ToString status)), (t', d)).

Definition get (key : string) : M (T * D) (option string) := λ '(t, d),
  let '(status, value) := txn_Get key d t in
  if ok status then (Ret (Some value), (t, d))
  else (Throw (RuntimeError (txn_ToString status)), (t, d)).

Definition putIfNotExists (key value : string) : M (T * D) bool :=
  exists_ ← get key;
  match exists_ with
  | Some _ => mret false
  | None => put key value
  end.

(** The loop of [deleteRange], for at most [fuel] rounds; the iterator is never
    advanced, and the status of [Delete] is not looked at. *)
Fixpoint delete_loop (fuel : nat) (end_ : string) (itr : list (string * string))
    : M (T * D) (option bool) :=
  match fuel with
  | O => mret None
  | S fuel' =>
      match itr with
      | (key, _) :: _ =>
          if decide (key_lt key end_) then
            _ ← (λ '(t, d), (Ret (), ((txn_Delete key d t).2, d)));
            delete_loop fuel' end_ (itr_deleted itr)
          else mret (Some true)
      | [] => mret (Some true)
      end
  end.
Definition deleteRange (fuel : nat) (start end_ : string) : M (T * D) (option bool) :=
  itr ← gets (λ s, txn_Iterator s.2 s.1);
  delete_loop fuel end_ (seek start itr).

Definition scan (prefix : string) : M (T * D) (list (string * string)) :=
  gets (λ s, scan_loop prefix (seek prefix (txn_Iterator s.2 s.1))).

Definition flushWal : M (T * D) bool := λ '(t, d),
  let '(status, d') := txndb_FlushWAL d in (Ret (ok status), (t, d')).

Definition checkpoint {F} `{RocksCheckpoints D F} (checkpointDir : string) : M (T * D * F) () :=
  s ← gets fst;
  zoom snd (λ f x, (x.1, f)) (write_checkpoint checkpointDir s.2).

Definition commit : M (T * D) bool := λ '(t, d),
  let '(status, d', t') := txn_Commit d t in
  if ok status then (Ret true, (t', d'))
  else (Throw (RuntimeError (txn_ToString status)), (t', d')).

(** ** TxnManager *)

Record TxnManager := mkManager {
  txnDb_ : D;
  txns : list T;
  txnLookup_ : ordmap Z nat }.
Definition makeTxnManager (txnDb : D) : TxnManager := mkManager txnDb [] [].

(** The handle of the new transaction; [emplace] keeps an older transaction
    of the same id. *)
Definition createTxnHandle : M TxnManager nat := λ m,
  let '(txn, d) := BeginTransaction (txnDb_ m) in
  let handle := length (txns m) in
  (Ret handle,
   mkManager d (txns m ++ [txn]) (om_emplace (txn_GetId txn) handle (txnLookup_ m)).2).

Definition getTxnHandle (txnId : Z) : M TxnManager (option nat) :=
  gets (λ m, om_find txnId (txnLookup_ m)).

(** A call through a handle. *)
Definition on_handle {A} (handle : nat) (f : M (T * D) A) : M TxnManager A := λ m,
  match txns m !! handle with
  | None => (Throw NullPointer, m)
  | Some t =>
      let '(o, (t', d')) := f (t, txnDb_ m) in
      (o, mkManager d' (<[handle := t']> (txns m)) (txnLookup_ m))
  end.

(** ** Clients: calls through any handles, in any order *)

Inductive call :=
  | Create
  | Lookup (txnId : Z)
  | Put (handle : nat) (key value : string)
  | PutIfNotExists (handle : nat) (key value : string)
  | Get (handle : nat) (key : string)
  | DeleteRange (fuel : nat) (handle : nat) (start end_ : string)
  | Scan (handle : nat) (prefix : string)
  | FlushWal (handle : nat)
  | Commit (handle : nat).

Inductive answer :=
  | Handle (h : option nat)
  | Done (b : option bool)
  | Value (v : option string)
  | Entries (l : list (string * string)).

Definition serve (c : call) : M TxnManager answer :=
  match c with
  | Create => h ← createTxnHandle; mret (Handle (Some h))
  | Lookup i => h ← getTxnHandle i; mret (Handle h)
  | Put h k v => b ← on_handle h (put k v); mret (Done (Some b))
  | PutIfNotExists h k v => b ← on_handle h (putIfNotExists k v); mret (Done (Some b))
  | Get h k => v ← on_handle h (get k); mret (Value v)
  | DeleteRange n h s e => b ← on_handle h (deleteRange n s e); mret (Done b)
  | Scan h p => l ← on_handle h (scan p); mret (Entries l)
  | FlushWal h => b ← on_handle h flushWal; mret (Done (Some b))
  | Commit h => b ← on_handle h commit; mret (Done (Some b))
  end.

(** A caller goes on after an exception. *)
Fixpoint run (cs : list call) (m : TxnManager) : list (outcome answer) * TxnManager :=
  match cs with
  | [] => ([], m)
  | c :: cs' =>
      let '(o, m1) := serve c m in
      let '(os, m2) := run cs' m1 in
      (o :: os, m2)
  end.
End txn.
Arguments TxnManager : clear implicits.

(** ** Lemmas: every call but a commit leaves the database alone *)

Section laws.
Context {D T : Type} `{HO : OptimisticTransactionDB D T} `{HL : !OptimisticTransactionLaws D T}.
Implicit Types (t : T) (d : D) (m : TxnManager D T).

(** The buffered writes in front of the database. *)
Definition view (t : T) (d : D) : ordmap string string :=
  foldl apply_batch_op (txndb_contents d) (txn_writes t).

Lemma view_sorted t d : om_sorted (view t d).
Proof. apply apply_batch_sorted, txndb_sorted. Qed.

(** What a call on a transaction does that is no commit. *)
Record quiet (s s' : T * D) : Prop := {
  q_contents : txndb_contents s'.2 = txndb_contents s.2;
  q_seq k : key_seq k s'.2 = key_seq k s.2;
  q_kept k n : txn_tracked s.1 !! k = Some n → txn_tracked s'.1 !! k = Some n;
  q_new k n : txn_tracked s'.1 !! k = Some n → txn_tracked s.1 !! k = Some n ∨ n = key_seq k s.2 }.

#[local] Instance quiet_preorder : PreOrder quiet.
Proof.
  split; [by intros s; split; auto|]. intros s1 s2 s3 [C1 S1 K1 N1] [C2 S2 K2 N2]. split.
  - by rewrite C2.
  - intros k. by rewrite S2.
  - auto.
  - intros k n [Hn|Hn]%N2; [auto|]. rewrite S1 in Hn. auto.
Qed.

(** A key is tracked from its first write on. *)
Lemma track_quiet k t t' d :
  txn_tracked t' = match txn_tracked t !! k with
                   | Some _ => txn_tracked t
                   | None => <[k := key_seq k d]> (txn_tracked t)
                   end →
  quiet (t, d) (t', d) ∧ is_Some (txn_tracked t' !! k).
Proof.
  intros E. destruct (txn_tracked t !! k) as [n|] eqn:Ek; rewrite E.
  - split; [|by exists n]. split; simpl; try done; rewrite E; auto.
  - split; [|exists (key_seq k d); by rewrite lookup_insert_eq].
    split; simpl; try done; intros k' n; rewrite E, lookup_insert; case_decide; naive_solver.
Qed.

Lemma put_quiet k v s : quiet s (put k v s).2.
Proof.
  destruct s as [t d]. unfold put. destruct (txn_Put k v d t) as [st t'] eqn:E.
  apply Put_spec in E. destruct (ok st); destruct E as [_ E]; simpl.
  - by apply (track_quiet k).
  - split; simpl; try done; rewrite E; auto.
Qed.

Lemma put_tracks k v s : (put k v s).1 = Ret true → is_Some (txn_tracked (put k v s).2.1 !! k).
Proof.
  destruct s as [t d]. unfold put. destruct (txn_Put k v d t) as [st t'] eqn:E.
  apply Put_spec in E. destruct (ok st); [|done]. intros _. destruct E as [_ E]. simpl.
  by apply (track_quiet k _ _ d) in E as [_ ?].
Qed.

Lemma get_state k s : (get k s).2 = s.
Proof. destruct s as [t d]. unfold get. destruct (txn_Get k d t) as [st v]. by destruct (ok st). Qed.

(** [get] never answers that there is no value. *)
Lemma get_never_none k s : (get k s).1 ≠ Ret None.
Proof. destruct s as [t d]. unfold get. destruct (txn_Get k d t) as [st v]. by destruct (ok st). Qed.

(** So [putIfNotExists] has found a value, or has thrown. *)
Lemma putIfNotExists_finds k v s :
  (putIfNotExists k v s).2 = s ∧
  (putIfNotExists k v s).1 = match (get k s).1 with
                             | Ret _ => Ret false
                             | Throw e => Throw e
                             | Block => Block
                             end.
Proof.
  unfold putIfNotExists. mred. pose proof (get_never_none k s) as Hn. pose proof (get_state k s) as Hs.
  destruct (get k s) as [[[x|]|e|] s']; simpl in *; subst; done.
Qed.

Lemma delete_quiet k (t : T) (d : D) : quiet (t, d) ((txn_Delete k d t).2, d).
Proof.
  destruct (txn_Delete k d t) as [st t'] eqn:E. apply Delete_spec in E. destruct (ok st); destruct E as [_ E]; simpl.
  - by apply (track_quiet k).
  - split; simpl; try done; rewrite E; auto.
Qed.

Lemma deleteRange_quiet n start end_ s : quiet s (deleteRange n start end_ s).2.
Proof.
  unfold deleteRange. mred. generalize (seek start (txn_Iterator s.2 s.1)). revert s.
  induction n as [|n IH]; intros s itr; simpl; [reflexivity|].
  destruct itr as [|[key v] itr]; [reflexivity|]. case_decide; [|reflexivity].
  destruct s as [t d]. mred. etransitivity; [apply (delete_quiet key)|]. apply IH.
Qed.

Lemma flushWal_quiet s : quiet s (flushWal s).2.
Proof.
  destruct s as [t d]. unfold flushWal. pose proof (FlushWAL_spec d) as [Hc Hs].
  destruct (txndb_FlushWAL d) as [st d']. split; simpl in *; auto.
Qed.

(** *** Calls on the manager *)

(** Every transaction tracks writes that have happened. *)
Definition tracked_ok m : Prop :=
  ∀ h t k n, txns m !! h = Some t → txn_tracked t !! k = Some n → (n ≤ key_seq k (txnDb_ m))%nat.

(** The writes a call commits, and those of a list of calls. *)
Definition committing (c : call) m : option (nat * list BatchOp) :=
  match c with
  | Commit h =>
      match txns m !! h with
      | Some t => if ok (txn_Commit (txnDb_ m) t).1.1 then Some (h, txn_writes t) else None
      | None => None
      end
  | _ => None
  end.
Fixpoint committed (cs : list call) m : list (nat * list BatchOp) :=
  match cs with
  | [] => []
  | c :: cs' => option_list (committing c m) ++ committed cs' (serve c m).2
  end.

(** What a call leaves of the database and of the transaction [h]. *)
Record call_spec (c : call) m m' : Prop := {
  c_contents : txndb_contents (txnDb_ m') =
    match committing c m with
    | Some (_, ops) => foldl apply_batch_op (txndb_contents (txnDb_ m)) ops
    | None => txndb_contents (txnDb_ m)
    end;
  c_seq k : (key_seq k (txnDb_ m) ≤ key_seq k (txnDb_ m'))%nat;
  c_written k : ∀ h ops, committing c m = Some (h, ops) → k ∈ map op_key ops →
    (key_seq k (txnDb_ m) < key_seq k (txnDb_ m'))%nat;
  c_kept h t : txns m !! h = Some t → ∃ t', txns m' !! h = Some t' ∧
    (c ≠ Commit h → ∀ k n, txn_tracked t !! k = Some n → txn_tracked t' !! k = Some n) }.

Lemma call_spec_same c m : committing c m = None → call_spec c m m.
Proof.
  intros Hc. split; rewrite ?Hc; try done; try lia. intros h t Ht. exists t. auto.
Qed.

(** A quiet call through a handle. *)
Lemma quiet_call {A} c h (f : M (T * D) A) m :
  committing c m = None → (∀ s, quiet s (f s).2) → tracked_ok m →
  call_spec c m (on_handle h f m).2 ∧ tracked_ok (on_handle h f m).2.
Proof.
  intros Hc Hf Hm. unfold on_handle. destruct (txns m !! h) as [t|] eqn:Eh;
    [|split; [by apply call_spec_same|done]].
  specialize (Hf (t, txnDb_ m)). destruct (f (t, txnDb_ m)) as [o [t' d']].
  destruct Hf as [C S K N]. simpl in *. split.
  - split; simpl; rewrite ?Hc; try done.
    + intros k. by rewrite S.
    + intros h' t0 Ht0. rewrite list_lookup_insert. case_decide as Hd.
      * destruct Hd as [<- _]. exists t'. split; [done|]. simplify_eq. auto.
      * exists t0. auto.
  - intros h' t0 k n Ht0 Hk. simpl in *. rewrite S.
    rewrite list_lookup_insert in Ht0. case_decide as Hd.
    + simplify_eq. apply N in Hk as [Hk| ->]; [by eapply Hm|lia].
    + by eapply Hm.
Qed.

Lemma create_call m : tracked_ok m →
  call_spec Create m (createTxnHandle m).2 ∧ tracked_ok (createTxnHandle m).2.
Proof.
  intros Hm. unfold createTxnHandle. destruct (BeginTransaction (txnDb_ m)) as [t d] eqn:E.
  apply Begin_spec in E as (_ & Ht & Hc & Hs & _). split.
  - split; simpl; try done.
    + intros k. by rewrite Hs.
    + intros h t0 Ht0. exists t0. split; [by apply lookup_app_l_Some|auto].
  - intros h t0 k n Ht0 Hk. simpl in *. rewrite Hs.
    apply lookup_app_Some in Ht0 as [Ht0|[_ Ht0]]; [by eapply Hm|].
    apply list_lookup_singleton_Some in Ht0 as [_ <-]. rewrite Ht in Hk. by rewrite lookup_empty in Hk.
Qed.

Lemma commit_call h m : tracked_ok m →
  call_spec (Commit h) m (on_handle h commit m).2 ∧ tracked_ok (on_handle h commit m).2 ∧
  ((∀ t, txns m !! h = Some t → ok (txn_Commit (txnDb_ m) t).1.1 = false) →
   txndb_contents (txnDb_ (on_handle h commit m).2) = txndb_contents (txnDb_ m)).
Proof.
  intros Hm. unfold on_handle. destruct (txns m !! h) as [t|] eqn:Eh.
  2:{ split; [|by split]. apply call_spec_same. simpl. by rewrite Eh. }
  unfold commit. destruct (txn_Commit (txnDb_ m) t) as [[st d'] t'] eqn:E.
  pose proof (Commit_spec _ _ _ _ _ E) as Hc.
  assert (Hkept : ∀ h0 t0, txns m !! h0 = Some t0 → ∃ t1, <[h:=t']> (txns m) !! h0 = Some t1 ∧
    (Commit h ≠ Commit h0 → ∀ k n, txn_tracked t0 !! k = Some n → txn_tracked t1 !! k = Some n)).
  { intros h0 t0 Ht0. rewrite list_lookup_insert. case_decide as Hd; [|by exists t0].
    destruct Hd as [<- _]. by exists t'. }
  split; [|split].
  - destruct (ok st) eqn:Est; simpl in *; split; simpl; rewrite ?Eh, ?E; simpl; rewrite ?Est; try done.
    + by destruct Hc as (_ & -> & _).
    + by destruct Hc as (_ & _ & Hle & _).
    + intros k h0 ops [= <- <-]. destruct Hc as (_ & _ & _ & Hlt & _). apply Hlt.
    + by destruct Hc as [-> _].
    + intros k. destruct Hc as (_ & Hseq & _). by rewrite Hseq.
  - intros h0 t0 k n Ht0 Hk. destruct (ok st); simpl in *; rewrite list_lookup_insert in Ht0;
      case_decide; simplify_eq.
    + destruct Hc as (_ & _ & _ & _ & Hle). auto.
    + destruct Hc as (_ & _ & Hle & _). etransitivity; [by eapply Hm|apply Hle].
    + destruct Hc as (_ & -> & Ht). rewrite Ht in Hk. by eapply Hm.
    + destruct Hc as (_ & -> & _). by eapply Hm.
  - intros Hf. specialize (Hf t eq_refl). rewrite E in Hf. simpl in Hf. rewrite Hf in *. by destruct Hc.
Qed.

Lemma serve_on_handle {A} (f : A → answer) h (g : M (T * D) A) m :
  ((x ← on_handle h g; mret (f x)) m).2 = (on_handle h g m).2.
Proof. mred. by destruct (on_handle h g m) as [[] ?]. Qed.

Lemma serve_spec c m : tracked_ok m → call_spec c m (serve c m).2 ∧ tracked_ok (serve c m).2.
Proof.
  intros Hm. destruct c; simpl; rewrite ?serve_on_handle.
  - pose proof (create_call m Hm) as Hc. mred. by destruct (createTxnHandle m) as [[] ?].
  - mred. split; [by apply call_spec_same|done].
  - apply quiet_call; [done|apply put_quiet|done].
  - apply quiet_call; [done| |done]. intros s. by rewrite (proj1 (putIfNotExists_finds key value s)).
  - apply quiet_call; [done| |done]. intros s. by rewrite get_state.
  - apply quiet_call; [done|apply deleteRange_quiet|done].
  - by apply quiet_call.
  - apply quiet_call; [done|apply flushWal_quiet|done].
  - by destruct (commit_call handle m Hm) as (? & ? & _).
Qed.

Lemma run_cons c cs m : (run (c :: cs) m).2 = (run cs (serve c m).2).2.
Proof. simpl. destruct (serve c m) as [o m1]. simpl. by destruct (run cs m1). Qed.

Lemma make_tracked d : tracked_ok (makeTxnManager d).
Proof. intros h t k n. simpl. by rewrite lookup_nil. Qed.

Lemma run_tracked cs m : tracked_ok m → tracked_ok (run cs m).2.
Proof.
  revert m. induction cs as [|c cs IH]; intros m Hm; [done|].
  rewrite run_cons. by apply IH, serve_spec.
Qed.

Lemma run_seq cs m k : tracked_ok m → (key_seq k (txnDb_ m) ≤ key_seq k (txnDb_ (run cs m).2))%nat.
Proof.
  revert m. induction cs as [|c cs IH]; intros m Hm; [done|]. rewrite run_cons.
  destruct (serve_spec c m Hm) as [Hc Hm']. etransitivity; [apply (c_seq _ _ _ Hc)|by apply IH].
Qed.

(** A key that a commit has written has been written since. *)
Lemma run_written cs m h ops k :
  tracked_ok m → (h, ops) ∈ committed cs m → k ∈ map op_key ops →
  (key_seq k (txnDb_ m) < key_seq k (txnDb_ (run cs m).2))%nat.
Proof.
  revert m. induction cs as [|c cs IH]; intros m Hm Hin Hk; [by apply elem_of_nil in Hin|].
  rewrite run_cons. destruct (serve_spec c m Hm) as [Hc Hm'].
  simpl in Hin. apply elem_of_app in Hin as [Hin|Hin].
  - destruct (committing c m) as [x|] eqn:E; [|by apply elem_of_nil in Hin].
    apply list_elem_of_singleton in Hin as <-.
    pose proof (c_written _ _ _ Hc k h ops E Hk). pose proof (run_seq cs _ k Hm'). lia.
  - pose proof (c_seq _ _ _ Hc k). pose proof (IH _ Hm' Hin Hk). lia.
Qed.

(** What a transaction tracks stays tracked until it commits. *)
Lemma run_keeps cs m h t k n :
  tracked_ok m → Commit h ∉ cs → txns m !! h = Some t → txn_tracked t !! k = Some n →
  ∃ t', txns (run cs m).2 !! h = Some t' ∧ txn_tracked t' !! k = Some n.
Proof.
  revert m t. induction cs as [|c cs IH]; intros m t Hm Hcs Ht Hk; [by exists t|].
  apply not_elem_of_cons in Hcs as [Hne Hcs]. rewrite run_cons.
  destruct (serve_spec c m Hm) as [Hc Hm'].
  destruct (c_kept _ _ _ Hc h t Ht) as (t' & Ht' & Hkeep). eapply IH; try done. by apply Hkeep.
Qed.

(** ** Theorems *)

(** *** The reference: what the calls and their answers make of the database

    [ts_open] holds, for every handle, the puts its transaction has made, until
    a commit has been tried ([None]). *)
Record TxnSpec := mkTxnSpec {
  ts_db : ordmap string string;
  ts_open : list (option (list BatchOp)) }.

Definition spec_step (c : call) (o : outcome answer) (s : TxnSpec) : TxnSpec :=
  match c, o with
  | Create, _ => mkTxnSpec (ts_db s) (ts_open s ++ [Some []])
  | Put h k v, Ret _ =>
      mkTxnSpec (ts_db s) (alter (fmap (λ ws, ws ++ [BatchPut k v])) h (ts_open s))
  | Commit h, Ret _ =>
      mkTxnSpec (match ts_open s !! h with
                 | Some (Some ws) => foldl apply_batch_op (ts_db s) ws
                 | _ => ts_db s
                 end) (<[h := None]> (ts_open s))
  | Commit h, _ => mkTxnSpec (ts_db s) (<[h := None]> (ts_open s))
  | _, _ => s
  end.
Fixpoint spec_run (cs : list call) (os : list (outcome answer)) (s : TxnSpec) : TxnSpec :=
  match cs, os with
  | c :: cs', o :: os' => spec_run cs' os' (spec_step c o s)
  | _, _ => s
  end.

(** The answers of the calls through open handles: reads see the database and
    the puts of their own transaction. *)
Definition answer_ok (c : call) (o : outcome answer) (s : TxnSpec) : Prop :=
  match c, o with
  | Create, _ => o = Ret (Handle (Some (length (ts_open s))))
  | Get h k, Ret a => ∀ ws, ts_open s !! h = Some (Some ws) →
      a = Value (om_find k (foldl apply_batch_op (ts_db s) ws))
  | Scan h p, Ret a => ∀ ws, ts_open s !! h = Some (Some ws) →
      a = Entries (filter (λ e : string * string, starts_with e.1 p)
                     (foldl apply_batch_op (ts_db s) ws))
  | PutIfNotExists _ _ _, Ret a => a = Done (Some false)
  | _, _ => True
  end.
Fixpoint answers_ok (cs : list call) (os : list (outcome answer)) (s : TxnSpec) : Prop :=
  match cs, os with
  | c :: cs', o :: os' => answer_ok c o s ∧ answers_ok cs' os' (spec_step c o s)
  | [], [] => True
  | _, _ => False
  end.

(** No range is deleted, and no transaction is committed twice. *)
Definition serial_call (c : call) : bool := match c with DeleteRange _ _ _ _ => false | _ => true end.
Definition commits (cs : list call) : list nat :=
  omap (λ c, match c with Commit h => Some h | _ => None end) cs.

Record follows (s : TxnSpec) m : Prop := {
  f_db : ts_db s = txndb_contents (txnDb_ m);
  f_length : length (ts_open s) = length (txns m);
  f_open h ws : ts_open s !! h = Some (Some ws) → ∃ t, txns m !! h = Some t ∧ txn_writes t = ws }.

(** A call through a handle that changes neither database nor writes. *)
Lemma follows_reading {A} h (f : M (T * D) A) s m :
  (∀ t d, txn_writes (f (t, d)).2.1 = txn_writes t ∧
          txndb_contents (f (t, d)).2.2 = txndb_contents d) →
  follows s m → follows s (on_handle h f m).2.
Proof.
  intros Hf [Hdb Hl Ho]. unfold on_handle. destruct (txns m !! h) as [t|] eqn:Eh; [|done].
  destruct (Hf t (txnDb_ m)) as [Hw Hc]. destruct (f (t, txnDb_ m)) as [o [t' d']]. simpl in *.
  split; simpl; [congruence|by rewrite length_insert|].
  intros h' ws (t0 & Ht0 & Hw0)%Ho. rewrite list_lookup_insert. case_decide as Hd; [|eauto].
  destruct Hd as [<- _]. exists t'. split; [done|]. by simplify_eq.
Qed.

Lemma follows_put h k v s m :
  follows s m → follows (spec_step (Put h k v) (serve (Put h k v) m).1 s) (serve (Put h k v) m).2.
Proof.
  intros [Hdb Hl Ho]. simpl. unfold on_handle. mred.
  destruct (txns m !! h) as [t|] eqn:Eh; [|done].
  unfold put. destruct (txn_Put k v (txnDb_ m) t) as [st t'] eqn:Ep. apply Put_spec in Ep.
  destruct (ok st); destruct Ep as [Hw _]; simpl; (split; simpl; [done|by rewrite ?length_alter, length_insert|]);
    intros h' ws; (destruct (decide (h = h')) as [<-|Hne];
      [rewrite list_lookup_insert_eq by (by eapply lookup_lt_Some)
      |rewrite list_lookup_insert_ne by done]).
  - rewrite list_lookup_alter_eq. intros Hs.
    destruct (ts_open s !! h) as [[ws0|]|] eqn:E0; simplify_eq/=.
    destruct (Ho h ws0 E0) as (t0 & ? & ?). simplify_eq. by exists t'.
  - rewrite list_lookup_alter_ne by done. apply Ho.
  - intros (t0 & ? & ?)%Ho. exists t'. split; [done|]. by simplify_eq.
  - apply Ho.
Qed.

Lemma follows_commit h s m :
  follows s m → ts_open s !! h ≠ Some None →
  follows (spec_step (Commit h) (serve (Commit h) m).1 s) (serve (Commit h) m).2.
Proof.
  intros [Hdb Hl Ho] Hopen. simpl. unfold on_handle. mred.
  destruct (txns m !! h) as [t|] eqn:Eh.
  2: { simpl. rewrite list_insert_ge; [by destruct s|].
       rewrite Hl. by apply lookup_ge_None. }
  assert (Hws : ts_open s !! h = Some (Some (txn_writes t))).
  { destruct (lookup_lt_is_Some_2 (ts_open s) h) as [[ws|] E];
      [rewrite Hl; by eapply lookup_lt_Some| |done].
    rewrite E. apply Ho in E as (t0 & ? & ?). by simplify_eq. }
  unfold commit. destruct (txn_Commit (txnDb_ m) t) as [[st d'] t'] eqn:Ec. apply Commit_spec in Ec.
  destruct (ok st); simpl; (split; simpl; [|by rewrite !length_insert|]).
  - rewrite Hws, Hdb. by destruct Ec as (_ & -> & _).
  - intros h' ws. rewrite !list_lookup_insert.
    repeat case_decide; try done; [naive_solver lia|apply Ho].
  - destruct Ec as (-> & _). done.
  - intros h' ws. rewrite !list_lookup_insert.
    repeat case_decide; try done; [naive_solver lia|apply Ho].
Qed.

Lemma open_reads h k s m a m' :
  follows s m → serve (Get h k) m = (Ret a, m') → answer_ok (Get h k) (Ret a) s.
Proof.
  intros [Hdb Hl Ho]. simpl. unfold on_handle. mred. intros E ws (t & Ht & <-)%Ho. rewrite Ht in E.
  unfold get in E. destruct (txn_Get k (txnDb_ m) t) as [st v] eqn:Eg. apply Get_spec in Eg.
  destruct st; simplify_eq/=. by rewrite Hdb, Eg.
Qed.

Lemma open_scans h p s m a m' :
  follows s m → serve (Scan h p) m = (Ret a, m') → answer_ok (Scan h p) (Ret a) s.
Proof.
  intros [Hdb Hl Ho]. simpl. unfold on_handle. mred. intros E ws (t & Ht & <-)%Ho. rewrite Ht in E.
  unfold scan, gets in E. simplify_eq/=. rewrite Iterator_spec, scan_spec by apply view_sorted.
  by rewrite Hdb.
Qed.

(** One call: the reference follows, and the answer is the reference's. *)
Lemma follows_step c s m :
  follows s m → serial_call c = true → (∀ h, c = Commit h → ts_open s !! h ≠ Some None) →
  answer_ok c (serve c m).1 s ∧ follows (spec_step c (serve c m).1 s) (serve c m).2.
Proof.
  intros Hf Hc Hh.
  assert (Hsame : ∀ A h (f : M (T * D) A) (g : A → answer),
    (∀ t d, txn_writes (f (t, d)).2.1 = txn_writes t ∧
            txndb_contents (f (t, d)).2.2 = txndb_contents d) →
    follows s ((x ← on_handle h f; mret (g x)) m).2).
  { intros A h f g Hk. rewrite serve_on_handle. by apply follows_reading. }
  destruct c as [|i|h k v|h k v|h k|n h st en|h p|h|h]; try done.
  - destruct Hf as [Hdb Hl Ho]. simpl. mred. unfold createTxnHandle.
    destruct (BeginTransaction (txnDb_ m)) as [t d] eqn:E. apply Begin_spec in E as (Hw & _ & Hcd & _).
    split; [by rewrite Hl|]. split; simpl; [congruence|rewrite !length_app; simpl; lia|].
    intros h ws [Hs|[Hlen Hs]]%lookup_app_Some.
    + apply Ho in Hs as (t0 & Ht0 & ?). exists t0. split; [by apply lookup_app_l_Some|done].
    + apply list_lookup_singleton_Some in Hs as [Hh0 [= <-]]. exists t. split; [|done].
      rewrite lookup_app_r by lia. rewrite <- Hl. by rewrite Hh0.
  - split; [|by apply follows_put]. by destruct (serve (Put h k v) m).1.
  - split.
    + simpl. unfold on_handle. mred. destruct (txns m !! h); [|done].
      destruct (putIfNotExists_finds k v (t, txnDb_ m)) as [_ Ho].
      destruct (putIfNotExists k v (t, txnDb_ m)) as [o [t' d']]. cbn [fst] in Ho. subst o.
      by destruct (get k (t, txnDb_ m)).1.
    + apply Hsame. intros t d. by rewrite (proj1 (putIfNotExists_finds k v (t, d))).
  - split; [|apply Hsame; intros t d; by rewrite get_state].
    destruct (serve (Get h k) m) as [[a| |] m'] eqn:E; [|done..]. by eapply open_reads.
  - split; [|by apply Hsame].
    destruct (serve (Scan h p) m) as [[a| |] m'] eqn:E; [|done..]. by eapply open_scans.
  - split; [by destruct (serve (FlushWal h) m) as [[]]|]. apply Hsame. intros t d. unfold flushWal.
    pose proof (proj1 (FlushWAL_spec (T:=T) d)). by destruct (txndb_FlushWAL d).
  - split; [by destruct (serve (Commit h) m) as [[]]|]. apply follows_commit; auto.
Qed.

Lemma spec_step_open c o s h :
  ts_open (spec_step c o s) !! h = Some None → ts_open s !! h = Some None ∨ c = Commit h.
Proof.
  assert (Hcr : (ts_open s ++ [Some []]) !! h = Some None → ts_open s !! h = Some None).
  { intros [?|[_ [_ ?]%list_lookup_singleton_Some]]%lookup_app_Some; done. }
  assert (Hco : ∀ h', (<[h' := None]> (ts_open s)) !! h = Some None →
    ts_open s !! h = Some None ∨ Commit h' = Commit h).
  { intros h'. destruct (decide (h' = h)) as [->|]; [by right|].
    rewrite list_lookup_insert_ne by done. by left. }
  destruct c as [|i|h' k v|h' k v|h' k|n h' st en|h' p|h'|h'], o; simpl; auto.
  destruct (decide (h' = h)) as [->|].
  - rewrite list_lookup_alter_eq. destruct (ts_open s !! h) as [[]|]; naive_solver.
  - rewrite list_lookup_alter_ne by done. by left.
Qed.

(** C31: a transaction's puts reach the database when it commits, all of them
    and at once, and nothing else does.  After any calls through any handles -
    ranges are not deleted, and a transaction is not used to commit twice - the
    database is what a reference makes of the calls and of which of them threw:
    it collects the puts that returned per handle and applies them, in the order
    they were made, when a commit of the handle returns.  On the way, a read or
    scan through a handle not yet committed sees the reference's database with
    the puts of its own transaction in front, and [putIfNotExists] answers only
    that there is a value. *)
Theorem commits_serialize d cs :
  forallb serial_call cs = true → NoDup (commits cs) →
  let '(os, m) := run cs (makeTxnManager d : TxnManager D T) in
  txndb_contents (txnDb_ m) = ts_db (spec_run cs os (mkTxnSpec (txndb_contents d) [])) ∧
  answers_ok cs os (mkTxnSpec (txndb_contents d) []).
Proof.
  set (s0 := mkTxnSpec (txndb_contents d) []). set (m0 := makeTxnManager d).
  assert (Hf : follows s0 m0) by (split; [done|done|intros h ws; simpl; by rewrite lookup_nil]).
  assert (Hh : ∀ h, ts_open s0 !! h = Some None → h ∉ commits cs) by (intros h; simpl; by rewrite lookup_nil).
  clearbody s0 m0. revert s0 m0 Hf Hh. induction cs as [|c cs IH]; intros s m Hf Hh Hc Hnd; simpl.
  { split; [|done]. symmetry. apply Hf. }
  apply andb_true_iff in Hc as [Hc Hcs].
  destruct (follows_step c s m Hf Hc) as [Ha Hf1].
  { intros h -> Hs. apply (Hh h Hs). left. }
  destruct (serve c m) as [o m1]. simpl in *. specialize (IH (spec_step c o s) m1 Hf1).
  destruct (run cs m1) as [os m2]. simpl.
  assert (Hnd' : NoDup (commits cs) ∧ ∀ h, c = Commit h → h ∉ commits cs).
  { destruct c; simpl in Hnd; try (split; [done|intros ? [=]]).
    apply NoDup_cons in Hnd as [Hn Hnd]. split; [done|by intros h [= <-]]. }
  destruct IH as [E Hok]; [|done|apply Hnd'|by auto].
  intros h Hs. apply spec_step_open in Hs as [Hs|Hs]; [|by apply Hnd'].
  intros Hin. apply (Hh h Hs). destruct c; simpl; try done. by right.
Qed.

(** C30: the first transaction to commit a key wins: once a transaction has put a
    key, whatever other calls come before its commit, if one of them commits a
    write of this key then the commit throws and writes nothing. *)
Theorem first_committer_wins d cs h k v cs' (m m' : TxnManager D T) :
  (run cs (makeTxnManager d)).2 = m → serve (Put h k v) m = (Ret (Done (Some true)), m') →
  Commit h ∉ cs' → (∃ h' ops, (h', ops) ∈ committed cs' m' ∧ k ∈ map op_key ops) →
  ∃ e m'', serve (Commit h) (run cs' m').2 = (Throw e, m'') ∧
    txndb_contents (txnDb_ m'') = txndb_contents (txnDb_ (run cs' m').2).
Proof.
  intros <- Hput Hcs' (h' & ops & Hin & Hk). set (m := (run cs (makeTxnManager d : TxnManager D T)).2) in *.
  assert (Hm : tracked_ok m) by apply run_tracked, make_tracked.
  assert (Hm' : tracked_ok m').
  { pose proof (serve_spec (Put h k v) m Hm) as [_ Hm']. by rewrite Hput in Hm'. }
  assert (Htr : ∃ t n, txns m' !! h = Some t ∧ txn_tracked t !! k = Some n).
  { simpl in Hput. unfold on_handle in Hput. mred.
    destruct (txns m !! h) as [t|] eqn:Eh; [|done].
    pose proof (put_tracks k v (t, txnDb_ m)) as Hp.
    destruct (put k v (t, txnDb_ m)) as [[b| |] [t' d']]; simplify_eq. simpl in *.
    destruct (Hp eq_refl) as [n Hn]. exists t', n. split; [|done].
    rewrite list_lookup_insert, decide_True; [done|]. split; [done|]. by eapply lookup_lt_Some. }
  destruct Htr as (t & n & Ht & Hn).
  assert (Hle : (n ≤ key_seq k (txnDb_ m'))%nat) by by eapply Hm'.
  pose proof (run_written cs' m' h' ops k Hm' Hin Hk) as Hlt.
  destruct (run_keeps cs' m' h t k n Hm' Hcs' Ht Hn) as (t' & Ht' & Hn').
  set (m2 := (run cs' m').2) in *. simpl. unfold on_handle. mred. rewrite Ht'. unfold commit.
  destruct (txn_Commit (txnDb_ m2) t') as [[st d'] t2] eqn:E. apply Commit_spec in E.
  destruct (ok st).
  - destruct E as [Hno _]. apply Hno in Hn'. lia.
  - destruct E as [Hc _]. by eexists _, _.
Qed.

(** Isolation: a read answers from the transaction's own writes and the
    committed data; a key without a value is an exception. *)
Lemma get_reads_view t d k :
  txndb_healthy d →
  match om_find k (view t d) with
  | Some v => get k (t, d) = (Ret (Some v), (t, d))
  | None => ∃ e, get k (t, d) = (Throw e, (t, d))
  end.
Proof.
  intros Hh. unfold get. pose proof (healthy_Get k d t Hh) as Hok.
  destruct (txn_Get k d t) as [st v] eqn:E. apply Get_spec in E. fold (view t d) in E. simpl in *.
  destruct st; rewrite ?E; try done; [by eexists|]. by destruct Hok.
Qed.

(** [putIfNotExists] never writes: it answers that there is a value, or throws. *)
Theorem putIfNotExists_never_puts h k v m :
  (on_handle h (putIfNotExists k v) m).1 ≠ Ret true ∧ (on_handle h (putIfNotExists k v) m).2 = m.
Proof.
  unfold on_handle. destruct (txns m !! h) as [t|] eqn:E; [|done].
  destruct (putIfNotExists_finds k v (t, txnDb_ m)) as [Hs Ho].
  destruct (putIfNotExists k v (t, txnDb_ m)) as [o [t' d']]. simpl in *. simplify_eq. split.
  - destruct (txn_Get k (txnDb_ m) t) as [st x]. by destruct (ok st).
  - rewrite list_insert_id by done. by destruct m.
Qed.

(** [deleteRange] does not end once there is a key in the range, on an iterator
    that stays where it is until it is told to go on. *)
Lemma delete_loop_stays n end_ k v itr (s : T * D) :
  (∀ l, itr_deleted l = l) → key_lt k end_ →
  (delete_loop n end_ ((k, v) :: itr) s).1 = Ret None.
Proof.
  intros Hi Hk. revert s. induction n as [|n IH]; intros [t d]; [done|]. simpl.
  rewrite decide_True by done. mred. rewrite Hi. apply IH.
Qed.

Lemma seek_in start (l : list (string * string)) k v end_ :
  om_sorted l → (k, v) ∈ l → in_key_range start end_ k →
  ∃ k0 v0 l', seek start l = (k0, v0) :: l' ∧ key_lt k0 end_.
Proof.
  intros Hl Hin [Hs He]. rewrite seek_spec by done.
  assert (Hf : (k, v) ∈ filter (λ e : string * string, String.le start e.1) l)
    by by apply list_elem_of_filter.
  pose proof (om_sorted_filter (λ e : string * string, String.le start e.1) l Hl) as Hsort.
  destruct (filter (λ e : string * string, String.le start e.1) l) as [|[k0 v0] l'];
    [by apply elem_of_nil in Hf|].
  exists k0, v0, l'. split; [done|]. apply elem_of_cons in Hf as [[= <- <-]|Hf]; [done|].
  apply om_sorted_cons in Hsort as [Hlt _]. rewrite Forall_forall in Hlt.
  eapply key_lt_trans; [apply (Hlt _ Hf)|done].
Qed.

Theorem deleteRange_never_ends n start end_ t d :
  (∀ l, itr_deleted l = l) →
  (deleteRange n start end_ (t, d)).1 = Ret (Some true) ↔
  n ≠ 0%nat ∧ ∀ k, is_Some (om_find k (view t d)) → ¬ in_key_range start end_ k.
Proof.
  intros Hi. unfold deleteRange. mred. simpl. rewrite Iterator_spec. fold (view t d).
  pose proof (view_sorted t d) as Hv. split.
  - intros Hd. split; [by intros ->|]. intros k [v Hk] Hr. apply om_find_Some_elem in Hk.
    destruct (seek_in start _ k v end_ Hv Hk Hr) as (k0 & v0 & l & Hs & Hlt). rewrite Hs in Hd.
    by rewrite (delete_loop_stays n end_ k0 v0 l (t, d) Hi Hlt) in Hd.
  - intros [Hn Hk]. destruct n as [|n]; [done|]. rewrite seek_spec by done.
    destruct (filter (λ e : string * string, String.le start e.1) (view t d)) as [|[k v] l] eqn:E;
      [done|].
    simpl. rewrite decide_False; [done|]. intros Hlt.
    assert (Hin : (k, v) ∈ filter (λ e : string * string, String.le start e.1) (view t d))
      by (rewrite E; left).
    apply list_elem_of_filter in Hin as [Hle Hin]. apply (Hk k); [|by split].
    exists v. by apply om_elem_find.
Qed.

(** The scan yields what the transaction sees, in key order. *)
Theorem scan_yields_view p t d :
  scan p (t, d) = (Ret (filter (λ e : string * string, starts_with e.1 p) (view t d)), (t, d)).
Proof.
  unfold scan, gets. simpl. rewrite Iterator_spec. rewrite scan_spec by apply view_sorted. done.
Qed.

(** *** A lost update *)

(** A transaction that has written nothing. *)
Definition fresh t : Prop := txn_writes t = [] ∧ txn_tracked t = ∅.

Lemma fresh_get t d k v :
  txndb_healthy d → fresh t → om_find k (txndb_contents d) = Some v →
  get k (t, d) = (Ret (Some v), (t, d)).
Proof.
  intros Hh [Hw _] Hv. pose proof (get_reads_view t d k Hh) as Hg. unfold view in Hg.
  rewrite Hw in Hg. simpl in Hg. by rewrite Hv in Hg.
Qed.

(** The only write of a transaction, and its commit right after it. *)
Lemma fresh_put_commit t d k v :
  txndb_healthy d → fresh t →
  ∃ t1 t2 d', put k v (t, d) = (Ret true, (t1, d)) ∧ commit (t1, d) = (Ret true, (t2, d')) ∧
    txndb_contents d' = om_set k v (txndb_contents d) ∧ txndb_healthy d'.
Proof.
  intros Hh [Hw Ht]. unfold put. pose proof (healthy_Put k v d t Hh) as Hok.
  destruct (txn_Put k v d t) as [st t1] eqn:E. apply Put_spec in E. simpl in Hok. subst st.
  simpl in E. rewrite Hw, Ht, lookup_empty in E. destruct E as [Hw1 Ht1].
  assert (Hno : ∀ k' n, txn_tracked t1 !! k' = Some n → key_seq k' d = n).
  { intros k' n. rewrite Ht1, lookup_insert. case_decide; [naive_solver|by rewrite lookup_empty]. }
  pose proof (healthy_Commit d t1 Hh Hno) as Hcok. pose proof (healthy_after_Commit d t1 Hh) as Hh'.
  destruct (txn_Commit d t1) as [[st d'] t2] eqn:Ec. pose proof (Commit_spec _ _ _ _ _ Ec) as E.
  cbn [fst snd] in *. subst st. simpl in E. destruct E as (_ & Hc & _).
  exists t1, t2, d'. unfold commit. rewrite Ec, Hc, Hw1. done.
Qed.

Lemma run_answers c cs m a m1 as_ m2 :
  serve c m = (a, m1) → run cs m1 = (as_, m2) → run (c :: cs) m = (a :: as_, m2).
Proof. intros Ec Er. simpl. by rewrite Ec, Er. Qed.

(** A call through a handle that returns. *)
Lemma handle_returns {A} (f : A → answer) h (g : M (T * D) A) d ts lk t a t' d' :
  ts !! h = Some t → g (t, d) = (Ret a, (t', d')) →
  (x ← on_handle h g; mret (f x)) (mkManager d ts lk) =
  (Ret (f a), mkManager d' (<[h:=t']> ts) lk).
Proof. intros Et Eg. unfold on_handle. mred. simpl. by rewrite Et, Eg. Qed.

(** What a transaction has read is not looked at when it commits: of two
    transactions that read a key and write it back, both commit, and the
    write of the first one is lost. *)
Theorem stale_read_commits m h h' t t' k v w w' :
  txndb_healthy (txnDb_ m) → h ≠ h' →
  txns m !! h = Some t → fresh t → txns m !! h' = Some t' → fresh t' →
  om_find k (txndb_contents (txnDb_ m)) = Some v →
  ∃ m', run [Get h k; Get h' k; Put h' k w'; Commit h'; Put h k w; Commit h] m =
    ([Ret (Value (Some v)); Ret (Value (Some v)); Ret (Done (Some true)); Ret (Done (Some true));
      Ret (Done (Some true)); Ret (Done (Some true))], m') ∧
    txndb_contents (txnDb_ m') = om_set k w (om_set k w' (txndb_contents (txnDb_ m))).
Proof.
  intros Hh Hne Ht Hf Ht' Hf' Hv. destruct m as [d ts lk]. cbn [txns txnDb_] in *.
  destruct (fresh_put_commit t' d k w' Hh Hf') as (t1 & t2 & d1 & Hp1 & Hc1 & Hd1 & Hh1).
  destruct (fresh_put_commit t d1 k w Hh1 Hf) as (t3 & t4 & d2 & Hp2 & Hc2 & Hd2 & _).
  assert (Hlt : (h < length ts)%nat) by by eapply lookup_lt_Some.
  assert (Hlt' : (h' < length ts)%nat) by by eapply lookup_lt_Some.
  eexists. split.
  - eapply run_answers; [eapply (handle_returns Value h); [done|by apply fresh_get]|].
    rewrite list_insert_id by done.
    eapply run_answers; [eapply (handle_returns Value h'); [done|by apply fresh_get]|].
    rewrite list_insert_id by done.
    eapply run_answers; [eapply (handle_returns (λ b, Done (Some b)) h'); [exact Ht'|exact Hp1]|].
    eapply run_answers; [eapply (handle_returns (λ b, Done (Some b)) h');
      [by rewrite list_lookup_insert_eq|exact Hc1]|].
    rewrite list_insert_insert_eq.
    eapply run_answers; [eapply (handle_returns (λ b, Done (Some b)) h);
      [by rewrite list_lookup_insert_ne|exact Hp2]|].
    eapply run_answers; [eapply (handle_returns (λ b, Done (Some b)) h);
      [by rewrite list_lookup_insert_eq by (by rewrite length_insert)|exact Hc2]|done].
  - simpl. by rewrite Hd2, Hd1.
Qed.
End laws.

(** A transaction whose id is taken is not found by it: the id stays with the
    older transaction. *)
Lemma createTxnHandle_lookup {D T : Type} `{OptimisticTransactionDB D T} (m : TxnManager D T) :
  let '(t, _) := BeginTransaction (txnDb_ m) in
  let '(o, m') := createTxnHandle m in
  o = Ret (length (txns m)) ∧
  (getTxnHandle (txn_GetId t) m').1 =
    Ret (Some (default (length (txns m)) (om_find (txn_GetId t) (txnLookup_ m)))).
Proof.
  unfold createTxnHandle. destruct (BeginTransaction (txnDb_ m)) as [t d] eqn:E.
  split; [done|]. simpl. unfold om_emplace.
  destruct (om_find (txn_GetId t) (txnLookup_ m)) eqn:E'; simpl; [by rewrite E'|].
  by rewrite om_find_set_eq.
Qed.

(** ** A transaction database for the witnesses *)

Record MemTxnDB := { mt_data : MemDB; mt_seq : gmap string nat }.
Record MemTxn := { mt_id : Z; mt_writes : list BatchOp; mt_tracked : gmap string nat }.

Definition mt_key_seq (k : string) (d : MemTxnDB) : nat := default 0%nat (mt_seq d !! k).
Definition mt_write (op : BatchOp) (d : MemTxnDB) (t : MemTxn) : MemTxn :=
  {| mt_id := mt_id t; mt_writes := mt_writes t ++ [op];
     mt_tracked := match mt_tracked t !! op_key op with
                   | Some _ => mt_tracked t
                   | None => <[op_key op := mt_key_seq (op_key op) d]> (mt_tracked t)
                   end |}.
Definition mt_clean (d : MemTxnDB) (t : MemTxn) : bool :=
  bool_decide (map_Forall (λ k n, mt_key_seq k d = n) (mt_tracked t)).
Definition mt_bump (ops : list BatchOp) (s : gmap string nat) : gmap string nat :=
  foldl (λ s op, <[op_key op := S (default 0%nat (s !! op_key op))]> s) s ops.
Definition mt_apply (ops : list BatchOp) (d : MemTxnDB) : MemTxnDB :=
  {| mt_data := mem_set _ (apply_batch_sorted ops _ (mem_sorted (mt_data d))) (mt_data d);
     mt_seq := mt_bump ops (mt_seq d) |}.

Lemma mt_bump_le ops s k :
  (default 0 (s !! k) ≤ default 0 (mt_bump ops s !! k))%nat ∧
  (k ∈ map op_key ops → default 0 (s !! k) < default 0 (mt_bump ops s !! k))%nat.
Proof.
  revert s. induction ops as [|op ops IH]; intros s; simpl; [split; [done|by intros ?%elem_of_nil]|].
  set (s' := <[op_key op := S (default 0%nat (s !! op_key op))]> s).
  destruct (IH s') as [IH1 IH2]. unfold mt_bump in *.
  assert (Hs : default 0%nat (s' !! k) =
    if decide (op_key op = k) then S (default 0%nat (s !! k)) else default 0%nat (s !! k)).
  { unfold s'. rewrite lookup_insert. case_decide; [by subst|done]. }
  destruct (decide (op_key op = k)) as [E|E]; rewrite Hs in *; [split; [lia|intros _; lia]|].
  split; [done|]. intros [E'|Hin]%elem_of_cons; [by subst|auto].
Qed.

#[export] Instance MemTxn_ops : OptimisticTransactionDB MemTxnDB MemTxn := {|
  BeginTransaction d := ({| mt_id := 0; mt_writes := []; mt_tracked := ∅ |}, d);
  txn_GetId := mt_id;
  txn_Put k v d t := (StatusOk, mt_write (BatchPut k v) d t);
  txn_Delete k d t := (StatusOk, mt_write (BatchDelete k) d t);
  txn_Get k d t := match om_find k (foldl apply_batch_op (mem_data (mt_data d)) (mt_writes t)) with
                   | Some v => (StatusOk, v)
                   | None => (StatusNotFound, ""%string)
                   end;
  txn_Iterator d t := foldl apply_batch_op (mem_data (mt_data d)) (mt_writes t);
  itr_deleted l := l;
  txn_Commit d t := if mt_clean d t
                    then (StatusOk, mt_apply (mt_writes t) d,
                          {| mt_id := mt_id t; mt_writes := []; mt_tracked := ∅ |})
                    else (StatusError "Resource busy: ", d, t);
  txndb_FlushWAL d := (StatusOk, d);
  txn_ToString st := match st with
    | StatusOk => "OK" | StatusNotFound => "NotFound: " | StatusError m => m end%string |}.

#[export, program] Instance MemTxn_laws : OptimisticTransactionLaws MemTxnDB MemTxn := {|
  txndb_contents d := mem_data (mt_data d);
  key_seq := mt_key_seq;
  txndb_healthy d := True;
  txn_writes := mt_writes;
  txn_tracked := mt_tracked |}.
Next Obligation. intros d. apply mem_sorted. Qed.
Next Obligation. by intros d t d' [= <- <-]. Qed.
Next Obligation. by intros k v d t st t' [= <- <-]. Qed.
Next Obligation. by intros k d t st t' [= <- <-]. Qed.
Next Obligation.
  intros k d t st v. simpl. destruct (om_find _ _) eqn:E; intros [= <- <-]; done.
Qed.
Next Obligation. done. Qed.
Next Obligation.
  intros d t st d' t'. simpl. unfold mt_clean. case_bool_decide as Hc; intros [= <- <- <-]; simpl; [|done].
  split_and!; [exact Hc|done| | |by intros k n; rewrite lookup_empty].
  - intros k. apply mt_bump_le.
  - intros k. apply mt_bump_le.
Qed.
Next Obligation. done. Qed.
Next Obligation. done. Qed.
Next Obligation. intros k d t _. simpl. destruct (om_find _ _); auto. Qed.
Next Obligation.
  intros d t _ Hc. simpl. unfold mt_clean. by rewrite bool_decide_true by exact Hc.
Qed.
Next Obligation. done. Qed.

Definition mt_sample : MemTxnDB :=
  mt_apply [BatchPut "x" "1"; BatchPut "y" "1"] {| mt_data := empty_db; mt_seq := ∅ |}.
Definition two_txns : TxnManager MemTxnDB MemTxn := (run [Create; Create] (makeTxnManager mt_sample)).2.

(** ** Witnesses *)

Lemma first_committer_wins_witness :
  ∃ e m, serve (Commit 0) (run [Put 1 "x" "3"; Commit 1] (serve (Put 0 "x" "2") two_txns).2).2 =
    (Throw e, m) ∧ om_find "x" (mem_data (mt_data (txnDb_ m))) = Some "3"%string.
Proof.
  destruct (first_committer_wins mt_sample [Create; Create] 0 "x" "2" [Put 1 "x" "3"; Commit 1]
    two_txns (serve (Put 0 "x" "2") two_txns).2 eq_refl) as (e & m & E & Hc).
  - by apply first_result; vm_compute.
  - intros Hin. do 2 (apply elem_of_cons in Hin as [Hin|Hin]; [discriminate Hin|]).
    by apply elem_of_nil in Hin.
  - exists 1%nat, [BatchPut "x" "3"]. split; [by left|by left].
  - exists e, m. split; [exact E|]. simpl in Hc. rewrite Hc. vm_compute. reflexivity.
Defined.

(** Two transactions interleaved: the second commits a key of its own and is
    not seen by the first; the third put is never committed. *)
Definition two_calls : list call :=
  [Create; Create; Put 0 "x" "2"; Put 1 "z" "5"; Get 0 "z"; Commit 1; Get 0 "x"; Commit 0;
   Create; Put 2 "y" "9"].

Lemma commits_serialize_witness :
  txndb_contents (txnDb_ (run two_calls (makeTxnManager mt_sample : TxnManager MemTxnDB MemTxn)).2)
  = [("x", "2"); ("y", "1"); ("z", "5")]%string.
Proof.
  pose proof (commits_serialize mt_sample two_calls) as H.
  destruct (run two_calls (makeTxnManager mt_sample : TxnManager MemTxnDB MemTxn)) as [os m] eqn:E.
  cbn [snd]. destruct H as [H _]; [reflexivity| |].
  - apply (bool_decide_unpack _). vm_compute. exact I.
  - rewrite H. assert (Eo : os = (run two_calls (makeTxnManager mt_sample : TxnManager MemTxnDB MemTxn)).1)
      by by rewrite E.
    rewrite Eo. vm_compute. reflexivity.
Defined.

Lemma stale_read_commits_witness :
  ∃ m, run [Get 0 "x"; Get 1 "x"; Put 1 "x" "2"; Commit 1; Put 0 "x" "2"; Commit 0] two_txns =
    ([Ret (Value (Some "1"%string)); Ret (Value (Some "1"%string)); Ret (Done (Some true));
      Ret (Done (Some true)); Ret (Done (Some true)); Ret (Done (Some true))], m).
Proof.
  destruct (stale_read_commits two_txns 0 1 {| mt_id := 0; mt_writes := []; mt_tracked := ∅ |}
    {| mt_id := 0; mt_writes := []; mt_tracked := ∅ |} "x" "1" "2" "2") as (m & E & _);
    try done. by exists m.
Defined.

Lemma deleteRange_never_ends_witness :
  ∀ n, (deleteRange n "a" "z" ({| mt_id := 0; mt_writes := []; mt_tracked := ∅ |}, mt_sample)).1 ≠
    Ret (Some true).
Proof.
  intros n E. apply deleteRange_never_ends in E as [_ Hk]; [|done].
  apply (Hk "x"%string); [by exists "1"%string|]. split; vm_compute; [done|]. split; [done|].
  intros H. by destruct H.
Defined.
