(* ===== verification/RocksNanoLog.v ===== *)
(** * The RocksDB nanolog

    [src/log/impl/RocksNanoLog.cc]: a segment whose entries, seal and end
    index live in a key-value store, with the two last ones cached in memory.
    As long as the store reports no errors it is proved to behave exactly like
    an in-memory nanolog next to an end index kept in its own way. *)

From stdpp Require Import base gmap sets list strings sorting pretty.
From Stdlib Require Import ZArith Lia Ascii.
From S2P Require Import Prelude LogTypes CompletionQueue NanoLog KVStore.
Import KVStore.Rocks(RocksKVStoreLite, rocks_).

Open Scope Z_scope.

(** [folly::to]: parses a string, or throws a conversion error ([None]). *)
Class FollyConv := {
  to_bool : string → option bool;
  to_LogId : string → option Z }.

(** What the code relies on: [to<bool>] knows the two words the code writes and
    [to<LogId>] reads back what [std::to_string] wrote. *)
Class FollyConvLaws `{FollyConv} : Prop := {
  to_bool_TRUE : to_bool "TRUE" = Some true;
  to_bool_FALSE : to_bool "FALSE" = Some false;
  to_LogId_to_string z : in_i64 z = true → to_LogId (pretty z) = Some z }.

(** [struct KeyFormat] with [fmt::format] *)
Definition logKey (versionId : string) (logId : Z) : string :=
  "VERSION_ID|" +:+ versionId +:+ "|LOG_ID|" +:+ pretty logId.
Definition sealKey (versionId : string) : string :=
  "VERSION_ID|" +:+ versionId +:+ "|SEAL|".
Definition startIndexKey (versionId : string) : string :=
  "VERSION_ID|" +:+ versionId +:+ "|START_INDEX|".
Definition endIndexKey (versionId : string) : string :=
  "VERSION_ID|" +:+ versionId +:+ "|END_INDEX|".

Definition conversion_error : exn := RuntimeError "conversion error".

Section rocks_nanolog.
Context {P K : Type} `{KVStoreLite K} `{FollyConv}.

Record RocksNanoLog := mkRocksNanoLog {
  id_ : string;
  name_ : string;
  versionId_ : string;
  startIndex_ : Z;
  endIndex_ : Z;
  endIndexDirty_ : bool;
  sealed_ : bool;
  sealDirty_ : bool;
  completionQueue_ : OrderedCompletionQueue P Z;
  kvStore_ : K }.

Definition makeRocksNanoLog (id name versionId : string) (startIndex endIndex : Z)
    (sealed : bool) (kvStore : K) : RocksNanoLog :=
  mkRocksNanoLog id name versionId startIndex endIndex true sealed true
    (CompletionQueue.make startIndex) kvStore.

Definition with_end (e : Z) (dirty : bool) (n : RocksNanoLog) : RocksNanoLog :=
  mkRocksNanoLog (id_ n) (name_ n) (versionId_ n) (startIndex_ n) e dirty
    (sealed_ n) (sealDirty_ n) (completionQueue_ n) (kvStore_ n).
Definition with_seal (b dirty : bool) (n : RocksNanoLog) : RocksNanoLog :=
  mkRocksNanoLog (id_ n) (name_ n) (versionId_ n) (startIndex_ n) (endIndex_ n)
    (endIndexDirty_ n) b dirty (completionQueue_ n) (kvStore_ n).
Definition with_queue (q : OrderedCompletionQueue P Z) (n : RocksNanoLog) : RocksNanoLog :=
  mkRocksNanoLog (id_ n) (name_ n) (versionId_ n) (startIndex_ n) (endIndex_ n)
    (endIndexDirty_ n) (sealed_ n) (sealDirty_ n) q (kvStore_ n).
Definition with_store (k : K) (n : RocksNanoLog) : RocksNanoLog :=
  mkRocksNanoLog (id_ n) (name_ n) (versionId_ n) (startIndex_ n) (endIndex_ n)
    (endIndexDirty_ n) (sealed_ n) (sealDirty_ n) (completionQueue_ n) k.

Definition on_store {A} (m : M K A) : M RocksNanoLog A := zoom kvStore_ with_store m.

Definition bool_string (b : bool) : string := if b then "TRUE" else "FALSE".

Definition init : M RocksNanoLog () :=
  n ← get;
  _ ← on_store (kv_put (startIndexKey (versionId_ n)) (pretty (startIndex_ n)));
  _ ← on_store (kv_put (endIndexKey (versionId_ n)) (pretty (startIndex_ n)));
  _ ← on_store (kv_put (sealKey (versionId_ n)) (bool_string (sealed_ n)));
  mret ().

Definition co_isSealed : M RocksNanoLog bool :=
  n ← get;
  if sealDirty_ n then
    optionalSealed ← on_store (kv_get (sealKey (versionId_ n)));
    match optionalSealed with
    | Some v =>
        match to_bool v with
        | Some b => _ ← modify (with_seal b false); mret b
        | None => throw conversion_error
        end
    | None => _ ← modify (with_seal (sealed_ n) false); mret (sealed_ n)
    end
  else mret (sealed_ n).

Definition co_setSeal : M RocksNanoLog bool :=
  _ ← modify (λ n, with_seal (sealed_ n) true n);
  n ← get;
  result ← on_store (kv_put (sealKey (versionId_ n)) "TRUE");
  fsyncResult ← on_store kv_flushWal;
  _ ← modify (λ n, if (fsyncResult : bool) then with_seal true false n else n);
  n ← get;
  mret (result && fsyncResult && sealed_ n).

Definition co_getEndIndex : M RocksNanoLog Z :=
  n ← get;
  if endIndexDirty_ n then
    optionalEndIndex ← on_store (kv_get (endIndexKey (versionId_ n)));
    match optionalEndIndex with
    | Some v =>
        match to_LogId v with
        | Some e => _ ← modify (with_end e false); mret e
        | None => throw conversion_error
        end
    | None => _ ← modify (with_end (endIndex_ n) false); mret (endIndex_ n)
    end
  else mret (endIndex_ n).

Definition co_setEndIndex (endIndex : Z) : M RocksNanoLog bool :=
  _ ← modify (λ n, with_end (endIndex_ n) true n);
  n ← get;
  result ← on_store (kv_put (endIndexKey (versionId_ n)) (pretty endIndex));
  fsyncResult ← on_store kv_flushWal;
  if (fsyncResult : bool) then _ ← modify (with_end endIndex false); mret true
  else throw (RuntimeError "unknown error while writing to rocks").

(** The body of [append] next to the promises it completes. *)
Definition on_log {A} (m : M RocksNanoLog A) : M (RocksNanoLog * list (P * Z)) A :=
  zoom fst (λ n s, (n, s.2)) m.
Definition on_queue
    (f : OrderedCompletionQueue P Z → list (P * Z) * OrderedCompletionQueue P Z)
    : M (RocksNanoLog * list (P * Z)) () := λ s,
  let '(done, q) := f (completionQueue_ s.1) in
  (Ret (), (with_queue q s.1, s.2 ++ done)).

Definition append_body (p : P) (globalCommitIndex : option Z) (logId : Z)
    (logEntryPayload : string) (skipSeal : bool)
    : M (RocksNanoLog * list (P * Z)) () :=
  sealed ← on_log co_isSealed;
  n ← on_log get;
  if negb skipSeal && (sealed : bool) then throw (NanoLogSealedException (versionId_ n)) else
  append ← on_log (on_store (kv_putIfNotExists (logKey (versionId_ n) logId) logEntryPayload));
  if negb append then throw NanoLogLogPositionAlreadyOccupied else
  match globalCommitIndex with
  | Some g =>
      _ ← on_queue (add logId p logId true);
      _ ← on_queue (completeAllBelow g);
      _ ← on_log (co_setEndIndex (g + 1));
      mret ()
  | None =>
      _ ← on_queue (add logId p logId false);
      range ← on_log (gets (λ n, getRangeEligibleForCompletion (completionQueue_ n)));
      if range.2 >? range.1 then
        _ ← on_log (co_setEndIndex range.2);
        on_queue (completeAllBelow (range.2 - 1))
      else mret ()
  end.

Definition append (p : P) (globalCommitIndex : option Z) (logId : Z)
    (logEntryPayload : string) (skipSeal : bool) (n : RocksNanoLog)
    : (future P * list (P * Z)) * RocksNanoLog :=
  match append_body p globalCommitIndex logId logEntryPayload skipSeal (n, []) with
  | (Ret _, (n', done)) => ((Pending p, done), n')
  | (Throw e, (n', done)) => ((Ready (Throw e), done), n')
  | (Block, (n', done)) => ((Ready Block, done), n')
  end.

Definition getLogEntry (logId : Z) : M RocksNanoLog (LogEntry + LogReadError) :=
  catch
    (n ← get;
     log ← on_store (kv_get (logKey (versionId_ n) logId));
     match log with
     | Some v => mret (inl (mkLogEntry logId v))
     | None => mret (inr NotFound)
     end)
    (λ _, mret (inr Unknown)).

Definition seal : M RocksNanoLog Z :=
  b ← co_setSeal;
  if (b : bool) then gets endIndex_ else mret (-1).

Definition getLocalCommitIndex : M RocksNanoLog Z := co_getEndIndex.
Definition getStartIndex (n : RocksNanoLog) : Z := startIndex_ n.
Definition getEndIndex : M RocksNanoLog Z := co_getEndIndex.
Definition isSealed : M RocksNanoLog bool := co_isSealed.

Definition trim (logId : Z) : M RocksNanoLog Z :=
  n ← get;
  deleteResult ← on_store (kv_deleteRange (logKey (versionId_ n) 0)
                                          (logKey (versionId_ n) logId));
  if (deleteResult : bool) then mret logId else throw (RuntimeError "log trim failed").

#[global] Instance RocksNanoLog_NanoLogOps : NanoLogOps P RocksNanoLog := {|
  nl_getMetadataVersionId := versionId_;
  nl_append := append;
  nl_getLogEntry := getLogEntry;
  nl_seal := seal;
  nl_getLocalCommitIndex := getLocalCommitIndex;
  nl_trim := trim;
  nl_getStartIndex := getStartIndex;
  nl_getEndIndex := getEndIndex;
  nl_isSealed := isSealed |}.
End rocks_nanolog.
Arguments RocksNanoLog : clear implicits.

(** ** Fencing, on any store *)

Section rocks_fencing.
Context {P K : Type} `{KVStoreLite K} `{FollyConv}.
Implicit Types n : RocksNanoLog P K.

(** The identity and the cached seal of a log. *)
Definition seal_state n : string * bool * bool := (versionId_ n, sealed_ n, sealDirty_ n).

(** Computations that leave them alone, whatever their outcome. *)
Definition keeps_seal {A} (m : M (RocksNanoLog P K) A) : Prop :=
  ∀ n, seal_state (m n).2 = seal_state n.

Lemma keeps_bind {A B} (m : M (RocksNanoLog P K) A) (f : A → M (RocksNanoLog P K) B) :
  keeps_seal m → (∀ a, keeps_seal (f a)) → keeps_seal (a ← m; f a).
Proof.
  intros Hm Hf n. unfold mbind, M_bind. specialize (Hm n).
  destruct (m n) as [[a| |] n']; simpl in *; [|done..]. by rewrite Hf.
Qed.
Lemma keeps_on_store {A} (m : M K A) : keeps_seal (on_store m).
Proof. intros n. unfold on_store, zoom. by destruct (m (kvStore_ n)). Qed.
Lemma keeps_modify f : (∀ n, seal_state (f n) = seal_state n) → keeps_seal (modify f).
Proof. intros Hf n. apply Hf. Qed.
Lemma keeps_get : keeps_seal get. Proof. done. Qed.
Lemma keeps_gets {A} (f : _ → A) : keeps_seal (gets f). Proof. done. Qed.
Lemma keeps_mret {A} (a : A) : keeps_seal (mret a). Proof. done. Qed.
Lemma keeps_throw {A} e : keeps_seal (throw (A := A) e). Proof. done. Qed.
Hint Resolve keeps_bind keeps_on_store keeps_get keeps_gets keeps_mret keeps_throw : core.

Lemma keeps_setEndIndex e : keeps_seal (co_setEndIndex e).
Proof.
  unfold co_setEndIndex. apply keeps_bind; [by apply keeps_modify|]. intros _.
  apply keeps_bind; [done|]. intros n. apply keeps_bind; [done|]. intros _.
  apply keeps_bind; [done|]. intros []; [|done].
  apply keeps_bind; [by apply keeps_modify|done].
Qed.

Lemma keeps_getEndIndex : keeps_seal co_getEndIndex.
Proof.
  unfold co_getEndIndex. apply keeps_bind; [done|]. intros n.
  destruct (endIndexDirty_ n); [|done]. apply keeps_bind; [done|]. intros [v|].
  - destruct (to_LogId v); [|done]. apply keeps_bind; [by apply keeps_modify|done].
  - apply keeps_bind; [by apply keeps_modify|done].
Qed.

Lemma on_log_Ret {A} (f : M (RocksNanoLog P K) A) n d a n' :
  f n = (Ret a, n') → on_log f (n, d) = (Ret a, (n', d)).
Proof. intros E. unfold on_log, zoom. simpl. by rewrite E. Qed.

Lemma on_log_seal {A} (m : M (RocksNanoLog P K) A) s :
  keeps_seal m → seal_state (on_log m s).2.1 = seal_state s.1.
Proof. intros Hm. unfold on_log, zoom. specialize (Hm s.1). by destruct (m s.1). Qed.

Lemma on_queue_seal f (s : RocksNanoLog P K * list (P * Z)) :
  seal_state (on_queue f s).2.1 = seal_state s.1.
Proof. unfold on_queue. by destruct (f _). Qed.

Definition is_fenced n : Prop := sealed_ n = true ∧ sealDirty_ n = false.

Lemma fenced_isSealed n : is_fenced n → co_isSealed n = (Ret true, n).
Proof. intros [Hs Hd]. unfold co_isSealed. mred. by rewrite Hd, Hs. Qed.

(** A computation on log and completed promises, in the monad of
    [append_body]. *)
Definition keeps {A} (m : M (RocksNanoLog P K * list (P * Z)) A) : Prop :=
  ∀ s, seal_state (m s).2.1 = seal_state s.1.
Lemma keeps2_bind {A B} (m : M (RocksNanoLog P K * list (P * Z)) A) (f : A → M _ B) :
  keeps m → (∀ a, keeps (f a)) → keeps (a ← m; f a).
Proof.
  intros Hm Hf s. unfold mbind, M_bind. specialize (Hm s).
  destruct (m s) as [[a| |] s']; simpl in *; [|done..]. by rewrite Hf.
Qed.

Lemma append_body_keeps n p g k x b :
  is_fenced n → seal_state (append_body p g k x b (n, [])).2.1 = seal_state n.
Proof.
  intros Hf. unfold append_body.
  rewrite (bind_Ret _ _ _ true (n, [])) by by apply on_log_Ret, fenced_isSealed.
  rewrite (bind_Ret _ _ _ n (n, [])) by by apply on_log_Ret.
  destruct (_ && _); [done|].
  match goal with |- seal_state (?m (n, [])).2.1 = _ => assert (Hk : keeps m); [|apply Hk] end.
  apply keeps2_bind; [intros s; by apply on_log_seal|]. intros [].
  2: { done. }
  cbn [negb]. destruct g as [g|].
  - apply keeps2_bind; [intros s; apply on_queue_seal|]. intros _.
    apply keeps2_bind; [intros s; apply on_queue_seal|]. intros _.
    apply keeps2_bind; [intros s; apply on_log_seal, keeps_setEndIndex|]. done.
  - apply keeps2_bind; [intros s; apply on_queue_seal|]. intros _.
    apply keeps2_bind; [intros s; by apply on_log_seal|]. intros range.
    destruct (_ >? _); [|done].
    apply keeps2_bind; [intros s; apply on_log_seal, keeps_setEndIndex|].
    intros _ s. apply on_queue_seal.
Qed.

Lemma append_keeps n p g k x b :
  is_fenced n → seal_state (append p g k x b n).2 = seal_state n.
Proof.
  intros Hf. unfold append. pose proof (append_body_keeps n p g k x b Hf) as Hk.
  by destruct (append_body _ _ _ _ _ _) as [[| |] [n' done]].
Qed.

Lemma fenced_same n n' : seal_state n' = seal_state n → is_fenced n → is_fenced n'.
Proof. unfold is_fenced. by intros [= _ -> ->]. Qed.

Lemma co_setSeal_true n n' : co_setSeal n = (Ret true, n') → is_fenced n'.
Proof.
  unfold co_setSeal. intros E.
  apply bind_inv_Ret in E as ([] & n1 & _ & E). apply bind_inv_Ret in E as (n2 & n3 & _ & E).
  apply bind_inv_Ret in E as (r & n4 & _ & E). apply bind_inv_Ret in E as (b & n5 & _ & E).
  apply bind_inv_Ret in E as ([] & n6 & E5 & E). apply bind_inv_Ret in E as (n7 & n8 & E6 & E).
  unfold modify, get, mret, M_ret in *. simplify_eq.
  destruct r, b; try discriminate. done.
Qed.

#[global, program] Instance Rocks_fencing : NanoLogFencing P (RocksNanoLog P K) := {|
  fenced := is_fenced |}.
Next Obligation.
  intros n e n' E Hne. simpl in E. unfold seal in E.
  apply bind_inv_Ret in E as ([] & n1 & E1 & E).
  - apply co_setSeal_true in E1. unfold gets in E. by simplify_eq.
  - unfold mret, M_ret in E. by simplify_eq.
Qed.
Next Obligation.
  intros n p g k x Hf. simpl. unfold append, append_body.
  rewrite (bind_Ret _ _ _ true (n, [])) by by apply on_log_Ret, fenced_isSealed.
  by rewrite (bind_Ret _ _ _ n (n, [])) by by apply on_log_Ret.
Qed.
Next Obligation. intros n p g k x b Hf. eapply fenced_same; [by apply append_keeps|done]. Qed.
Next Obligation.
  intros n k Hf. simpl. eapply fenced_same; [|done]. unfold getLogEntry. mred.
  unfold on_store, zoom. simpl. by destruct (kv_get _ _) as [[[]| |] ?].
Qed.
Next Obligation. intros n Hf. eapply fenced_same; [|done]. apply keeps_getEndIndex. Qed.
Next Obligation.
  intros n k Hf. simpl. eapply fenced_same; [|done]. unfold trim.
  apply keeps_bind; [done|]. intros n'. apply keeps_bind; [done|]. by intros [].
Qed.
End rocks_fencing.

(** ** The operations on a healthy store *)

Lemma pretty_in_logKey v k k' : logKey v k = logKey v k' → k = k'.
Proof. unfold logKey. intros E. by repeat apply (inj _) in E. Qed.

Ltac key_ne := unfold logKey, sealKey, startIndexKey, endIndexKey; intros E;
  do 2 apply (inj _) in E; discriminate E.
Lemma logKey_seal v k : logKey v k ≠ sealKey v. Proof. key_ne. Qed.
Lemma logKey_start v k : logKey v k ≠ startIndexKey v. Proof. key_ne. Qed.
Lemma logKey_end v k : logKey v k ≠ endIndexKey v. Proof. key_ne. Qed.
Lemma sealKey_end v : sealKey v ≠ endIndexKey v. Proof. key_ne. Qed.
Lemma sealKey_start v : sealKey v ≠ startIndexKey v. Proof. key_ne. Qed.
Lemma endKey_start v : endIndexKey v ≠ startIndexKey v. Proof. key_ne. Qed.
#[export] Hint Resolve logKey_seal logKey_start logKey_end sealKey_end sealKey_start
  endKey_start not_eq_sym : repl.

Section healthy.
Context {P K : Type} `{KVStoreLaws K} `{FollyConvLaws}.
Implicit Types n : RocksNanoLog P K.

Definition contents n : ordmap string string := kv_contents (kvStore_ n).
Definition healthy n : Prop := kv_healthy (kvStore_ n).

(** What the cached fields stand for. *)
Definition seal_view n : option bool :=
  if sealDirty_ n then
    match om_find (sealKey (versionId_ n)) (contents n) with
    | Some v => to_bool v
    | None => Some (sealed_ n)
    end
  else Some (sealed_ n).
Definition end_view n : option Z :=
  if endIndexDirty_ n then
    match om_find (endIndexKey (versionId_ n)) (contents n) with
    | Some v => to_LogId v
    | None => Some (endIndex_ n)
    end
  else Some (endIndex_ n).

Lemma healthy_put key v n :
  healthy n → ∃ k', on_store (kv_put key v) n = (Ret true, with_store k' n) ∧
    kv_healthy k' ∧ kv_contents k' = om_set key v (contents n).
Proof.
  intros Hh. destruct (kv_healthy_put key v _ Hh) as [Ho Hh'].
  unfold on_store, zoom. destruct (kv_put key v (kvStore_ n)) as [o k'] eqn:E.
  apply kv_put_spec in E. simpl in *. subst o. eauto.
Qed.

Lemma healthy_flush n :
  healthy n → ∃ k', on_store kv_flushWal n = (Ret true, with_store k' n) ∧
    kv_healthy k' ∧ kv_contents k' = contents n.
Proof.
  intros Hh. destruct (kv_healthy_flushWal _ Hh) as [Ho Hh'].
  pose proof (kv_flushWal_spec (kvStore_ n)) as Hc.
  unfold on_store, zoom. destruct (kv_flushWal (kvStore_ n)) as [o k'].
  simpl in *. subst o. eauto.
Qed.

Lemma healthy_get key n :
  healthy n → on_store (kv_get key) n = (Ret (om_find key (contents n)), n).
Proof.
  intros Hh. unfold on_store, zoom. rewrite kv_healthy_get by done. by destruct n.
Qed.

Lemma co_isSealed_healthy n b :
  healthy n → seal_view n = Some b → co_isSealed n = (Ret b, with_seal b false n).
Proof.
  intros Hh Hv. unfold co_isSealed, seal_view in *. mred.
  destruct (sealDirty_ n) eqn:Ed.
  - rewrite healthy_get by done.
    destruct (om_find _ _) as [v|]; [rewrite Hv; done|]. by simplify_eq.
  - simplify_eq. destruct n; simpl in *. by subst.
Qed.

Lemma co_getEndIndex_healthy n e :
  healthy n → end_view n = Some e → co_getEndIndex n = (Ret e, with_end e false n).
Proof.
  intros Hh Hv. unfold co_getEndIndex, end_view in *. mred.
  destruct (endIndexDirty_ n) eqn:Ed.
  - rewrite healthy_get by done.
    destruct (om_find _ _) as [v|]; [rewrite Hv; done|]. by simplify_eq.
  - simplify_eq. destruct n; simpl in *. by subst.
Qed.

Lemma co_setEndIndex_healthy e n :
  healthy n → ∃ k', co_setEndIndex e n = (Ret true, with_end e false (with_store k' n)) ∧
    kv_healthy k' ∧ kv_contents k' = om_set (endIndexKey (versionId_ n)) (pretty e) (contents n).
Proof.
  intros Hh. unfold co_setEndIndex. mred.
  destruct (healthy_put (endIndexKey (versionId_ n)) (pretty e)
    (with_end (endIndex_ n) true n) Hh) as (k1 & E1 & Hh1 & Hc1).
  simpl. rewrite E1.
  destruct (healthy_flush (with_store k1 (with_end (endIndex_ n) true n)) Hh1)
    as (k2 & E2 & Hh2 & Hc2).
  rewrite E2. exists k2. split; [done|]. split; [done|]. by rewrite Hc2.
Qed.

Lemma co_setSeal_healthy n :
  healthy n → ∃ k', co_setSeal n = (Ret true, with_seal true false (with_store k' n)) ∧
    kv_healthy k' ∧ kv_contents k' = om_set (sealKey (versionId_ n)) "TRUE" (contents n).
Proof.
  intros Hh. unfold co_setSeal. mred.
  destruct (healthy_put (sealKey (versionId_ n)) "TRUE"
    (with_seal (sealed_ n) true n) Hh) as (k1 & E1 & Hh1 & Hc1).
  simpl. rewrite E1.
  destruct (healthy_flush (with_store k1 (with_seal (sealed_ n) true n)) Hh1)
    as (k2 & E2 & Hh2 & Hc2).
  rewrite E2. exists k2. split; [done|]. split; [done|]. by rewrite Hc2.
Qed.

Lemma healthy_putIfNotExists key v n :
  healthy n → ∃ k',
    on_store (kv_putIfNotExists key v) n =
      (Ret (bool_decide (om_find key (contents n) = None)), with_store k' n) ∧
    kv_healthy k' ∧
    kv_contents k' = match om_find key (contents n) with
                     | Some _ => contents n
                     | None => om_set key v (contents n)
                     end.
Proof.
  intros Hh. destruct (kv_healthy_putIfNotExists key v _ Hh) as [Ho Hh'].
  unfold on_store, zoom.
  destruct (kv_putIfNotExists key v (kvStore_ n)) as [o k'] eqn:E.
  apply kv_putIfNotExists_spec in E as [Hc _]. simpl in *. subst o. fold (contents n).
  exists k'. split; [done|]. split; [done|]. rewrite Hc. simpl. fold (contents n).
  by destruct (om_find key (contents n)).
Qed.
End healthy.

(** Completing in two steps, as [append] does around the write of the end
    index, is completing at once. *)
Section two_step.
Context {P T : Type}.
Implicit Types (q : OrderedCompletionQueue P T) (l : ordmap Z (PromiseState P T)).

Lemma check_loop_app c l1 l2 :
  l1.*1 = seqZ c (length l1) → (∀ e, head l2 = Some e → e.1 ≠ c + length l1) →
  check_loop c (l1 ++ l2) = (map (λ e, fulfil e.2) l1, l1.*1, c + length l1).
Proof.
  revert c. induction l1 as [|[k v] l1 IH]; intros c Hk Hhd; simpl.
  - rewrite Z.add_0_r in *. destruct l2 as [|[k v] l2]; simpl; [done|].
    specialize (Hhd _ eq_refl). simpl in Hhd. by destruct (Z.eqb_spec k c).
  - rewrite fmap_cons, (seqZ_cons c) in Hk by (cbn [length]; lia).
    cbn [length] in *. injection Hk as -> Hk. rewrite Z.eqb_refl.
    rewrite (IH (c + 1)); [by replace (c + S (length l1)) with (c + 1 + length l1) by lia| |].
    + rewrite Hk. f_equal; lia.
    + intros e He. specialize (Hhd e He). lia.
Qed.

Lemma two_step_completion q :
  om_sorted (promises q) →
  let range := getRangeEligibleForCompletion q in
  (if range.2 >? range.1 then completeAllBelow (range.2 - 1) q else ([], q)) =
  checkAndCompleteAfterCurrentIndex q ∧
  range.2 = currentIndex (checkAndCompleteAfterCurrentIndex q).2.
Proof.
  destruct q as [c m]. intros Hs. simpl in *. rewrite range_loop_check.
  destruct (check_loop_spec c m) as (l1 & l2 & -> & E & Hk & Hhd).
  unfold checkAndCompleteAfterCurrentIndex. simpl. rewrite E. simpl.
  rewrite erase_all_prefix by done. split; [|done].
  rewrite Z.gtb_ltb. destruct (Z.ltb_spec c (c + length l1)).
  2: { assert (l1 = []) as -> by (destruct l1; [done|cbn [length] in *; lia]).
       by rewrite Z.add_0_r. }
  destruct l1 as [|e l1 _] using rev_ind; [simpl in *; lia|].
  rewrite length_app in *. cbn [length] in *. rewrite <- app_assoc in *.
  rewrite fmap_app, Nat2Z.inj_add, seqZ_app in Hk by lia.
  apply app_inj_2 in Hk as [Hk1 Hk2]; [|by rewrite length_seqZ].
  rewrite seqZ_cons in Hk2 by lia. injection Hk2 as Hk2.
  destruct (complete_below_split (c + (length l1 + 1)%nat - 1)
    {| currentIndex := c; promises := l1 ++ [e] ++ l2 |} Hs)
    as (la & lb & Hsplit & Hla & Hlb & Hsb & ->). simpl in Hsplit.
  pose proof (sorted_app _ _ Hs) as (_ & Hs2 & Hs12).
  assert (H1 : ∀ a, a ∈ l1 → a.1 < c + length l1).
  { intros a Ha. rewrite <- Hk2. apply Hs12; [done|left]. }
  destruct (split_unique (λ a, a.1 < c + length l1) l1 ([e] ++ l2) la lb) as [<- <-];
    [done|by apply Forall_forall| |eapply Forall_impl; [done|]; simpl; lia
    |eapply Forall_impl; [done|]; simpl; lia|].
  { apply Forall_cons. split; [lia|]. apply Forall_forall. intros a Ha. destruct e as [k v].
    apply om_sorted_cons in Hs2 as [Hall _]. rewrite Forall_forall in Hall.
    apply Hall, key_lt_Z in Ha. simpl in *. lia. }
  cbn [currentIndex]. rewrite Z.max_l by lia. unfold checkAndCompleteAfterCurrentIndex.
  cbn [currentIndex promises]. rewrite (check_loop_app _ [e] l2).
  - rewrite (erase_all_prefix [e]) by done. rewrite map_app. cbn [length].
    by replace (c + (length l1 + 1)%nat - 1 + 1%nat) with (c + (length l1 + 1)%nat) by lia.
  - cbn [length]. rewrite seqZ_cons by lia. simpl. f_equal. lia.
  - intros a Ha. specialize (Hhd a Ha). cbn [length]. lia.
Qed.
End two_step.

(** ** Refinement of the in-memory nanolog *)

#[local] Arguments add : simpl never.

Section refinement.
Context {P K : Type} `{KVStoreLaws K} `{FollyConvLaws}.
Implicit Types (r : RocksNanoLog P K) (m : InMemoryNanoLog P).

(** [r] behaves like [m], with [e] the end index it has stored and [c] the one
    it holds in memory, which is [e] from the first time it writes or reads it. *)
Record sim (c e : Z) r m : Prop := {
  sim_healthy : healthy r;
  sim_version : versionId_ r = metadataVersionId_ m;
  sim_queue : completionQueue_ r = NanoLog.completionQueue_ m;
  sim_sorted : om_sorted (promises (completionQueue_ r));
  sim_sealed : seal_view r = Some (NanoLog.sealed_ m);
  sim_logs : ∀ k, om_find (logKey (versionId_ r) k) (contents r) = om_find k (logs_ m);
  sim_end : end_view r = Some e;
  sim_cached : endIndex_ r = c }.

Ltac start_sim Hs := pose proof Hs as [Hh Hv Hq Hso Hse Hl He Hc].

Lemma sim_isSealed c e r m :
  sim c e r m →
  ∃ r', co_isSealed r = (Ret (NanoLog.sealed_ m), r') ∧ sim c e r' m ∧ sealDirty_ r' = false.
Proof.
  intros Hs. start_sim Hs. rewrite (co_isSealed_healthy r (NanoLog.sealed_ m)) by done.
  eexists. split; [done|]. split; [|done]. by split.
Qed.

Lemma sim_getEndIndex c e r m :
  sim c e r m → ∃ r', co_getEndIndex r = (Ret e, r') ∧ sim e e r' m.
Proof.
  intros Hs. start_sim Hs. rewrite (co_getEndIndex_healthy r e) by done.
  eexists. split; [done|]. by split.
Qed.

Lemma sim_getLogEntry c e r m k :
  sim c e r m →
  getLogEntry k r = ((NanoLog.getLogEntry k m).1, r) ∧ (NanoLog.getLogEntry k m).2 = m.
Proof.
  intros Hs. start_sim Hs. unfold getLogEntry, NanoLog.getLogEntry. mred.
  rewrite healthy_get, Hl by done. by destruct (om_find k (logs_ m)).
Qed.

Lemma sim_seal c e r m :
  sim c e r m → ∃ r', seal r = (Ret c, r') ∧ sim c e r' (NanoLog.seal m).2.
Proof.
  intros Hs. start_sim Hs. unfold seal. mred.
  destruct (co_setSeal_healthy r Hh) as (k' & -> & Hh' & Hc').
  eexists. split; [by rewrite <- Hc|]. split; try done; simpl.
  - intros k. unfold contents in *. simpl. rewrite Hc', om_find_set_ne; [apply Hl|].
    eauto with repl.
  - unfold end_view, contents in *. simpl. rewrite Hc', om_find_set_ne; [apply He|].
    apply sealKey_end.
Qed.

(** The stored entries after a [put] of an entry or of an internal key. *)
Lemma find_logKey_put v k k' x (c : ordmap string string) :
  om_find (logKey v k') (om_set (logKey v k) x c) =
  if decide (k = k') then Some x else om_find (logKey v k') c.
Proof.
  rewrite om_find_set. repeat case_decide; subst; try done.
  exfalso. eauto using pretty_in_logKey.
Qed.

(** Writing the end index. *)
Lemma sim_setEndIndex c e r m e' :
  sim c e r m → ∃ r', co_setEndIndex e' r = (Ret true, r') ∧ sim e' e' r' m.
Proof.
  intros Hs. start_sim Hs. destruct (co_setEndIndex_healthy e' r Hh) as (k' & -> & Hh' & Hc').
  eexists. split; [done|]. split; try done; simpl.
  - unfold seal_view, contents in *. simpl. rewrite Hc', om_find_set_ne; [apply Hse|].
    eauto with repl.
  - intros j. unfold contents in *. simpl. rewrite Hc', om_find_set_ne; [apply Hl|].
    eauto with repl.
Qed.

(** Putting the same queue into both. *)
Lemma sim_with_queue c e r m q :
  sim c e r m → om_sorted (promises q) →
  sim c e (with_queue q r) (with_logs (logs_ m) q m).
Proof. intros Hs Hq'. start_sim Hs. by split. Qed.

(** The end index an accepted append leaves: the position after the commit
    index it was given; without one, the commit index if that has advanced. *)
Definition end_after (g : option Z) (m m' : InMemoryNanoLog P) (e : Z) : Z :=
  match g with
  | Some i => i + 1
  | None => if commitIndex m <? commitIndex m' then commitIndex m' else e
  end.

(** Storing the position in the queue and completing up to the first hole,
    with the write of the end index in between. *)
Lemma sim_complete c e r m p k :
  sim c e r m →
  let m' := with_logs (logs_ m) (add k p k true (NanoLog.completionQueue_ m)).2 m in
  ∃ r', sim (end_after None m m' c) (end_after None m m' e) r' m' ∧
    (_ ← on_queue (add k p k false);
     range ← on_log (gets (λ n, getRangeEligibleForCompletion (completionQueue_ n)));
     if range.2 >? range.1 then
       _ ← on_log (co_setEndIndex range.2);
       on_queue (completeAllBelow (range.2 - 1))
     else mret ()) (r, []) =
    (Ret (), (r', (add k p k true (NanoLog.completionQueue_ m)).1)).
Proof.
  intros Hs m'. pose proof (sim_queue _ _ _ _ Hs) as Hq. subst m'.
  set (q1 := {| currentIndex := currentIndex (completionQueue_ r);
                promises := om_set k {| promise := p; result := k |}
                              (promises (completionQueue_ r)) |}).
  assert (Eq : add k p k true (NanoLog.completionQueue_ m)
               = checkAndCompleteAfterCurrentIndex q1) by (subst q1; by rewrite Hq).
  assert (Hs1 : om_sorted (promises q1)) by apply om_sorted_set, Hs.
  rewrite Eq. destruct (two_step_completion q1) as [E2 E3]; [done|].
  pose proof (check_conserves q1 (checkAndCompleteAfterCurrentIndex q1).1
    (checkAndCompleteAfterCurrentIndex q1).2) as (_ & Hmono & Hsort); [done| |].
  { by destruct (checkAndCompleteAfterCurrentIndex q1). }
  rewrite (bind_Ret _ _ _ () (with_queue q1 r, [])) by done.
  rewrite (bind_Ret _ _ _ (getRangeEligibleForCompletion q1) (with_queue q1 r, []))
    by (by apply on_log_Ret).
  assert (Hcur : commitIndex m = (getRangeEligibleForCompletion q1).1)
    by (unfold commitIndex; by rewrite <- Hq).
  unfold end_after. rewrite Hcur. unfold commitIndex.
  cbn [NanoLog.completionQueue_ with_logs]. rewrite <- E3, Z.gtb_ltb in *.
  destruct (Z.ltb_spec (getRangeEligibleForCompletion q1).1
    (getRangeEligibleForCompletion q1).2) as [Hlt|Hge].
  - destruct (sim_setEndIndex c e (with_queue q1 r) _ (getRangeEligibleForCompletion q1).2
      (sim_with_queue c e r m q1 Hs Hs1)) as (r1 & Ek & Hr1).
    erewrite bind_Ret by (apply on_log_Ret; exact Ek).
    unfold on_queue. cbn [fst snd]. rewrite (sim_queue _ _ _ _ Hr1). cbn [NanoLog.completionQueue_ with_logs].
    rewrite E2. destruct (checkAndCompleteAfterCurrentIndex q1) as [done q2]. simpl in *.
    eexists. split; [|done]. by apply (sim_with_queue _ _ r1 _ q2 Hr1).
  - rewrite <- E2. simpl. eexists. split; [|done]. by apply sim_with_queue.
Qed.

(** Storing the position and completing up to a given commit index, then
    writing the end index. *)
Lemma sim_complete_global c e r m p k g :
  sim c e r m →
  let a := add k p k true (NanoLog.completionQueue_ m) in
  let b := completeAllBelow g a.2 in
  ∃ r', sim (g + 1) (g + 1) r' (with_logs (logs_ m) b.2 m) ∧
    (_ ← on_queue (add k p k true); _ ← on_queue (completeAllBelow g);
     _ ← on_log (co_setEndIndex (g + 1)); mret ()) (r, []) = (Ret (), (r', a.1 ++ b.1)).
Proof.
  intros Hs a b. pose proof (sim_queue _ _ _ _ Hs) as Hq.
  pose proof (sim_sorted _ _ _ _ Hs) as Hso. rewrite Hq in Hso.
  destruct a as [d1 q1] eqn:E1, b as [d2 q2] eqn:E2. subst a b. simpl in E2.
  assert (Hs2 : om_sorted (promises q2)).
  { destruct (accepted_queue p (Some g) k _ d1 q1 d2 q2 Hso E1 E2) as (l1 & Hm & _).
    apply (om_sorted_set k {| promise := p; result := k |}) in Hso. rewrite Hm in Hso.
    by apply sorted_app in Hso as (_ & ? & _). }
  destruct (sim_setEndIndex c e (with_queue q2 r) _ (g + 1)
    (sim_with_queue c e r m q2 Hs Hs2)) as (r1 & Ek & Hr1).
  exists r1. split; [done|].
  rewrite (bind_Ret _ _ _ () (with_queue q1 r, d1)).
  2: { unfold on_queue. simpl. by rewrite Hq, E1. }
  rewrite (bind_Ret _ _ _ () (with_queue q2 r, d1 ++ d2)).
  2: { unfold on_queue. simpl. by rewrite E2. }
  by erewrite bind_Ret by (apply on_log_Ret; exact Ek).
Qed.

(** ** The reference: an in-memory nanolog and two end indices

    [ref_end] is the end index in the store and [ref_cached] the one held in
    memory, which [seal] answers without looking at the store. *)
Record RefLog := mkRefLog {
  ref_log : InMemoryNanoLog P;
  ref_end : Z;
  ref_cached : Z }.

Definition ref_append (p : P) (g : option Z) (k : Z) (x : string) (skipSeal : bool) (s : RefLog)
    : (future P * list (P * Z)) * RefLog :=
  let '((f, done), m) := NanoLog.append p g k x skipSeal (ref_log s) in
  match f with
  | Pending _ =>
      ((f, done), mkRefLog m (end_after g (ref_log s) m (ref_end s))
                             (end_after g (ref_log s) m (ref_cached s)))
  | Ready (Ret _) => ((Ready (Throw NanoLogLogPositionAlreadyOccupied), done), s)
  | Ready _ => ((f, done), s)
  end.

(** The calls on a segment, and what each answers. *)
Inductive seg_op :=
  | SegAppend (p : P) (g : option Z) (k : Z) (x : string) (skipSeal : bool)
  | SegSeal
  | SegRead (k : Z)
  | SegCommitIndex
  | SegEndIndex
  | SegIsSealed.
Inductive seg_answer :=
  | SegAppended (f : future P) (done : list (P * Z))
  | SegIndex (o : outcome Z)
  | SegEntry (o : outcome (LogEntry + LogReadError))
  | SegFlag (o : outcome bool).

Definition run_seg {N} `{NanoLogOps P N} (op : seg_op) (n : N) : seg_answer * N :=
  match op with
  | SegAppend p g k x b => let '((f, done), n') := nl_append p g k x b n in (SegAppended f done, n')
  | SegSeal => let '(o, n') := nl_seal n in (SegIndex o, n')
  | SegRead k => let '(o, n') := nl_getLogEntry k n in (SegEntry o, n')
  | SegCommitIndex => let '(o, n') := nl_getLocalCommitIndex n in (SegIndex o, n')
  | SegEndIndex => let '(o, n') := nl_getEndIndex n in (SegIndex o, n')
  | SegIsSealed => let '(o, n') := nl_isSealed n in (SegFlag o, n')
  end.

Definition run_ref (op : seg_op) (s : RefLog) : seg_answer * RefLog :=
  match op with
  | SegAppend p g k x b => let '((f, done), s') := ref_append p g k x b s in (SegAppended f done, s')
  | SegSeal => (SegIndex (Ret (ref_cached s)),
                mkRefLog (NanoLog.seal (ref_log s)).2 (ref_end s) (ref_cached s))
  | SegRead k => (SegEntry (NanoLog.getLogEntry k (ref_log s)).1, s)
  | SegCommitIndex | SegEndIndex =>
      (SegIndex (Ret (ref_end s)), mkRefLog (ref_log s) (ref_end s) (ref_end s))
  | SegIsSealed => (SegFlag (Ret (NanoLog.sealed_ (ref_log s))), s)
  end.

Fixpoint run_all {S} (step : seg_op → S → seg_answer * S) (ops : list seg_op) (s : S)
    : list seg_answer :=
  match ops with
  | [] => []
  | op :: ops' => let '(a, s') := step op s in a :: run_all step ops' s'
  end.

Definition ref_sim r (s : RefLog) : Prop := sim (ref_cached s) (ref_end s) r (ref_log s).

Lemma sim_append p g k x b r s :
  ref_sim r s →
  (append p g k x b r).1 = (ref_append p g k x b s).1 ∧
  ref_sim (append p g k x b r).2 (ref_append p g k x b s).2.
Proof.
  destruct s as [m e c]. unfold ref_sim. simpl. intros Hs.
  destruct (sim_isSealed c e r m Hs) as (r1 & E1 & Hs1 & Hd1).
  start_sim Hs1. unfold append, append_body, ref_append, NanoLog.append, append_locked. simpl.
  rewrite (bind_Ret _ _ _ _ _ (on_log_Ret _ _ [] _ _ E1)).
  rewrite (bind_Ret _ _ _ r1 (r1, [])) by done.
  rewrite Hv. destruct (negb b && NanoLog.sealed_ m) eqn:Esl; simpl; [by split|].
  destruct (healthy_putIfNotExists (logKey (metadataVersionId_ m) k) x r1 Hh)
    as (k2 & E2 & Hh2 & Hc2).
  erewrite bind_Ret by (apply on_log_Ret; exact E2).
  rewrite <- Hv in *. unfold om_emplace. rewrite Hl in *.
  assert (Hsv : seal_view (with_store k2 r1) = Some (NanoLog.sealed_ m)).
  { unfold seal_view in *. simpl. by rewrite Hd1 in *. }
  destruct (om_find k (logs_ m)) eqn:Efind; simpl.
  { destruct b; simpl; (split; [done|]); split; try done; simpl;
      unfold end_view, contents in *; simpl; by rewrite Hc2. }
  assert (Hs2 : sim c e (with_store k2 r1)
            (with_logs (om_set k x (logs_ m)) (NanoLog.completionQueue_ m) m)).
  { split; try done; simpl.
    - intros j. unfold contents in *. simpl. rewrite Hc2, find_logKey_put, om_find_set.
      by repeat case_decide.
    - unfold end_view, contents in *. simpl. rewrite Hc2, om_find_set_ne; [apply He|].
      eauto with repl. }
  destruct g as [g|].
  - destruct (sim_complete_global c e _ _ p k g Hs2) as (r3 & Hs3 & E3).
    rewrite E3. simpl in *. destruct (add k p k true _) as [d1 q1]. simpl in *.
    destruct (completeAllBelow g q1). by split.
  - destruct (sim_complete c e _ _ p k Hs2) as (r3 & Hs3 & E3).
    rewrite E3. simpl in *. destruct (add k p k true _) as [d1 q1]. simpl in *.
    by rewrite app_nil_r.
Qed.

(** One call: the reference's answer, and the simulation is kept. *)
Lemma sim_step op r s :
  ref_sim r s →
  (run_seg op r).1 = (run_ref op s).1 ∧ ref_sim (run_seg op r).2 (run_ref op s).2.
Proof.
  intros Hs. destruct op as [p g k x b| |k| | |]; simpl.
  - destruct (sim_append p g k x b r s Hs) as [E Hs'].
    destruct (append p g k x b r) as [[f d] r'], (ref_append p g k x b s) as [[f' d'] s'].
    simpl in *. by simplify_eq.
  - destruct (sim_seal _ _ r _ Hs) as (r' & -> & Hs'). by split.
  - destruct (sim_getLogEntry _ _ r _ k Hs) as [-> _]. by split.
  - unfold getLocalCommitIndex. destruct (sim_getEndIndex _ _ r _ Hs) as (r' & -> & Hs'). by split.
  - unfold getEndIndex. destruct (sim_getEndIndex _ _ r _ Hs) as (r' & -> & Hs'). by split.
  - unfold isSealed. destruct (sim_isSealed _ _ r _ Hs) as (r' & -> & Hs' & _). by split.
Qed.

Lemma sim_run ops r s :
  ref_sim r s → run_all run_seg ops r = run_all run_ref ops s.
Proof.
  revert r s. induction ops as [|op ops IH]; intros r s Hs; [done|].
  destruct (sim_step op r s Hs) as [E Hs']. simpl.
  destruct (run_seg op r) as [a r1], (run_ref op s) as [a' s1]. simpl in *. subst.
  f_equal. by apply IH.
Qed.

Lemma init_healthy id name v start end_ sealed k0 :
  kv_healthy k0 →
  ∃ k', init (makeRocksNanoLog (P := P) id name v start end_ sealed k0) =
          (Ret (), makeRocksNanoLog id name v start end_ sealed k') ∧
    kv_healthy k' ∧
    kv_contents k' = om_set (sealKey v) (bool_string sealed)
      (om_set (endIndexKey v) (pretty start)
        (om_set (startIndexKey v) (pretty start) (kv_contents k0))).
Proof.
  intros Hh. unfold init. set (r0 := makeRocksNanoLog _ _ _ _ _ _ _).
  rewrite (bind_Ret _ _ _ r0 r0) by done.
  destruct (healthy_put (startIndexKey v) (pretty start) r0 Hh) as (k1 & E1 & Hh1 & Hc1).
  destruct (healthy_put (endIndexKey v) (pretty start) (with_store k1 r0) Hh1)
    as (k2 & E2 & Hh2 & Hc2).
  destruct (healthy_put (sealKey v) (bool_string sealed) (with_store k2 r0) Hh2)
    as (k3 & E3 & Hh3 & Hc3).
  rewrite (bind_Ret _ _ _ _ _ E1), (bind_Ret _ _ _ _ _ E2), (bind_Ret _ _ _ _ _ E3).
  exists k3. split; [done|]. split; [done|]. unfold contents in *. simpl in *.
  by rewrite Hc3, Hc2, Hc1.
Qed.

(** After [init] on a healthy store without entries of the version. *)
Lemma init_sim id name v start end_ k0 :
  kv_healthy k0 → in_i64 start = true →
  (∀ k, om_find (logKey v k) (kv_contents k0) = None) →
  ∃ r, init (makeRocksNanoLog id name v start end_ false k0) = (Ret (), r) ∧
    sim end_ start r (makeInMemoryNanoLog id name v start end_ false).
Proof.
  intros Hh Hi Hnone.
  destruct (init_healthy id name v start end_ false k0 Hh) as (k' & E & Hh' & Hc').
  eexists. split; [exact E|]. split; try done; simpl.
  - apply om_sorted_nil.
  - unfold seal_view, contents. simpl. rewrite Hc', om_find_set_eq. apply to_bool_FALSE.
  - intros k. unfold contents. simpl. rewrite Hc', !om_find_set_ne by eauto with repl.
    apply Hnone.
  - unfold end_view, contents. simpl. rewrite Hc', om_find_set_ne by eauto with repl.
    rewrite om_find_set_eq. by apply to_LogId_to_string.
Qed.

(** C17: on a healthy store without entries of its version, a new RocksDB
    nanolog answers every sequence of appends (with or without a global commit
    index, skipping the seal or not), reads, seals and index queries exactly
    like this reference: an in-memory nanolog next to an end index, which an
    accepted append sets to the position after the global commit index it was
    given or, when given none, to the new commit index if that has advanced.
    The commit index it reports is this end index; a seal answers the end index
    as last held in memory, the constructor's until an append writes it or a
    query reads it; and an append that skips the seal is refused at a stored
    position, where the in-memory nanolog accepts it.  Promises completed are
    those the in-memory nanolog completes. *)
Theorem rocks_refines_inmemory id name v start end_ (k0 : K) ops :
  kv_healthy k0 → in_i64 start = true →
  (∀ k, om_find (logKey v k) (kv_contents k0) = None) →
  run_all run_seg ops (init (makeRocksNanoLog id name v start end_ false k0)).2 =
  run_all run_ref ops (mkRefLog (makeInMemoryNanoLog id name v start end_ false) start end_).
Proof.
  intros Hh Hi Hnone.
  destruct (init_sim id name v start end_ k0 Hh Hi Hnone) as (r & -> & Hs).
  by apply sim_run.
Qed.

(** A seal does not survive the object: opening the same store again, as
    [NanoLogFactory] does with [sealed = false], makes [init] overwrite the
    stored seal, and the segment accepts appends again. *)
Theorem reopening_loses_seal (n : RocksNanoLog P K) id name start end_ p k x :
  healthy n → om_find (logKey (versionId_ n) k) (contents n) = None →
  let n1 := (seal n).2 in
  let n2 := (init (makeRocksNanoLog (P := P) id name (versionId_ n) start end_ false
                     (kvStore_ n1))).2 in
  (seal n).1 = Ret (endIndex_ n) ∧ (isSealed n1).1 = Ret true ∧
  (isSealed n2).1 = Ret false ∧ (append p None k x false n2).1.1 = Pending p.
Proof.
  intros Hh Hnone.
  destruct (co_setSeal_healthy n Hh) as (k1 & E1 & Hh1 & Hc1).
  unfold seal. rewrite (bind_Ret _ _ _ _ _ E1). cbv beta iota.
  destruct (init_healthy id name (versionId_ n) start end_ false k1 Hh1)
    as (k2 & E2 & Hh2 & Hc2).
  unfold gets. simpl. rewrite E2. set (n2 := makeRocksNanoLog _ _ _ _ _ _ _). simpl.
  assert (Es : co_isSealed n2 = (Ret false, with_seal false false n2)).
  { apply co_isSealed_healthy; [done|]. unfold seal_view, contents. simpl.
    rewrite Hc2, om_find_set_eq. apply to_bool_FALSE. }
  unfold isSealed. split_and!; [done|done|by rewrite Es|].
  unfold append, append_body.
  rewrite (bind_Ret _ _ _ _ _ (on_log_Ret _ _ [] _ _ Es)).
  rewrite (bind_Ret _ _ _ (with_seal false false n2) (with_seal false false n2, [])) by done.
  cbn [negb andb].
  destruct (healthy_putIfNotExists (logKey (versionId_ n) k) x (with_seal false false n2) Hh2)
    as (k3 & E3 & Hh3 & Hc3).
  assert (Hf : om_find (logKey (versionId_ n) k) (contents n2) = None).
  { unfold contents. simpl. rewrite Hc2, Hc1, !om_find_set_ne by eauto with repl. done. }
  erewrite bind_Ret by (apply on_log_Ret; exact E3).
  rewrite bool_decide_true by exact Hf. cbn [negb].
  erewrite bind_Ret by done. erewrite bind_Ret by (apply on_log_Ret; done).
  destruct (_ >? _); [|done].
  match goal with |- context [(on_log (co_setEndIndex ?e) ≫= _) (?m, _)] =>
    destruct (co_setEndIndex_healthy e m Hh3) as (k4 & E4 & _ & _) end.
  erewrite bind_Ret by (apply on_log_Ret; exact E4).
  unfold on_queue. by destruct (completeAllBelow _ _).
Qed.

Lemma string_app_le p a b : String.le (p +:+ a) (p +:+ b) ↔ String.le a b.
Proof.
  induction p as [|c p IH]; [done|].
  change (String.le (String c (p +:+ a)) (String c (p +:+ b)) ↔ String.le a b).
  rewrite string_le_cons, IH.
  rewrite Ascii_compare_refl. naive_solver.
Qed.

Lemma logKey_le v j k : key_le (logKey v j) (logKey v k) ↔ String.le (pretty j) (pretty k).
Proof. unfold logKey. simpl key_le. by rewrite !string_app_le. Qed.

(** [trim] deletes by the byte order of the decimal numerals: an entry
    goes iff its numeral is at least ["0"] and below the numeral of the given
    position; the others stay, smaller positions among them. *)
Theorem trim_deletes_numeral_range (n : RocksNanoLog P K) k :
  healthy n →
  let '(o, n') := trim k n in
  o = Ret k ∧ ∀ j, om_find (logKey (versionId_ n) j) (contents n') =
    if decide (String.le "0" (pretty j) ∧ key_lt (pretty j : string) (pretty k)) then None
    else om_find (logKey (versionId_ n) j) (contents n).
Proof.
  intros Hh. unfold trim. rewrite (bind_Ret _ _ _ n n) by done.
  unfold on_store, zoom, mbind, M_bind.
  destruct (kv_healthy_deleteRange (logKey (versionId_ n) 0) (logKey (versionId_ n) k) _ Hh)
    as [Ho _].
  destruct (kv_deleteRange _ _ (kvStore_ n)) as [o k'] eqn:E. simpl in Ho. subst o.
  apply kv_deleteRange_spec in E. simpl. split; [done|]. intros j. unfold contents. simpl.
  rewrite E. simpl. unfold om_delete_range, in_key_range.
  assert (Heq : (key_le (logKey (versionId_ n) 0) (logKey (versionId_ n) j) ∧
                 key_lt (logKey (versionId_ n) j) (logKey (versionId_ n) k)) ↔
                (String.le "0" (pretty j) ∧ key_lt (pretty j : string) (pretty k))).
  { unfold key_lt, strict. by rewrite !logKey_le. }
  apply option_eq. intros x.
  rewrite om_find_elem by (apply om_sorted_filter, kv_sorted).
  rewrite list_elem_of_filter. simpl. rewrite Heq.
  rewrite <- om_find_elem by apply kv_sorted. case_decide; naive_solver.
Qed.
End refinement.
Arguments seg_op : clear implicits.
Arguments seg_answer : clear implicits.
Arguments RefLog : clear implicits.

(** ** A conversion for the witnesses: decimal numerals *)

#[export] Instance decimal_conv : FollyConv := {|
  to_bool := λ s, if decide (s = "TRUE") then Some true
                  else if decide (s = "FALSE") then Some false else None;
  to_LogId := parse_decimal |}.
#[export] Instance decimal_conv_laws : FollyConvLaws.
Proof. split; [done|done|]. intros z _. apply parse_pretty. Qed.

(** ** Witnesses *)

Definition sample_ops : list (seg_op nat) :=
  [SegAppend 0%nat None 2 "b" false; SegSeal; SegAppend 1%nat (Some 0) 1 "a" false;
   SegAppend 2%nat (Some 0) 1 "a" true; SegCommitIndex; SegAppend 3%nat (Some 0) 1 "a" true;
   SegSeal; SegRead 2].

Definition sample_start : RocksNanoLog nat (RocksKVStoreLite MemDB) :=
  (init (makeRocksNanoLog (P := nat) "id" "log" "7" 1 i64_max false empty_store)).2.

(** The append with commit index 0 sets the end index to 1, although positions
    1 and 2 have been acknowledged. *)
Lemma rocks_refines_inmemory_witness :
  run_all run_seg sample_ops sample_start =
    [SegAppended (Pending 0%nat) []; SegIndex (Ret i64_max);
     SegAppended (Ready (Throw (NanoLogSealedException "7"))) [];
     SegAppended (Pending 2%nat) [(2%nat, 1); (0%nat, 2)]; SegIndex (Ret 1);
     SegAppended (Ready (Throw NanoLogLogPositionAlreadyOccupied)) [];
     SegIndex (Ret 1); SegEntry (Ret (inl (mkLogEntry 2 "b")))].
Proof.
  unfold sample_start.
  rewrite (rocks_refines_inmemory "id" "log" "7" 1 i64_max empty_store sample_ops)
    by reflexivity.
  vm_compute. reflexivity.
Defined.

Definition sample_rocks : RocksNanoLog nat (RocksKVStoreLite MemDB) :=
  (run_ops [OpAppend 0%nat None 1 "a"; OpAppend 0%nat None 2 "b"; OpAppend 0%nat None 10 "j"]
    (init (makeRocksNanoLog "id" "log" "7" 1 i64_max false empty_store)).2).2.

Lemma reopening_loses_seal_witness :
  (append 0%nat None 3 "c" false
    (init (makeRocksNanoLog (P := nat) "id2" "log" "7" 1 i64_max false
      (kvStore_ (seal sample_rocks).2))).2).1.1 = Pending 0%nat.
Proof.
  apply (reopening_loses_seal sample_rocks "id2" "log" 1 i64_max 0%nat 3 "c"); reflexivity.
Defined.

(** Trimming at 2 deletes entry 10 and keeps entry 2. *)
Lemma trim_deletes_numeral_range_witness :
  om_find (logKey "7" 10) (contents (trim 2 sample_rocks).2) = None ∧
  om_find (logKey "7" 2) (contents (trim 2 sample_rocks).2) = Some "b"%string.
Proof.
  pose proof (trim_deletes_numeral_range sample_rocks 2 eq_refl) as Ht.
  destruct (trim 2 sample_rocks) as [o n'] eqn:E. destruct Ht as [_ Ht].
  change (versionId_ sample_rocks) with "7"%string in Ht. simpl.
  rewrite !Ht. split; vm_compute; reflexivity.
Defined.
