(* ===== verification/Replica.v ===== *)
(** * Replicas

    [src/log/impl/ReplicaImpl.cc], [NanoLogStoreImpl.cc], [NanoLogFactory.h]
    and [src/persistence/RocksDbFactory.h]: a replica keeps one nanolog per
    metadata version and creates it on the first append or seal of the
    version, from the config in the metadata store.

    The replica's mutex makes the lookup-or-create of one call a single step.
    An append calls the nanolog after releasing the mutex; [append_lookup_early]
    shows that this is as good as one step ([NanoLog.seal_misses_checked_append]
    has the race inside the nanolog, which the single step of a nanolog's append
    leaves out);
    the outside a replica talks to (metadata store, factory, file system) is
    the state [E], reached through the classes below. *)

From stdpp Require Import base gmap sets list strings sorting pretty.
From Stdlib Require Import ZArith Lia.
From S2P Require Import Prelude LogTypes CompletionQueue Metadata NanoLog KVStore RocksNanoLog.

Open Scope Z_scope.

(** [class MetadataStore] *)
Class MetadataStoreOps (E : Type) := {
  ms_getConfig : Z → M E (option MetadataConfig);
  ms_getConfigUsingLogId : Z → M E (option MetadataConfig);
  ms_getCurrentVersionId : M E Z;
  ms_compareAndAppendRange : MetadataConfig → M E () }.

#[export] Instance InMemory_MetadataStoreOps : MetadataStoreOps Metadata.State := {|
  ms_getConfig := λ v, gets (Metadata.getConfig v);
  ms_getConfigUsingLogId := λ l, gets (Metadata.getConfigUsingLogId l);
  ms_getCurrentVersionId := gets Metadata.getCurrentVersionId;
  ms_compareAndAppendRange := Metadata.compareAndAppendRange |}.

Inductive NanoLogType := InMemory | Rocks.

(** [NanoLogFactory::makeNanoLog] and [UuidGenerator::generate]. *)
Class NanoLogFactoryOps (E N : Type) := {
  makeNanoLog : NanoLogType → string → string → string → Z → Z → bool → M E N;
  generate : M E string }.

(** ** NanoLogStoreImpl *)

Section store.
Context {N : Type}.

Definition getNanoLog (versionId : Z) (store_ : gmap Z N) : option N := store_ !! versionId.
(** [emplace]: an existing entry stays. *)
Definition store_add (versionId : Z) (nanoLog : N) (store_ : gmap Z N) : gmap Z N :=
  match store_ !! versionId with
  | Some _ => store_
  | None => <[versionId := nanoLog]> store_
  end.
End store.

(** ** ReplicaImpl *)

Section replica.
Context {P N E : Type} `{NanoLogOps P N} `{MetadataStoreOps E} `{NanoLogFactoryOps E N}.

Record ReplicaImpl := mkReplicaImpl {
  id_ : string;
  name_ : string;
  nanoLogStore_ : gmap Z N;
  nanoLogType_ : NanoLogType }.

Definition with_store (st : gmap Z N) (r : ReplicaImpl) : ReplicaImpl :=
  mkReplicaImpl (id_ r) (name_ r) st (nanoLogType_ r).

Definition on_env {A} (m : M E A) : M (ReplicaImpl * E) A := zoom snd (λ e s, (s.1, e)) m.
Definition store : M (ReplicaImpl * E) (gmap Z N) := gets (λ s, nanoLogStore_ s.1).
Definition set_store (st : gmap Z N) : M (ReplicaImpl * E) () :=
  modify (λ s, (with_store st s.1, s.2)).
(** A call on the shared nanolog of a version. *)
Definition on_nanolog {A} (versionId : Z) (n : N) (m : M N A) : M (ReplicaImpl * E) A := λ s,
  let '(o, n') := m n in
  (o, (with_store (<[versionId := n']> (nanoLogStore_ s.1)) s.1, s.2)).

(** Creates the nanolog of a version: the body of [append] and [seal]. *)
Definition create (versionId : Z) (config : MetadataConfig) : M (ReplicaImpl * E) N :=
  s ← get;
  uuid ← on_env generate;
  nanoLog ← on_env (makeNanoLog (nanoLogType_ s.1) uuid "VectorBasedNanoLog"
                      (pretty versionId) (start_index config) i64_max false);
  st ← store;
  _ ← set_store (store_add versionId nanoLog st);
  mret nanoLog.

Definition config_or_throw (versionId : Z) : M (ReplicaImpl * E) MetadataConfig :=
  config ← on_env (ms_getConfig versionId);
  match config with
  | Some c => mret c
  | None => throw MetadataBlockNotFound
  end.

(** The part of [append] under the replica's mutex. *)
Definition lookup_or_create (versionId : Z) : M (ReplicaImpl * E) N :=
  st ← store;
  match getNanoLog versionId st with
  | Some n => mret n
  | None => config ← config_or_throw versionId; create versionId config
  end.

Definition append (p : P) (globalCommitIndex : option Z) (versionId logId : Z)
    (logEntryPayload : string) (skipSeal : bool) (s : ReplicaImpl * E)
    : (future P * list (P * Z)) * (ReplicaImpl * E) :=
  match lookup_or_create versionId s with
  | (Ret n, s1) =>
      let '(r, n') := nl_append p globalCommitIndex logId logEntryPayload skipSeal n in
      (r, (with_store (<[versionId := n']> (nanoLogStore_ s1.1)) s1.1, s1.2))
  | (Throw e, s1) => ((Ready (Throw e), []), s1)
  | (Block, s1) => ((Ready Block, []), s1)
  end.

Definition getLogEntry (versionId logId : Z) : M (ReplicaImpl * E) (LogEntry + LogReadError) :=
  st ← store;
  match getNanoLog versionId st with
  | None => mret (inr NotFound)
  | Some n => on_nanolog versionId n (nl_getLogEntry logId)
  end.

(** The pointer is used without a check. *)
Definition getCommitIndex (versionId : Z) : M (ReplicaImpl * E) Z :=
  st ← store;
  match getNanoLog versionId st with
  | None => throw NullPointer
  | Some n => on_nanolog versionId n nl_getLocalCommitIndex
  end.

Definition seal (versionId : Z) : M (ReplicaImpl * E) Z :=
  st ← store;
  let nanoLog := getNanoLog versionId st in
  config ← config_or_throw versionId;
  nanoLog' ←
    match nanoLog with
    | Some n => mret (Some n)
    | None => _ ← create versionId config; st' ← store; mret (getNanoLog versionId st')
    end;
  match nanoLog' with
  | Some n => on_nanolog versionId n nl_seal
  | None => throw NanoLogLogNotAvailable
  end.

Definition trim (versionId logId : Z) : M (ReplicaImpl * E) Z :=
  st ← store;
  match getNanoLog versionId st with
  | Some n => on_nanolog versionId n (nl_trim logId)
  | None => throw (RuntimeError "nanolog not present")
  end.
End replica.
Arguments ReplicaImpl : clear implicits.

(** ** NanoLogFactory *)

(** [UuidGenerator]: a random string each time. *)
Class Uuid (F : Type) := uuid_generate : F → string * F.

Section factory.
Context {P F D MD : Type} `{RocksDB D} `{RocksFiles F D} `{Uuid F} `{MetadataStoreOps MD}
  `{FollyConv}.

(** The nanologs a replica can hold. *)
Inductive AnyNanoLog :=
  | AnInMemory (n : InMemoryNanoLog P)
  | ARocks (n : RocksNanoLog P (Rocks.RocksKVStoreLite D)).

Definition on_any {A} (f : ∀ N, NanoLogOps P N → M N A) : M AnyNanoLog A := λ a,
  match a with
  | AnInMemory n => let '(o, n') := f _ InMemory_NanoLogOps n in (o, AnInMemory n')
  | ARocks n => let '(o, n') := f _ RocksNanoLog_NanoLogOps n in (o, ARocks n')
  end.

#[global] Instance AnyNanoLog_NanoLogOps : NanoLogOps P AnyNanoLog := {|
  nl_getMetadataVersionId a := match a with
    | AnInMemory n => metadataVersionId_ n
    | ARocks n => versionId_ n
    end;
  nl_append p g k x b a := match a with
    | AnInMemory n => let '(r, n') := nl_append p g k x b n in (r, AnInMemory n')
    | ARocks n => let '(r, n') := nl_append p g k x b n in (r, ARocks n')
    end;
  nl_getLogEntry k := on_any (λ N _, nl_getLogEntry k);
  nl_seal := on_any (λ N _, nl_seal);
  nl_getLocalCommitIndex := on_any (λ N _, nl_getLocalCommitIndex);
  nl_trim k := on_any (λ N _, nl_trim k);
  nl_getStartIndex a := match a with
    | AnInMemory n => NanoLog.startIndex_ n
    | ARocks n => startIndex_ n
    end;
  nl_getEndIndex := on_any (λ N _, nl_getEndIndex);
  nl_isSealed := on_any (λ N _, nl_isSealed) |}.

(** [NanoLogFactory::makeNanoLog] for the factory's RocksDB config. *)
Definition factory_makeNanoLog (rocksConfig_ : RocksDbConfig) (nanoLogType : NanoLogType)
    (id name metadataVersionId : string) (startIndex endIndex : Z) (sealed : bool)
    : M F AnyNanoLog :=
  match nanoLogType with
  | InMemory =>
      mret (AnInMemory (makeInMemoryNanoLog id name metadataVersionId startIndex endIndex sealed))
  | Rocks =>
      rocks ← provideSharedPtr rocksConfig_;
      let n := makeRocksNanoLog id name metadataVersionId startIndex endIndex sealed
                 {| Rocks.rocks_ := rocks |} in
      of_outcome (match init n with
                  | (Ret _, n') => Ret (ARocks n')
                  | (Throw e, _) => Throw e
                  | (Block, _) => Block
                  end)
  end.

(** What a replica of a process talks to: its metadata store and its files. *)
#[global] Instance env_MetadataStoreOps : MetadataStoreOps (MD * F) := {|
  ms_getConfig v := zoom fst (λ m e, (m, e.2)) (ms_getConfig v);
  ms_getConfigUsingLogId l := zoom fst (λ m e, (m, e.2)) (ms_getConfigUsingLogId l);
  ms_getCurrentVersionId := zoom fst (λ m e, (m, e.2)) ms_getCurrentVersionId;
  ms_compareAndAppendRange c := zoom fst (λ m e, (m, e.2)) (ms_compareAndAppendRange c) |}.

Definition factory_ops (rocksConfig_ : RocksDbConfig) : NanoLogFactoryOps (MD * F) AnyNanoLog := {|
  makeNanoLog t id name version start end_ sealed :=
    zoom snd (λ f e, (e.1, f))
      (factory_makeNanoLog rocksConfig_ t id name version start end_ sealed);
  generate := zoom snd (λ f e, (e.1, f))
    (λ f, let '(u, f') := uuid_generate f in (Ret u, f')) |}.
End factory.
Arguments AnyNanoLog : clear implicits.

#[export, program] Instance AnyNanoLog_fencing {P D} `{RocksDB D} `{FollyConv} :
    NanoLogFencing P (AnyNanoLog P D) := {|
  fenced a := match a with AnInMemory n => fenced n | ARocks n => fenced n end |}.
Next Obligation.
  intros P D ?? [n|n] e n'; simpl.
  - by intros; simplify_eq.
  - destruct (RocksNanoLog.seal n) as [o n1] eqn:E. intros; simplify_eq.
    match goal with E : _ = (Ret e, n1), Hne : e ≠ -1 |- _ =>
      exact (fenced_seal n e n1 E Hne) end.
Qed.
Next Obligation.
  intros P D ?? [n|n] p g k x Hf; simpl in *.
  - pose proof (fenced_refuses n p g k x Hf) as E. simpl in E. by rewrite E.
  - pose proof (fenced_refuses n p g k x Hf) as E. simpl in E. by rewrite E.
Qed.
Next Obligation.
  intros P D ?? [n|n] p g k x b Hf; simpl in *.
  - pose proof (fenced_append n p g k x b Hf) as E. simpl in E.
    by destruct (NanoLog.append _ _ _ _ _ _).
  - pose proof (fenced_append n p g k x b Hf) as E. simpl in E.
    by destruct (RocksNanoLog.append _ _ _ _ _ _).
Qed.
Next Obligation.
  intros P D ?? [n|n] k Hf; simpl in *.
  - pose proof (fenced_getLogEntry n k Hf) as E. simpl in E.
    by destruct (NanoLog.getLogEntry _ _).
  - pose proof (fenced_getLogEntry n k Hf) as E. simpl in E.
    by destruct (RocksNanoLog.getLogEntry _ _).
Qed.
Next Obligation.
  intros P D ?? [n|n] Hf; simpl in *; [done|].
  pose proof (fenced_commitIndex n Hf) as E. simpl in E.
  by destruct (RocksNanoLog.getLocalCommitIndex _).
Qed.
Next Obligation.
  intros P D ?? [n|n] k Hf; simpl in *; [done|].
  pose proof (fenced_trim n k Hf) as E. simpl in E. by destruct (RocksNanoLog.trim _ _).
Qed.

(** ** Sequences of calls on a replica *)

Section calls.
Context {P N E : Type} `{NanoLogOps P N} `{MetadataStoreOps E} `{NanoLogFactoryOps E N}.
Implicit Types s : ReplicaImpl N * E.

Inductive replica_call :=
  | CallAppend (p : P) (g : option Z) (versionId logId : Z) (payload : string) (skipSeal : bool)
  | CallGetLogEntry (versionId logId : Z)
  | CallGetCommitIndex (versionId : Z)
  | CallSeal (versionId : Z)
  | CallTrim (versionId logId : Z).

Inductive replica_answer :=
  | RepAppend (f : future P) (done : list (P * Z))
  | RepEntry (o : outcome (LogEntry + LogReadError))
  | RepIndex (o : outcome Z).

Definition run_call (c : replica_call) s : replica_answer * (ReplicaImpl N * E) :=
  match c with
  | CallAppend p g v k x b => let '((f, done), s') := append p g v k x b s in (RepAppend f done, s')
  | CallGetLogEntry v k => let '(o, s') := getLogEntry v k s in (RepEntry o, s')
  | CallGetCommitIndex v => let '(o, s') := getCommitIndex v s in (RepIndex o, s')
  | CallSeal v => let '(o, s') := seal v s in (RepIndex o, s')
  | CallTrim v k => let '(o, s') := trim v k s in (RepIndex o, s')
  end.

Definition call_version (c : replica_call) : Z :=
  match c with
  | CallAppend _ _ v _ _ _ | CallGetLogEntry v _ | CallGetCommitIndex v
  | CallSeal v | CallTrim v _ => v
  end.

Fixpoint run_calls (cs : list replica_call) s : list replica_answer * (ReplicaImpl N * E) :=
  match cs with
  | [] => ([], s)
  | c :: cs' =>
      let '(a, s1) := run_call c s in
      let '(al, s2) := run_calls cs' s1 in (a :: al, s2)
  end.

Definition nanolog_of (v : Z) s : option N := nanoLogStore_ s.1 !! v.

(** Computations that touch the segment of version [v] only. *)
Definition only {A} (v : Z) (m : M (ReplicaImpl N * E) A) : Prop :=
  ∀ v' s, v ≠ v' → nanolog_of v' (m s).2 = nanolog_of v' s.

Lemma only_bind {A B} v (m : M (ReplicaImpl N * E) A) (f : A → M (ReplicaImpl N * E) B) :
  only v m → (∀ a, only v (f a)) → only v (a ← m; f a).
Proof.
  intros Hm Hf v' s Hne. unfold mbind, M_bind. specialize (Hm v' s Hne).
  destruct (m s) as [[a| |] s']; simpl in *; [|done..]. by rewrite Hf.
Qed.
Lemma only_on_env {A} v (m : M E A) : only v (on_env m).
Proof. intros v' s _. unfold on_env, zoom. by destruct (m s.2). Qed.
Lemma only_store v : only v store. Proof. by intros v' s _. Qed.
Lemma only_mret {A} v (a : A) : only v (mret a). Proof. by intros v' s _. Qed.
Lemma only_throw {A} v e : only v (throw (A := A) e). Proof. by intros v' s _. Qed.
Lemma only_on_nanolog {A} v n (m : M N A) : only v (on_nanolog v n m).
Proof.
  intros v' s Hne. unfold on_nanolog, nanolog_of. destruct (m n). simpl.
  by rewrite lookup_insert_ne.
Qed.
Lemma only_config v : only v (config_or_throw v).
Proof.
  apply only_bind; [apply only_on_env|]. intros []; [apply only_mret|apply only_throw].
Qed.
Lemma only_create v c : only v (create v c).
Proof.
  unfold create. apply only_bind; [done|]. intros s0.
  apply only_bind; [apply only_on_env|]. intros u.
  apply only_bind; [apply only_on_env|]. intros n v' s Hne. mred. unfold store, gets.
  unfold set_store, modify, nanolog_of, store_add. simpl.
  destruct (nanoLogStore_ s.1 !! v); simpl; [done|]. by rewrite lookup_insert_ne.
Qed.

Lemma only_lookup v : only v (lookup_or_create v).
Proof.
  apply only_bind; [apply only_store|]. intros st. destruct (getNanoLog v st).
  - apply only_mret.
  - apply only_bind; [apply only_config|]. apply only_create.
Qed.

Lemma only_getLogEntry v k : only v (getLogEntry v k).
Proof.
  apply only_bind; [apply only_store|]. intros st. destruct (getNanoLog v st).
  - apply only_on_nanolog.
  - apply only_mret.
Qed.
Lemma only_getCommitIndex v : only v (getCommitIndex v).
Proof.
  apply only_bind; [apply only_store|]. intros st. destruct (getNanoLog v st).
  - apply only_on_nanolog.
  - apply only_throw.
Qed.
Lemma only_trim v k : only v (trim v k).
Proof.
  apply only_bind; [apply only_store|]. intros st. destruct (getNanoLog v st).
  - apply only_on_nanolog.
  - apply only_throw.
Qed.
Lemma only_seal v : only v (seal v).
Proof.
  apply only_bind; [apply only_store|]. intros st.
  apply only_bind; [apply only_config|]. intros c. apply only_bind.
  - destruct (getNanoLog v st); [apply only_mret|].
    apply only_bind; [apply only_create|]. intros _.
    apply only_bind; [apply only_store|]. intros st'. apply only_mret.
  - intros [n|]; [apply only_on_nanolog|apply only_throw].
Qed.

Lemma append_other p g v k x b s v' :
  v ≠ v' → nanolog_of v' (append p g v k x b s).2 = nanolog_of v' s.
Proof.
  intros Hne. pose proof (only_lookup v v' s Hne) as Ho. unfold append.
  match goal with |- context [match ?m s with _ => _ end] =>
    destruct (m s) as [[n|e|] s1] end; simpl in *; [|done..].
  destruct (nl_append _ _ _ _ _ n) as [[f d] n']. rewrite <- Ho.
  unfold nanolog_of. simpl. by rewrite lookup_insert_ne.
Qed.

(** The segments of a replica are independent: a call for one metadata
    version, whether it succeeds or throws, leaves the nanolog of every other
    version as it was. *)
Theorem versions_are_independent c v' s :
  call_version c ≠ v' → nanolog_of v' (run_call c s).2 = nanolog_of v' s.
Proof.
  destruct c as [p g v k x b|v k|v|v|v k]; simpl; intros Hne.
  - rewrite <- (append_other p g v k x b s v' Hne). by destruct (append _ _ _ _ _ _ _) as [[??]?].
  - rewrite <- (only_getLogEntry v k v' s Hne). by destruct (getLogEntry v k s).
  - rewrite <- (only_getCommitIndex v v' s Hne). by destruct (getCommitIndex v s).
  - rewrite <- (only_seal v v' s Hne). by destruct (seal v s).
  - rewrite <- (only_trim v k v' s Hne). by destruct (trim v k s).
Qed.
End calls.
Arguments replica_call : clear implicits.
Arguments replica_answer : clear implicits.

(** ** The lookup of an append and its call of the nanolog are apart

    [append] releases the mutex between the two. *)
Section late_append.
Context {P N E : Type} `{NanoLogOps P N} `{MetadataStoreOps E} `{NanoLogFactoryOps E N}.
Implicit Types s : ReplicaImpl N * E.

(** The second half: the call of the shared nanolog of the version. *)
Definition append_found (p : P) (g : option Z) (v k : Z) (x : string) (b : bool) s
    : (future P * list (P * Z)) * (ReplicaImpl N * E) :=
  match nanolog_of v s with
  | Some n =>
      let '(r, n') := nl_append p g k x b n in
      (r, (with_store (<[v := n']> (nanoLogStore_ s.1)) s.1, s.2))
  | None => ((Ready Block, []), s)
  end.

Definition opened (v : Z) s : Prop := is_Some (nanolog_of v s).

Lemma opened_on_nanolog {A} v n (m : M N A) s : opened v (on_nanolog v n m s).2.
Proof.
  unfold opened, nanolog_of, on_nanolog. destruct (m n). simpl. rewrite lookup_insert_eq. eauto.
Qed.

Lemma opened_create v c s n s' : create v c s = (Ret n, s') → opened v s'.
Proof.
  unfold create. intros E0. apply bind_inv_Ret in E0 as (s0 & s1 & _ & E0).
  apply bind_inv_Ret in E0 as (u & s2 & _ & E0). apply bind_inv_Ret in E0 as (n0 & s3 & _ & E0).
  apply bind_inv_Ret in E0 as (st & s4 & Est & E0). unfold store, gets in Est. simplify_eq.
  apply bind_inv_Ret in E0 as ([] & s5 & E5 & E0). unfold set_store, modify, mret, M_ret in *.
  simplify_eq. unfold opened, nanolog_of, store_add. simpl.
  destruct (nanoLogStore_ s4.1 !! v) eqn:Es; simpl; [eauto|]. rewrite lookup_insert_eq. eauto.
Qed.

Lemma opened_lookup v s n s' : lookup_or_create v s = (Ret n, s') → opened v s'.
Proof.
  unfold lookup_or_create, store, getNanoLog. intros E0. mred.
  destruct (nanoLogStore_ s.1 !! v) eqn:Es.
  - unfold mret, M_ret in E0. simplify_eq. unfold opened, nanolog_of. rewrite Es. eauto.
  - apply bind_inv_Ret in E0 as (c & s1 & _ & E0). by eapply opened_create.
Qed.

(** Computations that remove no segment. *)
Definition keeps_opened {A} (m : M (ReplicaImpl N * E) A) : Prop :=
  ∀ v s, opened v s → opened v (m s).2.

Lemma keeps_opened_bind {A B} (m : M (ReplicaImpl N * E) A) (f : A → M (ReplicaImpl N * E) B) :
  keeps_opened m → (∀ a, keeps_opened (f a)) → keeps_opened (a ← m; f a).
Proof.
  intros Hm Hf v s Hs. unfold mbind, M_bind. specialize (Hm v s Hs).
  destruct (m s) as [[a| |] s']; simpl in *; [|done..]. by apply Hf.
Qed.
Lemma keeps_opened_same {A} (m : M (ReplicaImpl N * E) A) :
  (∀ s, (m s).2.1 = s.1) → keeps_opened m.
Proof. intros Hm v s. unfold opened, nanolog_of. by rewrite Hm. Qed.
Lemma keeps_opened_on_env {A} (m : M E A) : keeps_opened (on_env m).
Proof. apply keeps_opened_same. intros s. unfold on_env, zoom. by destruct (m s.2). Qed.
Lemma keeps_opened_on_nanolog {A} v n (m : M N A) : keeps_opened (on_nanolog v n m).
Proof.
  intros v' s Hs. destruct (decide (v = v')) as [<-|Hne]; [apply opened_on_nanolog|].
  unfold opened. by rewrite (only_on_nanolog v n m v' s Hne).
Qed.
Lemma keeps_opened_config v : keeps_opened (config_or_throw v).
Proof.
  apply keeps_opened_bind; [apply keeps_opened_on_env|].
  intros []; by apply keeps_opened_same.
Qed.
Lemma keeps_opened_create v c : keeps_opened (create v c).
Proof.
  apply keeps_opened_bind; [by apply keeps_opened_same|]. intros s0.
  apply keeps_opened_bind; [apply keeps_opened_on_env|]. intros u.
  apply keeps_opened_bind; [apply keeps_opened_on_env|]. intros n v' s [n' Hs].
  unfold opened, nanolog_of, store, set_store, store_add in *. mred.
  unfold gets, modify. simpl.
  destruct (nanoLogStore_ s.1 !! v) eqn:Ev; simpl; [eauto|].
  rewrite lookup_insert_ne by congruence. eauto.
Qed.

Lemma keeps_opened_lookup v : keeps_opened (lookup_or_create v).
Proof.
  apply keeps_opened_bind; [by apply keeps_opened_same|]. intros st.
  destruct (getNanoLog v st); [by apply keeps_opened_same|].
  apply keeps_opened_bind; [apply keeps_opened_config|]. apply keeps_opened_create.
Qed.

(** No call removes a segment. *)
Lemma opened_call v c s : opened v s → opened v (run_call c s).2.
Proof.
  assert (Hfound : ∀ {A} v' (m : N → M N A) (d : M (ReplicaImpl N * E) A),
    (∀ s, (d s).2 = s) →
    keeps_opened (st ← store; match getNanoLog v' st with Some n => on_nanolog v' n (m n) | None => d end)).
  { intros A v' m d Hd. apply keeps_opened_bind; [by apply keeps_opened_same|]. intros st.
    destruct (getNanoLog v' st); [apply keeps_opened_on_nanolog|].
    apply keeps_opened_same. intros s'. by rewrite Hd. }
  intros Hs. destruct c as [p g v' k x b|v' k|v'|v'|v' k]; simpl.
  - unfold append. pose proof (keeps_opened_lookup v' v s Hs) as Hl.
    destruct (lookup_or_create v' s) as [[n| |] s1]; simpl in *; [|done..].
    destruct (nl_append p g k x b n) as [[f d] n']. unfold opened, nanolog_of in *. simpl.
    destruct (decide (v' = v)) as [<-|]; [rewrite lookup_insert_eq; eauto|].
    by rewrite lookup_insert_ne.
  - pose proof (Hfound _ v' (λ _, nl_getLogEntry k) (mret (inr NotFound)) (λ _, eq_refl) v s Hs) as Hr.
    change (opened v (getLogEntry v' k s).2) in Hr. by destruct (getLogEntry v' k s).
  - pose proof (Hfound _ v' (λ _, nl_getLocalCommitIndex) (throw NullPointer) (λ _, eq_refl) v s Hs) as Hr.
    change (opened v (getCommitIndex v' s).2) in Hr. by destruct (getCommitIndex v' s).
  - assert (Hk : keeps_opened (seal v')).
    { apply keeps_opened_bind; [by apply keeps_opened_same|]. intros st.
      apply keeps_opened_bind; [apply keeps_opened_config|]. intros c.
      apply keeps_opened_bind.
      - destruct (getNanoLog v' st); [by apply keeps_opened_same|].
        apply keeps_opened_bind; [apply keeps_opened_create|]. intros _.
        apply keeps_opened_bind; [by apply keeps_opened_same|]. intros st'.
        by apply keeps_opened_same.
      - intros [n|]; [apply keeps_opened_on_nanolog|by apply keeps_opened_same]. }
    specialize (Hk v s Hs). by destruct (seal v' s).
  - pose proof (Hfound _ v' (λ _, nl_trim k) (throw (RuntimeError "nanolog not present"))
      (λ _, eq_refl) v s Hs) as Hr.
    change (opened v (trim v' k s).2) in Hr. by destruct (trim v' k s).
Qed.

(** Whatever calls the replica serves between the two halves of an append, its
    second half does what a whole append would do at that moment: taking an
    append at a replica for one step loses no behaviour, the nanolog's own
    aside. *)
Theorem append_lookup_early p g v k x b s n s1 cs :
  lookup_or_create v s = (Ret n, s1) →
  append_found p g v k x b (run_calls (P := P) cs s1).2 =
  append p g v k x b (run_calls (P := P) cs s1).2.
Proof.
  intros E0%opened_lookup.
  assert (Ho : opened v (run_calls (P := P) cs s1).2).
  { revert s1 E0. induction cs as [|c cs IH]; intros s1 Hs; simpl; [done|].
    pose proof (opened_call v c s1 Hs) as Hs'. destruct (run_call c s1) as [a s2]. simpl in *.
    specialize (IH s2 Hs'). by destruct (run_calls cs s2). }
  destruct Ho as [n' Hn']. unfold append_found, append, lookup_or_create, store, getNanoLog. mred.
  rewrite Hn'. unfold nanolog_of in Hn'. by rewrite Hn'.
Qed.
End late_append.

(** ** Sealed versions *)

Section sealed.
Context {P N E : Type} `{NanoLogFencing P N} `{MetadataStoreOps E} `{NanoLogFactoryOps E N}.
Implicit Types s : ReplicaImpl N * E.

Definition sealed_version (v : Z) s : Prop := ∃ n, nanolog_of v s = Some n ∧ fenced n.

(** A seal call that answers with an index. *)
Definition seal_answered (v : Z) (c : replica_call P) (a : replica_answer P) : Prop :=
  match c, a with
  | CallSeal v', RepIndex o => v' = v → ∃ e, o = Ret e ∧ e ≠ -1
  | _, _ => True
  end.

Lemma on_nanolog_fenced {A} v n (m : M N A) s :
  fenced (m n).2 → sealed_version v (on_nanolog v n m s).2.
Proof.
  intros Hf. unfold on_nanolog. destruct (m n) as [o n'] eqn:Em. exists n'.
  unfold nanolog_of. simpl in *. by rewrite lookup_insert_eq.
Qed.

Lemma seal_inv_Ret v s e s' :
  seal v s = (Ret e, s') → ∃ n n', nl_seal n = (Ret e, n') ∧ nanolog_of v s' = Some n'.
Proof.
  unfold seal. intros Es. apply bind_inv_Ret in Es as (st & s1 & _ & Es).
  apply bind_inv_Ret in Es as (c & s2 & _ & Es).
  apply bind_inv_Ret in Es as ([n|] & s3 & _ & Es); [|done].
  unfold on_nanolog in Es. destruct (nl_seal n) as [o n'] eqn:En. simplify_eq.
  exists n, n'. split; [done|]. unfold nanolog_of. simpl. by rewrite lookup_insert_eq.
Qed.

Lemma run_call_sealed v c s :
  sealed_version v s → seal_answered v c (run_call c s).1 →
  sealed_version v (run_call c s).2.
Proof.
  intros (n & Hn & Hf) Ha. destruct (decide (call_version c = v)) as [<-|Hne].
  2: { exists n. split; [|done]. rewrite <- Hn. destruct c; simpl in *.
       - rewrite <- (append_other p g versionId logId payload skipSeal s v Hne).
         by destruct (append _ _ _ _ _ _ _) as [[??]?].
       - rewrite <- (only_getLogEntry versionId logId v s Hne). by destruct (getLogEntry _ _ s).
       - rewrite <- (only_getCommitIndex versionId v s Hne). by destruct (getCommitIndex _ s).
       - rewrite <- (only_seal versionId v s Hne). by destruct (seal _ s).
       - rewrite <- (only_trim versionId logId v s Hne). by destruct (trim _ _ s). }
  destruct c as [p g v k x b|v k|v|v|v k]; simpl in *; unfold nanolog_of in Hn.
  - unfold append, lookup_or_create, store, getNanoLog. mred. rewrite Hn.
    pose proof (fenced_append n p g k x b Hf) as Hf'.
    destruct (nl_append _ _ _ _ _ n) as [[f d] n']. exists n'. unfold nanolog_of. simpl.
    by rewrite lookup_insert_eq.
  - unfold getLogEntry, store, getNanoLog. mred. rewrite Hn.
    pose proof (on_nanolog_fenced v n (nl_getLogEntry k) s (fenced_getLogEntry n k Hf)).
    by destruct (on_nanolog _ _ _ _).
  - unfold getCommitIndex, store, getNanoLog. mred. rewrite Hn.
    pose proof (on_nanolog_fenced v n nl_getLocalCommitIndex s (fenced_commitIndex n Hf)).
    by destruct (on_nanolog _ _ _ _).
  - destruct (seal v s) as [o s'] eqn:Es. simpl in *.
    destruct (Ha eq_refl) as (e & -> & He).
    apply seal_inv_Ret in Es as (n0 & n' & Es & Hn'). exists n'.
    split; [done|]. by eapply fenced_seal.
  - unfold trim, store, getNanoLog. mred. rewrite Hn.
    pose proof (on_nanolog_fenced v n (nl_trim k) s (fenced_trim n k Hf)).
    by destruct (on_nanolog _ _ _ _).
Qed.

Lemma run_calls_sealed v cs s :
  sealed_version v s →
  Forall2 (seal_answered v) cs (run_calls cs s).1 →
  sealed_version v (run_calls cs s).2.
Proof.
  revert s. induction cs as [|c cs IH]; intros s Hs Ha; simpl in *; [done|].
  pose proof (run_call_sealed v c s Hs) as Hs1.
  destruct (run_call c s) as [a s1]. specialize (IH s1).
  destruct (run_calls cs s1) as [al s2]. simpl in *.
  apply Forall2_cons in Ha as [Ha Hal]. auto.
Qed.

Lemma no_seals_answered v cs s :
  forallb (λ c, match c with CallSeal _ => false | _ => true end) cs = true →
  Forall2 (seal_answered v) cs (run_calls cs s).1.
Proof.
  revert s. induction cs as [|c cs IH]; intros s; simpl; [done|].
  intros [Hc Hcs]%andb_true_iff. destruct (run_call c s) as [a s1]. specialize (IH s1 Hcs).
  destruct (run_calls cs s1). simpl in *. constructor; [by destruct c|done].
Qed.

(** C16: sealing a version at a replica fences it: after a seal that answered
    with an index, and any calls since - appends of every kind, reads, trims,
    other versions, and further seals as long as those of this version answer
    with an index too - an ordinary append to the version is refused and
    completes nothing.  This covers a version that had no segment when the seal
    arrived.  Each call is one step of the replica: an append that had passed
    the nanolog's unlocked check of the seal before it is another matter, see
    [NanoLog.seal_misses_checked_append]. *)
Theorem replica_seal_fences v s e s1 cs p g k x :
  seal v s = (Ret e, s1) → e ≠ -1 →
  Forall2 (seal_answered v) cs (run_calls cs s1).1 →
  ∃ ver, (append p g v k x false (run_calls cs s1).2).1 =
         (Ready (Throw (NanoLogSealedException ver)), []).
Proof.
  intros Es He Ha.
  destruct (run_calls_sealed v cs s1) as (n & Hn & Hf); [|done|].
  { apply seal_inv_Ret in Es as (n0 & n' & Es & Hn'). exists n'.
    split; [done|]. by eapply fenced_seal. }
  exists (nl_getMetadataVersionId n). unfold append, lookup_or_create, store, getNanoLog, nanolog_of in *. mred.
  rewrite Hn. by rewrite (fenced_refuses n p g k x Hf).
Qed.
End sealed.

(** ** Witnesses: replicas with in-memory nanologs *)

#[export] Instance mem_files : RocksFiles () MemDB := {|
  DestroyDB _ f := (StatusOk, f);
  DB_Open _ f := ((StatusOk, Some empty_db), f) |}.
#[export] Instance unit_uuid : Uuid () := λ f, ("uuid"%string, f).

Definition sample_config : RocksDbConfig :=
  {| path := "/db"; createIfMissing := true; manualWALFlush := true; destroyIfExists := true |}.
#[export] Instance sample_factory :
    NanoLogFactoryOps (Metadata.State * ()) (AnyNanoLog nat MemDB) := factory_ops sample_config.

Definition sample_env : Metadata.State * () :=
  ((compareAndAppendRange
      (Build_MetadataConfig 1 0 1 i64_max 0 default_SequencerConfig []) Metadata.empty_store).2, ()).
Definition sample_replica (t : NanoLogType) : ReplicaImpl (AnyNanoLog nat MemDB) :=
  mkReplicaImpl "r" "replica" ∅ t.

Lemma versions_are_independent_witness :
  nanolog_of 2 (run_call (CallAppend 0%nat None 1 1 "a" false) (sample_replica InMemory, sample_env)).2
  = None.
Proof.
  apply (versions_are_independent (CallAppend 0%nat None 1 1 "a" false) 2
    (sample_replica InMemory, sample_env)). discriminate.
Defined.

Lemma replica_seal_fences_witness :
  ∃ ver, (append 1%nat None 1 2 "b" false
    (run_calls [CallAppend 0%nat None 1 1 "a" true; CallGetLogEntry 1 1]
      (seal 1 (sample_replica Rocks, sample_env)).2).2).1 =
    (Ready (Throw (NanoLogSealedException ver)), []).
Proof.
  apply (replica_seal_fences 1 (sample_replica Rocks, sample_env) i64_max
    (seal 1 (sample_replica Rocks, sample_env)).2
    [CallAppend 0%nat None 1 1 "a" true; CallGetLogEntry 1 1]).
  - apply first_result. vm_compute. reflexivity.
  - discriminate.
  - by apply no_seals_answered.
Defined.
