(* ===== verification/Program.v ===== *)
(** * Programs that call out

    The coroutines of the log talk to replicas, sequencers, the metadata store
    and each other's shared state through calls that other coroutines
    interleave with.  A [prog] is such a coroutine: finished with an outcome,
    or at a call with the continuation for its outcome.  [interp] runs it
    against a handler of the calls; the interleavings of several programs are
    a step relation on programs and shared state. *)

From stdpp Require Import base list relations.
From Stdlib Require Import ZArith Lia.
From S2P Require Import Prelude.

Inductive prog (E : Set → Set) (A : Type) : Type :=
  | Done (o : outcome A)
  | Call {X : Set} (e : E X) (k : outcome X → prog E A).
Arguments Done {E A} o.
Arguments Call {E A X} e k.

Section prog.
Context {E : Set → Set}.

#[global] Instance prog_ret : MRet (prog E) := λ A a, Done (Ret a).

Fixpoint prog_bind {A B} (f : A → prog E B) (p : prog E A) : prog E B :=
  match p with
  | Done (Ret a) => f a
  | Done (Throw e) => Done (Throw e)
  | Done Block => Done Block
  | Call e k => Call e (λ o, prog_bind f (k o))
  end.
#[global] Instance prog_mbind : MBind (prog E) := λ A B, prog_bind.

Definition perform {X : Set} (e : E X) : prog E X := Call e Done.
Definition raise {A} (e : exn) : prog E A := Done (Throw e).

(** [try { p } catch (const X&) { h }]: [h] answers [None] for an exception
    it does not catch. *)
Fixpoint try_catch {A} (p : prog E A) (h : exn → option (prog E A)) : prog E A :=
  match p with
  | Done (Throw e) => default (Done (Throw e)) (h e)
  | Done o => Done o
  | Call e k => Call e (λ o, try_catch (k o) h)
  end.

(** The outcome of [p] as a value: a future that has finished. *)
Fixpoint attempt {A} (p : prog E A) : prog E (outcome A) :=
  match p with
  | Done Block => Done Block
  | Done o => Done (Ret o)
  | Call e k => Call e (λ o, attempt (k o))
  end.

(** A loop over a range, its results collected in order. *)
Fixpoint map_prog {A B} (f : A → prog E B) (l : list A) : prog E (list B) :=
  match l with
  | [] => mret []
  | a :: l' => b ← f a; bs ← map_prog f l'; mret (b :: bs)
  end.

(** [folly::futures::retrying] with the policy [count < maxRetries] of this
    program: [ff] is called with 0, 1, ...; after a failure the policy is asked
    with the number of calls made so far, so [left] counts the calls it still
    allows. *)
Fixpoint retrying_from {A} (left k : nat) (ff : nat → prog E A) : prog E A :=
  r ← attempt (ff k);
  match r with
  | Ret a => mret a
  | Throw e => match left with
               | O => raise e
               | S left' => retrying_from left' (S k) ff
               end
  | Block => Done Block
  end.
Definition retrying {A} (maxRetries : nat) (ff : nat → prog E A) : prog E A :=
  retrying_from (maxRetries - 1) 0 ff.

(** One run against a handler, without interference. *)
Fixpoint interp {W A} (h : ∀ X : Set, E X → M W X) (p : prog E A) : M W A := λ w,
  match p with
  | Done o => (o, w)
  | Call e k =>
      let '(o, w') := h _ e w in
      match o with
      | Block => (Block, w')
      | _ => interp h (k o) w'
      end
  end.

(** ** Programs with the state of one object

    The methods of an object that one coroutine uses at a time: an exception
    leaves the object in the state it had then. *)
Definition sprog (S : Type) (A : Type) : Type := S → prog E (outcome A * S).
#[global] Instance sprog_ret {S} : MRet (sprog S) := λ A a s, mret (Ret a, s).
#[global] Instance sprog_bind {S} : MBind (sprog S) := λ A B f m s,
  r ← m s;
  match r with
  | (Ret a, s') => f a s'
  | (Throw e, s') => mret (Throw e, s')
  | (Block, s') => mret (Block, s')
  end.
Definition lift {S A} (p : prog E A) : sprog S A := λ s, o ← attempt p; mret (o, s).
Definition sget {S} : sprog S S := λ s, mret (Ret s, s).
Definition smodify {S} (f : S → S) : sprog S () := λ s, mret (Ret (), f s).
Definition sthrow {S A} (e : exn) : sprog S A := λ s, mret (Throw e, s).
Definition sattempt {S A} (m : sprog S A) : sprog S (outcome A) := λ s,
  r ← m s; mret (Ret r.1, r.2).
(** A method of a member object. *)
Definition szoom {S T A} (get_ : T → S) (set_ : S → T → T) (m : sprog S A) : sprog T A :=
  λ t, r ← m (get_ t); mret (r.1, set_ r.2 t).
(** [while (true)] for at most [n] rounds; [None] from the body continues. *)
Fixpoint sloop {S A} (n : nat) (body : sprog S (option A)) : sprog S (option A) :=
  match n with
  | O => mret None
  | Datatypes.S n' =>
      r ← body;
      match r with Some a => mret (Some a) | None => sloop n' body end
  end.
End prog.
Arguments sprog : clear implicits.

Section interp.
Context {E : Set → Set} {W : Type} (h : ∀ X : Set, E X → M W X).

Lemma interp_perform {X : Set} (e : E X) w : interp h (perform e) w = h X e w.
Proof. simpl. by destruct (h X e w) as [[| |] w']. Qed.

Lemma interp_bind {A B} (p : prog E A) (f : A → prog E B) w :
  interp h (p ≫= f) w = (x ← interp h p; interp h (f x)) w.
Proof.
  unfold mbind, M_bind, prog_mbind. revert w.
  induction p as [[a|e|]|X e k IH]; intros w; simpl; [done..|].
  destruct (h X e w) as [[| |] w']; [apply IH|apply IH|done].
Qed.

Lemma interp_bind_Ret {A B} (p : prog E A) (f : A → prog E B) w a w' :
  interp h p w = (Ret a, w') → interp h (p ≫= f) w = interp h (f a) w'.
Proof. intros Ep. rewrite interp_bind. exact (bind_Ret _ (λ x, interp h (f x)) _ _ _ Ep). Qed.
Lemma interp_bind_Throw {A B} (p : prog E A) (f : A → prog E B) w e w' :
  interp h p w = (Throw e, w') → interp h (p ≫= f) w = (Throw e, w').
Proof. intros Ep. rewrite interp_bind. unfold mbind, M_bind. by rewrite Ep. Qed.

(** The next call of a program, answered. *)
Lemma interp_call {X : Set} {B} (e : E X) (f : X → prog E B) w a w' :
  h X e w = (Ret a, w') → interp h (perform e ≫= f) w = interp h (f a) w'.
Proof. intros Eh. apply interp_bind_Ret. by rewrite interp_perform. Qed.

Lemma interp_attempt {A} (p : prog E A) w o w' :
  interp h p w = (o, w') → o ≠ Block → interp h (attempt p) w = (Ret o, w').
Proof.
  revert w. induction p as [[a|e|]|X e k IH]; intros w; simpl; [by intros [= <- <-]..|].
  destruct (h X e w) as [[| |] w1]; [apply IH|apply IH|]. by intros [= <- <-].
Qed.

(** A loop of programs that change nothing. *)
Lemma interp_map_reads {A B} (f : A → prog E B) (g : A → B) l w :
  (∀ a, a ∈ l → interp h (f a) w = (Ret (g a), w)) → interp h (map_prog f l) w = (Ret (map g l), w).
Proof.
  induction l as [|a l IH]; intros Hf; [done|]. simpl.
  rewrite (interp_bind_Ret _ _ _ _ _ (Hf a ltac:(by left))).
  by rewrite (interp_bind_Ret _ _ _ _ _ (IH (λ a' Ha', Hf a' ltac:(by right)))).
Qed.

(** Methods of an object. *)
Lemma interp_sbind {S A B} (m : sprog E S A) (f : A → sprog E S B) s w a s1 w1 :
  interp h (m s) w = (Ret (Ret a, s1), w1) → interp h ((m ≫= f) s) w = interp h (f a s1) w1.
Proof. intros Em. unfold mbind, sprog_bind. by rewrite (interp_bind_Ret _ _ _ _ _ Em). Qed.
Lemma interp_lift {S A} (p : prog E A) (s : S) w a w' :
  interp h p w = (Ret a, w') → interp h (lift p s) w = (Ret (Ret a, s), w').
Proof. intros Ep. unfold lift. by erewrite interp_bind_Ret by by apply interp_attempt. Qed.

Lemma interp_zoom {S T A} (g : T → S) (u : S → T → T) (m : sprog E S A) t w o s w' :
  interp h (m (g t)) w = (Ret (o, s), w') → interp h (szoom g u m t) w = (Ret (o, u s t), w').
Proof. intros Em. unfold szoom. by rewrite (interp_bind_Ret _ _ _ _ _ Em). Qed.

(** Retrying a program that changes nothing: the first success, or a failure
    when there is none. *)
Lemma interp_retrying_Ret {A} (ff : nat → prog E A) w a (left k j : nat) :
  (k ≤ j ≤ k + left)%nat → interp h (ff j) w = (Ret a, w) →
  (∀ i, (k ≤ i < j)%nat → ∃ e, interp h (ff i) w = (Throw e, w)) →
  interp h (retrying_from left k ff) w = (Ret a, w).
Proof.
  revert k. induction left as [|left IH]; intros k Hj Ej Hi; simpl.
  - assert (j = k) as -> by lia. by erewrite interp_bind_Ret by by apply interp_attempt.
  - destruct (decide (j = k)) as [->|Hne]; [by erewrite interp_bind_Ret by by apply interp_attempt|].
    destruct (Hi k) as [e Ek]; [lia|]. erewrite interp_bind_Ret by by apply interp_attempt.
    apply IH; [lia|done|]. intros i Hik. apply Hi. lia.
Qed.
Lemma interp_retrying_Throw {A} (ff : nat → prog E A) w (left k : nat) :
  (∀ i, (k ≤ i ≤ k + left)%nat → ∃ e, interp h (ff i) w = (Throw e, w)) →
  ∃ e, interp h (retrying_from left k ff) w = (Throw e, w).
Proof.
  revert k. induction left as [|left IH]; intros k Hi; simpl.
  - destruct (Hi k) as [e Ek]; [lia|]. exists e. by erewrite interp_bind_Ret by by apply interp_attempt.
  - destruct (Hi k) as [e Ek]; [lia|]. erewrite interp_bind_Ret by by apply interp_attempt.
    apply IH. intros i Hik. apply Hi. lia.
Qed.

Lemma interp_try_catch {A} (p : prog E A) c w :
  interp h (try_catch p c) w =
    match interp h p w with
    | (Throw e, w') => match c e with Some q => interp h q w' | None => (Throw e, w') end
    | r => r
    end.
Proof.
  revert w. induction p as [[a|e|]|X e k IH]; intros w; simpl; [done|by destruct (c e)|done|].
  destruct (h X e w) as [[| |] w']; [apply IH|apply IH|done].
Qed.
End interp.

(** ** Interleaving and rely-guarantee reasoning

    Threads share a state [W].  Thread [i] moves by a call ([exec i], restricted
    by [go]); the environment moves by [env]; threads satisfying [spawn] may
    start at any time. *)
Section threads.
Context {E : Set → Set} {W : Type}.
Context (exec : nat → ∀ X : Set, E X → W → outcome X → W → Prop).
Context (go : ∀ X : Set, E X → W → Prop) (env : relation W).

Definition thread : Type := { A : Set & prog E A }.
Context (spawn : thread → Prop).

Inductive sys_step : W * list thread → W * list thread → Prop :=
  | sys_call w ts i (A X : Set) (e : E X) (k : outcome X → prog E A) o w' :
      ts !! i = Some (existT A (Call e k) : thread) → go X e w → exec i X e w o w' →
      sys_step (w, ts) (w', <[i := (existT A (k o) : thread)]> ts)
  | sys_env w ts w' : env w w' → sys_step (w, ts) (w', ts)
  | sys_spawn w ts t : spawn t → sys_step (w, ts) (w, ts ++ [t]).

Inductive reaches (s : W * list thread) : W * list thread → Prop :=
  | reaches_refl : reaches s s
  | reaches_step s1 s2 : reaches s s1 → sys_step s1 s2 → reaches s s2.

(** A handler whose answers to thread [i] are steps: a program run against it is
    that thread, moving. *)
Lemma interp_steps (h : ∀ X : Set, E X → M W X) (P : W → Prop) (i : nat) :
  (∀ (A X : Set) (e : E X) (k : outcome X → prog E A) ts w o w',
     h X e w = (o, w') → o ≠ Block → P w → ts !! i = Some (existT A (Call e k) : thread) →
     rtc sys_step (w, ts) (w', <[i := (existT A (k o) : thread)]> ts) ∧ P w') →
  ∀ (A : Set) (p : prog E A) ts w o w',
    length ts = i → interp h p w = (o, w') → o ≠ Block → P w →
    rtc sys_step (w, ts ++ [(existT A p : thread)]) (w', ts ++ [(existT A (Done o) : thread)]) ∧ P w'.
Proof.
  intros Hh A p ts w o w' <-. revert w. induction p as [o1|X e k IH]; intros w; simpl; [by intros [= <- <-]|].
  destruct (h X e w) as [o1 w1] eqn:E1. intros Er Ho Hw.
  destruct (Hh A X e k (ts ++ [(existT A (Call e k) : thread)]) w o1 w1 E1) as [Hs Hw1].
  { intros ->. by injection Er as <-. }
  { done. }
  { by apply list_lookup_middle. }
  rewrite insert_app_r_alt, Nat.sub_diag in Hs by done. simpl in Hs.
  destruct (IH o1 w1) as [Hs' Hw']; [by destruct o1; [..|injection Er as <-]|done|done|].
  split; [by etrans|done].
Qed.

(** [I] is the invariant of the state, [C] what every move guarantees, [R i]
    what the moves of the others guarantee to thread [i], [ok] what has to hold
    when a call is made. *)
Context (I : W → Prop) (C : relation W) `{!PreOrder C}.
Context (R : nat → relation W) `{!∀ i, PreOrder (R i)} (R_C : ∀ i w w', R i w w' → C w w').
Context (ok : ∀ X : Set, E X → W → Prop).

(** [wp i p Q w]: thread [i], running [p] from [w], keeps its guarantees, and
    finishes only with outcomes and states in [Q]. *)
Fixpoint wp (i : nat) {A} (p : prog E A) (Q : outcome A → W → Prop) (w : W) : Prop :=
  match p with
  | Done o => Q o w
  | Call e k => ∀ w1, R i w w1 → I w1 →
      ok _ e w1 ∧
      (go _ e w1 → ∀ o w2, exec i _ e w1 o w2 →
         I w2 ∧ C w1 w2 ∧ (∀ j, j ≠ i → R j w1 w2) ∧ wp i (k o) Q w2)
  end.

(** With a post-condition for what it returns only. *)
Definition returns {A} (Q : A → W → Prop) (o : outcome A) (w : W) : Prop :=
  match o with Ret a => Q a w | _ => True end.
Definition safe (i : nat) {A} (p : prog E A) (Q : A → W → Prop) : W → Prop :=
  wp i p (returns Q).

Section one.
Context (i : nat).

Lemma safe_stable {A} (p : prog E A) (Q : A → W → Prop) w w' :
  (∀ a, Q a w → Q a w') → R i w w' → safe i p Q w → safe i p Q w'.
Proof.
  intros HQ HR. unfold safe. destruct p as [[a| |]|X e k]; simpl; [by apply HQ|done..|].
  intros Hs w1 Hw1 HI. apply Hs; [by etrans|done].
Qed.

Lemma wp_weaken {A} (p : prog E A) (Q Q' : outcome A → W → Prop) w :
  (∀ o w', Q o w' → Q' o w') → wp i p Q w → wp i p Q' w.
Proof.
  intros HQ. revert w. induction p as [o|X e k IH]; intros w; simpl; [by apply HQ|].
  intros Hs w1 Hw1 HI. destruct (Hs w1 Hw1 HI) as [Hok Hgo]. split; [done|].
  intros Hg o w2 Hx. destruct (Hgo Hg o w2 Hx) as (HI2 & HC2 & HR2 & Hk).
  split_and!; auto.
Qed.

Lemma wp_conseq {A} (p : prog E A) (Q Q' : outcome A → W → Prop) w :
  (∀ o w', C w w' → Q o w' → Q' o w') → wp i p Q w → wp i p Q' w.
Proof.
  revert w. induction p as [o|X e k IH]; intros w HQ; simpl; [by apply HQ|].
  intros Hs w1 Hw1 HI. destruct (Hs w1 Hw1 HI) as [Hok Hgo]. split; [done|].
  intros Hg o w2 Hx. destruct (Hgo Hg o w2 Hx) as (HI2 & HC2 & HR2 & Hk).
  split_and!; [done..|]. apply IH; [|done]. intros o' w' Hw'. apply HQ.
  etrans; [by eapply R_C|]. by etrans.
Qed.

Lemma safe_conseq {A} (p : prog E A) (Q Q' : A → W → Prop) w :
  (∀ a w', C w w' → Q a w' → Q' a w') → safe i p Q w → safe i p Q' w.
Proof. intros HQ. apply wp_conseq. intros [a| |] w'; simpl; auto. Qed.

Lemma wp_bind {A B} (p : prog E A) (f : A → prog E B) Q w :
  wp i p (λ o w', match o with
                  | Ret a => wp i (f a) Q w'
                  | Throw e => Q (Throw e) w'
                  | Block => Q Block w'
                  end) w →
  wp i (p ≫= f) Q w.
Proof.
  unfold mbind, prog_mbind. revert w.
  induction p as [[a| |]|X e k IH]; intros w; simpl; [done..|].
  intros Hs w1 Hw1 HI. destruct (Hs w1 Hw1 HI) as [Hok Hgo]. split; [done|].
  intros Hg o w2 Hx. destruct (Hgo Hg o w2 Hx) as (HI2 & HC2 & HR2 & Hk).
  split_and!; auto.
Qed.
Lemma safe_bind {A B} (p : prog E A) (f : A → prog E B) Q w :
  safe i p (λ a w', safe i (f a) Q w') w → safe i (p ≫= f) Q w.
Proof. intros Hp. apply wp_bind. eapply wp_weaken; [|exact Hp]. by intros [a| |] w'. Qed.

(** A single call. *)
Lemma wp_perform {X : Set} (e : E X) (Q : outcome X → W → Prop) w :
  (∀ w1, R i w w1 → I w1 → ok X e w1 ∧ (go X e w1 → ∀ o w2, exec i X e w1 o w2 →
     I w2 ∧ C w1 w2 ∧ (∀ j, j ≠ i → R j w1 w2) ∧ Q o w2)) →
  wp i (perform e) Q w.
Proof. done. Qed.
Lemma safe_perform {X : Set} (e : E X) (Q : X → W → Prop) w :
  (∀ w1, R i w w1 → I w1 → ok X e w1 ∧ (go X e w1 → ∀ o w2, exec i X e w1 o w2 →
     I w2 ∧ C w1 w2 ∧ (∀ j, j ≠ i → R j w1 w2) ∧
     match o with Ret a => Q a w2 | _ => True end)) →
  safe i (perform e) Q w.
Proof. done. Qed.

Lemma wp_attempt {A} (p : prog E A) (Q : outcome (outcome A) → W → Prop) w :
  wp i p (λ o w', match o with Block => Q Block w' | _ => Q (Ret o) w' end) w →
  wp i (attempt p) Q w.
Proof.
  revert w. induction p as [[a| |]|X e k IH]; intros w; simpl; [done..|].
  intros Hs w1 Hw1 HI. destruct (Hs w1 Hw1 HI) as [Hok Hgo]. split; [done|].
  intros Hg o w2 Hx. destruct (Hgo Hg o w2 Hx) as (HI2 & HC2 & HR2 & Hk).
  split_and!; auto.
Qed.
Lemma safe_attempt {A} (p : prog E A) (Q : A → W → Prop) w :
  safe i p Q w → safe i (attempt p) (returns Q) w.
Proof.
  intros Hp. apply wp_attempt. eapply wp_weaken; [|exact Hp]. by intros [a| |] w'.
Qed.

Lemma safe_try_catch {A} (p : prog E A) h (Q : A → W → Prop) w :
  safe i p Q w →
  (∀ e q w', h e = Some q → C w w' → safe i q Q w') →
  safe i (try_catch p h) Q w.
Proof.
  unfold safe. revert w. induction p as [[a|e|]|X e k IH]; intros w; simpl; [done| |done|].
  - intros _ Hh. destruct (h e) as [q|] eqn:Eq; simpl; [|done]. by apply (Hh e q).
  - intros Hs Hh w1 Hw1 HI. destruct (Hs w1 Hw1 HI) as [Hok Hgo]. split; [done|].
    intros Hg o w2 Hx. destruct (Hgo Hg o w2 Hx) as (HI2 & HC2 & HR2 & Hk).
    split_and!; [done..|]. apply IH; [done|]. intros e' q w' Eq Hw'. apply (Hh e' q); [done|].
    etrans; [by eapply R_C|]. by etrans.
Qed.

(** A loop whose body keeps [P] and throws nothing. *)
Lemma wp_map {A B} (f : A → prog E B) (l : list A) (P : W → Prop) (Q : A → B → W → Prop) w :
  (∀ a b w1 w2, C w1 w2 → Q a b w1 → Q a b w2) →
  P w →
  (∀ a w', a ∈ l → C w w' → P w' → safe i (f a) (λ b w2, Q a b w2 ∧ P w2) w') →
  safe i (map_prog f l) (λ bs w', Forall2 (λ a b, Q a b w') l bs ∧ P w') w.
Proof.
  intros HQ. revert w. induction l as [|a l IH]; intros w HP Hf; [by split; [constructor|]|].
  simpl. apply safe_bind. eapply safe_conseq; [|apply Hf; [by left|done|done]].
  intros b w1 Hw1 [Hb HP1]. apply safe_bind. eapply safe_conseq; [|apply IH; [done|]].
  - intros bs w2 Hw2 [Hbs HP2]. split; [|done]. constructor; [by eapply HQ|done].
  - intros a' w' Ha' Hw'. apply Hf; [by right|]. by etrans.
Qed.
Lemma safe_map {A B} (f : A → prog E B) (l : list A) (Q : A → B → W → Prop) w :
  (∀ a b w1 w2, C w1 w2 → Q a b w1 → Q a b w2) →
  (∀ a w', a ∈ l → C w w' → safe i (f a) (Q a) w') →
  safe i (map_prog f l) (λ bs w', Forall2 (λ a b, Q a b w') l bs) w.
Proof.
  intros HQ Hf. eapply safe_conseq; [|apply (wp_map f l (λ _, True) Q); [done|done|]].
  - by intros bs w' _ [].
  - intros a w' Ha Hw' _. eapply safe_conseq; [|by apply Hf]. done.
Qed.

(** Methods of an object. *)
Definition method {S A} (m : sprog E S A) (s : S) (Q : outcome A → S → W → Prop) : W → Prop :=
  safe i (m s) (λ r, Q r.1 r.2).

Lemma method_conseq {S A} (m : sprog E S A) s (Q Q' : outcome A → S → W → Prop) w :
  (∀ o s' w', C w w' → Q o s' w' → Q' o s' w') → method m s Q w → method m s Q' w.
Proof. intros HQ. apply safe_conseq. auto. Qed.

Lemma method_bind {S A B} (m : sprog E S A) (f : A → sprog E S B) s Q w :
  method m s (λ o s' w', match o with
                         | Ret a => method (f a) s' Q w'
                         | Throw e => Q (Throw e) s' w'
                         | Block => Q Block s' w'
                         end) w →
  method (m ≫= f) s Q w.
Proof.
  intros Hm. unfold method, mbind, sprog_bind. apply safe_bind.
  eapply wp_weaken; [|exact Hm]. by intros [[[a|e|] s']| |] w'.
Qed.

Lemma method_lift {S A} (p : prog E A) (s : S) Q w :
  wp i p (λ o w', o = Block ∨ Q o s w') w → method (lift p) s Q w.
Proof.
  intros Hp. unfold method, lift. apply safe_bind, wp_attempt.
  eapply wp_weaken; [|exact Hp]. by intros [a|e|] w' [?|?].
Qed.

Lemma method_lift_safe {S A} (p : prog E A) (s : S) Q w :
  (∀ e w', Q (Throw e) s w') → safe i p (λ a, Q (Ret a) s) w → method (lift p) s Q w.
Proof.
  intros HQ Hp. apply method_lift. eapply wp_weaken; [|exact Hp].
  intros [a|e|] w'; simpl; auto.
Qed.
Lemma method_return {S A} (a : A) (s : S) (Q : outcome A → S → W → Prop) w :
  Q (Ret a) s w → method (mret a) s Q w.
Proof. done. Qed.
Lemma method_get {S} (s : S) (Q : outcome S → S → W → Prop) w :
  Q (Ret s) s w → method sget s Q w.
Proof. done. Qed.
Lemma method_modify {S} (f : S → S) (s : S) (Q : outcome () → S → W → Prop) w :
  Q (Ret ()) (f s) w → method (smodify f) s Q w.
Proof. done. Qed.

Lemma method_zoom {S T A} (g : T → S) (u : S → T → T) (m : sprog E S A) t Q w :
  method m (g t) (λ o s w', Q o (u s t) w') w → method (szoom g u m) t Q w.
Proof.
  intros Hm. unfold method, szoom. apply safe_bind. eapply wp_weaken; [|exact Hm].
  by intros [[o s]| |] w'.
Qed.

Lemma method_attempt {S A} (m : sprog E S A) s (Q : outcome (outcome A) → S → W → Prop) w :
  method m s (λ o, Q (Ret o)) w → method (sattempt m) s Q w.
Proof.
  intros Hm. unfold method, sattempt. apply safe_bind. eapply wp_weaken; [|exact Hm].
  by intros [[o s']| |] w'.
Qed.
End one.

(** Every reachable state satisfies the invariant, every thread that is at a
    call makes it rightly, and what finished threads returned satisfies [Q]. *)
Lemma sys_safe (Q : nat → ∀ A : Set, A → W → Prop) w0 w ts :
  (∀ i (A : Set) (a : A) w1 w2, C w1 w2 → Q i A a w1 → Q i A a w2) →
  I w0 →
  (∀ w1 w2, I w1 → env w1 w2 → I w2 ∧ ∀ i, R i w1 w2) →
  (∀ i (t : thread) w1, spawn t → I w1 → safe i (projT2 t) (Q i (projT1 t)) w1) →
  reaches (w0, []) (w, ts) →
  I w ∧ C w0 w ∧
  ∀ i (t : thread), ts !! i = Some t → safe i (projT2 t) (Q i (projT1 t)) w.
Proof.
  intros HQ HI0 Henv Hspawn Hr. remember (w, ts) as s eqn:Es. revert w ts Es.
  induction Hr as [|[w1 ts1] s2 _ IH Hst]; intros w ts.
  { intros [= <- <-]. by split_and!. }
  intros ->. destruct (IH w1 ts1 eq_refl) as (HI & HC & Hts).
  assert (Hmono : ∀ i w2 (t : thread), R i w1 w2 → ts1 !! i = Some t →
    safe i (projT2 t) (Q i (projT1 t)) w2).
  { intros i w2 t Hw2 Ht. eapply safe_stable; [|done|by apply Hts].
    intros a. by eapply HQ, R_C. }
  inversion Hst as [? ? i A X e k o w' Hi Hgo Hx| |]; subst.
  - destruct (Hts _ _ Hi w1) as [_ Hk]; [done..|].
    destruct (Hk Hgo o w Hx) as (HI2 & HC2 & HR2 & Hsafe). split_and!; [done|by etrans|].
    intros j t Hj.
    apply list_lookup_insert_Some in Hj as [(<- & <- & _)|[Hne Hj]]; [done|].
    apply Hmono; [|done]. by apply HR2.
  - destruct (Henv _ _ HI ltac:(eassumption)) as [HI2 HR2]. split_and!; [done| |].
    + etrans; [done|]. eapply R_C, (HR2 0%nat).
    + intros i t Ht. by apply Hmono.
  - split_and!; [done..|]. intros j t' [Ht|[_ Ht]]%lookup_app_Some; [by apply Hmono|].
    apply list_lookup_singleton_Some in Ht as [_ <-]. by apply Hspawn.
Qed.
End threads.
