(* ===== verification/VirtualLog.v ===== *)
(** * Sequencers, the registry and the virtual log

    [src/log/impl/SequencerImpl.cc], [NullSequencer.h], [RegistryImpl.cc] and
    [VirtualLogImpl.cc], as programs over the calls they make.  Replicas,
    sequencers and virtual logs are named by numbers (the addresses of the
    shared objects); [log_call] lists the calls and the accesses to shared
    state between which other coroutines can run. *)

From stdpp Require Import base gmap list strings.
From Stdlib Require Import ZArith Lia.
From S2P Require Import Prelude LogTypes Program.

Open Scope Z_scope.

(** [VirtualLogImpl::State] *)
Record VLogState := {
  metadataConfig : MetadataConfig;
  sequencer : nat;
  replicaSet : list nat }.

(** The implementations of [Sequencer]. *)
Inductive SequencerKind := KImpl | KNull | KRemote.

Inductive log_call : Set → Set :=
  (* the metadata store *)
  | MetaCurrentVersionId : log_call Z
  | MetaGetConfig (versionId : Z) : log_call (option MetadataConfig)
  | MetaGetConfigUsingLogId (logId : Z) : log_call (option MetadataConfig)
  | MetaCompareAndAppend (c : MetadataConfig) : log_call ()
  (* replicas; an append answers the name of its future *)
  | ReplicaAppend (r : nat) (g : option Z) (versionId logId : Z) (payload : string)
      (skipSeal : bool) : log_call nat
  | ReplicaGetLogEntry (r : nat) (versionId logId : Z) : log_call (LogEntry + LogReadError)
  | ReplicaSeal (r : nat) (versionId : Z) : log_call Z
  (* futures: [anyNSuccessful] and [collectAnyWithoutException] *)
  | AwaitAnyN (futures : list nat) (n : Z) : log_call ()
  | AwaitAny (results : list (outcome LogEntry)) : log_call LogEntry
  | Shuffle (l : list nat) : log_call (list nat)
  (* the fields of a sequencer *)
  | SeqKind (s : nat) : log_call SequencerKind
  (* [sequenceNum_++]; the payload the position is taken for is only recorded *)
  | SeqFetchAdd (s : nat) (payload : string) : log_call Z
  | SeqLoad (s : nat) : log_call Z
  | SeqLoadCommit (s : nat) : log_call Z
  | SeqRaiseCommit (s : nat) (logId : Z) : log_call ()
  | SeqVersion (s : nat) : log_call Z
  | SeqReplicas (s : nat) : log_call (list nat)
  | SeqQuorum (s : nat) : log_call Z
  | SeqStart (s : nat) (versionId sequenceNum : Z) : log_call ()
  (* a sequencer in another process *)
  | RemoteAppend (s : nat) (payload : string) : log_call Z
  | RemoteLatest (s : nat) : log_call Z
  (* the registry, and the state of a virtual log *)
  | RegistrySequencer (id : string) : log_call (option nat)
  | GetState (vl : nat) : log_call VLogState
  | SetState (vl : nat) (st : VLogState) : log_call ().

Abbreviation lprog := (prog log_call).

(** ** Sequencers *)

Record SequencerImpl := mkSequencerImpl {
  id_ : string;
  replicaSet_ : list nat;
  sequenceNum_ : Z;
  globalCommitIndex_ : Z;
  versionId_ : Z;
  quorumSize_ : Z;
  isAlive_ : bool }.

Definition makeSequencerImpl (id : string) (replicaSet : list nat)
    (seedSeqNum versionId : Z) (isAlive : bool) : SequencerImpl :=
  mkSequencerImpl id replicaSet seedSeqNum seedSeqNum versionId
    (length replicaSet / 2 + 1) isAlive.

(** [sequenceNum_++] on an atomic: answers the old value, wraps around. *)
Definition fetch_add (s : SequencerImpl) : Z * SequencerImpl :=
  (sequenceNum_ s,
   mkSequencerImpl (id_ s) (replicaSet_ s) (wrap64 (sequenceNum_ s + 1))
     (globalCommitIndex_ s) (versionId_ s) (quorumSize_ s) (isAlive_ s)).

(** The critical section after a successful append. *)
Definition raise_commit (logId : Z) (s : SequencerImpl) : SequencerImpl :=
  if globalCommitIndex_ s <? logId then
    mkSequencerImpl (id_ s) (replicaSet_ s) (sequenceNum_ s) logId (versionId_ s)
      (quorumSize_ s) (isAlive_ s)
  else s.

Definition seq_start (versionId sequenceNum : Z) (s : SequencerImpl) : SequencerImpl :=
  mkSequencerImpl (id_ s) (replicaSet_ s) sequenceNum sequenceNum versionId
    (quorumSize_ s) true.

Definition seq_stop (s : SequencerImpl) : SequencerImpl :=
  mkSequencerImpl (id_ s) (replicaSet_ s) (sequenceNum_ s) (globalCommitIndex_ s)
    (versionId_ s) (quorumSize_ s) false.

Definition MAXIMUM_SEQUENCER_RETIRES : nat := 0.

(** The calls to all replicas and the quorum; the arguments of every call are
    evaluated before the first one starts. *)
Definition replicate_to_all (s : nat) (logId : Z) (logEntryPayload : string) : lprog () :=
  replicas ← perform (SeqReplicas s);
  calls ← map_prog (λ r,
            g ← perform (SeqLoadCommit s);
            v ← perform (SeqVersion s);
            mret (r, g, v)) replicas;
  futures ← map_prog (λ '(r, g, v),
              perform (ReplicaAppend r (Some g) v logId logEntryPayload false)) calls;
  quorumSize ← perform (SeqQuorum s);
  perform (AwaitAnyN futures quorumSize).

Definition SequencerImpl_append (s : nat) (logEntryPayload : string) : lprog Z :=
  logId ← perform (SeqFetchAdd s logEntryPayload);
  retrying MAXIMUM_SEQUENCER_RETIRES (λ _,
    _ ← replicate_to_all s logId logEntryPayload;
    _ ← perform (SeqRaiseCommit s logId);
    mret logId).

Definition SequencerImpl_latestAppendPosition (s : nat) : lprog Z :=
  n ← perform (SeqLoad s);
  mret (n - 1).

(** Virtual dispatch of the [Sequencer] interface; [NullSequencer] throws. *)
Definition sequencer_append (s : nat) (payload : string) : lprog Z :=
  k ← perform (SeqKind s);
  match k with
  | KImpl => SequencerImpl_append s payload
  | KNull => raise NullSequencerException
  | KRemote => perform (RemoteAppend s payload)
  end.

Definition sequencer_latestAppendPosition (s : nat) : lprog Z :=
  k ← perform (SeqKind s);
  match k with
  | KImpl => SequencerImpl_latestAppendPosition s
  | KNull => raise NullSequencerException
  | KRemote => perform (RemoteLatest s)
  end.

Definition sequencer_start (s : nat) (versionId sequenceNum : Z) : lprog () :=
  k ← perform (SeqKind s);
  match k with
  | KImpl => perform (SeqStart s versionId sequenceNum)
  | KNull => raise NullSequencerException
  | KRemote => raise NotImplementedException
  end.

(** ** RegistryImpl *)

Record RegistryImpl := {
  replicas_ : gmap string nat;
  sequencers_ : gmap string nat }.

Definition emplace (id : string) (x : nat) (m : gmap string nat) : gmap string nat :=
  match m !! id with Some _ => m | None => <[id := x]> m end.

Definition registerReplica (id : string) (x : nat) (r : RegistryImpl) : RegistryImpl :=
  {| replicas_ := emplace id x (replicas_ r); sequencers_ := sequencers_ r |}.
Definition registerSequencer (id : string) (x : nat) (r : RegistryImpl) : RegistryImpl :=
  {| replicas_ := replicas_ r; sequencers_ := emplace id x (sequencers_ r) |}.
Definition registry_replica (id : string) (r : RegistryImpl) : option nat := replicas_ r !! id.
Definition registry_sequencer (id : string) (r : RegistryImpl) : option nat :=
  sequencers_ r !! id.

(** ** VirtualLogImpl *)

Section vlog.
(** The virtual log. *)
Context (vl : nat).

Definition sync : lprog Z :=
  st ← perform (GetState vl);
  sequencer_latestAppendPosition (sequencer st).

Definition append (logEntryPayload : string) : lprog Z :=
  st ← perform (GetState vl);
  sequencer_append (sequencer st) logEntryPayload.

(** One attempt of [getLogEntry]; the replica set is read again each time. *)
Definition read_attempt (versionId logId : Z) (retryAttempt : nat)
    : lprog (LogEntry + LogReadError) :=
  st ← perform (GetState vl);
  match replicaSet st !! retryAttempt with
  | None => raise OutOfRange
  | Some replica =>
      variantResult ← perform (ReplicaGetLogEntry replica versionId logId);
      match variantResult with
      | inl _ => mret variantResult
      | inr _ => raise (RuntimeError "failed to get log entry")
      end
  end.

Definition getLogEntry (logId : Z) : lprog (LogEntry + LogReadError) :=
  config ← perform (MetaGetConfigUsingLogId logId);
  match config with
  | None => raise (RuntimeError "metadataconfig does not exist for the given log id")
  | Some c =>
      st ← perform (GetState vl);
      retrying (length (replicaSet st)) (read_attempt (version_id c) logId)
  end.

(** [*config], [config->...] on an empty optional. *)
Definition deref {A} (o : option A) : lprog A :=
  match o with Some a => mret a | None => raise NullPointer end.

Definition setState (versionId : Z) : lprog () :=
  config ← perform (MetaGetConfig versionId);
  c ← deref config;
  sequencer ← perform (RegistrySequencer (sequencer_id (sequencer_config c)));
  match sequencer with
  | None => raise AssertFailure
  | Some s =>
      st ← perform (GetState vl);
      perform (SetState vl {| metadataConfig := c; sequencer := s;
                              replicaSet := replicaSet st |})
  end.

(** Sealing a majority: the smallest and the largest end index. *)
Fixpoint seal_loop (versionId : Z) (replicas : list (option nat)) (minLogId maxLogId : Z)
    : lprog (Z * Z) :=
  match replicas with
  | [] => mret (minLogId, maxLogId)
  | r :: rs =>
      replica ← deref r;
      endLogId ← perform (ReplicaSeal replica versionId);
      seal_loop versionId rs (Z.min minLogId endLogId) (Z.max maxLogId endLogId)
  end.

(** The continuation of a read in the re-replication. *)
Definition entry_of (r : outcome (LogEntry + LogReadError)) : outcome LogEntry :=
  match r with
  | Ret (inl e) => Ret e
  | Ret (inr err) => Throw (RuntimeError (readErrorString err))
  | Throw e => Throw e
  | Block => Block
  end.

Definition rereplicate_entry (versionId : Z) (sealed : list (option nat)) (logId : Z)
    : lprog () :=
  results ← map_prog (λ r,
              replica ← deref r;
              x ← attempt (perform (ReplicaGetLogEntry replica versionId logId));
              mret (entry_of x)) sealed;
  logEntry ← perform (AwaitAny results);
  st ← perform (GetState vl);
  futures ← map_prog (λ r,
              perform (ReplicaAppend r None versionId (LogTypes.logId logEntry)
                         (payload logEntry) true)) (replicaSet st);
  perform (AwaitAnyN futures (length (replicaSet st) / 2 + 1)).

(** [for (logId = minLogId; logId < maxLogId; logId++)]; [n] is the number of
    iterations. *)
Fixpoint rereplicate (versionId : Z) (sealed : list (option nat)) (logId : Z) (n : nat)
    : lprog () :=
  match n with
  | O => mret ()
  | S n' =>
      _ ← rereplicate_entry versionId sealed logId;
      rereplicate versionId sealed (logId + 1) n'
  end.

Definition next_config (versionId maxLogId : Z) (target : MetadataConfig) : MetadataConfig :=
  {| version_id := versionId + 1;
     previous_version_id := versionId;
     start_index := maxLogId;
     end_index := i64_max;
     previous_version_end_index := maxLogId;
     sequencer_config := sequencer_config target;
     replica_set_config := replica_set_config target |}.

(** Installing the new config; [None] when another virtual log was faster. *)
Definition install (newConfig : MetadataConfig) : lprog (option MetadataConfig) :=
  try_catch
    (_ ← perform (MetaCompareAndAppend newConfig);
     _ ← setState (version_id newConfig);
     st ← perform (GetState vl);
     _ ← sequencer_start (sequencer st) (version_id newConfig) (start_index newConfig);
     mret (Some newConfig))
    (λ e, match e with
          | OptimisticConcurrencyException => Some (mret None)
          | _ => None
          end).

(** Taking over the newest config. *)
Definition adopt : lprog MetadataConfig :=
  newVersionId ← perform MetaCurrentVersionId;
  _ ← setState newVersionId;
  config ← perform (MetaGetConfig newVersionId);
  deref config.

Definition reconfigure (targetMetadataConfig : MetadataConfig) : lprog MetadataConfig :=
  versionId ← perform MetaCurrentVersionId;
  st ← perform (GetState vl);
  shuffled ← perform (Shuffle (replicaSet st));
  let majorityCount := (length shuffled / 2 + 1)%nat in
  let sealed := resize majorityCount None (Some <$> shuffled) in
  mm ← seal_loop versionId sealed HighestNonExistingLogId LowestNonExistingLogId;
  let '(minLogId, maxLogId) := mm in
  _ ← rereplicate versionId sealed minLogId (Z.to_nat (maxLogId - minLogId));
  metadataConfig ← perform (MetaGetConfig versionId);
  match metadataConfig with
  | None => adopt
  | Some _ =>
      r ← install (next_config versionId maxLogId targetMetadataConfig);
      match r with
      | Some newConfig => mret newConfig
      | None => adopt
      end
  end.

Definition getCurrentConfig : lprog MetadataConfig :=
  st ← perform (GetState vl);
  mret (metadataConfig st).

Definition refreshConfiguration : lprog () :=
  versionId ← perform MetaCurrentVersionId;
  st ← perform (GetState vl);
  let currentVersionId := version_id (metadataConfig st) in
  if negb (currentVersionId <=? versionId) then raise AssertFailure
  else if currentVersionId <? versionId then setState versionId
  else mret ().
End vlog.
