(* ===== verification/FailureDetector.v ===== *)
(** * The failure detector

    [src/log/impl/FailureDetectorImpl.cc]: one loop checks the health of the
    ensemble and keeps the last five results; another one, which only looks at
    [ensembleAlive_], reconfigures the virtual log while the ensemble is down.
    A round of a loop is a program over the calls of the log.

    What [HealthCheck::isAlive] and the timer next to it answer is an argument
    of the round. *)

From stdpp Require Import base sets list strings.
From Stdlib Require Import ZArith Lia.
From S2P Require Import Prelude LogTypes Program VirtualLog.

Open Scope Z_scope.

(** The fields of [ServerConfig] that are used. *)
Record ServerConfig := {
  sc_sequencer_id : string;
  sc_replica_set : list string }.

Record FailureDetectorImpl := {
  state_versionId : Z;
  ensembleAlive_ : bool;
  logServerConfig_ : ServerConfig;
  healthCheckRecords_ : list bool }.

Definition makeFailureDetectorImpl (logServerConfig : ServerConfig) : FailureDetectorImpl :=
  {| state_versionId := -1; ensembleAlive_ := false; logServerConfig_ := logServerConfig;
     healthCheckRecords_ := replicate 5 false |}.

Definition getLatestMetadataConfig (fd : FailureDetectorImpl) : option MetadataConfig := None.
Definition healthy (fd : FailureDetectorImpl) : bool := ensembleAlive_ fd.

(** ** The rounds *)

(** The config that is asked for: ids only. *)
Definition ensemble_config (c : ServerConfig) : MetadataConfig :=
  {| version_id := 0; previous_version_id := 0; start_index := 0; end_index := 0;
     previous_version_end_index := 0;
     sequencer_config := {| sequencer_id := sc_sequencer_id c; sequencer_ip := default_IpAddress |};
     replica_set_config :=
       map (λ id, {| replica_id := id; replica_ip := default_IpAddress; local := false |})
         (sc_replica_set c) |}.

(** A round of [reconcileLoop]. *)
Definition reconcile (vl : nat) (fd : FailureDetectorImpl) : lprog () :=
  if ensembleAlive_ fd then mret ()
  else try_catch (_ ← reconfigure vl (ensemble_config (logServerConfig_ fd)); mret ())
                 (λ e, if is_std_exception e then Some (mret ()) else None).

(** [collectAny] of the check and of a timer: the one that was first, and what
    it returned. *)
Definition check_result (coResult : nat * outcome bool) : bool :=
  match coResult with (O, Ret result) => result | _ => false end.

Definition record (coResult : nat * outcome bool) (fd : FailureDetectorImpl) : FailureDetectorImpl :=
  let records := tail (healthCheckRecords_ fd ++ [check_result coResult]) in
  {| state_versionId := state_versionId fd;
     ensembleAlive_ := foldl orb false records;
     logServerConfig_ := logServerConfig_ fd;
     healthCheckRecords_ := records |}.

(** A round of [runHealthCheckLoop]: an exception of [refreshConfiguration] is
    in the [Try] that nobody looks at; a failed [CHECK] ends the process. *)
Definition ends_process (e : exn) : bool :=
  match e with AssertFailure | NullPointer => true | _ => false end.
Definition health_check (vl : nat) (coResult : nat * outcome bool) (fd : FailureDetectorImpl)
    : lprog FailureDetectorImpl :=
  let fd' := record coResult fd in
  if ensembleAlive_ fd' then mret fd'
  else
    _ ← try_catch (refreshConfiguration vl)
          (λ e, if ends_process e then None else Some (mret ()));
    mret fd'.

(** ** The loops

    The two loops of one detector run on one executor and share
    [ensembleAlive_]; [w] is everything outside. *)
Inductive event :=
  | HealthCheck (coResult : nat * outcome bool)
  | Reconcile.

Section loops.
Context {W : Type} (h : ∀ X : Set, log_call X → M W X) (vl : nat).

Definition run_event (e : event) : M (FailureDetectorImpl * W) () := λ s,
  match e with
  | HealthCheck r =>
      match interp h (health_check vl r s.1) s.2 with
      | (Ret fd, w) => (Ret (), (fd, w))
      | (Throw e, w) => (Throw e, (record r s.1, w))
      | (Block, w) => (Block, (record r s.1, w))
      end
  | Reconcile => let '(o, w) := interp h (reconcile vl s.1) s.2 in (o, (s.1, w))
  end.
Fixpoint run_events (es : list event) : M (FailureDetectorImpl * W) () :=
  match es with
  | [] => mret ()
  | e :: es' => _ ← run_event e; run_events es'
  end.

(** The results of the health checks, the last one first. *)
Fixpoint results (es : list event) (before : list bool) : list bool :=
  match es with
  | [] => before
  | HealthCheck r :: es' => results es' (check_result r :: before)
  | Reconcile :: es' => results es' before
  end.

(** ** Lemmas *)

Lemma foldl_orb l b : foldl orb b l = b || existsb id l.
Proof. revert b. induction l as [|x l IH]; intros b; simpl; [by rewrite orb_false_r|]. by rewrite IH, orb_assoc. Qed.

Lemma existsb_elem l : existsb id l = bool_decide (true ∈ l).
Proof.
  induction l as [|[] l IH]; cbn [existsb id orb]; [done| |].
  - by rewrite bool_decide_eq_true_2 by set_solver.
  - rewrite IH. apply bool_decide_ext. set_solver.
Qed.
Lemma existsb_reverse l : existsb id (reverse l) = existsb id l.
Proof. rewrite !existsb_elem. apply bool_decide_ext. by rewrite elem_of_reverse. Qed.

(** A detector that has seen [rs], the last one first. *)
Definition tracks (c : ServerConfig) (rs : list bool) (fd : FailureDetectorImpl) : Prop :=
  logServerConfig_ fd = c ∧ state_versionId fd = -1 ∧
  healthCheckRecords_ fd = reverse (take 5 (rs ++ replicate 5 false)) ∧
  ensembleAlive_ fd = existsb id (take 5 (rs ++ replicate 5 false)).

Lemma tracks_make c : tracks c [] (makeFailureDetectorImpl c).
Proof. done. Qed.

Lemma tail_reverse_take (b : bool) (l : list bool) :
  (5 ≤ length l)%nat → tail (reverse (take 5 l) ++ [b]) = reverse (take 5 (b :: l)).
Proof. destruct l as [|a1 [|a2 [|a3 [|a4 [|a5 l]]]]]; simpl; try lia. done. Qed.

Lemma tracks_record c rs r fd : tracks c rs fd → tracks c (check_result r :: rs) (record r fd).
Proof.
  intros (Hc & Hv & Hr & Ha). unfold tracks, record. simpl.
  rewrite Hr, tail_reverse_take, foldl_orb by (rewrite length_app; simpl; lia).
  by rewrite existsb_reverse.
Qed.

Lemma health_check_state r fd w fd' w' :
  interp h (health_check vl r fd) w = (Ret fd', w') → fd' = record r fd.
Proof.
  unfold health_check. destruct (ensembleAlive_ (record r fd)); [by intros [= <- _]|].
  rewrite interp_bind. unfold mbind, M_bind.
  destruct (interp h (try_catch _ _) w) as [[| |] ?]; cbn; by intros [= <- _].
Qed.

Lemma run_events_tracks c es : ∀ rs fd w fd' w',
  tracks c rs fd → run_events es (fd, w) = (Ret (), (fd', w')) → tracks c (results es rs) fd'.
Proof.
  induction es as [|e es IH]; intros rs fd w fd' w' Ht; cbn; [by intros [= <- <-]|].
  unfold mbind, M_bind. destruct (run_event e (fd, w)) as [[[]| |] [fd1 w1]] eqn:E; try done.
  destruct e as [r|]; cbn in E; apply IH.
  - destruct (interp h (health_check vl r fd) w) as [[fd2| |] ?] eqn:Er; simplify_eq.
    apply health_check_state in Er as ->. by apply tracks_record.
  - destruct (interp h (reconcile vl fd) w). by simplify_eq.
Qed.
End loops.

(** ** The theorem *)

Section theorem.
Context {W : Type} (h : ∀ X : Set, log_call X → M W X) (vl : nat).

(** C28: the detector reconfigures exactly while none of the last five health
    checks has succeeded in time, checks that have not taken place counting as
    failures; it asks for the ensemble of its configuration file, and neither
    a failure of the reconfiguration nor the reconfiguration itself changes
    what it thinks of the ensemble. *)
Theorem detector_reconfigures c es w fd w' :
  run_events h vl es (makeFailureDetectorImpl c, w) = (Ret (), (fd, w')) →
  let recent := take 5 (results es [] ++ replicate 5 false) in
  healthy fd = bool_decide (true ∈ recent) ∧
  (true ∈ recent → run_event h vl Reconcile (fd, w') = (Ret (), (fd, w'))) ∧
  (true ∉ recent → ∀ o w'', interp h (reconfigure vl (ensemble_config c)) w' = (o, w'') →
     run_event h vl Reconcile (fd, w') =
       (match o with
        | Ret _ => Ret ()
        | Throw e => if is_std_exception e then Ret () else Throw e
        | Block => Block
        end, (fd, w''))).
Proof.
  intros E recent.
  destruct (run_events_tracks h vl c es [] _ _ _ _ (tracks_make c) E) as (Hc & _ & _ & Ha).
  fold recent in Ha. rewrite existsb_elem in Ha. unfold healthy. split; [done|].
  cbn [run_event fst snd]. unfold reconcile. rewrite Ha, Hc. split.
  - intros Hin. by rewrite bool_decide_eq_true_2.
  - intros Hin o w'' Eo. rewrite bool_decide_eq_false_2 by done.
    rewrite interp_try_catch, interp_bind. unfold mbind, M_bind. rewrite Eo.
    destruct o as [|e|]; [done| |done]. by destruct (is_std_exception e).
Qed.
End theorem.

(** ** Witness: an ensemble whose log cannot be reached *)

Definition sample_ensemble : ServerConfig :=
  {| sc_sequencer_id := "s"; sc_replica_set := ["r0"; "r1"; "r2"] |}.
(** The calls fail, and are counted. *)
Definition unreachable (X : Set) (e : log_call X) : M nat X :=
  _ ← modify S; throw (RuntimeError "unreachable").
Definition one_success : list event :=
  HealthCheck (0%nat, Ret true) ::
  repeat (HealthCheck (1%nat, Ret false)) 3 ++
  [Reconcile; HealthCheck (0%nat, Throw (RuntimeError "no sequencer"))].

Lemma detector_reconfigures_witness :
  (∃ fd, run_events unreachable 0 one_success (makeFailureDetectorImpl sample_ensemble, 0%nat)
           = (Ret (), (fd, 0%nat)) ∧
         run_event unreachable 0 Reconcile (fd, 0%nat) = (Ret (), (fd, 0%nat))) ∧
  (∃ fd, run_events unreachable 0 (one_success ++ [HealthCheck (1%nat, Ret true)])
           (makeFailureDetectorImpl sample_ensemble, 0%nat) = (Ret (), (fd, 1%nat)) ∧
         run_event unreachable 0 Reconcile (fd, 1%nat) = (Ret (), (fd, 2%nat))).
Proof.
  split; eexists.
  - match goal with |- ?P ∧ _ => assert (E : P) by (vm_compute; reflexivity) end.
    split; [exact E|].
    apply (detector_reconfigures unreachable 0 sample_ensemble _ _ _ _ E). vm_compute. set_solver.
  - match goal with |- ?P ∧ _ => assert (E : P) by (vm_compute; reflexivity) end.
    split; [exact E|].
    apply (detector_reconfigures unreachable 0 sample_ensemble _ _ _ _ E) with
      (o := Throw (RuntimeError "unreachable")); [|reflexivity].
    vm_compute. set_solver.
Defined.
