(* ===== verification/LogWorld.v ===== *)
(** * The log as a whole: processes, replicas and the network

    Everything the programs of [VirtualLog.v] act on, put together from the
    components: replicas with in-memory nanologs, the metadata store,
    sequencers, the registry, virtual logs, and the futures of the appends
    under way.  [handle] is the answer to one call.  [exec] adds what the
    outside may do (any permutation from the shuffle, any successful read from
    [collectAny], failing requests), and [step] interleaves any number of
    programs with the delivery, delay and loss of requests. *)

From stdpp Require Import base gmap list strings relations pretty.
From Stdlib Require Import ZArith Lia.
From S2P Require Import Prelude LogTypes CompletionQueue Futures Metadata NanoLog Replica Program VirtualLog.

Open Scope Z_scope.

Abbreviation Nano := (InMemoryNanoLog nat).
Abbreviation Rep := (ReplicaImpl Nano).

(** Replicas of a process share its metadata store; their factory makes
    in-memory nanologs. *)
#[export] Instance inmemory_factory : NanoLogFactoryOps Metadata.State Nano := {|
  makeNanoLog t id name version start end_ sealed :=
    mret (makeInMemoryNanoLog id name version start end_ sealed);
  generate := mret "uuid"%string |}.

(** A request to append, named by its position in the list of those sent. *)
Record Message := mkMessage {
  m_replica : nat;
  m_gci : option Z;
  m_version : Z;
  m_logId : Z;
  m_payload : string;
  m_skipSeal : bool }.

Record World := mkWorld {
  w_meta : Metadata.State;
  w_replicas : list Rep;
  w_sequencers : list (SequencerKind * SequencerImpl);
  w_registry : RegistryImpl;
  w_vlogs : list VLogState;
  (* the requests sent, and the futures completed, oldest first *)
  w_sent : list Message;
  w_delivered : list nat;
  w_results : list (nat * outcome Z);
  (* history, not read by the programs: which position was taken for which
     payload, the answers of seals, futures completed by a sealed segment *)
  w_assigned : list (Z * string);
  w_seals : list (nat * Z * Z);
  w_late : list nat }.

Section setters.
Implicit Types w : World.
Definition set_meta x w := mkWorld x (w_replicas w) (w_sequencers w) (w_registry w) (w_vlogs w)
  (w_sent w) (w_delivered w) (w_results w) (w_assigned w) (w_seals w) (w_late w).
Definition set_replicas x w := mkWorld (w_meta w) x (w_sequencers w) (w_registry w) (w_vlogs w)
  (w_sent w) (w_delivered w) (w_results w) (w_assigned w) (w_seals w) (w_late w).
Definition set_sequencers x w := mkWorld (w_meta w) (w_replicas w) x (w_registry w) (w_vlogs w)
  (w_sent w) (w_delivered w) (w_results w) (w_assigned w) (w_seals w) (w_late w).
Definition set_vlogs x w := mkWorld (w_meta w) (w_replicas w) (w_sequencers w) (w_registry w) x
  (w_sent w) (w_delivered w) (w_results w) (w_assigned w) (w_seals w) (w_late w).
Definition set_sent x w := mkWorld (w_meta w) (w_replicas w) (w_sequencers w) (w_registry w)
  (w_vlogs w) x (w_delivered w) (w_results w) (w_assigned w) (w_seals w) (w_late w).
Definition set_delivered x w := mkWorld (w_meta w) (w_replicas w) (w_sequencers w) (w_registry w)
  (w_vlogs w) (w_sent w) x (w_results w) (w_assigned w) (w_seals w) (w_late w).
Definition set_results x l w := mkWorld (w_meta w) (w_replicas w) (w_sequencers w) (w_registry w)
  (w_vlogs w) (w_sent w) (w_delivered w) x (w_assigned w) (w_seals w) l.
Definition set_assigned x w := mkWorld (w_meta w) (w_replicas w) (w_sequencers w) (w_registry w)
  (w_vlogs w) (w_sent w) (w_delivered w) (w_results w) x (w_seals w) (w_late w).
Definition set_seals x w := mkWorld (w_meta w) (w_replicas w) (w_sequencers w) (w_registry w)
  (w_vlogs w) (w_sent w) (w_delivered w) (w_results w) (w_assigned w) x (w_late w).
End setters.

(** ** Calls *)

(** A call on a replica, with the metadata store it shares. *)
Definition on_replica {A} (r : nat) (m : M (Rep * Metadata.State) A) : M World A := λ w,
  match w_replicas w !! r with
  | None => (Throw NullPointer, w)
  | Some rep =>
      let '(o, (rep', meta')) := m (rep, w_meta w) in
      (o, set_meta meta' (set_replicas (<[r := rep']> (w_replicas w)) w))
  end.

(** A future is completed once. *)
Definition record_result (rs : list (nat * outcome Z)) (x : nat * outcome Z)
    : list (nat * outcome Z) :=
  if bool_decide (x.1 ∈ rs.*1) then rs else rs ++ [x].

(** Is the segment of a version sealed at a replica? *)
Definition segment_sealed (r : nat) (versionId : Z) (w : World) : bool :=
  match w_replicas w !! r with
  | None => false
  | Some rep => match nanoLogStore_ rep !! versionId with
                | None => false
                | Some n => sealed_ n
                end
  end.

(** The request arrives: the replica handles it, and the futures it completes
    are recorded. *)
Definition deliver (i : nat) (w : World) : World :=
  match w_sent w !! i with
  | None => w
  | Some m =>
      match w_replicas w !! m_replica m with
      | None => w
      | Some rep =>
          let '((f, done), (rep', meta')) :=
            Replica.append i (m_gci m) (m_version m) (m_logId m) (m_payload m) (m_skipSeal m)
              (rep, w_meta w) in
          let own := match f with Ready o => [(i, o)] | Pending _ => [] end in
          let completed := map (λ e : nat * Z, (e.1, Ret e.2)) done ++ own in
          let late := if segment_sealed (m_replica m) (m_version m) w
                      then completed.*1 else [] in
          set_results (foldl record_result (w_results w) completed) (w_late w ++ late)
            (set_delivered (i :: w_delivered w)
              (set_meta meta' (set_replicas (<[m_replica m := rep']> (w_replicas w)) w)))
      end
  end.

(** What the futures of one [anyNSuccessful] have reported so far. *)
Definition index_of (i : nat) (l : list nat) : option nat := fst <$> list_find (eq i) l.
Definition future_events (futures : list nat) (rs : list (nat * outcome Z))
    : list (nat * (exn + ())) :=
  omap (λ x : nat * outcome Z,
    match index_of x.1 futures, x.2 with
    | Some k, Ret _ => Some (k, inr ())
    | Some k, Throw e => Some (k, inl e)
    | _, _ => None
    end) rs.

(** [collectAnyWithoutException] of finished futures: the first success, or
    the last failure. *)
Fixpoint first_success (rs : list (outcome LogEntry)) : outcome LogEntry :=
  match rs with
  | [] => Block
  | [r] => r
  | Ret e :: _ => Ret e
  | _ :: rs' => first_success rs'
  end.

Definition on_sequencer {A} (s : nat) (m : M SequencerImpl A) : M World A := λ w,
  match w_sequencers w !! s with
  | None => (Throw NullPointer, w)
  | Some (k, sq) =>
      let '(o, sq') := m sq in
      (o, set_sequencers (<[s := (k, sq')]> (w_sequencers w)) w)
  end.

Definition on_meta {A} (m : M Metadata.State A) : M World A := zoom w_meta set_meta m.

(** Sending an append request: the future is its name. *)
Definition send (m : Message) : M World nat := λ w,
  (Ret (length (w_sent w)), set_sent (w_sent w ++ [m]) w).

Definition handle (X : Set) (e : log_call X) : M World X :=
  match e with
  | MetaCurrentVersionId => on_meta ms_getCurrentVersionId
  | MetaGetConfig v => on_meta (ms_getConfig v)
  | MetaGetConfigUsingLogId l => on_meta (ms_getConfigUsingLogId l)
  | MetaCompareAndAppend c => on_meta (ms_compareAndAppendRange c)
  | ReplicaAppend r g v l x b => send (mkMessage r g v l x b)
  | ReplicaGetLogEntry r v l => on_replica r (Replica.getLogEntry v l)
  | ReplicaSeal r v =>
      e ← on_replica r (Replica.seal v);
      _ ← modify (λ w, set_seals ((r, v, e) :: w_seals w) w);
      mret e
  | AwaitAnyN fs n => λ w, (anyNSuccessful n (length fs) (future_events fs (w_results w)), w)
  | AwaitAny rs => of_outcome (first_success rs)
  | Shuffle l => mret l
  | SeqKind s => λ w, (match w_sequencers w !! s with
                       | Some (k, _) => Ret k
                       | None => Throw NullPointer
                       end, w)
  | SeqFetchAdd s x =>
      l ← on_sequencer s (λ sq, let '(l, sq') := fetch_add sq in (Ret l, sq'));
      _ ← modify (λ w, set_assigned ((l, x) :: w_assigned w) w);
      mret l
  | SeqLoad s => on_sequencer s (gets sequenceNum_)
  | SeqLoadCommit s => on_sequencer s (gets globalCommitIndex_)
  | SeqRaiseCommit s l => on_sequencer s (modify (raise_commit l))
  | SeqVersion s => on_sequencer s (gets versionId_)
  | SeqReplicas s => on_sequencer s (gets replicaSet_)
  | SeqQuorum s => on_sequencer s (gets quorumSize_)
  | SeqStart s v n => on_sequencer s (modify (seq_start v n))
  | RemoteAppend _ _ | RemoteLatest _ => throw NotImplementedException
  | RegistrySequencer id => gets (λ w, registry_sequencer id (w_registry w))
  | GetState vl => λ w, (match w_vlogs w !! vl with
                         | Some st => Ret st
                         | None => Throw NullPointer
                         end, w)
  | SetState vl st => modify (λ w, set_vlogs (<[vl := st]> (w_vlogs w)) w)
  end.

(** ** Interleavings *)

(** Requests to replicas fail when they or their answers get lost. *)
Definition can_fail {X : Set} (e : log_call X) : bool :=
  match e with
  | ReplicaGetLogEntry _ _ _ | ReplicaSeal _ _ => true
  | _ => false
  end.

(** The answers the outside may choose instead of those of [handle]. *)
Definition choice {X : Set} (e : log_call X) : World → outcome X → World → Prop :=
  match e in log_call Y return World → outcome Y → World → Prop with
  | Shuffle l => λ w o w', w' = w ∧ ∃ l', o = Ret l' ∧ l ≡ₚ l'
  | AwaitAny rs => λ w o w', w' = w ∧ ∃ entry, o = Ret entry ∧ Ret entry ∈ rs
  | _ => λ _ _ _, False
  end.

(** One call: what [handle] answers, or a choice of the outside, or a failure
    with the request or only its answer lost. *)
Definition exec (X : Set) (e : log_call X) (w : World) (o : outcome X) (w' : World) : Prop :=
  (handle X e w = (o, w') ∧ o ≠ Block) ∨
  choice e w o w' ∨
  (can_fail e = true ∧ ∃ err, o = Throw err ∧ (w' = w ∨ ∃ o', handle X e w = (o', w'))).

(** The network: a request arrives at its replica, in any order; a request or
    its answer is lost and the future fails. *)
Inductive network : World → World → Prop :=
  | net_deliver w i :
      (i < length (w_sent w))%nat → i ∉ w_delivered w → network w (deliver i w)
  | net_fail w i err :
      (i < length (w_sent w))%nat →
      network w (set_results (record_result (w_results w) (i, Throw err)) (w_late w) w).

(** All executions: any programs, started at any time. *)
Definition step : World * list thread → World * list thread → Prop :=
  sys_step (λ _, exec) (λ _ _ _, True) network (λ _, True).

(** ** Scripted executions

    [thread_of c] is the program a client of kind [c] runs; a call is made when
    [may_go] says so, and answered by [handle]. *)
Section script.
Context {C : Type} (thread_of : C → @thread log_call).
Context (may_go : ∀ X : Set, log_call X → World → bool).

Inductive action :=
  | Spawn (c : C)
  | Run (i : nat)
  | Deliver (i : nat).

Definition perform_action (a : action) (s : World * list thread) : option (World * list thread) :=
  let '(w, ts) := s in
  match a with
  | Spawn c => Some (w, ts ++ [thread_of c])
  | Run i =>
      match ts !! i with
      | Some (existT A (Call e k)) =>
          if may_go _ e w then
            match handle _ e w with
            | (Block, _) => None
            | (o, w') => Some (w', <[i := (existT A (k o) : thread)]> ts)
            end
          else None
      | _ => None
      end
  | Deliver i =>
      if bool_decide ((i < length (w_sent w))%nat ∧ i ∉ w_delivered w)
      then Some (deliver i w, ts) else None
  end.

Fixpoint perform_actions (l : list action) (s : World * list thread)
    : option (World * list thread) :=
  match l with
  | [] => Some s
  | a :: l' => match perform_action a s with
               | Some s' => perform_actions l' s'
               | None => None
               end
  end.

Context (go : ∀ X : Set, log_call X → World → Prop) (spawn : @thread log_call → Prop).
Context (may_go_go : ∀ (X : Set) (e : log_call X) w, may_go X e w = true → go X e w).
Context (thread_spawn : ∀ c, spawn (thread_of c)).

Lemma perform_action_step a s s' :
  perform_action a s = Some s' → sys_step (λ _, exec) go network spawn s s'.
Proof.
  destruct s as [w ts]. destruct a as [c|i|i]; simpl.
  - intros [= <-]. apply sys_spawn, thread_spawn.
  - destruct (ts !! i) as [[A [o|X e k]]|] eqn:Ei; try done.
    destruct (may_go X e w) eqn:Eg; [|done]. apply may_go_go in Eg.
    destruct (handle X e w) as [o w'] eqn:Eh.
    destruct o; intros [= <-]; eapply sys_call; try done; by left.
  - case_bool_decide as Hi; [|done]. intros [= <-]. apply sys_env. destruct Hi. by apply net_deliver.
Qed.

Lemma perform_actions_reaches w0 l s' :
  perform_actions l (w0, []) = Some s' → reaches (λ _, exec) go network spawn (w0, []) s'.
Proof.
  assert (H : ∀ s, reaches (λ _, exec) go network spawn (w0, []) s → perform_actions l s = Some s' →
    reaches (λ _, exec) go network spawn (w0, []) s').
  { induction l as [|a l IH]; intros s Hs; simpl; [by intros [= <-]|].
    destruct (perform_action a s) as [s1|] eqn:Ea; [|done]. apply IH.
    eapply reaches_step; [done|]. by apply (perform_action_step a). }
  apply H. constructor.
Qed.

(** What a finished script says about the state it ends in. *)
Lemma script_reaches {B} w0 l (f : World * list thread → option B) b :
  perform_actions l (w0, []) ≫= f = Some b →
  ∃ w ts, reaches (λ _, exec) go network spawn (w0, []) (w, ts) ∧ f (w, ts) = Some b ∧
    perform_actions l (w0, []) = Some (w, ts).
Proof.
  intros ([w ts] & E & Hf)%bind_Some. exists w, ts. split_and!; [|done..].
  by apply perform_actions_reaches in E.
Qed.
End script.
Arguments action : clear implicits.
Arguments Run {C} i.
Arguments Deliver {C} i.
