(* ===== verification/LogSafety.v ===== *)
(** * Safety of the log

    Any number of clients append through the sequencer while any number of
    virtual logs reconfigure, on their own or for a failure detector, over a network that delays, reorders and loses
    requests ([LogWorld.v]).  For the time until the first new config is
    installed: every position below the start of the config that is about to be
    installed is stored, with the one payload it was taken for, by a majority
    of the replicas; and a position acknowledged by a majority of segments that
    were not yet sealed is below that start, so that it is not handed out again.

    The proof is rely-guarantee reasoning about the programs of
    [VirtualLog.v]: [inv] is the invariant of the world, [le] what every step
    guarantees. *)

From stdpp Require Import base gmap sets list strings relations pretty.
From Stdlib Require Import ZArith Lia.
From S2P Require Import FailureDetector.
From S2P Require Import Prelude LogTypes CompletionQueue Futures Metadata NanoLog Replica Program VirtualLog LogWorld.

Open Scope Z_scope.

Section safety.
(** The replicas of the ensemble are [0 .. n-1]; [v0] is the version in use and
    [st0] the start of its segment; sequencer 0 serves it. *)
Context (n : nat) (v0 st0 : Z).
Implicit Types w : World.

Definition fresh_segment : Nano :=
  makeInMemoryNanoLog "uuid" "VectorBasedNanoLog" (pretty v0) st0 i64_max false.

(** The segment of the version at replica [r]. *)
Definition segment_of (rep : Rep) : Nano := default fresh_segment (nanoLogStore_ rep !! v0).
Definition seg (r : nat) w : Nano :=
  match w_replicas w !! r with
  | Some rep => segment_of rep
  | None => fresh_segment
  end.
Definition stored (r : nat) (l : Z) w : option string := om_find l (logs_ (seg r w)).
Definition com (r : nat) w : Z := commitIndex (seg r w).

Definition majority (Q : gset nat) : Prop := Q ⊆ set_seq 0 n ∧ (n < 2 * size Q)%nat.

(** Position [l] is stored by a majority. *)
Definition durable (l : Z) w : Prop :=
  ∃ Q, majority Q ∧ ∀ r, r ∈ Q → is_Some (stored r l w).

(** Every position of the segment before [l] is. *)
Definition durable_below (l : Z) w : Prop := ∀ j, st0 ≤ j < l → durable j w.

(** What every step keeps. *)
Record le w w' : Prop := {
  le_sent : w_sent w `prefix_of` w_sent w';
  le_results : ∀ x, x ∈ w_results w → x ∈ w_results w';
  le_assigned : ∀ x, x ∈ w_assigned w → x ∈ w_assigned w';
  le_stored : ∀ r l x, stored r l w = Some x → stored r l w' = Some x;
  le_com : ∀ r, com r w ≤ com r w';
  le_seals : ∀ x, x ∈ w_seals w → x ∈ w_seals w' }.

#[global] Instance le_preorder : PreOrder le.
Proof.
  split.
  - intros w. by split.
  - intros w1 w2 w3 [] []. split; [by etrans|eauto..|intros r; etrans; eauto|eauto].
Qed.

Definition the_sequencer w : SequencerImpl :=
  match w_sequencers w !! 0%nat with
  | Some (_, sq) => sq
  | None => makeSequencerImpl "" [] 0 0 false
  end.

(** What is fixed while the version is in use. *)
Record setup w : Prop := {
  su_version : Metadata.getCurrentVersionId (w_meta w) = v0;
  su_config : ∃ c, Metadata.getConfig v0 (w_meta w) = Some c ∧ start_index c = st0;
  su_replicas : length (w_replicas w) = n;
  su_sequencer : ∃ sq, w_sequencers w !! 0%nat = Some (KImpl, sq) ∧
    versionId_ sq = v0 ∧ replicaSet_ sq = seq 0 n ∧ quorumSize_ sq = (n / 2 + 1)%Z;
  su_vlogs : ∀ vl st, w_vlogs w !! vl = Some st → replicaSet st = seq 0 n;
  (* the newest config is the one that is found from its start on *)
  su_lookup : ∀ l c, st0 ≤ l →
    Metadata.getConfigUsingLogId l (w_meta w) = Some c → version_id c = v0 }.

Record inv w : Prop := {
  i_setup : setup w;
  (* segments *)
  i_log : ∀ r, log_inv (seg r w);
  i_values : ∀ r l x, stored r l w = Some x → (l, x) ∈ w_assigned w;
  i_below : ∀ r l, st0 ≤ l < com r w → is_Some (stored r l w) ∨ durable l w;
  i_waiting : ∀ r k s, (k, s) ∈ promises (completionQueue_ (seg r w)) →
    ∃ m, w_sent w !! promise s = Some m ∧ m_replica m = r ∧ m_logId m = k;
  (* the sequencer *)
  i_payload : ∀ l x y, (l, x) ∈ w_assigned w → (l, y) ∈ w_assigned w → x = y;
  i_range : ∀ l x, (l, x) ∈ w_assigned w → l < sequenceNum_ (the_sequencer w);
  i_commit : durable_below (globalCommitIndex_ (the_sequencer w)) w;
  (* requests *)
  i_sent : ∀ i m, w_sent w !! i = Some m →
    m_version m = v0 ∧ (m_logId m, m_payload m) ∈ w_assigned w ∧
    (∀ g, m_gci m = Some g → durable_below g w);
  (* completed futures *)
  i_once : NoDup (w_results w).*1;
  i_results : ∀ i z, (i, Ret z) ∈ w_results w → ∃ m, w_sent w !! i = Some m ∧
    is_Some (stored (m_replica m) (m_logId m) w) ∧
    (m_skipSeal m = false → m_logId m < com (m_replica m) w);
  (* seals *)
  i_seals : ∀ r e, (r, v0, e) ∈ w_seals w → sealed_ (seg r w) = true ∧ e ≤ com r w;
  i_late : ∀ i z m e, (i, Ret z) ∈ w_results w → w_sent w !! i = Some m →
    m_skipSeal m = false → i ∉ w_late w → (m_replica m, v0, e) ∈ w_seals w → m_logId m < e }.

(** ** Majorities *)

Lemma majority_meet Q1 Q2 : majority Q1 → majority Q2 → ∃ r, r ∈ Q1 ∧ r ∈ Q2.
Proof.
  intros [H1 S1] [H2 S2]. apply (quorum_intersect (set_seq 0 n)); [done..|].
  rewrite size_set_seq. lia.
Qed.

Lemma durable_mono l w w' : le w w' → durable l w → durable l w'.
Proof.
  intros Hle (Q & HQ & Hst). exists Q. split; [done|]. intros r Hr.
  destruct (Hst r Hr) as [x Hx]. exists x. by eapply le_stored.
Qed.

Lemma durable_below_mono l w w' : le w w' → durable_below l w → durable_below l w'.
Proof. intros Hle Hd j Hj. eapply durable_mono; [done|]. by apply Hd. Qed.

(** A majority that has advanced past [l] makes everything up to [l] durable. *)
Lemma durable_of_majority Q l w :
  inv w → majority Q → (∀ r, r ∈ Q → l ≤ com r w) → durable_below l w.
Proof.
  intros Hi HQ Hc j Hj.
  destruct (decide (set_Forall (λ r, is_Some (stored r j w)) Q)) as [Hall|Hn].
  - by exists Q.
  - apply not_set_Forall_Exists in Hn; [|apply _]. destruct Hn as (r & Hr & Hn).
    specialize (Hc r Hr). destruct (i_below w Hi r j) as [?|?]; [lia|done|done].
Qed.
(** ** Calls on a replica, as calls on its segment *)

Lemma segment_of_insert (rep : Rep) n' :
  segment_of (Replica.with_store (<[v0 := n']> (nanoLogStore_ rep)) rep) = n'.
Proof. unfold segment_of. simpl. by rewrite lookup_insert_eq. Qed.

Definition has_config (meta : Metadata.State) : Prop :=
  ∃ c, Metadata.getConfig v0 meta = Some c ∧ start_index c = st0.

Lemma create_segment (rep : Rep) meta c :
  nanoLogStore_ rep !! v0 = None → start_index c = st0 →
  create v0 c (rep, meta) =
    (Ret fresh_segment,
     (Replica.with_store (<[v0 := fresh_segment]> (nanoLogStore_ rep)) rep, meta)).
Proof.
  intros Hn Hst. unfold create, on_env, store, set_store, zoom. mred. simpl.
  unfold store_add. by rewrite Hn, Hst.
Qed.

Lemma config_found (rep : Rep) meta c :
  Metadata.getConfig v0 meta = Some c → config_or_throw v0 (rep, meta) = (Ret c, (rep, meta)).
Proof. intros E. unfold config_or_throw, on_env, zoom. mred. simpl. by rewrite E. Qed.

Lemma replica_append (rep : Rep) meta i g l x b :
  has_config meta →
  ∃ rep', Replica.append i g v0 l x b (rep, meta) =
      ((NanoLog.append i g l x b (segment_of rep)).1, (rep', meta)) ∧
    segment_of rep' = (NanoLog.append i g l x b (segment_of rep)).2.
Proof.
  intros (c & Hc & Hst). unfold Replica.append, lookup_or_create, segment_of.
  rewrite (bind_Ret _ _ _ (nanoLogStore_ rep) (rep, meta)) by done. unfold getNanoLog.
  destruct (nanoLogStore_ rep !! v0) as [n0|] eqn:En; simpl.
  - destruct (NanoLog.append i g l x b n0) as [r n'].
    eexists. split; [done|]. apply segment_of_insert.
  - rewrite (bind_Ret _ _ _ c (rep, meta)) by by apply config_found.
    rewrite (create_segment rep meta c En Hst).
    destruct (NanoLog.append i g l x b fresh_segment) as [r n'].
    eexists. split; [done|]. simpl. by rewrite lookup_insert_eq.
Qed.

Lemma replica_getLogEntry (rep : Rep) (meta : Metadata.State) v l :
  ∃ rep' a, Replica.getLogEntry v l (rep, meta) = (Ret a, (rep', meta)) ∧
    segment_of rep' = segment_of rep ∧
    (v = v0 → ∀ e, a = inl e →
       logId e = l ∧ om_find l (logs_ (segment_of rep)) = Some (payload e)).
Proof.
  unfold Replica.getLogEntry, segment_of.
  rewrite (bind_Ret _ _ _ (nanoLogStore_ rep) (rep, meta)) by done. unfold getNanoLog.
  destruct (nanoLogStore_ rep !! v) as [n0|] eqn:En; simpl.
  - unfold on_nanolog. simpl. unfold NanoLog.getLogEntry.
    assert (Hs : default fresh_segment (<[v := n0]> (nanoLogStore_ rep) !! v0) =
                 default fresh_segment (nanoLogStore_ rep !! v0)) by by rewrite insert_id.
    destruct (om_find l (logs_ n0)) eqn:Ef; eexists _, _; split; try done; (split; [exact Hs|]);
      intros ->; rewrite En; by intros e [= <-].
  - eexists _, _. done.
Qed.

Lemma replica_seal (rep : Rep) (meta : Metadata.State) :
  has_config meta →
  ∃ rep', Replica.seal v0 (rep, meta) = (Ret (commitIndex (segment_of rep)), (rep', meta)) ∧
    segment_of rep' = with_sealed true (segment_of rep).
Proof.
  intros (c & Hc & Hst). unfold Replica.seal, segment_of.
  rewrite (bind_Ret _ _ _ (nanoLogStore_ rep) (rep, meta)) by done. unfold getNanoLog.
  rewrite (bind_Ret _ _ _ c (rep, meta)) by by apply config_found.
  destruct (nanoLogStore_ rep !! v0) as [n0|] eqn:En; simpl.
  - rewrite (bind_Ret _ _ _ (Some n0) (rep, meta)) by done.
    eexists. split; [done|]. simpl. by rewrite lookup_insert_eq.
  - pose proof (create_segment rep meta c En Hst) as Ecr.
    erewrite bind_Ret.
    2: { erewrite bind_Ret by exact Ecr. unfold store, gets, mbind, M_bind. simpl.
         by rewrite lookup_insert_eq. }
    eexists. split; [done|]. simpl. by rewrite lookup_insert_eq.
Qed.

(** ** The effect of an append on a segment *)

(** The futures an append completes, with their outcomes. *)
Definition completions (i : nat) (a : future nat * list (nat * Z)) : list (nat * outcome Z) :=
  map (λ e : nat * Z, (e.1, Ret e.2)) a.2 ++
  match a.1 with Ready o => [(i, o)] | Pending _ => [] end.

Record append_effect (i : nat) g l x b (s s' : Nano) (done : list (nat * outcome Z)) : Prop := {
  ae_inv : log_inv s';
  ae_sealed : sealed_ s' = sealed_ s;
  ae_extend : logs_extend s s';
  ae_com : commitIndex s ≤ commitIndex s';
  ae_new : ∀ k y, om_find k (logs_ s') = Some y → om_find k (logs_ s) = Some y ∨ (k = l ∧ y = x);
  ae_waiting : ∀ k e, (k, e) ∈ promises (completionQueue_ s') →
    (k, e) ∈ promises (completionQueue_ s) ∨ (k = l ∧ promise e = i);
  ae_below : ∀ k, commitIndex s ≤ k < commitIndex s' →
    is_Some (om_find k (logs_ s')) ∨ ∃ g', g = Some g' ∧ k < g';
  ae_done : ∀ j z, (j, Ret z) ∈ done →
    (j = i ∧ b = true ∧ is_Some (om_find l (logs_ s'))) ∨
    ∃ k, k < commitIndex s' ∧ is_Some (om_find k (logs_ s')) ∧
      ((j = i ∧ k = l) ∨ ∃ e, (k, e) ∈ promises (completionQueue_ s) ∧ promise e = j) }.

Lemma elem_om_set {V} k v (m : ordmap Z V) e : e ∈ om_set k v m → e ∈ m ∨ e = (k, v).
Proof.
  revert e. apply Forall_forall. apply Forall_om_set; [by right|].
  apply Forall_forall. by left.
Qed.

Lemma append_effect_holds i g l x b s :
  log_inv s →
  let a := NanoLog.append i g l x b s in
  append_effect i g l x b s a.2 (completions i a.1).
Proof.
  intros Hi a. destruct a as [[f done] s'] eqn:E. subst a. simpl.
  pose proof (append_same_identity i g l x b s) as [Hse _]. rewrite E in Hse.
  destruct (append_cases i g l x b s f done s' Hi E)
    as [(-> & Hs & -> & -> & ->)|[(Ho & -> & -> & ->)
       |(_ & Hf & -> & q' & l1 & -> & Hq & -> & Hle & Hg & Hlt & Hrange)]].
  - split; [done|done|by intros ?|lia|by left|by left|lia|].
    intros j z. unfold completions. simpl. by intros [= ]%list_elem_of_singleton.
  - split; [done|done|by intros ?|lia|by left|by left|lia|].
    intros j z. unfold completions. simpl. intros Hin%list_elem_of_singleton.
    left. destruct b; by simplify_eq.
  - pose proof (waiting_of_queue i l x s l1 q' Hi Hq) as Hw.
    assert (Hsplit : ∀ k e, (k, e) ∈ l1 ∨ (k, e) ∈ promises q' →
      (k, e) ∈ promises (completionQueue_ s) ∨ (k = l ∧ promise e = i)).
    { intros k e Hin. assert ((k, e) ∈ l1 ++ promises q') as Hin' by by apply elem_of_app.
      rewrite <- Hq in Hin'. apply elem_om_set in Hin' as [|[= -> ->]]; auto. }
    split; try done.
    + by eapply append_inv.
    + by eapply append_extends.
    + intros k y. simpl. rewrite om_find_set. case_decide; [|by left].
      intros [= <-]. by right.
    + intros k e Hin. apply Hsplit. by right.
    + intros k Hk. destruct (Hrange k Hk) as [Hin|Hgk]; [left|by right].
      apply list_elem_of_fmap in Hin as ([k' e] & -> & Hin).
      by apply (Hw k' e); left.
    + intros j z. unfold completions. simpl. rewrite app_nil_r.
      intros Hin. apply list_elem_of_fmap in Hin as ([p r] & [= <- <-] & Hin).
      apply list_elem_of_fmap in Hin as ([k e] & [= -> ->] & Hin). right. exists k.
      destruct (Hw k e (or_introl Hin)) as [_ Hst].
      split_and!; [by apply Hlt, (list_elem_of_fmap_2 fst _ (k, e))|done|].
      destruct (Hsplit k e (or_introl Hin)) as [|[-> Hp]]; [right|left]; eauto.
Qed.

(** ** A request is delivered *)

Lemma record_old rs d x : x ∈ rs → x ∈ foldl record_result rs d.
Proof.
  revert rs. induction d as [|y d IH]; intros rs Hx; simpl; [done|]. apply IH.
  unfold record_result. case_bool_decide; [done|]. apply elem_of_app. by left.
Qed.

Lemma record_new rs d x :
  x ∈ foldl record_result rs d → x ∈ rs ∨ (x ∈ d ∧ x.1 ∉ rs.*1).
Proof.
  revert rs. induction d as [|y d IH]; intros rs Hx; simpl in *; [by left|].
  apply IH in Hx as [Hx|[Hx Hn]]; unfold record_result in *; case_bool_decide as Hy.
  - by left.
  - apply elem_of_app in Hx as [| ->%list_elem_of_singleton]; [by left|].
    right. split; [left|done].
  - right. split; [by right|done].
  - right. split; [by right|]. intros Hin. apply Hn. rewrite fmap_app, elem_of_app. by left.
Qed.

Lemma record_once rs d : NoDup rs.*1 → NoDup (foldl record_result rs d).*1.
Proof.
  revert rs. induction d as [|y d IH]; intros rs Hn; simpl; [done|]. apply IH.
  unfold record_result. case_bool_decide as Hy; [done|]. rewrite fmap_app.
  apply NoDup_app. split_and!; [done| |apply NoDup_singleton].
  intros z Hz ->%list_elem_of_singleton. done.
Qed.

Lemma seg_insert w w2 r0 rep rep' r :
  w_replicas w !! r0 = Some rep → w_replicas w2 = <[r0 := rep']> (w_replicas w) →
  seg r w2 = if decide (r = r0) then segment_of rep' else seg r w.
Proof.
  intros Hr E. unfold seg. rewrite E. case_decide as Er; [subst|].
  - by rewrite list_lookup_insert_eq by by eapply lookup_lt_Some.
  - by rewrite list_lookup_insert_ne.
Qed.

Lemma segment_sealed_seg r w : segment_sealed r v0 w = sealed_ (seg r w).
Proof.
  unfold segment_sealed, seg, segment_of. destruct (w_replicas w !! r) as [rep|]; [|done].
  by destruct (nanoLogStore_ rep !! v0).
Qed.

Lemma deliver_spec i m w rep :
  setup w → w_sent w !! i = Some m → m_version m = v0 →
  w_replicas w !! m_replica m = Some rep →
  let a := NanoLog.append i (m_gci m) (m_logId m) (m_payload m) (m_skipSeal m)
             (seg (m_replica m) w) in
  ∃ rep', segment_of rep' = a.2 ∧
    deliver i w =
      set_results (foldl record_result (w_results w) (completions i a.1))
        (w_late w ++ (if sealed_ (seg (m_replica m) w) then (completions i a.1).*1 else []))
        (set_delivered (i :: w_delivered w)
          (set_replicas (<[m_replica m := rep']> (w_replicas w)) w)).
Proof.
  intros Hsu Hm Hv Hrep a. assert (Hseg : seg (m_replica m) w = segment_of rep).
  { unfold seg. by rewrite Hrep. }
  destruct (replica_append rep (w_meta w) i (m_gci m) (m_logId m) (m_payload m) (m_skipSeal m)
    (su_config w Hsu)) as (rep' & E & Hs).
  unfold deliver. rewrite Hm, Hrep, Hv, E. subst a. rewrite Hseg.
  destruct (NanoLog.append i _ _ _ _ (segment_of rep)) as [[f done] s']. simpl.
  exists rep'. split; [done|]. rewrite segment_sealed_seg, Hseg. done.
Qed.

(** [stored] and [com] after the segment of one replica was replaced. *)
Definition grown (s s' : Nano) : Prop := logs_extend s s' ∧ commitIndex s ≤ commitIndex s'.

Lemma le_grown w w2 r0 rep rep' :
  w_replicas w !! r0 = Some rep → w_replicas w2 = <[r0 := rep']> (w_replicas w) →
  grown (seg r0 w) (segment_of rep') →
  w_sent w2 = w_sent w → (∀ x, x ∈ w_results w → x ∈ w_results w2) →
  w_assigned w2 = w_assigned w → (∀ x, x ∈ w_seals w → x ∈ w_seals w2) →
  le w w2.
Proof.
  intros Hr E [Hx Hc] Hs Hres Ha Hsl.
  assert (Hseg := seg_insert w w2 r0 rep rep'). split; rewrite ?Hs, ?Ha; try done.
  - intros r l x. unfold stored. rewrite (Hseg r) by done.
    case_decide; [subst; apply Hx|done].
  - intros r. unfold com. rewrite (Hseg r) by done. case_decide; [by subst|lia].
Qed.

Lemma setup_replicas w w2 r0 rep' :
  setup w → w_meta w2 = w_meta w → w_replicas w2 = <[r0 := rep']> (w_replicas w) →
  w_sequencers w2 = w_sequencers w → w_vlogs w2 = w_vlogs w → setup w2.
Proof.
  intros [] Hm Hr Hs Hv. split; rewrite ?Hm, ?Hr, ?Hs, ?Hv; try done.
  by rewrite length_insert.
Qed.

Lemma deliver_inv i w :
  inv w → (i < length (w_sent w))%nat → inv (deliver i w) ∧ le w (deliver i w).
Proof.
  intros Hi Hlt. apply lookup_lt_is_Some in Hlt as [m Hm].
  destruct (i_sent w Hi i m Hm) as (Hv & Hval & Hg).
  destruct (w_replicas w !! m_replica m) as [rep|] eqn:Hrep.
  2: { unfold deliver. by rewrite Hm, Hrep. }
  destruct (deliver_spec i m w rep (i_setup w Hi) Hm Hv Hrep) as (rep' & Hs' & E).
  pose proof (append_effect_holds i (m_gci m) (m_logId m) (m_payload m) (m_skipSeal m)
    (seg (m_replica m) w) (i_log w Hi _)) as Hae. cbv zeta in Hae, E.
  set (a := NanoLog.append i _ _ _ _ _) in *. set (done := completions i a.1) in *.
  set (w2 := deliver i w) in *. clearbody w2 a done. destruct Hae. rewrite <- Hs' in *.
  assert (Er : w_replicas w2 = <[m_replica m := rep']> (w_replicas w)) by by rewrite E.
  pose proof (λ r, seg_insert w w2 (m_replica m) rep rep' r Hrep Er) as Hseg.
  assert (Hle : le w w2).
  { eapply le_grown; try done; rewrite ?E; try done. intros x Hx. simpl. by apply record_old. }
  assert (Hsent : w_sent w2 = w_sent w) by by rewrite E.
  assert (Hass : w_assigned w2 = w_assigned w) by by rewrite E.
  assert (Hseals : w_seals w2 = w_seals w) by by rewrite E.
  assert (Hsq : the_sequencer w2 = the_sequencer w) by by rewrite E.
  assert (Hmsg : ∀ j z, (j, Ret z) ∈ done → ∃ m', w_sent w !! j = Some m' ∧
    m_replica m' = m_replica m ∧ is_Some (om_find (m_logId m') (logs_ (segment_of rep'))) ∧
    (m_skipSeal m' = false → m_logId m' < commitIndex (segment_of rep'))).
  { intros j z [(-> & Hb & Hst)|(k & Hk & Hst & [[-> ->]|(e & Hin & <-)])]%ae_done0.
    - exists m. rewrite Hb. by split_and!.
    - exists m. by split_and!.
    - destruct (i_waiting w Hi _ _ _ Hin) as (m' & Hm' & <- & <-). by exists m'. }
  split; [|done]. split; rewrite ?Hsent, ?Hass, ?Hseals, ?Hsq.
  - eapply setup_replicas; [apply Hi|by rewrite E..].
  - intros r. rewrite Hseg. case_decide; [done|apply Hi].
  - intros r l x. unfold stored. rewrite Hseg. case_decide; [subst|by apply Hi].
    intros [Hx|[-> ->]]%ae_new0; [by apply (i_values w Hi (m_replica m))|done].
  - intros r l. unfold stored, com. rewrite Hseg. case_decide as Er0; [subst r|].
    + intros Hl. destruct (decide (l < com (m_replica m) w)) as [Hc|Hc].
      * destruct (i_below w Hi (m_replica m) l) as [[x Hx]|Hd]; [lia| |].
        { left. exists x. by apply ae_extend0. }
        { right. by eapply durable_mono. }
      * destruct (ae_below0 l) as [?|(g & Eg & Hlg)]; [unfold com in Hc; lia|by left|].
        right. eapply durable_mono; [done|]. by apply (Hg g Eg); lia.
    + intros Hl. destruct (i_below w Hi r l Hl) as [?|?]; [by left|right].
      by eapply durable_mono.
  - intros r k s. rewrite Hseg. case_decide; [subst r|by apply Hi].
    intros [Hin|[-> Hp]]%ae_waiting0; [by apply (i_waiting w Hi)|].
    exists m. by rewrite Hp.
  - apply Hi.
  - apply Hi.
  - eapply durable_below_mono; [done|]. apply Hi.
  - intros j m' Hj. destruct (i_sent w Hi j m' Hj) as (? & ? & Hg').
    split_and!; [done..|]. intros g Eg. eapply durable_below_mono; [done|]. by apply Hg'.
  - rewrite E. simpl. apply record_once, Hi.
  - intros j z Hj. rewrite E in Hj. simpl in Hj. apply record_new in Hj as [Hj|[Hj _]].
    + destruct (i_results w Hi j z Hj) as (m' & Hm' & [x Hx] & Hc). exists m'.
      split_and!; [done|exists x; by apply (le_stored w w2 Hle)|].
      intros Hb. pose proof (le_com w w2 Hle (m_replica m')). specialize (Hc Hb). lia.
    + destruct (Hmsg j z Hj) as (m' & Hm' & Er0 & Hst & Hc). exists m'.
      unfold stored, com. rewrite Hseg, decide_True by done. done.
  - intros r e Hin. destruct (i_seals w Hi r e Hin) as [Hs He].
    pose proof (le_com w w2 Hle r). split; [|lia]. rewrite Hseg.
    case_decide; [subst; by rewrite ae_sealed0|done].
  - intros j z m' e Hj Hm' Hb Hnl Hin. rewrite E in Hj, Hnl. simpl in Hj, Hnl.
    rewrite not_elem_of_app in Hnl. destruct Hnl as [Hnl Hnl'].
    apply record_new in Hj as [Hj|[Hj _]]; [by eapply (i_late w Hi)|].
    destruct (Hmsg j z Hj) as (m2 & Hm2 & Er0 & _ & _). rewrite Hm' in Hm2. simplify_eq.
    destruct (i_seals w Hi _ _ Hin) as [Hs _]. rewrite Er0 in Hs. rewrite Hs in Hnl'.
    destruct Hnl'. by apply (list_elem_of_fmap_2 fst _ (j, Ret z)).
Qed.

(** ** The other moves of the world *)

(** A change of everything else but replicas and histories. *)
Lemma inv_frame w w2 :
  inv w → setup w2 → w_replicas w2 = w_replicas w → w_sent w2 = w_sent w →
  w_assigned w2 = w_assigned w → w_seals w2 = w_seals w →
  (∀ i, i ∈ w_late w → i ∈ w_late w2) →
  (∀ x, x ∈ w_results w → x ∈ w_results w2) →
  (∀ i z, (i, Ret z) ∈ w_results w2 → (i, Ret z) ∈ w_results w) →
  NoDup (w_results w2).*1 →
  sequenceNum_ (the_sequencer w) ≤ sequenceNum_ (the_sequencer w2) →
  durable_below (globalCommitIndex_ (the_sequencer w2)) w →
  inv w2 ∧ le w w2.
Proof.
  intros Hi Hsu Hr Hs Ha Hse Hl Hold Hnew Hnd Hsq Hg.
  assert (Hseg : ∀ r, seg r w2 = seg r w) by (intros r; unfold seg; by rewrite Hr).
  assert (Hle : le w w2).
  { split; rewrite ?Hs, ?Ha, ?Hse; try done; intros r; intros; unfold stored, com in *;
      by rewrite Hseg. }
  assert (Hdur : ∀ l, durable l w → durable l w2) by (intros l; by apply durable_mono).
  assert (Hdb : ∀ l, durable_below l w → durable_below l w2)
    by (intros l; by apply durable_below_mono).
  split; [|done].
  split; rewrite ?Hs, ?Ha, ?Hse; unfold stored, com in *; try done.
  - intros r. rewrite Hseg. apply Hi.
  - intros r l x. rewrite Hseg. by apply (i_values w Hi).
  - intros r l. rewrite Hseg. intros Hc. destruct (i_below w Hi r l Hc); auto.
  - intros r k s. rewrite Hseg. by apply (i_waiting w Hi).
  - apply Hi.
  - intros l x Hlx. pose proof (i_range w Hi l x Hlx). lia.
  - by apply Hdb.
  - intros i m Hm. destruct (i_sent w Hi i m Hm) as (? & ? & Hg'). split_and!; [done..|].
    intros g Eg. by apply Hdb, Hg'.
  - intros i z Hz. destruct (i_results w Hi i z (Hnew i z Hz)) as (m & ? & ? & ?).
    exists m. rewrite !Hseg. by split_and!.
  - intros r e He. rewrite Hseg. by apply (i_seals w Hi).
  - intros i z m e Hz Hm Hb Hn. apply (i_late w Hi i z m e); [by apply Hnew|done..|].
    intros Hin. apply Hn. by apply Hl.
Qed.

Lemma network_inv w w2 : inv w → network w w2 → inv w2 ∧ le w w2.
Proof.
  intros Hi Hn. destruct Hn as [w i Hlt _|w i err Hlt]; [by apply deliver_inv|].
  assert (Hnd := record_once (w_results w) [(i, Throw err)] (i_once w Hi)).
  apply inv_frame; try done; simpl in *.
  - destruct (i_setup w Hi). by split.
  - intros x Hx. by apply (record_old _ [(i, Throw err)]).
  - intros j z Hj. apply (record_new _ [(i, Throw err)]) in Hj as [?|[Hj _]]; [done|].
    by apply list_elem_of_singleton in Hj.
  - apply Hi.
Qed.

(** Sending a request for an assigned position. *)
Lemma send_inv w m :
  inv w → m_version m = v0 → (m_logId m, m_payload m) ∈ w_assigned w →
  (∀ g, m_gci m = Some g → durable_below g w) →
  inv (set_sent (w_sent w ++ [m]) w) ∧ le w (set_sent (w_sent w ++ [m]) w).
Proof.
  intros Hi Hv Ha Hg. assert (Hle : le w (set_sent (w_sent w ++ [m]) w)).
  { split; try done. simpl. by apply prefix_app_r. }
  assert (Hl : ∀ i m', w_sent w !! i = Some m' → (w_sent w ++ [m]) !! i = Some m').
  { intros i m' Hm. by apply lookup_app_l_Some. }
  assert (Hlt : ∀ i z, (i, Ret z) ∈ w_results w → ∀ m', (w_sent w ++ [m]) !! i = Some m' →
    w_sent w !! i = Some m').
  { intros i z Hz m' Hm. destruct (i_results w Hi i z Hz) as (m2 & Hm2 & _).
    rewrite (Hl _ _ Hm2) in Hm. by simplify_eq. }
  split; [|done]. split; simpl; try apply Hi.
  - destruct (i_setup w Hi). by split.
  - intros r k s Hin. destruct (i_waiting w Hi r k s Hin) as (m' & ? & ? & ?). exists m'. auto.
  - intros i m' Hm. apply lookup_snoc_Some in Hm as [[_ Hm]|[_ <-]]; [|done].
    by apply (i_sent w Hi i m').
  - intros i z Hz. destruct (i_results w Hi i z Hz) as (m' & ? & ? & ?). exists m'. auto.
  - intros i z m' e Hz Hm. eapply (i_late w Hi); [done|by eapply Hlt].
Qed.

(** ** The calls *)

(** A call that [handle] answers as described, and nothing else can. *)
Lemma exec_only {X : Set} (e : log_call X) w o w' :
  can_fail e = false → (∀ w o w', ¬ choice e w o w') →
  exec X e w o w' → handle X e w = (o, w').
Proof. intros Hf Hc [[? _]|[?|[? _]]]; [done|exfalso; by eapply Hc|congruence]. Qed.

(** A call that may fail: its state change is that of [handle] or none. *)
Lemma exec_fails {X : Set} (e : log_call X) w o w' :
  (∀ w o w', ¬ choice e w o w') →
  exec X e w o w' →
  handle X e w = (o, w') ∨
  ∃ err, o = Throw err ∧ (w' = w ∨ ∃ o', handle X e w = (o', w')).
Proof. intros Hc [[? _]|[?|[? ?]]]; [by left|exfalso; by eapply Hc|by right]. Qed.

(** Only a segment's identity may change: reads. *)
Lemma getLogEntry_inv w r v l o w' :
  inv w → handle _ (ReplicaGetLogEntry r v l) w = (o, w') →
  inv w' ∧ le w w' ∧
  (v = v0 → ∀ e, o = Ret (inl e) → logId e = l ∧ (l, payload e) ∈ w_assigned w').
Proof.
  intros Hi. simpl. unfold on_replica. destruct (w_replicas w !! r) as [rep|] eqn:Hr.
  2: { by intros [= <- <-]. }
  destruct (replica_getLogEntry rep (w_meta w) v l) as (rep' & a & -> & Hs & Ha).
  intros [= <- <-]. set (w2 := set_meta _ _).
  assert (Hseg : ∀ r', seg r' w2 = seg r' w).
  { intros r'. rewrite (seg_insert w w2 r rep rep') by done. case_decide; [subst|done].
    rewrite Hs. unfold seg. by rewrite Hr. }
  assert (Hle : le w w2).
  { split; try done; intros; unfold stored, com in *; by rewrite Hseg. }
  assert (Hdb : ∀ l, durable_below l w → durable_below l w2)
    by (intros l'; by apply durable_below_mono).
  split_and!; [|done|].
  - split; unfold stored, com; simpl; try apply Hi.
    + by eapply (setup_replicas w); [apply Hi|..].
    + intros r'. rewrite Hseg. apply Hi.
    + intros r' l' x. rewrite Hseg. by apply (i_values w Hi).
    + intros r' l'. rewrite Hseg. intros Hc. destruct (i_below w Hi r' l' Hc); [by left|right].
      by eapply durable_mono.
    + intros r' k s. rewrite Hseg. by apply (i_waiting w Hi).
    + by apply Hdb, Hi.
    + intros i m Hm. destruct (i_sent w Hi i m Hm) as (? & ? & Hg). split_and!; [done..|].
      intros g Eg. by apply Hdb, Hg.
    + intros i z Hz. destruct (i_results w Hi i z Hz) as (m & ? & ? & ?).
      exists m. rewrite !Hseg. by split_and!.
    + intros r' e He. rewrite Hseg. by apply (i_seals w Hi).
  - intros Hv e [= ->]. destruct (Ha Hv e eq_refl) as [<- Hx]. split; [done|].
    apply (i_values w Hi r). unfold stored, seg. by rewrite Hr.
Qed.

Lemma seal_call_inv w r o w' :
  inv w → handle _ (ReplicaSeal r v0) w = (o, w') →
  inv w' ∧ le w w' ∧ ∀ e, o = Ret e → (r, v0, e) ∈ w_seals w'.
Proof.
  intros Hi. simpl. unfold mbind, M_bind, on_replica.
  destruct (w_replicas w !! r) as [rep|] eqn:Hr.
  2: { by intros [= <- <-]. }
  destruct (replica_seal rep (w_meta w) (su_config w (i_setup w Hi))) as (rep' & -> & Hs).
  unfold modify, mret, M_ret. intros [= <- <-]. simpl.
  assert (Ereg : seg r w = segment_of rep) by (unfold seg; by rewrite Hr).
  rewrite <- Ereg in *. set (w2 := set_seals _ _).
  assert (Hseg : ∀ r', seg r' w2 = if decide (r' = r) then with_sealed true (seg r w) else seg r' w).
  { intros r'. rewrite (seg_insert w w2 r rep rep') by done. by rewrite Hs. }
  assert (Hfields : ∀ r', logs_ (seg r' w2) = logs_ (seg r' w) ∧
    completionQueue_ (seg r' w2) = completionQueue_ (seg r' w)).
  { intros r'. rewrite Hseg. case_decide; by subst. }
  assert (Hst : ∀ r' l, stored r' l w2 = stored r' l w).
  { intros r' l. unfold stored. by rewrite (proj1 (Hfields r')). }
  assert (Hcom : ∀ r', com r' w2 = com r' w).
  { intros r'. unfold com, commitIndex. by rewrite (proj2 (Hfields r')). }
  assert (Hle : le w w2).
  { split; try done; intros; rewrite ?Hst, ?Hcom; try done. simpl. by right. }
  assert (Hdb : ∀ l, durable_below l w → durable_below l w2)
    by (intros l'; by apply durable_below_mono).
  split_and!; [|done|].
  - split; try apply Hi.
    + by eapply (setup_replicas w); [apply Hi|..].
    + intros r'. destruct (i_log w Hi r') as [? ? ?], (Hfields r') as [E1 E2].
      split; by rewrite ?E1, ?E2.
    + intros r' l' x. rewrite Hst. by apply (i_values w Hi).
    + intros r' l'. rewrite Hst, Hcom. intros Hc.
      destruct (i_below w Hi r' l' Hc); [by left|right]. by eapply durable_mono.
    + intros r' k s. rewrite (proj2 (Hfields r')). by apply (i_waiting w Hi).
    + by apply Hdb, Hi.
    + intros i m Hm. destruct (i_sent w Hi i m Hm) as (? & ? & Hg). split_and!; [done..|].
      intros g Eg. by apply Hdb, Hg.
    + intros i z Hz. destruct (i_results w Hi i z Hz) as (m & ? & ? & ?).
      exists m. rewrite Hst, Hcom. by split_and!.
    + intros r' e He. rewrite Hcom, Hseg. simpl in He.
      apply elem_of_cons in He as [[= -> ->]|He].
      * rewrite decide_True by done. split; [done|]. unfold com. lia.
      * destruct (i_seals w Hi r' e He). by case_decide.
    + intros i z m e Hz Hm Hb Hn He. simpl in *.
      apply elem_of_cons in He as [[= <- ->]|He]; [|by eapply (i_late w Hi)].
      destruct (i_results w Hi i z Hz) as (m' & Hm' & _ & Hc). rewrite Hm in Hm'. simplify_eq.
      by apply Hc.
  - intros e [= <-]. simpl. left.
Qed.

(** The calls on the sequencer. *)
Definition no_wrap w : Prop := i64_min ≤ sequenceNum_ (the_sequencer w) < i64_max.

Lemma sequencer_0 w sq : w_sequencers w !! 0%nat = Some (KImpl, sq) → the_sequencer w = sq.
Proof. intros E. unfold the_sequencer. by rewrite E. Qed.

Lemma on_sequencer_0 {A} (f : M SequencerImpl A) w :
  setup w →
  on_sequencer 0 f w =
    (let '(o, sq') := f (the_sequencer w) in
     (o, set_sequencers (<[0%nat := (KImpl, sq')]> (w_sequencers w)) w)).
Proof.
  intros Hsu. destruct (su_sequencer w Hsu) as (sq & E & _). unfold on_sequencer.
  by rewrite E, (sequencer_0 w sq E).
Qed.

Lemma setup_sequencer w sq' :
  setup w → versionId_ sq' = versionId_ (the_sequencer w) →
  replicaSet_ sq' = replicaSet_ (the_sequencer w) →
  quorumSize_ sq' = quorumSize_ (the_sequencer w) →
  let w' := set_sequencers (<[0%nat := (KImpl, sq')]> (w_sequencers w)) w in
  setup w' ∧ the_sequencer w' = sq'.
Proof.
  intros Hsu Hv Hr Hq w'. destruct (su_sequencer w Hsu) as (sq & E & Es).
  rewrite (sequencer_0 w sq E) in *.
  assert (E' : w_sequencers w' !! 0%nat = Some (KImpl, sq')).
  { simpl. apply list_lookup_insert_eq. by eapply lookup_lt_Some. }
  split; [|by apply sequencer_0]. destruct Hsu as [? ? ? _ ? ?]. split; try done.
  exists sq'. split; [done|]. by rewrite Hv, Hr, Hq.
Qed.

(** Reading a field of the sequencer. *)
Lemma seq_read {A} (f : SequencerImpl → A) w o w' :
  inv w → on_sequencer 0 (gets f) w = (o, w') →
  inv w' ∧ le w w' ∧ o = Ret (f (the_sequencer w)) ∧ w' = w.
Proof.
  intros Hi. rewrite on_sequencer_0 by apply Hi. unfold gets. intros [= <- <-].
  destruct (su_sequencer w (i_setup w Hi)) as (sq & E & _). rewrite (sequencer_0 w sq E).
  rewrite list_insert_id by done. by destruct w.
Qed.

Lemma fetch_add_inv w x o w' :
  inv w → no_wrap w → handle _ (SeqFetchAdd 0 x) w = (o, w') →
  inv w' ∧ le w w' ∧ ∀ l, o = Ret l → (l, x) ∈ w_assigned w'.
Proof.
  intros Hi Hnw. simpl. unfold mbind, M_bind. rewrite on_sequencer_0 by apply Hi.
  unfold fetch_add, modify, mret, M_ret. simpl. intros [= <- <-]. unfold no_wrap in Hnw.
  set (l := sequenceNum_ (the_sequencer w)) in *.
  rewrite wrap64_id by (apply in_i64_spec; lia). set (sq' := mkSequencerImpl _ _ _ _ _ _ _).
  destruct (setup_sequencer w sq') as [Hsu Hsq]; [apply Hi|done..|].
  set (w2 := set_assigned _ _).
  assert (Hle : le w w2) by (split; try done; simpl; by right).
  assert (Hdb : ∀ l, durable_below l w → durable_below l w2)
    by (intros l'; by apply durable_below_mono).
  assert (Hsq2 : the_sequencer w2 = sq') by exact Hsq.
  split_and!; [|done|intros ? [= <-]; left].
  destruct Hi. split; try done; rewrite ?Hsq2; simpl.
  - destruct Hsu. by split.
  - intros r l' y Hy. right. by apply (i_values0 r).
  - intros l' y z [[= E1 E2]|Hy]%elem_of_cons [[= E3 E4]|Hz]%elem_of_cons.
    + congruence.
    + pose proof (i_range0 _ _ Hz). lia.
    + pose proof (i_range0 _ _ Hy). lia.
    + by eapply i_payload0.
  - intros l' y [[= -> ->]|Hy]%elem_of_cons; [lia|]. pose proof (i_range0 _ _ Hy). lia.
  - by apply Hdb.
  - intros i m Hm. destruct (i_sent0 i m Hm) as (? & ? & Hg). split_and!; [done|by right|].
    intros g Eg. by apply Hdb, Hg.
Qed.

Lemma raise_commit_inv w l o w' :
  inv w → durable_below l w → handle _ (SeqRaiseCommit 0 l) w = (o, w') →
  inv w' ∧ le w w'.
Proof.
  intros Hi Hl. simpl. rewrite on_sequencer_0 by apply Hi. unfold modify. intros [= <- <-].
  set (sq' := raise_commit l (the_sequencer w)).
  assert (Hsame : versionId_ sq' = versionId_ (the_sequencer w) ∧
    replicaSet_ sq' = replicaSet_ (the_sequencer w) ∧
    quorumSize_ sq' = quorumSize_ (the_sequencer w) ∧
    sequenceNum_ sq' = sequenceNum_ (the_sequencer w) ∧
    durable_below (globalCommitIndex_ sq') w).
  { subst sq'. unfold raise_commit. destruct (_ <? _); split_and!; try done. apply Hi. }
  destruct Hsame as (? & ? & ? & Hn & Hd).
  destruct (setup_sequencer w sq') as [Hsu Hsq]; [apply Hi|done..|].
  apply inv_frame; try done; [apply Hi|by rewrite Hsq, Hn|by rewrite Hsq].
Qed.

(** ** Quorums of futures *)

Lemma index_of_Some i fs k : index_of i fs = Some k → fs !! k = Some i.
Proof.
  unfold index_of. intros E. destruct (list_find (eq i) fs) as [[k' i']|] eqn:El; [|done].
  simpl in E. simplify_eq. apply list_find_Some in El as (Hl & -> & _). done.
Qed.

(** The positions of the futures that have succeeded. *)
Definition succeeded_at (fs : list nat) (rs : list (nat * outcome Z)) : list nat :=
  omap (λ x : nat * outcome Z, match x.2 with Ret _ => index_of x.1 fs | _ => None end) rs.

Lemma succeeded_at_length fs rs :
  length (succeeded_at fs rs) = successes (future_events fs rs).
Proof.
  unfold succeeded_at, successes, future_events.
  induction rs as [|[i o] rs IH]; simpl; [done|].
  destruct (index_of i fs), o; simpl; rewrite ?filter_cons; simpl; auto.
Qed.

Lemma succeeded_at_elem fs rs k :
  k ∈ succeeded_at fs rs → ∃ i z, fs !! k = Some i ∧ (i, Ret z) ∈ rs.
Proof.
  unfold succeeded_at. rewrite list_elem_of_omap. intros ([i [z| |]] & Hin & E); try done.
  simpl in E. exists i, z. split; [by apply index_of_Some|done].
Qed.

Lemma succeeded_at_NoDup fs rs : NoDup rs.*1 → NoDup (succeeded_at fs rs).
Proof.
  induction rs as [|[i o] rs IH]; simpl; [constructor|]. intros [Hi Hrs]%NoDup_cons.
  destruct o; simpl; [|by auto..]. destruct (index_of i fs) as [k|] eqn:E; [|by auto].
  apply NoDup_cons. split; [|by auto]. intros Hk. apply succeeded_at_elem in Hk as (j & z & Hj & Hin).
  apply index_of_Some in E. simplify_eq. apply Hi. by apply (list_elem_of_fmap_2 fst _ (i, Ret z)).
Qed.

(** When [anyNSuccessful] over a request to each replica succeeds, a majority
    of the requests has. *)
Lemma quorum_reached fs rs :
  NoDup rs.*1 → length fs = n →
  anyNSuccessful (n / 2 + 1) (length fs) (future_events fs rs) = Ret () →
  ∃ Q, majority Q ∧ ∀ r, r ∈ Q → ∃ i z, fs !! r = Some i ∧ (i, Ret z) ∈ rs.
Proof.
  intros Hnd Hlen Ha. apply anyNSuccessful_Ret in Ha. rewrite <- succeeded_at_length in Ha.
  exists (list_to_set (succeeded_at fs rs)). split; [split|].
  - intros r Hr. apply elem_of_list_to_set, succeeded_at_elem in Hr as (i & z & Hi & _).
    apply lookup_lt_Some in Hi. apply elem_of_set_seq. lia.
  - rewrite size_list_to_set by by apply succeeded_at_NoDup.
    pose proof (Z.div_mod n 2). pose proof (Z.mod_pos_bound n 2). lia.
  - intros r Hr. by apply elem_of_list_to_set, succeeded_at_elem in Hr.
Qed.

(** ** The programs *)

(** Position [l] was acknowledged by a majority of segments, none of them
    sealed at that time. *)
Definition acked_in_time (l : Z) w : Prop :=
  ∃ Q, majority Q ∧ ∀ r, r ∈ Q → ∃ i m z, w_sent w !! i = Some m ∧ m_replica m = r ∧
    m_logId m = l ∧ m_skipSeal m = false ∧ (i, Ret z) ∈ w_results w ∧ i ∉ w_late w.

(** What holds when a new config is about to be installed. *)
Definition next_segment_safe (c : MetadataConfig) w : Prop :=
  version_id c = v0 + 1 ∧ previous_version_id c = v0 ∧
  durable_below (start_index c) w ∧
  (∀ l, acked_in_time l w → l < start_index c).

Definition go (X : Set) (e : log_call X) w : Prop :=
  match e with
  | MetaCompareAndAppend _ => False
  | SeqFetchAdd _ _ => no_wrap w
  | _ => True
  end.
Definition ok (X : Set) (e : log_call X) w : Prop :=
  match e with
  | MetaCompareAndAppend c => next_segment_safe c w
  | _ => True
  end.
(** Facts that no step takes away. *)
Definition keeps (Q : World → Prop) : Prop := ∀ w w', le w w' → Q w → Q w'.

(** ** What a thread may rely on *)

Section thread.
Context (me : nat).
Abbreviation Safe := (safe (λ _, exec) go inv le (λ _, le) ok me).

Lemma safe_call {X : Set} (e : log_call X) (Q : X → World → Prop) w :
  (∀ w1, ok X e w1) →
  (∀ w1 o w2, le w w1 → inv w1 → go X e w1 → exec X e w1 o w2 →
     inv w2 ∧ le w1 w2 ∧ ∀ a, o = Ret a → Q a w2) →
  Safe (perform e) Q w.
Proof.
  intros Hok Hc. apply safe_perform. intros w1 Hw1 Hi. split; [done|].
  intros Hg o w2 Hx. destruct (Hc w1 o w2 Hw1 Hi Hg Hx) as (? & ? & HQ).
  split_and!; [done..|]. destruct o; auto.
Qed.

Lemma conseq {A} (p : lprog A) (Q Q' : A → World → Prop) w :
  (∀ a w', le w w' → Q a w' → Q' a w') → Safe p Q w → Safe p Q' w.
Proof. apply (safe_conseq (λ _, exec) go inv le (λ _, le) (λ _ _ _ H, H) ok). Qed.
Lemma attempt_rule {A} (p : lprog A) (Q : A → World → Prop) w :
  Safe p Q w → Safe (attempt p) (λ o w', match o with Ret a => Q a w' | _ => True end) w.
Proof. apply (safe_attempt (λ _, exec) go inv le (λ _, le) ok). Qed.
Lemma map_rule {A B} (f : A → lprog B) l (Q : A → B → World → Prop) w :
  (∀ a b, keeps (Q a b)) →
  (∀ a w', a ∈ l → le w w' → Safe (f a) (Q a) w') →
  Safe (map_prog f l) (λ bs w', Forall2 (λ a b, Q a b w') l bs) w.
Proof. apply (safe_map (λ _, exec) go inv le (λ _, le) (λ _ _ _ H, H) ok). Qed.

(** Calls that read and nobody else can answer. *)
Lemma safe_read {X : Set} (e : log_call X) (Q : X → World → Prop) w :
  (∀ w1, ok X e w1) → can_fail e = false → (∀ w o w', ¬ choice e w o w') →
  (∀ w1 o w2, le w w1 → inv w1 → handle X e w1 = (o, w2) →
     w2 = w1 ∧ ∀ a, o = Ret a → Q a w1) →
  Safe (perform e) Q w.
Proof.
  intros Hok Hf Hch Hc. apply safe_call; [done|]. intros w1 o w2 Hw1 Hi _ Hx.
  apply exec_only in Hx; [|done..]. destruct (Hc w1 o w2 Hw1 Hi Hx) as [-> HQ].
  split_and!; [done..|]. auto.
Qed.

Lemma safe_ret {A} (a : A) (Q : A → World → Prop) w : Q a w → Safe (mret a) Q w.
Proof. done. Qed.
Lemma safe_raise {A} e (Q : A → World → Prop) w : Safe (raise e) Q w.
Proof. done. Qed.

Ltac read := apply safe_read; [done|done|by intros ? ? ? []|].

(** What a thread knows, and keeps knowing. *)
Definition assigned (l : Z) (x : string) w : Prop := (l, x) ∈ w_assigned w.
Definition sent (i : nat) (m : Message) w : Prop := w_sent w !! i = Some m.
Definition replicated (l : Z) (b : bool) w : Prop :=
  ∃ Q, majority Q ∧ ∀ r, r ∈ Q → is_Some (stored r l w) ∧ (b = false → l < com r w).

Lemma assigned_stable l x : keeps (assigned l x).
Proof. intros w w' Hle. apply Hle. Qed.
Lemma sent_stable i m : keeps (sent i m).
Proof. intros w w' Hle Hs. destruct (le_sent w w' Hle) as [k E]. unfold sent. rewrite E.
  by apply lookup_app_l_Some. Qed.
Lemma durable_below_stable l : keeps (durable_below l).
Proof. intros w w' Hle. by apply durable_below_mono. Qed.
Lemma replicated_stable l b : keeps (replicated l b).
Proof.
  intros w w' Hle (Q & HQ & Hr). exists Q. split; [done|]. intros r Hin.
  destruct (Hr r Hin) as [[x Hx] Hc]. split; [exists x; by eapply le_stored|].
  intros Hb. pose proof (le_com w w' Hle r). specialize (Hc Hb). lia.
Qed.

Lemma replicated_durable l b w : replicated l b w → durable l w.
Proof. intros (Q & HQ & Hr). exists Q. split; [done|]. intros r Hin. by apply Hr. Qed.

(** ** Sending to every replica and waiting for a majority *)

Definition requests (l : Z) (x : string) (b : bool) (fs : list nat) w : Prop :=
  Forall2 (λ r i, ∃ g, sent i (mkMessage r g v0 l x b) w) (seq 0 n) fs.

Lemma await_majority fs l x b w :
  requests l x b fs w →
  Safe (perform (AwaitAnyN fs (n / 2 + 1))) (λ _ w', replicated l b w') w.
Proof.
  intros Hreq. read. intros w1 o w2 Hw1 Hi. simpl. intros [= Ho <-]. split; [done|].
  intros [] ->. pose proof (Forall2_length _ _ _ Hreq) as Hlen. rewrite length_seq in Hlen.
  destruct (quorum_reached fs (w_results w1)) as (Q & HQ & Hr);
    [apply Hi|done|done|]. exists Q. split; [done|]. intros r Hin.
  destruct (Hr r Hin) as (i & z & Hfs & Hres).
  destruct (Forall2_lookup_r _ _ _ _ _ Hreq Hfs) as (r' & Hr' & g & Hs).
  apply lookup_seq in Hr' as [-> _]. simpl in *.
  apply (sent_stable _ _ w w1 Hw1) in Hs.
  destruct (i_results w1 Hi i z Hres) as (m & Hm & Hst & Hc).
  unfold sent in Hs. rewrite Hm in Hs. simplify_eq. done.
Qed.

(** ** The sequencer's append *)

Lemma safe_replicas w : Safe (perform (SeqReplicas 0)) (λ rs _, rs = seq 0 n) w.
Proof.
  read. intros w1 o w2 Hw1 Hi E. apply seq_read in E as (_ & _ & -> & ->); [|done].
  split; [done|]. intros a [= <-]. destruct (su_sequencer w1 (i_setup w1 Hi)) as (sq & E & _ & ? & _).
  by rewrite (sequencer_0 w1 sq E).
Qed.
Lemma safe_quorum w : Safe (perform (SeqQuorum 0)) (λ q _, q = (n / 2 + 1)%Z) w.
Proof.
  read. intros w1 o w2 Hw1 Hi E. apply seq_read in E as (_ & _ & -> & ->); [|done].
  split; [done|]. intros a [= <-]. destruct (su_sequencer w1 (i_setup w1 Hi)) as (sq & E & _ & _ & ?).
  by rewrite (sequencer_0 w1 sq E).
Qed.
Lemma safe_version w : Safe (perform (SeqVersion 0)) (λ v _, v = v0) w.
Proof.
  read. intros w1 o w2 Hw1 Hi E. apply seq_read in E as (_ & _ & -> & ->); [|done].
  split; [done|]. intros a [= <-]. destruct (su_sequencer w1 (i_setup w1 Hi)) as (sq & E & ? & _).
  by rewrite (sequencer_0 w1 sq E).
Qed.
Lemma safe_commit w : Safe (perform (SeqLoadCommit 0)) durable_below w.
Proof.
  read. intros w1 o w2 Hw1 Hi E. apply seq_read in E as (_ & _ & -> & ->); [|done].
  split; [done|]. intros a [= <-]. apply Hi.
Qed.

Lemma safe_send r g l x b w :
  assigned l x w → (∀ g', g = Some g' → durable_below g' w) →
  Safe (perform (ReplicaAppend r g v0 l x b)) (λ i w', sent i (mkMessage r g v0 l x b) w') w.
Proof.
  intros Ha Hg. apply safe_call; [done|]. intros w1 o w2 Hw1 Hi _ Hx.
  apply exec_only in Hx; [|done|by intros ? ? ? []]. simpl in Hx. unfold send in Hx.
  injection Hx as <- <-.
  destruct (send_inv w1 (mkMessage r g v0 l x b) Hi) as [Hi2 Hle2]; simpl; [done| | |].
  - by apply (assigned_stable l x w w1 Hw1).
  - intros g' Eg. by apply (durable_below_stable g' w w1 Hw1), Hg.
  - split_and!; [done..|]. intros a [= <-]. unfold sent. simpl.
    by apply list_lookup_middle.
Qed.

Lemma Forall2_weaken {A B} (P Q : A → B → Prop) l k :
  (∀ a b, P a b → Q a b) → Forall2 P l k → Forall2 Q l k.
Proof. intros Himp Hall. by eapply Forall2_impl. Qed.

Lemma safe_replicate l x w :
  assigned l x w → Safe (replicate_to_all 0 l x) (λ _ w', replicated l false w') w.
Proof.
  intros Ha. apply safe_bind. eapply conseq; [|apply safe_replicas].
  intros rs w1 Hw1 ->. apply safe_bind.
  eapply (conseq _ (λ calls w', Forall2 (λ r c, ∃ g, c = (r, g, v0) ∧
            durable_below g w') (seq 0 n) calls)).
  2: { apply (map_rule _ _ (λ r c w', ∃ g, c = (r, g, v0) ∧ durable_below g w')).
       - intros r c w2 w3 Hle (g & -> & Hd). exists g. split; [done|].
         by eapply durable_below_stable.
       - intros r w2 _ Hw2. apply safe_bind. eapply conseq; [|apply safe_commit].
         intros g w3 Hw3 Hg. apply safe_bind. eapply conseq; [|apply safe_version].
         intros v w4 Hw4 ->. apply safe_ret. exists g. split; [done|].
         by eapply durable_below_stable. }
  intros calls w2 Hw2 Hcalls. apply safe_bind.
  eapply (conseq _ (λ fs w', Forall2 (λ c i,
    ∃ r g, c = (r, g, v0) ∧ sent i (mkMessage r (Some g) v0 l x false) w') calls fs)).
  2: { apply (map_rule _ _ (λ c i w',
         ∃ r g, c = (r, g, v0) ∧ sent i (mkMessage r (Some g) v0 l x false) w')).
       - intros c i w3 w4 Hle (r & g & -> & Hs). exists r, g. split; [done|].
         by eapply sent_stable.
       - intros [[r g] v] w3 Hin Hw3.
         apply list_elem_of_lookup in Hin as [j Hj].
         destruct (Forall2_lookup_r _ _ _ _ _ Hcalls Hj) as (r' & _ & g' & [= <- <- ->] & Hd).
         eapply conseq; [|apply safe_send].
         + intros i w4 _ Hs. by exists r, g.
         + do 3 (eapply assigned_stable; [done|]). done.
         + intros g' [= <-]. by eapply durable_below_stable. }
  intros fs w3 Hw3 Hfs. apply safe_bind. eapply conseq; [|apply safe_quorum].
  intros q w4 Hw4 ->. apply (await_majority fs l x false). unfold requests.
  assert (Hall : Forall2 (λ r i, ∃ g, sent i (mkMessage r g v0 l x false) w3) (seq 0 n) fs).
  { clear -Hcalls Hfs. revert fs Hfs. induction Hcalls as [|r c rs cs (g & -> & _) _ IH];
      intros fs Hfs; inversion Hfs as [|? i ? fs' (r' & g' & E & Hs)]; simplify_eq; constructor;
      [by eexists|auto]. }
  eapply Forall2_weaken; [|exact Hall]. intros r i (g & Hs). exists g. by eapply sent_stable.
Qed.

(** [retrying] ends with an answer of one of the attempts. *)
Lemma safe_retrying {A} (ff : nat → lprog A) k (Q : A → World → Prop) w :
  (∀ i w', le w w' → Safe (ff i) Q w') → Safe (retrying k ff) Q w.
Proof.
  unfold retrying. generalize (k - 1)%nat. intros left. generalize 0%nat. revert w.
  induction left as [|left IH]; intros w i Hff; cbn [retrying_from]; apply safe_bind;
    (eapply conseq; [|apply attempt_rule, Hff; done]); intros [a|e|] w1 Hw1; simpl;
    try by intros; try apply safe_ret.
  intros _. apply IH. intros j w2 Hw2. apply Hff. by etrans.
Qed.

(** What an append promises its client. *)
Definition appended (l : Z) (x : string) w : Prop := assigned l x w ∧ durable l w.

Lemma safe_append x w : Safe (SequencerImpl_append 0 x) (λ l w', appended l x w') w.
Proof.
  apply safe_bind. eapply (conseq _ (λ l w', assigned l x w')).
  2: { apply safe_call; [done|]. intros w1 o w2 Hw1 Hi Hg Hx.
       apply exec_only in Hx; [|done|by intros ? ? ? []].
       by eapply fetch_add_inv. }
  intros l w1 Hw1 Ha. apply safe_retrying. intros _ w1' Hw1'.
  apply safe_bind. eapply conseq; [|apply safe_replicate; by apply Hw1'].
  intros u w2 Hw2 Hrep. apply safe_bind. eapply (conseq _ (λ _ w', appended l x w')).
  { intros [] w3 _ Hd. by apply safe_ret. }
  apply safe_call; [done|]. intros w3 o w4 Hw3 Hi _ Hx.
  apply exec_only in Hx; [|done|by intros ? ? ? []].
  pose proof (replicated_stable l false w2 w3 Hw3 Hrep) as Hrep3.
  assert (Hd : durable_below l w3).
  { destruct Hrep3 as (Q & HQ & Hr). apply (durable_of_majority Q); [done|done|].
    intros r Hin. destruct (Hr r Hin) as [_ Hc]. specialize (Hc eq_refl). lia. }
  destruct (raise_commit_inv w3 l o w4 Hi Hd Hx) as [? Hle]. split_and!; [done..|].
  intros _ _. split; [by apply Hle, Hw3, Hw2, Hw1'|].
  eapply durable_mono; [done|]. by eapply replicated_durable.
Qed.

(** ** Reconfiguration *)

Lemma safe_current_version w : Safe (perform MetaCurrentVersionId) (λ v _, v = v0) w.
Proof.
  read. intros w1 o w2 Hw1 Hi. simpl. unfold on_meta, zoom, gets. simpl. intros [= <- <-].
  split; [by destruct w1|]. intros a [= <-]. apply Hi.
Qed.
Lemma safe_config w : Safe (perform (MetaGetConfig v0)) (λ c _, is_Some c) w.
Proof.
  read. intros w1 o w2 Hw1 Hi. simpl. unfold on_meta, zoom, gets. simpl. intros [= <- <-].
  split; [by destruct w1|]. intros a [= <-].
  destruct (su_config w1 (i_setup w1 Hi)) as (c & -> & _). by exists c.
Qed.
Lemma safe_state vl w : Safe (perform (GetState vl)) (λ st _, replicaSet st = seq 0 n) w.
Proof.
  read. intros w1 o w2 Hw1 Hi. simpl. destruct (w_vlogs w1 !! vl) as [st|] eqn:E.
  - intros [= <- <-]. split; [done|]. intros a [= <-]. by apply (su_vlogs w1 (i_setup w1 Hi) vl).
  - by intros [= <- <-].
Qed.
Lemma safe_shuffle l w : Safe (perform (Shuffle l)) (λ l' _, l ≡ₚ l') w.
Proof.
  apply safe_call; [done|]. intros w1 o w2 Hw1 Hi _ [[E _]|[(-> & l' & -> & Hp)|[? _]]]; [| |done].
  - simpl in E. unfold mret, M_ret in E. simplify_eq. split_and!; [done..|]. by intros ? [= <-].
  - split_and!; [done..|]. by intros ? [= <-].
Qed.
Lemma first_success_elem rs e : first_success rs = Ret e → Ret e ∈ rs.
Proof.
  induction rs as [|r rs IH]; [done|]. destruct rs as [|r' rs].
  - intros E. assert (r = Ret e) as -> by (by destruct r). left.
  - destruct r; [intros [= ->]; left|intros ?; right; by apply IH..].
Qed.
Lemma safe_any rs w : Safe (perform (AwaitAny rs)) (λ e _, Ret e ∈ rs) w.
Proof.
  apply safe_call; [done|]. intros w1 o w2 Hw1 Hi _ [[E _]|[(-> & e & -> & Hin)|[? _]]]; [| |done].
  - simpl in E. unfold of_outcome in E. simplify_eq. split_and!; [done..|].
    intros a. apply first_success_elem.
  - split_and!; [done..|]. by intros ? [= <-].
Qed.
Lemma safe_seal r w : Safe (perform (ReplicaSeal r v0)) (λ e w', (r, v0, e) ∈ w_seals w') w.
Proof.
  apply safe_call; [done|]. intros w1 o w2 Hw1 Hi _ Hx.
  apply exec_fails in Hx as [Hx|(err & -> & [->|[o' Hx]])]; [|done| |by intros ? ? ? []].
  - by apply seal_call_inv.
  - destruct (seal_call_inv w1 r o' w2 Hi Hx) as (? & ? & _). done.
Qed.
Lemma safe_entry r v l w :
  Safe (perform (ReplicaGetLogEntry r v l))
    (λ a w', v = v0 → ∀ e, a = inl e → logId e = l ∧ assigned l (payload e) w') w.
Proof.
  apply safe_call; [done|]. intros w1 o w2 Hw1 Hi _ Hx.
  apply exec_fails in Hx as [Hx|(err & -> & [->|[o' Hx]])]; [|done| |by intros ? ? ? []].
  - destruct (getLogEntry_inv w1 r v l o w2 Hi Hx) as (? & ? & He). split_and!; [done..|].
    intros a -> Hv e ->. by apply He.
  - destruct (getLogEntry_inv w1 r v l o' w2 Hi Hx) as (? & ? & _). done.
Qed.
Lemma safe_deref {A} (o : option A) w : Safe (deref o) (λ a _, o = Some a) w.
Proof. by destruct o. Qed.

(** Replica [x] of the sealed majority answered with an index in the range. *)
Definition sealed_between (mn mx : Z) (x : option nat) w : Prop :=
  ∃ r e, x = Some r ∧ (r, v0, e) ∈ w_seals w ∧ mn ≤ e ≤ mx.

Lemma safe_seal_loop rs mn mx w :
  Safe (seal_loop v0 rs mn mx)
    (λ mm w', mm.1 ≤ mn ∧ mx ≤ mm.2 ∧ ∀ x, x ∈ rs → sealed_between mm.1 mm.2 x w') w.
Proof.
  revert mn mx w. induction rs as [|x rs IH]; intros mn mx w; cbn [seal_loop].
  { apply safe_ret. simpl. split_and!; [lia..|]. by intros x ?%elem_of_nil. }
  apply safe_bind. eapply conseq; [|apply safe_deref]. intros r w1 Hw1 ->.
  apply safe_bind. eapply conseq; [|apply safe_seal]. intros e w2 Hw2 He.
  eapply conseq; [|apply IH]. intros [mn' mx'] w3 Hw3 (Hmn & Hmx & Hall). simpl in *.
  split_and!; [lia|lia|]. intros x [->|Hx]%elem_of_cons; [|by apply Hall].
  exists r, e. split_and!; [done| |lia|lia]. by apply Hw3.
Qed.

Lemma safe_rereplicate_entry vl sealed l w :
  Safe (rereplicate_entry vl v0 sealed l) (λ _ w', durable l w') w.
Proof.
  apply safe_bind. eapply (conseq _ (λ results w', Forall2 (λ _ o,
    ∀ e, o = Ret e → logId e = l ∧ assigned l (payload e) w') sealed results)).
  2: { apply (map_rule _ _ (λ _ o w', ∀ e, o = Ret e → logId e = l ∧ assigned l (payload e) w')).
       - intros _ o w1 w2 Hle He e Eo. destruct (He e Eo). split; [done|].
         by eapply assigned_stable.
       - intros x w1 _ _. apply safe_bind. eapply conseq; [|apply safe_deref].
         intros r w2 _ _. apply safe_bind.
         eapply conseq; [|apply attempt_rule, (safe_entry r v0 l)].
         intros a w3 _ Ha. apply safe_ret. intros e.
         destruct a as [[e'|]| |]; simpl; intros Ee; simplify_eq. by apply Ha. }
  intros results w1 _ Hres. apply safe_bind. eapply conseq; [|apply safe_any].
  intros e w2 Hw2 Hin. apply list_elem_of_lookup in Hin as [j Hj].
  destruct (Forall2_lookup_r _ _ _ _ _ Hres Hj) as (? & _ & He).
  destruct (He e eq_refl) as [El Hass]. rewrite El.
  apply safe_bind. eapply conseq; [|apply safe_state]. intros st w3 Hw3 ->.
  apply safe_bind. eapply (conseq _ (λ fs w', requests l (payload e) true fs w')).
  2: { apply (map_rule _ _ (λ r i w', ∃ g, sent i (mkMessage r g v0 l (payload e) true) w')).
       - intros r i w4 w5 Hle (g & Hs). exists g. by eapply sent_stable.
       - intros r w4 _ Hw4. eapply conseq; [|apply safe_send].
         + intros i w5 _ Hs. by exists None.
         + do 3 (eapply assigned_stable; [done|]). done.
         + done. }
  intros fs w4 Hw4 Hfs. rewrite length_seq.
  eapply conseq; [|by apply (await_majority fs l (payload e) true)].
  intros u w5 _ Hr. exact (replicated_durable _ _ _ Hr).
Qed.

Lemma safe_rereplicate vl sealed l k w :
  Safe (rereplicate vl v0 sealed l k) (λ _ w', ∀ j, l ≤ j < l + k → durable j w') w.
Proof.
  revert l w. induction k as [|k IH]; intros l w; cbn [rereplicate].
  { apply safe_ret. intros j Hj. lia. }
  apply safe_bind. eapply conseq; [|apply safe_rereplicate_entry]. intros u w1 Hw1 Hd.
  eapply conseq; [|apply IH]. intros u' w2 Hw2 Hall j Hj.
  destruct (decide (j = l)) as [->|]; [by eapply durable_mono|]. apply Hall. lia.
Qed.

(** The sealed majority as a set, once every element has answered. *)
Lemma sealed_majority mn mx sh w :
  sh ≡ₚ seq 0 n →
  (∀ x, x ∈ resize (length sh / 2 + 1)%nat None (Some <$> sh) → sealed_between mn mx x w) →
  ∃ Q, majority Q ∧ ∀ r, r ∈ Q → ∃ e, (r, v0, e) ∈ w_seals w ∧ mn ≤ e ≤ mx.
Proof.
  intros Hp Hall. assert (Hlen : length sh = n) by (rewrite Hp; apply length_seq).
  set (k := (length sh / 2 + 1)%nat) in *.
  destruct (decide (k ≤ length sh)%nat) as [Hk|Hk].
  2: { destruct (Hall None) as (r & e & ? & _); [|done].
       rewrite resize_ge by (rewrite length_fmap; lia). apply elem_of_app. right.
       rewrite length_fmap. replace (k - length sh)%nat with (S (k - length sh - 1)) by lia. left. }
  rewrite resize_le in Hall by (by rewrite length_fmap). rewrite <- fmap_take in Hall.
  assert (Hnd : NoDup sh) by (rewrite Hp; apply NoDup_seq).
  exists (list_to_set (take k sh)). split; [split|].
  - intros r Hr%elem_of_list_to_set. apply subseteq_take in Hr. rewrite Hp in Hr.
    apply elem_of_seq in Hr. apply elem_of_set_seq. lia.
  - rewrite size_list_to_set by (rewrite <- (take_drop k sh) in Hnd; by apply NoDup_app in Hnd as [? _]). rewrite length_take.
    pose proof (Nat.div_mod_eq (length sh) 2). pose proof (Nat.mod_upper_bound (length sh) 2). lia.
  - intros r Hr%elem_of_list_to_set.
    destruct (Hall (Some r)) as (r' & e & [= <-] & ? & ?).
    { by apply list_elem_of_fmap_2. }
    by exists e.
Qed.

(** What the reconfiguring thread knows when it builds the new config. *)
Definition ready_to_install (mx : Z) w : Prop :=
  durable_below mx w ∧
  ∃ Q, majority Q ∧ ∀ r, r ∈ Q → ∃ e, (r, v0, e) ∈ w_seals w ∧ e ≤ mx.

Lemma ready_stable mx : keeps (ready_to_install mx).
Proof.
  intros w w' Hle [Hd (Q & HQ & Hs)]. split; [by eapply durable_below_stable|].
  exists Q. split; [done|]. intros r Hr. destruct (Hs r Hr) as (e & He & ?).
  exists e. split; [|done]. by apply Hle.
Qed.

Lemma ready_safe mx target w :
  inv w → ready_to_install mx w → next_segment_safe (next_config v0 mx target) w.
Proof.
  intros Hi [Hd (Q & HQ & Hs)]. split_and!; [done..|]. simpl.
  intros l (Q' & HQ' & Ha). destruct (majority_meet Q Q' HQ HQ') as (r & Hr & Hr').
  destruct (Hs r Hr) as (e & He & Hle).
  destruct (Ha r Hr') as (i & m & z & Hm & <- & <- & Hb & Hz & Hn).
  pose proof (i_late w Hi i z m e Hz Hm Hb Hn He). lia.
Qed.

Lemma safe_install vl mx target w :
  ready_to_install mx w → Safe (install vl (next_config v0 mx target)) (λ _ _, False) w.
Proof.
  intros Hr w1 Hw1 Hi. split; [|by intros []]. apply ready_safe; [done|].
  by eapply ready_stable.
Qed.

Lemma safe_reconfigure vl target w : Safe (reconfigure vl target) (λ _ _, True) w.
Proof.
  apply safe_bind. eapply conseq; [|apply safe_current_version]. intros v w1 _ ->.
  apply safe_bind. eapply conseq; [|apply safe_state]. intros st w2 _ Est. rewrite Est.
  apply safe_bind. eapply conseq; [|apply safe_shuffle]. intros sh w3 _ Hsh. cbv zeta.
  apply safe_bind. eapply conseq; [|apply safe_seal_loop]. intros [mn mx] w4 _ (_ & _ & Hall).
  destruct (sealed_majority mn mx sh w4 (symmetry Hsh) Hall) as (Q & HQ & Hseals).
  apply safe_bind. eapply conseq; [|apply safe_rereplicate]. intros u w5 Hw5 Hd.
  apply safe_bind. apply safe_perform. intros w6 Hw6 Hi6.
  split; [done|]. intros _ o w7 Hx.
  apply exec_only in Hx; [|done|by intros ? ? ? []].
  simpl in Hx. unfold on_meta, zoom, gets in Hx. simpl in Hx. injection Hx as <- <-.
  assert (Emeta : set_meta (w_meta w6) w6 = w6) by (by destruct w6). rewrite Emeta.
  split_and!; [done..|].
  destruct (su_config w6 (i_setup w6 Hi6)) as (c & Hc & _). rewrite Hc.
  apply safe_bind. eapply (conseq _ (λ _ _, False)); [by intros ? ? ?|].
  apply safe_install.
  assert (Hw46 : le w4 w6) by by etrans.
  assert (Hseals6 : ∀ r, r ∈ Q → ∃ e, (r, v0, e) ∈ w_seals w6 ∧ mn ≤ e ≤ mx).
  { intros r Hr. destruct (Hseals r Hr) as (e & He & ?). exists e. split; [|done]. by apply Hw46. }
  split.
  - intros j Hj. destruct (decide (j < mn)).
    + apply (durable_of_majority Q mn); [done|done| |lia]. intros r Hr.
      destruct (Hseals6 r Hr) as (e & He & ?). destruct (i_seals w6 Hi6 r e He). lia.
    + apply (durable_mono j w5); [done|]. apply Hd. lia.
  - exists Q. split; [done|]. intros r Hr. destruct (Hseals6 r Hr) as (e & ? & ?).
    exists e. split; [done|lia].
Qed.

Lemma safe_reconcile vl fd w : Safe (reconcile vl fd) (λ _ _, True) w.
Proof.
  unfold reconcile. destruct (ensembleAlive_ fd); [by apply safe_ret|].
  apply (safe_try_catch (λ _, exec) go inv le (λ _, le) (λ _ _ _ H, H) ok).
  - apply safe_bind. eapply conseq; [|apply safe_reconfigure]. intros. by apply safe_ret.
  - intros e q w' Eq _. destruct (is_std_exception e); simplify_eq. by apply safe_ret.
Qed.

End thread.

(** ** The theorems *)

(** The clients: appends, reconfigurations and rounds of failure detectors, any
    number, at any time. *)
Inductive client : thread → Prop :=
  | client_append x : client (existT Z (SequencerImpl_append 0 x))
  | client_reconfigure vl target :
      client (existT MetadataConfig (reconfigure vl target))
  | client_reconcile vl fd : client (existT unit (reconcile vl fd)).

(** The executions up to the first installed config, with sequence numbers that
    do not wrap around. *)
Definition epoch (w0 : World) (s : World * list thread) : Prop :=
  reaches (λ _, exec) go network client (w0, []) s.

(** The config a thread is about to install. *)
Definition pending_config (t : @thread log_call) : option MetadataConfig :=
  match projT2 t with
  | Call e _ => match e with MetaCompareAndAppend c => Some c | _ => None end
  | Done _ => None
  end.

Lemma pending_config_Some (t : @thread log_call) c :
  pending_config t = Some c →
  ∃ (A : Set) (k : outcome () → lprog A), t = existT A (Call (MetaCompareAndAppend c) k).
Proof.
  destruct t as [A [o|X e k]]; [done|]. unfold pending_config. simpl.
  destruct e; intros [= ->]; by exists A, k.
Qed.

(** ** Scripted executions *)

Inductive client_call :=
  | CAppend (x : string)
  | CReconfigure (vl : nat) (target : MetadataConfig)
  | CReconcile (vl : nat) (fd : FailureDetectorImpl).
Definition client_thread (c : client_call) : @thread log_call :=
  match c with
  | CAppend x => existT Z (SequencerImpl_append 0 x)
  | CReconfigure vl target => existT MetadataConfig (reconfigure vl target)
  | CReconcile vl fd => existT unit (reconcile vl fd)
  end.
Lemma client_thread_client c : client (client_thread c).
Proof. destruct c; constructor. Qed.

Definition may_go (X : Set) (e : log_call X) w : bool :=
  match e with
  | MetaCompareAndAppend _ => false
  | SeqFetchAdd _ _ => bool_decide (i64_min ≤ sequenceNum_ (the_sequencer w) < i64_max)
  | _ => true
  end.

Lemma may_go_go (X : Set) (e : log_call X) w : may_go X e w = true → go X e w.
Proof. unfold may_go. destruct e; try done. intros Hg. by apply bool_decide_eq_true in Hg. Qed.

(** A freshly set up ensemble. *)
Definition initial w : Prop :=
  setup w ∧ (∀ r rep, w_replicas w !! r = Some rep → nanoLogStore_ rep !! v0 = None) ∧
  globalCommitIndex_ (the_sequencer w) ≤ st0 ∧
  w_sent w = [] ∧ w_results w = [] ∧ w_assigned w = [] ∧ w_seals w = [].

Lemma initial_inv w : initial w → inv w.
Proof.
  intros (Hsu & Hrep & Hg & Hs & Hr & Ha & Hse).
  assert (Hseg : ∀ r, seg r w = fresh_segment).
  { intros r. unfold seg, segment_of. destruct (w_replicas w !! r) as [rep|] eqn:E; [|done].
    by rewrite (Hrep r rep E). }
  split; unfold stored, com, durable_below; rewrite ?Hs, ?Hr, ?Ha, ?Hse; try done.
  - intros r. rewrite Hseg. apply make_inv.
  - intros r l x. by rewrite Hseg.
  - intros r l. rewrite Hseg. unfold commitIndex. simpl. lia.
  - intros r k s. rewrite Hseg. by intros ?%elem_of_nil.
  - by intros l x y ?%elem_of_nil.
  - by intros l x ?%elem_of_nil.
  - intros j. lia.
  - constructor.
  - by intros i z ?%elem_of_nil.
  - by intros r e ?%elem_of_nil.
Qed.

Lemma epoch_safe w0 w ts :
  initial w0 → epoch w0 (w, ts) →
  inv w ∧ ∀ i (t : thread), ts !! i = Some t →
    safe (λ _, exec) go inv le (λ _, le) ok i (projT2 t) (λ _ _, True) w.
Proof.
  intros Hinit Hr.
  destruct (sys_safe (λ _, exec) go network client inv le (λ _, le) (λ _ _ _ H, H) ok
    (λ _ _ _ _, True) w0 w ts) as (Hi & _ & Hts); [done|by apply initial_inv| | |exact Hr|done].
  { intros w1 w2 Hi Hn. by destruct (network_inv w1 w2 Hi Hn). }
  intros i t w1 [] _; [|apply safe_reconfigure|apply safe_reconcile].
  eapply conseq; [|apply safe_append]. done.
Qed.

(** C1: the config a reconfiguration is about to install starts a new segment
    safely: whatever appends, other reconfigurations, delays, reorderings and
    losses came before, every position of the old segment below the new start
    is stored by a majority of the replicas with the payload it was taken for,
    and every position acknowledged by a majority of segments before they were
    sealed lies below the new start.  The executions are those of one epoch:
    they begin with a set-up ensemble whose last installed version is [v0] and
    run until the first config after it is installed. *)
Theorem reconfiguration_is_safe w0 w ts t c :
  initial w0 → epoch w0 (w, ts) → t ∈ ts → pending_config t = Some c →
  version_id c = v0 + 1 ∧ previous_version_id c = v0 ∧
  (∀ j, st0 ≤ j < start_index c → ∃ Q, majority Q ∧
     ∀ r, r ∈ Q → ∃ x, stored r j w = Some x ∧ (j, x) ∈ w_assigned w) ∧
  (∀ l, acked_in_time l w → l < start_index c).
Proof.
  intros Hinit Hr Ht Hc. destruct (epoch_safe w0 w ts Hinit Hr) as [Hinv Hts].
  apply pending_config_Some in Hc as (A & k & ->).
  apply list_elem_of_lookup in Ht as [i Ht].
  destruct (Hts i _ Ht w) as [(Hv & Hp & Hd & Ha) _]; [done|done|].
  split_and!; [done|done| |done]. intros j Hj. destruct (Hd j Hj) as (Q & HQ & Hst).
  exists Q. split; [done|]. intros r Hr'. destruct (Hst r Hr') as [x Hx]. exists x.
  split; [done|]. by apply (i_values w Hinv r).
Qed.

(** C7: within one epoch - from a set-up ensemble whose last installed version
    is [v0], until the first config after it is installed - replicas do not
    disagree on its segment: two replicas that store the same position store
    the same payload, and it is the payload some client's append took that
    position for.  Afterwards an append that took its position before the
    install can break this, see [LogReads.stale_position_splits_log] and
    [late_ack_is_reassigned]. *)
Theorem replicas_agree w0 w ts r r' l x y :
  initial w0 → epoch w0 (w, ts) →
  stored r l w = Some x → stored r' l w = Some y →
  x = y ∧ (l, x) ∈ w_assigned w.
Proof.
  intros Hinit Hr Hx Hy. destruct (epoch_safe w0 w ts Hinit Hr) as [Hi _].
  apply (i_values w Hi) in Hx, Hy. split; [|done]. by eapply (i_payload w Hi).
Qed.

(** C14: within one epoch - from a set-up ensemble, until the first config after
    it is installed - what the sequencer's commit index promises to replicas
    is true: every position of the segment below it is stored by a majority. *)
Theorem commit_index_is_durable w0 w ts :
  initial w0 → epoch w0 (w, ts) →
  ∀ j, st0 ≤ j < globalCommitIndex_ (the_sequencer w) → durable j w.
Proof.
  intros Hinit Hr. destruct (epoch_safe w0 w ts Hinit Hr) as [Hi _]. apply (i_commit w Hi).
Qed.
End safety.

(** ** Concrete executions: three replicas, version 1, first position 1 *)

Definition replica_config : MetadataConfig :=
  Build_MetadataConfig 1 0 1 i64_max 0
    {| sequencer_id := "s"; sequencer_ip := default_IpAddress |} [].
Definition empty_replica : Rep := mkReplicaImpl "r" "replica" ∅ InMemory.
Definition sample_world : World :=
  mkWorld (Metadata.append_config replica_config Metadata.empty_store)
    [empty_replica; empty_replica; empty_replica]
    [(KImpl, seq_start 1 1 (makeSequencerImpl "s" (seq 0 3) 1 1 true))]
    {| replicas_ := ∅; sequencers_ := {[ "s"%string := 0%nat ]} |}
    [{| metadataConfig := replica_config; sequencer := 0%nat; replicaSet := seq 0 3 |}]
    [] [] [] [] [] [].

Lemma sample_initial : initial 3 1 1 sample_world.
Proof.
  split_and!; try done.
  - split; try done.
    + by exists replica_config.
    + by eexists.
    + intros [|vl] st; simpl; [by intros [= <-]|done].
    + intros l c _ Hc. apply getConfigUsingLogId_elem, list_elem_of_singleton in Hc. by subst.
  - intros r rep Hr. apply list_elem_of_lookup_2 in Hr. simpl in Hr.
    assert (rep = empty_replica) as -> by set_solver. done.
Qed.

(** An append needs twelve calls until it waits for its majority; so does a
    reconfiguration that has one position to re-replicate. *)
Definition start_append (x : string) (i : nat) : list (action client_call) :=
  Spawn (CAppend x) :: repeat (Run i) 12.

(** Position 1 is stored and acknowledged everywhere, then a failure detector
    that has seen no success reconfigures and runs until it installs its
    config. *)
Definition quiet_run : list (action client_call) :=
  start_append "x" 0 ++ [Deliver 0; Deliver 1; Deliver 2; Run 0; Run 0;
    Spawn (CReconcile 0 (makeFailureDetectorImpl sample_ensemble))] ++ repeat (Run 1) 6.

(** Position 1 reaches replica 1 only and position 2 replicas 0 and 2 only, so
    that 2 waits behind the hole there; the reconfiguration seals 0 and 1,
    fills the hole, and thereby completes 2 at the sealed replica 0. *)
Definition late_run : list (action client_call) :=
  start_append "x" 0 ++ start_append "y" 1 ++ [Deliver 1; Deliver 3; Deliver 5;
    Spawn (CReconfigure 0 replica_config)] ++ repeat (Run 2) 12 ++
  [Deliver 6; Deliver 7; Deliver 8] ++ repeat (Run 2) 2 ++ [Run 1; Run 1].

(** What a finished script says about the state it ends in. *)
Abbreviation script_run l := (perform_actions client_thread may_go l (sample_world, [])).
Lemma script_epoch {B} l (f : World * list thread → option B) b :
  script_run l ≫= f = Some b →
  ∃ w ts, epoch sample_world (w, ts) ∧ f (w, ts) = Some b ∧ script_run l = Some (w, ts).
Proof. apply (script_reaches _ _ go client may_go_go client_thread_client). Qed.
Definition config_start (i : nat) (s : World * list thread) : option Z :=
  match s.2 !! i with
  | Some t => option_map start_index (pending_config t)
  | None => None
  end.
Lemma config_start_Some i s b :
  config_start i s = Some b → ∃ t c, t ∈ s.2 ∧ pending_config t = Some c ∧ start_index c = b.
Proof.
  unfold config_start. destruct (s.2 !! i) as [t|] eqn:Et; [|done].
  destruct (pending_config t) as [c|] eqn:Ec; [|done]. intros [= <-].
  exists t, c. split; [by eapply list_elem_of_lookup_2|done].
Qed.

(** An acknowledgement that a re-replication lets through at a sealed
    replica is not safe: there is an execution in which an append has returned
    position 2 to its client while a reconfiguration is about to install a
    config whose segment starts at 2. *)
Theorem late_ack_is_reassigned :
  ∃ w ts t c, epoch sample_world (w, ts) ∧
    (existT Z (Done (Ret 2)) : @thread log_call) ∈ ts ∧
    t ∈ ts ∧ pending_config t = Some c ∧ start_index c = 2.
Proof.
  destruct (script_epoch late_run (λ s, Some (s.2 !! 1%nat, config_start 2 s))
    (Some (existT Z (Done (Ret 2))), Some 2)) as (w & ts & Hr & [= Ht1 Hc] & _);
    [vm_compute; reflexivity|].
  apply config_start_Some in Hc as (t2 & c & Ht2 & Hc & Hst).
  exists w, ts, t2, c. split_and!; [done| |done..]. by eapply list_elem_of_lookup_2.
Qed.

Lemma quiet_config :
  ∃ w ts t c, epoch sample_world (w, ts) ∧ t ∈ ts ∧ pending_config t = Some c ∧ start_index c = 2 ∧
    stored 1 1 0 1 w = Some "x"%string.
Proof.
  destruct (script_epoch quiet_run (λ s, Some (config_start 1 s, stored 1 1 0 1 s.1))
    (Some 2, Some "x"%string)) as (w & ts & Hr & [= Hc Hx] & _); [vm_compute; reflexivity|].
  apply config_start_Some in Hc as (t & c & Ht & Hc & Hst). by exists w, ts, t, c.
Qed.

Lemma reconfiguration_is_safe_witness :
  ∃ w ts t c, epoch sample_world (w, ts) ∧ pending_config t = Some c ∧ start_index c = 2 ∧
    ∃ Q, majority 3 Q ∧ ∀ r, r ∈ Q → ∃ x, stored 1 1 r 1 w = Some x.
Proof.
  destruct quiet_config as (w & ts & t & c & Hr & Ht & Hc & Hst & _).
  destruct (reconfiguration_is_safe 3 1 1 sample_world w ts t c sample_initial Hr Ht Hc)
    as (_ & _ & Hd & _).
  exists w, ts, t, c. split_and!; [done..|].
  destruct (Hd 1) as (Q & HQ & Hstored); [rewrite Hst; lia|]. exists Q. split; [done|].
  intros r Hin. destruct (Hstored r Hin) as (x & Hx & _). by exists x.
Defined.

Lemma replicas_agree_witness :
  ∃ w ts x, epoch sample_world (w, ts) ∧ stored 1 1 0 1 w = Some x ∧ (1, x) ∈ w_assigned w.
Proof.
  destruct quiet_config as (w & ts & t & c & Hr & _ & _ & _ & Hx).
  exists w, ts, "x"%string. split_and!; [done|done|].
  apply (replicas_agree 3 1 1 sample_world w ts 0 0 1 "x" "x" sample_initial Hr Hx Hx).
Defined.

Lemma commit_index_is_durable_witness :
  ∃ w ts, epoch sample_world (w, ts) ∧
    ∀ j, 1 ≤ j < globalCommitIndex_ (the_sequencer w) → durable 3 1 1 j w.
Proof.
  destruct quiet_config as (w & ts & t & c & Hr & _). exists w, ts. split; [done|].
  exact (commit_index_is_durable 3 1 1 sample_world w ts sample_initial Hr).
Defined.
