(* ===== verification/LogReads.v ===== *)
(** * Reading what was appended

    [VirtualLogImpl::getLogEntry] among the appends and reconfigurations of
    [LogSafety.v]: a read of a position of the segment in use, at whatever
    replica it succeeds, answers the payload of the append that took the
    position, so that all reads of a position agree, with each other and with
    the append that has returned it.

    Every client keeps what it asked for next to what it was answered. *)

From stdpp Require Import base gmap list strings relations.
From Stdlib Require Import ZArith Lia Eqdep.
From S2P Require Import FailureDetector.
From S2P Require Import Prelude LogTypes Metadata NanoLog Replica Program VirtualLog LogWorld LogSafety.

Open Scope Z_scope.

Inductive answer : Set :=
  | Appended (payload : string) (logId : Z)
  | ReadAnswer (logId : Z) (result : LogEntry + LogReadError)
  | Reconfigured.

(** The calls of clients. *)
Inductive log_client :=
  | AppendClient (payload : string)
  | ReadClient (vl : nat) (logId : Z)
  | ReconfigureClient (vl : nat) (target : MetadataConfig)
  | DetectorClient (vl : nat) (fd : FailureDetectorImpl).
Definition run_client (c : log_client) : lprog answer :=
  match c with
  | AppendClient x => l ← SequencerImpl_append 0 x; mret (Appended x l)
  | ReadClient vl l => r ← getLogEntry vl l; mret (ReadAnswer l r)
  | ReconfigureClient vl target => _ ← reconfigure vl target; mret Reconfigured
  | DetectorClient vl fd => _ ← reconcile vl fd; mret Reconfigured
  end.
Abbreviation lthread := (@thread log_call).
Definition log_thread (c : log_client) : lthread := existT answer (run_client c).
Definition log_user (t : lthread) : Prop := ∃ c, t = log_thread c.

(** The executions up to the first installed config. *)
Definition session (w0 : World) (s : World * list lthread) : Prop :=
  reaches (λ _, exec) go network log_user (w0, []) s.

(** A client that has been answered. *)
Definition answered (a : answer) (ts : list lthread) : Prop :=
  (existT answer (Done (Ret a)) : lthread) ∈ ts.

Section reads.
Context (n : nat) (v0 st0 : Z) (me : nat).
Implicit Types w : World.
Abbreviation Safe := (safe (λ _, exec) go (inv n v0 st0) (le v0 st0) (λ _, le v0 st0) (ok n v0 st0) me).

Lemma safe_lookup_config l w :
  Safe (perform (MetaGetConfigUsingLogId l))
    (λ c _, st0 ≤ l → ∀ c', c = Some c' → version_id c' = v0) w.
Proof.
  apply safe_read; [done|done|by intros ? ? ? []|]. intros w1 o w2 _ Hi. simpl.
  unfold on_meta, zoom, gets. simpl. intros [= <- <-]. split; [by destruct w1|].
  intros a [= <-] Hl c'. by apply (su_lookup _ _ _ _ (i_setup _ _ _ _ Hi)).
Qed.

(** What a read of the segment in use promises. *)
Definition read_ok (l : Z) (r : LogEntry + LogReadError) w : Prop :=
  ∀ e, r = inl e → logId e = l ∧ assigned l (payload e) w.

Lemma safe_read_attempt vl v l k w :
  Safe (read_attempt vl v l k) (λ r w', v = v0 → read_ok l r w') w.
Proof.
  apply safe_bind. eapply conseq; [|apply safe_state]. intros st w1 _ _.
  destruct (replicaSet st !! k) as [r|]; [|apply safe_raise].
  apply safe_bind. eapply conseq; [|apply safe_entry]. intros a w2 _ Ha.
  destruct a; [by apply safe_ret|apply safe_raise].
Qed.

Lemma safe_getLogEntry vl l w :
  Safe (getLogEntry vl l) (λ r w', st0 ≤ l → read_ok l r w') w.
Proof.
  apply safe_bind. eapply conseq; [|apply safe_lookup_config].
  intros c w1 _ Hc. destruct c as [c|]; [|apply safe_raise].
  apply safe_bind. eapply conseq; [|apply safe_state]. intros st w2 _ _.
  apply safe_retrying. intros k w3 _. eapply conseq; [|apply safe_read_attempt].
  intros r w4 _ Hr Hl. apply Hr. by apply Hc.
Qed.

(** What the answer of a client promises. *)
Definition answer_ok (a : answer) w : Prop :=
  match a with
  | Appended x l => appended n v0 st0 l x w
  | ReadAnswer l r => st0 ≤ l → read_ok l r w
  | Reconfigured => True
  end.

Lemma answer_ok_mono a w w' : le v0 st0 w w' → answer_ok a w → answer_ok a w'.
Proof.
  intros Hle. destruct a as [x l|l r|]; simpl; [|intros Hr Hl e He|done].
  - intros [Ha Hd]. split; [by apply Hle|by eapply durable_mono].
  - destruct (Hr Hl e He). split; [done|by apply Hle].
Qed.

Lemma safe_client c w : Safe (run_client c) answer_ok w.
Proof.
  destruct c as [x|vl l|vl target|vl fd]; apply safe_bind.
  - eapply conseq; [|apply safe_append]. intros l w1 _ Ha. by apply safe_ret.
  - eapply conseq; [|apply safe_getLogEntry]. intros r w1 _ Hr. by apply safe_ret.
  - eapply conseq; [|apply safe_reconfigure]. intros. by apply safe_ret.
  - eapply conseq; [|apply safe_reconcile]. intros. by apply safe_ret.
Qed.
End reads.

(** In a session every answer keeps its promise. *)
Lemma session_answers n v0 st0 w0 w ts :
  initial n v0 st0 w0 → session w0 (w, ts) →
  inv n v0 st0 w ∧ ∀ a, answered a ts → answer_ok n v0 st0 a w.
Proof.
  intros Hinit Hr.
  destruct (sys_safe (λ _, exec) go network log_user (inv n v0 st0) (le v0 st0) (λ _, le v0 st0)
    (λ _ _ _ H, H) (ok n v0 st0)
    (λ _ A a w, ∀ E : A = answer, answer_ok n v0 st0 (eq_rect A (λ A, A) a answer E) w)
    w0 w ts) as (Hi & _ & Hts); [|by apply initial_inv| | |exact Hr|].
  - intros _ A a w1 w2 Hle Ha E. eapply answer_ok_mono; [done|apply Ha].
  - intros w1 w2 Hi Hn. by destruct (network_inv n v0 st0 w1 w2 Hi Hn).
  - intros i t w1 [c ->] _. eapply conseq; [|apply safe_client]. intros a w2 _ Ha E.
    by rewrite <-Eq_rect_eq.eq_rect_eq.
  - split; [done|]. intros a [i Ha]%list_elem_of_lookup. apply (Hts i _ Ha eq_refl).
Qed.

(** C4: what is read is what was appended, within one epoch: in every session that
    starts from a set-up ensemble and in which no config is installed - appends
    and reads of any number of clients, with requests delayed, reordered and
    lost, every read answered by whichever replica it reaches, and
    reconfigurations and failure detectors that get anywhere short of their
    install - a read of a position of the segment answers an entry of that
    position with the payload of the append that took it: the append that has
    returned this position, and so every other read of it, agree on the
    payload.  Across an install it is false: [stale_position_splits_log]. *)
Theorem reads_return_appends n v0 st0 w0 w ts l e :
  initial n v0 st0 w0 → session w0 (w, ts) →
  answered (ReadAnswer l (inl e)) ts → st0 ≤ l →
  logId e = l ∧ (l, payload e) ∈ w_assigned w ∧
  (∀ x, answered (Appended x l) ts → x = payload e ∧ durable n v0 st0 l w) ∧
  (∀ e', answered (ReadAnswer l (inl e')) ts → e' = e).
Proof.
  intros Hinit Hr He Hl. destruct (session_answers n v0 st0 w0 w ts Hinit Hr) as [Hi Ha].
  assert (Hread : ∀ e', answered (ReadAnswer l (inl e')) ts → logId e' = l ∧ (l, payload e') ∈ w_assigned w).
  { intros e' He'. by apply (Ha _ He'). }
  destruct (Hread e He) as [Hid Hx]. split_and!; [done|done| |].
  - intros x [Hx' Hd]%Ha. split; [|done]. by eapply (i_payload _ _ _ _ Hi).
  - intros e' [Hid' Hx']%Hread. destruct e as [i p], e' as [i' p']. simpl in *. subst.
    f_equal. by eapply (i_payload _ _ _ _ Hi).
Qed.

(** ** Witness: a read from the only replica that an append has reached *)

Lemma log_thread_user c : log_user (log_thread c).
Proof. by exists c. Qed.
Abbreviation session_run l := (perform_actions log_thread may_go l (sample_world, [])).
Lemma script_session {B} l (f : World * list lthread → option B) b :
  session_run l ≫= f = Some b →
  ∃ w ts, session sample_world (w, ts) ∧ f (w, ts) = Some b ∧ session_run l = Some (w, ts).
Proof. apply (script_reaches _ _ go log_user may_go_go log_thread_user). Qed.

Definition append_and_read : list (action log_client) :=
  Spawn (AppendClient "x") :: repeat (Run 0) 12 ++ [Deliver 1; Deliver 2; Run 0; Run 0;
    Spawn (ReadClient 0 1)] ++ repeat (Run 1) 6.

Lemma reads_return_appends_witness :
  ∃ w ts, session sample_world (w, ts) ∧
    answered (Appended "x" 1) ts ∧ answered (ReadAnswer 1 (inl (mkLogEntry 1 "x"))) ts ∧
    durable 3 1 1 1 w.
Proof.
  destruct (script_session append_and_read (λ s, Some (s.2 !! 0%nat, s.2 !! 1%nat))
    (Some (existT answer (Done (Ret (Appended "x" 1)))),
     Some (existT answer (Done (Ret (ReadAnswer 1 (inl (mkLogEntry 1 "x"))))))))
    as (w & ts & Hr & [= H0 H1] & _); [vm_compute; reflexivity|].
  apply list_elem_of_lookup_2 in H0, H1. exists w, ts. split_and!; [done..|].
  destruct (reads_return_appends 3 1 1 sample_world w ts 1 (mkLogEntry 1 "x") sample_initial Hr H1
    (Z.le_refl 1)) as (_ & _ & Happ & _). by apply (Happ "x"%string).
Defined.

(** ** Beyond the first reconfiguration *)

(** All executions. *)
Definition any_session (w0 : World) (s : World * list lthread) : Prop :=
  reaches (λ _, exec) (λ _ _ _, True) network log_user (w0, []) s.
Definition any_call (X : Set) (e : log_call X) (w : World) : bool := true.

(** ["x"] takes position 1, and an append of ["a"] takes position 2 and goes no
    further.  A reconfiguration runs to its end: the new segment starts at 2, and
    so does the sequencer.  Now the append of ["a"] reads the new version and
    sends position 2 to the new segment, where ["b"] is given position 2 as
    well; replica 0 hears of ["a"] first, the others of ["b"]. *)
Definition stale_position : list (action log_client) :=
  Spawn (AppendClient "x") :: repeat (Run 0) 12 ++
  [Deliver 0; Deliver 1; Deliver 2; Run 0; Run 0] ++
  [Spawn (AppendClient "a"); Run 1] ++
  Spawn (ReconfigureClient 0 replica_config) :: repeat (Run 2) 14 ++
  repeat (Run 1) 11 ++
  Spawn (AppendClient "b") :: repeat (Run 3) 12 ++
  [Deliver 3; Deliver 7; Deliver 8; Run 3; Run 3] ++
  Spawn (ReadClient 0 2) :: repeat (Run 4) 4.

(** Across an install, two appends can be given one position.  There is an
    execution without a failure or a lost request in which a reconfiguration
    has ended, an append of ["b"] has returned position 2 and a read of position
    2 has returned ["a"]: [SequencerImpl::append] takes the position and reads
    the version in two steps; the append of ["a"] takes 2 before [start] hands
    the positions of the new segment out again, and stores it after that. *)
Theorem stale_position_splits_log :
  ∃ w ts, any_session sample_world (w, ts) ∧
    answered Reconfigured ts ∧ answered (Appended "b" 2) ts ∧
    answered (ReadAnswer 2 (inl (mkLogEntry 2 "a"))) ts.
Proof.
  destruct (script_reaches log_thread any_call (λ _ _ _, True) log_user (λ _ _ _ _, I) log_thread_user
    sample_world stale_position (λ s, Some (s.2 !! 2%nat, s.2 !! 3%nat, s.2 !! 4%nat))
    (Some (existT answer (Done (Ret Reconfigured))),
     Some (existT answer (Done (Ret (Appended "b" 2)))),
     Some (existT answer (Done (Ret (ReadAnswer 2 (inl (mkLogEntry 2 "a"))))))))
    as (w & ts & Hr & [= H2 H3 H4] & _); [vm_compute; reflexivity|].
  apply list_elem_of_lookup_2 in H2, H3, H4. by exists w, ts.
Qed.
