(* ===== verification/LogRun.v ===== *)
(** * The log as a list

    The programs of [VirtualLog.v] run one after the other, on a network that
    loses nothing but does not reach some of the replicas ([LogWorld.v]).  As
    long as a majority of the replicas is up, appends and reads return, and
    reconfigurations do when the replicas they happen to pick are up; they
    return what a list of payloads and a chain of configs say: the log
    implements that list across any number of reconfigurations, also to other
    sequencers.

    [LogSafety.v] and [LogReads.v] say what holds however calls interleave and
    requests are lost; here the calls end. *)

From stdpp Require Import base gmap list strings relations pretty sorting.
From Stdlib Require Import ZArith Lia.
From S2P Require Import Prelude LogTypes CompletionQueue Futures Metadata NanoLog Replica Program VirtualLog.
From S2P Require Import LogWorld LogSafety.

Open Scope Z_scope.

(** ** The specification *)

(** The configs installed so far, and the payloads appended so far: the first
    one is at the start of the first config. *)
Record alog := mkLog {
  a_chain : list MetadataConfig;
  a_entries : list string }.
Implicit Types a : alog.

Definition first_position a : Z := match a_chain a with [] => 0 | c :: _ => start_index c end.
Definition next_position a : Z := first_position a + length (a_entries a).
(** The config in use; before the first one, the empty one. *)
Definition current_config a : MetadataConfig := default default_MetadataConfig (last (a_chain a)).
Definition entry_at a (l : Z) : option string :=
  if decide (first_position a ≤ l) then a_entries a !! Z.to_nat (l - first_position a) else None.

Inductive log_op :=
  | LogAppend (x : string)
  | LogRead (l : Z)
  | LogSync
  | LogReconfigure (target : MetadataConfig)
  | LogConfig.
Inductive log_result :=
  | AppendedAt (l : Z)
  | EntryRead (r : LogEntry + LogReadError)
  | SyncedTo (l : Z)
  | ConfigOf (c : MetadataConfig).

(** The answer, none for an exception; and the log after it. *)
Definition spec_op (o : log_op) a : option log_result * alog :=
  match o with
  | LogAppend x =>
      match a_chain a with
      | [] => (None, a)
      | _ => (Some (AppendedAt (next_position a)), mkLog (a_chain a) (a_entries a ++ [x]))
      end
  | LogRead l => ((λ x, EntryRead (inl (mkLogEntry l x))) <$> entry_at a l, a)
  | LogSync =>
      match a_chain a with
      | [] => (None, a)
      | _ => (Some (SyncedTo (next_position a - 1)), a)
      end
  | LogReconfigure target =>
      let c := next_config (version_id (current_config a)) (next_position a) target in
      (Some (ConfigOf c), mkLog (a_chain a ++ [c]) (a_entries a))
  | LogConfig => (Some (ConfigOf (current_config a)), a)
  end.
Fixpoint spec_ops (os : list log_op) a : list (option log_result) * alog :=
  match os with
  | [] => ([], a)
  | o :: os' =>
      let '(r, a1) := spec_op o a in
      let '(rs, a2) := spec_ops os' a1 in (r :: rs, a2)
  end.

(** ** Runs *)

(** The program of an operation, for the virtual log [vl]. *)
Definition op_prog (vl : nat) (o : log_op) : lprog log_result :=
  match o with
  | LogAppend x => l ← append vl x; mret (AppendedAt l)
  | LogRead l => r ← getLogEntry vl l; mret (EntryRead r)
  | LogSync => l ← sync vl; mret (SyncedTo l)
  | LogReconfigure target => c ← reconfigure vl target; mret (ConfigOf c)
  | LogConfig => c ← getCurrentConfig vl; mret (ConfigOf c)
  end.

Section runs.
(** The replicas that are up, what a call to another one throws, and what
    [std::shuffle] makes of a list: any permutation, another one each time. *)
Context (up : nat → bool) (lost : exn) (shuffle : World → list nat → list nat).

(** A request to append reaches a replica that is up before the next call, and
    never one that is not. *)
Definition serve (X : Set) (e : log_call X) : M World X :=
  match e in log_call Y return M World Y with
  | ReplicaAppend r g v l x b =>
      i ← send (mkMessage r g v l x b);
      _ ← (if up r then modify (deliver i) else mret ());
      mret i
  | ReplicaGetLogEntry r v l => if up r then handle _ (ReplicaGetLogEntry r v l) else throw lost
  | ReplicaSeal r v => if up r then handle _ (ReplicaSeal r v) else throw lost
  | Shuffle l => λ w, (Ret (shuffle w l), w)
  | e => handle _ e
  end.

(** The outcome of every operation, whatever it is. *)
Fixpoint run_ops (vl : nat) (os : list log_op) (w : World) : list (outcome log_result) * World :=
  match os with
  | [] => ([], w)
  | o :: os' =>
      let '(r, w1) := interp serve (op_prog vl o) w in
      let '(rs, w2) := run_ops vl os' w1 in (r :: rs, w2)
  end.
End runs.

(** What the specification says of an outcome. *)
Definition agrees (s : option log_result) (o : outcome log_result) : Prop :=
  match s with Some r => o = Ret r | None => ∃ e, o = Throw e end.

(** ** The metadata store *)

(** A chain as reconfigurations make it. *)
Record chain_ok a : Prop := {
  ch_configs : Forall (λ c, 1 ≤ version_id c ∧ end_index c = i64_max ∧
    first_position a ≤ start_index c ≤ next_position a) (a_chain a);
  ch_starts : starts_increase (a_chain a);
  ch_entries : a_chain a = [] → a_entries a = [];
  ch_bounds : i64_min ≤ first_position a ∧ next_position a < i64_max }.

Section chain.
Context (a : alog) (Ha : chain_ok a).
Abbreviation cur := (current_config a).

Lemma current_cases : (a_chain a = [] ∧ cur = default_MetadataConfig) ∨
  (∃ ch, a_chain a = ch ++ [cur] ∧ cur ∈ a_chain a).
Proof.
  unfold current_config. destruct (chain_snoc_cases (a_chain a)) as [E|(ch & c & E)]; rewrite E.
  - by left.
  - right. exists ch. rewrite last_snoc. split; [done|]. set_solver.
Qed.

Lemma current_start : start_index cur ≤ next_position a.
Proof.
  destruct current_cases as [[E ->]|(ch & E & Hin)].
  - unfold next_position, first_position. rewrite E. simpl. lia.
  - pose proof (ch_configs a Ha) as Hall. rewrite Forall_forall in Hall. by apply Hall.
Qed.

Lemma lookup_next l : a_chain a ≠ [] → next_position a ≤ l → chain_lookup l (a_chain a) = Some cur.
Proof.
  intros Hne Hl. destruct current_cases as [[E _]|(ch & E & Hin)]; [done|].
  pose proof current_start. unfold chain_lookup. rewrite E, filter_app, filter_cons_True by lia.
  by rewrite filter_nil, last_snoc.
Qed.

(** Looking up among the configs of a longer chain. *)
Lemma chain_lookup_snoc l c ch :
  chain_lookup l (ch ++ [c]) = if decide (start_index c ≤ l) then Some c else chain_lookup l ch.
Proof.
  unfold chain_lookup. rewrite filter_app, filter_cons, filter_nil. case_decide.
  - by rewrite last_snoc.
  - by rewrite app_nil_r.
Qed.

Lemma entry_next l : next_position a ≤ l → entry_at a l = None.
Proof.
  intros Hl. unfold entry_at. case_decide; [|done]. apply lookup_ge_None.
  unfold next_position in Hl. lia.
Qed.

Lemma entry_first l : l < first_position a → entry_at a l = None.
Proof. intros Hl. unfold entry_at. by rewrite decide_False by lia. Qed.

(** Without a config there is no entry. *)
Lemma lookup_None_entry l : chain_lookup l (a_chain a) = None → entry_at a l = None.
Proof.
  intros E. destruct (a_chain a) as [|c ch] eqn:Ech.
  - unfold entry_at. rewrite (ch_entries a Ha Ech), lookup_nil. by case_decide.
  - apply entry_first. unfold first_position. rewrite Ech.
    unfold chain_lookup in E. apply last_None in E. rewrite filter_cons in E. case_decide; [done|lia].
Qed.

(** One more entry, one more config. *)
Lemma entry_append x l :
  entry_at (mkLog (a_chain a) (a_entries a ++ [x])) l =
    if decide (l = next_position a) then Some x else entry_at a l.
Proof.
  unfold entry_at. change (first_position (mkLog _ _)) with (first_position a). simpl.
  assert (first_position a ≤ next_position a) by (unfold next_position; lia).
  case_decide as Hl; case_decide as He; unfold next_position in *; try lia; try done.
  - subst l. replace (Z.to_nat _) with (length (a_entries a)) by lia. by rewrite list_lookup_middle.
  - destruct (decide (l < first_position a + length (a_entries a))).
    + by rewrite lookup_app_l by lia.
    + rewrite !lookup_ge_None_2; [done|lia|rewrite length_app; simpl; lia].
Qed.

Lemma chain_ok_append x : a_chain a ≠ [] → next_position a + 1 < i64_max →
  chain_ok (mkLog (a_chain a) (a_entries a ++ [x])).
Proof.
  intros Hne Hn. assert (E : next_position (mkLog (a_chain a) (a_entries a ++ [x])) = next_position a + 1).
  { unfold next_position. simpl. rewrite length_app. change (first_position (mkLog _ _)) with (first_position a).
    simpl. lia. }
  split; rewrite ?E; simpl; [|apply Ha|done|split; [apply Ha|done]].
  eapply Forall_impl; [apply Ha|]. simpl. change (first_position (mkLog _ _)) with (first_position a).
  intros c (? & ? & ?). lia.
Qed.

(** The config that starts at the next position. *)
Definition with_config (c : MetadataConfig) : alog := mkLog (a_chain a ++ [c]) (a_entries a).
Section config.
Context (c : MetadataConfig) (Hstart : start_index c = next_position a).

Lemma current_with_config : current_config (with_config c) = c.
Proof. unfold current_config. simpl. by rewrite last_snoc. Qed.
Lemma first_with_config : first_position (with_config c) = first_position a.
Proof.
  revert Hstart. unfold next_position, first_position, with_config.
  destruct (a_chain a) eqn:E; [|done]. rewrite (ch_entries a Ha E). simpl. lia.
Qed.
Lemma next_with_config : next_position (with_config c) = next_position a.
Proof. unfold next_position. by rewrite first_with_config. Qed.
Lemma entry_with_config l : entry_at (with_config c) l = entry_at a l.
Proof. unfold entry_at. by rewrite first_with_config. Qed.

Lemma chain_ok_config : 1 ≤ version_id c → end_index c = i64_max → chain_ok (with_config c).
Proof.
  intros Hv He. assert (first_position a ≤ next_position a) by (unfold next_position; lia).
  split; rewrite ?first_with_config, ?next_with_config; simpl.
  - apply Forall_app. split; [apply Ha|]. apply Forall_singleton. split_and!; [done..|lia|lia].
  - unfold starts_increase. apply StronglySorted_app. split_and!; [|apply Ha|repeat constructor].
    intros c1 c2 Hc1 ->%list_elem_of_singleton. pose proof (ch_configs a Ha) as Hall.
    rewrite Forall_forall in Hall. destruct (Hall c1 Hc1) as (_ & _ & ?). lia.
  - by destruct (a_chain a).
  - apply Ha.
Qed.
End config.

Context (st : Metadata.State) (Hst : represents (a_chain a) st).

Lemma current_version : Metadata.getCurrentVersionId st = version_id cur.
Proof.
  unfold Metadata.getCurrentVersionId, current_config. rewrite (represents_last _ _ Hst).
  by destruct (last (a_chain a)).
Qed.

Lemma current_found : Metadata.getConfig (version_id cur) st = Some cur.
Proof.
  destruct current_cases as [[E ->]|(ch & E & Hin)]; [done|].
  pose proof (ch_configs a Ha) as Hall. rewrite Forall_forall in Hall. destruct (Hall _ Hin) as (Hv & _).
  unfold Metadata.getConfig. rewrite (proj2 (Z.eqb_neq _ _)) by lia.
  destruct Hst as (Hc & _ & -> & _). rewrite E in Hc |- *.
  destruct (configs_of_snoc ch cur Hc) as (m & Hm & -> & _). by apply om_find_last.
Qed.

Lemma config_lookup l : Metadata.getConfigUsingLogId l st =
  if decide (l < i64_max) then chain_lookup l (a_chain a) else None.
Proof.
  case_decide as Hl.
  - apply getConfigUsingLogId_newest; [done|apply Ha|].
    eapply Forall_impl; [apply Ha|]. simpl. intros c (_ & -> & _). done.
  - destruct (getConfigUsingLogId l st) as [c|] eqn:E; [|done]. exfalso. apply Hl.
    pose proof (getConfigUsingLogId_range _ _ _ E) as Hr. apply getConfigUsingLogId_elem in E.
    destruct Hst as (_ & _ & _ & Hby). rewrite Hby in E.
    apply list_elem_of_fmap in E as (e & -> & He). destruct (by_start_ok (a_chain a)) as [_ Hin].
    rewrite Forall_forall in Hin. apply Hin in He as [_ He].
    pose proof (ch_configs a Ha) as Hall. rewrite Forall_forall in Hall. destruct (Hall _ He) as (_ & Ee & _).
    rewrite Ee in Hr. apply Hr.
Qed.
End chain.

(** ** Segments and replicas *)

(** The payload a replica has at a position of a version. *)
Definition find_in (rep : Rep) (v l : Z) : option string :=
  nanoLogStore_ rep !! v ≫= λ n, om_find l (logs_ n).
Abbreviation set_segment v n' rep := (Replica.with_store (<[v := n']> (nanoLogStore_ rep)) rep).

Lemma find_in_segment (rep : Rep) v st0 l :
  find_in rep v l = om_find l (logs_ (segment_of v st0 rep)).
Proof. unfold find_in, segment_of. by destruct (nanoLogStore_ rep !! v). Qed.
Lemma find_in_set v v' (n' : Nano) rep l :
  find_in (set_segment v n' rep) v' l = if decide (v' = v) then om_find l (logs_ n') else find_in rep v' l.
Proof.
  unfold find_in. simpl. case_decide; [subst; by rewrite lookup_insert_eq|by rewrite lookup_insert_ne].
Qed.

(** A segment all of whose positions up to the next one are complete. *)
Definition drained (l : Z) (n : Nano) : Prop :=
  sealed_ n = false ∧ completionQueue_ n = {| currentIndex := l; promises := [] |}.
Definition with_entry (l : Z) (x : string) (n : Nano) : Nano :=
  with_logs (om_set l x (logs_ n)) {| currentIndex := l + 1; promises := [] |} n.

Lemma drained_append i g l x n :
  drained l n → om_find l (logs_ n) = None → g ≤ l →
  NanoLog.append i (Some g) l x false n = ((Pending i, [(i, l)]), with_entry l x n).
Proof.
  intros [Hs Hq] Hl Hg. unfold NanoLog.append, append_locked, om_emplace. rewrite Hs, Hl, Hq. simpl.
  unfold add, checkAndCompleteAfterCurrentIndex. simpl. rewrite Z.eqb_refl. simpl.
  unfold completeAllBelow, erase_all, om_erase. rewrite filter_cons_False by auto. simpl.
  by rewrite Z.gtb_ltb, (proj2 (Z.ltb_ge _ _)) by lia.
Qed.

Section replica.
Context (v st0 : Z) (meta : Metadata.State) (Hc : has_config v st0 meta).

Lemma append_run i g l x (rep : Rep) :
  drained l (segment_of v st0 rep) → find_in rep v l = None → g ≤ l →
  Replica.append i (Some g) v l x false (rep, meta) =
    ((Pending i, [(i, l)]), (set_segment v (with_entry l x (segment_of v st0 rep)) rep, meta)).
Proof.
  intros Hd Hl Hg. rewrite (find_in_segment _ _ st0) in Hl. pose proof (drained_append i g l x _ Hd Hl Hg) as E.
  destruct Hc as (c & Ec & Hst). unfold Replica.append, lookup_or_create.
  rewrite (bind_Ret _ _ _ (nanoLogStore_ rep) (rep, meta)) by done. unfold getNanoLog.
  unfold segment_of in *. destruct (nanoLogStore_ rep !! v) as [n0|] eqn:En; simpl in *; [by rewrite E|].
  rewrite (bind_Ret _ _ _ c (rep, meta)) by by apply config_found.
  rewrite (create_segment v st0 rep meta c En Hst), E. simpl. unfold Replica.with_store. simpl. by rewrite insert_insert_eq.
Qed.

Lemma seal_run (rep : Rep) :
  Replica.seal v (rep, meta) = (Ret (commitIndex (segment_of v st0 rep)),
    (set_segment v (with_sealed true (segment_of v st0 rep)) rep, meta)).
Proof.
  destruct Hc as (c & Ec & Hst). unfold Replica.seal, segment_of.
  rewrite (bind_Ret _ _ _ (nanoLogStore_ rep) (rep, meta)) by done. unfold getNanoLog.
  rewrite (bind_Ret _ _ _ c (rep, meta)) by by apply config_found.
  destruct (nanoLogStore_ rep !! v) as [n0|] eqn:En; simpl.
  - by rewrite (bind_Ret _ _ _ (Some n0) (rep, meta)) by done.
  - erewrite bind_Ret.
    2: { erewrite bind_Ret by exact (create_segment v st0 rep meta c En Hst).
         unfold store, gets, mbind, M_bind. simpl. by rewrite lookup_insert_eq. }
    unfold on_nanolog. simpl. unfold Replica.with_store. simpl. by rewrite insert_insert_eq.
Qed.
End replica.

Lemma read_run (rep : Rep) (meta : Metadata.State) v l :
  Replica.getLogEntry v l (rep, meta) =
    (Ret (match find_in rep v l with Some x => inl (mkLogEntry l x) | None => inr NotFound end),
     (rep, meta)).
Proof.
  unfold Replica.getLogEntry, find_in. rewrite (bind_Ret _ _ _ (nanoLogStore_ rep) (rep, meta)) by done.
  unfold getNanoLog. destruct (nanoLogStore_ rep !! v) as [n0|] eqn:En; [|done]. simpl.
  unfold on_nanolog. simpl. unfold NanoLog.getLogEntry.
  assert (set_segment v n0 rep = rep) as <-;
    [destruct rep; unfold Replica.with_store; simpl in *; by rewrite insert_id|].
  by destruct (om_find l (logs_ n0)); simpl; rewrite insert_insert_eq.
Qed.

(** ** Calls *)

Section calls.
Context (n : nat) (up : nat → bool) (lost : exn) (shuffle : World → list nat → list nat).
Context (Hshuffle : ∀ w l, shuffle w l ≡ₚ l).
Abbreviation is_up := (λ r, up r = true).
Abbreviation run := (interp (serve up lost shuffle)).
Implicit Types w : World.

Lemma meta_get {A} (f : Metadata.State → A) w : on_meta (gets f) w = (Ret (f (w_meta w)), w).
Proof. by destruct w. Qed.

Lemma sequencer_get {A} s (f : SequencerImpl → A) k sq w :
  w_sequencers w !! s = Some (k, sq) → on_sequencer s (gets f) w = (Ret (f sq), w).
Proof.
  intros E. unfold on_sequencer. rewrite E. simpl. rewrite list_insert_id by done. by destruct w.
Qed.

Lemma read_call r v l rep w : up r = true → w_replicas w !! r = Some rep →
  serve up lost shuffle _ (ReplicaGetLogEntry r v l) w =
    (Ret (match find_in rep v l with Some x => inl (mkLogEntry l x) | None => inr NotFound end), w).
Proof.
  intros Hr E. simpl. rewrite Hr. unfold on_replica. rewrite E, read_run.
  rewrite list_insert_id by done. by destruct w.
Qed.

(** Some of the replicas that are up have changed by [f], and nothing the
    programs read but the futures. *)
Record touched (f : Rep → Rep) (rs : list nat) w0 w : Prop := {
  t_meta : w_meta w = w_meta w0;
  t_sequencers : w_sequencers w = w_sequencers w0;
  t_registry : w_registry w = w_registry w0;
  t_vlogs : w_vlogs w = w_vlogs w0;
  t_replicas : ∀ r rep, up r = true → w_replicas w0 !! r = Some rep →
    w_replicas w !! r = Some (if decide (r ∈ rs) then f rep else rep) }.

Lemma touched_none f w : touched f [] w w.
Proof. by split. Qed.

Lemma touched_up f rs w0 w w' r rep :
  touched f rs w0 w → r ∉ rs → w_replicas w0 !! r = Some rep → up r = true →
  w_meta w' = w_meta w → w_sequencers w' = w_sequencers w → w_registry w' = w_registry w →
  w_vlogs w' = w_vlogs w → w_replicas w' = <[r := f rep]> (w_replicas w) →
  touched f (rs ++ [r]) w0 w'.
Proof.
  intros [] Hr E Hup Em Es Eg Ev Er. split; rewrite ?Em, ?Es, ?Eg, ?Ev; try done.
  intros r' rep' Hup' E'. rewrite Er. destruct (decide (r' = r)) as [->|Hne].
  - simplify_eq. rewrite decide_True by set_solver. apply list_lookup_insert_eq.
    eapply lookup_lt_Some. by apply t_replicas0.
  - rewrite list_lookup_insert_ne, (t_replicas0 _ _ Hup' E') by done.
    by rewrite (decide_ext (r' ∈ rs) (r' ∈ rs ++ [r])) by set_solver.
Qed.

Lemma touched_down f rs w0 w w' r :
  touched f rs w0 w → up r = false → w_meta w' = w_meta w → w_sequencers w' = w_sequencers w →
  w_registry w' = w_registry w → w_vlogs w' = w_vlogs w → w_replicas w' = w_replicas w →
  touched f (rs ++ [r]) w0 w'.
Proof.
  intros [] Hr Em Es Eg Ev Er. split; rewrite ?Em, ?Es, ?Eg, ?Ev, ?Er; try done.
  intros r' rep' Hup' E'. rewrite (t_replicas0 _ _ Hup' E').
  assert (r' ≠ r) by congruence. by rewrite (decide_ext (r' ∈ rs) (r' ∈ rs ++ [r])) by set_solver.
Qed.

(** *** Appending to all replicas *)

Section sends.
Context (v st0 l : Z) (x : string) (g : Z) (w0 : World).
Definition add_entry (rep : Rep) : Rep := set_segment v (with_entry l x (segment_of v st0 rep)) rep.

(** A replica that is up can take the position. *)
Definition can_append r : Prop := up r = true → ∃ rep, w_replicas w0 !! r = Some rep ∧
  drained l (segment_of v st0 rep) ∧ find_in rep v l = None.
Context (Hc : has_config v st0 (w_meta w0)) (Hg : g ≤ l)
  (Hold : ∀ y, y ∈ w_results w0 → (y.1 < length (w_sent w0))%nat).

(** The requests to the replicas [rs] have been sent. *)
Record sending (rs : list nat) w : Prop := {
  sg_touched : touched add_entry rs w0 w;
  sg_sent : length (w_sent w) = (length (w_sent w0) + length rs)%nat;
  sg_results : ∃ acks, w_results w = w_results w0 ++ acks ∧ length acks = length (filter is_up rs) ∧
    ∀ y, y ∈ acks → y.2 = Ret l ∧ (length (w_sent w0) ≤ y.1 < length (w_sent w))%nat }.

Lemma sending_keys rs w : sending rs w → length (w_sent w) ∉ (w_results w).*1.
Proof.
  intros [_ Hs (acks & -> & _ & Ha)]. rewrite fmap_app, elem_of_app.
  intros [([i o] & Ei & Hi)%list_elem_of_fmap|([i o] & Ei & Hi)%list_elem_of_fmap];
    simpl in Ei; subst i; [specialize (Hold _ Hi)|specialize (Ha _ Hi)]; simpl in *; lia.
Qed.

Lemma send_call rs w r : sending rs w → r ∉ rs → can_append r →
  ∃ w', serve up lost shuffle _ (ReplicaAppend r (Some g) v l x false) w = (Ret (length (w_sent w)), w') ∧
    sending (rs ++ [r]) w'.
Proof.
  intros Hw Hr Hca. pose proof (sending_keys rs w Hw) as Hk.
  destruct Hw as [Ht Hs (acks & Er & Hl & Ha)]. simpl. unfold send, mbind, M_bind.
  destruct (up r) eqn:Hup; eexists (_ : World); (split; [reflexivity|]).
  - destruct (Hca Hup) as (rep & E & Hd & Hf).
    pose proof (t_replicas _ _ _ _ Ht r rep Hup E) as E1. rewrite decide_False in E1 by done.
    assert (Hc1 : has_config v st0 (w_meta w)) by by rewrite (t_meta _ _ _ _ Ht).
    unfold deliver. simpl. rewrite lookup_app_r, Nat.sub_diag by lia. simpl.
    rewrite E1, (append_run v st0 (w_meta w) Hc1) by done. simpl. split; simpl.
    + by eapply touched_up.
    + rewrite !length_app. simpl. lia.
    + unfold record_result. simpl. rewrite bool_decide_false by done.
      exists (acks ++ [(length (w_sent w), Ret l)]). rewrite Er, <- app_assoc.
      rewrite filter_app, !length_app, filter_cons_True by done. simpl. split_and!; [done|lia|].
      intros y [Hy| ->%list_elem_of_singleton]%elem_of_app; [|simpl; split; [done|lia]].
      destruct (Ha y Hy). split; [done|lia].
  - simpl. split; simpl.
    + by eapply touched_down.
    + rewrite !length_app. simpl. lia.
    + exists acks. rewrite filter_app, !length_app, filter_cons_False by congruence. simpl.
      split_and!; [done|lia|]. intros y Hy. destruct (Ha y Hy). split; [done|lia].
Qed.

Lemma send_all rs done w : sending done w → NoDup (done ++ rs) → (∀ r, r ∈ rs → can_append r) →
  ∃ w', run (map_prog (λ '(r, g, v), perform (ReplicaAppend r (Some g) v l x false))
          (map (λ r, (r, g, v)) rs)) w = (Ret (seq (length (w_sent w)) (length rs)), w') ∧
    sending (done ++ rs) w'.
Proof.
  revert done w. induction rs as [|r rs IH]; intros done w Hw Hnd Hca; cbn [map map_prog].
  { exists w. by rewrite app_nil_r. }
  destruct (send_call done w r) as (w1 & E1 & Hw1); [done| |by apply Hca; left|].
  { apply NoDup_app in Hnd as (_ & Hd & _). intros Hin. apply (Hd r Hin). by left. }
  rewrite (interp_call _ _ _ _ _ _ E1).
  destruct (IH (done ++ [r]) w1) as (w2 & E2 & Hw2); [done|by rewrite <- app_assoc|by intros; apply Hca; right|].
  exists w2. rewrite (interp_bind_Ret _ _ _ _ _ _ E2), <- app_assoc in *. split; [|done].
  destruct Hw, Hw1. simpl. do 3 f_equal. rewrite sg_sent1, sg_sent0, length_app. simpl. f_equal. lia.
Qed.
End sends.

Lemma index_of_None i fs : i ∉ fs → index_of i fs = None.
Proof.
  intros Hi. unfold index_of. destruct (list_find (eq i) fs) as [[k j]|] eqn:E; [|done].
  apply list_find_Some in E as (E & <- & _). by apply list_elem_of_lookup_2 in E.
Qed.
Lemma index_of_in i fs : i ∈ fs → is_Some (index_of i fs).
Proof. intros Hi. apply fmap_is_Some. by apply (list_find_elem_of _ _ i). Qed.

Lemma events_of_others fs rs : (∀ y, y ∈ rs → y.1 ∉ fs) → future_events fs rs = [].
Proof.
  induction rs as [|[i o] rs IH]; intros Hrs; [done|]. unfold future_events in *. simpl.
  rewrite index_of_None by by apply (Hrs (i, o)); left. apply IH. intros y Hy. apply Hrs. by right.
Qed.
Lemma events_of_successes fs rs : (∀ y, y ∈ rs → y.1 ∈ fs ∧ ∃ l, y.2 = Ret l) →
  length (future_events fs rs) = length rs ∧ successes (future_events fs rs) = length rs.
Proof.
  induction rs as [|[i o] rs IH]; intros Hrs; [done|]. unfold future_events in *. simpl.
  destruct (Hrs (i, o)) as [[k Hk]%index_of_in [l El]]; [by left|]. simpl in *. rewrite Hk, El.
  destruct IH as [E1 E2]; [intros y Hy; apply Hrs; by right|].
  unfold successes in *. rewrite filter_cons_True by done. simpl. split; by f_equal.
Qed.

(** A quorum of the futures has succeeded. *)
Lemma await_quorum k w old acks : w_results w = old ++ acks →
  (∀ y, y ∈ old → (y.1 < k)%nat) →
  (∀ y, y ∈ acks → (k ≤ y.1 < k + n)%nat ∧ ∃ l, y.2 = Ret l) →
  (length acks ≤ n)%nat → (n < 2 * length acks)%nat →
  handle _ (AwaitAnyN (seq k n) (n / 2 + 1)) w = (Ret (), w).
Proof.
  intros Er Hold Hacks Hle Hmaj. simpl. rewrite Er, length_seq.
  assert (E : future_events (seq k n) (old ++ acks) = future_events (seq k n) acks).
  { unfold future_events. rewrite omap_app. fold (future_events (seq k n) old).
    rewrite events_of_others; [done|]. intros y Hy. rewrite elem_of_seq. specialize (Hold y Hy). lia. }
  destruct (events_of_successes (seq k n) acks) as [El Es].
  { intros y Hy. rewrite elem_of_seq. by apply Hacks. }
  pose proof (Z.div_mod n 2). pose proof (Z.mod_pos_bound n 2).
  rewrite E, anyNSuccessful_spec by (rewrite ?El; lia). unfold quorum_spec.
  by rewrite Es, bool_decide_true by lia.
Qed.

Lemma sequencer_modify s f k sq w :
  w_sequencers w !! s = Some (k, sq) →
  on_sequencer s (modify f) w = (Ret (), set_sequencers (<[s := (k, f sq)]> (w_sequencers w)) w).
Proof. intros E. unfold on_sequencer. by rewrite E. Qed.

(** ** Quiet worlds *)

Context (names : string → Prop) (vl : nat).

(** A sequencer that appends to all replicas. *)
Definition impl_at w (s : nat) (sq : SequencerImpl) : Prop :=
  w_sequencers w !! s = Some (KImpl, sq) ∧ replicaSet_ sq = seq 0 n ∧ quorumSize_ sq = (n / 2 + 1)%Z.
Definition names_ok w : Prop := ∀ id, names id →
  ∃ s sq, registry_sequencer id (w_registry w) = Some s ∧ impl_at w s sq.
(** The sequencer in use; none before the first config. *)
Definition sequencer_ok a w s : Prop :=
  match a_chain a with
  | [] => ∃ sq, w_sequencers w !! s = Some (KNull, sq)
  | _ => ∃ sq, impl_at w s sq ∧ versionId_ sq = version_id (current_config a) ∧
           sequenceNum_ sq = next_position a ∧ globalCommitIndex_ sq ≤ next_position a
  end.
Abbreviation segment a rep :=
  (segment_of (version_id (current_config a)) (start_index (current_config a)) rep).
Record replica_ok a (rep : Rep) : Prop := {
  r_newer : ∀ v, version_id (current_config a) < v → nanoLogStore_ rep !! v = None;
  r_found : ∀ l c, chain_lookup l (a_chain a) = Some c → find_in rep (version_id c) l = entry_at a l;
  r_drained : drained (next_position a) (segment a rep) }.

(** No call is under way: the replicas that are up have all entries, the
    sequencer in use is past them, and the virtual log has the current
    config. *)
Record quiet a w : Prop := {
  q_meta : represents (a_chain a) (w_meta w);
  q_chain : chain_ok a;
  q_names : names_ok w;
  q_vlog : ∃ vst, w_vlogs w !! vl = Some vst ∧ replicaSet vst = seq 0 n ∧
    metadataConfig vst = current_config a ∧ sequencer_ok a w (sequencer vst);
  q_results : ∀ y, y ∈ w_results w → (y.1 < length (w_sent w))%nat;
  q_replicas : ∀ r, (r < n)%nat → up r = true →
    ∃ rep, w_replicas w !! r = Some rep ∧ replica_ok a rep }.

Lemma names_ok_set w w' s sq sq' : names_ok w → impl_at w s sq →
  w_registry w' = w_registry w → w_sequencers w' = <[s := (KImpl, sq')]> (w_sequencers w) →
  replicaSet_ sq' = replicaSet_ sq → quorumSize_ sq' = quorumSize_ sq → names_ok w'.
Proof.
  intros Hn (E & Er & Eq) Eg Es Er' Eq' id Hid. destruct (Hn id Hid) as (s1 & sq1 & E1 & Himpl).
  rewrite Eg. exists s1. destruct (decide (s1 = s)) as [->|Hne].
  - exists sq'. split; [done|]. unfold impl_at. rewrite Es, Er', Eq'. split; [|done].
    apply list_lookup_insert_eq. by eapply lookup_lt_Some.
  - exists sq1. split; [done|]. unfold impl_at. by rewrite Es, list_lookup_insert_ne.
Qed.

Context (Hmaj : (n < 2 * length (filter is_up (seq 0 n)))%nat).

Lemma quiet_config_found a w : quiet a w →
  has_config (version_id (current_config a)) (start_index (current_config a)) (w_meta w).
Proof.
  intros Hw. exists (current_config a). split; [|done]. by apply current_found; apply Hw.
Qed.

(** ** Appending *)

Lemma replicate_run v st0 l x w s sq :
  impl_at w s sq → versionId_ sq = v → globalCommitIndex_ sq ≤ l → has_config v st0 (w_meta w) →
  (∀ y, y ∈ w_results w → (y.1 < length (w_sent w))%nat) →
  (∀ r, r ∈ seq 0 n → can_append v st0 l w r) →
  ∃ w', run (replicate_to_all s l x) w = (Ret (), w') ∧ sending v st0 l x w (seq 0 n) w'.
Proof.
  intros (E & Er & Eq) Ev Hg Hc Hold Hca. unfold replicate_to_all.
  rewrite (interp_call (serve up lost shuffle) (SeqReplicas s) _ _ _ _ (sequencer_get s replicaSet_ _ _ _ E)), Er.
  erewrite interp_bind_Ret; cycle 1.
  { apply (interp_map_reads _ _ (λ r, (r, globalCommitIndex_ sq, v))). intros r _.
    rewrite (interp_call (serve up lost shuffle) (SeqLoadCommit s) _ _ _ _ (sequencer_get s globalCommitIndex_ _ _ _ E)).
    rewrite (interp_call (serve up lost shuffle) (SeqVersion s) _ _ _ _ (sequencer_get s versionId_ _ _ _ E)). by rewrite Ev. }
  destruct (send_all v st0 l x (globalCommitIndex_ sq) w Hc Hg Hold (seq 0 n) [] w) as (w1 & E1 & Hw1).
  { split; [apply touched_none|simpl; lia|]. exists []. rewrite app_nil_r. split_and!; [done..|].
    by intros y ?%not_elem_of_nil. }
  { apply NoDup_seq. }
  { done. }
  rewrite (interp_bind_Ret _ _ _ _ _ _ E1). exists w1. split; [|done].
  destruct Hw1 as [Ht Hs (acks & Er1 & Hl & Ha)]. rewrite length_seq in *.
  assert (E' : w_sequencers w1 !! s = Some (KImpl, sq)) by by rewrite (t_sequencers _ _ _ _ Ht).
  rewrite (interp_call (serve up lost shuffle) (SeqQuorum s) _ _ _ _ (sequencer_get s quorumSize_ _ _ _ E')), Eq.
  rewrite interp_perform. eapply await_quorum; [exact Er1|done| | |by rewrite Hl].
  - intros y Hy. destruct (Ha y Hy). split; [simpl in Hs; rewrite length_seq in Hs; lia|by eexists].
  - rewrite Hl. etrans; [apply length_filter|]. simpl. by rewrite length_seq.
Qed.

Lemma quiet_can_append a w r : quiet a w → a_chain a ≠ [] → r ∈ seq 0 n →
  can_append (version_id (current_config a)) (start_index (current_config a)) (next_position a) w r.
Proof.
  intros Hw Hne Hr%elem_of_seq Hup. destruct (q_replicas a w Hw r) as (rep & E & Hrep); [lia|done|].
  exists rep. split_and!; [done|apply Hrep|]. rewrite (r_found _ _ Hrep _ (current_config a)).
  - by apply entry_next.
  - apply lookup_next; [apply Hw|done|done].
Qed.

(** The first attempt succeeds. *)
Lemma retry_once {A} k (ff : nat → lprog A) w r w' :
  run (ff 0%nat) w = (Ret r, w') → run (retrying k ff) w = (Ret r, w').
Proof.
  intros E. unfold retrying.
  by destruct (k - 1)%nat; simpl; erewrite interp_bind_Ret by by apply interp_attempt.
Qed.

(** The log with one more entry. *)
Definition with_payload a x : alog := mkLog (a_chain a) (a_entries a ++ [x]).

Lemma next_with_payload a x : next_position (with_payload a x) = next_position a + 1.
Proof.
  unfold next_position. change (first_position (with_payload a x)) with (first_position a).
  simpl. rewrite length_app. simpl. lia.
Qed.

Lemma replica_ok_append a rep x : chain_ok a → a_chain a ≠ [] → replica_ok a rep →
  replica_ok (with_payload a x)
    (add_entry (version_id (current_config a)) (start_index (current_config a)) (next_position a) x rep).
Proof.
  intros Ha Hne [Hnew Hfound [Hs Hq]]. unfold add_entry.
  split; change (current_config (with_payload a x)) with (current_config a).
  - intros v Hv. simpl. rewrite lookup_insert_ne by lia. by apply Hnew.
  - intros l c Hl. unfold with_payload. rewrite entry_append, find_in_set. simpl in Hl.
    specialize (Hfound l c Hl). destruct (decide (l = next_position a)) as [->|Hne'].
    + rewrite (lookup_next a Ha) in Hl by (done || lia). simplify_eq.
      rewrite decide_True by done. simpl. apply om_find_set_eq.
    + case_decide as Ev; [|done]. simpl. rewrite om_find_set_ne by done.
      by rewrite <- find_in_segment, <- Ev.
  - rewrite segment_of_insert, next_with_payload. by split.
Qed.

(** What an append at the sequencer leaves behind. *)
Record append_done v st0 l x s (sq : SequencerImpl) w w' : Prop := {
  ad_meta : w_meta w' = w_meta w;
  ad_registry : w_registry w' = w_registry w;
  ad_vlogs : w_vlogs w' = w_vlogs w;
  ad_sequencer : ∃ sq', w_sequencers w' = <[s := (KImpl, sq')]> (w_sequencers w) ∧
    replicaSet_ sq' = replicaSet_ sq ∧ quorumSize_ sq' = quorumSize_ sq ∧
    versionId_ sq' = versionId_ sq ∧ sequenceNum_ sq' = l + 1 ∧ globalCommitIndex_ sq' ≤ l;
  ad_results : ∀ y, y ∈ w_results w' → (y.1 < length (w_sent w'))%nat;
  ad_replicas : ∀ r rep, (r < n)%nat → up r = true → w_replicas w !! r = Some rep →
    w_replicas w' !! r = Some (add_entry v st0 l x rep) }.

Lemma sequencer_append_run v st0 l x w s sq :
  impl_at w s sq → versionId_ sq = v → sequenceNum_ sq = l → globalCommitIndex_ sq ≤ l →
  i64_min ≤ l → l + 1 < i64_max → has_config v st0 (w_meta w) →
  (∀ y, y ∈ w_results w → (y.1 < length (w_sent w))%nat) →
  (∀ r, r ∈ seq 0 n → can_append v st0 l w r) →
  ∃ w', run (SequencerImpl_append s x) w = (Ret l, w') ∧ append_done v st0 l x s sq w w'.
Proof.
  intros (Es & Hrs & Hqs) Hv Hnum Hg Hmin Hmax Hc Hold Hca. unfold SequencerImpl_append.
  set (sq1 := (fetch_add sq).2).
  set (w1 := set_assigned ((l, x) :: w_assigned w)
    (set_sequencers (<[s := (KImpl, sq1)]> (w_sequencers w)) w)).
  rewrite (interp_call (serve up lost shuffle) (SeqFetchAdd s x) _ w l w1).
  2: { simpl. unfold on_sequencer, mbind, M_bind, modify. rewrite Es. simpl. unfold w1, sq1. simpl.
       by rewrite Hnum. }
  assert (Hsq1 : sequenceNum_ sq1 = l + 1).
  { simpl. rewrite Hnum. apply wrap64_id, in_i64_spec. lia. }
  assert (Himpl1 : impl_at w1 s sq1).
  { split; [|done]. simpl. apply list_lookup_insert_eq. by eapply lookup_lt_Some. }
  destruct (replicate_run v st0 l x w1 s sq1) as (w2 & E2 & [Ht Hsent (acks & Er & _ & Hacks)]); [done..|].
  set (sq2 := raise_commit l sq1).
  assert (Es2 : w_sequencers w2 !! s = Some (KImpl, sq1)).
  { rewrite (t_sequencers _ _ _ _ Ht). apply Himpl1. }
  exists (set_sequencers (<[s := (KImpl, sq2)]> (w_sequencers w2)) w2). split.
  { apply retry_once. rewrite (interp_bind_Ret _ _ _ _ _ _ E2).
    erewrite (interp_call (serve up lost shuffle) (SeqRaiseCommit s l)); [done|].
    apply (sequencer_modify s _ _ _ _ Es2). }
  split; [apply Ht..| | |]; simpl.
  - exists sq2. split; [rewrite (t_sequencers _ _ _ _ Ht); apply list_insert_insert_eq|].
    unfold sq2, raise_commit. case_match eqn:El; simpl; split_and!; try done; lia.
  - intros y. rewrite Er, elem_of_app. intros [Hy%Hold|Hy]; [|by apply Hacks]. simpl in Hsent. lia.
  - intros r rep Hr Hup E. rewrite (t_replicas _ _ _ _ Ht r rep Hup E), decide_True; [done|].
    apply elem_of_seq. lia.
Qed.

Lemma quiet_append a w x : quiet a w → a_chain a ≠ [] → next_position a + 1 < i64_max →
  ∃ w', run (append vl x) w = (Ret (next_position a), w') ∧ quiet (with_payload a x) w'.
Proof.
  intros Hw Hne Hn. destruct (q_vlog a w Hw) as (vst & Ev & Hrs & Hcfg & Hsq).
  assert (Hsq' : ∃ sq, impl_at w (sequencer vst) sq ∧ versionId_ sq = version_id (current_config a) ∧
    sequenceNum_ sq = next_position a ∧ globalCommitIndex_ sq ≤ next_position a).
  { unfold sequencer_ok in Hsq. by destruct (a_chain a). }
  clear Hsq. destruct Hsq' as (sq & Himpl & Hv & Hnum & Hg).
  destruct (sequencer_append_run (version_id (current_config a)) (start_index (current_config a))
    (next_position a) x w (sequencer vst) sq) as (w' & E & Hd); [done..| |done| | | |].
  { pose proof (ch_bounds a (q_chain a w Hw)). unfold next_position in *. lia. }
  { by apply quiet_config_found. }
  { apply Hw. }
  { intros r. by apply quiet_can_append. }
  exists w'. split.
  { unfold append. rewrite (interp_call (serve up lost shuffle) (GetState vl) _ w vst w) by (simpl; by rewrite Ev).
    unfold sequencer_append. destruct (Himpl) as (Es & _).
    by rewrite (interp_call (serve up lost shuffle) (SeqKind (sequencer vst)) _ w KImpl w) by (simpl; by rewrite Es). }
  destruct Hd as [Em Eg Evl (sq' & Es' & Ers & Eqs & Evs & Ens & Egs) Hres Hreps]. split.
  - rewrite Em. apply Hw.
  - by apply chain_ok_append; [apply Hw|..].
  - by eapply (names_ok_set w); [apply Hw|exact Himpl|..].
  - exists vst. rewrite Evl. split_and!; [done..|].
    unfold sequencer_ok. simpl. destruct (a_chain a) eqn:Ech; [done|]. exists sq'.
    rewrite next_with_payload, Evs, Ens. split_and!; [|done|done|lia].
    destruct Himpl as (El & ? & ?). unfold impl_at. rewrite Es', Ers, Eqs. split; [|done].
    apply list_lookup_insert_eq. by eapply lookup_lt_Some.
  - exact Hres.
  - intros r Hr Hup. destruct (q_replicas a w Hw r Hr Hup) as (rep & Er & Hrep).
    eexists. split; [by apply Hreps|]. by apply (replica_ok_append a rep x); [apply Hw|..].
Qed.

(** ** Reading *)

(** There is a replica that is up; the first one. *)
Lemma first_up : ∃ j, (j < n)%nat ∧ up j = true ∧ ∀ i, (i < j)%nat → up i = false.
Proof.
  assert (∃ r, r ∈ filter is_up (seq 0 n)) as (r & [Hup Hr]%list_elem_of_filter).
  { destruct (filter is_up (seq 0 n)) as [|r rs]; simpl in *; [lia|]. exists r. by left. }
  destruct (list_find_elem_of is_up _ r Hr Hup) as ([j r'] & (Hj & Hup' & Hlt)%list_find_Some).
  apply lookup_seq in Hj as [-> Hj]. exists j. split_and!; [done|done|]. intros i Hi.
  apply not_true_is_false. apply (Hlt i i); [|done]. apply lookup_seq. lia.
Qed.

(** One attempt of a read. *)
Lemma read_attempt_run a w l c r : quiet a w → chain_lookup l (a_chain a) = Some c → (r < n)%nat →
  run (read_attempt vl (version_id c) l r) w =
    (match entry_at a l with
     | Some x => if up r then Ret (inl (mkLogEntry l x)) else Throw lost
     | None => Throw (if up r then RuntimeError "failed to get log entry" else lost)
     end, w).
Proof.
  intros Hw Hl Hr. destruct (q_vlog a w Hw) as (vst & Ev & Hrs & _). unfold read_attempt.
  rewrite (interp_call (serve up lost shuffle) (GetState vl) _ w vst w) by (simpl; by rewrite Ev).
  assert (replicaSet vst !! r = Some r) as -> by (rewrite Hrs; apply lookup_seq; lia).
  destruct (up r) eqn:Hup.
  - destruct (q_replicas a w Hw r Hr Hup) as (rep & E & Hrep).
    rewrite (interp_call (serve up lost shuffle) _ _ _ _ _ (read_call r (version_id c) l rep w Hup E)).
    rewrite (r_found _ _ Hrep l c Hl). by destruct (entry_at a l).
  - erewrite interp_bind_Throw; [by destruct (entry_at a l)|].
    rewrite interp_perform. simpl. by rewrite Hup.
Qed.

Lemma quiet_read a w l : quiet a w →
  match entry_at a l with
  | Some x => run (getLogEntry vl l) w = (Ret (inl (mkLogEntry l x)), w)
  | None => ∃ e, run (getLogEntry vl l) w = (Throw e, w)
  end.
Proof.
  intros Hw. destruct (q_vlog a w Hw) as (vst & Ev & Hrs & _).
  pose proof (ch_bounds a (q_chain a w Hw)) as [_ Hmax].
  assert (Hrun : run (getLogEntry vl l) w =
    match (if decide (l < i64_max) then chain_lookup l (a_chain a) else None) with
    | Some c => run (retrying n (read_attempt vl (version_id c) l)) w
    | None => (Throw (RuntimeError "metadataconfig does not exist for the given log id"), w)
    end).
  { unfold getLogEntry. rewrite (interp_call (serve up lost shuffle) (MetaGetConfigUsingLogId l) _ w _ w (meta_get _ w)).
    rewrite (config_lookup a (q_chain a w Hw) _ (q_meta a w Hw)).
    destruct (if decide _ then _ else None) as [c|]; [|done].
    rewrite (interp_call (serve up lost shuffle) (GetState vl) _ w vst w) by (simpl; by rewrite Ev).
    by rewrite Hrs, length_seq. }
  rewrite Hrun. case_decide as Hl; [|rewrite entry_next by lia; by eexists].
  destruct (chain_lookup l (a_chain a)) as [c|] eqn:Ec.
  2: { rewrite (lookup_None_entry a (q_chain a w Hw)) by done. by eexists. }
  pose proof (λ r, read_attempt_run a w l c r Hw Ec) as Hatt.
  destruct first_up as (j & Hj & Hup & Hdown). destruct (entry_at a l) as [x|].
  - apply (interp_retrying_Ret _ _ _ _ _ _ j); [lia|by rewrite Hatt, Hup|].
    intros i Hi. exists lost. by rewrite Hatt, Hdown by lia.
  - apply interp_retrying_Throw. intros i Hi. rewrite Hatt by lia. by eexists.
Qed.

(** ** Reconfiguring *)

Section seals.
Context (v st0 l : Z) (w0 : World) (Hc : has_config v st0 (w_meta w0)).
Definition seal_segment (rep : Rep) : Rep := set_segment v (with_sealed true (segment_of v st0 rep)) rep.
Definition can_seal r : Prop := up r = true ∧ ∃ rep, w_replicas w0 !! r = Some rep ∧
  commitIndex (segment_of v st0 rep) = l.

(** The replicas [rs] have been sealed. *)
Record sealing (rs : list nat) w : Prop := {
  sl_touched : touched seal_segment rs w0 w;
  sl_sent : w_sent w = w_sent w0;
  sl_results : w_results w = w_results w0 }.

Lemma seal_call rs w r : sealing rs w → r ∉ rs → can_seal r →
  ∃ w', serve up lost shuffle _ (ReplicaSeal r v) w = (Ret l, w') ∧ sealing (rs ++ [r]) w'.
Proof.
  intros [Ht Hs Hr] Hnin (Hup & rep & E & Hl). simpl. rewrite Hup.
  pose proof (t_replicas _ _ _ _ Ht r rep Hup E) as E1. rewrite decide_False in E1 by done.
  assert (Hc1 : has_config v st0 (w_meta w)) by by rewrite (t_meta _ _ _ _ Ht).
  unfold on_replica, mbind, M_bind, modify. rewrite E1, (seal_run v st0 (w_meta w) Hc1), Hl.
  eexists. split; [reflexivity|]. split; [|done..]. by eapply touched_up.
Qed.

Lemma seal_all rs done w mn mx : sealing done w → NoDup (done ++ rs) → Forall can_seal rs →
  ∃ w', run (seal_loop v (map Some rs) mn mx) w =
      (Ret (foldl (λ m _, Z.min m l) mn rs, foldl (λ m _, Z.max m l) mx rs), w') ∧
    sealing (done ++ rs) w'.
Proof.
  revert done w mn mx. induction rs as [|r rs IH]; intros done w mn mx Hw Hnd Hcs; cbn [map seal_loop].
  { exists w. by rewrite app_nil_r. }
  apply Forall_cons in Hcs as [Hr Hcs]. destruct (seal_call done w r) as (w1 & E1 & Hw1); [done| |done|].
  { apply NoDup_app in Hnd as (_ & Hd & _). intros Hin. apply (Hd r Hin). by left. }
  erewrite interp_bind_Ret by reflexivity. rewrite (interp_call _ _ _ _ _ _ E1). simpl.
  rewrite (cons_middle r done rs), app_assoc in *. by apply IH.
Qed.

Lemma seal_some r rs w mn mx : sealing [] w → NoDup (r :: rs) → Forall can_seal (r :: rs) →
  l ≤ mn → mx ≤ l →
  ∃ w', run (seal_loop v (map Some (r :: rs)) mn mx) w = (Ret (l, l), w') ∧ sealing (r :: rs) w'.
Proof.
  intros Hw Hnd Hcs Hmn Hmx. destruct (seal_all (r :: rs) [] w mn mx) as (w' & E & Hw'); [done..|].
  exists w'. split; [|done]. rewrite E. simpl. do 2 f_equal. rewrite Z.min_r, Z.max_r by lia.
  f_equal; clear; induction rs as [|r' rs IH]; simpl; rewrite ?Z.min_id, ?Z.max_id; auto.
Qed.
End seals.

Lemma replica_ok_config a rep rep' c : chain_ok a → start_index c = next_position a →
  version_id c = version_id (current_config a) + 1 →
  rep' = rep ∨ rep' = seal_segment (version_id (current_config a)) (start_index (current_config a)) rep →
  replica_ok a rep → replica_ok (with_config a c) rep'.
Proof.
  intros Ha Hst Hv Hrep [Hnew Hfound Hd].
  assert (Hnew' : ∀ v, version_id (current_config a) < v → nanoLogStore_ rep' !! v = None).
  { intros v Hlt. destruct Hrep as [->| ->]; [by apply Hnew|]. simpl. rewrite lookup_insert_ne by lia. by apply Hnew. }
  assert (Hfind : ∀ v l, find_in rep' v l = find_in rep v l).
  { intros v l. destruct Hrep as [->| ->]; [done|]. unfold seal_segment. rewrite find_in_set.
    case_decide; [|done]. subst. by rewrite (find_in_segment _ _ (start_index (current_config a))). }
  split; rewrite ?current_with_config.
  - intros v Hlt. apply Hnew'. lia.
  - intros l c' Hl. rewrite entry_with_config by done. simpl in Hl.
    rewrite chain_lookup_snoc, Hst in Hl. case_decide as Hle.
    + simplify_eq. unfold find_in. rewrite Hnew' by lia. by rewrite entry_next.
    + rewrite Hfind. by apply Hfound.
  - rewrite next_with_config by done. unfold segment_of. rewrite Hnew' by lia. by rewrite Hst.
Qed.

(** The replicas that a reconfiguration seals: those that the shuffle has put
    first. *)
Definition picked w : list nat := take (n / 2 + 1) (shuffle w (seq 0 n)).
Definition reachable_majority : Prop := ∀ w, Forall is_up (picked w).

Lemma resize_picked w : resize (length (shuffle w (seq 0 n)) / 2 + 1)%nat None (Some <$> shuffle w (seq 0 n)) =
  map Some (picked w).
Proof.
  assert (Hlen : length (shuffle w (seq 0 n)) = n) by (rewrite Hshuffle; apply length_seq).
  pose proof (length_filter is_up (seq 0 n)) as Hle. rewrite length_seq in Hle.
  pose proof (Nat.div_mod_eq n 2). pose proof (Nat.mod_upper_bound n 2).
  rewrite Hlen, resize_le by (rewrite length_fmap, Hlen; lia). by rewrite <- fmap_take.
Qed.
Lemma picked_spec w : NoDup (picked w) ∧ Forall (λ r, (r < n)%nat) (picked w) ∧ picked w ≠ [].
Proof.
  assert (Hnd : NoDup (shuffle w (seq 0 n))) by (rewrite Hshuffle; apply NoDup_seq).
  split_and!.
  - eapply sublist_NoDup; [exact Hnd|apply sublist_take].
  - apply Forall_take, Forall_forall. intros r. rewrite Hshuffle, elem_of_seq. lia.
  - unfold picked. destruct (shuffle w (seq 0 n)) as [|r l] eqn:E; [|by rewrite Nat.add_1_r].
    pose proof (Hshuffle w (seq 0 n)) as Hp. rewrite E in Hp. apply Permutation_nil_l in Hp. rewrite <- Hp in *.
    simpl in Hmaj. lia.
Qed.

(** The config a reconfiguration makes. *)
Definition config_after a (target : MetadataConfig) : MetadataConfig :=
  next_config (version_id (current_config a)) (next_position a) target.

Lemma version_nonneg a : chain_ok a → 0 ≤ version_id (current_config a).
Proof.
  intros Ha. destruct (current_cases a Ha) as [[_ ->]|(ch & E & Hin)]; [done|].
  pose proof (ch_configs a Ha) as Hall. rewrite Forall_forall in Hall. destruct (Hall _ Hin). lia.
Qed.

Lemma chain_ok_after a target : chain_ok a → chain_ok (with_config a (config_after a target)).
Proof.
  intros Ha. apply chain_ok_config; [done..| |done]. simpl. pose proof (version_nonneg a Ha). lia.
Qed.

(** Installing it, in a world whose replicas may have been sealed. *)
Lemma install_run a w w1 target vst : quiet a w → names (sequencer_id (sequencer_config target)) →
  w_meta w1 = w_meta w → w_sequencers w1 = w_sequencers w → w_registry w1 = w_registry w →
  w_vlogs w1 = w_vlogs w → w_vlogs w !! vl = Some vst →
  let c := config_after a target in
  ∃ w' meta' s sq, run (install vl c) w1 = (Ret (Some c), w') ∧
    represents (a_chain a ++ [c]) meta' ∧ impl_at w s sq ∧
    w' = set_sequencers (<[s := (KImpl, seq_start (version_id c) (next_position a) sq)]> (w_sequencers w))
      (set_vlogs (<[vl := {| metadataConfig := c; sequencer := s; replicaSet := replicaSet vst |}]> (w_vlogs w))
        (set_meta meta' w1)).
Proof.
  intros Hw Hid Em Es Eg Ev Evl c.
  destruct (q_names a w Hw _ Hid) as (s & sq & Ereg & Himpl).
  assert (Hacc : chain_accepts c (a_chain a) = true).
  { unfold chain_accepts, c, config_after, current_config.
    destruct (last (a_chain a)); simpl; [by rewrite !Z.eqb_refl|done]. }
  destruct (represents_append _ c _ (q_meta a w Hw) Hacc) as [Eca Hrep].
  set (meta' := (compareAndAppendRange c (w_meta w)).2) in *.
  eexists _, meta', s, sq. split_and!; [|exact Hrep|exact Himpl|reflexivity].
  unfold install. rewrite interp_try_catch.
  erewrite (interp_call (serve up lost shuffle) (MetaCompareAndAppend c) _ w1 () (set_meta meta' w1)); cycle 1.
  { simpl. unfold on_meta, zoom. rewrite Em. unfold meta'.
    destruct (compareAndAppendRange c (w_meta w)) as [o m]. simpl in *. by subst. }
  set (w2 := set_meta meta' w1) in *.
  set (vst' := {| metadataConfig := c; sequencer := s; replicaSet := replicaSet vst |}).
  set (w3 := set_vlogs (<[vl := vst']> (w_vlogs w)) w2).
  assert (Eset : run (setState vl (version_id c)) w2 = (Ret (), w3)).
  { unfold setState.
    rewrite (interp_call (serve up lost shuffle) (MetaGetConfig (version_id c)) _ w2 (Some c) w2).
    2: { simpl. unfold ms_getConfig. simpl. rewrite meta_get. simpl. do 2 f_equal.
         replace (version_id (current_config a) + 1) with
           (version_id (current_config (with_config a c))) by by rewrite current_with_config.
         rewrite current_found; [by rewrite current_with_config|by apply chain_ok_after, Hw|done]. }
    simpl deref. erewrite interp_bind_Ret by reflexivity.
    rewrite (interp_call (serve up lost shuffle) (RegistrySequencer (sequencer_id (sequencer_config c))) _ w2 (Some s) w2).
    2: { simpl. unfold gets. simpl. by rewrite Eg, Ereg. }
    rewrite (interp_call (serve up lost shuffle) (GetState vl) _ w2 vst w2) by (simpl; by rewrite Ev, Evl).
    rewrite interp_perform. simpl. unfold modify, w3. simpl. by rewrite Ev. }
  rewrite (interp_bind_Ret _ _ _ _ _ _ Eset).
  rewrite (interp_call (serve up lost shuffle) (GetState vl) _ w3 vst' w3).
  2: { simpl. rewrite list_lookup_insert_eq; [done|]. by eapply lookup_lt_Some. }
  unfold sequencer_start. simpl sequencer.
  assert (Es3 : w_sequencers w3 !! s = Some (KImpl, sq)) by (simpl; rewrite Es; apply Himpl).
  erewrite interp_bind_Ret; cycle 1.
  { rewrite (interp_call (serve up lost shuffle) (SeqKind s) _ w3 KImpl w3) by (simpl; simpl in Es3; by rewrite Es3).
    rewrite interp_perform. apply (sequencer_modify s _ _ _ _ Es3). }
  simpl. by rewrite Es.
Qed.

(** The seals of a majority. *)
Lemma seal_majority a w : quiet a w → reachable_majority →
  let v := version_id (current_config a) in
  ∃ rs w',
    run (seal_loop v (map Some (picked w)) HighestNonExistingLogId LowestNonExistingLogId) w =
      (Ret (next_position a, next_position a), w') ∧
    sealing v (start_index (current_config a)) w rs w'.
Proof.
  intros Hw Hpick v. destruct (picked_spec w) as (Hnd & Hlt & Hne). specialize (Hpick w).
  destruct (picked w) as [|r rs]; [done|].
  pose proof (ch_bounds a (q_chain a w Hw)) as Hb.
  destruct (seal_some v (start_index (current_config a)) (next_position a) w
    (quiet_config_found a w Hw) r rs w HighestNonExistingLogId LowestNonExistingLogId)
    as (w' & Ew & Hw'); [|done| | | |by eexists (r :: rs), w'].
  - by split; [apply touched_none|..].
  - rewrite Forall_forall in Hpick, Hlt |- *. intros r' Hr'. split; [by apply Hpick|].
    destruct (q_replicas a w Hw r' (Hlt r' Hr') (Hpick r' Hr')) as (rep & Er & [_ _ [_ Hq]]). exists rep. split; [done|].
    unfold commitIndex, v. by rewrite Hq.
  - unfold HighestNonExistingLogId. lia.
  - unfold LowestNonExistingLogId, next_position in *. lia.
Qed.

Lemma quiet_reconfigure a w target :
  quiet a w → names (sequencer_id (sequencer_config target)) → reachable_majority →
  let c := config_after a target in
  ∃ w', run (reconfigure vl target) w = (Ret c, w') ∧ quiet (with_config a c) w'.
Proof.
  intros Hw Hid Hpick c. pose proof (q_chain a w Hw) as Ha.
  destruct (q_vlog a w Hw) as (vst & Ev & Hrs & _).
  destruct (seal_majority a w Hw Hpick) as (rs & w1 & E1 & [Ht Hsent Hres]).
  destruct (install_run a w w1 target vst) as (w2 & meta' & s & sq & E2 & Hrep & Himpl & Ew2);
    [done|done|apply Ht..|done|]. fold c in E2, Hrep, Ew2.
  exists w2. split.
  - unfold reconfigure.
    rewrite (interp_call (serve up lost shuffle) MetaCurrentVersionId _ w (version_id (current_config a)) w).
    2: { simpl. rewrite meta_get. by rewrite (current_version a _ (q_meta a w Hw)). }
    rewrite (interp_call (serve up lost shuffle) (GetState vl) _ w vst w) by (simpl; by rewrite Ev).
    rewrite (interp_call (serve up lost shuffle) (Shuffle (replicaSet vst)) _ w (shuffle w (seq 0 n)) w)
      by (by rewrite <- Hrs).
    cbv zeta. rewrite resize_picked, (interp_bind_Ret _ _ _ _ _ _ E1), Z.sub_diag. cbn [Z.to_nat rereplicate].
    erewrite interp_bind_Ret by reflexivity.
    rewrite (interp_call (serve up lost shuffle) (MetaGetConfig (version_id (current_config a))) _ w1
      (Some (current_config a)) w1).
    2: { simpl. rewrite meta_get. by rewrite (t_meta _ _ _ _ Ht), (current_found a Ha _ (q_meta a w Hw)). }
    fold (config_after a target). fold c. by rewrite (interp_bind_Ret _ _ _ _ _ _ E2).
  - assert (Hst : start_index c = next_position a) by done. subst w2. split; simpl.
    + exact Hrep.
    + by apply chain_ok_after.
    + eapply (names_ok_set w); [apply Hw|exact Himpl|simpl; by rewrite (t_registry _ _ _ _ Ht)|done..].
    + eexists. split; [apply list_lookup_insert_eq; by eapply lookup_lt_Some|]. simpl.
      rewrite current_with_config. split_and!; [done..|]. unfold sequencer_ok. simpl.
      rewrite current_with_config, next_with_config by done.
      destruct (a_chain a ++ [c]) eqn:Ech; [by apply app_eq_nil in Ech as [_ ?]|].
      eexists. split; [split; [apply list_lookup_insert_eq; eapply lookup_lt_Some; apply Himpl|apply Himpl]|].
      simpl. split_and!; [done|done|lia].
    + rewrite Hsent, Hres. apply Hw.
    + intros r Hr Hup. destruct (q_replicas a w Hw r Hr Hup) as (rep & E & Hrok).
      eexists. split; [exact (t_replicas _ _ _ _ Ht r rep Hup E)|].
      eapply replica_ok_config; [done..| |exact Hrok]. case_decide; auto.
Qed.

Lemma all_up_reachable : (∀ r, (r < n)%nat → up r = true) → reachable_majority.
Proof.
  intros Hup w. destruct (picked_spec w) as (_ & Hlt & _). eapply Forall_impl; [exact Hlt|]. apply Hup.
Qed.

(** A seal loop with a replica that is down. *)
Lemma seal_unlucky v st0 w0 : has_config v st0 (w_meta w0) →
  ∀ rs done w mn mx, sealing v st0 w0 done w → NoDup (done ++ rs) →
  Forall (λ r, up r = true → ∃ rep, w_replicas w0 !! r = Some rep) rs → Exists (λ r, up r = false) rs →
  ∃ w', run (seal_loop v (map Some rs) mn mx) w = (Throw lost, w') ∧ w_meta w' = w_meta w0.
Proof.
  intros Hc rs. induction rs as [|r rs IH]; intros done w mn mx Hw Hnd Hreps Hdown.
  { by apply Exists_nil in Hdown. }
  apply Forall_cons in Hreps as [Hr Hreps]. cbn [map seal_loop]. erewrite interp_bind_Ret by reflexivity.
  destruct (up r) eqn:Eup.
  - destruct (Hr eq_refl) as (rep & Erep). apply Exists_cons in Hdown as [Hd|Hdown]; [congruence|].
    destruct (seal_call v st0 (commitIndex (segment_of v st0 rep)) w0 Hc done w r) as (w1 & E1 & Hw1); [done| | |].
    { apply NoDup_app in Hnd as (_ & Hd & _). intros Hin. apply (Hd r Hin). by left. }
    { split; [done|]. by exists rep. }
    rewrite (interp_call _ _ _ _ _ _ E1). simpl. apply (IH (done ++ [r])); [done| |done|done].
    by rewrite <- app_assoc.
  - exists w. split; [|by destruct Hw as [[]]]. erewrite interp_bind_Throw; [done|].
    rewrite interp_perform. simpl. by rewrite Eup.
Qed.

(** A reconfiguration whose shuffle has put a replica first that is down throws
    and installs nothing, although a majority of the replicas is up. *)
Theorem unlucky_reconfigure a w target :
  quiet a w → Exists (λ r, up r = false) (picked w) →
  ∃ w', run (reconfigure vl target) w = (Throw lost, w') ∧ w_meta w' = w_meta w.
Proof.
  intros Hw Hdown. pose proof (q_chain a w Hw) as Ha.
  destruct (q_vlog a w Hw) as (vst & Ev & Hrs & _). destruct (picked_spec w) as (Hnd & Hlt & _).
  destruct (seal_unlucky (version_id (current_config a)) (start_index (current_config a)) w
    (quiet_config_found a w Hw) (picked w) [] w HighestNonExistingLogId LowestNonExistingLogId) as (w1 & E1 & Em);
    [by split; [apply touched_none|..]|done| |done|].
  { eapply Forall_impl; [exact Hlt|]. intros r Hr Hup. destruct (q_replicas a w Hw r Hr Hup) as (rep & ? & _). by exists rep. }
  exists w1. split; [|done]. unfold reconfigure.
  rewrite (interp_call (serve up lost shuffle) MetaCurrentVersionId _ w (version_id (current_config a)) w).
  2: { simpl. rewrite meta_get. by rewrite (current_version a _ (q_meta a w Hw)). }
  rewrite (interp_call (serve up lost shuffle) (GetState vl) _ w vst w) by (simpl; by rewrite Ev).
  rewrite (interp_call (serve up lost shuffle) (Shuffle (replicaSet vst)) _ w (shuffle w (seq 0 n)) w)
    by (by rewrite <- Hrs).
  cbv zeta. rewrite resize_picked. by rewrite (interp_bind_Throw _ _ _ _ _ _ E1).
Qed.

Lemma quiet_sync a w : quiet a w → a_chain a ≠ [] → run (sync vl) w = (Ret (next_position a - 1), w).
Proof.
  intros Hw Hne. destruct (q_vlog a w Hw) as (vst & Ev & _ & _ & Hsq). unfold sequencer_ok in Hsq.
  destruct (a_chain a); [done|]. destruct Hsq as (sq & (Es & _) & _ & Hn & _). unfold sync.
  rewrite (interp_call (serve up lost shuffle) (GetState vl) _ w vst w) by (simpl; by rewrite Ev).
  unfold sequencer_latestAppendPosition.
  rewrite (interp_call (serve up lost shuffle) (SeqKind (sequencer vst)) _ w KImpl w) by (simpl; by rewrite Es).
  unfold SequencerImpl_latestAppendPosition.
  rewrite (interp_call (serve up lost shuffle) (SeqLoad (sequencer vst)) _ _ _ _ (sequencer_get _ sequenceNum_ _ _ _ Es)). by rewrite Hn.
Qed.

(** Before the first config there is no sequencer. *)
Lemma quiet_null a w x : quiet a w → a_chain a = [] →
  run (append vl x) w = (Throw NullSequencerException, w) ∧
  run (sync vl) w = (Throw NullSequencerException, w).
Proof.
  intros Hw E. destruct (q_vlog a w Hw) as (vst & Ev & _ & _ & Hsq). unfold sequencer_ok in Hsq.
  rewrite E in Hsq. destruct Hsq as (sq & Es). unfold append, sync.
  rewrite !(interp_call (serve up lost shuffle) (GetState vl) _ w vst w) by (simpl; by rewrite Ev).
  unfold sequencer_append, sequencer_latestAppendPosition.
  by rewrite !(interp_call (serve up lost shuffle) (SeqKind (sequencer vst)) _ w KNull w) by (simpl; by rewrite Es).
Qed.

(** ** The log is the list *)

Definition admissible (o : log_op) : Prop :=
  match o with
  | LogReconfigure target => names (sequencer_id (sequencer_config target)) ∧ reachable_majority
  | _ => True
  end.

Lemma op_agrees o a w : quiet a w → admissible o → next_position a + 1 < i64_max →
  agrees (spec_op o a).1 (run (op_prog vl o) w).1 ∧ quiet (spec_op o a).2 (run (op_prog vl o) w).2 ∧
  next_position (spec_op o a).2 ≤ next_position a + 1.
Proof.
  intros Hw Ho Hn. destruct o as [x|l| |target|]; cbn [op_prog spec_op].
  - destruct (decide (a_chain a = [])) as [E|Hne].
    + rewrite (interp_bind_Throw _ _ _ _ _ _ (proj1 (quiet_null a w x Hw E))), E. simpl.
      split_and!; [by eexists|done|lia].
    + destruct (quiet_append a w x Hw Hne Hn) as (w' & E & Hw'). rewrite (interp_bind_Ret _ _ _ _ _ _ E).
      destruct (a_chain a) eqn:Ech; [done|]. rewrite <- Ech. split_and!; [done|done|].
      cbn [snd]. fold (with_payload a x). rewrite next_with_payload. lia.
  - pose proof (quiet_read a w l Hw) as E. destruct (entry_at a l) as [x|].
    + rewrite (interp_bind_Ret _ _ _ _ _ _ E). simpl. split_and!; [done|done|lia].
    + destruct E as [e E]. rewrite (interp_bind_Throw _ _ _ _ _ _ E). simpl. split_and!; [by eexists|done|lia].
  - destruct (decide (a_chain a = [])) as [E|Hne].
    + rewrite (interp_bind_Throw _ _ _ _ _ _ (proj2 (quiet_null a w "" Hw E))), E. simpl.
      split_and!; [by eexists|done|lia].
    + rewrite (interp_bind_Ret _ _ _ _ _ _ (quiet_sync a w Hw Hne)).
      destruct (a_chain a); [done|]. split_and!; [done|done|simpl; lia].
  - destruct (quiet_reconfigure a w target Hw (proj1 Ho) (proj2 Ho)) as (w' & E & Hw').
    rewrite (interp_bind_Ret _ _ _ _ _ _ E). split_and!; [done|done|].
    fold (config_after a target). fold (with_config a (config_after a target)). cbn [snd].
    rewrite next_with_config; [lia|apply Hw|done].
  - destruct (q_vlog a w Hw) as (vst & Ev & _ & Hcfg & _). unfold getCurrentConfig.
    assert (E : run (st ← perform (GetState vl); mret (metadataConfig st)) w = (Ret (current_config a), w)).
    { rewrite (interp_call (serve up lost shuffle) (GetState vl) _ w vst w) by (simpl; by rewrite Ev). by rewrite Hcfg. }
    rewrite (interp_bind_Ret _ _ _ _ _ _ E). split_and!; [done|done|simpl; lia].
Qed.

Lemma ops_agree os a w : quiet a w → Forall admissible os → next_position a + length os < i64_max →
  Forall2 agrees (spec_ops os a).1 (run_ops up lost shuffle vl os w).1 ∧
  quiet (spec_ops os a).2 (run_ops up lost shuffle vl os w).2.
Proof.
  revert a w. induction os as [|o os IH]; intros a w Hw Hos Hn; simpl; [done|].
  apply Forall_cons in Hos as [Ho Hos]. cbn [length] in Hn.
  destruct (op_agrees o a w Hw Ho) as (E1 & Hw1 & Hn1); [lia|].
  destruct (spec_op o a) as [s a1], (interp _ (op_prog vl o) w) as [r w1]. simpl in *.
  destruct (IH a1 w1) as (E2 & Hw2); [done|done|lia|].
  destruct (spec_ops os a1), (run_ops up lost shuffle vl os w1). simpl in *. by split; [constructor|].
Qed.

(** ** The runs are executions *)

(** Only requests that were sent have been delivered. *)
Definition delivered_ok w : Prop := ∀ i, i ∈ w_delivered w → (i < length (w_sent w))%nat.

Lemma handle_requests {X : Set} (e : log_call X) w o w' : handle X e w = (o, w') →
  w_delivered w' = w_delivered w ∧ w_sent w `prefix_of` w_sent w'.
Proof.
  destruct e; simpl; unfold on_meta, zoom, on_replica, on_sequencer, send, gets, modify, throw,
    of_outcome, mbind, M_bind, mret, M_ret; simpl; intros E;
    repeat (case_match; simplify_eq; simpl in *); simplify_eq; try done.
  split; [done|]. by eexists.
Qed.

Lemma deliver_requests i w : w_sent (deliver i w) = w_sent w ∧
  (w_delivered (deliver i w) = w_delivered w ∨ w_delivered (deliver i w) = i :: w_delivered w).
Proof.
  unfold deliver. destruct (w_sent w !! i) as [m|]; [|by auto].
  destruct (w_replicas w !! m_replica m) as [rep|]; [|by auto].
  destruct (Replica.append _ _ _ _ _ _ _) as [[f done] [rep' meta']]. simpl. by auto.
Qed.

Lemma handle_step {A X : Set} (e : log_call X) (k : outcome X → lprog A) i ts w o w' :
  handle X e w = (o, w') → o ≠ Block → delivered_ok w → ts !! i = Some (existT A (Call e k) : thread) →
  step (w, ts) (w', <[i := (existT A (k o) : thread)]> ts) ∧ delivered_ok w'.
Proof.
  intros E Ho Hw Hi. split.
  - apply (sys_call _ _ _ _ w ts i A X e k o w'); [done|done|]. by left.
  - destruct (handle_requests e w o w' E) as [Ed Es%prefix_length]. intros j Hj. rewrite Ed in Hj.
    specialize (Hw j Hj). lia.
Qed.

(** A call as it is served is some steps of an execution. *)
Lemma serve_steps {A X : Set} (e : log_call X) (k : outcome X → lprog A) i ts w o w' :
  serve up lost shuffle X e w = (o, w') → o ≠ Block → delivered_ok w →
  ts !! i = Some (existT A (Call e k) : thread) →
  rtc step (w, ts) (w', <[i := (existT A (k o) : thread)]> ts) ∧ delivered_ok w'.
Proof.
  intros E Ho Hw Hi.
  assert (Hlost : can_fail e = true → o = Throw lost → w' = w →
    rtc step (w, ts) (w', <[i := (existT A (k o) : thread)]> ts) ∧ delivered_ok w').
  { intros Hf -> ->. split; [|done]. apply rtc_once, (sys_call _ _ _ _ w ts i A X e k _ w); [done|done|].
    right. right. split; [done|]. eexists. split; [done|]. by left. }
  assert (Hstep : handle X e w = (o, w') →
    rtc step (w, ts) (w', <[i := (existT A (k o) : thread)]> ts) ∧ delivered_ok w').
  { intros E'. destruct (handle_step e k i ts w o w' E' Ho Hw Hi). split; [by apply rtc_once|done]. }
  destruct e as [| | | |r g v l x b|r v l|r v| | |l| | | | | | | | | | | | | |]; try by apply Hstep.
  - simpl in E. unfold mbind, M_bind in E. simpl in E.
    set (w1 := set_sent (w_sent w ++ [mkMessage r g v l x b]) w) in *.
    destruct (handle_step (ReplicaAppend r g v l x b) k i ts w (Ret (length (w_sent w))) w1)
      as [Hs1 Hw1]; [done..|].
    destruct (up r); injection E as <- <-; [|split; [by apply rtc_once|done]]. split.
    + eapply rtc_l; [exact Hs1|]. apply rtc_once, sys_env, net_deliver.
      * unfold w1. simpl. rewrite length_app. simpl. lia.
      * simpl. intros Hin%Hw. lia.
    + destruct (deliver_requests (length (w_sent w)) w1) as [Es Ed]. intros j Hj. rewrite Es.
      destruct Ed as [Ed|Ed]; rewrite Ed in Hj; [by apply Hw1|].
      apply elem_of_cons in Hj as [->|Hj]; [|by apply Hw1]. unfold w1. simpl. rewrite length_app. simpl. lia.
  - simpl in E. destruct (up r); [by apply Hstep|]. injection E as <- <-. by apply Hlost.
  - simpl in E. destruct (up r); [by apply Hstep|]. injection E as <- <-. by apply Hlost.
  - injection E as <- <-. split; [|done]. apply rtc_once, (sys_call _ _ _ _ w ts i A _ (Shuffle l) k _ w); [done|done|].
    right. left. simpl. split; [done|]. eexists. split; [done|]. by rewrite Hshuffle.
Qed.

Lemma run_steps {A : Set} (p : lprog A) ts w o w' :
  run p w = (o, w') → o ≠ Block → delivered_ok w →
  rtc step (w, ts ++ [(existT A p : thread)]) (w', ts ++ [(existT A (Done o) : thread)]) ∧ delivered_ok w'.
Proof.
  apply (interp_steps _ _ _ _ (serve up lost shuffle) delivered_ok (length ts)); [|done].
  intros B X e k ts1 w1 o1 w2. apply serve_steps.
Qed.

(** The threads of clients that have finished. *)
Definition finished (rs : list (outcome log_result)) : list thread :=
  map (λ r, existT log_result (Done r) : @thread log_call) rs.

Lemma runs_are_executions os ts w : delivered_ok w →
  Forall (λ o, o ≠ Block) (run_ops up lost shuffle vl os w).1 →
  rtc step (w, ts) ((run_ops up lost shuffle vl os w).2, ts ++ finished (run_ops up lost shuffle vl os w).1).
Proof.
  revert ts w. induction os as [|o os IH]; intros ts w Hw Ho; simpl in *; [by rewrite app_nil_r|].
  destruct (interp _ (op_prog vl o) w) as [r w1] eqn:E.
  destruct (run_ops up lost shuffle vl os w1) as [rs w2] eqn:E2. simpl in *. apply Forall_cons in Ho as [Hr Ho].
  destruct (run_steps (op_prog vl o) ts w r w1 E Hr Hw) as [Hs Hw1].
  specialize (IH (ts ++ [(existT log_result (Done r) : thread)]) w1 Hw1). rewrite E2, <- app_assoc in IH.
  eapply rtc_l; [by apply (sys_spawn _ _ _ _ w ts (existT log_result (op_prog vl o)))|].
  etrans; [exact Hs|]. by apply IH.
Qed.

(** C2: The log is a list: with a majority of the replicas up, from a world in
    which no call is under way, any sequence of appends, reads, syncs and
    reconfigurations (also to other sequencers), one after the other, returns,
    each call with what the list of payloads and the chain of configs answer;
    the world it leaves is such a world for the resulting list, and the whole
    run is an execution of [LogWorld.step].  A reconfiguration seals the
    majority that [std::shuffle] puts first, so it is admissible when the
    shuffles put replicas first that are up: any shuffle when all are up
    ([all_up_reachable]); otherwise it can throw ([unlucky_reconfigure]). *)
Theorem log_is_a_list os a w :
  quiet a w → delivered_ok w → Forall admissible os → next_position a + length os < i64_max →
  Forall2 agrees (spec_ops os a).1 (run_ops up lost shuffle vl os w).1 ∧
  quiet (spec_ops os a).2 (run_ops up lost shuffle vl os w).2 ∧
  rtc step (w, []) ((run_ops up lost shuffle vl os w).2, finished (run_ops up lost shuffle vl os w).1).
Proof.
  intros Hw Hd Hos Hn. destruct (ops_agree os a w Hw Hos Hn) as [Ha Hw']. split_and!; [done..|].
  apply (runs_are_executions os [] w Hd).
  eapply Forall2_Forall_r; [exact Ha|]. apply Forall_true. intros [r|] o; simpl; [by intros ->|by intros [e ->]].
Qed.
End calls.

(** ** A run from an unconfigured world: replica 2 is down *)

Definition first_replicas (r : nat) : bool := bool_decide (r < 2)%nat.
Definition sequencer_named (id : string) : SequencerImpl := makeSequencerImpl id (seq 0 3) 0 0 false.
Definition config_for (id : string) : MetadataConfig :=
  Build_MetadataConfig 0 0 0 0 0 {| sequencer_id := id; sequencer_ip := default_IpAddress |} [].
Definition unconfigured_world : World :=
  mkWorld Metadata.empty_store [empty_replica; empty_replica; empty_replica]
    [(KNull, sequencer_named ""); (KImpl, sequencer_named "s1"); (KImpl, sequencer_named "s2")]
    {| replicas_ := ∅; sequencers_ := {[ "s1"%string := 1%nat; "s2"%string := 2%nat ]} |}
    [{| metadataConfig := default_MetadataConfig; sequencer := 0%nat; replicaSet := seq 0 3 |}]
    [] [] [] [] [] [].
Definition two_names (id : string) : Prop := id ∈ ["s1"; "s2"]%string.

Lemma unconfigured_quiet : quiet 3 first_replicas two_names 0 (mkLog [] []) unconfigured_world.
Proof.
  split.
  - exact represents_empty.
  - split; [constructor|constructor|done|done].
  - intros id [->| [-> | []%not_elem_of_nil]%elem_of_cons]%elem_of_cons.
    + by exists 1%nat, (sequencer_named "s1").
    + by exists 2%nat, (sequencer_named "s2").
  - eexists. split_and!; [done..|]. by eexists.
  - by intros y ?%not_elem_of_nil.
  - intros r Hr _. exists empty_replica. split; [by destruct r as [|[|[|r]]]; [..|lia]|].
    split; [done|done|by split].
Qed.

(** The shuffle swaps the first two in every other state. *)
Definition swapping (w : World) (l : list nat) : list nat :=
  match l with
  | a :: b :: l' => if Nat.even (length (w_results w)) then b :: a :: l' else a :: b :: l'
  | l => l
  end.
Lemma swapping_perm w l : swapping w l ≡ₚ l.
Proof. destruct l as [|a [|b l]]; simpl; [done..|]. case_match; [constructor|done]. Qed.
Lemma swapping_reachable : reachable_majority 3 first_replicas swapping.
Proof.
  intros w. unfold picked. simpl. case_match; repeat constructor.
Qed.

Definition sample_ops : list log_op :=
  [LogAppend "early"; LogReconfigure (config_for "s1"); LogAppend "x"; LogAppend "y"; LogRead 0; LogRead 2;
   LogReconfigure (config_for "s2"); LogAppend "z"; LogRead 1; LogRead 2; LogSync].

Lemma sample_delivered : delivered_ok unconfigured_world.
Proof. by intros i ?%not_elem_of_nil. Qed.
Lemma sample_admissible : Forall (admissible 3 first_replicas swapping two_names) sample_ops.
Proof. repeat constructor; try apply swapping_reachable; simpl; set_solver. Qed.

Lemma log_is_a_list_witness :
  let a' := (spec_ops sample_ops (mkLog [] [])).2 in
  ∃ rs w, run_ops first_replicas NullPointer swapping 0 sample_ops unconfigured_world = (rs, w) ∧
    Forall2 agrees
      [None; Some (ConfigOf (next_config 0 0 (config_for "s1"))); Some (AppendedAt 0); Some (AppendedAt 1);
       Some (EntryRead (inl (mkLogEntry 0 "x"))); None; Some (ConfigOf (next_config 1 2 (config_for "s2")));
       Some (AppendedAt 2); Some (EntryRead (inl (mkLogEntry 1 "y")));
       Some (EntryRead (inl (mkLogEntry 2 "z"))); Some (SyncedTo 2)] rs ∧
    a_entries a' = ["x"; "y"; "z"]%string ∧
    quiet 3 first_replicas two_names 0 a' w ∧ rtc step (unconfigured_world, []) (w, finished rs).
Proof.
  destruct (log_is_a_list 3 first_replicas NullPointer swapping swapping_perm two_names 0 ltac:(vm_compute; lia) sample_ops
    (mkLog [] []) unconfigured_world unconfigured_quiet sample_delivered sample_admissible
    ltac:(vm_compute; reflexivity)) as (Ha & Hq & Hs).
  refine (ex_intro _ _ (ex_intro _ _ (conj (surjective_pairing _) (conj Ha (conj _ (conj Hq Hs)))))).
  vm_compute. reflexivity.
Defined.
