(* ===== verification/LogFactory.v ===== *)
(** * Making a log in one process

    [src/log/impl/VirtualLogFactory.cc]: the makers of the parts of a log, and
    [makeVirtualLog], which puts them together in memory.  What it makes is a
    state of [LogWorld.v], and one from which the theorems of [LogSafety.v] and
    [LogReads.v] start.

    Its registry stays empty.  A virtual log takes the sequencer of a new
    configuration from the registry: with a registry that does not have it, no
    reconfiguration ever returns, whatever runs at the same time. *)

From stdpp Require Import base gmap list strings relations pretty.
From Stdlib Require Import ZArith Lia Eqdep.
From S2P Require Import Prelude LogTypes Futures Metadata NanoLog KVStore Replica Program VirtualLog FailureDetector LogWorld LogSafety LogReads.

Open Scope Z_scope.

(** ** The makers *)

Definition makeNanoLogStore {N : Type} : gmap Z N := ∅.
Definition makeMetadataStore : Metadata.State := Metadata.empty_store.
Definition makeRegistry : RegistryImpl := {| replicas_ := ∅; sequencers_ := ∅ |}.

Definition makeSequencer (sequencerId : string) (replicaSet : list nat) : SequencerImpl :=
  makeSequencerImpl sequencerId replicaSet 1 1 false.

(** A replica shares its metadata store; its factory has the default config of
    RocksDB, or the one given. *)
Definition default_RocksDbConfig : RocksDbConfig :=
  {| path := ""; createIfMissing := false; manualWALFlush := false; destroyIfExists := false |}.

Definition makeReplica {N : Type} (id name : string) (nanoLogStore : gmap Z N)
    : ReplicaImpl N * RocksDbConfig :=
  (mkReplicaImpl id name nanoLogStore InMemory, default_RocksDbConfig).
Definition makeRocksReplica {N : Type} (id name : string) (nanoLogStore : gmap Z N)
    (rocksDbConfig : RocksDbConfig) : ReplicaImpl N * RocksDbConfig :=
  (mkReplicaImpl id name nanoLogStore InMemory, rocksDbConfig).

Definition first_config : MetadataConfig :=
  {| version_id := 1; previous_version_id := 0; start_index := 1; end_index := 1000;
     previous_version_end_index := 0; sequencer_config := default_SequencerConfig;
     replica_set_config := [] |}.

(** ** makeVirtualLog *)

Section make.
Context {F : Type} `{Uuid F}.

Definition fresh_uuid : M F string := λ f, let '(s, f') := uuid_generate f in (Ret s, f').

(** The loop that makes [n] replicas. *)
Fixpoint makeReplicas (n : nat) : M F (list Rep) :=
  match n with
  | O => mret []
  | S n' =>
      uuid ← fresh_uuid;
      let replica := (makeReplica ("REPLICA_" +:+ uuid) "Replica Instance" makeNanoLogStore).1 in
      replicaSet ← makeReplicas n';
      mret (replica :: replicaSet)
  end.

(** The objects are named by numbers: the replicas 0 to 4, the sequencer 0, the
    virtual log 0. *)
Definition makeVirtualLog : M F World :=
  let '(appended, metadataStore) := Metadata.compareAndAppendRange first_config makeMetadataStore in
  _ ← of_outcome appended;
  replicas ← makeReplicas 5;
  let replicaSet := seq 0 5 in
  sequencerUuid ← fresh_uuid;
  let sequencer := makeSequencer ("SEQUENCER_" +:+ sequencerUuid) replicaSet in
  _ ← fresh_uuid;
  mret (mkWorld metadataStore replicas [(KImpl, sequencer)] makeRegistry
          [{| metadataConfig := default_MetadataConfig; VirtualLog.sequencer := 0%nat;
              VirtualLog.replicaSet := replicaSet |}]
          [] [] [] [] [] []).

Lemma makeReplicas_spec n f :
  ∃ rs f', makeReplicas n f = (Ret rs, f') ∧ length rs = n ∧
    ∀ r, r ∈ rs → nanoLogStore_ r = ∅ ∧ nanoLogType_ r = InMemory.
Proof.
  revert f. induction n as [|n IH]; intros f.
  - exists [], f. split_and!; [done..|]. by intros r ?%elem_of_nil.
  - simpl. mred. unfold fresh_uuid. destruct (uuid_generate f) as [u f1].
    destruct (IH f1) as (rs & f2 & E & Hl & Hrs). rewrite E.
    eexists _, f2. split_and!; [done|simpl; by rewrite Hl|].
    intros r [->|Hr]%elem_of_cons; [done|auto].
Qed.

(** [makeVirtualLog] makes a log in the initial state of the theorems on
    safety: version 1 with the positions from 1 on, five replicas without
    segments, and a sequencer of that version. *)
Lemma makeVirtualLog_initial f :
  ∃ w f', makeVirtualLog f = (Ret w, f') ∧ initial 5 1 1 w ∧ w_registry w = makeRegistry ∧
    w_meta w = Metadata.append_config first_config Metadata.empty_store ∧
    w_vlogs w = [{| metadataConfig := default_MetadataConfig; VirtualLog.sequencer := 0%nat;
                    VirtualLog.replicaSet := seq 0 5 |}].
Proof.
  unfold makeVirtualLog. destruct (makeReplicas_spec 5 f) as (rs & f1 & E & Hl & Hrs).
  unfold mbind, M_bind. cbn -[makeReplicas]. rewrite E. unfold fresh_uuid.
  destruct (uuid_generate f1) as [u1 f2]. destruct (uuid_generate f2) as [u2 f3].
  eexists _, f3. split; [done|]. split; [|done]. split_and!; try done.
  - split; simpl; try done.
    + by exists first_config.
    + by eexists.
    + intros [|vl] st; simpl; [by intros [= <-]|done].
    + intros l c _ Hc. apply getConfigUsingLogId_elem, list_elem_of_singleton in Hc. by subst.
  - intros r rep Hr. apply list_elem_of_lookup_2 in Hr. by rewrite (proj1 (Hrs rep Hr)).
Qed.
End make.

(** ** Replicas do not change the metadata store they share *)

Definition meta_kept {A} (m : M (Rep * Metadata.State) A) : Prop := ∀ s, (m s).2.2 = s.2.

Lemma kept_bind {A B} (m : M (Rep * Metadata.State) A) (f : A → M (Rep * Metadata.State) B) :
  meta_kept m → (∀ a, meta_kept (f a)) → meta_kept (m ≫= f).
Proof.
  intros Hm Hf s. unfold mbind, M_bind. specialize (Hm s).
  destruct (m s) as [[a| |] s1]; simpl in *; rewrite ?Hf; done.
Qed.
Lemma kept_config v : meta_kept (config_or_throw (N := Nano) v).
Proof. intros s. unfold config_or_throw. mred. simpl. unfold gets. by destruct (Metadata.getConfig v s.2). Qed.
Lemma kept_create v c : meta_kept (create (N := Nano) v c).
Proof. by intros s. Qed.
Lemma kept_nanolog {A} v n (f : M Nano A) : meta_kept (on_nanolog v n f).
Proof. intros s. unfold on_nanolog. by destruct (f n). Qed.

Lemma kept_getLogEntry v l : meta_kept (Replica.getLogEntry (N := Nano) v l).
Proof.
  apply kept_bind; [by intros s|]. intros st. destruct (getNanoLog v st); [apply kept_nanolog|by intros s].
Qed.
Lemma kept_seal v : meta_kept (Replica.seal (N := Nano) v).
Proof.
  apply kept_bind; [by intros s|]. intros st. apply kept_bind; [apply kept_config|]. intros c.
  apply kept_bind.
  - destruct (getNanoLog v st); [by intros s|]. apply kept_bind; [apply kept_create|]. by intros n s.
  - intros [n|]; [apply kept_nanolog|by intros s].
Qed.
Lemma kept_append i g v l x b (s : Rep * Metadata.State) :
  (Replica.append i g v l x b s).2.2 = s.2.
Proof.
  unfold Replica.append, lookup_or_create. cbv zeta.
  match goal with |- context [match ?x with _ => _ end] => assert (Hk : x.2.2 = s.2) end.
  - apply (kept_bind store); [by intros s'|]. intros st.
    destruct (getNanoLog v st); [by intros s'|].
    apply kept_bind; [apply kept_config|]. intros c. apply kept_create.
  - match goal with |- context [match ?x with _ => _ end] => destruct x as [[n| |] s1] end;
      simpl in *; [|done..]. by destruct (NanoLog.append _ _ _ _ _ _).
Qed.

(** ** A registry without the sequencer *)

Section unregistered.
Context (r : RegistryImpl) (vlogs : list VLogState).

Definition unregistered (c : MetadataConfig) : Prop :=
  registry_sequencer (sequencer_id (sequencer_config c)) r = None.

(** What then never changes. *)
Record stuck (w : World) : Prop := {
  s_registry : w_registry w = r;
  s_configs : ∀ v c, Metadata.getConfig v (w_meta w) = Some c → unregistered c;
  s_vlogs : w_vlogs w = vlogs }.

Lemma installed_unregistered c st o st' :
  unregistered c → (∀ v c', Metadata.getConfig v st = Some c' → unregistered c') →
  Metadata.compareAndAppendRange c st = (o, st') →
  ∀ v c', Metadata.getConfig v st' = Some c' → unregistered c'.
Proof.
  intros Hc Hst E.
  assert (Happ : ∀ st0, (∀ v c', Metadata.getConfig v st0 = Some c' → unregistered c') →
    ∀ v c', Metadata.getConfig v (append_config c st0) = Some c' → unregistered c').
  { intros st0 Hst0 v c'. specialize (Hst0 v). revert Hst0. unfold Metadata.getConfig. simpl.
    destruct (v =? 0); [auto|]. rewrite om_find_set. case_decide; [by intros _ [= <-]|auto]. }
  unfold Metadata.compareAndAppendRange in E.
  destruct (om_last (configs_ st)) as [[last ?]|] eqn:El.
  2:{ destruct (negb _); simplify_eq; [done|by apply Happ]. }
  destruct ((last =? previous_version_id c) && (last + 1 =? version_id c)) eqn:Eb; simplify_eq; [|done].
  apply Happ. intros v c'. unfold Metadata.getConfig, close_config. simpl.
  destruct (v =? 0) eqn:Ev; [apply (Hst 0)|]. rewrite om_find_set. case_decide as Hv.
  - intros [= <-]. apply andb_true_iff in Eb as [->%Z.eqb_eq _]. subst.
    unfold unregistered. simpl. apply (Hst (previous_version_id c)). unfold Metadata.getConfig.
    rewrite Ev. destruct (om_find (previous_version_id c) (configs_ st)) eqn:Ef; [done|].
    apply om_find_None in Ef. destruct Ef. unfold om_last in El.
    apply last_Some_elem_of in El. by apply (list_elem_of_fmap_2 fst) in El.
  - intros Hf. apply (Hst v). unfold Metadata.getConfig. by rewrite Ev.
Qed.

(** The calls that change nothing of it. *)
Definition harmless {X : Set} (e : log_call X) : Prop :=
  match e with
  | MetaCompareAndAppend c => unregistered c
  | SetState _ _ => False
  | _ => True
  end.

Lemma stuck_same w w' :
  w_registry w' = w_registry w → w_meta w' = w_meta w → w_vlogs w' = w_vlogs w → stuck w → stuck w'.
Proof. intros E1 E2 E3 [H1 H2 H3]. split; rewrite ?E1, ?E2, ?E3; done. Qed.

Lemma on_replica_stuck {A} i (m : M (Rep * Metadata.State) A) w :
  meta_kept m → stuck w → stuck (on_replica i m w).2.
Proof.
  intros Hm. unfold on_replica. destruct (w_replicas w !! i) as [rep|]; [|done].
  specialize (Hm (rep, w_meta w)). destruct (m (rep, w_meta w)) as [o [rep' meta']]. simpl in *.
  subst. by apply stuck_same.
Qed.
Lemma on_sequencer_stuck {A} i (m : M SequencerImpl A) w : stuck w → stuck (on_sequencer i m w).2.
Proof.
  unfold on_sequencer. destruct (w_sequencers w !! i) as [[k sq]|]; [|done].
  destruct (m sq). by apply stuck_same.
Qed.

Lemma handle_stuck {X : Set} (e : log_call X) w : harmless e → stuck w → stuck (handle X e w).2.
Proof.
  intros He Hw. destruct e; simpl; try done.
  all: try by (unfold on_meta, zoom, gets; simpl; apply (stuck_same w); try done; by destruct w).
  - unfold on_meta, zoom. simpl. destruct (Metadata.compareAndAppendRange c (w_meta w)) as [o st'] eqn:E.
    destruct Hw as [Hr Hc Hv]. split; simpl; [done| |done]. by eapply installed_unregistered.
  - apply on_replica_stuck; [apply kept_getLogEntry|done].
  - mred. pose proof (on_replica_stuck r0 (Replica.seal versionId) w (kept_seal versionId) Hw) as Hs.
    destruct (on_replica r0 (Replica.seal versionId) w) as [[x| |] w1]; [|done..].
    by apply (stuck_same w1).
  - mred. pose proof (on_sequencer_stuck s (λ sq, let '(l, sq') := fetch_add sq in (Ret l, sq')) w Hw) as Hs.
    destruct (on_sequencer s _ w) as [[x| |] w1]; [|done..]. by apply (stuck_same w1).
  - by apply on_sequencer_stuck.
  - by apply on_sequencer_stuck.
  - by apply on_sequencer_stuck.
  - by apply on_sequencer_stuck.
  - by apply on_sequencer_stuck.
  - by apply on_sequencer_stuck.
  - by apply on_sequencer_stuck.
Qed.

Lemma exec_stuck {X : Set} (e : log_call X) w o w' :
  harmless e → stuck w → exec X e w o w' → stuck w'.
Proof.
  intros He Hw Hx. pose proof (handle_stuck e w He Hw) as Hh.
  destruct Hx as [[E _]|[Hch|(_ & err & _ & [->|[o' E]])]].
  - by rewrite E in Hh.
  - by destruct e; try done; destruct Hch as [-> _].
  - done.
  - by rewrite E in Hh.
Qed.

Lemma network_stuck w w' : stuck w → network w w' → stuck w'.
Proof.
  intros Hw Hn. destruct Hn as [w i _ _|w i err _].
  - unfold deliver. destruct (w_sent w !! i) as [m|]; [|done].
    destruct (w_replicas w !! m_replica m) as [rep|]; [|done].
    pose proof (kept_append i (m_gci m) (m_version m) (m_logId m) (m_payload m) (m_skipSeal m)
      (rep, w_meta w)) as Hk.
    destruct (Replica.append _ _ _ _ _ _ _) as [[f done] [rep' meta']]. simpl in *. subst.
    by apply (stuck_same w).
  - by apply (stuck_same w).
Qed.

(** *** Programs *)

(** What a program returns, whatever the others do. *)
Definition any_world (w w' : World) : Prop := True.
#[export] Instance any_world_preorder : PreOrder any_world.
Proof. by split. Qed.

Abbreviation Safe :=
  (safe (λ _, exec) (λ _ _ _, True) stuck any_world (λ _, any_world) (λ _ _ _, True)).
Definition Post {A} (p : lprog A) (Q : A → Prop) : Prop := ∀ i w, Safe i p (λ a _, Q a) w.

Lemma safe_weaken {A} (p : lprog A) (Q Q' : A → World → Prop) i w :
  (∀ a w', Q a w' → Q' a w') → Safe i p Q w → Safe i p Q' w.
Proof. intros HQ. apply wp_weaken. intros [a|e|] w'; simpl; auto. Qed.

Lemma post_ret {A} (a : A) (Q : A → Prop) : Q a → Post (mret a) Q.
Proof. by intros Ha i w. Qed.
Lemma post_raise {A} e (Q : A → Prop) : Post (raise e) Q.
Proof. by intros i w. Qed.
Lemma post_bind {A B} (p : lprog A) (f : A → lprog B) (P : A → Prop) (Q : B → Prop) :
  Post p P → (∀ a, P a → Post (f a) Q) → Post (p ≫= f) Q.
Proof.
  intros Hp Hf i w. apply safe_bind. eapply safe_weaken; [|apply Hp].
  intros a w' Ha. by apply Hf.
Qed.
(** A call whose answer is not looked at, and one whose answer is known. *)
Lemma post_call {X : Set} (e : log_call X) : harmless e → Post (perform e) (λ _, True).
Proof.
  intros He i w. apply safe_perform. intros w1 _ Hw1. split; [done|]. intros _ o w2 Hx.
  split_and!; [by eapply exec_stuck|done..|by destruct o].
Qed.
Lemma post_read {X : Set} (e : log_call X) (Q : X → Prop) :
  harmless e → (∀ w o w', choice e w o w' → False) → can_fail e = false →
  (∀ w a w', stuck w → handle X e w = (Ret a, w') → Q a) → Post (perform e) Q.
Proof.
  intros He Hch Hf HQ i w. apply safe_perform. intros w1 _ Hw1. split; [done|]. intros _ o w2 Hx.
  split_and!; [by eapply exec_stuck|done..|]. destruct o as [a| |]; [|done..].
  destruct Hx as [[E _]|[Hc|(Hc & _)]]; [by eapply HQ|by destruct (Hch _ _ _ Hc)|by rewrite Hf in Hc].
Qed.
Lemma post_config v : Post (perform (MetaGetConfig v)) (λ c, ∀ c', c = Some c' → unregistered c').
Proof.
  apply post_read; [done..|]. intros w a w' Hw. simpl. unfold on_meta, zoom, gets. simpl.
  intros [= <- _] c'. apply (s_configs _ Hw).
Qed.
Lemma post_registry id : Post (perform (RegistrySequencer id)) (λ s, s = registry_sequencer id r).
Proof.
  apply post_read; [done..|]. intros w a w' Hw. simpl. unfold gets. intros [= <- _].
  by rewrite (s_registry _ Hw).
Qed.
Lemma post_map {A B} (f : A → lprog B) l : (∀ a, Post (f a) (λ _, True)) → Post (map_prog f l) (λ _, True).
Proof.
  intros Hf. induction l as [|a l IH]; [by apply post_ret|].
  eapply post_bind; [apply Hf|]. intros b _. eapply post_bind; [apply IH|]. intros bs _. by apply post_ret.
Qed.
Lemma post_attempt {A} (p : lprog A) : Post p (λ _, True) → Post (attempt p) (λ _, True).
Proof.
  intros Hp i w. eapply safe_weaken; [|apply safe_attempt, Hp]. done.
Qed.
Lemma post_weaken {A} (p : lprog A) (P Q : A → Prop) : (∀ a, P a → Q a) → Post p P → Post p Q.
Proof. intros HPQ Hp i w. eapply safe_weaken; [|apply Hp]. auto. Qed.
Lemma post_catch {A} (p : lprog A) h (P : A → Prop) :
  Post p P → (∀ e q, h e = Some q → Post q P) → Post (try_catch p h) P.
Proof. intros Hp Hh i w. apply safe_try_catch; [done..|]. intros e q w' Eq _. by apply (Hh e q). Qed.
Lemma post_deref {A} (o : option A) : Post (deref o) (λ a, o = Some a).
Proof. destruct o; [by apply post_ret|apply post_raise]. Qed.
Lemma post_retrying {A} n (ff : nat → lprog A) :
  (∀ k, Post (ff k) (λ _, True)) → Post (retrying n ff) (λ _, True).
Proof.
  intros Hf. unfold retrying. generalize (n - 1)%nat. intros m. generalize 0%nat.
  induction m as [|m IH]; intros k;
    (eapply post_bind; [apply post_attempt, Hf|]); intros [a|e|] _; try done; apply IH.
Qed.

(** No virtual log can take over a configuration. *)
Lemma post_setState vl v : Post (setState vl v) (λ _, False).
Proof.
  eapply post_bind; [apply post_config|]. intros c Hc.
  eapply post_bind; [apply post_deref|]. intros c' ->.
  eapply post_bind; [apply post_registry|]. intros s ->.
  rewrite (Hc c' eq_refl). apply post_raise.
Qed.
Lemma post_adopt vl : Post (adopt vl) (λ _, False).
Proof.
  eapply post_bind; [by apply post_call|]. intros v _. eapply post_bind; [apply post_setState|]. done.
Qed.
Lemma post_install vl c : unregistered c → Post (install vl c) (λ o, o = None).
Proof.
  intros Hc. apply post_catch.
  - eapply post_bind; [by apply post_call|]. intros _ _. eapply post_bind; [apply post_setState|]. done.
  - intros e q Hq. destruct e; simplify_eq. by apply post_ret.
Qed.
Lemma post_seal_loop v rs mn mx : Post (seal_loop v rs mn mx) (λ _, True).
Proof.
  revert mn mx. induction rs as [|o rs IH]; intros mn mx; [by apply post_ret|].
  eapply post_bind; [apply post_deref|]. intros i _. eapply post_bind; [by apply post_call|].
  intros e _. apply IH.
Qed.
Lemma post_rereplicate vl v sealed l n : Post (rereplicate vl v sealed l n) (λ _, True).
Proof.
  revert l. induction n as [|n IH]; intros l; [by apply post_ret|]. simpl.
  eapply post_bind; [|intros _ _; apply IH].
  eapply post_bind; [apply post_map|intros rs _].
  { intros o. eapply post_bind; [apply post_deref|]. intros i _.
    eapply post_bind; [by apply post_attempt, post_call|]. intros x _. by apply post_ret. }
  eapply post_bind; [by apply post_call|]. intros e _. eapply post_bind; [by apply post_call|]. intros st _.
  eapply post_bind; [|intros fs _; by apply post_call].
  apply post_map. intros i. by apply post_call.
Qed.

Lemma post_reconfigure vl target : unregistered target → Post (reconfigure vl target) (λ _, False).
Proof.
  intros Ht. eapply post_bind; [by apply post_call|]. intros v _.
  eapply post_bind; [by apply post_call|]. intros st _. eapply post_bind; [by apply post_call|].
  intros sh _. eapply post_bind; [apply post_seal_loop|]. intros [mn mx] _.
  eapply post_bind; [apply post_rereplicate|]. intros _ _. eapply post_bind; [by apply post_call|].
  intros [c|] _; [|apply post_adopt]. eapply post_bind; [by apply (post_install vl)|].
  intros o ->. apply post_adopt.
Qed.
Lemma post_reconcile vl fd :
  unregistered (ensemble_config (logServerConfig_ fd)) → Post (reconcile vl fd) (λ _, True).
Proof.
  intros Hc. unfold reconcile. destruct (ensembleAlive_ fd); [by apply post_ret|].
  apply post_catch.
  - eapply post_bind; [by apply post_reconfigure|]. done.
  - intros e q Hq. destruct (is_std_exception e); simplify_eq. by apply post_ret.
Qed.
Lemma post_append x : Post (SequencerImpl_append 0 x) (λ _, True).
Proof.
  eapply post_bind; [by apply post_call|]. intros l _. apply post_retrying. intros k.
  eapply post_bind; [|intros _ _; eapply post_bind; [by apply post_call|]; intros _ _; by apply post_ret].
  eapply post_bind; [by apply post_call|]. intros rs _.
  eapply post_bind; [apply post_map|intros cs _].
  { intros i. eapply post_bind; [by apply post_call|]. intros g _.
    eapply post_bind; [by apply post_call|]. intros v _. by apply post_ret. }
  eapply post_bind; [apply post_map|intros fs _].
  { intros [[i g] v]. by apply post_call. }
  eapply post_bind; [by apply post_call|]. intros q _. by apply post_call.
Qed.
Lemma post_getLogEntry vl l : Post (getLogEntry vl l) (λ _, True).
Proof.
  eapply post_bind; [by apply post_call|]. intros [c|] _; [|apply post_raise].
  eapply post_bind; [by apply post_call|]. intros st _. apply post_retrying. intros k.
  eapply post_bind; [by apply post_call|]. intros st' _.
  destruct (replicaSet st' !! k) as [i|]; [|apply post_raise].
  eapply post_bind; [by apply post_call|]. intros [e|e] _; [by apply post_ret|apply post_raise].
Qed.

(** Clients that ask only for configurations whose sequencer the registry does
    not have. *)
Inductive tame : lthread → Prop :=
  | tame_append x : tame (log_thread (AppendClient x))
  | tame_read vl l : tame (log_thread (ReadClient vl l))
  | tame_reconfigure vl target : unregistered target → tame (log_thread (ReconfigureClient vl target))
  | tame_detector vl fd : unregistered (ensemble_config (logServerConfig_ fd)) →
      tame (existT unit (reconcile vl fd)).
Definition tame_session (w0 : World) (s : World * list lthread) : Prop :=
  reaches (λ _, exec) (λ _ _ _, True) network tame (w0, []) s.

(** What a client answers is no reconfiguration. *)
Definition not_reconfigured (A : Set) (a : A) : Prop :=
  ∀ E : A = answer, eq_rect A (λ A, A) a answer E ≠ Reconfigured.

Lemma post_answer c :
  match c with ReconfigureClient _ target => unregistered target | DetectorClient _ _ => False
          | _ => True end →
  Post (run_client c) (not_reconfigured answer).
Proof.
  assert (Hne : ∀ a, a ≠ Reconfigured → not_reconfigured answer a).
  { intros a Ha E. by rewrite <-Eq_rect_eq.eq_rect_eq. }
  destruct c; intros Hc; [..|done].
  - eapply post_bind; [apply post_append|]. intros l _. by apply post_ret, Hne.
  - eapply post_bind; [apply post_getLogEntry|]. intros x _. by apply post_ret, Hne.
  - eapply post_bind; [by apply post_reconfigure|]. done.
Qed.

Lemma tame_post (t : lthread) : tame t → Post (projT2 t) (not_reconfigured (projT1 t)).
Proof.
  destruct 1; try by apply post_answer. simpl. eapply post_weaken; [|by apply post_reconcile].
  intros a _ E. exfalso. assert (Hone : ∀ x y : answer, x = y) by (rewrite <-E; by intros [] []).
  by specialize (Hone Reconfigured (Appended "" 0)).
Qed.

Lemma tame_stuck w0 w ts :
  stuck w0 → tame_session w0 (w, ts) → stuck w ∧ ¬ answered Reconfigured ts.
Proof.
  intros Hw0 Hr.
  destruct (sys_safe (λ _, exec) (λ _ _ _, True) network tame stuck any_world (λ _, any_world)
    (λ _ _ _ H, H) (λ _ _ _, True) (λ _ A a _, not_reconfigured A a) w0 w ts)
    as (Hw & _ & Hts); [done|done| | |exact Hr|].
  - intros w1 w2 Hw1 Hn. by split; [eapply network_stuck|].
  - intros i t w1 Ht _. by apply tame_post.
  - split; [done|]. intros [i Hi]%list_elem_of_lookup. by apply (Hts i _ Hi eq_refl).
Qed.
End unregistered.

(** The log of [makeVirtualLog] can be used but not reconfigured.  What it
    makes is an initial state of the theorems on safety; and in every execution
    of appends, reads, reconfigurations and failure detectors on it, requests
    delayed, reordered and lost, no reconfiguration ever returns and the
    virtual log keeps the state it was made with: its registry is empty, so
    that the assertion on the new sequencer fails. *)
Theorem makeVirtualLog_never_reconfigures {F : Type} `{Uuid F} f :
  ∃ w0 f', makeVirtualLog f = (Ret w0, f') ∧ initial 5 1 1 w0 ∧
    ∀ w ts, tame_session makeRegistry w0 (w, ts) →
      ¬ answered Reconfigured ts ∧ w_registry w = w_registry w0 ∧ w_vlogs w = w_vlogs w0.
Proof.
  destruct (makeVirtualLog_initial f) as (w0 & f' & E & Hi & Hreg & Hmeta & _).
  exists w0, f'. split_and!; [done..|]. intros w ts Hr.
  destruct (tame_stuck makeRegistry (w_vlogs w0) w0 w ts) as [[Hr' _ Hv] Hn]; [|done|].
  - split; [done| |done]. intros v c _. apply lookup_empty.
  - by rewrite Hr', Hreg.
Qed.

(** *** The version is installed all the same *)

#[local] Instance counting_uuid : Uuid N := λ n, (pretty n, (n + 1)%N).
Definition factory_world : World :=
  match makeVirtualLog 0%N with (Ret w, _) => w | _ => sample_world end.

(** One append, acknowledged by all replicas, and a reconfiguration. *)
Definition append_and_reconfigure : list (action log_client) :=
  Spawn (AppendClient "x") :: repeat (Run 0) 18 ++ [Deliver 0; Deliver 1; Deliver 2; Run 0; Run 0] ++
  Spawn (ReconfigureClient 0 replica_config) :: repeat (Run 1) 10.

(** The append is acknowledged; the reconfiguration installs version 2 and then
    fails, which leaves the virtual log with a sequencer whose segments are
    sealed. *)
Theorem reconfiguration_installs_and_fails :
  ∃ w ts, reaches (λ _, exec) (λ _ _ _, True) network log_user (factory_world, []) (w, ts) ∧
    answered (Appended "x" 1) ts ∧
    (existT answer (Done (Throw AssertFailure)) : lthread) ∈ ts ∧
    Metadata.getCurrentVersionId (w_meta w) = 2 ∧
    map sequencer (w_vlogs w) = [0%nat] ∧ versionId_ (the_sequencer w) = 1.
Proof.
  destruct (script_reaches log_thread any_call (λ _ _ _, True) log_user (λ _ _ _ _, I) log_thread_user
    factory_world append_and_reconfigure
    (λ s, Some (s.2 !! 0%nat, s.2 !! 1%nat,
                (Metadata.getCurrentVersionId (w_meta s.1), map sequencer (w_vlogs s.1),
                 versionId_ (the_sequencer s.1))))
    (Some (existT answer (Done (Ret (Appended "x" 1)))),
     Some (existT answer (Done (Throw AssertFailure))), (2, [0%nat], 1)))
    as (w & ts & Hr & [= H0 H1 H2 H3 H4] & _); [vm_compute; reflexivity|].
  apply list_elem_of_lookup_2 in H0, H1. exists w, ts. by split_and!.
Qed.

(** The same clients as users of the theorem above. *)
Definition tame_thread (c : option string) : lthread :=
  log_thread (match c with Some x => AppendClient x | None => ReconfigureClient 0 replica_config end).

Lemma makeVirtualLog_never_reconfigures_witness :
  ∃ w0 f' w ts, makeVirtualLog 0%N = (Ret w0, f') ∧ tame_session makeRegistry w0 (w, ts) ∧
    answered (Appended "x" 1) ts ∧ ¬ answered Reconfigured ts ∧
    Metadata.getCurrentVersionId (w_meta w) = 2.
Proof.
  destruct (makeVirtualLog_never_reconfigures (F := N) 0%N) as (w0 & f' & E & _ & Hn).
  assert (Ew : w0 = factory_world) by (unfold factory_world; by rewrite E). subst w0.
  destruct (script_reaches tame_thread any_call (λ _ _ _, True) (tame makeRegistry) (λ _ _ _ _, I)) with
    (w0 := factory_world)
    (l := Spawn (Some "x"%string) :: repeat (Run 0) 18 ++ [Deliver 0; Deliver 1; Deliver 2; Run 0; Run 0] ++
          Spawn None :: repeat (Run 1) 10)
    (f := λ s : World * list lthread, Some (Metadata.getCurrentVersionId (w_meta s.1), s.2 !! 0%nat))
    (b := (2, Some (existT answer (Done (Ret (Appended "x" 1))) : lthread)))
    as (w & ts & Hr & [= Hv Ht] & _).
  - intros [x|]; [apply tame_append|]. apply tame_reconfigure. apply lookup_empty.
  - vm_compute. reflexivity.
  - exists factory_world, f', w, ts. destruct (Hn w ts Hr) as [Hno _].
    apply list_elem_of_lookup_2 in Ht. by split_and!.
Defined.

(** ** A virtual log that nobody reconfigures *)

(** All calls of a program satisfy [P]. *)
Fixpoint calls (P : ∀ X : Set, log_call X → Prop) {A} (p : lprog A) : Prop :=
  match p with
  | Done _ => True
  | Call e k => P _ e ∧ ∀ o, calls P (k o)
  end.

Section calls.
Context (P : ∀ X : Set, log_call X → Prop).

Lemma calls_ret {A} (a : A) : calls P (mret a).
Proof. done. Qed.
Lemma calls_raise {A} e : calls P (raise e : lprog A).
Proof. done. Qed.
Lemma calls_perform {X : Set} (e : log_call X) : P X e → calls P (perform e).
Proof. by split. Qed.
Lemma calls_bind {A B} (p : lprog A) (f : A → lprog B) :
  calls P p → (∀ a, calls P (f a)) → calls P (p ≫= f).
Proof.
  intros Hp Hf. unfold mbind, prog_mbind.
  induction p as [[a|e|]|X e k IH]; simpl; [apply Hf|done..|].
  destruct Hp as [He Hk]. split; [done|]. intros o. apply IH, Hk.
Qed.
Lemma calls_attempt {A} (p : lprog A) : calls P p → calls P (attempt p).
Proof.
  induction p as [[a|e|]|X e k IH]; simpl; [done..|]. intros [He Hk]. split; [done|].
  intros o. apply IH, Hk.
Qed.
Lemma calls_try_catch {A} (p : lprog A) h :
  calls P p → (∀ e q, h e = Some q → calls P q) → calls P (try_catch p h).
Proof.
  intros Hp Hh. induction p as [[a|e|]|X e k IH]; simpl; [done| |done|].
  - destruct (h e) as [q|] eqn:Eq; [by apply (Hh e)|done].
  - destruct Hp as [He Hk]. split; [done|]. intros o. apply IH, Hk.
Qed.
Lemma calls_map {A B} (f : A → lprog B) l : (∀ a, calls P (f a)) → calls P (map_prog f l).
Proof.
  intros Hf. induction l as [|a l IH]; [done|]. apply calls_bind; [apply Hf|]. intros b.
  apply calls_bind; [apply IH|]. done.
Qed.
Lemma calls_deref {A} (o : option A) : calls P (deref o).
Proof. by destruct o. Qed.
Lemma calls_seal_loop v rs mn mx :
  (∀ r v, P _ (ReplicaSeal r v)) → calls P (seal_loop v rs mn mx).
Proof.
  intros Hs. revert mn mx. induction rs as [|o rs IH]; intros mn mx; [done|].
  apply calls_bind; [apply calls_deref|]. intros r. apply calls_bind; [by apply calls_perform|].
  intros e. apply IH.
Qed.
Lemma calls_rereplicate vl v sealed l n :
  (∀ X (e : log_call X), match e with SetState _ _ => True | _ => P X e end) →
  calls P (rereplicate vl v sealed l n).
Proof.
  intros HP. revert l. induction n as [|n IH]; intros l; [done|]. simpl.
  apply calls_bind; [|intros _; apply IH].
  apply calls_bind; [apply calls_map|intros rs].
  { intros o. apply calls_bind; [apply calls_deref|]. intros r.
    apply calls_bind; [apply calls_attempt, calls_perform, (HP _ (ReplicaGetLogEntry r v l))|done]. }
  apply calls_bind; [apply calls_perform, (HP _ (AwaitAny rs))|]. intros e.
  apply calls_bind; [apply calls_perform, (HP _ (GetState vl))|]. intros st.
  apply calls_bind; [|intros fs; apply calls_perform, (HP _ (AwaitAnyN fs _))].
  apply calls_map. intros r. apply calls_perform, (HP _ (ReplicaAppend r _ v _ _ _)).
Qed.
End calls.

Section unattended.
Context (vl : nat) (st : VLogState).

(** The calls that do not set the state of this virtual log. *)
Definition avoid (X : Set) (e : log_call X) : Prop :=
  match e with SetState vl' _ => vl' ≠ vl | _ => True end.

(** It keeps its state, and its null sequencer. *)
Definition nulled (w : World) : Prop :=
  w_vlogs w !! vl = Some st ∧ ∃ sq, w_sequencers w !! sequencer st = Some (KNull, sq).

Lemma nulled_same w w' :
  w_vlogs w' = w_vlogs w → w_sequencers w' = w_sequencers w → nulled w → nulled w'.
Proof. intros E1 E2 [H1 (sq & H2)]. split; [by rewrite E1|]. exists sq. by rewrite E2. Qed.
Lemma on_replica_nulled {A} i (m : M (Rep * Metadata.State) A) w : nulled w → nulled (on_replica i m w).2.
Proof.
  unfold on_replica. destruct (w_replicas w !! i) as [rep|]; [|done].
  destruct (m (rep, w_meta w)) as [o [rep' meta']]. by apply nulled_same.
Qed.
Lemma on_sequencer_nulled {A} i (m : M SequencerImpl A) w : nulled w → nulled (on_sequencer i m w).2.
Proof.
  unfold on_sequencer. destruct (w_sequencers w !! i) as [[k sq]|] eqn:Ei; [|done].
  destruct (m sq) as [o sq']. intros [Hst (sq0 & Hsq)]. split; [done|].
  destruct (decide (sequencer st = i)) as [E|E].
  - exists sq'. simpl. rewrite E in *. rewrite Ei in Hsq. injection Hsq as -> ->.
    rewrite list_lookup_insert_eq; [done|]. by eapply lookup_lt_Some.
  - exists sq0. simpl. by rewrite list_lookup_insert_ne.
Qed.
Lemma handle_nulled {X : Set} (e : log_call X) w : avoid X e → nulled w → nulled (handle X e w).2.
Proof.
  intros He Hw. destruct e; simpl; try done.
  all: try by apply on_sequencer_nulled.
  all: try by (unfold on_meta, zoom, gets; simpl; apply (nulled_same w)).
  - unfold on_meta, zoom. simpl.
    destruct (Metadata.compareAndAppendRange c (w_meta w)). by apply (nulled_same w).
  - by apply on_replica_nulled.
  - mred. pose proof (on_replica_nulled r (Replica.seal versionId) w Hw) as Hs.
    destruct (on_replica r (Replica.seal versionId) w) as [[x| |] w1]; [|done..].
    by apply (nulled_same w1).
  - mred.
    pose proof (on_sequencer_nulled s (λ sq, let '(l, sq') := fetch_add sq in (Ret l, sq')) w Hw) as Hs.
    destruct (on_sequencer s _ w) as [[x| |] w1]; [|done..]. by apply (nulled_same w1).
  - destruct Hw as [Hst Hsq]. split; [|done]. simpl in *. by rewrite list_lookup_insert_ne.
Qed.
Lemma exec_nulled {X : Set} (e : log_call X) w o w' :
  avoid X e → nulled w → exec X e w o w' → nulled w'.
Proof.
  intros He Hw Hx. pose proof (handle_nulled e w He Hw) as Hh.
  destruct Hx as [[E _]|[Hch|(_ & err & _ & [->|[o' E]])]].
  - by rewrite E in Hh.
  - by destruct e; try done; destruct Hch as [-> _].
  - done.
  - by rewrite E in Hh.
Qed.
Lemma network_nulled w w' : nulled w → network w w' → nulled w'.
Proof.
  intros Hw Hn. destruct Hn as [w i _ _|w i err _]; [|by apply (nulled_same w)].
  unfold deliver. destruct (w_sent w !! i) as [m|]; [|done].
  destruct (w_replicas w !! m_replica m) as [rep|]; [|done].
  destruct (Replica.append _ _ _ _ _ _ _) as [[f done] [rep' meta']]. by apply (nulled_same w).
Qed.

Abbreviation SafeN :=
  (safe (λ _, exec) (λ _ _ _, True) nulled any_world (λ _, any_world) (λ _ _ _, True)).

Lemma calls_safe {A} (p : lprog A) i w : calls avoid p → SafeN i p (λ _ _, True) w.
Proof.
  unfold safe. revert w. induction p as [[a|e|]|X e k IH]; intros w; simpl; [done..|].
  intros [He Hk] w1 _ Hw1. split; [done|]. intros _ o w2 Hx. split_and!; [|done|done|by apply IH].
  by eapply exec_nulled.
Qed.

(** An append through it finds the null sequencer. *)
Lemma append_nulled x i w : SafeN i (VirtualLog.append vl x) (λ _ _, False) w.
Proof.
  unfold VirtualLog.append. apply safe_bind.
  eapply (wp_weaken _ _ _ _ _ _ _ _ (returns (λ st' _, st' = st))).
  { intros [st'| |] w'; [|done..]. intros ->. unfold sequencer_append. apply safe_bind.
    eapply (wp_weaken _ _ _ _ _ _ _ _ (returns (λ k _, k = KNull))).
    { intros [k| |] w''; [|done..]. by intros ->. }
    apply safe_perform. intros w1 _ Hw1. split; [done|]. intros _ o w2 Hx.
    split_and!; [eapply exec_nulled; [|exact Hw1|exact Hx]; done|done|done|]. destruct o as [k| |]; [|done..].
    destruct Hx as [[E _]|[[]|([=] & _)]]. destruct Hw1 as [_ [sq Hsq]].
    simpl in E. rewrite Hsq in E. by injection E as <- _. }
  apply safe_perform. intros w1 _ Hw1. split; [done|]. intros _ o w2 Hx.
  split_and!; [eapply exec_nulled; [|exact Hw1|exact Hx]; done|done|done|]. destruct o as [st'| |]; [|done..].
  destruct Hx as [[E _]|[[]|([=] & _)]]. destruct Hw1 as [Hst _].
  simpl in E. rewrite Hst in E. by injection E as <- _.
Qed.

(** Clients of this virtual log that append, and anything else that does not
    set its state, reconfigurations of other virtual logs and failure detectors
    on them among it. *)
Definition append_client (x : string) : lprog answer :=
  l ← VirtualLog.append vl x; mret (Appended x l).
Inductive bystander : lthread → Prop :=
  | bystander_append x : bystander (existT answer (append_client x))
  | bystander_other (p : lprog ()) : calls avoid p → bystander (existT unit p).

Lemma reconcile_avoids vl' fd : vl' ≠ vl → calls avoid (reconcile vl' fd).
Proof.
  intros Hne. unfold reconcile. destruct (ensembleAlive_ fd); [done|].
  apply calls_try_catch; [|intros e q; by destruct (is_std_exception e); intros [= <-]].
  assert (Hset : ∀ v, calls avoid (setState vl' v)).
  { intros v. apply calls_bind; [by apply calls_perform|]. intros c.
    apply calls_bind; [apply calls_deref|]. intros c'. apply calls_bind; [by apply calls_perform|].
    intros [s|]; [|done]. apply calls_bind; [by apply calls_perform|]. intros st'.
    by apply calls_perform. }
  assert (Hadopt : calls avoid (adopt vl')).
  { apply calls_bind; [by apply calls_perform|]. intros v. apply calls_bind; [apply Hset|]. intros _.
    apply calls_bind; [by apply calls_perform|]. intros c. apply calls_deref. }
  apply calls_bind; [|done]. apply calls_bind; [by apply calls_perform|]. intros v.
  apply calls_bind; [by apply calls_perform|]. intros st'. apply calls_bind; [by apply calls_perform|].
  intros sh. apply calls_bind; [by apply calls_seal_loop|]. intros [mn mx].
  apply calls_bind; [apply calls_rereplicate; by intros X []|]. intros _.
  apply calls_bind; [by apply calls_perform|]. intros [c|]; [|done].
  apply calls_bind; [|by intros [c'|]].
  apply calls_try_catch; [|intros e q He; by destruct e; simplify_eq].
  apply calls_bind; [by apply calls_perform|]. intros _. apply calls_bind; [apply Hset|]. intros _.
  apply calls_bind; [by apply calls_perform|]. intros st1. apply calls_bind; [|done].
  apply calls_bind; [by apply calls_perform|]. by intros [].
Qed.

(** C32: a virtual log that still has the null sequencer it was made with, and
    that nobody reconfigures, takes no append, even when the other virtual logs
    over the same replicas are reconfigured: only [reconfigure] and
    [refreshConfiguration] of this object replace the sequencer.  In every
    execution from such a state in which clients append through it, while any
    other program runs that does not set its state - reconfigurations and
    failure detectors of other virtual logs, appends, reads - no append
    returns. *)
Theorem unattended_log_never_appends w0 w ts :
  nulled w0 → reaches (λ _, exec) (λ _ _ _, True) network bystander (w0, []) (w, ts) →
  w_vlogs w !! vl = Some st ∧ ∀ x l, ¬ answered (Appended x l) ts.
Proof.
  intros Hw0 Hr.
  set (Q := λ (_ : nat) (A : Set) (a : A) (_ : World), ∀ E : A = answer, False).
  destruct (sys_safe (λ _, exec) (λ _ _ _, True) network bystander nulled any_world (λ _, any_world)
    (λ _ _ _ H, H) (λ _ _ _, True) Q w0 w ts)
    as (Hw & _ & Hts); [done|done| | |exact Hr|].
  - intros w1 w2 Hw1 Hn. by split; [eapply network_nulled|].
  - intros i t w1 [x|p Hp] _; simpl.
    + apply safe_bind. eapply (wp_weaken _ _ _ _ _ _ _ _ (returns (λ _ _, False))); [|apply append_nulled].
      by intros [] ?.
    + eapply (wp_weaken _ _ _ _ _ _ _ _ (returns (λ _ _, True))); [|by apply calls_safe].
      intros [a| |] w' _; [|done..]. intros E.
      assert (Hone : ∀ x y : answer, x = y) by (rewrite <-E; by intros [] []).
      by specialize (Hone Reconfigured (Appended "" 0)).
  - split; [apply Hw|]. intros x l [i Hi]%list_elem_of_lookup. by apply (Hts i _ Hi eq_refl).
Qed.
End unattended.

(** Two virtual logs; the failure detector of the first one reconfigures. *)
Definition second_log : VLogState :=
  {| metadataConfig := default_MetadataConfig; sequencer := 1%nat; replicaSet := seq 0 3 |}.
Definition two_logs : World :=
  set_vlogs (w_vlogs sample_world ++ [second_log])
    (set_sequencers (w_sequencers sample_world ++ [(KNull, makeSequencerImpl "" [] 0 0 false)]) sample_world).
Definition two_logs_thread (c : option string) : lthread :=
  match c with
  | Some x => existT answer (append_client 1 x)
  | None => existT unit (reconcile 0 (makeFailureDetectorImpl sample_ensemble))
  end.
Definition detect_and_append : list (action (option string)) :=
  Spawn None :: repeat (Run 0) 14 ++ Spawn (Some "x"%string) :: repeat (Run 1) 2.

Lemma unattended_log_never_appends_witness :
  ∃ w ts, reaches (λ _, exec) (λ _ _ _, True) network (bystander 1) (two_logs, []) (w, ts) ∧
    Metadata.getCurrentVersionId (w_meta w) = 2 ∧ w_vlogs w !! 1%nat = Some second_log ∧
    (existT answer (Done (Throw NullSequencerException)) : lthread) ∈ ts ∧
    ∀ x l, ¬ answered (Appended x l) ts.
Proof.
  destruct (script_reaches two_logs_thread any_call (λ _ _ _, True) (bystander 1) (λ _ _ _ _, I)) with
    (w0 := two_logs) (l := detect_and_append)
    (f := λ s : World * list lthread, Some (Metadata.getCurrentVersionId (w_meta s.1), s.2 !! 1%nat))
    (b := (2, Some (existT answer (Done (Throw NullSequencerException)) : lthread)))
    as (w & ts & Hr & [= Hv Ht] & _).
  - intros [x|]; [constructor|]. apply bystander_other. by apply reconcile_avoids.
  - vm_compute. reflexivity.
  - destruct (unattended_log_never_appends 1 second_log two_logs w ts) as [Hl Hn]; [|exact Hr|].
    + split; [done|]. by eexists.
    + apply list_elem_of_lookup_2 in Ht. exists w, ts. by split_and!.
Defined.
