(* ===== verification/Paxos.v ===== *)
(** * Paxos: acceptors

    [src/wor/paxos/Common.cc], [LocalAcceptor.cc], [server/Acceptor.h] and
    [RegistryImpl.h].  An acceptor keeps one [PaxosInstance] per instance id in
    a key-value store.  The operations run under the acceptor's mutex, so each
    is one step.  What they do is stated on [instance], the state of one
    instance; an operation on one instance leaves the others alone, and a
    failing store means no answer and no change. *)

From stdpp Require Import base gmap list strings.
From Stdlib Require Import ZArith Lia.
From S2P Require Import Prelude KVStore.

Open Scope Z_scope.

(** ** Messages *)

Record BallotId := { major_id : Z; minor_id : Z }.
#[export] Instance BallotId_eq_dec : EqDecision BallotId.
Proof. solve_decision. Defined.

(** [operator<=], [operator<] and [operator==] *)
Definition ballot_le (x y : BallotId) : bool :=
  if major_id x =? major_id y then minor_id x <=? minor_id y
  else major_id x <=? major_id y.
Definition ballot_lt (x y : BallotId) : bool :=
  if major_id x =? major_id y then minor_id x <? minor_id y
  else major_id x <? major_id y.
Definition ballot_eq (x y : BallotId) : bool :=
  (major_id x =? major_id y) && (minor_id x =? minor_id y).

Record Promise := { promise_ballot : BallotId; promise_value : option string }.
Record Proposal := { proposal_ballot : BallotId; proposal_value : string }.

Record PaxosInstance := {
  instance_id : string;
  promised_ballot_id : BallotId;
  accepted : option Promise;
  committed : bool }.

(** Default instances of the messages. *)
Definition default_ballot : BallotId := {| major_id := 0; minor_id := 0 |}.
Definition default_promise : Promise :=
  {| promise_ballot := default_ballot; promise_value := None |}.

(** [accepted().value()]: the empty string when nothing is set. *)
Definition accepted_value (p : PaxosInstance) : string :=
  default ""%string (promise_value (default default_promise (accepted p))).

(** The serialization generated from [PaxosMessage.proto]. *)
Class PaxosCodec := {
  SerializeAsString : PaxosInstance → string;
  ParseFromString : string → option PaxosInstance }.
Class PaxosCodecLaws `{PaxosCodec} :=
  parse_serialize p : ParseFromString (SerializeAsString p) = Some p.

(** ** LocalAcceptor *)

Definition KEY_FORMAT (id : string) : string := "PAXOS_DATA|" +:+ id.

Definition set_promised (b : BallotId) (p : PaxosInstance) : PaxosInstance :=
  {| instance_id := instance_id p; promised_ballot_id := b; accepted := accepted p;
     committed := committed p |}.
Definition set_accepted (q : Proposal) (p : PaxosInstance) : PaxosInstance :=
  {| instance_id := instance_id p; promised_ballot_id := proposal_ballot q;
     accepted := Some {| promise_ballot := proposal_ballot q;
                         promise_value := Some (proposal_value q) |};
     committed := committed p |}.
Definition set_committed (p : PaxosInstance) : PaxosInstance :=
  {| instance_id := instance_id p; promised_ballot_id := promised_ballot_id p;
     accepted := accepted p; committed := true |}.

Definition new_instance (id : string) : PaxosInstance :=
  {| instance_id := id; promised_ballot_id := {| major_id := -1; minor_id := -1 |};
     accepted := None; committed := false |}.

Section acceptor.
Context {K : Type} `{KVStoreLite K} `{PaxosCodec}.

(** Writing an instance back; the code throws when the store reports
    failure. *)
Definition store (what : string) (p : PaxosInstance) : M K () :=
  result ← kv_put (KEY_FORMAT (instance_id p)) (SerializeAsString p);
  if result : bool then mret () else throw (RuntimeError what).

Definition getOrCreate (id : string) : M K PaxosInstance :=
  result ← kv_get (KEY_FORMAT id);
  match result with
  | Some s =>
      match ParseFromString s with
      | Some paxosInstance => mret paxosInstance
      | None => throw (RuntimeError "paxos instance could not be deserialized")
      end
  | None =>
      _ ← store "storage error" (new_instance id);
      mret (new_instance id)
  end.

Definition prepare (paxosInstanceId : string) (ballot : BallotId) : M K (Promise + ()) :=
  paxosInstance ← getOrCreate paxosInstanceId;
  if ballot_le ballot (promised_ballot_id paxosInstance) then mret (inr ())
  else
    _ ← store "storage write failed" (set_promised ballot paxosInstance);
    match accepted paxosInstance with
    | Some a => mret (inl a)
    | None => mret (inl {| promise_ballot := ballot; promise_value := None |})
    end.

Definition accept (paxosInstanceId : string) (proposal : Proposal) : M K bool :=
  paxosInstance ← getOrCreate paxosInstanceId;
  if ballot_lt (proposal_ballot proposal) (promised_ballot_id paxosInstance) then mret false
  else
    _ ← store "storage write failed" (set_accepted proposal paxosInstance);
    mret true.

Definition commit (paxosInstanceId : string) (ballotId : BallotId) : M K bool :=
  paxosInstance ← getOrCreate paxosInstanceId;
  if committed paxosInstance then mret false
  else
    _ ← store "storage write failed" (set_committed paxosInstance);
    mret true.

Definition getAcceptedValue (paxosInstanceId : string) : M K (option Promise) :=
  paxosInstance ← getOrCreate paxosInstanceId;
  mret (Some (default default_promise (accepted paxosInstance))).

Definition getCommittedValue (paxosInstanceId : string) : M K (option string) :=
  paxosInstance ← getOrCreate paxosInstanceId;
  if committed paxosInstance then mret (Some (accepted_value paxosInstance)) else mret None.
End acceptor.

(** ** The service in front of an acceptor, and its client

    A request names the operation; [serve] is the service's handler, whose
    answer the client turns back into the operation's result. *)

Inductive request :=
  | PrepareRequest (paxos_instance_id : string) (ballot_id : BallotId)
  | AcceptRequest (paxos_instance_id : string) (proposal : Proposal)
  | CommitRequest (paxos_instance_id : string) (ballot_id : BallotId)
  | GetAcceptedValueRequest (paxos_instance_id : string)
  | GetCommittedValueRequest (paxos_instance_id : string).

(** [PrepareResponse]'s [oneof] is unset in a default instance. *)
Inductive response :=
  | PrepareResponse (response : option (Promise + ()))
  | AcceptResponse (result : bool)
  | CommitResponse (result : bool)
  | GetAcceptedValueResponse (promise : option Promise)
  | GetCommittedValueResponse (value : option string).

Definition request_instance (r : request) : string :=
  match r with
  | PrepareRequest i _ | AcceptRequest i _ | CommitRequest i _
  | GetAcceptedValueRequest i | GetCommittedValueRequest i => i
  end.

Section server.
Context {K : Type} `{KVStoreLite K} `{PaxosCodec}.

Definition server_prepare (i : string) (b : BallotId) : M K response :=
  prepareResult ← prepare i b;
  match prepareResult with
  | inr _ => mret (PrepareResponse (Some (inr ())))
  | inl p => mret (PrepareResponse (Some (inl p)))
  end.
Definition server_accept (i : string) (q : Proposal) : M K response :=
  result ← accept i q; mret (AcceptResponse result).
Definition server_commit (i : string) (b : BallotId) : M K response :=
  result ← commit i b; mret (CommitResponse result).
Definition server_getAcceptedValue (i : string) : M K response :=
  result ← getAcceptedValue i; mret (GetAcceptedValueResponse result).
Definition server_getCommittedValue (i : string) : M K response :=
  result ← getCommittedValue i; mret (GetCommittedValueResponse result).

Definition serve (r : request) : M K response :=
  match r with
  | PrepareRequest i b => server_prepare i b
  | AcceptRequest i q => server_accept i q
  | CommitRequest i b => server_commit i b
  | GetAcceptedValueRequest i => server_getAcceptedValue i
  | GetCommittedValueRequest i => server_getCommittedValue i
  end.
End server.

(** [AcceptorClient], given the outcome of the call on the stub. *)
Definition client_prepare (status : outcome response) : outcome (Promise + ()) :=
  match status with
  | Ret _ => Ret (inl default_promise)
  | Throw e => Throw e
  | Block => Block
  end.
Definition client_accept (status : outcome response) : outcome bool :=
  match status with
  | Ret (AcceptResponse b) => Ret b
  | Ret _ => Ret false
  | Throw e => Throw e
  | Block => Block
  end.
Definition client_commit (status : outcome response) : outcome bool :=
  match status with
  | Ret (CommitResponse b) => Ret b
  | Ret _ => Ret false
  | Throw e => Throw e
  | Block => Block
  end.
Definition client_getAcceptedValue (status : outcome response) : outcome (option Promise) :=
  match status with
  | Ret (GetAcceptedValueResponse p) => Ret p
  | Ret _ => Ret None
  | Throw e => Throw e
  | Block => Block
  end.
Definition client_getCommittedValue (status : outcome response) : outcome (option string) :=
  match status with
  | Ret (GetCommittedValueResponse v) => Ret v
  | Ret _ => Ret None
  | Throw e => Throw e
  | Block => Block
  end.

(** ** RegistryImpl: the acceptors by name *)

Definition registerAcceptor {A} (id : string) (acceptor : A) (r : gmap string A)
    : outcome () * gmap string A :=
  match r !! id with
  | Some _ => (Throw AssertFailure, r)
  | None => (Ret (), <[id := acceptor]> r)
  end.
Definition getAcceptor {A} (id : string) (r : gmap string A) : outcome A :=
  match r !! id with Some a => Ret a | None => Throw AssertFailure end.

(** ** Lemmas: ballots *)

Lemma ballot_le_spec x y :
  ballot_le x y = true ↔
  major_id x < major_id y ∨ (major_id x = major_id y ∧ minor_id x ≤ minor_id y).
Proof. unfold ballot_le. destruct (Z.eqb_spec (major_id x) (major_id y)); lia. Qed.
Lemma ballot_lt_spec x y :
  ballot_lt x y = true ↔
  major_id x < major_id y ∨ (major_id x = major_id y ∧ minor_id x < minor_id y).
Proof. unfold ballot_lt. destruct (Z.eqb_spec (major_id x) (major_id y)); lia. Qed.

Lemma ballot_eq_of x y : major_id x = major_id y → minor_id x = minor_id y → x = y.
Proof. destruct x, y; simpl; congruence. Qed.

Lemma ballot_eq_spec x y : ballot_eq x y = true ↔ x = y.
Proof.
  unfold ballot_eq. rewrite andb_true_iff, !Z.eqb_eq. split; [|by intros ->].
  intros []. by apply ballot_eq_of.
Qed.

Definition ble (x y : BallotId) : Prop := ballot_le x y = true.
Definition blt (x y : BallotId) : Prop := ballot_lt x y = true.

(** Decides the linear order of ballots by arithmetic. *)
Ltac ballots :=
  unfold ble, blt in *;
  repeat match goal with
  | H : ballot_le _ _ = false |- _ => apply not_true_iff_false in H
  | H : ballot_lt _ _ = false |- _ => apply not_true_iff_false in H
  end;
  repeat match goal with
  | H : context [ballot_le _ _ = true] |- _ => rewrite ballot_le_spec in H
  | H : context [ballot_lt _ _ = true] |- _ => rewrite ballot_lt_spec in H
  end;
  rewrite ?ballot_le_spec, ?ballot_lt_spec;
  try match goal with |- @eq BallotId _ _ => apply ballot_eq_of end;
  repeat match goal with H : @eq BallotId ?x ?y |- _ =>
    is_var x; is_var y; subst x || subst y end;
  lia.

#[export] Instance ble_order : PartialOrder ble.
Proof.
  split; [split|].
  - intros x. ballots.
  - intros x y z ? ?. ballots.
  - intros x y ? ?. ballots.
Qed.

Lemma ballot_lt_trichotomy x y : {blt x y} + {x = y} + {blt y x}.
Proof.
  unfold blt. destruct (ballot_lt x y) eqn:E1; [by left; left|].
  destruct (ballot_lt y x) eqn:E2; [by right|]. left; right.
  ballots.
Qed.

(** ** An acceptor as one record per instance *)

(** What a request answers and does, on the record of its instance. *)
Definition spec_serve (r : request) (p : PaxosInstance) : response * PaxosInstance :=
  match r with
  | PrepareRequest _ b =>
      if ballot_le b (promised_ballot_id p) then (PrepareResponse (Some (inr ())), p)
      else (PrepareResponse (Some (inl (default {| promise_ballot := b; promise_value := None |}
              (accepted p)))), set_promised b p)
  | AcceptRequest _ q =>
      if ballot_lt (proposal_ballot q) (promised_ballot_id p) then (AcceptResponse false, p)
      else (AcceptResponse true, set_accepted q p)
  | CommitRequest _ _ =>
      if committed p then (CommitResponse false, p) else (CommitResponse true, set_committed p)
  | GetAcceptedValueRequest _ =>
      (GetAcceptedValueResponse (Some (default default_promise (accepted p))), p)
  | GetCommittedValueRequest _ =>
      (GetCommittedValueResponse (if committed p then Some (accepted_value p) else None), p)
  end.

Section refinement.
Context {K : Type} `{KVStoreLaws K} `{PaxosCodecLaws}.
Implicit Types (k : K) (id : string) (p : PaxosInstance).

Definition instance id k : option PaxosInstance :=
  match om_find (KEY_FORMAT id) (kv_contents k) with
  | None => Some (new_instance id)
  | Some s => ParseFromString s
  end.

(** Every record parses and carries its own id. *)
Definition acceptor_ok k : Prop :=
  ∀ id, ∃ p, instance id k = Some p ∧ instance_id p = id.

(** [k'] differs from [k] in the record [p] of instance [id] only. *)
Definition updates id p k k' : Prop :=
  instance id k' = Some p ∧ ∀ id', id' ≠ id → instance id' k' = instance id' k.

Lemma KEY_FORMAT_inj id id' : KEY_FORMAT id = KEY_FORMAT id' → id = id'.
Proof. unfold KEY_FORMAT. simpl. by intros [= ]. Qed.

Lemma updates_refl id p k : instance id k = Some p → updates id p k k.
Proof. by split. Qed.
Lemma updates_trans id p1 p k1 k2 k3 : updates id p1 k1 k2 → updates id p k2 k3 → updates id p k1 k3.
Proof. intros [_ Hu1] [? Hu2]. split; [done|]. intros id' Hne. by rewrite Hu2, Hu1. Qed.
Lemma updates_ok id p k k' : instance_id p = id → acceptor_ok k → updates id p k k' → acceptor_ok k'.
Proof.
  intros Hid Hok [Hp Hne] id'. destruct (decide (id' = id)) as [->|]; [by exists p|].
  rewrite Hne by done. apply Hok.
Qed.

(** An operation answers [a] and leaves the record [p'], or gives no answer
    and leaves the record [p]; on a healthy store the former. *)
Definition answers {A} (m : M K A) id k p (a : A) p' : Prop :=
  ((m k).1 = Ret a ∧ updates id p' k (m k).2 ∨
   (∀ x, (m k).1 ≠ Ret x) ∧ updates id p k (m k).2) ∧
  (kv_healthy k → (m k).1 = Ret a ∧ kv_healthy (m k).2).

Lemma store_answers what id k p0 p :
  instance id k = Some p0 → instance_id p = id → answers (store what p) id k p0 () p.
Proof.
  intros Hp0 Hid. unfold answers, store. mred.
  pose proof (kv_healthy_put (KEY_FORMAT (instance_id p)) (SerializeAsString p) k) as Hh.
  destruct (kv_put _ _ k) as [o k'] eqn:E.
  assert (Hk : kv_contents k' = if succeeded o then
    om_set (KEY_FORMAT (instance_id p)) (SerializeAsString p) (kv_contents k)
    else kv_contents k) by by eapply kv_put_spec.
  split; [|intros Hk1; destruct (Hh Hk1) as [Eo ?]; simpl in *; by subst].
  destruct (succeeded o) eqn:Ho.
  - destruct o as [[]| |]; try done. left. split; [done|]. unfold updates, instance. simpl.
    rewrite Hk, Hid. split; [by rewrite om_find_set_eq, parse_serialize|].
    intros id' Hne. rewrite om_find_set_ne; [done|]. by intros ?%KEY_FORMAT_inj.
  - right. assert (updates id p0 k k') by (unfold updates, instance in *; by rewrite Hk).
    destruct o as [[]| |]; simpl in *; done.
Qed.

(** A first part that answers [a] without a change of the record. *)
Lemma answers_bind {A B} (m : M K A) (f : A → M K B) id k p a b p' :
  answers m id k p a p →
  (∀ k', instance id k' = Some p → answers (f a) id k' p b p') →
  answers (x ← m; f x) id k p b p'.
Proof.
  intros [Hm Hh] Hf. unfold answers in *. mred. destruct (m k) as [o k1]. simpl in *.
  split.
  - destruct Hm as [[-> Hu]|[Hn Hu]].
    + destruct (Hf k1 (proj1 Hu)) as [[[E Hu2]|[E Hu2]] _]; [left|right];
        (split; [done|]; by eapply updates_trans).
    + right. by destruct o as [x| |]; [destruct (Hn x)|..].
  - intros Hk. destruct (Hh Hk) as [-> Hk1].
    destruct Hm as [[_ Hu]|[Hn _]]; [|by destruct (Hn a)]. by apply (Hf k1 (proj1 Hu)).
Qed.

(** A last part that only returns. *)
Lemma answers_then {A B} (m : M K A) (f : A → M K B) id k p a b p' :
  answers m id k p a p' → f a = mret b → answers (x ← m; f x) id k p b p'.
Proof.
  intros [Hm Hh] Hf. unfold answers in *. mred. destruct (m k) as [o k1]. simpl in *. split.
  - destruct Hm as [[-> Hu]|[Hn Hu]]; [left; by rewrite Hf|right].
    by destruct o as [x| |]; [destruct (Hn x)|..].
  - intros Hk. destruct (Hh Hk) as [-> Hk1]. by rewrite Hf.
Qed.

Lemma answers_ret {A} (a : A) id k p : instance id k = Some p → answers (mret a) id k p a p.
Proof. intros Hp. split; [left; by split; [|apply updates_refl]|by intros]. Qed.

Lemma getOrCreate_answers id k p :
  instance id k = Some p → instance_id p = id → answers (getOrCreate id) id k p p p.
Proof.
  intros Hp Hid. unfold getOrCreate.
  assert (Hget : answers (kv_get (KEY_FORMAT id)) id k p
    (om_find (KEY_FORMAT id) (kv_contents k)) p).
  { unfold answers. pose proof (kv_healthy_get (KEY_FORMAT id) k) as Hh.
    destruct (kv_get _ k) as [o k'] eqn:E. apply kv_get_spec in E as [-> Hx]. split.
    - destruct o as [x| |]; [left|right..]; (split; [|by apply updates_refl]); [|done..].
      by rewrite (Hx x).
    - intros Hk. specialize (Hh Hk). by simplify_eq. }
  eapply answers_bind; [exact Hget|]. intros k' Hk'. unfold instance in Hp.
  destruct (om_find _ _) as [s|].
  - rewrite Hp. by apply answers_ret.
  - injection Hp as <-. eapply answers_then; [by apply store_answers|done].
Qed.

Lemma serve_answers r k p :
  instance (request_instance r) k = Some p → instance_id p = request_instance r →
  answers (serve r) (request_instance r) k p (spec_serve r p).1 (spec_serve r p).2.
Proof.
  intros Hp Hid. pose proof (getOrCreate_answers _ k p Hp Hid) as Hget.
  destruct r as [i b|i q|i b|i|i]; simpl in *.
  - eapply (answers_then _ _ _ _ _ (match spec_serve (PrepareRequest i b) p with
      | (PrepareResponse (Some x), _) => x | _ => inr () end)); simpl.
    + eapply answers_bind; [done|]. intros k' Hk'.
      destruct (ballot_le _ _); [by apply answers_ret|].
      eapply answers_then; [by apply store_answers|]. by destruct (accepted p).
    + by destruct (ballot_le _ _).
  - apply (answers_then _ _ _ _ _ (negb (ballot_lt (proposal_ballot q) (promised_ballot_id p))));
      [|by destruct (ballot_lt _ _)].
    eapply answers_bind; [done|]. intros k' Hk'.
    destruct (ballot_lt _ _); [by apply answers_ret|].
    eapply answers_then; [by apply store_answers|done].
  - apply (answers_then _ _ _ _ _ (negb (committed p))); [|by destruct (committed p)].
    eapply answers_bind; [done|]. intros k' Hk'.
    destruct (committed p); [by apply answers_ret|].
    eapply answers_then; [by apply store_answers|done].
  - eapply answers_then; [|done]. eapply answers_bind; [done|]. intros k' Hk'.
    by apply answers_ret.
  - eapply answers_then; [|done]. eapply answers_bind; [done|]. intros k' Hk'.
    destruct (committed p); by apply answers_ret.
Qed.

Lemma acceptor_serves r k o k' :
  acceptor_ok k → serve r k = (o, k') →
  acceptor_ok k' ∧
  (∀ id, id ≠ request_instance r → instance id k' = instance id k) ∧
  (∃ p, instance (request_instance r) k = Some p ∧
    (o = Ret (spec_serve r p).1 ∧
       instance (request_instance r) k' = Some (spec_serve r p).2 ∨
     (∀ x, o ≠ Ret x) ∧ instance (request_instance r) k' = Some p)) ∧
  (kv_healthy k → kv_healthy k' ∧ ∃ x, o = Ret x).
Proof.
  intros Hok E. destruct (Hok (request_instance r)) as (p & Hp & Hid).
  pose proof (serve_answers r k p Hp Hid) as [Ha Hh]. rewrite E in Ha, Hh. simpl in Ha, Hh.
  assert (∃ p', updates (request_instance r) p' k k' ∧ instance_id p' = request_instance r)
    as (p' & Hu & Hid').
  { destruct Ha as [[_ Hu]|[_ Hu]]; [|by exists p].
    eexists; split; [done|]. rewrite <- Hid. by destruct r; simpl; try case_match. }
  split_and!.
  - by eapply updates_ok.
  - by destruct Hu.
  - exists p. split; [done|]. destruct Ha as [[? []]|[? []]]; auto.
  - intros Hk. destruct (Hh Hk). eauto.
Qed.

(** C15: the acceptor refines its specification: whatever the store does, a
    request answers and updates the record of its instance as [spec_serve]
    says, or it gives no answer and changes nothing; the records of other
    instances stay as they are, and a store that works gives the answer. *)
Theorem acceptor_refines r k o k' :
  acceptor_ok k → serve r k = (o, k') →
  acceptor_ok k' ∧
  (∀ id, id ≠ request_instance r → instance id k' = instance id k) ∧
  (∃ p, instance (request_instance r) k = Some p ∧
    (o = Ret (spec_serve r p).1 ∧
       instance (request_instance r) k' = Some (spec_serve r p).2 ∨
     (∀ x, o ≠ Ret x) ∧ instance (request_instance r) k' = Some p)) ∧
  (kv_healthy k → kv_healthy k' ∧ ∃ x, o = Ret x).
Proof. apply acceptor_serves. Qed.
End refinement.
(** ** A concrete serialization, for the examples *)

#[export] Instance BallotId_countable : Countable BallotId.
Proof.
  apply (inj_countable' (λ b, (major_id b, minor_id b))
    (λ x, {| major_id := x.1; minor_id := x.2 |})). by intros [].
Defined.
#[export] Instance Promise_eq_dec : EqDecision Promise.
Proof. solve_decision. Defined.
#[export] Instance Promise_countable : Countable Promise.
Proof.
  apply (inj_countable' (λ p, (promise_ballot p, promise_value p))
    (λ x, {| promise_ballot := x.1; promise_value := x.2 |})). by intros [].
Defined.
#[export] Instance PaxosInstance_eq_dec : EqDecision PaxosInstance.
Proof. solve_decision. Defined.
#[export] Instance PaxosInstance_countable : Countable PaxosInstance.
Proof.
  apply (inj_countable' (λ p, (instance_id p, promised_ballot_id p, accepted p, committed p))
    (λ x, {| instance_id := x.1.1.1; promised_ballot_id := x.1.1.2; accepted := x.1.2;
             committed := x.2 |})). by intros [].
Defined.

Definition bits_codec : PaxosCodec :=
  {| SerializeAsString := to_bits; ParseFromString := of_bits |}.
#[export] Instance bits_codec_laws : @PaxosCodecLaws bits_codec.
Proof. intros p. apply of_to_bits. Qed.

#[local] Existing Instance bits_codec.

Lemma acceptor_refines_witness :
  ∃ o k', serve (K := Rocks.RocksKVStoreLite MemDB) (PrepareRequest "7" {| major_id := 7; minor_id := 1 |})
      empty_store = (o, k') ∧ acceptor_ok k' ∧
    ∃ p, instance "7" k' = Some p ∧ promised_ballot_id p = {| major_id := 7; minor_id := 1 |}.
Proof.
  destruct (serve (K := Rocks.RocksKVStoreLite MemDB) (PrepareRequest "7" {| major_id := 7; minor_id := 1 |})
      empty_store) as [o k'] eqn:E.
  exists o, k'. split; [done|].
  assert (Hok0 : acceptor_ok (K := Rocks.RocksKVStoreLite MemDB) empty_store)
    by (intros id; by exists (new_instance id)).
  destruct (acceptor_refines _ _ _ _ Hok0 E)
    as (Hok & _ & (p & Hp & Hcase) & Hh).
  split; [exact Hok|]. destruct (Hh eq_refl) as (_ & x & ->).
  destruct Hcase as [[_ Hi]|[Hno _]]; [|by destruct (Hno x)]. injection Hp as <-.
  by eexists.
Defined.
