(* ===== verification/Proposer.v ===== *)
(** * Paxos: proposers and write-once registers

    [src/wor/paxos/ProposerImpl.h], [PaxosWriteOnceRegister.h],
    [RemoteAcceptor.h] and [client/AcceptorClient.h], as programs over the
    requests they send to acceptors.  [Start] sends a request, [Await] waits
    for its outcome and [AwaitFor] waits under [timed_wait]; between these
    calls anything else can happen. *)

From stdpp Require Import base gmap sets list strings pretty.
From Stdlib Require Import ZArith Lia.
From S2P Require Import Prelude KVStore Program Paxos.

Open Scope Z_scope.

Inductive pax_call : Set → Set :=
  | Start (a : nat) (r : request) : pax_call nat
  | Await (rpc : nat) : pax_call response
  | AwaitFor (rpc : nat) : pax_call (option response).
Abbreviation pprog := (prog pax_call).

(** ** The interface of acceptors

    An acceptor of this process, or one behind the service. *)
Inductive acceptor := Local (a : nat) | Remote (a : nat).
Definition address (x : acceptor) : nat := match x with Local a | Remote a => a end.

Definition prepare_result (x : acceptor) (status : outcome response) : outcome (Promise + ()) :=
  match x with
  | Local _ =>
      match status with
      | Ret (PrepareResponse (Some r)) => Ret r
      | Ret _ => Throw AssertFailure
      | Throw e => Throw e
      | Block => Block
      end
  | Remote _ => client_prepare status
  end.

Definition acceptor_call (x : acceptor) (r : request) : pprog response :=
  rpc ← perform (Start (address x) r);
  perform (Await rpc).
Definition acceptor_accept (x : acceptor) (i : string) (q : Proposal) : pprog bool :=
  status ← attempt (acceptor_call x (AcceptRequest i q)); Done (client_accept status).
Definition acceptor_commit (x : acceptor) (i : string) (b : BallotId) : pprog bool :=
  status ← attempt (acceptor_call x (CommitRequest i b)); Done (client_commit status).
Definition acceptor_getCommittedValue (x : acceptor) (i : string) : pprog (option string) :=
  status ← attempt (acceptor_call x (GetCommittedValueRequest i));
  Done (client_getCommittedValue status).
Definition acceptor_getAcceptedValue (x : acceptor) (i : string) : pprog (option Promise) :=
  status ← attempt (acceptor_call x (GetAcceptedValueRequest i));
  Done (client_getAcceptedValue status).

(** [timed_wait] on a prepare that was started: [None] when time is up. *)
Definition timed_prepare (x : acceptor * nat) : pprog (option (Promise + ())) :=
  r ← perform (AwaitFor x.2);
  match r with
  | None => mret None
  | Some response => p ← Done (prepare_result x.1 (Ret response)); mret (Some p)
  end.

(** ** ProposerImpl *)

Record ProposerImpl := {
  majority_ : Z;
  prepareAcceptors_ : list acceptor;
  proposeAcceptors_ : list acceptor;
  selectedProposal_ : option Proposal }.

Definition makeProposerImpl (majoritySize : Z) (acceptors : list acceptor) : ProposerImpl :=
  {| majority_ := majoritySize; prepareAcceptors_ := acceptors; proposeAcceptors_ := [];
     selectedProposal_ := None |}.

Definition set_proposeAcceptors (l : list acceptor) (p : ProposerImpl) : ProposerImpl :=
  {| majority_ := majority_ p; prepareAcceptors_ := prepareAcceptors_ p;
     proposeAcceptors_ := l; selectedProposal_ := selectedProposal_ p |}.
Definition set_selectedProposal (s : option Proposal) (p : ProposerImpl) : ProposerImpl :=
  {| majority_ := majority_ p; prepareAcceptors_ := prepareAcceptors_ p;
     proposeAcceptors_ := proposeAcceptors_ p; selectedProposal_ := s |}.

(** [collectAllRange]: waits for all, then throws the first exception. *)
Fixpoint collect {A} (os : list (outcome A)) : outcome (list A) :=
  match os with
  | [] => Ret []
  | Ret a :: os' => match collect os' with Ret l => Ret (a :: l) | Throw e => Throw e | Block => Block end
  | Throw e :: _ => Throw e
  | Block :: _ => Block
  end.

(** The loop over the answers: the acceptors that promised, and the proposals
    they had accepted. *)
Fixpoint prepare_loop (xs : list (acceptor * option (Promise + ())))
    : list acceptor * list Proposal :=
  match xs with
  | [] => ([], [])
  | (x, Some (inl promise)) :: xs' =>
      let '(acceptors, proposals) := prepare_loop xs' in
      (x :: acceptors,
       match promise_value promise with
       | Some v => {| proposal_ballot := promise_ballot promise; proposal_value := v |} :: proposals
       | None => proposals
       end)
  | _ :: xs' => prepare_loop xs'
  end.

Definition select (proposals : list Proposal) : option Proposal :=
  foldl (λ selected q,
    match selected with
    | None => Some q
    | Some s => if ballot_lt (proposal_ballot s) (proposal_ballot q) then Some q else selected
    end) None proposals.

Definition ProposerImpl_prepare (paxosInstanceId : string) (ballotId : BallotId)
    : sprog pax_call ProposerImpl bool :=
  _ ← smodify (set_proposeAcceptors []);
  p ← sget;
  rpcs ← lift (map_prog (λ x,
           rpc ← perform (Start (address x) (PrepareRequest paxosInstanceId ballotId));
           mret (x, rpc)) (prepareAcceptors_ p));
  results ← lift (map_prog (λ x, attempt (timed_prepare x)) rpcs);
  prepares ← lift (Done (collect results));
  let '(acceptors, proposals) := prepare_loop (zip (prepareAcceptors_ p) prepares) in
  _ ← smodify (set_proposeAcceptors acceptors);
  if length acceptors <? majority_ p then mret false
  else
    _ ← smodify (set_selectedProposal (select proposals));
    mret true.

Fixpoint accept_loop (i : string) (q : Proposal) (acceptors : list acceptor) : pprog Z :=
  match acceptors with
  | [] => mret 0
  | x :: xs =>
      result ← acceptor_accept x i q;
      n ← accept_loop i q xs;
      mret (if result : bool then n + 1 else n)
  end.

Fixpoint commit_loop (i : string) (b : BallotId) (acceptors : list acceptor) (committed : bool)
    : pprog bool :=
  match acceptors with
  | [] => mret committed
  | x :: xs =>
      commitResult ← acceptor_commit x i b;
      commit_loop i b xs (committed || commitResult)
  end.

Definition proposal_of (p : ProposerImpl) (ballotId : BallotId) (value : string) : Proposal :=
  {| proposal_ballot := ballotId;
     proposal_value := match selectedProposal_ p with
                       | Some s => proposal_value s
                       | None => value
                       end |}.

Definition ProposerImpl_propose (paxosInstanceId : string) (ballotId : BallotId) (value : string)
    : sprog pax_call ProposerImpl bool :=
  p ← sget;
  successfulProposals ← lift (accept_loop paxosInstanceId (proposal_of p ballotId value)
                                (proposeAcceptors_ p));
  if successfulProposals <? majority_ p then mret false
  else lift (commit_loop paxosInstanceId ballotId (proposeAcceptors_ p) false).

Fixpoint first_committed (i : string) (acceptors : list acceptor) : pprog (option string) :=
  match acceptors with
  | [] => mret None
  | x :: xs =>
      committedValue ← acceptor_getCommittedValue x i;
      match committedValue with
      | Some v => mret (Some v)
      | None => first_committed i xs
      end
  end.
Definition ProposerImpl_getCommittedValue (paxosInstanceId : string)
    : sprog pax_call ProposerImpl (option string) :=
  p ← sget;
  lift (first_committed paxosInstanceId (prepareAcceptors_ p)).

(** ** Write-once registers *)

Inductive ReadError := UNKNOWN | NOT_WRITTEN.
Definition ReadError_toString (e : ReadError) : string :=
  match e with UNKNOWN => "unknown" | NOT_WRITTEN => "not_written" end.

(** The interface [WriteOnceRegister]. *)
Class WriteOnceRegister (E : Set → Set) (S : Type) := {
  wor_lock : sprog E S (option Z);
  wor_write : Z → string → sprog E S bool;
  wor_read : sprog E S (string + ReadError) }.

Record PaxosWriteOnceRegister := {
  registerId_ : string;
  majorId_ : Z;
  lockId_ : Z;
  proposer_ : ProposerImpl }.

Definition makePaxosWriteOnceRegister (registerId : Z) (proposer : ProposerImpl)
    : PaxosWriteOnceRegister :=
  {| registerId_ := pretty registerId; majorId_ := registerId; lockId_ := 0;
     proposer_ := proposer |}.

Definition set_proposer (p : ProposerImpl) (r : PaxosWriteOnceRegister) : PaxosWriteOnceRegister :=
  {| registerId_ := registerId_ r; majorId_ := majorId_ r; lockId_ := lockId_ r; proposer_ := p |}.
Definition on_proposer {A} : sprog pax_call ProposerImpl A → sprog pax_call PaxosWriteOnceRegister A :=
  szoom proposer_ set_proposer.

Definition next_lock (r : PaxosWriteOnceRegister) : PaxosWriteOnceRegister :=
  {| registerId_ := registerId_ r; majorId_ := majorId_ r;
     lockId_ := wrap64 (lockId_ r + 1); proposer_ := proposer_ r |}.
Definition getNextLockId : sprog pax_call PaxosWriteOnceRegister Z :=
  _ ← smodify next_lock;
  r ← sget;
  mret (lockId_ r).

Definition lock : sprog pax_call PaxosWriteOnceRegister (option Z) :=
  lockId ← getNextLockId;
  r ← sget;
  result ← on_proposer (ProposerImpl_prepare (registerId_ r)
             {| major_id := majorId_ r; minor_id := lockId |});
  if result : bool then mret (Some lockId) else mret None.

Definition write (lockId : Z) (payload : string) : sprog pax_call PaxosWriteOnceRegister bool :=
  r ← sget;
  on_proposer (ProposerImpl_propose (registerId_ r)
    {| major_id := majorId_ r; minor_id := lockId |} payload).

Definition read : sprog pax_call PaxosWriteOnceRegister (string + ReadError) :=
  r ← sget;
  committedValue ← on_proposer (ProposerImpl_getCommittedValue (registerId_ r));
  match committedValue with
  | Some v => mret (inl v)
  | None => mret (inr NOT_WRITTEN)
  end.

#[export] Instance paxos_register : WriteOnceRegister pax_call PaxosWriteOnceRegister := {|
  wor_lock := lock; wor_write := write; wor_read := read |}.

(** [WORFactory.cc]: the number of replicas is passed as the majority. *)
Definition makePaxosWor (worId : Z) (replicaIds : list string)
    (registry : option (gmap string acceptor)) : outcome PaxosWriteOnceRegister :=
  match registry with
  | None => Throw (RuntimeError "null wor registry")
  | Some reg =>
      match collect (map (λ id, getAcceptor id reg) replicaIds) with
      | Ret acceptors =>
          Ret (makePaxosWriteOnceRegister worId (makeProposerImpl (length replicaIds) acceptors))
      | Throw e => Throw e
      | Block => Block
      end
  end.

(** ** Lemmas: the answers to a prepare *)

Lemma collect_Ret {A} (os : list (outcome A)) l :
  collect os = Ret l → Forall2 (λ o a, o = Ret a) os l.
Proof.
  revert l. induction os as [|[a|e|] os IH]; intros l; simpl; intros Hc; simplify_eq; [constructor|].
  destruct (collect os) as [l'| |]; simplify_eq. constructor; auto.
Qed.

Lemma prepare_loop_spec (F : nat → Promise → Prop) (l : list nat) xs :
  Forall2 (λ a x, ∀ p, x = Some (inl p) → F a p) l xs →
  ∃ l', (prepare_loop (zip (Local <$> l) xs)).1 = Local <$> l' ∧ l' `sublist_of` l ∧
    (∀ a, a ∈ l' → ∃ p, F a p ∧ ∀ v, promise_value p = Some v →
       {| proposal_ballot := promise_ballot p; proposal_value := v |} ∈
         (prepare_loop (zip (Local <$> l) xs)).2) ∧
    (∀ q, q ∈ (prepare_loop (zip (Local <$> l) xs)).2 → ∃ a, a ∈ l' ∧
       F a {| promise_ballot := proposal_ballot q; promise_value := Some (proposal_value q) |}).
Proof.
  induction 1 as [|a x l xs Hx Hall IH].
  { exists []. split_and!; [done|constructor|by intros a ?%elem_of_nil..]. }
  destruct IH as (l' & E1 & Hsub & Hin & Hprop). simpl.
  change (list_fmap nat acceptor Local l) with (Local <$> l).
  destruct x as [[p|]|]; [|exists l'; split_and!; [done|by constructor|done..]..].
  destruct (prepare_loop (zip (Local <$> l) xs)) as [accs props] eqn:E. simpl in *.
  specialize (Hx p eq_refl). exists (a :: l'). split_and!.
  - by rewrite E1.
  - by constructor.
  - intros a' [->|Ha']%elem_of_cons.
    + exists p. split; [done|]. intros v ->. by left.
    + destruct (Hin a' Ha') as (p' & ? & Hv). exists p'. split; [done|]. intros v Ev.
      specialize (Hv v Ev). destruct (promise_value p); [by right|done].
  - intros q Hq. destruct (promise_value p) as [v|] eqn:Ev.
    + apply elem_of_cons in Hq as [->|Hq].
      * exists a. split; [by left|]. destruct p as [pb pv]; simpl in *. by subst.
      * destruct (Hprop q Hq) as (a' & ? & ?). exists a'. split; [by right|done].
    + destruct (Hprop q Hq) as (a' & ? & ?). exists a'. split; [by right|done].
Qed.

(** [select] picks a proposal with the highest ballot. *)
Lemma select_spec props :
  match select props with
  | None => props = []
  | Some s => s ∈ props ∧ ∀ q, q ∈ props → ble (proposal_ballot q) (proposal_ballot s)
  end.
Proof.
  unfold select. induction props as [|q props IH] using rev_ind; [done|].
  rewrite foldl_app. simpl. destruct (foldl _ None props) as [s|].
  - destruct IH as [Hs Hmax]. destruct (ballot_lt _ _) eqn:Eb.
    + split; [set_solver|]. intros q' [Hq'|<-%list_elem_of_singleton]%elem_of_app; [|ballots].
      specialize (Hmax q' Hq'). ballots.
    + split; [set_solver|]. intros q' [Hq'|<-%list_elem_of_singleton]%elem_of_app; [by apply Hmax|].
      ballots.
  - subst. split; [set_solver|]. intros q' [->|[]%elem_of_nil]%elem_of_cons. ballots.
Qed.
