(* ===== verification/PaxosSafety.v ===== *)
(** * Safety of the write-once registers

    Any number of clients work on registers of the same acceptors: they lock,
    write and read, any number of times, over a network that delays, reorders
    and loses requests and answers.  With acceptors of this process and a
    majority size above half of them, at most one value is ever chosen for an
    instance; with the majority size the factory passes, a read returns only
    that value.

    [exec] and [network] are the moves of the system; the proof is
    rely-guarantee reasoning with the requests of each thread as its own. *)

From stdpp Require Import base gmap sets list strings relations pretty.
From Stdlib Require Import ZArith Lia Eqdep.
From S2P Require Import Prelude KVStore Program Paxos Proposer.

Open Scope Z_scope.

(** ** The system *)

(** A request that was sent: by which thread, and to which acceptor. *)
Record Rpc := mkRpc { rpc_owner : nat; rpc_acceptor : nat; rpc_request : request }.

#[export] Instance Proposal_eq_dec : EqDecision Proposal.
Proof. solve_decision. Defined.
#[export] Instance request_eq_dec : EqDecision request.
Proof. solve_decision. Defined.
#[export] Instance Rpc_eq_dec : EqDecision Rpc.
Proof. solve_decision. Defined.

Record PaxosWorld (K : Type) := mkPaxosWorld {
  p_acceptors : list K;
  p_sent : list Rpc;
  p_delivered : list nat;
  p_answers : list (nat * outcome response) }.
Arguments mkPaxosWorld {K}.
Arguments p_acceptors {K}.
Arguments p_sent {K}.
Arguments p_delivered {K}.
Arguments p_answers {K}.

Section system.
Context {K : Type} `{KVStoreLite K} `{PaxosCodec}.
Implicit Types w : PaxosWorld K.

Definition send (c : Rpc) w : PaxosWorld K :=
  mkPaxosWorld (p_acceptors w) (p_sent w ++ [c]) (p_delivered w) (p_answers w).

(** The request arrives and the acceptor handles it. *)
Definition deliver (i : nat) w : PaxosWorld K :=
  match p_sent w !! i with
  | None => w
  | Some c =>
      match p_acceptors w !! rpc_acceptor c with
      | None => w
      | Some k =>
          let '(o, k') := serve (rpc_request c) k in
          mkPaxosWorld (<[rpc_acceptor c := k']> (p_acceptors w)) (p_sent w)
            (i :: p_delivered w) ((i, o) :: p_answers w)
      end
  end.

(** The calls of thread [i]: a request is sent; waiting ends with the answer,
    with a failure, or, under [timed_wait], when time is up. *)
Definition exec (i : nat) (X : Set) (e : pax_call X) : PaxosWorld K → outcome X → PaxosWorld K → Prop :=
  match e in pax_call Y return PaxosWorld K → outcome Y → PaxosWorld K → Prop with
  | Start a r => λ w o w', o = Ret (length (p_sent w)) ∧ w' = send (mkRpc i a r) w
  | Await rpc => λ w o w', w' = w ∧ o ≠ Block ∧ ((rpc, o) ∈ p_answers w ∨ ∃ err, o = Throw err)
  | AwaitFor rpc => λ w o w', w' = w ∧
      (o = Ret None ∨ (∃ err, o = Throw err) ∨ ∃ r, o = Ret (Some r) ∧ (rpc, Ret r) ∈ p_answers w)
  end.

Inductive network : PaxosWorld K → PaxosWorld K → Prop :=
  | net_deliver w i :
      (i < length (p_sent w))%nat → i ∉ p_delivered w → network w (deliver i w).
End system.

(** A client works in rounds: lock, write a payload of its own, read.  A round
    that throws is over; the next one goes on with the same register. *)
Definition round (payload : string) : sprog pax_call PaxosWriteOnceRegister () :=
  lockId ← lock;
  match lockId with
  | None => mret ()
  | Some l => _ ← write l payload; _ ← read; mret ()
  end.
Fixpoint rounds (payloads : list string) : sprog pax_call PaxosWriteOnceRegister () :=
  match payloads with
  | [] => mret ()
  | x :: xs => _ ← sattempt (round x); rounds xs
  end.

Section safety.
Context {K : Type} `{KVStoreLaws K} `{PaxosCodecLaws}.
(** The acceptors are [0 .. n-1]; [m] is the majority size of the proposers;
    clients write only values in [V]. *)
Context (n : nat) (m : Z) (V : string → Prop).
Implicit Types (w : PaxosWorld K) (i a o : nat) (inst : string) (b c : BallotId) (v : string)
  (z : Rpc).

(** The record of an instance at an acceptor. *)
Definition record a inst w : PaxosInstance :=
  match p_acceptors w !! a with
  | Some k => default (new_instance inst) (instance inst k)
  | None => new_instance inst
  end.

Definition sent i o a (r : request) w : Prop := p_sent w !! i = Some (mkRpc o a r).
Definition answered i (r : response) w : Prop := (i, Ret r) ∈ p_answers w.

(** Acceptor [a] accepted [v] at ballot [b]. *)
Definition voted a inst b v w : Prop :=
  ∃ i o, sent i o a (AcceptRequest inst {| proposal_ballot := b; proposal_value := v |}) w ∧
    answered i (AcceptResponse true) w.
(** Acceptor [a] promised ballot [b] in answer to request [i] of thread [o]. *)
Definition promised i o a inst b (r : Promise) w : Prop :=
  sent i o a (PrepareRequest inst b) w ∧ answered i (PrepareResponse (Some (inl r))) w.

Definition majority (Q : gset nat) : Prop := Q ⊆ set_seq 0 n ∧ m ≤ size Q.

(** A value is chosen when a majority accepted it at one ballot. *)
Definition chosen inst b v w : Prop :=
  ∃ Q, majority Q ∧ ∀ a, a ∈ Q → voted a inst b v w.
(** It still can be: a majority has, or has not promised a higher ballot. *)
Definition choosable inst b v w : Prop :=
  ∃ Q, majority Q ∧ ∀ a, a ∈ Q →
    voted a inst b v w ∨ ble (promised_ballot_id (record a inst w)) b.

(** What a request of thread [o] to accept value [v] at ballot [b], sent as
    request number [j], is based on: promises of a majority to earlier
    requests of that thread, and the value of the highest proposal reported. *)
Definition based j o inst b v w : Prop :=
  ∃ Q, majority Q ∧ ∃ sel : option (BallotId * string),
    (∀ c v', sel = Some (c, v') → v' = v ∧ ∃ i a r, (i < j)%nat ∧ a ∈ Q ∧
       promised i o a inst b r w ∧ r = {| promise_ballot := c; promise_value := Some v' |}) ∧
    ∀ a, a ∈ Q → ∃ i r, (i < j)%nat ∧ promised i o a inst b r w ∧
      (∀ v', promise_value r = Some v' → ∃ c v'', sel = Some (c, v'') ∧ ble (promise_ballot r) c).

(** What an acceptor reports with its promise. *)
Definition honest a inst b (r : Promise) w : Prop :=
  match promise_value r with
  | None => ∀ c v, voted a inst c v w → ¬ blt c b
  | Some v' => voted a inst (promise_ballot r) v' w ∧ blt (promise_ballot r) b ∧
      ∀ c v, voted a inst c v w → blt c b → ble c (promise_ballot r)
  end.

Record inv w : Prop := {
  i_acceptors : length (p_acceptors w) = n ∧ ∀ a k, p_acceptors w !! a = Some k → acceptor_ok k;
  (* answers *)
  i_once : NoDup (p_answers w).*1;
  i_answers : ∀ x, x ∈ (p_answers w).*1 → x ∈ p_delivered w ∧ (x < length (p_sent w))%nat;
  i_accepted : ∀ a inst p, accepted (record a inst w) = Some p →
    ∃ v, promise_value p = Some v ∧ voted a inst (promise_ballot p) v w;
  i_voted : ∀ a inst b v, voted a inst b v w → (a < n)%nat ∧
    ∃ p, accepted (record a inst w) = Some p ∧ ble b (promise_ballot p) ∧
      ble (promise_ballot p) (promised_ballot_id (record a inst w));
  i_promised : ∀ i o a inst b r, promised i o a inst b r w →
    ble b (promised_ballot_id (record a inst w)) ∧ honest a inst b r w;
  i_single : ∀ i o r i' o' r' a inst b, promised i o a inst b r w → promised i' o' a inst b r' w →
    i = i';
  (* proposals *)
  i_based : ∀ j o a inst q, sent j o a (AcceptRequest inst q) w →
    based j o inst (proposal_ballot q) (proposal_value q) w;
  i_unique : ∀ j o a j' o' a' inst q q',
    sent j o a (AcceptRequest inst q) w → sent j' o' a' (AcceptRequest inst q') w →
    proposal_ballot q = proposal_ballot q' → proposal_value q = proposal_value q';
  i_safe : ∀ j o a inst q c v, sent j o a (AcceptRequest inst q) w →
    blt c (proposal_ballot q) → choosable inst c v w → v = proposal_value q;
  i_valid : ∀ j o a inst q, sent j o a (AcceptRequest inst q) w → V (proposal_value q);
  (* commits *)
  i_commit : n ≤ m → ∀ j o a inst b, sent j o a (CommitRequest inst b) w →
    ∃ v, chosen inst b v w;
  i_committed : n ≤ m → ∀ a inst, committed (record a inst w) = true →
    ∃ b v, chosen inst b v w;
  i_read : n ≤ m → ∀ i v, answered i (GetCommittedValueResponse (Some v)) w →
    ∃ o a inst b, sent i o a (GetCommittedValueRequest inst) w ∧ chosen inst b v w }.
(** ** What grows *)

Record grows w w' : Prop := {
  g_sent : p_sent w `prefix_of` p_sent w';
  g_answers : ∀ x, x ∈ p_answers w → x ∈ p_answers w' }.
(** And what thread [i] can rely on: no one else sends in its name. *)
Record others i w w' : Prop := {
  o_grows : grows w w';
  o_mine : ∀ j o a r, sent j o a r w' → (length (p_sent w) ≤ j)%nat → o ≠ i }.

#[export] Instance grows_preorder : PreOrder grows.
Proof.
  split.
  - intros w. by split.
  - intros w1 w2 w3 [] []. split; [by etrans|auto].
Qed.

Lemma sent_mono j o a r w w' : grows w w' → sent j o a r w → sent j o a r w'.
Proof. intros [[l E] _]. unfold sent. rewrite E. apply lookup_app_l_Some. Qed.
Lemma sent_lt j o a r w : sent j o a r w → (j < length (p_sent w))%nat.
Proof. apply lookup_lt_Some. Qed.
Lemma sent_back j o a r w w' :
  grows w w' → sent j o a r w' → (j < length (p_sent w))%nat → sent j o a r w.
Proof. intros [[l E] _]. unfold sent. rewrite E. intros Hs Hlt. by rewrite lookup_app_l in Hs. Qed.
Lemma sent_eq j o a r o' a' r' w : sent j o a r w → sent j o' a' r' w → o = o' ∧ a = a' ∧ r = r'.
Proof. unfold sent. intros E1 E2. rewrite E1 in E2. by injection E2. Qed.

#[export] Instance others_preorder i : PreOrder (others i).
Proof.
  split.
  - intros w. split; [done|]. intros j o a r Hs%sent_lt. lia.
  - intros w1 w2 w3 [Hg1 Hm1] [Hg2 Hm2]. split; [by etrans|]. intros j o a r Hs Hj.
    destruct (decide (length (p_sent w2) ≤ j)%nat); [by eapply Hm2|].
    eapply Hm1; [|done]. eapply sent_back; [done..|lia].
Qed.

Lemma voted_mono a inst b v w w' : grows w w' → voted a inst b v w → voted a inst b v w'.
Proof. intros Hg (i & o & Hs & Ha). exists i, o. split; [by eapply sent_mono|by apply Hg]. Qed.
Lemma promised_mono i o a inst b r w w' :
  grows w w' → promised i o a inst b r w → promised i o a inst b r w'.
Proof. intros Hg [Hs Ha]. split; [by eapply sent_mono|by apply Hg]. Qed.
Lemma chosen_mono inst b v w w' : grows w w' → chosen inst b v w → chosen inst b v w'.
Proof. intros Hg (Q & HQ & Hv). exists Q. split; [done|]. intros a Ha. eauto using voted_mono. Qed.
Lemma based_mono j o inst b v w w' : grows w w' → based j o inst b v w → based j o inst b v w'.
Proof.
  intros Hg (Q & HQ & sel & Hsel & Hall). exists Q. split; [done|]. exists sel. split.
  - intros c v' E. destruct (Hsel c v' E) as (-> & i & a & r & ? & ? & ? & ?).
    split; [done|]. exists i, a, r. eauto using promised_mono.
  - intros a Ha. destruct (Hall a Ha) as (i & r & ? & ? & ?). exists i, r.
    eauto using promised_mono.
Qed.

(** ** Majorities *)

Context (Hm : n < 2 * m).

Lemma quorums_meet Q1 Q2 : majority Q1 → majority Q2 → ∃ a, a ∈ Q1 ∧ a ∈ Q2.
Proof.
  intros [HQ1 HS1] [HQ2 HS2]. destruct (decide (Q1 ∩ Q2 ≡ ∅)) as [E|E].
  - assert (Hs : size (Q1 ∪ Q2) = (size Q1 + size Q2)%nat) by (apply size_union; set_solver).
    pose proof (subseteq_size (Q1 ∪ Q2) (set_seq 0 n) ltac:(set_solver)) as Hl.
    rewrite size_set_seq in Hl. lia.
  - apply set_choose in E as [a Ha]. exists a. set_solver.
Qed.
Lemma majority_inhabited Q : majority Q → ∃ a, a ∈ Q.
Proof. intros HQ. destruct (quorums_meet Q Q) as (a & ? & _); eauto. Qed.
Lemma majority_all Q a : n ≤ m → majority Q → (a < n)%nat → a ∈ Q.
Proof.
  intros Hnm [HQ Hs] Ha. assert (Q ≡ set_seq 0 n) as ->; [|set_solver by lia].
  apply set_subseteq_size_equiv; [done|]. rewrite size_set_seq. lia.
Qed.

(** ** What the invariant says about values *)

Lemma voted_sent a inst b v w :
  voted a inst b v w → ∃ j o, sent j o a (AcceptRequest inst (Build_Proposal b v)) w.
Proof. intros (i & o & Hs & _). eauto. Qed.

Lemma voted_unique a a' inst b v v' w :
  inv w → voted a inst b v w → voted a' inst b v' w → v = v'.
Proof.
  intros Hi (j & o & Hs)%voted_sent (j' & o' & Hs')%voted_sent.
  exact (i_unique w Hi _ _ _ _ _ _ _ _ _ Hs Hs' eq_refl).
Qed.

Lemma chosen_choosable inst b v w : chosen inst b v w → choosable inst b v w.
Proof. intros (Q & HQ & Hv). exists Q. split; [done|]. eauto. Qed.

Lemma chosen_later inst b v c v' a w :
  inv w → chosen inst b v w → voted a inst c v' w → ble b c → v' = v.
Proof.
  intros Hi Hch Hv Hle. destruct (ballot_lt_trichotomy b c) as [[Hlt|<-]|Hlt]; [| |ballots].
  - destruct (voted_sent _ _ _ _ _ Hv) as (j & o & Hs).
    symmetry. exact (i_safe w Hi _ _ _ _ _ b v Hs Hlt (chosen_choosable _ _ _ _ Hch)).
  - destruct Hch as (Q & HQ & Hall). destruct (majority_inhabited Q HQ) as [a' Ha'].
    eapply voted_unique; eauto.
Qed.

Lemma chosen_valid inst b v w : inv w → chosen inst b v w → V v.
Proof.
  intros Hi (Q & HQ & Hall). destruct (majority_inhabited Q HQ) as [a Ha].
  destruct (voted_sent _ _ _ _ _ (Hall a Ha)) as (j & o & Hs). exact (i_valid w Hi _ _ _ _ _ Hs).
Qed.

Lemma chosen_agree inst b v b' v' w :
  inv w → chosen inst b v w → chosen inst b' v' w → v = v'.
Proof.
  intros Hi Hch Hch'.
  assert (Hv : ∀ b v, chosen inst b v w → ∃ a, voted a inst b v w).
  { intros b0 v0 (Q & HQ & Hall). destruct (majority_inhabited Q HQ). eauto. }
  destruct (Hv _ _ Hch) as [a Ha], (Hv _ _ Hch') as [a' Ha'].
  destruct (ballot_lt_trichotomy b b') as [[Hlt|<-]|Hlt].
  - symmetry. eapply chosen_later; [done..|]. ballots.
  - by eapply voted_unique.
  - eapply chosen_later; [done..|]. ballots.
Qed.

(** A proposal based on promises proposes the only value that can still be
    chosen at a lower ballot. *)
Lemma based_safe j o inst b v c v' w :
  inv w → based j o inst b v w → blt c b → choosable inst c v' w → v' = v.
Proof.
  intros Hi (Q & HQ & sel & Hsel & Hall) Hlt (Qc & HQc & Hc).
  destruct (quorums_meet Q Qc HQ HQc) as (a & Ha & Hac).
  destruct (Hall a Ha) as (i & r & _ & Hp & Hr).
  destruct (i_promised w Hi _ _ _ _ _ _ Hp) as [Hb Hh].
  destruct (Hc a Hac) as [Hv|Hv]; [|ballots].
  unfold honest in Hh. destruct (promise_value r) as [v1|]; [|by destruct (Hh c v' Hv)].
  destruct Hh as (_ & _ & Hmax). specialize (Hmax c v' Hv Hlt).
  destruct (Hr v1 eq_refl) as (c2 & v2 & E & Hle).
  destruct (Hsel c2 v2 E) as (-> & i2 & a2 & r2 & _ & Ha2 & Hp2 & ->).
  destruct (i_promised w Hi _ _ _ _ _ _ Hp2) as [_ (Hv2 & _ & _)]. simpl in Hv2.
  destruct (ballot_lt_trichotomy c c2) as [[Hlt2| ->]|Hlt2]; [| |ballots].
  - destruct (voted_sent _ _ _ _ _ Hv2) as (j3 & o3 & Hs3).
    exact (i_safe w Hi _ _ _ _ _ c v' Hs3 Hlt2 (ex_intro _ Qc (conj HQc Hc))).
  - by eapply voted_unique.
Qed.

(** ** Sending a request *)

(** What a thread has to know when it sends a request. *)
Definition allowed i (r : request) w : Prop :=
  match r with
  | AcceptRequest inst q =>
      based (length (p_sent w)) i inst (proposal_ballot q) (proposal_value q) w ∧
      (∀ j o a q', sent j o a (AcceptRequest inst q') w →
        proposal_ballot q' = proposal_ballot q → proposal_value q' = proposal_value q) ∧
      V (proposal_value q)
  | CommitRequest inst b => n ≤ m → ∃ v, chosen inst b v w
  | _ => True
  end.

Lemma send_grows z w : grows w (send z w).
Proof. split; [by eexists|done]. Qed.
Lemma send_others i a r j w : j ≠ i → others j w (send (mkRpc i a r) w).
Proof.
  intros Hne. split; [apply send_grows|]. intros k o a' r' Hs Hk. unfold sent in Hs. simpl in Hs.
  apply lookup_app_Some in Hs as [Hs%lookup_lt_Some|[_ Hs]]; [lia|].
  apply list_lookup_singleton_Some in Hs as [_ [= <- <- <-]]. done.
Qed.

Lemma send_sent j o a r z w :
  sent j o a r (send z w) ↔ sent j o a r w ∨ (j = length (p_sent w) ∧ z = mkRpc o a r).
Proof.
  unfold sent, send. simpl. rewrite lookup_app_Some, list_lookup_singleton_Some. split.
  - intros [?|(? & ? & E)]; [by left|right]. split; [lia|done].
  - intros [?|[-> ->]]; [by left|right]. split; [lia|]. split; [lia|done].
Qed.

Lemma answered_old j r w : inv w → answered j r w → (j < length (p_sent w))%nat.
Proof.
  intros Hi Ha. apply (i_answers w Hi). apply list_elem_of_fmap. by exists (j, Ret r).
Qed.

Lemma send_voted a inst b v z w :
  inv w → voted a inst b v (send z w) → voted a inst b v w.
Proof.
  intros Hi (j & o & Hs & Ha). exists j, o. split; [|done].
  apply send_sent in Hs as [?|[-> _]]; [done|]. apply (answered_old _ _ w Hi) in Ha. lia.
Qed.
Lemma send_promised i o a inst b r z w :
  inv w → promised i o a inst b r (send z w) → promised i o a inst b r w.
Proof.
  intros Hi [Hs Ha]. split; [|done].
  apply send_sent in Hs as [?|[-> _]]; [done|]. apply (answered_old _ _ w Hi) in Ha. lia.
Qed.
Lemma send_choosable inst b v z w :
  inv w → choosable inst b v (send z w) → choosable inst b v w.
Proof.
  intros Hi (Q & HQ & Hc). exists Q. split; [done|]. intros a Ha.
  destruct (Hc a Ha) as [?|?]; [left; by eapply send_voted|by right].
Qed.

Lemma send_honest a inst b r z w : inv w → honest a inst b r w → honest a inst b r (send z w).
Proof.
  intros Hi. unfold honest. destruct (promise_value r) as [v'|].
  - intros (Hv & Hlt & Hmax). split_and!; [eapply voted_mono; [apply send_grows|done]|done|].
    intros c' v'' Hv'. apply (Hmax c' v''). by eapply send_voted.
  - intros Hno c' v'' Hv'. apply (Hno c' v''). by eapply send_voted.
Qed.

Lemma pax_send_inv i a r w : inv w → allowed i r w → inv (send (mkRpc i a r) w).
Proof.
  intros Hi Hal. pose proof (send_grows (mkRpc i a r) w) as Hg. split.
  - apply Hi.
  - apply Hi.
  - intros x Hx. destruct (i_answers w Hi x Hx). split; [done|]. simpl. rewrite length_app. lia.
  - intros a' inst p Hp. destruct (i_accepted w Hi a' inst p Hp) as (v & ? & ?).
    exists v. eauto using voted_mono.
  - intros a' inst b v Hv. apply (i_voted w Hi _ _ _ v). by eapply send_voted.
  - intros j o a' inst b r' Hp. apply send_promised in Hp; [|done].
    destruct (i_promised w Hi _ _ _ _ _ _ Hp). split; [done|]. by apply send_honest.
  - intros j o r1 j' o' r1' a' inst b Hp Hp'. apply send_promised in Hp, Hp'; [|done..].
    by eapply (i_single w Hi).
  - intros j o a' inst q Hs. apply (based_mono _ _ _ _ _ w); [done|].
    apply send_sent in Hs as [Hs|[-> [= -> -> ->]]]; [by eapply (i_based w Hi)|apply Hal].
  - intros j o a1 j' o' a2 inst q q' Hs Hs' Eb.
    apply send_sent in Hs as [Hs|[-> E1]]; apply send_sent in Hs' as [Hs'|[-> E2]].
    + by eapply (i_unique w Hi).
    + injection E2 as -> -> ->. by eapply Hal.
    + injection E1 as -> -> ->. symmetry. by eapply Hal.
    + rewrite E1 in E2. by injection E2 as -> -> ->.
  - intros j o a' inst q c v Hs Hlt Hc. apply send_choosable in Hc; [|done].
    apply send_sent in Hs as [Hs|[-> [= -> -> ->]]]; [by eapply (i_safe w Hi)|].
    destruct Hal as [Hb _]. by eapply based_safe.
  - intros j o a' inst q Hs.
    apply send_sent in Hs as [Hs|[-> [= -> -> ->]]]; [by eapply (i_valid w Hi)|apply Hal].
  - intros Hnm j o a' inst b Hs.
    apply send_sent in Hs as [Hs|[-> [= -> -> ->]]];
      [destruct (i_commit w Hi Hnm _ _ _ _ _ Hs) as [v Hv]|destruct (Hal Hnm) as [v Hv]];
      exists v; by eapply chosen_mono.
  - intros Hnm a' inst Hcm. destruct (i_committed w Hi Hnm a' inst Hcm) as (b & v & Hv).
    exists b, v. by eapply chosen_mono.
  - intros Hnm j v Ha. destruct (i_read w Hi Hnm j v Ha) as (o & a' & inst & b & Hs & Hv).
    exists o, a', inst, b. split; [by eapply sent_mono|by eapply chosen_mono].
Qed.

(** ** A request arrives *)

(** Request [j], for acceptor [a], was handled: [oc] is what it answered, [p]
    and [p'] the record of its instance before and after. *)
Record handled j a (r : request) (oc : outcome response) (p p' : PaxosInstance) w w' : Prop := {
  h_sent : p_sent w' = p_sent w;
  h_delivered : p_delivered w' = j :: p_delivered w;
  h_answers : p_answers w' = (j, oc) :: p_answers w;
  h_acceptors : length (p_acceptors w') = n ∧ ∀ a k, p_acceptors w' !! a = Some k → acceptor_ok k;
  h_before : record a (request_instance r) w = p;
  h_after : record a (request_instance r) w' = p';
  h_records : ∀ a' inst, (a', inst) ≠ (a, request_instance r) → record a' inst w' = record a' inst w;
  h_in : (a < n)%nat;
  h_request : (∃ o, sent j o a r w) ∧ j ∉ p_delivered w;
  h_serve : oc = Ret (spec_serve r p).1 ∧ p' = (spec_serve r p).2 ∨ (∀ x, oc ≠ Ret x) ∧ p' = p }.

Lemma deliver_handled j w :
  inv w → (j < length (p_sent w))%nat → j ∉ p_delivered w →
  deliver j w = w ∨ ∃ a r oc p p', handled j a r oc p p' w (deliver j w).
Proof.
  intros Hi Hj Hd. unfold deliver. destruct (lookup_lt_is_Some_2 _ _ Hj) as [[o a r] Ec].
  rewrite Ec. simpl. destruct (p_acceptors w !! a) as [k|] eqn:Ek; [|by left]. right.
  destruct (i_acceptors w Hi) as [Hlen Hoks]. pose proof (lookup_lt_Some _ _ _ Ek) as Ha.
  destruct (serve r k) as [oc k'] eqn:Es.
  destruct (acceptor_serves r k oc k' (Hoks a k Ek) Es) as (Hok' & Hne & (p & Hp & Hcase) & _).
  exists a, r, oc, p, (default (new_instance (request_instance r)) (instance (request_instance r) k')).
  split; simpl; try done.
  - rewrite length_insert. split; [done|]. intros a1 k1 [(<- & <- & _)|[_ Hk1]]%list_lookup_insert_Some;
      [done|by eapply Hoks].
  - unfold record. by rewrite Ek, Hp.
  - unfold record. simpl. by rewrite list_lookup_insert_eq.
  - intros a' inst Hx. unfold record. simpl. destruct (decide (a' = a)) as [->|Hna].
    + rewrite list_lookup_insert_eq by done. rewrite Ek, Hne; [done|]. congruence.
    + by rewrite list_lookup_insert_ne.
  - lia.
  - split; [by exists o|done].
  - destruct Hcase as [[-> ->]|[? ->]]; [by left|by right].
Qed.

Section handled.
Context {j a : nat} {r : request} {oc : outcome response} {p p' : PaxosInstance} {w w' : PaxosWorld K}.
Context (Hi : inv w) (Hh : handled j a r oc p p' w w').

Lemma handled_grows : grows w w'.
Proof. split; [by rewrite (h_sent _ _ _ _ _ _ _ _ Hh)|]. rewrite (h_answers _ _ _ _ _ _ _ _ Hh).
  intros x. by right. Qed.
Lemma handled_sent i o a' r' : sent i o a' r' w' ↔ sent i o a' r' w.
Proof. unfold sent. by rewrite (h_sent _ _ _ _ _ _ _ _ Hh). Qed.
Lemma handled_answered i x : answered i x w' ↔ answered i x w ∨ (i = j ∧ oc = Ret x).
Proof.
  unfold answered. rewrite (h_answers _ _ _ _ _ _ _ _ Hh), elem_of_cons. naive_solver.
Qed.

Lemma handled_others i : others i w w'.
Proof.
  split; [apply handled_grows|]. intros k o a' r' Hs%handled_sent%sent_lt. lia.
Qed.

(** The new votes and promises. *)
Lemma handled_voted a' inst b v :
  voted a' inst b v w' → voted a' inst b v w ∨
    (a' = a ∧ r = AcceptRequest inst (Build_Proposal b v) ∧ oc = Ret (AcceptResponse true)).
Proof.
  intros (i & o & Hs%handled_sent & [Ha|[-> ->]]%handled_answered); [left; by exists i, o|].
  right. destruct (h_request _ _ _ _ _ _ _ _ Hh) as [[o' Hs'] _].
  destruct (sent_eq _ _ _ _ _ _ _ _ Hs Hs') as (_ & <- & <-). done.
Qed.
Lemma handled_promised i o a' inst b q :
  promised i o a' inst b q w' → promised i o a' inst b q w ∨
    (i = j ∧ a' = a ∧ r = PrepareRequest inst b ∧ oc = Ret (PrepareResponse (Some (inl q)))).
Proof.
  intros [Hs%handled_sent [Ha|[-> ->]]%handled_answered]; [left; by split|].
  right. destruct (h_request _ _ _ _ _ _ _ _ Hh) as [[o' Hs'] _].
  destruct (sent_eq _ _ _ _ _ _ _ _ Hs Hs') as (_ & <- & <-). done.
Qed.

(** What is left to show for each kind of request. *)
Lemma handled_inv :
  (∀ a inst q, accepted (record a inst w') = Some q →
     ∃ v, promise_value q = Some v ∧ voted a inst (promise_ballot q) v w') →
  (∀ a inst b v, voted a inst b v w' → (a < n)%nat ∧
    ∃ q, accepted (record a inst w') = Some q ∧ ble b (promise_ballot q) ∧
      ble (promise_ballot q) (promised_ballot_id (record a inst w'))) →
  (∀ i o a inst b q, promised i o a inst b q w' →
     ble b (promised_ballot_id (record a inst w')) ∧ honest a inst b q w') →
  (∀ i o q i' o' q' a inst b, promised i o a inst b q w' → promised i' o' a inst b q' w' → i = i') →
  (∀ inst b v, choosable inst b v w' → choosable inst b v w) →
  (n ≤ m → ∀ a inst, committed (record a inst w') = true → ∃ b v, chosen inst b v w') →
  (n ≤ m → ∀ v, oc = Ret (GetCommittedValueResponse (Some v)) →
     ∃ o a inst b, sent j o a (GetCommittedValueRequest inst) w' ∧ chosen inst b v w') →
  inv w'.
Proof.
  intros Hacc Hvot Hpro Hsin Hcho Hcom Hread. pose proof handled_grows as Hg. split; try done.
  - apply Hh.
  - rewrite (h_answers _ _ _ _ _ _ _ _ Hh). apply NoDup_cons. split; [|apply Hi]. simpl.
    intros Hx. by destruct (i_answers w Hi j Hx), (h_request _ _ _ _ _ _ _ _ Hh).
  - rewrite (h_answers _ _ _ _ _ _ _ _ Hh), (h_delivered _ _ _ _ _ _ _ _ Hh),
      (h_sent _ _ _ _ _ _ _ _ Hh). simpl. intros x [->|Hx]%elem_of_cons.
    + split; [by left|]. destruct (h_request _ _ _ _ _ _ _ _ Hh) as [[o Hs] _]. by eapply sent_lt.
    + destruct (i_answers w Hi x Hx). split; [by right|done].
  - intros i o a' inst q Hs%handled_sent. apply (based_mono _ _ _ _ _ w); [done|].
    by eapply (i_based w Hi).
  - intros i o a1 i' o' a2 inst q q' Hs%handled_sent Hs'%handled_sent. by eapply (i_unique w Hi).
  - intros i o a' inst q c v Hs%handled_sent Hlt Hc%Hcho. by eapply (i_safe w Hi).
  - intros i o a' inst q Hs%handled_sent. by eapply (i_valid w Hi).
  - intros Hnm i o a' inst b Hs%handled_sent.
    destruct (i_commit w Hi Hnm _ _ _ _ _ Hs) as [v Hv]. exists v. by eapply chosen_mono.
  - intros Hnm i v [Ha|[-> E]]%handled_answered; [|by apply Hread].
    destruct (i_read w Hi Hnm i v Ha) as (o & a' & inst & b & Hs & Hv).
    exists o, a', inst, b. split; [by apply handled_sent|by eapply chosen_mono].
Qed.

(** The record of an instance, after: it is the handled one or unchanged. *)
Lemma handled_record a' inst :
  (a' = a ∧ inst = request_instance r ∧ record a' inst w = p ∧ record a' inst w' = p') ∨
  ((a', inst) ≠ (a, request_instance r) ∧ record a' inst w' = record a' inst w).
Proof.
  destruct (decide ((a', inst) = (a, request_instance r))) as [[= -> ->]|Hne]; [left|right].
  - split_and!; try done; apply Hh.
  - split; [done|]. by apply Hh.
Qed.

End handled.

(** Nothing changes but the list of answers. *)
Lemma handled_quiet {j a r oc p p' w w'} (Hi : inv w) (Hh : handled j a r oc p p' w w') :
  p' = p →
  (∀ inst b v, r = AcceptRequest inst (Build_Proposal b v) → oc ≠ Ret (AcceptResponse true)) →
  (∀ inst b q, r = PrepareRequest inst b → oc ≠ Ret (PrepareResponse (Some (inl q)))) →
  (n ≤ m → ∀ v, oc = Ret (GetCommittedValueResponse (Some v)) →
     ∃ o a inst b, sent j o a (GetCommittedValueRequest inst) w' ∧ chosen inst b v w') →
  inv w'.
Proof.
  intros -> Hnv Hnp Hread. pose proof (handled_grows Hh) as Hg.
  assert (Hrec : ∀ a' inst, record a' inst w' = record a' inst w).
  { intros a' inst. destruct (handled_record Hh a' inst) as [(_ & _ & -> & ->)|[_ ?]]; done. }
  assert (Hv : ∀ a' inst b v, voted a' inst b v w' → voted a' inst b v w).
  { intros a' inst b v [?|(_ & Er & Eo)]%(handled_voted Hh); [done|]. by destruct (Hnv _ _ _ Er). }
  assert (Hp : ∀ i o a' inst b q, promised i o a' inst b q w' → promised i o a' inst b q w).
  { intros i o a' inst b q [?|(_ & _ & Er & Eo)]%(handled_promised Hh); [done|]. by destruct (Hnp _ _ q Er). }
  apply (handled_inv Hi Hh); [..|done].
  - intros a' inst q. rewrite Hrec. intros Hq. destruct (i_accepted w Hi _ _ _ Hq) as (v & ? & ?).
    exists v. eauto using voted_mono.
  - intros a' inst b v Hvt. rewrite Hrec. apply (i_voted w Hi _ _ _ v). by apply Hv.
  - intros i o a' inst b q Hq. apply Hp in Hq. rewrite Hrec.
    destruct (i_promised w Hi _ _ _ _ _ _ Hq) as [? Hhon]. split; [done|]. unfold honest in *.
    destruct (promise_value q); [|by eauto]. destruct Hhon as (? & ? & ?).
    split_and!; eauto using voted_mono.
  - intros i o q i' o' q' a' inst b Hq Hq'. by eapply (i_single w Hi); apply Hp.
  - intros inst b v (Q & HQ & Hc). exists Q. split; [done|]. intros a' Ha.
    rewrite <- Hrec. destruct (Hc a' Ha); auto.
  - intros Hnm a' inst. rewrite Hrec. intros Hcm.
    destruct (i_committed w Hi Hnm _ _ Hcm) as (b & v & ?). exists b, v. by eapply chosen_mono.
Qed.

Lemma handled_accept {j a r oc p p' w w'} inst b v
    (Hi : inv w) (Hh : handled j a r oc p p' w w') :
  r = AcceptRequest inst (Build_Proposal b v) → oc = Ret (AcceptResponse true) →
  p' = set_accepted (Build_Proposal b v) p → ble (promised_ballot_id p) b → inv w'.
Proof.
  intros -> Eoc -> Hb. pose proof (handled_grows Hh) as Hg. pose proof (handled_record Hh) as Hrec.
  simpl in Hrec.
  assert (Hnew : voted a inst b v w').
  { destruct (h_request _ _ _ _ _ _ _ _ Hh) as [[o Hs] _]. exists j, o.
    split; [by apply (handled_sent Hh)|]. apply (handled_answered Hh). by right. }
  apply (handled_inv Hi Hh).
  - intros a' inst' q Hq. destruct (Hrec a' inst') as [(-> & -> & _ & E)|[_ E]]; rewrite E in Hq.
    + injection Hq as <-. by exists v.
    + destruct (i_accepted w Hi _ _ _ Hq) as (v' & ? & ?). exists v'. eauto using voted_mono.
  - intros a' inst' b' v' Hv. apply (handled_voted Hh) in Hv as [Hv|(-> & [= -> -> ->] & _)].
    + destruct (i_voted w Hi _ _ _ _ Hv) as (? & q & Eq & ? & ?). split; [done|].
      destruct (Hrec a' inst') as [(-> & -> & E0 & ->)|[_ ->]]; [|by eauto].
      eexists. split; [done|]. simpl. subst p. split; ballots.
    + split; [apply Hh|]. destruct (Hrec a inst') as [(_ & _ & _ & ->)|[[] _]]; [|done].
      eexists. split; [done|]. simpl. split; ballots.
  - intros i o a' inst' b' q Hp. apply (handled_promised Hh) in Hp as [Hp|(_ & _ & [=] & _)].
    destruct (i_promised w Hi _ _ _ _ _ _ Hp) as [Hb' Hhon].
    assert (Hle : a' = a → inst' = inst → ble b' b).
    { intros -> ->. destruct (Hrec a inst) as [(_ & _ & E & _)|[[] _]]; [|done].
      rewrite E in Hb'. ballots. }
    split.
    { destruct (Hrec a' inst') as [(-> & -> & E0 & ->)|[_ ->]]; [|done]. by apply Hle. }
    unfold honest in *. destruct (promise_value q) as [v'|].
    + destruct Hhon as (Hv' & Hlt & Hmax). split_and!; [by eapply voted_mono|done|].
      intros c v2 [?|(-> & [= -> -> ->] & _)]%(handled_voted Hh) Hc; [by eapply Hmax|].
      specialize (Hle eq_refl eq_refl). ballots.
    + intros c v2 [?|(-> & [= -> -> ->] & _)]%(handled_voted Hh) Hc; [by eapply Hhon|].
      specialize (Hle eq_refl eq_refl). ballots.
  - intros i o q i' o' q' a' inst' b' Hp Hp'.
    apply (handled_promised Hh) in Hp as [Hp|(_ & _ & [=] & _)].
    apply (handled_promised Hh) in Hp' as [Hp'|(_ & _ & [=] & _)]. by eapply (i_single w Hi).
  - intros inst' c v' (Q & HQ & Hc). exists Q. split; [done|]. intros a' Ha.
    destruct (Hc a' Ha) as [Hv|Hle].
    + apply (handled_voted Hh) in Hv as [Hv|(-> & [= -> -> ->] & _)]; [by left|right].
      destruct (Hrec a inst') as [(_ & _ & -> & _)|[[] _]]; done.
    + right. destruct (Hrec a' inst') as [(-> & -> & -> & E)|[_ E]]; rewrite E in Hle; [|done].
      simpl in Hle. ballots.
  - intros Hnm a' inst' Hcm. destruct (i_committed w Hi Hnm a' inst') as (b' & v' & Hch).
    + destruct (Hrec a' inst') as [(-> & -> & -> & E)|[_ E]]; by rewrite E in Hcm.
    + exists b', v'. by eapply chosen_mono.
  - intros _ v' E. rewrite Eoc in E. done.
Qed.

Lemma handled_prepare {j a r oc p p' w w'} inst b
    (Hi : inv w) (Hh : handled j a r oc p p' w w') :
  r = PrepareRequest inst b → p' = set_promised b p → blt (promised_ballot_id p) b →
  oc = Ret (PrepareResponse (Some (inl
         (default {| promise_ballot := b; promise_value := None |} (accepted p))))) →
  inv w'.
Proof.
  intros -> -> Hb Eoc. pose proof (handled_grows Hh) as Hg. pose proof (handled_record Hh) as Hrec.
  simpl in Hrec.
  assert (Hv : ∀ a' inst' c v, voted a' inst' c v w' → voted a' inst' c v w).
  { intros a' inst' c v [?|(_ & [=] & _)]%(handled_voted Hh). done. }
  assert (Hp : record a inst w = p) by by destruct (Hrec a inst) as [(_ & _ & ? & _)|[[] _]].
  assert (Hlow : ∀ a' inst' c, ble c (promised_ballot_id (record a' inst' w)) →
    ble c (promised_ballot_id (record a' inst' w'))).
  { intros a' inst' c Hc. destruct (Hrec a' inst') as [(_ & _ & E & ->)|[_ ->]]; [|done].
    rewrite E in Hc. simpl. ballots. }
  assert (Hacc : ∀ a' inst', accepted (record a' inst' w') = accepted (record a' inst' w)).
  { intros a' inst'. by destruct (Hrec a' inst') as [(_ & _ & -> & ->)|[_ ->]]. }
  assert (Hhon : ∀ a' inst' b' q, honest a' inst' b' q w → honest a' inst' b' q w').
  { unfold honest. intros a' inst' b' q. destruct (promise_value q); [|by eauto].
    intros (? & ? & ?). split_and!; eauto using voted_mono. }
  apply (handled_inv Hi Hh).
  - intros a' inst' q. rewrite Hacc. intros Hq. destruct (i_accepted w Hi _ _ _ Hq) as (v & ? & ?).
    exists v. eauto using voted_mono.
  - intros a' inst' c v Hvt%Hv. destruct (i_voted w Hi _ _ _ _ Hvt) as (? & q & ? & ? & ?).
    split; [done|]. rewrite Hacc. eauto.
  - intros i o a' inst' b' q [Hq|(-> & -> & [= -> ->] & Eq)]%(handled_promised Hh).
    + destruct (i_promised w Hi _ _ _ _ _ _ Hq). eauto.
    + split.
      { destruct (Hrec a inst') as [(_ & _ & _ & ->)|[[] _]]; [|done]. simpl. ballots. }
      apply Hhon. rewrite Eoc in Eq. injection Eq as <-. unfold honest.
      destruct (accepted p) as [pr|] eqn:Ep; simpl.
      * rewrite <- Hp in Ep. destruct (i_accepted w Hi _ _ _ Ep) as (v & -> & Hvt).
        split; [done|]. destruct (i_voted w Hi _ _ _ _ Hvt) as (_ & pr' & E & _ & Hle).
        rewrite Ep in E. injection E as <-. rewrite Hp in Hle. split; [ballots|].
        intros c v' Hv' _. destruct (i_voted w Hi _ _ _ _ Hv') as (_ & pr' & E & Hc & _).
        rewrite Ep in E. by injection E as <-.
      * intros c v Hvt _. destruct (i_voted w Hi _ _ _ _ Hvt) as (_ & pr' & E & _).
        rewrite Hp, Ep in E. done.
  - intros i o q i' o' q' a' inst' b' Hq Hq'.
    apply (handled_promised Hh) in Hq as [Hq|(-> & -> & [= <- <-] & _)];
      apply (handled_promised Hh) in Hq' as [Hq'|(-> & E1 & E2 & _)]; try done.
    + by eapply (i_single w Hi).
    + injection E2 as <- <-. subst a'. destruct (i_promised w Hi _ _ _ _ _ _ Hq) as [Hle _].
      rewrite Hp in Hle. exfalso. ballots.
    + destruct (i_promised w Hi _ _ _ _ _ _ Hq') as [Hle _]. rewrite Hp in Hle. exfalso. ballots.
  - intros inst' c v (Q & HQ & Hc). exists Q. split; [done|]. intros a' Ha.
    destruct (Hc a' Ha) as [?%Hv|Hle]; [by left|right].
    destruct (Hrec a' inst') as [(_ & _ & -> & E)|[_ E]]; rewrite E in Hle; [|done].
    simpl in Hle. ballots.
  - intros Hnm a' inst' Hcm. destruct (i_committed w Hi Hnm a' inst') as (b' & v' & Hch).
    + destruct (Hrec a' inst') as [(_ & _ & -> & E)|[_ E]]; by rewrite E in Hcm.
    + exists b', v'. by eapply chosen_mono.
  - intros _ v' E. rewrite Eoc in E. done.
Qed.
Lemma handled_commit {j a r oc p p' w w'} inst b
    (Hi : inv w) (Hh : handled j a r oc p p' w w') :
  r = CommitRequest inst b → p' = set_committed p → oc = Ret (CommitResponse true) → inv w'.
Proof.
  intros -> -> Eoc. pose proof (handled_grows Hh) as Hg. pose proof (handled_record Hh) as Hrec.
  simpl in Hrec.
  assert (Hv : ∀ a' inst' c v, voted a' inst' c v w' → voted a' inst' c v w).
  { intros a' inst' c v [?|(_ & [=] & _)]%(handled_voted Hh). done. }
  assert (Hp : ∀ i o a' inst b q, promised i o a' inst b q w' → promised i o a' inst b q w).
  { intros i o a' inst' b' q [?|(_ & _ & [=] & _)]%(handled_promised Hh). done. }
  assert (Hpro : ∀ a' inst', promised_ballot_id (record a' inst' w') =
    promised_ballot_id (record a' inst' w)).
  { intros a' inst'. by destruct (Hrec a' inst') as [(_ & _ & -> & ->)|[_ ->]]. }
  assert (Hacc : ∀ a' inst', accepted (record a' inst' w') = accepted (record a' inst' w)).
  { intros a' inst'. by destruct (Hrec a' inst') as [(_ & _ & -> & ->)|[_ ->]]. }
  apply (handled_inv Hi Hh).
  - intros a' inst' q. rewrite Hacc. intros Hq. destruct (i_accepted w Hi _ _ _ Hq) as (v & ? & ?).
    exists v. eauto using voted_mono.
  - intros a' inst' c v Hvt%Hv. rewrite Hacc, Hpro. by eapply (i_voted w Hi).
  - intros i o a' inst' b' q Hq%Hp. rewrite Hpro.
    destruct (i_promised w Hi _ _ _ _ _ _ Hq) as [? Hhon]. split; [done|]. unfold honest in *.
    destruct (promise_value q); [|by eauto]. destruct Hhon as (? & ? & ?).
    split_and!; eauto using voted_mono.
  - intros i o q i' o' q' a' inst' b' Hq%Hp Hq'%Hp. by eapply (i_single w Hi).
  - intros inst' c v (Q & HQ & Hc). exists Q. split; [done|]. intros a' Ha.
    rewrite <- Hpro. destruct (Hc a' Ha); auto.
  - intros Hnm a' inst' Hcm. destruct (Hrec a' inst') as [(-> & -> & _ & _)|[_ E]].
    + destruct (h_request _ _ _ _ _ _ _ _ Hh) as [[o Hs] _].
      destruct (i_commit w Hi Hnm _ _ _ _ _ Hs) as [v Hch]. exists b, v. by eapply chosen_mono.
    + rewrite E in Hcm. destruct (i_committed w Hi Hnm _ _ Hcm) as (b' & v & Hch).
      exists b', v. by eapply chosen_mono.
  - intros _ v' E. by rewrite Eoc in E.
Qed.

(** A committed record holds the chosen value. *)
Lemma committed_value a inst w :
  n ≤ m → inv w → (a < n)%nat → committed (record a inst w) = true →
  ∃ b, chosen inst b (accepted_value (record a inst w)) w.
Proof.
  intros Hnm Hi Ha Hcm. destruct (i_committed w Hi Hnm a inst Hcm) as (b & v & Hch).
  exists b. pose proof Hch as (Q & HQ & Hall).
  destruct (i_voted w Hi _ _ _ _ (Hall a (majority_all Q a Hnm HQ Ha))) as (_ & p & Ep & Hle & _).
  destruct (i_accepted w Hi _ _ _ Ep) as (v' & Ev & Hv').
  unfold accepted_value. rewrite Ep. simpl. rewrite Ev. simpl.
  by rewrite (chosen_later inst b v _ v' a w Hi Hch Hv' Hle).
Qed.

Lemma pax_deliver_inv j w :
  inv w → (j < length (p_sent w))%nat → j ∉ p_delivered w → 
  inv (deliver j w) ∧ ∀ i, others i w (deliver j w).
Proof.
  intros Hi Hj Hd. destruct (deliver_handled j w Hi Hj Hd) as [->|(a & r & oc & p & p' & Hh)].
  { by split. }
  split; [|intros i; by apply (handled_others Hh)].
  destruct (h_serve _ _ _ _ _ _ _ _ Hh) as [[Eo Ep]|[Hno Ep]].
  2: { apply (handled_quiet Hi Hh); [done|..]; intros; [apply Hno..|]. by destruct (Hno _ H4). }
  destruct r as [inst b|inst q|inst b|inst|inst]; simpl in *.
  - destruct (ballot_le b (promised_ballot_id p)) eqn:Eb; simpl in *.
    + apply (handled_quiet Hi Hh); [done|..]; intros; subst oc; congruence.
    + eapply (handled_prepare inst b Hi Hh); [done..| |done]. ballots.
  - destruct (ballot_lt _ _) eqn:Eb; simpl in *.
    + apply (handled_quiet Hi Hh); [done|..]; intros; subst oc; congruence.
    + destruct q as [b v]. eapply (handled_accept inst b v Hi Hh); [done..|]. simpl in *. ballots.
  - destruct (committed p); simpl in *.
    + apply (handled_quiet Hi Hh); [done|..]; intros; subst oc; congruence.
    + by eapply (handled_commit inst b Hi Hh).
  - apply (handled_quiet Hi Hh); [done|..]; intros; subst oc; congruence.
  - apply (handled_quiet Hi Hh); [done|intros; subst oc; congruence..|].
    intros Hnm v. rewrite Eo. destruct (committed p) eqn:Ec; intros [= <-].
    destruct (h_request _ _ _ _ _ _ _ _ Hh) as [[o Hs] _].
    pose proof (h_before _ _ _ _ _ _ _ _ Hh) as Hp. simpl in Hp.
    destruct (committed_value a inst w Hnm Hi (h_in _ _ _ _ _ _ _ _ Hh)) as [b' Hch];
      [by rewrite Hp|]. rewrite Hp in Hch.
    exists o, a, inst, b'. split; [by apply (handled_sent Hh)|].
    eapply chosen_mono; [by apply (handled_grows Hh)|done].
Qed.

Lemma pax_network_inv w w' : inv w → network w w' → inv w' ∧ ∀ i, others i w w'.
Proof. intros Hi Hn. revert Hi. destruct Hn as [w j Hj Hd]. intros Hi. by apply pax_deliver_inv. Qed.

(** ** Threads *)

Definition always (X : Set) (e : pax_call X) w : Prop := True.

Section thread.
Context (me : nat).
Abbreviation WP := (wp exec always inv grows others always me).
Abbreviation Safe := (safe exec always inv grows others always me).
Abbreviation Method := (method exec always inv grows others always me).

Lemma wp_conseq' {A} (p : pprog A) (Q Q' : outcome A → PaxosWorld K → Prop) w :
  (∀ (o : outcome A) w', grows w w' → Q o w' → Q' o w') → WP p Q w → WP p Q' w.
Proof. apply (wp_conseq exec always inv grows others o_grows always). Qed.

Lemma pax_conseq {A} (p : pprog A) (Q Q' : A → PaxosWorld K → Prop) w :
  (∀ x w', grows w w' → Q x w' → Q' x w') → Safe p Q w → Safe p Q' w.
Proof. apply (safe_conseq exec always inv grows others o_grows always). Qed.

(** The requests of this thread from number [L] on ask to accept nothing but
    [vo] for instance [inst] at ballot [b]. *)
Definition mine (L : nat) inst b (vo : option string) w : Prop :=
  (L ≤ length (p_sent w))%nat ∧
  ∀ k a q, (L ≤ k)%nat → sent k me a (AcceptRequest inst q) w → proposal_ballot q = b →
    Some (proposal_value q) = vo.

Lemma mine_stable L inst b vo w w' : others me w w' → mine L inst b vo w → mine L inst b vo w'.
Proof.
  intros [Hg Ho] [HL Hmi]. pose proof (prefix_length _ _ (g_sent _ _ Hg)). split; [lia|].
  intros k a q Hk Hs Hb. destruct (decide (length (p_sent w) ≤ k)%nat) as [?|?];
    [by destruct (Ho k me a (AcceptRequest inst q))|].
  apply (Hmi k a q); [done| |done]. eapply sent_back; [done..|lia].
Qed.

Lemma mine_start w inst b : mine (length (p_sent w)) inst b None w.
Proof. split; [done|]. intros k a q Hk Hs%sent_lt. lia. Qed.

Lemma mine_send L inst b vo a r w :
  mine L inst b vo w →
  (∀ q, r = AcceptRequest inst q → proposal_ballot q = b → Some (proposal_value q) = vo) →
  mine L inst b vo (send (mkRpc me a r) w).
Proof.
  intros [HL Hmi] Hr. split; [simpl; rewrite length_app; lia|].
  intros k a' q Hk [Hs|[-> [= -> ->]]]%send_sent Hb; [by eapply Hmi|by apply Hr].
Qed.

(** Waiting changes nothing. *)
Lemma wp_await rpc (Q : outcome response → PaxosWorld K → Prop) w :
  (∀ w' (o : outcome _), others me w w' → inv w' →
     (∀ r, o = Ret r → answered rpc r w') → Q o w') →
  WP (perform (Await rpc)) Q w.
Proof.
  intros HQ w1 Hw1 Hi. split; [done|]. intros _ o w2 (-> & Hb & Ho). simpl.
  split_and!; [done..|]. apply HQ; [done..|]. intros r ->. by destruct Ho as [?|[? ?]].
Qed.
Lemma wp_awaitfor rpc (Q : outcome (option response) → PaxosWorld K → Prop) w :
  (∀ w' (o : outcome _), others me w w' → inv w' →
     (∀ r, o = Ret (Some r) → answered rpc r w') → Q o w') →
  WP (perform (AwaitFor rpc)) Q w.
Proof.
  intros HQ w1 Hw1 Hi. split; [done|]. intros _ o w2 (-> & Ho). simpl.
  split_and!; [done..|]. apply HQ; [done..|].
  intros r ->. destruct Ho as [[=]|[[? [=]]|(r' & [= <-] & Ha)]]. done.
Qed.

Lemma wp_start a r (Q : outcome nat → PaxosWorld K → Prop) w :
  (∀ w', others me w w' → inv w' → allowed me r w' ∧
     Q (Ret (length (p_sent w'))) (send (mkRpc me a r) w')) →
  WP (perform (Start a r)) Q w.
Proof.
  intros HQ w1 Hw1 Hi. split; [done|]. intros _ o w2 [-> ->]. simpl.
  destruct (HQ w1 Hw1 Hi) as [Hal Hq]. split_and!; [by apply pax_send_inv|apply send_grows| |done].
  intros i Hne. by apply send_others.
Qed.

Lemma send_sent_self z w :
  sent (length (p_sent w)) (rpc_owner z) (rpc_acceptor z) (rpc_request z) (send z w).
Proof. apply send_sent. right. by destruct z. Qed.

(** A whole call: the request is sent and answered. *)
Lemma wp_call x r (Q : outcome response → PaxosWorld K → Prop) w :
  (∀ w', others me w w' → inv w' → allowed me r w' ∧
     ∀ (o : outcome response) w2, others me (send (mkRpc me (address x) r) w') w2 → inv w2 →
       (∀ rs, o = Ret rs → ∃ i, sent i me (address x) r w2 ∧ answered i rs w2) → Q o w2) →
  WP (acceptor_call x r) Q w.
Proof.
  intros HQ. apply wp_bind, wp_start. intros w1 Hw1 Hi1. destruct (HQ w1 Hw1 Hi1) as [Hal Hq].
  split; [done|]. apply wp_await. intros w2 o Hw2 Hi2 Ho. apply Hq; [done..|].
  intros rs ->. eexists. split; [|by apply Ho].
  eapply sent_mono; [apply Hw2|]. apply (send_sent_self (mkRpc me (address x) r)).
Qed.

(** ** A proposer of this thread *)

Definition proposer_ok (p : ProposerImpl) : Prop :=
  majority_ p = m ∧ prepareAcceptors_ p = Local <$> seq 0 n.

(** After a successful prepare at ballot [b] with requests from [L] on. *)
Definition prepared L inst b (p : ProposerImpl) w : Prop :=
  (∃ l, proposeAcceptors_ p = Local <$> l ∧ NoDup l ∧ ∀ a, a ∈ l → (a < n)%nat) ∧
  ∃ Q, majority Q ∧
    (∀ s, selectedProposal_ p = Some s → ∃ i a, (L ≤ i)%nat ∧ a ∈ Q ∧
       promised i me a inst b {| promise_ballot := proposal_ballot s;
                                 promise_value := Some (proposal_value s) |} w) ∧
    ∀ a, a ∈ Q → ∃ i r, (L ≤ i)%nat ∧ promised i me a inst b r w ∧
      ∀ v, promise_value r = Some v → ∃ s, selectedProposal_ p = Some s ∧
        ble (promise_ballot r) (proposal_ballot s).

Lemma prepared_mono L inst b p w w' : grows w w' → prepared L inst b p w → prepared L inst b p w'.
Proof.
  intros Hg (Hl & Q & HQ & Hsel & Hall). split; [done|]. exists Q. split; [done|]. split.
  - intros s Es. destruct (Hsel s Es) as (i & a & ? & ? & ?). exists i, a. eauto using promised_mono.
  - intros a Ha. destruct (Hall a Ha) as (i & r & ? & ? & ?). exists i, r. eauto using promised_mono.
Qed.

Lemma prepared_based L inst b p v w :
  prepared L inst b p w →
  based (length (p_sent w)) me inst b (proposal_value (proposal_of p b v)) w.
Proof.
  intros (_ & Q & HQ & Hsel & Hall). exists Q. split; [done|].
  exists ((λ s, (proposal_ballot s, proposal_value s)) <$> selectedProposal_ p). split.
  - intros c v'. simpl. destruct (selectedProposal_ p) as [s|]; [|done]. intros [= <- <-].
    split; [done|]. destruct (Hsel s eq_refl) as (i & a & ? & ? & Hp). exists i, a.
    eexists. split_and!; [|done|exact Hp|done]. by destruct Hp as [?%sent_lt _].
  - intros a Ha. destruct (Hall a Ha) as (i & r & ? & Hp & Hv). exists i, r.
    split_and!; [by destruct Hp as [?%sent_lt _]|done|]. intros v' Ev.
    destruct (Hv v' Ev) as (s & -> & Hle). by exists (proposal_ballot s), (proposal_value s).
Qed.

(** The ballot is this thread's: another proposal at it would share a promise
    with this one. *)
Lemma prepared_alone L inst b p v w :
  inv w → prepared L inst b p w → mine L inst b (Some v) w ∨ mine L inst b None w →
  ∀ j o a q, sent j o a (AcceptRequest inst q) w → proposal_ballot q = b → proposal_value q = v.
Proof.
  intros Hi (_ & Q & HQ & _ & Hall) Hmine j o a q Hs <-.
  destruct (i_based w Hi _ _ _ _ _ Hs) as (Q' & HQ' & sel & _ & Hall').
  destruct (quorums_meet Q Q' HQ HQ') as (x & Hx & Hx').
  destruct (Hall x Hx) as (i & r & HL & Hp & _), (Hall' x Hx') as (i' & r' & Hlt & Hp' & _).
  destruct (i_single w Hi _ _ _ _ _ _ _ _ _ Hp Hp').
  destruct (sent_eq _ _ _ _ _ _ _ _ (proj1 Hp) (proj1 Hp')) as (<- & _).
  destruct Hmine as [[_ Hmi]|[_ Hmi]]; specialize (Hmi j a q ltac:(lia) Hs eq_refl); congruence.
Qed.

Lemma prepared_valid L inst b p v w :
  inv w → prepared L inst b p w → V v → V (proposal_value (proposal_of p b v)).
Proof.
  intros Hi (_ & Q & _ & Hsel & _) Hv. unfold proposal_of. simpl.
  destruct (selectedProposal_ p) as [s|]; [|done].
  destruct (Hsel s eq_refl) as (i & a & _ & _ & Hp).
  destruct (i_promised w Hi _ _ _ _ _ _ Hp) as [_ (Hvt & _ & _)].
  destruct (voted_sent _ _ _ _ _ Hvt) as (j & o & Hs). exact (i_valid w Hi _ _ _ _ _ Hs).
Qed.

(** The requests of a prepare. *)
Lemma safe_prepares L inst b (l : list acceptor) w :
  mine L inst b None w →
  Safe (map_prog (λ x, rpc ← perform (Start (address x) (PrepareRequest inst b)); mret (x, rpc)) l)
    (λ rpcs w', Forall2 (λ x y, y.1 = x ∧ (L ≤ y.2)%nat ∧
       sent y.2 me (address x) (PrepareRequest inst b) w') l rpcs ∧ mine L inst b None w') w.
Proof.
  intros Hmi. apply (wp_map exec always inv grows others o_grows always me _ l (mine L inst b None)
    (λ x (y : acceptor * nat) w', y.1 = x ∧ (L ≤ y.2)%nat ∧
       sent y.2 me (address x) (PrepareRequest inst b) w')); [|done|].
  - intros x y w1 w2 Hg (? & ? & ?). split_and!; [done..|]. by eapply sent_mono.
  - intros x w1 _ _ Hmi1. apply wp_bind, wp_start. intros w2 Hw2 Hi2. split; [done|]. simpl.
    apply (mine_stable _ _ _ _ _ w2 Hw2) in Hmi1. split_and!; [done|by apply Hmi1| |].
    + apply (send_sent_self (mkRpc me (address x) (PrepareRequest inst b))).
    + by apply mine_send.
Qed.

(** Their answers. *)
Lemma safe_promises L inst b (rpcs : list (acceptor * nat)) w :
  mine L inst b None w → (∀ y, y ∈ rpcs → ∃ a, y.1 = Local a) →
  Safe (map_prog (λ y, attempt (timed_prepare y)) rpcs)
    (λ os w', Forall2 (λ y x, ∀ r, x = Ret (Some (inl r)) →
       answered y.2 (PrepareResponse (Some (inl r))) w') rpcs os ∧ mine L inst b None w') w.
Proof.
  intros Hmi Hloc. apply (wp_map exec always inv grows others o_grows always me _ rpcs
    (mine L inst b None) (λ (y : acceptor * nat) x w', ∀ r, x = Ret (Some (inl r)) →
       answered y.2 (PrepareResponse (Some (inl r))) w')); [|done|].
  - intros y o w1 w2 Hg Ha r E. apply Hg. by apply Ha.
  - intros [x rpc] w1 Hy _ Hmi1. destruct (Hloc _ Hy) as [a Ex]. simpl in Ex. subst x.
    apply wp_attempt, wp_bind, wp_awaitfor.
    intros w2 o Hw2 Hi2 Ho. apply (mine_stable _ _ _ _ _ w2 Hw2) in Hmi1.
    destruct o as [[rs|]|e|]; simpl; [|by split..|done].
    specialize (Ho rs eq_refl).
    destruct rs as [[r|]|?|?|?|?]; simpl; split; try done. by intros r' [= ->].
Qed.

Lemma method_prepare L inst b p w :
  proposer_ok p → mine L inst b None w →
  Method (ProposerImpl_prepare inst b) p
    (λ x p' w', proposer_ok p' ∧ (x = Ret true → prepared L inst b p' w' ∧ mine L inst b None w')) w.
Proof.
  intros Hp Hmi. apply method_bind, method_modify. cbv beta iota. apply method_bind, method_get. cbv beta iota.
  assert (Hp1 : proposer_ok (set_proposeAcceptors [] p)) by done.
  apply method_bind, method_lift_safe; [done|].
  eapply pax_conseq; [|by apply (safe_prepares L)].
  intros rpcs w1 _ [Hrpc Hmi1]. apply method_bind, method_lift_safe; [done|].
  eapply pax_conseq; [|apply (safe_promises L); [done|]].
  2: { intros y [k Hy]%list_elem_of_lookup.
       destruct (Forall2_lookup_r _ _ _ _ _ Hrpc Hy) as (x & Hx & Ey & _). rewrite Ey.
       simpl in Hx. destruct Hp as [_ Ep]. rewrite Ep in Hx.
       apply list_lookup_fmap_Some in Hx as (a & -> & _). by eexists. }
  intros os w2 Hw2 [Hos Hmi2]. apply method_bind, method_lift.
  destruct (collect os) as [prepares|e|] eqn:Ec; simpl; [right|by right|by left].
  apply collect_Ret in Ec.
  destruct Hp as [Em Ea]. simpl in Hrpc. rewrite Ea in *.
  pose (F a r := ∃ i, (L ≤ i)%nat ∧ promised i me a inst b r w2).
  assert (HF : Forall2 (λ a x, ∀ r, x = Some (inl r) → F a r) (seq 0 n) prepares).
  { apply Forall2_fmap_l in Hrpc. apply Forall2_same_length_lookup_2.
    { by rewrite (Forall2_length _ _ _ Hrpc), (Forall2_length _ _ _ Hos), (Forall2_length _ _ _ Ec). }
    intros k a x Ha Hx r ->.
    destruct (Forall2_lookup_r _ _ _ _ _ Ec Hx) as (? & Ho & ->).
    destruct (Forall2_lookup_r _ _ _ _ _ Hos Ho) as (y & Hy & Han).
    destruct (Forall2_lookup_lr _ _ _ _ _ _ Hrpc Ha Hy) as (_ & HL & Hs).
    exists y.2. split; [done|]. split; [by eapply sent_mono|]. by apply Han. }
  destruct (prepare_loop_spec F (seq 0 n) prepares HF) as (l & El & Hsub & Hin & Hprop).
  destruct (prepare_loop _) as [accs props]. simpl in El, Hin, Hprop. subst accs.
  apply method_bind, method_modify. cbv beta iota. rewrite Em.
  destruct (Z.ltb_spec (length (Local <$> l)) m) as [?|Hge]; [by apply method_return|].
  apply method_bind, method_modify. cbv beta iota. apply method_return. split; [done|]. intros _.
  split; [|done]. rewrite length_fmap in Hge.
  assert (Hnd : NoDup l) by (eapply sublist_NoDup; [|done]; apply NoDup_seq).
  assert (Hlt : ∀ a, a ∈ l → (a < n)%nat).
  { intros a Ha. pose proof (sublist_subseteq _ _ Hsub a Ha) as Hx. apply elem_of_seq in Hx. lia. }
  split; [by exists l|].
  exists (list_to_set l). split_and!.
  - split; [|rewrite size_list_to_set; done]. intros a Ha%elem_of_list_to_set.
    apply elem_of_set_seq. specialize (Hlt a Ha). lia.
  - simpl. intros s Es. pose proof (select_spec props) as Hsel. rewrite Es in Hsel.
    destruct (Hprop s (proj1 Hsel)) as (a & Ha & i & HL & Hpr). exists i, a.
    split_and!; [done|by apply elem_of_list_to_set|done].
  - simpl. intros a Ha%elem_of_list_to_set. destruct (Hin a Ha) as (r & (i & HL & Hpr) & Hv).
    exists i, r. split_and!; [done|done|]. intros v Ev. specialize (Hv v Ev).
    pose proof (select_spec props) as Hsel. destruct (select props) as [s|].
    + exists s. split; [done|]. apply (proj2 Hsel _ Hv).
    + subst props. by apply elem_of_nil in Hv.
Qed.

(** ** Proposing *)

Lemma mine_weaken L inst b v w : mine L inst b None w → mine L inst b (Some v) w.
Proof.
  intros [HL Hmi]. split; [done|]. intros k a q Hk Hs Hb. by specialize (Hmi k a q Hk Hs Hb).
Qed.

Lemma wp_accept L inst b p payload a w :
  V payload → prepared L inst b p w → mine L inst b (Some (proposal_value (proposal_of p b payload))) w →
  WP (acceptor_accept (Local a) inst (proposal_of p b payload))
    (λ x w', prepared L inst b p w' ∧
       mine L inst b (Some (proposal_value (proposal_of p b payload))) w' ∧
       (x = Ret true → voted a inst b (proposal_value (proposal_of p b payload)) w')) w.
Proof.
  intros Hv Hpre Hmi. apply wp_bind, wp_attempt, wp_call. intros w1 Hw1 Hi1.
  apply (mine_stable _ _ _ _ _ w1 Hw1) in Hmi.
  apply (prepared_mono _ _ _ _ _ w1 (o_grows _ _ _ Hw1)) in Hpre. split.
  { split_and!; [by eapply prepared_based| |by eapply prepared_valid].
    intros j o a' q Hs Eb. eapply (prepared_alone L); [done..| |done|done]. by left. }
  intros x w2 Hw2 Hi2 Hx.
  assert (Hmi2 : mine L inst b (Some (proposal_value (proposal_of p b payload))) w2).
  { eapply mine_stable; [done|]. apply mine_send; [done|]. by intros q [= <-]. }
  assert (Hpre2 : prepared L inst b p w2).
  { eapply prepared_mono; [apply Hw2|]. eapply prepared_mono; [apply send_grows|done]. }
  destruct x as [rs|e|]; simpl; [|by split_and!..].
  split_and!; [done..|]. intros Hr. destruct (Hx rs eq_refl) as (i & Hs & Ha).
  exists i, me. destruct rs as [|r|r|r|r]; simplify_eq/=. done.
Qed.

Lemma wp_accept_loop L inst b p payload l w :
  V payload → prepared L inst b p w → mine L inst b (Some (proposal_value (proposal_of p b payload))) w →
  Safe (accept_loop inst (proposal_of p b payload) (Local <$> l))
    (λ k w', ∃ l', l' `sublist_of` l ∧ k = length l' ∧
       ∀ a, a ∈ l' → voted a inst b (proposal_value (proposal_of p b payload)) w') w.
Proof.
  intros Hpay. revert w. induction l as [|a l IH]; intros w Hpre Hmi.
  { exists []. split_and!; [constructor|done|by intros a ?%elem_of_nil]. }
  apply wp_bind. eapply wp_conseq'; [|by apply (wp_accept L)].
  intros [r|e|] w1 _ (Hpre1 & Hmi1 & Hv); [|done..].
  apply wp_bind. eapply wp_conseq'; [|by apply IH].
  intros [k|e|] w2 Hw2 Hk; [|done..]. destruct Hk as (l' & Hsub & -> & Hall).
  destruct r; simpl.
  - exists (a :: l'). split_and!; [by constructor|simpl; lia|].
    intros a' [->|Ha']%elem_of_cons; [|by apply Hall]. eapply voted_mono; [done|]. by apply Hv.
  - exists l'. split_and!; [by constructor|done|done].
Qed.

Lemma wp_commit_loop inst b l (d : bool) w :
  (n ≤ m → ∃ v, chosen inst b v w) →
  WP (commit_loop inst b (Local <$> l) d) (λ _ _, True) w.
Proof.
  revert d w. induction l as [|a l IH]; intros d w Hch; [done|].
  apply wp_bind, wp_bind, wp_attempt, wp_call. intros w1 Hw1 Hi1. split.
  { intros Hnm. destruct (Hch Hnm) as [v Hv]. exists v. eapply chosen_mono; [apply Hw1|done]. }
  intros x w2 Hw2 Hi2 _. destruct x as [rs|e|]; simpl; [|done..].
  destruct rs as [|r|r|r|r]; simpl; apply IH; intros Hnm;
    (destruct (Hch Hnm) as [v Hv]; exists v; eapply chosen_mono; [|done];
     etrans; [apply Hw1|etrans; [apply send_grows|apply Hw2]]).
Qed.

Lemma method_propose L inst b p payload w :
  V payload → proposer_ok p → prepared L inst b p w → mine L inst b None w →
  Method (ProposerImpl_propose inst b payload) p (λ _ p' _, p' = p) w.
Proof.
  intros Hv Hp Hpre Hmi. apply method_bind, method_get. cbv beta iota.
  pose proof Hpre as ((l & -> & Hnd & Hl) & _).
  apply method_bind, method_lift_safe; [done|].
  eapply pax_conseq; [|apply (wp_accept_loop L); [done..|by apply mine_weaken]].
  intros k w1 _ (l' & Hsub & -> & Hall). destruct Hp as [-> _].
  destruct (Z.ltb_spec (length l') m) as [_|Hge]; [done|].
  apply method_lift. eapply wp_conseq'; [|apply wp_commit_loop]; [by right|].
  intros _. eexists. exists (list_to_set l'). split; [|by intros a ?%elem_of_list_to_set; apply Hall].
  split.
  - intros a Ha%elem_of_list_to_set. apply elem_of_set_seq.
    pose proof (Hl a (sublist_subseteq _ _ Hsub a Ha)). lia.
  - rewrite size_list_to_set; [done|]. by eapply sublist_NoDup.
Qed.

(** ** Rounds *)

Definition register_ok (r : PaxosWriteOnceRegister) : Prop := proposer_ok (proposer_ r).

(** A value that is read is the chosen one, if the majority is everyone. *)
Definition chosen_value inst v w : Prop := n ≤ m → V v ∧ ∃ b, chosen inst b v w.

Lemma chosen_value_mono inst v w w' : grows w w' → chosen_value inst v w → chosen_value inst v w'.
Proof. intros Hg Hv Hnm. destruct (Hv Hnm) as [? [b ?]]. split; [done|]. exists b. by eapply chosen_mono. Qed.

Lemma safe_first_committed inst (l : list acceptor) w :
  Safe (first_committed inst l) (λ x w', ∀ v, x = Some v → chosen_value inst v w') w.
Proof.
  revert w. induction l as [|x l IH]; intros w; [done|].
  apply wp_bind, wp_bind, wp_attempt, wp_call. intros w1 Hw1 Hi1. split; [done|].
  intros o w2 Hw2 Hi2 Ho. destruct o as [[| | | |[v|]]|e|]; simpl; try apply IH; try done.
  intros v' [= <-] Hnm. destruct (Ho _ eq_refl) as (i & Hs & Ha).
  destruct (i_read w2 Hi2 Hnm _ _ Ha) as (o' & a' & inst' & b & Hs' & Hch).
  destruct (sent_eq _ _ _ _ _ _ _ _ Hs Hs') as (_ & _ & [= <-]).
  split; [by eapply chosen_valid|by exists b].
Qed.

Lemma method_lock r w :
  register_ok r →
  Method lock r (λ x r' w', register_ok r' ∧ registerId_ r' = registerId_ r ∧ ∀ l, x = Ret (Some l) →
    ∃ L, prepared L (registerId_ r') {| major_id := majorId_ r'; minor_id := l |} (proposer_ r') w' ∧
      mine L (registerId_ r') {| major_id := majorId_ r'; minor_id := l |} None w') w.
Proof.
  intros Hr. apply method_bind, method_bind, method_modify. cbv beta iota.
  apply method_bind, method_get. cbv beta iota. apply method_return.
  apply method_bind, method_get. cbv beta iota. apply method_bind, method_zoom. simpl.
  eapply (method_conseq exec always inv grows others o_grows always);
    [|apply (method_prepare (length (p_sent w))); [done|apply mine_start]].
  intros [[]|e|] p' w' _ [Hp' Hpre]; simpl; [| |done..]; apply method_return; (split; [done|split; [done|]]).
  - intros l [= <-]. eexists. by apply Hpre.
  - done.
Qed.

Lemma method_write r l L payload w :
  V payload → register_ok r →
  prepared L (registerId_ r) {| major_id := majorId_ r; minor_id := l |} (proposer_ r) w →
  mine L (registerId_ r) {| major_id := majorId_ r; minor_id := l |} None w →
  Method (write l payload) r (λ _ r' _, r' = r) w.
Proof.
  intros Hv Hr Hpre Hmi. apply method_bind, method_get. cbv beta iota. apply method_zoom.
  eapply (method_conseq exec always inv grows others o_grows always);
    [|by eapply method_propose]. intros o p' w' _ ->. by destruct r.
Qed.

Lemma method_read r w :
  Method read r (λ x r' w', r' = r ∧ ∀ v, x = Ret (inl v) → chosen_value (registerId_ r) v w') w.
Proof.
  apply method_bind, method_get. cbv beta iota. apply method_bind, method_zoom.
  apply method_bind, method_get. cbv beta iota.
  assert (Er : set_proposer (proposer_ r) r = r) by by destruct r.
  apply method_lift_safe; [done|]. eapply pax_conseq; [|apply safe_first_committed].
  intros [v|] w' _ Hv; apply method_return; (split; [done|]); intros v' [= ->]. by apply Hv.
Qed.

Lemma method_round x r w : V x → register_ok r → Method (round x) r (λ _ r' _, register_ok r') w.
Proof.
  intros Hx Hr. apply method_bind.
  eapply (method_conseq exec always inv grows others o_grows always); [|by apply method_lock].
  intros [[l|]|e|] r1 w1 _ (Hr1 & _ & Hl); simpl; [|done..].
  destruct (Hl l eq_refl) as (L & Hpre & Hmi). apply method_bind.
  eapply (method_conseq exec always inv grows others o_grows always); [|by apply (method_write r1 l L)].
  intros [b|e|] r2 w2 _ ->; simpl; [|done..]. apply method_bind.
  eapply (method_conseq exec always inv grows others o_grows always); [|apply method_read].
  by intros [v|e|] r3 w3 _ [-> _].
Qed.

Lemma method_rounds xs r w : Forall V xs → register_ok r → Method (rounds xs) r (λ _ _ _, True) w.
Proof.
  intros Hxs. revert r w. induction Hxs as [|x xs Hx _ IH]; intros r w Hr; [done|].
  apply method_bind, method_attempt.
  eapply (method_conseq exec always inv grows others o_grows always); [|by apply method_round].
  intros o r1 w1 _ Hr1. by apply IH.
Qed.
End thread.
(** ** The theorems *)

(** The stores start without records; nothing has been sent. *)
Definition initial w : Prop :=
  length (p_acceptors w) = n ∧
  (∀ a k, p_acceptors w !! a = Some k → ∀ inst, instance inst k = Some (new_instance inst)) ∧
  p_sent w = [] ∧ p_delivered w = [] ∧ p_answers w = [].

Lemma pax_initial_inv w : initial w → inv w.
Proof.
  intros (Hlen & Hk & Es & Ed & Ea).
  assert (Hrec : ∀ a inst, record a inst w = new_instance inst).
  { intros a inst. unfold record. destruct (p_acceptors w !! a) as [k|] eqn:E; [|done].
    by rewrite (Hk a k E). }
  assert (Hs : ∀ j o a r, ¬ sent j o a r w) by (intros j o a r; unfold sent; by rewrite Es).
  split; rewrite ?Ea, ?Ed; simpl; try done.
  - split; [done|]. intros a k E id. exists (new_instance id). by rewrite (Hk a k E).
  - constructor.
  - by intros x ?%elem_of_nil.
  - intros a inst p. by rewrite Hrec.
  - intros a inst b v (i & o & []%Hs & _).
  - intros i o a inst b r [[]%Hs _].
  - intros i o r i' o' r' a inst b [[]%Hs _].
  - intros j o a inst q []%Hs.
  - intros j o a j' o' a' inst q q' []%Hs.
  - intros j o a inst q c v []%Hs.
  - intros j o a inst q []%Hs.
  - intros _ j o a inst b []%Hs.
  - intros _ a inst. by rewrite Hrec.
  - intros _ i v Ha. unfold answered in Ha. rewrite Ea in Ha. by apply elem_of_nil in Ha.
Qed.
End safety.

(** Any number of clients, each with a register of its own: they work in
    rounds, or only read. *)
Inductive client_result : Set :=
  | RoundsDone
  | ReadDone (result : outcome (string + ReadError)) (register : PaxosWriteOnceRegister).
Definition run_rounds xs r : pprog client_result := _ ← rounds xs r; mret RoundsDone.
Definition run_read r : pprog client_result := x ← read r; mret (ReadDone x.1 x.2).
Inductive client (P : PaxosWriteOnceRegister → Prop) (V : string → Prop) : @thread pax_call → Prop :=
  | client_rounds r xs : P r → Forall V xs → client P V (existT _ (run_rounds xs r))
  | client_read r : P r → client P V (existT _ (run_read r)).
(** A client that has read [v]. *)
Definition has_read r v : @thread pax_call := existT _ (Done (Ret (ReadDone (Ret (inl v)) r))).

Section theorems.
Context {K : Type} `{KVStoreLaws K} `{PaxosCodecLaws}.
Implicit Types (w : PaxosWorld K) (inst : string) (v : string).

(** The reachable states of the system, with registers in [P] and payloads in
    [V]. *)
Definition runs (P : PaxosWriteOnceRegister → Prop) (V : string → Prop) w0 (s : PaxosWorld K * list thread) : Prop :=
  reaches exec always network (client P V) (w0, []) s.

(** What the reading clients have read is chosen. *)
Definition read_chosen (n : nat) (m : Z) V (A : Set) (x : A) w : Prop :=
  ∀ r v, existT (P := λ A : Set, A) A x = existT client_result (ReadDone (Ret (inl v)) r) →
    chosen_value n m V (registerId_ r) v w.

Lemma runs_inv (n : nat) (m : Z) V w0 w ts :
  n < 2 * m → initial n w0 → runs (register_ok n m) V w0 (w, ts) →
  inv n m V w ∧ ∀ r v, has_read r v ∈ ts → chosen_value n m V (registerId_ r) v w.
Proof.
  intros Hm Hinit Hr.
  destruct (sys_safe exec always network (client (register_ok n m) V) (inv n m V) grows others
    o_grows always (λ _, read_chosen n m V) w0 w ts) as (Hi & _ & Hts);
    [|by apply pax_initial_inv|by apply pax_network_inv| |exact Hr|].
  - intros _ A x w1 w2 Hg Hx r v E. by eapply chosen_value_mono, Hx.
  - intros i t w1 [r xs Hreg Hxs|r Hreg] _; apply safe_bind; simpl.
    + eapply wp_weaken; [|by apply (method_rounds n m V)]. intros [?|?|] w2 _; try done.
      intros r' v E. by apply inj_pair2 in E.
    + eapply wp_weaken; [|by apply (method_read n m V)]. intros [[o r1]|?|] w2; simpl; try done.
      intros [-> Hv] r' v E. apply inj_pair2 in E as [= -> ->]. by apply Hv.
  - split; [done|]. intros r v [i Hi']%list_elem_of_lookup. by apply (Hts i _ Hi').
Qed.

(** C5: Paxos agreement among acceptors reached through local handles: whatever
    the clients do, and however requests to them are delayed, reordered and
    lost, at most one value is chosen for an instance by proposers whose
    majority size is above half of the acceptors, and it is one that some
    client wrote.  The acceptors that a process reaches over its network
    ([AcceptorClient.h]) are not covered, and do not agree:
    [remote_acceptors_disagree]. *)
Theorem one_value_chosen (n : nat) (m : Z) V w0 w ts inst b v b' v' :
  n < 2 * m → initial n w0 → runs (register_ok n m) V w0 (w, ts) →
  chosen n m inst b v w → chosen n m inst b' v' w → v = v' ∧ V v.
Proof.
  intros Hm Hinit Hr Hch Hch'. destruct (runs_inv n m V w0 w ts Hm Hinit Hr) as [Hi _].
  split; [by eapply (chosen_agree n m V)|by eapply (chosen_valid n m V)].
Qed.

(** C13: write-once registers agree where all acceptors are reached through local
    handles and the majority size is at least their number, which is what the
    factories pass: any two clients that read a register read the same value,
    and it is the chosen one.  With a real majority readers may differ
    ([majority_reads_unsafe]), as they may with acceptors behind the network
    ([remote_acceptors_disagree]). *)
Theorem register_reads_agree (n : nat) (m : Z) V w0 w ts r v r' v' :
  0 < n → n ≤ m → initial n w0 → runs (register_ok n m) V w0 (w, ts) →
  has_read r v ∈ ts → has_read r' v' ∈ ts → registerId_ r = registerId_ r' →
  v = v' ∧ ∃ b, chosen n m (registerId_ r) b v w.
Proof.
  intros Hn Hnm Hinit Hr Hv Hv' E. assert (Hm : n < 2 * m) by lia.
  destruct (runs_inv n m V w0 w ts Hm Hinit Hr) as [Hi Hread].
  destruct (Hread r v Hv Hnm) as [_ [b Hb]], (Hread r' v' Hv' Hnm) as [_ [b' Hb']].
  rewrite <- E in Hb'. split; [by eapply (chosen_agree n m V)|by exists b].
Qed.
End theorems.

(** ** Scripted executions: three acceptors, instance 7 *)

#[local] Existing Instance bits_codec.
Abbreviation Store := (Rocks.RocksKVStoreLite MemDB).

Inductive action :=
  | Spawn (t : @thread pax_call)
  | Run (i : nat)
  | TimeUp (i : nat)
  | Deliver (j : nat).

(** The next state of thread [i] at its call; [late] chooses the time-out. *)
Definition answer (i : nat) (late : bool) {X : Set} (e : pax_call X) (w : PaxosWorld Store)
    : option (outcome X * PaxosWorld Store) :=
  match e in pax_call Y return option (outcome Y * _) with
  | Start a r => Some (Ret (length (p_sent w)), send (mkRpc i a r) w)
  | Await rpc =>
      match list_find (λ x : nat * outcome response, x.1 = rpc) (p_answers w) with
      | Some (_, (_, Ret r)) => Some (Ret r, w)
      | _ => None
      end
  | AwaitFor rpc =>
      if late then Some (Ret None, w) else
      match list_find (λ x : nat * outcome response, x.1 = rpc) (p_answers w) with
      | Some (_, (_, Ret r)) => Some (Ret (Some r), w)
      | _ => None
      end
  end.

Lemma answer_exec i late (X : Set) (e : pax_call X) w o w' :
  answer i late e w = Some (o, w') → exec i X e w o w'.
Proof.
  destruct e as [a r|rpc|rpc]; simpl.
  - by intros [= <- <-].
  - destruct (list_find _ _) as [[k [rpc' [r| |]]]|] eqn:E; intros [= <- <-].
    apply list_find_Some in E as (E & <- & _). split_and!; [done..|]. left.
    by eapply list_elem_of_lookup_2.
  - destruct late; [by intros [= <- <-]; eauto|].
    destruct (list_find _ _) as [[k [rpc' [r| |]]]|] eqn:E; intros [= <- <-].
    apply list_find_Some in E as (E & <- & _). split; [done|]. right; right. exists r.
    split; [done|]. by eapply list_elem_of_lookup_2.
Qed.

Definition run_thread (late : bool) (i : nat) (s : PaxosWorld Store * list (@thread pax_call))
    : option (PaxosWorld Store * list (@thread pax_call)) :=
  match s.2 !! i with
  | Some (existT A (Call e k)) =>
      match answer i late e s.1 with
      | Some (o, w') => Some (w', <[i := (existT A (k o) : thread)]> s.2)
      | None => None
      end
  | _ => None
  end.

Definition perform_action (a : action) (s : PaxosWorld Store * list (@thread pax_call))
    : option (PaxosWorld Store * list (@thread pax_call)) :=
  match a with
  | Spawn t => Some (s.1, s.2 ++ [t])
  | Run i => run_thread false i s
  | TimeUp i => run_thread true i s
  | Deliver j =>
      if bool_decide ((j < length (p_sent s.1))%nat ∧ j ∉ p_delivered s.1)
      then Some (deliver j s.1, s.2) else None
  end.
Fixpoint perform_actions (l : list action) (s : PaxosWorld Store * list (@thread pax_call))
    : option (PaxosWorld Store * list (@thread pax_call)) :=
  match l with
  | [] => Some s
  | a :: l' => match perform_action a s with Some s' => perform_actions l' s' | None => None end
  end.

Lemma run_thread_step late i s s' (spawn : @thread pax_call → Prop) :
  run_thread late i s = Some s' → sys_step exec always network spawn s s'.
Proof.
  destruct s as [w ts]. unfold run_thread. simpl.
  destruct (ts !! i) as [[A [o|X e k]]|] eqn:Ei; try done.
  destruct (answer i late e w) as [[o w']|] eqn:Ea; [|done]. intros [= <-].
  eapply sys_call; [done|done|]. by eapply answer_exec.
Qed.

(** The threads of a script. *)
Definition spawns (spawn : @thread pax_call → Prop) (l : list action) : Prop :=
  Forall spawn (omap (λ a, match a with Spawn t => Some t | _ => None end) l).

Lemma run_actions_reaches (spawn : @thread pax_call → Prop) w0 l s' :
  spawns spawn l → perform_actions l (w0, []) = Some s' →
  reaches exec always network spawn (w0, []) s'.
Proof.
  intros HP.
  assert (Hall : ∀ s, reaches exec always network spawn (w0, []) s →
    perform_actions l s = Some s' → reaches exec always network spawn (w0, []) s').
  { induction l as [|a l IH]; intros s Hs; simpl; [by intros [= <-]|].
    destruct (perform_action a s) as [s1|] eqn:Ea; [|done].
    assert (Ht : (∀ t, a = Spawn t → spawn t) ∧ spawns spawn l).
    { unfold spawns in HP. simpl in HP. destruct a; try by split.
      apply Forall_cons in HP as [? ?]. split; [by intros t' [= <-]|done]. }
    apply IH; [by apply Ht|]. eapply reaches_step; [exact Hs|]. destruct a as [t|i|i|j]; simpl in Ea.
    - injection Ea as <-. destruct s. apply sys_spawn. by apply Ht.
    - by eapply run_thread_step.
    - by eapply run_thread_step.
    - case_bool_decide as Hj; [|done]. injection Ea as <-. destruct s as [w ts], Hj.
      apply sys_env. by constructor. }
  apply Hall. constructor.
Qed.

Definition empty_world : PaxosWorld Store := mkPaxosWorld (replicate 3 empty_store) [] [] [].
Lemma empty_initial : initial 3 empty_world.
Proof.
  split_and!; [done| |done..]. intros a k Hk inst.
  apply list_elem_of_lookup_2, elem_of_replicate in Hk as [-> _]. done.
Qed.

Definition rounds_of (r : PaxosWriteOnceRegister) (xs : list string) : action :=
  Spawn (existT _ (run_rounds xs r)).
Definition read_of (r : PaxosWriteOnceRegister) : action := Spawn (existT _ (run_read r)).

Definition register (m : Z) (acceptors : list acceptor) : PaxosWriteOnceRegister :=
  makePaxosWriteOnceRegister 7 (makeProposerImpl m acceptors).

(** A prepare, by thread [i] with its three requests from number [j] on. *)
Definition do_prepare (i j : nat) : list action :=
  repeat (Run i) 3 ++ [Deliver j; Deliver (j + 1); Deliver (j + 2)] ++ repeat (Run i) 3.
(** Requests one after the other, from number [j] on. *)
Fixpoint do_calls (i j n : nat) : list action :=
  match n with
  | O => []
  | S n' => [Run i; Deliver j; Run i] ++ do_calls i (j + 1) n'
  end.

(** One client writes, with all three acceptors as its majority, and reads. *)
Definition quiet_run : list action :=
  rounds_of (register 3 (Local <$> seq 0 3)) ["x"%string; "y"%string] ::
  do_prepare 0 0 ++ do_calls 0 3 7 ++ do_prepare 0 10 ++ do_calls 0 13 7.

(** Deciding votes on concrete states. *)
Definition votedb (a : nat) (inst : string) (b : BallotId) (v : string) (w : PaxosWorld Store) : bool :=
  existsb (λ i, match p_sent w !! i with
    | Some (mkRpc _ a' (AcceptRequest inst' q)) =>
        bool_decide (a' = a) && bool_decide (inst' = inst) &&
        bool_decide (proposal_ballot q = b) && bool_decide (proposal_value q = v) &&
        existsb (λ x : nat * outcome response, bool_decide (x.1 = i) &&
          match x.2 with Ret (AcceptResponse true) => true | _ => false end) (p_answers w)
    | _ => false
    end) (seq 0 (length (p_sent w))).

Lemma votedb_voted a inst b v w : votedb a inst b v w = true → voted a inst b v w.
Proof.
  unfold votedb. intros (i & _ & Hi)%existsb_exists.
  destruct (p_sent w !! i) as [[o a' r]|] eqn:Es; [|done]. destruct r as [|inst' [b' v']| | |]; try done.
  simpl in Hi. rewrite !andb_true_iff, !bool_decide_eq_true in Hi.
  destruct Hi as [[[[-> ->] ->] ->] (x & Hx & Ex)%existsb_exists]. exists i, o. split; [done|].
  apply andb_true_iff in Ex as [Ei%bool_decide_eq_true Ex]. apply list_elem_of_In in Hx.
  destruct x as [i' [[|[]| | |]| |]]; simpl in *; by subst.
Qed.

Lemma chosen_by (m : Z) (Q : list nat) inst b v w :
  NoDup Q → (∀ a, a ∈ Q → (a < 3)%nat) → m ≤ length Q →
  forallb (λ a, votedb a inst b v w) Q = true → chosen 3 m inst b v w.
Proof.
  intros Hnd HQ Hm Hall. exists (list_to_set Q). split.
  - split; [|by rewrite size_list_to_set]. intros a Ha%elem_of_list_to_set%HQ.
    apply elem_of_set_seq. lia.
  - intros a Ha%elem_of_list_to_set. apply votedb_voted.
    rewrite forallb_forall in Hall. by apply Hall, list_elem_of_In.
Qed.

(** The side conditions of [chosen_by] for a concrete quorum. *)
Ltac quorum := clear; lazymatch goal with
  | |- NoDup _ => repeat constructor; set_solver
  | |- ∀ _, _ → _ => set_solver by lia
  | |- _ ≤ _ => simpl; lia
  end.

(** Two clients whose acceptors are in other processes write x and y. *)
Definition remote_run : list action :=
  rounds_of (register 3 (Remote <$> seq 0 3)) ["x"%string] ::
  rounds_of (register 3 (Remote <$> seq 0 3)) ["y"%string] ::
  do_prepare 0 0 ++ do_prepare 1 3 ++ do_calls 0 6 3 ++ do_calls 1 9 3.

(** A majority size of two: the third acceptor has promised a later ballot and
    rejects x, but is told to commit; a reader finds acceptors 0 and 1 before
    and acceptor 2 after the commit. *)
Definition majority_run : list action :=
  rounds_of (register 2 (Local <$> seq 0 3)) ["x"%string] ::
  rounds_of (register 2 (Local <$> seq 0 3)) ["y"%string; "y"%string] ::
  read_of (register 2 (Local <$> seq 0 3)) ::
  do_prepare 0 0 ++ repeat (Run 1) 3 ++ repeat (TimeUp 1) 3 ++
  repeat (Run 1) 3 ++ Deliver 8 :: repeat (TimeUp 1) 3 ++
  do_calls 0 9 3 ++ do_calls 2 12 2 ++ do_calls 0 14 3 ++ do_calls 2 17 1.

(** What a script says about its final state. *)
Lemma script_runs (P : PaxosWriteOnceRegister → Prop) V l
    (f : PaxosWorld Store * list thread → bool) :
  spawns (client P V) l →
  match perform_actions l (empty_world, []) with Some s => f s | None => false end = true →
  ∃ w ts, runs P V empty_world (w, ts) ∧ f (w, ts) = true.
Proof.
  intros HP H. destruct (perform_actions l (empty_world, [])) as [[w ts]|] eqn:E; [|done].
  exists w, ts. split; [by eapply run_actions_reaches|done].
Qed.

(** The payloads of the scripts. *)
Definition x_or_y (v : string) : Prop := v = "x"%string ∨ v = "y"%string.
Ltac clients := repeat constructor; (by left) || by right.

Definition ballot_1 : BallotId := {| major_id := 7; minor_id := 1 |}.

(** With acceptors behind the service there is no agreement: the client of
    the service takes every answer to a prepare for a promise without a value,
    a rejection too, so two values are chosen, at the same ballot. *)
Theorem remote_acceptors_disagree :
  ∃ w ts, runs (λ r, proposer_ r = makeProposerImpl 3 (Remote <$> seq 0 3)) x_or_y empty_world (w, ts) ∧
    chosen 3 3 "7" ballot_1 "x" w ∧ chosen 3 3 "7" ballot_1 "y" w.
Proof.
  destruct (script_runs (λ r, proposer_ r = makeProposerImpl 3 (Remote <$> seq 0 3)) x_or_y remote_run
    (λ s, forallb (λ a, votedb a "7" ballot_1 "x" s.1) [0; 1; 2]%nat &&
          forallb (λ a, votedb a "7" ballot_1 "y" s.1) [0; 1; 2]%nat))
    as (w & ts & Hr & [Hx Hy]%andb_true_iff).
  - clients.
  - vm_compute. reflexivity.
  - exists w, ts. split; [done|].
    split; [eapply (chosen_by 3 [0; 1; 2]%nat); [quorum..|exact Hx]|eapply (chosen_by 3 [0; 1; 2]%nat); [quorum..|exact Hy]].
Qed.

(** A proper majority is not enough for reads: with a majority size of two
    of three acceptors, x is chosen and a client reads the empty string, for a
    proposer also commits at an acceptor that rejected its proposal. *)
Theorem majority_reads_unsafe :
  ∃ w ts r, runs (register_ok 3 2) x_or_y empty_world (w, ts) ∧ chosen 3 2 "7" ballot_1 "x" w ∧
    registerId_ r = "7"%string ∧ has_read r "" ∈ ts.
Proof.
  pose (r := register 2 (Local <$> seq 0 3)).
  assert (Hc : match perform_actions majority_run (empty_world, []) with
    | Some s => (forallb (λ a, votedb a "7" ballot_1 "x" s.1) [0; 1]%nat, s.2 !! 2%nat)
    | None => (false, None) end = (true, Some (has_read r ""))) by (vm_compute; reflexivity).
  destruct (perform_actions majority_run (empty_world, [])) as [[w ts]|] eqn:E; [|done].
  apply pair_equal_spec in Hc as [Hx Ht]. exists w, ts, r.
  split; [|split; [eapply (chosen_by 2 [0; 1]%nat); [quorum..|exact Hx]|split; [reflexivity|]]].
  - eapply run_actions_reaches; [|exact E]. clients.
  - eapply list_elem_of_lookup_2. exact Ht.
Qed.

Lemma one_value_chosen_witness :
  ∃ w ts, runs (register_ok 3 3) x_or_y empty_world (w, ts) ∧ chosen 3 3 "7" ballot_1 "x" w ∧
    ∀ b v, chosen 3 3 "7" b v w → "x"%string = v.
Proof.
  destruct (script_runs (register_ok 3 3) x_or_y quiet_run
    (λ s, forallb (λ a, votedb a "7" ballot_1 "x" s.1) [0; 1; 2]%nat)) as (w & ts & Hr & Hx).
  - clients.
  - vm_compute. reflexivity.
  - assert (Hch : chosen 3 3 "7" ballot_1 "x" w).
    { eapply (chosen_by 3 [0; 1; 2]%nat); [quorum..|exact Hx]. }
    exists w, ts. split; [exact Hr|split; [exact Hch|]]. intros b v Hch'.
    exact (proj1 (one_value_chosen 3 3 x_or_y empty_world w ts "7" ballot_1 "x" b v ltac:(lia)
      empty_initial Hr Hch Hch')).
Defined.

Lemma register_reads_agree_witness :
  ∃ w ts r b, runs (register_ok 3 3) x_or_y empty_world (w, ts) ∧ has_read r "x" ∈ ts ∧
    chosen 3 3 "7" b "x" w.
Proof.
  pose (r := register 3 (Local <$> seq 0 3)).
  assert (Hc : match perform_actions
      (quiet_run ++ read_of r :: do_calls 1 20 1) (empty_world, []) with
    | Some s => s.2 !! 1%nat | None => None end = Some (has_read r "x")) by (vm_compute; reflexivity).
  destruct (perform_actions _ (empty_world, [])) as [[w ts]|] eqn:E; [|done].
  assert (Hr : runs (register_ok 3 3) x_or_y empty_world (w, ts)).
  { eapply run_actions_reaches; [|exact E]. clients. }
  assert (Hin : has_read r "x" ∈ ts) by (eapply list_elem_of_lookup_2; exact Hc).
  destruct (register_reads_agree 3 3 x_or_y empty_world w ts r "x" r "x" ltac:(lia) ltac:(lia)
    empty_initial Hr Hin Hin eq_refl) as [_ [b Hch]].
  exists w, ts, r, b. split; [exact Hr|split; [exact Hin|exact Hch]].
Defined.
