(* ===== verification/Wor.v ===== *)
(** * Chains of write-once registers

    [src/wor/inmemory/InMemoryWriteOnceRegister.h],
    [src/wor/WriteOnceRegisterChainImpl.h] and
    [src/wor/WriteOnceRegisterChainAppender.h].  Registers and the chain are
    objects under a mutex, so their operations are single steps; an appender is
    a coroutine that calls them, and any number of appenders run at once.

    Every append that returns has its payload in a register of its own, and no
    register that was written changes; appends one after the other fill the
    registers in order. *)

From stdpp Require Import base gmap list strings relations.
From Stdlib Require Import ZArith Lia Eqdep.
From S2P Require Import Prelude Program Proposer.

Open Scope Z_scope.

(** ** InMemoryWriteOnceRegister *)

Record InMemoryWriteOnceRegister := mkRegister {
  lockId_ : Z;
  committed_ : bool;
  payload_ : string }.

Definition makeInMemoryWriteOnceRegister : InMemoryWriteOnceRegister := mkRegister 0 false "".

Definition lock : M InMemoryWriteOnceRegister (option Z) := λ r,
  let l := wrap64 (lockId_ r + 1) in
  (Ret (Some l), mkRegister l (committed_ r) (payload_ r)).

Definition write (lockId : Z) (payload : string) : M InMemoryWriteOnceRegister bool := λ r,
  if negb (committed_ r) && (lockId =? lockId_ r)
  then (Ret true, mkRegister (lockId_ r) true payload)
  else (Ret false, r).

Definition read : M InMemoryWriteOnceRegister (string + ReadError) :=
  gets (λ r, if committed_ r then inl (payload_ r) else inr NOT_WRITTEN).

(** ** WriteOnceRegisterChainImpl

    A register is known by its key in [lookup_]. *)

Section chain.
Context {R : Type} (registerFactory_ : Z → R).

Record WriteOnceRegisterChainImpl := mkChain {
  worId_ : Z;
  lookup_ : ordmap Z R }.

Definition makeChain : WriteOnceRegisterChainImpl := mkChain 0 [].

Definition append : M WriteOnceRegisterChainImpl (option Z) := λ c,
  let id := wrap64 (worId_ c + 1) in
  (Ret (Some id), mkChain id (om_emplace id (registerFactory_ id) (lookup_ c)).2).

(** Whether there is a register of that id. *)
Definition get (id : Z) : M WriteOnceRegisterChainImpl bool :=
  gets (λ c, bool_decide (is_Some (om_find id (lookup_ c)))).

Definition tail : M WriteOnceRegisterChainImpl (option Z) :=
  gets (λ c, if worId_ c =? 0 then None else Some (worId_ c)).

Definition front : M WriteOnceRegisterChainImpl (option Z) :=
  gets (λ c, match lookup_ c with
             | [] => Some (worId_ c)
             | (id, _) :: _ => Some id
             end).

(** A call on the register of an id. *)
Definition on_register {A} (id : Z) (m : M R A) : M WriteOnceRegisterChainImpl A := λ c,
  match om_find id (lookup_ c) with
  | None => (Throw NullPointer, c)
  | Some r => let '(o, r') := m r in (o, mkChain (worId_ c) (om_set id r' (lookup_ c)))
  end.
End chain.
Arguments WriteOnceRegisterChainImpl : clear implicits.

(** [makeChainUsingInMemoryWor] *)
Abbreviation Chain := (WriteOnceRegisterChainImpl InMemoryWriteOnceRegister).
Definition inMemoryFactory (worId : Z) : InMemoryWriteOnceRegister :=
  makeInMemoryWriteOnceRegister.

(** ** WriteOnceRegisterChainAppender *)

Inductive chain_call : Set → Set :=
  | ChainAppend : chain_call (option Z)
  | ChainGet (id : Z) : chain_call bool
  | WorLock (id : Z) : chain_call (option Z)
  | WorWrite (id lockId : Z) (payload : string) : chain_call bool
  | WorRead (id : Z) : chain_call (string + ReadError).
Abbreviation cprog := (prog chain_call).

(** The inner loop, for at most [fuel] rounds. *)
Fixpoint write_loop (fuel : nat) (worId : Z) (t : string) : cprog (option ()) :=
  match fuel with
  | O => mret None
  | S fuel' =>
      lockId ← perform (WorLock worId);
      match lockId with
      | None => write_loop fuel' worId t
      | Some l =>
          writeResponse ← perform (WorWrite worId l t);
          if writeResponse : bool then mret (Some ())
          else
            readValue ← perform (WorRead worId);
            match readValue with
            | inr _ => write_loop fuel' worId t
            | inl v => if bool_decide (v = t) then mret (Some ())
                       else write_loop fuel' worId t
            end
      end
  end.

(** The outer loop; an inner loop that ends has written, so that this one ends
    with it. *)
Fixpoint append_loop (fuel : nat) (t : string) (maxNumberOfAttempts : Z) : cprog (option Z) :=
  match fuel with
  | O => mret None
  | S fuel' =>
      if maxNumberOfAttempts <=? 0 then mret (Some (-1))
      else
        worId ← perform ChainAppend;
        match worId with
        | None => append_loop fuel' t maxNumberOfAttempts
        | Some id =>
            optionalWor ← perform (ChainGet id);
            if optionalWor : bool then
              r ← write_loop fuel' id t;
              mret (match r with Some _ => Some id | None => None end)
            else append_loop fuel' t maxNumberOfAttempts
        end
  end.

Definition Appender_append (fuel : nat) (t : string) (maxNumberOfAttempts : Z) : cprog (option Z) :=
  append_loop fuel t maxNumberOfAttempts.

(** ** The system: appenders on one in-memory chain

    [owners] is history: which thread got which id from the chain. *)

Record ChainWorld := mkChainWorld { c_chain : Chain; c_owners : list (Z * nat) }.

Definition handle (X : Set) (e : chain_call X) : M Chain X :=
  match e with
  | ChainAppend => append inMemoryFactory
  | ChainGet id => get id
  | WorLock id => on_register id lock
  | WorWrite id l p => on_register id (write l p)
  | WorRead id => on_register id read
  end.

Definition record_owner {X : Set} (i : nat) (e : chain_call X) (o : outcome X)
    : list (Z * nat) → list (Z * nat) :=
  match e in chain_call Y return outcome Y → list (Z * nat) → list (Z * nat) with
  | ChainAppend => λ o l, match o with Ret (Some id) => (id, i) :: l | _ => l end
  | _ => λ _ l, l
  end o.

Definition exec (i : nat) (X : Set) (e : chain_call X) (w : ChainWorld) (o : outcome X)
    (w' : ChainWorld) : Prop :=
  handle X e (c_chain w) = (o, c_chain w') ∧
  c_owners w' = record_owner i e o (c_owners w).

(** Ids do not wrap around. *)
Definition go (X : Set) (e : chain_call X) (w : ChainWorld) : Prop :=
  match e with
  | ChainAppend => 0 ≤ worId_ (c_chain w) < i64_max
  | _ => True
  end.

(** The value of a written register. *)
Definition written (id : Z) (v : string) (w : ChainWorld) : Prop :=
  ∃ r, om_find id (lookup_ (c_chain w)) = Some r ∧ committed_ r = true ∧ payload_ r = v.

Section safety.
Implicit Types w : ChainWorld.

Record inv w : Prop := {
  v_sorted : om_sorted (lookup_ (c_chain w));
  v_ids : ∀ id, is_Some (om_find id (lookup_ (c_chain w))) → 1 ≤ id ≤ worId_ (c_chain w);
  v_owners : ∀ id i, (id, i) ∈ c_owners w → 1 ≤ id ≤ worId_ (c_chain w);
  v_one : ∀ id i j, (id, i) ∈ c_owners w → (id, j) ∈ c_owners w → i = j }.

Record grows w w' : Prop := {
  g_written : ∀ id v, written id v w → written id v w';
  g_owners : ∀ x, x ∈ c_owners w → x ∈ c_owners w' }.
#[export] Instance grows_preorder : PreOrder grows.
Proof. split; [by split|]. intros w1 w2 w3 [] []. split; auto. Qed.

Lemma written_unique id v v' w : written id v w → written id v' w → v = v'.
Proof. intros (r & E & _ & <-) (r' & E' & _ & <-). congruence. Qed.

(** A call on a register that keeps what is written. *)
Lemma on_register_step {A} id (m : M InMemoryWriteOnceRegister A) w o c' :
  inv w → on_register id m (c_chain w) = (o, c') →
  (∀ r, committed_ r = true → committed_ (m r).2 = true ∧ payload_ (m r).2 = payload_ r) →
  inv (mkChainWorld c' (c_owners w)) ∧ grows w (mkChainWorld c' (c_owners w)) ∧
  ∀ r, om_find id (lookup_ (c_chain w)) = Some r → om_find id (lookup_ c') = Some (m r).2.
Proof.
  intros Hi E Hm. unfold on_register in E.
  destruct (om_find id (lookup_ (c_chain w))) as [r|] eqn:Er;
    [|injection E as <- <-; destruct w; done].
  destruct (m r) as [o' r'] eqn:Em. injection E as <- <-. split_and!.
  - split; simpl; try apply Hi.
    + apply om_sorted_set, Hi.
    + intros id'. rewrite om_find_set. case_decide as Ed; [subst|apply Hi].
      intros _. apply (v_ids w Hi). by rewrite Er.
  - split; [|done]. intros id' v (r0 & E0 & Hc & Hv). unfold written. simpl.
    rewrite om_find_set. case_decide as Ed; [|by exists r0]. subst id'.
    rewrite Er in E0. injection E0 as <-. destruct (Hm r Hc) as [Hc' Hv'].
    rewrite Em in Hc', Hv'. exists r'. split_and!; [done|done|by rewrite <- Hv].
  - intros r0 [= <-]. simpl. by rewrite om_find_set_eq, Em.
Qed.

Lemma lock_keeps r :
  committed_ r = true → committed_ (lock r).2 = true ∧ payload_ (lock r).2 = payload_ r.
Proof. done. Qed.
Lemma write_keeps l p r :
  committed_ r = true → committed_ (write l p r).2 = true ∧ payload_ (write l p r).2 = payload_ r.
Proof. intros Hc. unfold write. by rewrite Hc. Qed.
Lemma read_keeps r :
  committed_ r = true → committed_ (read r).2 = true ∧ payload_ (read r).2 = payload_ r.
Proof. done. Qed.

(** The calls on registers, and what they tell. *)
Lemma exec_register {A : Set} i id (e : chain_call A) (m : M InMemoryWriteOnceRegister A) w o w' :
  handle A e = on_register id m → (∀ o l, record_owner i e o l = l) →
  (∀ r, committed_ r = true → committed_ (m r).2 = true ∧ payload_ (m r).2 = payload_ r) →
  inv w → exec i A e w o w' →
  inv w' ∧ grows w w' ∧ ∀ a, o = Ret a → ∃ r, om_find id (lookup_ (c_chain w)) = Some r ∧
    om_find id (lookup_ (c_chain w')) = Some (m r).2 ∧ (m r).1 = Ret a.
Proof.
  intros He Ho Hm Hi [E Eo]. rewrite He in E. rewrite Ho in Eo. destruct w' as [c' ow'].
  simpl in *. subst ow'. destruct (on_register_step id m w o c' Hi E Hm) as (Hi' & Hg & Hr).
  split_and!; [done..|]. intros a ->. unfold on_register in E.
  destruct (om_find id (lookup_ (c_chain w))) as [r|]; [|done]. exists r.
  destruct (m r) as [o r'] eqn:Em. injection E as -> <-. split_and!; [done| |done].
  specialize (Hr r eq_refl). by rewrite Em in Hr.
Qed.

Lemma chain_append_inv i w o w' :
  inv w → go _ ChainAppend w → exec i _ ChainAppend w o w' →
  inv w' ∧ grows w w' ∧ ∃ id, o = Ret (Some id) ∧ (id, i) ∈ c_owners w'.
Proof.
  intros Hi Hgo [E Eo]. unfold go in Hgo. simpl in E. unfold append in E.
  rewrite wrap64_id in E by (apply in_i64_spec; unfold i64_min; lia).
  assert (Hfresh : om_find (worId_ (c_chain w) + 1) (lookup_ (c_chain w)) = None).
  { destruct (om_find _ _) eqn:Ef; [|done]. destruct (v_ids w Hi (worId_ (c_chain w) + 1)); [eauto|lia]. }
  unfold om_emplace in E. rewrite Hfresh in E. injection E as <- Ec. simpl in Eo.
  destruct w' as [c' ow']. simpl in *. subst c' ow'. split_and!.
  - split; simpl.
    + apply om_sorted_set, Hi.
    + intros id. rewrite om_find_set. case_decide as Ed; [lia|]. intros [Hid ?]%(v_ids w Hi). lia.
    + intros id j [[= -> ->]|Hin]%elem_of_cons; [lia|]. pose proof (v_owners w Hi id j Hin). lia.
    + intros id j k Hj Hk. rewrite elem_of_cons in Hj, Hk.
      destruct Hj as [[= -> ->]|Hj], Hk as [Ek|Hk].
      * by injection Ek.
      * pose proof (v_owners w Hi _ _ Hk). lia.
      * injection Ek as -> ->. pose proof (v_owners w Hi _ _ Hj). lia.
      * by eapply (v_one w Hi).
  - split; [|by right]. intros id v (r & E & ?). exists r. simpl. rewrite om_find_set.
    rewrite decide_False; [done|]. intros <-. by rewrite Hfresh in E.
  - eexists. split; [done|]. by left.
Qed.

Lemma exec_inv i (X : Set) (e : chain_call X) w o w' :
  inv w → go X e w → exec i X e w o w' → inv w' ∧ grows w w'.
Proof.
  intros Hi Hgo Hx. destruct e as [|id|id|id l p|id].
  - by destruct (chain_append_inv i w o w' Hi Hgo Hx) as (? & ? & _).
  - destruct Hx as [E Eo], w' as [c' ow']. simpl in *. injection E as _ <-. subst ow'.
    destruct w. by split.
  - by destruct (exec_register i id (WorLock id) lock w o w') as (? & ? & _); [..|apply lock_keeps|done|done|].
  - by destruct (exec_register i id (WorWrite id l p) (write l p) w o w') as (? & ? & _);
      [..|apply write_keeps|done|done|].
  - by destruct (exec_register i id (WorRead id) read w o w') as (? & ? & _); [..|apply read_keeps|done|done|].
Qed.

(** ** Appenders *)

Section thread.
Context (me : nat).
Abbreviation Safe := (safe exec go inv grows (λ _, grows) (λ _ _ _, True) me).

Lemma chain_conseq {A} (p : cprog A) (Q Q' : A → ChainWorld → Prop) w :
  (∀ a w', grows w w' → Q a w' → Q' a w') → Safe p Q w → Safe p Q' w.
Proof. apply (safe_conseq exec go inv grows (λ _, grows) (λ _ _ _ H, H) (λ _ _ _, True)). Qed.

Lemma safe_chain_call {X : Set} (e : chain_call X) (Q : X → ChainWorld → Prop) w :
  (∀ w1 o w2, grows w w1 → inv w1 → go X e w1 → exec me X e w1 o w2 →
     ∀ a, o = Ret a → Q a w2) →
  Safe (perform e) Q w.
Proof.
  intros Hc. apply safe_perform. intros w1 Hw1 Hi. split; [done|]. intros Hg o w2 Hx.
  destruct (exec_inv me X e w1 o w2 Hi Hg Hx) as [Hi2 Hg2]. split_and!; [done..|].
  destruct o; [|done..]. by eapply Hc.
Qed.

Lemma safe_write_loop fuel id t w :
  Safe (write_loop fuel id t) (λ r w', r = Some () → written id t w') w.
Proof.
  revert w. induction fuel as [|fuel IH]; intros w; [done|]. cbn [write_loop].
  apply safe_bind. eapply chain_conseq; [|by apply (safe_chain_call _ (λ _ _, True))].
  intros [l|] w1 _ _; [|apply IH].
  apply safe_bind. eapply chain_conseq; [|apply (safe_chain_call _ (λ b w', b = true → written id t w'))].
  - intros [] w2 _ Hw; [intros _; by apply Hw|].
    apply safe_bind. eapply chain_conseq; [|apply (safe_chain_call _ (λ x w', x = inl t → written id t w'))].
    + intros [v|e] w3 _ Hr; [|apply IH]. case_bool_decide as Ev; [|apply IH].
      intros _. apply Hr. by rewrite Ev.
    + intros w3 o w4 _ Hi3 _ Hx a -> ->.
      destruct (exec_register me id (WorRead id) read w3 (Ret (inl t)) w4) as (_ & _ & Hr);
        [done|done|apply read_keeps|done|done|].
      destruct (Hr _ eq_refl) as (r & _ & E & Er). exists (read r).2. split; [done|].
      unfold read, gets in *. simpl in *. destruct (committed_ r) eqn:Ec; by injection Er.
  - intros w2 o w3 _ Hi2 _ Hx a -> ->.
    destruct (exec_register me id (WorWrite id l t) (write l t) w2 (Ret true) w3) as (_ & _ & Hr);
      [done|done|apply write_keeps|done|done|].
    destruct (Hr _ eq_refl) as (r & _ & E & Er). exists (write l t r).2. split; [done|].
    unfold write in *. by destruct (_ && _).
Qed.

(** What an append that returns [id] has done. *)
Definition landed (t : string) (x : option Z) w : Prop :=
  ∀ id, x = Some id → id ≠ -1 → written id t w ∧ (id, me) ∈ c_owners w.

Lemma safe_appender fuel t k w : Safe (Appender_append fuel t k) (landed t) w.
Proof.
  unfold Appender_append. revert w. induction fuel as [|fuel IH]; intros w; [done|]. cbn [append_loop].
  destruct (k <=? 0); [by intros id [= <-]|].
  apply safe_bind. eapply chain_conseq; [|apply (safe_chain_call _ (λ x w', ∀ id, x = Some id → (id, me) ∈ c_owners w'))].
  - intros [id|] w1 Hw1 Hid; [|apply IH].
    apply safe_bind. eapply chain_conseq; [|by apply (safe_chain_call _ (λ _ _, True))].
    intros [] w2 Hw2 _; [|apply IH].
    apply safe_bind. eapply chain_conseq; [|apply safe_write_loop].
    intros [[]|] w3 Hw3 Hwr id' [= <-] _. split; [by apply Hwr|].
    apply Hw3, Hw2. by apply Hid.
  - intros w1 o w2 _ Hi1 Hgo Hx a ->.
    destruct (chain_append_inv me w1 _ w2 Hi1 Hgo Hx) as (_ & _ & id & [= ->] & Hin).
    by intros id' [= <-].
Qed.
End thread.

(** ** Theorems *)

(** The result of an append carries its payload. *)
Inductive append_result : Set := Appended (t : string) (id : option Z).
Definition run_append (fuel : nat) (t : string) (k : Z) : cprog append_result :=
  x ← Appender_append fuel t k; mret (Appended t x).

(** Any number of appends at any time. *)
Inductive appender : @thread chain_call → Prop :=
  | appender_append fuel t k : appender (existT _ (run_append fuel t k)).

Definition empty_chain_world : ChainWorld := mkChainWorld makeChain [].
Definition runs (s : ChainWorld * list thread) : Prop :=
  reaches exec go (λ _ _, False) appender (empty_chain_world, []) s.

Definition returned (t : string) (id : Z) : @thread chain_call :=
  existT _ (Done (Ret (Appended t (Some id)))).

Lemma empty_inv : inv empty_chain_world.
Proof.
  split; simpl; [constructor|by intros id [??]|by intros id i ?%elem_of_nil|].
  by intros id i j ?%elem_of_nil.
Qed.

(** Appends that have returned. *)
Definition post (i : nat) (A : Set) (x : A) w : Prop :=
  ∀ t id, existT (P := λ A : Set, A) A x = existT append_result (Appended t (Some id)) →
    landed i t (Some id) w.


Lemma runs_safe w ts :
  runs (w, ts) → inv w ∧ ∀ i t id, ts !! i = Some (returned t id) → landed i t (Some id) w.
Proof.
  intros Hr.
  destruct (sys_safe exec go (λ _ _, False) appender inv grows (λ _, grows) (λ _ _ _ H, H)
    (λ _ _ _, True) post empty_chain_world w ts) as (Hi & _ & Hts);
    [|exact empty_inv|done| |exact Hr|].
  - intros i A x w1 w2 Hg Hx t id E id' Eid Hne. destruct (Hx t id E id' Eid Hne).
    split; by apply Hg.
  - intros i t w1 [fuel t' k] _. apply safe_bind.
    eapply chain_conseq; [|apply safe_appender]. intros x w2 _ Hx t0 id E.
    apply inj_pair2 in E as [= -> ->]. exact Hx.
  - split; [done|]. intros i t id Ht. by apply (Hts i _ Ht).
Qed.

(** C18: appends land: whatever appends run at the same time, one that has
    returned an id has its payload in the register of that id, and no two of
    them share an id. *)
Theorem appends_land w ts i j t t' id id' :
  runs (w, ts) → ts !! i = Some (returned t id) → ts !! j = Some (returned t' id') →
  id ≠ -1 → id' ≠ -1 →
  written id t w ∧ written id' t' w ∧ (i ≠ j → id ≠ id').
Proof.
  intros Hr Ht Ht' Hne Hne'. destruct (runs_safe w ts Hr) as [Hi Hall].
  destruct (Hall _ _ _ Ht id eq_refl Hne) as [Hw Ho], (Hall _ _ _ Ht' id' eq_refl Hne') as [Hw' Ho'].
  split_and!; [done..|]. intros Hij ->. by destruct (Hij (v_one w Hi _ _ _ Ho Ho')).
Qed.

Lemma steps_grow s s' :
  inv s.1 → rtc (sys_step exec go (λ _ _, False) appender) s s' → inv s'.1 ∧ grows s.1 s'.1.
Proof.
  intros Hi Hr. induction Hr as [s|s1 s2 s3 Hst _ IH]; [done|].
  assert (inv s2.1 ∧ grows s1.1 s2.1) as [Hi2 Hg].
  { inversion Hst as [w ts i A X e k o w' _ Hgo Hx|? ? ? []|w ts t _]; subst; simpl in *; [|done].
    by eapply exec_inv. }
  destruct (IH Hi2). split; [done|]. by etrans.
Qed.

(** Registers are written once: in every execution, a register that is
    written holds the same value ever after. *)
Theorem registers_written_once w ts w' ts' id v :
  runs (w, ts) → rtc (sys_step exec go (λ _ _, False) appender) (w, ts) (w', ts') →
  written id v w → written id v w' ∧ ∀ v', written id v' w' → v' = v.
Proof.
  intros Hr Hsteps Hv.
  destruct (runs_safe w ts Hr) as [Hi _].
  destruct (steps_grow (w, ts) (w', ts') Hi Hsteps) as [_ Hg]. apply Hg in Hv. split; [done|].
  intros v' Hv'. by eapply written_unique.
Qed.
End safety.

(** ** Appends one after the other *)

(** The chain whose registers hold the given values. *)
Fixpoint filled (k : Z) (vs : list string) : ordmap Z InMemoryWriteOnceRegister :=
  match vs with
  | [] => []
  | v :: vs' => (k, mkRegister 1 true v) :: filled (k + 1) vs'
  end.
Definition chain_of (vs : list string) : Chain := mkChain (length vs) (filled 1 vs).

Lemma filled_app k us vs : filled k (us ++ vs) = filled k us ++ filled (k + length us) vs.
Proof.
  revert k. induction us as [|u us IH]; intros k; simpl; [by rewrite Z.add_0_r|].
  rewrite IH. do 3 f_equal. lia.
Qed.
Lemma filled_below k us id : k + length us ≤ id → Forall (λ e, key_lt e.1 id) (filled k us).
Proof.
  revert k. induction us as [|u us IH]; intros k Hk; simpl in *; constructor.
  - simpl. apply key_lt_Z. lia.
  - apply IH. lia.
Qed.

Lemma append_chain_of us :
  length us < i64_max →
  append inMemoryFactory (chain_of us) = (Ret (Some (length us + 1)),
    mkChain (length us + 1) (filled 1 us ++ [(length us + 1, makeInMemoryWriteOnceRegister)])).
Proof.
  intros Hlen. unfold append, chain_of. simpl worId_. cbv zeta.
  rewrite wrap64_id by (apply in_i64_spec; unfold i64_min, i64_max in *; lia).
  assert (Hb : Forall (λ e, key_lt e.1 (length us + 1)) (filled 1 us)) by (apply filled_below; lia).
  unfold om_emplace. simpl lookup_.
  assert (om_find (length us + 1 : Z) (filled 1 us) = None) as ->.
  { apply om_find_None. intros (e & E & He)%list_elem_of_fmap.
    rewrite Forall_forall in Hb. specialize (Hb e He). apply key_lt_Z in Hb. lia. }
  simpl. by rewrite om_set_snoc.
Qed.

(** A call on the newest register. *)
Lemma on_newest {A} us r (m : M InMemoryWriteOnceRegister A) (id : Z) :
  id = length us + 1 →
  on_register id m (mkChain id (filled 1 us ++ [(id, r)])) =
    ((m r).1, mkChain id (filled 1 us ++ [(id, (m r).2)])).
Proof.
  intros ->. assert (Hb : Forall (λ e, key_lt e.1 (length us + 1)) (filled 1 us))
    by (apply filled_below; lia).
  unfold on_register. simpl lookup_. rewrite om_find_last by done.
  destruct (m r) as [o r']. simpl. by rewrite om_set_last.
Qed.

Lemma interp_write_loop us t fuel (id : Z) :
  id = length us + 1 →
  interp handle (write_loop (S fuel) id t)
      (mkChain id (filled 1 us ++ [(id, makeInMemoryWriteOnceRegister)])) =
    (Ret (Some ()), mkChain id (filled 1 us ++ [(id, mkRegister 1 true t)])).
Proof.
  intros Hid. cbn [write_loop]. rewrite interp_bind.
  erewrite (bind_Ret _ _ _ (Some 1)) by (rewrite interp_perform; by apply on_newest).
  cbv iota. rewrite interp_bind.
  erewrite (bind_Ret _ _ _ true) by (rewrite interp_perform; by apply on_newest). done.
Qed.

Lemma interp_append us t fuel k :
  1 ≤ k → length us < i64_max →
  interp handle (Appender_append (S (S fuel)) t k) (chain_of us) =
    (Ret (Some (length us + 1)), chain_of (us ++ [t])).
Proof.
  intros Hk Hlen. unfold Appender_append. cbn [append_loop].
  rewrite (proj2 (Z.leb_gt k 0)) by lia. cbv iota.
  rewrite interp_bind. erewrite bind_Ret by (rewrite interp_perform; by apply append_chain_of).
  cbv iota. rewrite interp_bind. erewrite (bind_Ret _ _ _ true).
  2: { rewrite interp_perform. simpl. unfold get, gets. simpl lookup_.
       rewrite om_find_last by (apply filled_below; lia). done. }
  cbv iota. rewrite interp_bind. erewrite bind_Ret by by apply interp_write_loop.
  simpl. unfold mret, M_ret, chain_of. rewrite filled_app, length_app. simpl.
  repeat (f_equal; try lia).
Qed.

(** Appends one after the other fill a new chain in order: the k-th gets id
    k, every register is written with the value of its append, and each append
    ends in its first round. *)
Theorem appends_in_order fuel k vs :
  1 ≤ k → length vs ≤ i64_max →
  interp handle (map_prog (λ t, Appender_append (S (S fuel)) t k) vs) makeChain =
    (Ret (imap (λ i _, Some (i + 1)) vs), chain_of vs).
Proof.
  intros Hk. change makeChain with (chain_of []).
  assert (Hall : ∀ us, length us + length vs ≤ i64_max →
    interp handle (map_prog (λ t, Appender_append (S (S fuel)) t k) vs) (chain_of us) =
    (Ret (imap (λ i _, Some (length us + i + 1)) vs), chain_of (us ++ vs))).
  { induction vs as [|v vs IH]; intros us Hlen.
    { by rewrite app_nil_r. }
    cbn [map_prog]. rewrite interp_bind. erewrite bind_Ret
      by (apply interp_append; [done|simpl in Hlen; lia]).
    rewrite interp_bind. erewrite bind_Ret
      by (apply IH; rewrite length_app; simpl in *; lia).
    simpl. rewrite <- app_assoc, length_app. unfold mret, M_ret. simpl. do 2 f_equal.
    f_equal; [f_equal; lia|]. apply imap_ext. intros i x _. simpl. f_equal. lia. }
  intros Hlen. rewrite (Hall []) by (simpl; lia). done.
Qed.

Lemma appends_in_order_witness :
  interp handle (map_prog (λ t, Appender_append 2 t 1) ["a"; "b"]%string) makeChain =
    (Ret [Some 1; Some 2], chain_of ["a"; "b"]%string).
Proof. apply (appends_in_order 0 1 ["a"; "b"]%string); unfold i64_max; simpl; lia. Defined.

(** ** Scripted executions: two appends, their calls interleaved *)

Definition may_go {X : Set} (e : chain_call X) (w : ChainWorld) : bool :=
  match e with
  | ChainAppend => bool_decide (0 ≤ worId_ (c_chain w) < i64_max)
  | _ => true
  end.

Fixpoint run_script (l : list nat) (s : ChainWorld * list (@thread chain_call))
    : option (ChainWorld * list (@thread chain_call)) :=
  match l with
  | [] => Some s
  | i :: l' =>
      match s.2 !! i with
      | Some (existT A (Call e k)) =>
          if may_go e s.1 then
            let '(o, c') := handle _ e (c_chain s.1) in
            run_script l' (mkChainWorld c' (record_owner i e o (c_owners s.1)),
                           <[i := (existT A (k o) : thread)]> s.2)
          else None
      | _ => None
      end
  end.

Lemma run_script_runs l s s' : runs s → run_script l s = Some s' → runs s'.
Proof.
  revert s. induction l as [|i l IH]; intros [w ts] Hs; simpl; [by intros [= <-]|].
  destruct (ts !! i) as [[A [o|X e k]]|] eqn:Ei; try done.
  destruct (may_go e w) eqn:Eg; [|done]. destruct (handle X e (c_chain w)) as [o c'] eqn:Eh.
  apply IH. eapply reaches_step; [exact Hs|]. eapply sys_call; [done| |by split].
  unfold may_go in Eg. destruct e; try done. by apply bool_decide_eq_true in Eg.
Qed.

Definition two_appends : ChainWorld * list (@thread chain_call) :=
  (empty_chain_world,
   [existT append_result (run_append 2 "a" 1); existT append_result (run_append 2 "b" 1)]).
Lemma runs_spawn w ts t : runs (w, ts) → appender t → runs (w, ts ++ [t]).
Proof. intros Hr Ht. eapply reaches_step; [exact Hr|]. by apply sys_spawn. Qed.
Lemma two_appends_runs : runs two_appends.
Proof.
  apply (runs_spawn empty_chain_world [existT append_result (run_append 2 "a" 1)]); [|constructor].
  apply (runs_spawn empty_chain_world []); constructor.
Qed.

Definition first_run : list nat := [0; 1; 1; 0; 0; 0]%nat.
Definition second_run : list nat := first_run ++ [1; 1]%nat.

Lemma script_state l : 
  is_Some (run_script l two_appends) → ∃ w ts, run_script l two_appends = Some (w, ts) ∧ runs (w, ts).
Proof.
  intros [[w ts] E]. exists w, ts. split; [done|]. eapply run_script_runs; [exact two_appends_runs|done].
Qed.

Lemma appends_land_witness :
  ∃ w ts, runs (w, ts) ∧ written 1 "a" w ∧ written 2 "b" w.
Proof.
  destruct (script_state second_run) as (w & ts & E & Hr); [vm_compute; eauto|].
  exists w, ts. split; [done|].
  vm_compute in E. injection E as <- <-.
  destruct (appends_land _ _ 0 1 "a" "b" 1 2 Hr eq_refl eq_refl) as (? & ? & _); [lia..|done].
Defined.

Lemma registers_written_once_witness :
  ∃ w ts w' ts', runs (w, ts) ∧ written 1 "a" w ∧
    rtc (sys_step exec go (λ _ _, False) appender) (w, ts) (w', ts') ∧
    ∀ v, written 1 v w' → v = "a"%string.
Proof.
  destruct (script_state first_run) as (w & ts & E & Hr); [vm_compute; eauto|].
  assert (Hw : written 1 "a" w).
  { vm_compute in E. injection E as <- <-. by eexists. }
  exists w, ts, w, (ts ++ [existT append_result (run_append 2 "c" 1)]).
  assert (Hs : rtc (sys_step exec go (λ _ _, False) appender) (w, ts)
    (w, ts ++ [existT append_result (run_append 2 "c" 1)])).
  { apply rtc_once, sys_spawn. constructor. }
  split; [done|split; [done|split; [done|]]].
  by destruct (registers_written_once w ts _ _ 1 "a" Hr Hs Hw).
Defined.
