(* ===== verification/PaxosRun.v ===== *)
(** * Write-once registers on a network that works

    The programs of [Proposer.v] run one after the other against the acceptors of
    this process, reached through local handles, which answer every request ([PaxosSafety.v] says what holds
    when requests interleave and get lost).  The acceptors then act as one: a
    run of locks, writes and reads on any registers returns, and returns what
    one record per instance answers.  Registers refer to their proposers by an
    index, since several registers may share one.

    That includes the uses a register does not survive: writing twice with one
    lock, and, in the chain of [makeChainUsingPaxosWor], registers that share
    their proposer.  The registers of [makePaxosWor] have a proposer each. *)

From stdpp Require Import base gmap sets list strings relations pretty.
From Stdlib Require Import ZArith Lia.
From S2P Require Import Prelude KVStore Program Paxos.
From S2P Require Import Wor.
From S2P Require Import Proposer PaxosSafety.

Open Scope Z_scope.

(** ** The specification: one record per instance *)

Definition records : Type := string → PaxosInstance.
Implicit Types (σ : records) (r : PaxosWriteOnceRegister).

Definition set_record (i : string) (p : PaxosInstance) σ : records := λ id, if decide (id = i) then p else σ id.

(** The ballot of a lock. *)
Definition ballot_of r (lockId : Z) : BallotId := {| major_id := majorId_ r; minor_id := lockId |}.

(** What a promise reports of the instance. *)
Definition proposal_in (p : PaxosInstance) : option Proposal :=
  a ← accepted p; v ← promise_value a; Some {| proposal_ballot := promise_ballot a; proposal_value := v |}.

Definition spec_lock r σ : option Z * PaxosWriteOnceRegister * records :=
  let r1 := next_lock r in
  let b := ballot_of r (lockId_ r1) in
  let p := σ (registerId_ r) in
  if ballot_le b (promised_ballot_id p)
  then (None, set_proposer (set_proposeAcceptors [] (proposer_ r)) r1, σ)
  else (Some (lockId_ r1),
        set_proposer (set_selectedProposal (proposal_in p)
          (set_proposeAcceptors (prepareAcceptors_ (proposer_ r)) (proposer_ r))) r1,
        set_record (registerId_ r) (set_promised b p) σ).

Definition spec_write (lockId : Z) (x : string) r σ : bool * records :=
  let q := proposal_of (proposer_ r) (ballot_of r lockId) x in
  let p := σ (registerId_ r) in
  match proposeAcceptors_ (proposer_ r) with
  | [] => (false, σ)
  | _ =>
      if ballot_lt (proposal_ballot q) (promised_ballot_id p) then (false, σ)
      else (negb (committed p), set_record (registerId_ r) (set_committed (set_accepted q p)) σ)
  end.

Definition spec_read r σ : string + ReadError :=
  let p := σ (registerId_ r) in
  if committed p then inl (accepted_value p) else inr NOT_WRITTEN.

(** Registers that refer to their proposers, a proposer each or one for
    several: [owner] says which one a register has, and the proposer of a
    register is the one in [proposers], with what the last register that used
    it has left there. *)
Record Registers := mkRegisters {
  regs : list PaxosWriteOnceRegister;
  owner : list nat;
  proposers : list ProposerImpl }.
Definition take_register (k : nat) (R : Registers) : option (nat * PaxosWriteOnceRegister) :=
  r ← regs R !! k; j ← owner R !! k; p ← proposers R !! j; Some (j, set_proposer p r).
Definition put_proposing (k j : nat) r (R : Registers) : Registers :=
  mkRegisters (<[k := r]> (regs R)) (owner R) (<[j := proposer_ r]> (proposers R)).

(** Registers with a proposer each. *)
Definition own_proposers (rs : list PaxosWriteOnceRegister) : Registers :=
  mkRegisters rs (seq 0 (length rs)) (proposer_ <$> rs).

(** Operations on registers. *)
Inductive reg_op :=
  | RegLock (k : nat)
  | RegWrite (k : nat) (lockId : Z) (payload : string)
  | RegRead (k : nat).
Inductive reg_result :=
  | LockIs (lockId : option Z)
  | Written (b : bool)
  | ReadIs (x : string + ReadError).

Definition reg_index (o : reg_op) : nat := match o with RegLock k | RegWrite k _ _ | RegRead k => k end.

Definition spec_reg_prog (o : reg_op) r σ : reg_result * PaxosWriteOnceRegister * records :=
  match o with
  | RegLock _ => let '(l, r', σ') := spec_lock r σ in (LockIs l, r', σ')
  | RegWrite _ l x => let '(b, σ') := spec_write l x r σ in (Written b, r, σ')
  | RegRead _ => (ReadIs (spec_read r σ), r, σ)
  end.
Definition spec_reg_op (o : reg_op) (R : Registers) σ : outcome reg_result * Registers * records :=
  match take_register (reg_index o) R with
  | None => (Throw NullPointer, R, σ)
  | Some (j, r) =>
      let '(a, r', σ') := spec_reg_prog o r σ in (Ret a, put_proposing (reg_index o) j r' R, σ')
  end.
Fixpoint spec_reg_ops (os : list reg_op) (R : Registers) σ
    : list (outcome reg_result) * Registers * records :=
  match os with
  | [] => ([], R, σ)
  | o :: os' =>
      let '(a, R1, σ1) := spec_reg_op o R σ in
      let '(al, R2, σ2) := spec_reg_ops os' R1 σ1 in (a :: al, R2, σ2)
  end.

(** ** Runs *)

Definition reg_prog (o : reg_op) : sprog pax_call PaxosWriteOnceRegister reg_result :=
  match o with
  | RegLock _ => l ← lock; mret (LockIs l)
  | RegWrite _ l x => b ← write l x; mret (Written b)
  | RegRead _ => x ← read; mret (ReadIs x)
  end.

Section run.
Context {K : Type} `{KVStoreLite K} `{PaxosCodec}.

(** The answer to a request. *)
Definition answer_to (rpc : nat) (w : PaxosWorld K) : outcome response :=
  match list_find (λ x : nat * outcome response, x.1 = rpc) (p_answers w) with
  | Some (_, x) => x.2
  | None => Block
  end.

(** Thread [me] calls: a request is handled before the call returns. *)
Definition reply (me : nat) (X : Set) (e : pax_call X) : M (PaxosWorld K) X :=
  match e with
  | Start a q => λ w, (Ret (length (p_sent w)), deliver (length (p_sent w)) (send (mkRpc me a q) w))
  | Await rpc => λ w, (answer_to rpc w, w)
  | AwaitFor rpc => λ w,
      (match answer_to rpc w with Ret a => Ret (Some a) | Throw e => Throw e | Block => Block end, w)
  end.

(** An operation on one of the registers, whose object it changes, and its
    proposer. *)
Definition run_reg_op (me : nat) (o : reg_op) (R : Registers) (w : PaxosWorld K)
    : outcome reg_result * Registers * PaxosWorld K :=
  let k := reg_index o in
  match take_register k R with
  | None => (Throw NullPointer, R, w)
  | Some (j, r) =>
      match interp (reply me) (reg_prog o r) w with
      | (Ret (a, r'), w') => (a, put_proposing k j r' R, w')
      | (Throw e, w') => (Throw e, R, w')
      | (Block, w') => (Block, R, w')
      end
  end.
(** The operations, each as a thread of its own. *)
Fixpoint run_reg_ops (me : nat) (os : list reg_op) (R : Registers) (w : PaxosWorld K)
    : list (outcome reg_result) * Registers * PaxosWorld K :=
  match os with
  | [] => ([], R, w)
  | o :: os' =>
      let '(a, R1, w1) := run_reg_op me o R w in
      let '(al, R2, w2) := run_reg_ops (S me) os' R1 w1 in (a :: al, R2, w2)
  end.
End run.

(** ** Requests *)

Section reliable.
Context {K : Type} `{KVStoreLaws K} `{PaxosCodecLaws}.
(** The acceptors are [0 .. n-1]; [m] is the majority size of the proposers. *)
Context (n : nat) (m : Z).
Implicit Types (w : PaxosWorld K) (S : nat → records).

(** The record of every instance at every acceptor. *)
Record holds S w : Prop := {
  h_length : length (p_acceptors w) = n;
  h_records : ∀ a k, p_acceptors w !! a = Some k →
    kv_healthy k ∧ acceptor_ok k ∧ ∀ id, instance id k = Some (S a id) }.
Definition quiet σ w : Prop := holds (λ _, σ) w.

(** Some acceptors have a new record of an instance. *)
Definition at_acceptors (l : list nat) (i : string) (p : PaxosInstance) S : nat → records :=
  λ a, if decide (a ∈ l) then set_record i p (S a) else S a.

Lemma holds_ext S S' w : holds S w → (∀ a id, (a < n)%nat → S a id = S' a id) → holds S' w.
Proof.
  intros [Hl Hr] E. split; [done|]. intros a k Hk. destruct (Hr a k Hk) as (? & ? & Hi).
  split_and!; [done..|]. intros id. rewrite <- E; [done|]. rewrite <- Hl. by eapply lookup_lt_Some.
Qed.

(** A request is sent and handled. *)
Lemma reply_start me a q S w : holds S w → (a < n)%nat →
  let i := request_instance q in
  ∃ w', reply me _ (Start a q) w = (Ret (length (p_sent w)), w') ∧
    holds (at_acceptors [a] i (spec_serve q (S a i)).2 S) w' ∧
    answer_to (length (p_sent w)) w' = Ret (spec_serve q (S a i)).1 ∧
    length (p_sent w') = Datatypes.S (length (p_sent w)) ∧
    ∀ j, j ≠ length (p_sent w) → answer_to j w' = answer_to j w.
Proof.
  intros [Hl Hr] Ha i. eexists. split; [reflexivity|].
  destruct (lookup_lt_is_Some_2 (p_acceptors w) a) as [k Hk]; [by rewrite Hl|].
  destruct (Hr a k Hk) as (Hh & Hok & Hi). unfold deliver. simpl.
  rewrite lookup_app_r, Nat.sub_diag by lia. simpl. rewrite Hk.
  destruct (serve q k) as [o k'] eqn:E.
  destruct (acceptor_serves q k o k' Hok E) as (Hok' & Hne & (p & Hp & Hcase) & Hh').
  destruct (Hh' Hh) as (Hk' & x & ->). rewrite Hi in Hp. injection Hp as <-.
  destruct Hcase as [[[= ->] Hp']|[Hno _]]; [|by destruct (Hno x)]. fold i in Hp'. split_and!.
  - split; simpl; [by rewrite length_insert|]. intros a' k1 Hk1. unfold at_acceptors.
    destruct (decide (a' = a)) as [->|Hneq].
    + rewrite list_lookup_insert_eq in Hk1 by (by eapply lookup_lt_Some). injection Hk1 as <-.
      rewrite decide_True by set_solver. split_and!; [done..|]. intros id. unfold set_record.
      case_decide as Eid; [by subst|]. rewrite Hne by done. apply Hi.
    + rewrite list_lookup_insert_ne in Hk1 by done. rewrite decide_False by set_solver. by apply Hr.
  - unfold answer_to. simpl. by rewrite decide_True.
  - simpl. rewrite length_app. simpl. lia.
  - intros j Hj. unfold answer_to. simpl. rewrite decide_False by done.
    by destruct (list_find _ (p_answers w)) as [[? ?]|].
Qed.

Context (Hm : 1 ≤ m ≤ n).

Section thread.
Context (me : nat).
Abbreviation run := (interp (reply (K := K) me)).

Lemma call_run a q (r : response) p S w : holds S w → (a < n)%nat → spec_serve q (S a (request_instance q)) = (r, p) →
  ∃ w', run (acceptor_call (Local a) q) w = (Ret r, w') ∧ holds (at_acceptors [a] (request_instance q) p S) w'.
Proof.
  intros Hw Ha Es. destruct (reply_start me a q S w Hw Ha) as (w' & E & Hw' & Hans & _).
  rewrite Es in Hw', Hans. exists w'. split; [|done]. unfold acceptor_call.
  rewrite (interp_call _ _ _ _ _ _ E), interp_perform. simpl. by rewrite Hans.
Qed.

(** The same record was changed at one more acceptor. *)
Lemma at_acceptors_cons a l i p S w :
  holds (at_acceptors l i p (at_acceptors [a] i p S)) w → holds (at_acceptors (a :: l) i p S) w.
Proof.
  intros Hw. eapply holds_ext; [exact Hw|]. intros b id _. unfold at_acceptors, set_record.
  destruct (decide (b ∈ l)), (decide (b ∈ [a])), (decide (b ∈ a :: l)), (decide (id = i)); set_solver.
Qed.
Lemma at_acceptors_nil i p S w : holds S w → holds (at_acceptors [] i p S) w.
Proof. intros Hw. by eapply holds_ext. Qed.

(** Acceptors that all have record [p] of the instance. *)
Definition same (l : list nat) (i : string) (p : PaxosInstance) S : Prop :=
  NoDup l ∧ ∀ a, a ∈ l → (a < n)%nat ∧ S a i = p.
Lemma same_cons a l i p p' S : same (a :: l) i p S →
  (a < n)%nat ∧ S a i = p ∧ same l i p (at_acceptors [a] i p' S).
Proof.
  intros [[Ha Hnd]%NoDup_cons Hl]. destruct (Hl a) as [? ?]; [by left|]. split_and!; [done..|].
  split; [done|]. intros b Hb. destruct (Hl b) as [? ?]; [by right|]. split; [done|]. unfold at_acceptors.
  rewrite decide_False; [done|]. intros ->%list_elem_of_singleton. done.
Qed.

(** *** Accept and commit *)

Lemma accept_loop_run i q l p S w : holds S w → same l i p S →
  let b := ballot_lt (proposal_ballot q) (promised_ballot_id p) in
  ∃ w', run (accept_loop i q (Local <$> l)) w = (Ret (if b then 0 else Z.of_nat (length l)), w') ∧
    holds (at_acceptors l i (if b then p else set_accepted q p) S) w'.
Proof.
  intros Hw Hl. cbv zeta. remember (ballot_lt _ _) as b eqn:Eb. revert S w Hw Hl.
  induction l as [|a l IH]; intros S w Hw Hl; cbn [accept_loop fmap list_fmap].
  { exists w. split; [by destruct b|by apply at_acceptors_nil]. }
  apply (same_cons a l i p (if b then p else set_accepted q p)) in Hl as (Ha & Ep & Hl).
  destruct (call_run a (AcceptRequest i q) (AcceptResponse (negb b)) (if b then p else set_accepted q p) S w)
    as (w1 & E1 & Hw1); [done|done|cbn; rewrite Ep, <- Eb; by destruct b|].
  assert (Ea : run (acceptor_accept (Local a) i q) w = (Ret (negb b), w1)).
  { unfold acceptor_accept. erewrite interp_bind_Ret by (apply interp_attempt; [exact E1|done]).
    by destruct b. }
  rewrite (interp_bind_Ret _ _ _ _ _ _ Ea).
  destruct (IH (at_acceptors [a] i (if b then p else set_accepted q p) S) w1) as (w2 & E2 & Hw2); [exact Hw1|exact Hl|].
  exists w2. split; [|by apply at_acceptors_cons]. rewrite (interp_bind_Ret _ _ _ _ _ _ E2).
  destruct b; [done|]. simpl. do 2 f_equal. lia.
Qed.

Lemma commit_loop_run i b l p c S w : holds S w → same l i p S →
  ∃ w', run (commit_loop i b (Local <$> l) c) w =
      (Ret (c || negb (committed p) && bool_decide (l ≠ [])), w') ∧
    holds (at_acceptors l i (set_committed p) S) w'.
Proof.
  revert c S w. induction l as [|a l IH]; intros c S w Hw Hl; cbn [commit_loop fmap list_fmap].
  { exists w. split; [by rewrite andb_false_r, orb_false_r|by apply at_acceptors_nil]. }
  apply (same_cons a l i p (set_committed p)) in Hl as (Ha & Ep & Hl).
  destruct (call_run a (CommitRequest i b) (CommitResponse (negb (committed p))) (set_committed p) S w)
    as (w1 & E1 & Hw1); [done|done|cbn; rewrite Ep; by destruct p as [? ? ? []]|].
  assert (Ea : run (acceptor_commit (Local a) i b) w = (Ret (negb (committed p)), w1)).
  { unfold acceptor_commit. erewrite interp_bind_Ret by (apply interp_attempt; [exact E1|done]).
    by destruct (committed p). }
  rewrite (interp_bind_Ret _ _ _ _ _ _ Ea).
  destruct (IH (c || negb (committed p)) (at_acceptors [a] i (set_committed p) S) w1) as (w2 & E2 & Hw2);
    [exact Hw1|exact Hl|].
  exists w2. split; [|by apply at_acceptors_cons]. rewrite E2.
  rewrite (bool_decide_true (a :: l ≠ [])) by done. by destruct c, (committed p), (bool_decide _).
Qed.

(** *** Prepare *)

Lemma starts_run i b (r : response) p l S w :
  holds S w → same l i p S → (spec_serve (PrepareRequest i b) p).1 = r →
  ∃ rpcs w', run (map_prog (λ x, rpc ← perform (Start (address x) (PrepareRequest i b)); mret (x, rpc))
      (Local <$> l)) w = (Ret rpcs, w') ∧
    holds (at_acceptors l i (spec_serve (PrepareRequest i b) p).2 S) w' ∧
    Forall2 (λ a x, x.1 = Local a ∧ answer_to x.2 w' = Ret r) l rpcs ∧
    ∀ j, (j < length (p_sent w))%nat → (j < length (p_sent w'))%nat ∧ answer_to j w' = answer_to j w.
Proof.
  intros Hw Hl Er. revert S w Hw Hl. induction l as [|a l IH]; intros S w Hw Hl.
  { exists [], w. split_and!; [done|by apply at_acceptors_nil|constructor|done]. }
  apply (same_cons a l i p (spec_serve (PrepareRequest i b) p).2) in Hl as (Ha & Ep & Hl).
  destruct (reply_start me a (PrepareRequest i b) S w Hw Ha) as (w1 & E1 & Hw1 & Hans & Hlen & Hold).
  change (request_instance _) with i in *. rewrite Ep in Hw1, Hans. rewrite Er in Hans.
  destruct (IH _ w1 Hw1 Hl) as (rpcs & w2 & E2 & Hw2 & Hall & Hmore).
  destruct (Hmore (length (p_sent w))) as [Hlt Hsame]; [lia|].
  exists ((Local a, length (p_sent w)) :: rpcs), w2. split_and!.
  - cbn [fmap list_fmap map_prog]. erewrite interp_bind_Ret by by rewrite (interp_call _ _ _ _ _ _ E1).
    by rewrite (interp_bind_Ret _ _ _ _ _ _ E2).
  - by apply at_acceptors_cons.
  - constructor; [|done]. simpl. by rewrite Hsame.
  - intros j Hj. destruct (Hmore j) as [? ->]; [lia|]. split; [done|]. apply Hold. lia.
Qed.

Lemma timed_prepares_run x l rpcs w :
  Forall2 (λ a y, y.1 = Local a ∧ answer_to y.2 w = Ret (PrepareResponse (Some x))) l rpcs →
  run (map_prog (λ y, attempt (timed_prepare y)) rpcs) w =
    (Ret (replicate (length l) (Ret (Some x))), w).
Proof.
  intros Hl. rewrite (interp_map_reads _ _ (λ _, Ret (Some x))).
  - rewrite (Forall2_length _ _ _ Hl). do 2 f_equal. clear. induction rpcs; simpl; congruence.
  - intros [y rpc] [k Hk]%list_elem_of_lookup. destruct (Forall2_lookup_r _ _ _ _ _ Hl Hk) as (a & _ & Ey & Ha).
    simpl in *. subst y. by rewrite Ha.
Qed.

Lemma collect_replicate {A} k (x : A) : collect (replicate k (Ret x)) = Ret (replicate k x).
Proof. induction k as [|k IH]; simpl; [done|]. by rewrite IH. Qed.

(** All acceptors answer alike. *)
Lemma prepare_loop_same (x : Promise + ()) (l : list acceptor) :
  prepare_loop (zip l (replicate (length l) (Some x))) =
    match x with
    | inr _ => ([], [])
    | inl pr => (l, match promise_value pr with
                    | Some v => replicate (length l) {| proposal_ballot := promise_ballot pr; proposal_value := v |}
                    | None => []
                    end)
    end.
Proof.
  induction l as [|a l IH]; simpl; [by destruct x as [[? []]|]|]. rewrite IH.
  by destruct x as [[? []]|].
Qed.
Lemma select_replicate k q : select (replicate (Datatypes.S k) q) = Some q.
Proof.
  unfold select. simpl. induction k as [|k IH]; [done|]. simpl.
  replace (ballot_lt _ _) with false; [exact IH|]. symmetry. apply not_true_iff_false. ballots.
Qed.

(** What the promises of [k] acceptors in the same state select. *)
Lemma select_all k b p : (0 < k)%nat →
  select (match promise_value (default {| promise_ballot := b; promise_value := None |} (accepted p)) with
          | Some v => replicate k {| proposal_ballot := promise_ballot
              (default {| promise_ballot := b; promise_value := None |} (accepted p)); proposal_value := v |}
          | None => []
          end) = proposal_in p.
Proof.
  intros Hk. destruct k as [|k]; [lia|]. unfold proposal_in.
  destruct (accepted p) as [[b' [v|]]|]; simpl promise_value; [|done..]. apply select_replicate.
Qed.

(** ** A proposer *)

(** The proposer of a register of the factory: all acceptors, and those that
    answered the last prepare are none or all. *)
Record all_acceptors (p : ProposerImpl) : Prop := {
  l_majority : majority_ p = m;
  l_prepare : prepareAcceptors_ p = Local <$> seq 0 n;
  l_propose : proposeAcceptors_ p = [] ∨ proposeAcceptors_ p = Local <$> seq 0 n }.
Lemma same_all i σ : same (seq 0 n) i (σ i) (λ _, σ).
Proof. split; [apply NoDup_seq|]. intros a Ha%elem_of_seq. split; [lia|done]. Qed.
Lemma quiet_all i p σ w : holds (at_acceptors (seq 0 n) i p (λ _, σ)) w → quiet (set_record i p σ) w.
Proof.
  intros Hw. eapply holds_ext; [exact Hw|]. intros a id Ha. unfold at_acceptors. rewrite decide_True; [done|].
  apply elem_of_seq. lia.
Qed.
Lemma quiet_same i σ w : quiet (set_record i (σ i) σ) w → quiet σ w.
Proof.
  intros Hw. eapply holds_ext; [exact Hw|]. intros a id _. simpl. unfold set_record. by case_decide; subst.
Qed.

Lemma prepare_run i b p σ w : all_acceptors p → quiet σ w →
  let refused := ballot_le b (promised_ballot_id (σ i)) in
  ∃ w', run (ProposerImpl_prepare i b p) w =
      (Ret (if refused then (Ret false, set_proposeAcceptors [] p)
            else (Ret true, set_selectedProposal (proposal_in (σ i))
                              (set_proposeAcceptors (prepareAcceptors_ p) p))), w') ∧
    quiet (if refused then σ else set_record i (set_promised b (σ i)) σ) w'.
Proof.
  intros [Ep El _] Hw refused.
  set (x := if refused then inr () else inl (default {| promise_ballot := b; promise_value := None |} (accepted (σ i)))).
  destruct (starts_run i b (PrepareResponse (Some x)) _ _ _ w Hw (same_all i σ)) as (rpcs & w1 & E1 & Hw1 & Hall & _).
  { unfold x, refused. cbn. by destruct (ballot_le _ _). }
  exists w1. split.
  - unfold ProposerImpl_prepare, smodify, sget.
    rewrite (interp_sbind _ _ _ _ _ () (set_proposeAcceptors [] p) w) by done.
    rewrite (interp_sbind _ _ _ _ _ (set_proposeAcceptors [] p) (set_proposeAcceptors [] p) w) by done.
    erewrite interp_sbind by (apply interp_lift; cbn [set_proposeAcceptors prepareAcceptors_]; rewrite El; exact E1).
    erewrite interp_sbind by (apply interp_lift, (timed_prepares_run x); exact Hall).
    erewrite interp_sbind by (apply interp_lift; by rewrite collect_replicate).
    cbn [set_proposeAcceptors prepareAcceptors_]. rewrite El, length_seq.
    pose proof (prepare_loop_same x (Local <$> seq 0 n)) as Ex. rewrite length_fmap, length_seq in Ex.
    rewrite Ex. unfold x. destruct refused.
    + rewrite (interp_sbind _ _ _ _ _ () (set_proposeAcceptors [] p) w1) by done.
      cbn [length set_proposeAcceptors majority_]. rewrite (proj2 (Z.ltb_lt _ _)) by (simpl; lia). done.
    + rewrite (interp_sbind _ _ _ _ _ () (set_proposeAcceptors (Local <$> seq 0 n) p) w1) by done.
      cbn [set_proposeAcceptors majority_]. rewrite length_fmap, length_seq, (proj2 (Z.ltb_ge _ _)) by lia.
      rewrite (interp_sbind _ _ _ _ _ () (set_selectedProposal (proposal_in (σ i))
        (set_proposeAcceptors (Local <$> seq 0 n) p)) w1); [done|].
      by rewrite <- (select_all n b) by lia.
  - unfold refused. cbn in Hw1. destruct (ballot_le _ _); [by eapply quiet_same, quiet_all|by apply quiet_all].
Qed.
Lemma match_all {A} (u v : A) : match Local <$> seq 0 n with [] => u | _ => v end = v.
Proof. destruct n; [lia|done]. Qed.

Lemma propose_run i b x p σ w : all_acceptors p → quiet σ w →
  let q := proposal_of p b x in
  let refused := ballot_lt b (promised_ballot_id (σ i)) in
  ∃ w', run (ProposerImpl_propose i b x p) w =
      (Ret (Ret (match proposeAcceptors_ p with [] => false | _ => negb refused && negb (committed (σ i)) end), p), w') ∧
    quiet (match proposeAcceptors_ p with
           | [] => σ
           | _ => if refused then σ else set_record i (set_committed (set_accepted q (σ i))) σ
           end) w'.
Proof.
  intros [Ep _ El] Hw q refused. unfold ProposerImpl_propose, sget.
  rewrite (interp_sbind _ _ _ _ _ p p w) by done. destruct El as [El|El]; rewrite El.
  { exists w. split; [|done]. erewrite interp_sbind by by apply interp_lift.
    rewrite Ep, (proj2 (Z.ltb_lt _ _)) by lia. done. }
  rewrite !match_all.
  destruct (accept_loop_run i q (seq 0 n) _ _ w Hw (same_all i σ)) as (w1 & E1 & Hw1).
  change (ballot_lt (proposal_ballot q) _) with refused in E1, Hw1. rewrite length_seq in E1.
  erewrite interp_sbind by (apply interp_lift; exact E1). rewrite Ep. destruct refused.
  { exists w1. rewrite (proj2 (Z.ltb_lt _ _)) by lia. split; [done|]. by eapply quiet_same, quiet_all. }
  destruct (commit_loop_run i b (seq 0 n) (set_accepted q (σ i)) false _ w1 (quiet_all _ _ _ _ Hw1))
    as (w2 & E2 & Hw2).
  { split; [apply NoDup_seq|]. intros a Ha%elem_of_seq. split; [lia|]. unfold set_record. by rewrite decide_True. }
  exists w2. rewrite (proj2 (Z.ltb_ge _ _)) by lia. split.
  - rewrite (interp_lift _ _ _ _ _ _ E2), bool_decide_true, andb_true_r; [done|].
    destruct n; [lia|done].
  - eapply holds_ext; [apply (quiet_all _ _ _ _ Hw2)|]. intros a id _. simpl. unfold set_record.
    by destruct (decide (id = i)).
Qed.

Lemma first_committed_run i l σ w : quiet σ w → (∀ a, a ∈ l → (a < n)%nat) → (committed (σ i) = true → l ≠ []) →
  ∃ w', run (first_committed i (Local <$> l)) w =
      (Ret (if committed (σ i) then Some (accepted_value (σ i)) else None), w') ∧ quiet σ w'.
Proof.
  revert w. induction l as [|a l IH]; intros w Hw Hl Hne; cbn [first_committed fmap list_fmap].
  { exists w. split; [|done]. by destruct (committed (σ i)); [destruct (Hne eq_refl)|]. }
  destruct (call_run a (GetCommittedValueRequest i)
    (GetCommittedValueResponse (if committed (σ i) then Some (accepted_value (σ i)) else None)) (σ i) (λ _, σ) w)
    as (w1 & E1 & Hw1); [done|apply Hl; by left|done|].
  assert (Hq : quiet σ w1).
  { eapply holds_ext; [exact Hw1|]. intros b id _. unfold at_acceptors, set_record.
    case_decide; [|done]. by case_decide; subst. }
  assert (Ea : run (acceptor_getCommittedValue (Local a) i) w =
    (Ret (if committed (σ i) then Some (accepted_value (σ i)) else None), w1)).
  { unfold acceptor_getCommittedValue. by erewrite interp_bind_Ret by (apply interp_attempt; [exact E1|done]). }
  rewrite (interp_bind_Ret _ _ _ _ _ _ Ea).
  destruct (committed (σ i)); [by exists w1|]. apply IH; [done| |done]. intros b Hb. apply Hl. by right.
Qed.

Lemma committed_run i p σ w : all_acceptors p → quiet σ w →
  ∃ w', run (ProposerImpl_getCommittedValue i p) w =
      (Ret (Ret (if committed (σ i) then Some (accepted_value (σ i)) else None), p), w') ∧ quiet σ w'.
Proof.
  intros [_ El _] Hw. destruct (first_committed_run i (seq 0 n) σ w Hw) as (w1 & E1 & Hw1).
  { intros a Ha%elem_of_seq. lia. }
  { intros _. destruct n; [lia|done]. }
  exists w1. split; [|done]. unfold ProposerImpl_getCommittedValue, sget.
  rewrite (interp_sbind _ _ _ _ _ p p w) by done. rewrite El. by apply interp_lift.
Qed.
(** ** A register *)

Definition register_reliable r : Prop := all_acceptors (proposer_ r).

Lemma set_proposer_id r : set_proposer (proposer_ r) r = r.
Proof. by destruct r. Qed.

Lemma lock_run r σ w : register_reliable r → quiet σ w →
  let '(l, r', σ') := spec_lock r σ in
  ∃ w', run (lock r) w = (Ret (Ret l, r'), w') ∧ quiet σ' w' ∧ register_reliable r'.
Proof.
  intros Hr Hw. unfold spec_lock.
  destruct (prepare_run (registerId_ r) (ballot_of r (lockId_ (next_lock r))) (proposer_ r) σ w Hr Hw)
    as (w' & E & Hw').
  assert (El : ∀ o p, run (ProposerImpl_prepare (registerId_ r) (ballot_of r (lockId_ (next_lock r))) (proposer_ r)) w =
      (Ret (Ret o, p), w') →
    run (lock r) w = (Ret (Ret (if o : bool then Some (lockId_ (next_lock r)) else None), set_proposer p (next_lock r)), w')).
  { intros o p Ep. unfold lock, getNextLockId, smodify, sget.
    erewrite interp_sbind; [|erewrite interp_sbind by done; by erewrite interp_sbind by done].
    erewrite interp_sbind by done. unfold on_proposer.
    erewrite interp_sbind by (apply interp_zoom; exact Ep). by destruct o. }
  destruct (ballot_le _ _); (exists w'; split_and!; [exact (El _ _ E)|done|]).
  - split; simpl; [apply Hr..|by left].
  - split; simpl; [apply Hr..|right; apply Hr].
Qed.

Lemma write_run l x r σ w : register_reliable r → quiet σ w →
  let '(b, σ') := spec_write l x r σ in ∃ w', run (write l x r) w = (Ret (Ret b, r), w') ∧ quiet σ' w'.
Proof.
  intros Hr Hw. unfold spec_write.
  destruct (propose_run (registerId_ r) (ballot_of r l) x (proposer_ r) σ w Hr Hw) as (w' & E & Hw').
  assert (Ew : ∀ o, run (ProposerImpl_propose (registerId_ r) (ballot_of r l) x (proposer_ r)) w =
      (Ret (Ret o, proposer_ r), w') → run (write l x r) w = (Ret (Ret o, r), w')).
  { intros o Eo. unfold write, sget. erewrite interp_sbind by done. unfold on_proposer.
    erewrite interp_zoom by exact Eo. by rewrite set_proposer_id. }
  change (proposal_ballot (proposal_of _ _ _)) with (ballot_of r l).
  destruct (proposeAcceptors_ (proposer_ r)); [|destruct (ballot_lt _ _)]; (exists w'; split; [exact (Ew _ E)|done]).
Qed.

Lemma register_read_run r σ w : register_reliable r → quiet σ w →
  ∃ w', run (read r) w = (Ret (Ret (spec_read r σ), r), w') ∧ quiet σ w'.
Proof.
  intros Hr Hw. destruct (committed_run (registerId_ r) (proposer_ r) σ w Hr Hw) as (w' & E & Hw').
  exists w'. split; [|done]. unfold read, sget. erewrite interp_sbind by done. unfold on_proposer.
  erewrite interp_sbind by (apply interp_zoom; exact E). rewrite set_proposer_id.
  unfold spec_read. by destruct (committed _).
Qed.

Lemma reg_prog_run o r σ w : register_reliable r → quiet σ w →
  let '(a, r', σ') := spec_reg_prog o r σ in
  ∃ w', run (reg_prog o r) w = (Ret (Ret a, r'), w') ∧ quiet σ' w' ∧ register_reliable r'.
Proof.
  intros Hr Hw. destruct o as [k|k l x|k]; simpl.
  - pose proof (lock_run r σ w Hr Hw) as Hl. destruct (spec_lock r σ) as [[l r'] σ'].
    destruct Hl as (w' & E & ?). exists w'. split; [by erewrite interp_sbind by exact E|done].
  - pose proof (write_run l x r σ w Hr Hw) as Hl. destruct (spec_write l x r σ) as [b σ'].
    destruct Hl as (w' & E & ?). exists w'. split; [by erewrite interp_sbind by exact E|done].
  - destruct (register_read_run r σ w Hr Hw) as (w' & E & ?). exists w'. split; [by erewrite interp_sbind by exact E|done].
Qed.
End thread.

(** ** The runs are executions *)

Abbreviation step spawn := (sys_step (exec (K := K)) always network spawn).

(** Only requests that were sent have been delivered. *)
Definition sent_first w : Prop := ∀ j, j ∈ p_delivered w → (j < length (p_sent w))%nat.

Lemma deliver_sent j w : (j < length (p_sent w))%nat → sent_first w → sent_first (deliver j w).
Proof.
  intros Hj Hw. unfold deliver. destruct (p_sent w !! j) as [c|]; [|done].
  destruct (p_acceptors w !! _) as [k|]; [|done]. destruct (serve _ k) as [o k'].
  intros j' [->|Hj']%elem_of_cons; [done|by apply Hw].
Qed.

Lemma answer_to_answers rpc w o : answer_to rpc w = o → o ≠ Block → (rpc, o) ∈ p_answers w.
Proof.
  unfold answer_to. destruct (list_find _ _) as [[j [rpc' x]]|] eqn:Ef; [|by intros <-].
  apply list_find_Some in Ef as (Ef & <- & _). intros <- _. by eapply list_elem_of_lookup_2.
Qed.

Lemma reply_steps spawn i (A X : Set) (e : pax_call X) (k : outcome X → pprog A) ts w o w' :
  reply i X e w = (o, w') → o ≠ Block → sent_first w → ts !! i = Some (existT A (Call e k) : thread) →
  rtc (step spawn) (w, ts) (w', <[i := (existT A (k o) : thread)]> ts) ∧ sent_first w'.
Proof.
  intros Ea Ho Hw Hi. destruct e as [a q|rpc|rpc]; simpl in Ea; injection Ea as <- <-.
  - assert (Hlt : (length (p_sent w) < length (p_sent (send (mkRpc i a q) w)))%nat).
    { simpl. rewrite length_app. simpl. lia. }
    split; [|apply deliver_sent; [done|]; intros j Hj%Hw; simpl; rewrite length_app; lia].
    eapply rtc_l; [by apply (sys_call _ _ _ _ w ts i A _ (Start a q) k (Ret (length (p_sent w))) (send (mkRpc i a q) w))|].
    apply rtc_once, sys_env. constructor; [done|]. intros Hj%Hw. lia.
  - split; [|done]. apply rtc_once, (sys_call _ _ _ _ w ts i A _ (Await rpc) k _ w); [done|done|].
    split_and!; [done..|left]. by apply answer_to_answers.
  - split; [|done]. apply rtc_once, (sys_call _ _ _ _ w ts i A _ (AwaitFor rpc) k _ w); [done|done|].
    split; [done|]. destruct (answer_to rpc w) as [x|err|] eqn:Ex; [|by eauto|done].
    right; right. exists x. split; [done|]. by apply answer_to_answers in Ex.
Qed.

(** Threads for operations on registers. *)
Inductive reg_client : @thread pax_call → Prop :=
  | reg_client_op o r : reg_client (existT _ (reg_prog o r)).

(** All proposers are of this process, and every register used has one. *)
Definition all_reliable (R : Registers) : Prop := Forall all_acceptors (proposers R).
Definition has_register (R : Registers) (o : reg_op) : Prop := is_Some (take_register (reg_index o) R).

Lemma take_reliable R k j r : all_reliable R → take_register k R = Some (j, r) → register_reliable r.
Proof.
  intros HR E. unfold take_register in E. repeat (apply bind_Some in E as (? & ? & E)). simplify_eq.
  unfold register_reliable. simpl. by eapply Forall_lookup_1.
Qed.

Lemma take_put k j r R o : has_register R o → has_register (put_proposing k j r R) o.
Proof.
  intros [[j' r'] E]. unfold has_register, take_register, put_proposing in *. simpl in *.
  apply bind_Some in E as (r0 & Er & E). apply bind_Some in E as (j0 & Ej & E).
  apply bind_Some in E as (p0 & Ep & E). apply lookup_lt_Some in Er, Ep.
  destruct (lookup_lt_is_Some_2 (<[k:=r]> (regs R)) (reg_index o)) as [r1 ->]; [by rewrite length_insert|].
  simpl. rewrite Ej. simpl.
  destruct (lookup_lt_is_Some_2 (<[j:=proposer_ r]> (proposers R)) j0) as [p1 ->]; [by rewrite length_insert|].
  simpl. eauto.
Qed.

Lemma reg_ops_run os R σ w ts :
  all_reliable R → quiet σ w → Forall (has_register R) os → sent_first w →
  let '(al, R', σ') := spec_reg_ops os R σ in
  ∃ w' ts', run_reg_ops (length ts) os R w = (al, R', w') ∧ quiet σ' w' ∧
    rtc (step reg_client) (w, ts) (w', ts ++ ts').
Proof.
  revert R σ w ts. induction os as [|o os IH]; intros R σ w ts HR Hw Hos Hs; simpl.
  { exists w, []. by rewrite app_nil_r. }
  apply Forall_cons in Hos as [[[j r] Er] Hos].
  pose proof (reg_prog_run (length ts) o r σ w (take_reliable R _ _ _ HR Er) Hw) as Ho.
  unfold spec_reg_op. rewrite Er. destruct (spec_reg_prog o r σ) as [[a r'] σ1].
  destruct Ho as (w1 & E & Hw1 & Hr').
  destruct (interp_steps _ _ _ reg_client (reply (length ts)) sent_first (length ts)
    (reply_steps reg_client (length ts)) _ (reg_prog o r) ts w _ w1 eq_refl E) as [Hst Hs1]; [done..|].
  set (ts1 := ts ++ _) in Hst at 2.
  specialize (IH (put_proposing (reg_index o) j r' R) σ1 w1 ts1
    (Forall_insert _ _ _ _ HR Hr') Hw1).
  destruct (spec_reg_ops os _ σ1) as [[al R2] σ2].
  destruct IH as (w2 & ts2 & E2 & Hw2 & Hst2);
    [by eapply Forall_impl; [exact Hos|apply take_put]|done|].
  unfold ts1 in E2, Hst2. rewrite length_app, Nat.add_comm in E2. simpl in E2. rewrite <- app_assoc in Hst2.
  eexists w2, _. split_and!; [|done|].
  - unfold run_reg_op. by rewrite Er, E, E2.
  - eapply rtc_l; [by apply (sys_spawn _ _ _ _ w ts (existT _ (reg_prog o r)))|]. etrans; [exact Hst|exact Hst2].
Qed.
End reliable.

(** ** In-memory registers

    Where every lock is used for at most one write, the registers answer as the
    ones of [InMemoryWriteOnceRegister.h] do. *)

Definition mem_prog (o : reg_op) : M InMemoryWriteOnceRegister reg_result :=
  match o with
  | RegLock _ => l ← Wor.lock; mret (LockIs l)
  | RegWrite _ l x => b ← Wor.write l x; mret (Written b)
  | RegRead _ => x ← Wor.read; mret (ReadIs x)
  end.
Definition mem_op (o : reg_op) (ims : list InMemoryWriteOnceRegister)
    : outcome reg_result * list InMemoryWriteOnceRegister :=
  match ims !! reg_index o with
  | None => (Throw NullPointer, ims)
  | Some im => let '(a, im') := mem_prog o im in (a, <[reg_index o := im']> ims)
  end.
Fixpoint mem_ops (os : list reg_op) ims : list (outcome reg_result) * list InMemoryWriteOnceRegister :=
  match os with
  | [] => ([], ims)
  | o :: os' =>
      let '(a, ims1) := mem_op o ims in
      let '(al, ims2) := mem_ops os' ims1 in (a :: al, ims2)
  end.

(** The specification of registers with a proposer each, without the
    indirection. *)
Definition spec_own_op (o : reg_op) (rs : list PaxosWriteOnceRegister) σ
    : outcome reg_result * list PaxosWriteOnceRegister * records :=
  match rs !! reg_index o with
  | None => (Throw NullPointer, rs, σ)
  | Some r => let '(a, r', σ') := spec_reg_prog o r σ in (Ret a, <[reg_index o := r']> rs, σ')
  end.
Fixpoint spec_own_ops (os : list reg_op) rs σ : list (outcome reg_result) :=
  match os with
  | [] => []
  | o :: os' => let '(a, rs1, σ1) := spec_own_op o rs σ in a :: spec_own_ops os' rs1 σ1
  end.

Lemma take_own k rs : take_register k (own_proposers rs) = (λ r, (k, r)) <$> rs !! k.
Proof.
  unfold take_register, own_proposers. simpl. destruct (rs !! k) as [r|] eqn:Er; [|done]. simpl.
  rewrite lookup_seq_lt by by eapply lookup_lt_Some. simpl. rewrite list_lookup_fmap, Er. simpl.
  by rewrite set_proposer_id.
Qed.

Lemma spec_own os rs σ : (spec_reg_ops os (own_proposers rs) σ).1.1 = spec_own_ops os rs σ.
Proof.
  revert rs σ. induction os as [|o os IH]; intros rs σ; [done|]. simpl.
  unfold spec_reg_op, spec_own_op. rewrite take_own. destruct (rs !! reg_index o) as [r|] eqn:Er; simpl.
  - destruct (spec_reg_prog o r σ) as [[a r'] σ1]. rewrite <- IH.
    assert (put_proposing (reg_index o) (reg_index o) r' (own_proposers rs)
      = own_proposers (<[reg_index o := r']> rs)) as ->.
    { unfold put_proposing, own_proposers. simpl. by rewrite length_insert, list_fmap_insert. }
    by destruct (spec_reg_ops os _ σ1) as [[]].
  - rewrite <- IH. by destruct (spec_reg_ops os _ σ) as [[]].
Qed.

Lemma own_has rs o : (reg_index o < length rs)%nat → has_register (own_proposers rs) o.
Proof.
  intros [r Er]%lookup_lt_is_Some_2. unfold has_register. rewrite take_own, Er. by eexists.
Qed.

(** [fresh]: the last lock of the register is not used.  No lock is made up: a
    write comes with an older one or with the last one, once. *)
Definition in_turn (o : reg_op) (fresh : bool) (im : InMemoryWriteOnceRegister) : bool :=
  match o with
  | RegLock _ => Wor.lockId_ im <? i64_max
  | RegWrite _ l _ => (l <? Wor.lockId_ im) || ((l =? Wor.lockId_ im) && fresh)
  | RegRead _ => true
  end.
Definition use (o : reg_op) (fresh : bool) (im : InMemoryWriteOnceRegister) : bool :=
  match o with
  | RegLock _ => true
  | RegWrite _ l _ => fresh && negb (l =? Wor.lockId_ im)
  | RegRead _ => fresh
  end.
Fixpoint all_in_turn (os : list reg_op) (fresh : list bool) (ims : list InMemoryWriteOnceRegister) : bool :=
  match os with
  | [] => true
  | o :: os' =>
      match fresh !! reg_index o, ims !! reg_index o with
      | Some f, Some im =>
          in_turn o f im && all_in_turn os' (<[reg_index o := use o f im]> fresh) (mem_op o ims).2
      | _, _ => false
      end
  end.

(** A Paxos register, the record of its instance, and an in-memory register. *)
Record alike (f : bool) (im : InMemoryWriteOnceRegister) r (p : PaxosInstance) : Prop := {
  k_lock : Wor.lockId_ im = lockId_ r ∧ 0 ≤ lockId_ r ≤ i64_max;
  k_major : 0 ≤ majorId_ r;
  k_unlocked : lockId_ r = 0 → f = false ∧ proposeAcceptors_ (proposer_ r) = [] ∧
    promised_ballot_id p = {| major_id := -1; minor_id := -1 |};
  k_locked : 0 < lockId_ r → proposeAcceptors_ (proposer_ r) ≠ [] ∧
    promised_ballot_id p = ballot_of r (lockId_ r);
  k_all : prepareAcceptors_ (proposer_ r) ≠ [];
  k_fresh : f = true → selectedProposal_ (proposer_ r) = proposal_in p;
  k_committed : if committed_ im
    then committed p = true ∧ ∃ b, accepted p = Some {| promise_ballot := b; promise_value := Some (payload_ im) |}
    else committed p = false ∧ accepted p = None }.

(** Nothing happens to the other instances. *)
Definition only (i : string) σ σ' : Prop := ∀ id, id ≠ i → σ' id = σ id.
Lemma only_set i p σ : only i σ (set_record i p σ).
Proof. intros id Hne. unfold set_record. by rewrite decide_False. Qed.

Lemma alike_lock f im r σ : alike f im r (σ (registerId_ r)) → Wor.lockId_ im < i64_max →
  let '(l, r', σ') := spec_lock r σ in
  (Wor.lock im).1 = Ret l ∧ alike true (Wor.lock im).2 r' (σ' (registerId_ r)) ∧
    registerId_ r' = registerId_ r ∧ only (registerId_ r) σ σ'.
Proof.
  intros [[El Hl] Hmaj H0 H1 Hall Hf Hc] Hlt. unfold spec_lock.
  assert (En : lockId_ (next_lock r) = lockId_ r + 1).
  { simpl. apply wrap64_id, in_i64_spec. unfold i64_min, i64_max in *. lia. }
  assert (Eb : ballot_le (ballot_of r (lockId_ (next_lock r))) (promised_ballot_id (σ (registerId_ r))) = false).
  { apply not_true_iff_false. rewrite En. destruct (decide (lockId_ r = 0)) as [E|E].
    - destruct (H0 E) as (_ & _ & ->). rewrite ballot_le_spec. simpl. lia.
    - destruct (H1 ltac:(lia)) as (_ & ->). rewrite ballot_le_spec. simpl. lia. }
  rewrite Eb. simpl in En. unfold Wor.lock. rewrite El. cbn [fst snd next_lock lockId_ set_proposer]. rewrite En.
  split_and!; [done| |done|apply only_set]. unfold set_record. rewrite decide_True by done.
  split; simpl; rewrite ?En; try done; try lia.
Qed.

Lemma alike_write f im r l x σ :
  alike f im r (σ (registerId_ r)) → l < Wor.lockId_ im ∨ (l = Wor.lockId_ im ∧ f = true) →
  let '(b, σ') := spec_write l x r σ in
  (Wor.write l x im).1 = Ret b ∧
    alike (f && negb (l =? Wor.lockId_ im)) (Wor.write l x im).2 r (σ' (registerId_ r)) ∧
    only (registerId_ r) σ σ'.
Proof.
  intros Ha Hl. pose proof Ha as [[El Hr] _ H0 H1 _ Hf Hc]. unfold spec_write, Wor.write. rewrite El in Hl |- *.
  destruct Hl as [Hl|[-> ->]].
  - rewrite (proj2 (Z.eqb_neq l _)), andb_false_r, andb_true_r by lia.
    destruct (decide (lockId_ r = 0)) as [E|E]; [destruct (H0 E) as (_ & -> & _); by split_and!|].
    destruct H1 as (Hne & Ep); [lia|]. destruct (proposeAcceptors_ _); [done|].
    assert (ballot_lt (ballot_of r l) (promised_ballot_id (σ (registerId_ r))) = true) as Eb
      by (rewrite Ep, ballot_lt_spec; simpl; lia).
    cbn [proposal_ballot proposal_of]. rewrite Eb. by split_and!.
  - destruct (decide (lockId_ r = 0)) as [E|E]; [by destruct (H0 E)|].
    destruct H1 as (Hne & Ep); [lia|]. rewrite Z.eqb_refl, andb_true_r.
    destruct (proposeAcceptors_ _) eqn:Eacc; [done|].
    assert (ballot_lt (ballot_of r (lockId_ r)) (promised_ballot_id (σ (registerId_ r))) = false) as Eb.
    { apply not_true_iff_false. rewrite Ep, ballot_lt_spec. simpl. lia. }
    cbn [proposal_ballot proposal_of]. rewrite Eb. specialize (Hf eq_refl).
    assert (Hnew : ∀ im', Wor.lockId_ im' = lockId_ r → committed_ im' = true →
        payload_ im' = proposal_value (proposal_of (proposer_ r) (ballot_of r (lockId_ r)) x) →
      alike false im' r (set_committed (set_accepted (proposal_of (proposer_ r) (ballot_of r (lockId_ r)) x) (σ (registerId_ r))))).
    { intros im' E1 E2 E3. split; simpl; [by split|apply Ha|done|by rewrite Eacc|apply Ha|done|].
      rewrite E2, E3. split; [done|]. by eexists. }
    unfold set_record. rewrite (decide_True (P := registerId_ r = registerId_ r)) by done.
    split_and!; [| |apply only_set].
    + destruct (committed_ im); destruct Hc as [-> _]; done.
    + rewrite andb_false_r. destruct (committed_ im) eqn:Ec; destruct Hc as [Hc Hacc]; simpl.
      * apply Hnew; [done..|]. destruct Hacc as [b Hacc]. unfold proposal_of. rewrite Hf. unfold proposal_in.
        by rewrite Hacc.
      * apply Hnew; [done..|]. unfold proposal_of. rewrite Hf. unfold proposal_in. by rewrite Hacc.
Qed.

Lemma alike_read f im r σ : alike f im r (σ (registerId_ r)) → Wor.read im = (Ret (spec_read r σ), im).
Proof.
  intros [_ _ _ _ _ _ Hc]. unfold Wor.read, gets, spec_read. destruct (committed_ im); destruct Hc as [-> Hacc]; [|done].
  destruct Hacc as [b Hacc]. unfold accepted_value. by rewrite Hacc.
Qed.

Lemma alike_op o f im r σ : alike f im r (σ (registerId_ r)) → in_turn o f im = true →
  let '(a, r', σ') := spec_reg_prog o r σ in
  (mem_prog o im).1 = Ret a ∧ alike (use o f im) (mem_prog o im).2 r' (σ' (registerId_ r)) ∧
    registerId_ r' = registerId_ r ∧ only (registerId_ r) σ σ'.
Proof.
  intros Ha Hin. destruct o as [k|k l x|k]; cbn [mem_prog spec_reg_prog use in_turn] in Hin |- *.
  - pose proof (alike_lock f im r σ Ha ltac:(lia)) as Hl. destruct (spec_lock r σ) as [[l r'] σ'].
    destruct Hl as (El & Ha' & ?). unfold Wor.lock in *. simpl in *. by simplify_eq.
  - rewrite orb_true_iff, andb_true_iff, Z.ltb_lt, Z.eqb_eq in Hin.
    pose proof (alike_write f im r l x σ Ha Hin) as Hw. destruct (spec_write l x r σ) as [b σ'].
    destruct Hw as (Ew & Ha' & ?). mred. destruct (Wor.write l x im) as [ob im']. simpl in *. by subst.
  - rewrite (bind_Ret _ _ _ _ _ (alike_read f im r σ Ha)). by split_and!.
Qed.

(** Registers of different instances, each with its in-memory register. *)
Record all_alike (fresh : list bool) (ims : list InMemoryWriteOnceRegister) (rs : list PaxosWriteOnceRegister) σ : Prop := {
  aa_length : length ims = length rs;
  aa_ids : NoDup (registerId_ <$> rs);
  aa_alike : ∀ k f im r, fresh !! k = Some f → ims !! k = Some im → rs !! k = Some r →
    alike f im r (σ (registerId_ r)) }.

Lemma all_alike_op k f im r fresh ims rs σ r' im' f' σ' :
  all_alike fresh ims rs σ → fresh !! k = Some f → ims !! k = Some im → rs !! k = Some r →
  alike f' im' r' (σ' (registerId_ r)) → registerId_ r' = registerId_ r → only (registerId_ r) σ σ' →
  all_alike (<[k := f']> fresh) (<[k := im']> ims) (<[k := r']> rs) σ'.
Proof.
  intros [Hl Hids Ha] Hf Him Hr Ha' Eid Ho. split.
  - by rewrite !length_insert.
  - rewrite list_fmap_insert, Eid, list_insert_id; [done|]. by rewrite list_lookup_fmap, Hr.
  - intros j f1 im1 r1 Hf1 Him1 Hr1. destruct (decide (j = k)) as [->|Hne].
    + rewrite list_lookup_insert_eq in Hf1 by (by eapply lookup_lt_Some).
      rewrite list_lookup_insert_eq in Him1 by (by eapply lookup_lt_Some).
      rewrite list_lookup_insert_eq in Hr1 by (by eapply lookup_lt_Some). simplify_eq. by rewrite Eid.
    + rewrite list_lookup_insert_ne in Hf1 by done. rewrite list_lookup_insert_ne in Him1 by done.
      rewrite list_lookup_insert_ne in Hr1 by done. rewrite Ho; [by eapply Ha|].
      intros E. destruct Hne. eapply (NoDup_lookup _ _ _ (registerId_ r) Hids); rewrite list_lookup_fmap.
      * by rewrite Hr1, <- E.
      * by rewrite Hr.
Qed.

Lemma all_alike_ops os fresh ims rs σ :
  all_alike fresh ims rs σ → all_in_turn os fresh ims = true →
  (mem_ops os ims).1 = spec_own_ops os rs σ.
Proof.
  revert fresh ims rs σ. induction os as [|o os IH]; intros fresh ims rs σ Ha Hin; [done|]. simpl in *.
  destruct (fresh !! reg_index o) as [f|] eqn:Ef; [|done]. destruct (ims !! reg_index o) as [im|] eqn:Ei; [|done].
  apply andb_true_iff in Hin as [Hin Hins].
  destruct (lookup_lt_is_Some_2 rs (reg_index o)) as [r Er].
  { rewrite <- (aa_length _ _ _ _ Ha). by eapply lookup_lt_Some. }
  pose proof (alike_op o f im r σ (aa_alike _ _ _ _ Ha _ _ _ _ Ef Ei Er) Hin) as Ho.
  unfold mem_op, spec_own_op in *. rewrite Ei, Er in *. 
  destruct (mem_prog o im) as [a im'], (spec_reg_prog o r σ) as [[a' r'] σ']. simpl in Ho, Hins.
  destruct Ho as (-> & Ha' & Eid & Hon).
  specialize (IH _ _ _ σ' (all_alike_op _ _ _ _ _ _ _ _ _ _ _ _ Ha Ef Ei Er Ha' Eid Hon) Hins).
  destruct (mem_ops os _). simpl in *. by rewrite IH.
Qed.

(** ** The chain of Paxos registers

    [makeChainUsingPaxosWor]: five acceptors with stores of their own; all
    registers of the chain share one proposer.  The clock is a parameter. *)

Definition worFactory (proposer : ProposerImpl) (worId : Z) : PaxosWriteOnceRegister :=
  makePaxosWriteOnceRegister worId proposer.

Section factory.
Context {F D : Type} `{RocksDB D} `{RocksFiles F D}.

Definition acceptor_config (now : Z) (i : nat) : RocksDbConfig := {|
  path := "/tmp/paxos_tests/paxos_acceptor_tests" +:+ pretty now +:+ "_" +:+ pretty i;
  createIfMissing := true; manualWALFlush := false; destroyIfExists := false |}.
Fixpoint open_acceptors (clock : nat → Z) (l : list nat) : M F (list (Rocks.RocksKVStoreLite D)) :=
  match l with
  | [] => mret []
  | i :: l' =>
      rocks ← provideSharedPtr (acceptor_config (clock i) i);
      kvStores ← open_acceptors clock l';
      mret ({| Rocks.rocks_ := rocks |} :: kvStores)
  end.
(** The stores of the acceptors, the proposer and the chain, whose factory is
    [worFactory] of the proposer. *)
Definition makeChainUsingPaxosWor (clock : nat → Z)
    : M F (list (Rocks.RocksKVStoreLite D) * ProposerImpl * WriteOnceRegisterChainImpl PaxosWriteOnceRegister) :=
  let members := 5%nat in
  kvStores ← open_acceptors clock (seq 0 members);
  mret (kvStores, makeProposerImpl members (Local <$> seq 0 members), Wor.makeChain).
End factory.

(** A register of the chain, with the proposer as the others left it. *)
Definition chain_register (o : reg_op) (pr : ProposerImpl) (c : WriteOnceRegisterChainImpl PaxosWriteOnceRegister)
    : option PaxosWriteOnceRegister :=
  set_proposer pr <$> om_find (reg_index o : Z) (lookup_ c).
Definition put_register (o : reg_op) r (c : WriteOnceRegisterChainImpl PaxosWriteOnceRegister)
    : WriteOnceRegisterChainImpl PaxosWriteOnceRegister :=
  mkChain (worId_ c) (om_set (reg_index o : Z) r (lookup_ c)).

Section chain_run.
Context {K : Type} `{KVStoreLite K} `{PaxosCodec}.
Fixpoint run_chain_ops (me : nat) (os : list reg_op) (pr : ProposerImpl)
    (c : WriteOnceRegisterChainImpl PaxosWriteOnceRegister) (w : PaxosWorld K) : list (outcome reg_result) :=
  match os with
  | [] => []
  | o :: os' =>
      match chain_register o pr c with
      | None => Throw NullPointer :: run_chain_ops (S me) os' pr c w
      | Some r =>
          match interp (reply me) (reg_prog o r) w with
          | (Ret (a, r'), w') => a :: run_chain_ops (S me) os' (proposer_ r') (put_register o r' c) w'
          | (Throw e, w') => Throw e :: run_chain_ops (S me) os' pr c w'
          | (Block, w') => Block :: run_chain_ops (S me) os' pr c w'
          end
      end
  end.
End chain_run.
Fixpoint spec_chain_ops (os : list reg_op) (pr : ProposerImpl)
    (c : WriteOnceRegisterChainImpl PaxosWriteOnceRegister) σ : list (outcome reg_result) :=
  match os with
  | [] => []
  | o :: os' =>
      match chain_register o pr c with
      | None => Throw NullPointer :: spec_chain_ops os' pr c σ
      | Some r =>
          let '(a, r', σ') := spec_reg_prog o r σ in
          Ret a :: spec_chain_ops os' (proposer_ r') (put_register o r' c) σ'
      end
  end.

(** ** Theorems *)

Section theorems.
Context {K : Type} `{KVStoreLaws K} `{PaxosCodecLaws}.
Context (n : nat) (m : Z).
Implicit Types (w : PaxosWorld K).

Lemma chain_ops_run me os pr c σ w :
  1 ≤ m ≤ n → all_acceptors n m pr → quiet n σ w →
  run_chain_ops me os pr c w = spec_chain_ops os pr c σ.
Proof.
  intros Hm. revert me pr c σ w. induction os as [|o os IH]; intros me pr c σ w Hpr Hw; [done|].
  cbn [run_chain_ops spec_chain_ops]. destruct (chain_register o pr c) as [r|] eqn:Er; [|f_equal; by eapply IH].
  apply fmap_Some in Er as (r0 & _ & ->).
  pose proof (reg_prog_run n m Hm me o (set_proposer pr r0) σ w Hpr Hw) as Ho.
  destruct (spec_reg_prog o _ σ) as [[a r'] σ']. destruct Ho as (w' & -> & Hw' & Hr'). f_equal. by apply IH.
Qed.

(** The world before the first request. *)
Definition fresh_world w : Prop := initial n w ∧ Forall kv_healthy (p_acceptors w).

Lemma fresh_quiet w : fresh_world w → quiet n new_instance w ∧ sent_first w.
Proof.
  intros [(Hl & Hi & _ & Hd & _) Hh]. split.
  - split; [done|]. intros a k Hk. split; [by eapply Forall_lookup_1|]. split; [|by eapply Hi].
    intros id. exists (new_instance id). split; [by eapply Hi|done].
  - intros j. rewrite Hd. by intros ?%elem_of_nil.
Qed.

(** C35: Registers are one record per instance: where every proposer reaches all
    acceptors through local handles, its majority is at most their number, and
    every request is answered before the next, a run of locks, writes and reads
    on any registers - with a proposer each, as [makePaxosWor] makes them, or
    sharing proposers, as those of [makeChainUsingPaxosWor] do - returns with
    the answers of a specification that keeps one record per instance (and the
    proposers' memory of their last prepare), and leaves every acceptor with
    these records; the run is an execution of the system. *)
Theorem registers_refine_instances os R σ w :
  1 ≤ m ≤ n → all_reliable n m R → quiet n σ w → Forall (has_register R) os → sent_first w →
  let '(al, R', σ') := spec_reg_ops os R σ in
  ∃ w' ts, run_reg_ops 0 os R w = (al, R', w') ∧ quiet n σ' w' ∧
    rtc (sys_step exec always network reg_client) (w, []) (w', ts).
Proof. intros Hm HR Hw Hos Hs. exact (reg_ops_run n m Hm os R σ w [] HR Hw Hos Hs). Qed.

(** The registers that [makePaxosWor] makes, each with a proposer of its own,
    where the registry has the acceptors of this process. *)
Definition factory_registers (ids : list Z) : list PaxosWriteOnceRegister :=
  worFactory (makeProposerImpl n (Local <$> seq 0 n)) <$> ids.

Lemma factory_made names reg ids rs :
  length names = n → (∀ i name, names !! i = Some name → getAcceptor name reg = Ret (Local i)) →
  collect (map (λ id, makePaxosWor id names (Some reg)) ids) = Ret rs →
  rs = factory_registers ids.
Proof.
  intros Hn Hreg.
  assert (Ec : collect (map (λ id, getAcceptor id reg) names) = Ret (Local <$> seq 0 n)).
  { rewrite <- Hn. assert (Hgen : ∀ k, (∀ i name, names !! i = Some name → getAcceptor name reg = Ret (Local (k + i))) →
      collect (map (λ id, getAcceptor id reg) names) = Ret (Local <$> seq k (length names))).
    { clear Hreg Hn. induction names as [|x l IH]; intros k Hk; [done|]. simpl.
      rewrite (Hk 0%nat x eq_refl), (IH (S k)); [by rewrite Nat.add_0_r|].
      intros i name Hi. rewrite (Hk (S i) name Hi). f_equal. f_equal. lia. }
    by apply Hgen. }
  assert (Em : ∀ id, makePaxosWor id names (Some reg) =
      Ret (worFactory (makeProposerImpl n (Local <$> seq 0 n)) id)).
  { intros id. unfold makePaxosWor. by rewrite Ec, Hn. }
  unfold factory_registers. revert rs. induction ids as [|id ids IH]; intros rs; cbn [map collect];
    [by intros [= <-]|].
  rewrite Em. destruct (collect (map _ ids)) as [l| |] eqn:El; [|done..]. intros [= <-].
  by rewrite (IH l eq_refl).
Qed.

Lemma factory_alike ids : (0 < n)%nat → NoDup ids → Forall (λ id, 0 ≤ id) ids →
  all_alike (replicate (length ids) false) (replicate (length ids) makeInMemoryWriteOnceRegister)
    (factory_registers ids) new_instance.
Proof.
  intros Hn Hnd Hids. unfold factory_registers. split.
  - by rewrite length_replicate, length_fmap.
  - rewrite <- list_fmap_compose. by apply NoDup_fmap_2; [apply _|].
  - intros k f im r [-> _]%lookup_replicate [-> _]%lookup_replicate Hr.
    apply list_lookup_fmap_Some in Hr as (id & -> & Hid).
    split; simpl; try done; try lia.
    + exact (Forall_lookup_1 _ _ _ _ Hids Hid).
    + destruct n; [lia|done].
Qed.

Lemma factory_reliable ids : all_reliable n n (own_proposers (factory_registers ids)).
Proof.
  unfold all_reliable, own_proposers, factory_registers. simpl. rewrite <- list_fmap_compose.
  apply Forall_fmap, Forall_true. intros id. split; [done|done|by left].
Qed.

Lemma factory_has ids os :
  Forall (λ o, reg_index o < length ids)%nat os →
  Forall (has_register (own_proposers (factory_registers ids))) os.
Proof.
  intros Hos. eapply Forall_impl; [exact Hos|]. intros o Ho. apply own_has.
  unfold factory_registers. by rewrite length_fmap.
Qed.

(** A run from the start, on registers of the factory. *)
Lemma factory_run ids os w :
  (0 < n)%nat → fresh_world w → Forall (λ o, reg_index o < length ids)%nat os →
  (run_reg_ops 0 os (own_proposers (factory_registers ids)) w).1.1 =
    spec_own_ops os (factory_registers ids) new_instance.
Proof.
  intros Hn Hw Hos. destruct (fresh_quiet w Hw) as [Hq Hs]. rewrite <- spec_own.
  pose proof (reg_ops_run n n ltac:(lia) os _ new_instance w [] (factory_reliable ids) Hq
    (factory_has ids os Hos) Hs) as Hr.
  destruct (spec_reg_ops os _ new_instance) as [[al rs'] σ'].
  destruct Hr as (w' & ts & E & _). change (length []) with 0%nat in E. by rewrite E.
Qed.

(** C38: Paxos registers are in-memory registers: the registers that
    [makePaxosWor] makes of new instances, one proposer each, answer as registers
    in memory do, as long as a lock is used for at most one write, the registry
    gives the acceptors of this process, and every request is answered before
    the next.  (Registers of [makeChainUsingPaxosWor], which share one proposer,
    do not: [shared_proposer_mixes].) *)
Theorem paxos_is_in_memory names reg ids rs os w :
  length names = n → (0 < n)%nat → fresh_world w →
  (∀ i name, names !! i = Some name → getAcceptor name reg = Ret (Local i)) →
  NoDup ids → Forall (λ id, 0 ≤ id) ids →
  collect (map (λ id, makePaxosWor id names (Some reg)) ids) = Ret rs →
  all_in_turn os (replicate (length ids) false) (replicate (length ids) makeInMemoryWriteOnceRegister) = true →
  Forall (λ o, reg_index o < length ids)%nat os →
  (run_reg_ops 0 os (own_proposers rs) w).1.1 =
    (mem_ops os (replicate (length ids) makeInMemoryWriteOnceRegister)).1.
Proof.
  intros Hlen Hn Hw Hreg Hnd Hids Hrs Hin Hos. rewrite (factory_made names reg ids rs Hlen Hreg Hrs).
  rewrite (all_alike_ops _ _ _ _ _ (factory_alike ids Hn Hnd Hids) Hin). by apply factory_run.
Qed.

Definition twice_written (x y : string) : list reg_op :=
  [RegLock 0; RegWrite 0 1 x; RegRead 0; RegWrite 0 1 y; RegRead 0].
Lemma twice_written_spec id x y : (0 < n)%nat → 0 ≤ id →
  spec_own_ops (twice_written x y) (factory_registers [id]) new_instance =
    Ret <$> [LockIs (Some 1); Written true; ReadIs (inl x); Written false; ReadIs (inl y)].
Proof.
  intros Hn Hid. unfold factory_registers. destruct n as [|n']; [lia|].
  assert (Eb : ballot_le {| major_id := id; minor_id := 1 |} {| major_id := -1; minor_id := -1 |} = false).
  { apply not_true_iff_false. rewrite ballot_le_spec. simpl. lia. }
  assert (El : ballot_lt {| major_id := id; minor_id := 1 |} {| major_id := id; minor_id := 1 |} = false).
  { apply not_true_iff_false. rewrite ballot_lt_spec. lia. }
  unfold twice_written, spec_own_ops, spec_own_op, spec_reg_prog, spec_lock, spec_write, spec_read, ballot_of, set_record.
  cbn -[ballot_le ballot_lt decide wrap64]. change (wrap64 (0 + 1)) with 1. rewrite Eb.
  repeat (cbn -[ballot_le ballot_lt decide wrap64];
    first [rewrite El|rewrite (decide_True (P := pretty id = pretty id)) by done]).
  reflexivity.
Qed.

(** A lock that is used twice: a write that failed has overwritten the
    register. *)
Theorem used_lock_rewrites id x y w :
  (0 < n)%nat → fresh_world w → 0 ≤ id →
  (run_reg_ops 0 (twice_written x y) (own_proposers (factory_registers [id])) w).1.1 =
    Ret <$> [LockIs (Some 1); Written true; ReadIs (inl x); Written false; ReadIs (inl y)].
Proof.
  intros Hn Hw Hid. rewrite <- (twice_written_spec id x y Hn Hid). apply factory_run; [done|done|].
  by repeat constructor.
Qed.
End theorems.

(** *** The chain *)

Section chain_theorems.
Context {F D : Type} `{HD : RocksDBLaws D} `{HF : RocksFiles F D} `{PaxosCodecLaws}.

Lemma open_acceptors_length clock l f kvStores f' :
  open_acceptors clock l f = (Ret kvStores, f') → length kvStores = length l.
Proof.
  revert f kvStores. induction l as [|i l IH]; intros f kvStores; simpl; [by intros [= <- _]|].
  unfold mbind, M_bind. destruct (provideSharedPtr _ f) as [[db| |] f1]; [|done..].
  destruct (open_acceptors clock l f1) as [[ks| |] f2] eqn:E; [|done..]. intros [= <- ->].
  simpl. f_equal. by eapply IH.
Qed.

(** The stores of the chain hold nothing: the world before the first request. *)
Definition new_stores (kvStores : list (Rocks.RocksKVStoreLite D)) : Prop :=
  Forall (λ k, kv_healthy k ∧ kv_contents k = []) kvStores.
Definition chain_world (kvStores : list (Rocks.RocksKVStoreLite D)) : PaxosWorld (Rocks.RocksKVStoreLite D) :=
  mkPaxosWorld kvStores [] [] [].

Lemma chain_factory clock f kvStores proposer chain f' :
  makeChainUsingPaxosWor clock f = (Ret (kvStores, proposer, chain), f') → new_stores kvStores →
  proposer = makeProposerImpl 5 (Local <$> seq 0 5) ∧ chain = Wor.makeChain ∧ fresh_world 5 (chain_world kvStores).
Proof.
  unfold makeChainUsingPaxosWor, mbind, M_bind.
  destruct (open_acceptors clock _ f) as [[ks| |] f1] eqn:E; [|done..]. intros [= -> <- <- _] Hks.
  split_and!; [done..|]. split.
  - split_and!; [by eapply open_acceptors_length in E| |done..].
    intros a k Hk i. destruct (Forall_lookup_1 _ _ _ _ Hks Hk) as [_ Ec]. unfold instance. by rewrite Ec.
  - eapply Forall_impl; [exact Hks|]. by intros k [? _].
Qed.

(** Two registers in use: the second is written, the first locked, the second
    locked again, and the first written. *)
Definition mixed (x y : string) : list reg_op :=
  [RegLock 2; RegWrite 2 1 y; RegLock 1; RegLock 2; RegWrite 1 1 x; RegRead 1].

(** The registers of the chain share their proposer, and with it what the last
    prepare selected: a write to one register that returns true has written the
    value of another one. *)
Theorem shared_proposer_mixes clock f kvStores proposer chain f' x y :
  makeChainUsingPaxosWor clock f = (Ret (kvStores, proposer, chain), f') → new_stores kvStores →
  let c := (Wor.append (worFactory proposer) (Wor.append (worFactory proposer) chain).2).2 in
  run_chain_ops 0 (mixed x y) proposer c (chain_world kvStores) =
    Ret <$> [LockIs (Some 1); Written true; LockIs (Some 1); LockIs (Some 2); Written true; ReadIs (inl y)].
Proof.
  intros E Hks. destruct (chain_factory _ _ _ _ _ _ E Hks) as (-> & -> & Hw). cbv zeta.
  destruct (fresh_quiet 5 _ Hw) as [Hq _].
  rewrite (chain_ops_run 5 5 _ _ _ _ new_instance); [by vm_compute|done| |done].
  split; [done|done|by left].
Qed.

(** One register at a time the chain works: a round locks a new register,
    writes it and reads it. *)
Definition round_ops (k : nat) (x : string) : list reg_op := [RegLock k; RegWrite k 1 x; RegRead k].

Lemma spec_round_register (id : Z) x pr σ :
  let r := worFactory pr id in
  0 ≤ id → prepareAcceptors_ pr ≠ [] → σ (pretty id) = new_instance (pretty id) →
  ∃ r' σ1 σ2, spec_lock r σ = (Some 1, r', σ1) ∧ spec_write 1 x r' σ1 = (true, σ2) ∧
    spec_read r' σ2 = inl x ∧ prepareAcceptors_ (proposer_ r') = prepareAcceptors_ pr ∧
    only (pretty id) σ σ2.
Proof.
  intros r Hid Hpr Hσ. unfold spec_lock, spec_write, spec_read.
  assert (Eb : ballot_le (ballot_of r 1) {| major_id := -1; minor_id := -1 |} = false).
  { apply not_true_iff_false. rewrite ballot_le_spec. simpl. lia. }
  assert (El : ballot_lt (ballot_of r 1) (ballot_of r 1) = false).
  { apply not_true_iff_false. rewrite ballot_lt_spec. lia. }
  change (lockId_ (next_lock r)) with 1. change (registerId_ r) with (pretty id). rewrite Hσ.
  change (promised_ballot_id (new_instance _)) with {| major_id := -1; minor_id := -1 |}. rewrite Eb.
  destruct (prepareAcceptors_ pr) as [|a l] eqn:Eacc; [done|].
  do 3 eexists. split; [reflexivity|].
  cbn [set_proposer set_selectedProposal set_proposeAcceptors proposer_ proposeAcceptors_ registerId_ next_lock r
    worFactory makePaxosWriteOnceRegister prepareAcceptors_]. rewrite Eacc.
  assert (Es : set_record (pretty id) (set_promised (ballot_of r 1) (new_instance (pretty id))) σ (pretty id) =
    set_promised (ballot_of r 1) (new_instance (pretty id))) by (unfold set_record; by rewrite decide_True).
  rewrite Es. cbn [promised_ballot_id set_promised].
  change (proposal_ballot _) with (ballot_of r 1). rewrite El.
  split; [reflexivity|]. unfold set_record. rewrite (decide_True (P := pretty id = pretty id)) by done.
  split_and!; [done|done|]. intros i Hi. rewrite !decide_False by done. done.
Qed.

Lemma spec_round (k : nat) x pr pr0 c σ os :
  prepareAcceptors_ pr ≠ [] → om_find (k : Z) (lookup_ c) = Some (worFactory pr0 k) →
  σ (pretty (k : Z)) = new_instance (pretty (k : Z)) →
  ∃ pr' c' σ', spec_chain_ops (round_ops k x ++ os) pr c σ =
      (Ret <$> [LockIs (Some 1); Written true; ReadIs (inl x)]) ++ spec_chain_ops os pr' c' σ' ∧
    prepareAcceptors_ pr' = prepareAcceptors_ pr ∧
    (∀ j : Z, j ≠ k → om_find j (lookup_ c') = om_find j (lookup_ c)) ∧ only (pretty (k : Z)) σ σ'.
Proof.
  intros Hpr Hk Hσ.
  destruct (spec_round_register k x pr σ ltac:(lia) Hpr Hσ) as (r' & σ1 & σ2 & E1 & E2 & E3 & Epr & Hon).
  eexists (proposer_ r'), _, σ2. split; [|split_and!; [done| |done]].
  - unfold round_ops. cbn [app spec_chain_ops]. unfold chain_register at 1. cbn [reg_index]. rewrite Hk.
    cbn [fmap option_fmap option_map spec_reg_prog].
    change (set_proposer pr (worFactory pr0 k)) with (worFactory pr k). rewrite E1.
    unfold chain_register at 1, put_register at 1. cbn [reg_index lookup_]. rewrite om_find_set_eq.
    cbn [fmap option_fmap option_map spec_reg_prog]. rewrite set_proposer_id, E2.
    unfold chain_register at 1, put_register at 1. cbn [reg_index lookup_]. rewrite om_find_set_eq.
    cbn [fmap option_fmap option_map spec_reg_prog]. rewrite set_proposer_id, E3. reflexivity.
  - intros j Hj. unfold put_register. cbn [reg_index lookup_]. by rewrite !om_find_set_ne.
Qed.

Fixpoint rounds_from (k : nat) (xs : list string) : list reg_op :=
  match xs with [] => [] | x :: xs' => round_ops k x ++ rounds_from (S k) xs' end.
Definition round_results (xs : list string) : list (outcome reg_result) :=
  concat ((λ x, Ret <$> [LockIs (Some 1); Written true; ReadIs (inl x)]) <$> xs).

Lemma spec_rounds k xs pr pr0 c σ :
  prepareAcceptors_ pr ≠ [] →
  (∀ j, (k ≤ j < k + length xs)%nat → om_find (j : Z) (lookup_ c) = Some (worFactory pr0 j) ∧
     σ (pretty (j : Z)) = new_instance (pretty (j : Z))) →
  spec_chain_ops (rounds_from k xs) pr c σ = round_results xs.
Proof.
  revert k pr c σ. induction xs as [|x xs IH]; intros k pr c σ Hpr Hj; [done|]. cbn [rounds_from length] in *.
  destruct (Hj k) as [Hk Hσ]; [lia|].
  destruct (spec_round k x pr pr0 c σ (rounds_from (S k) xs) Hpr Hk Hσ) as (pr' & c' & σ' & -> & Epr & Hc & Hon).
  rewrite IH with (pr := pr') (c := c') (σ := σ'); [done|by rewrite Epr|].
  intros j Hjk. destruct (Hj j) as [Hf Hs]; [lia|]. rewrite Hc by lia. split; [done|].
  rewrite Hon; [done|]. intros E%(inj pretty). lia.
Qed.

(** The chain after [j] appends. *)
Definition appended (proposer : ProposerImpl) (j : nat) : WriteOnceRegisterChainImpl PaxosWriteOnceRegister :=
  Nat.iter j (λ c, (Wor.append (worFactory proposer) c).2) Wor.makeChain.
Lemma appended_spec proposer (j : nat) : j ≤ i64_max →
  worId_ (appended proposer j) = j ∧
  ∀ id, om_find id (lookup_ (appended proposer j)) = if decide (1 ≤ id ≤ j) then Some (worFactory proposer id) else None.
Proof.
  induction j as [|j IH]; intros Hj; [split; [done|]; intros id; simpl; case_decide; [lia|done]|].
  destruct IH as [Ew Ef]; [lia|]. unfold appended. rewrite Nat.iter_succ. fold (appended proposer j).
  unfold Wor.append. cbv zeta. rewrite Ew, wrap64_id by (apply in_i64_spec; unfold i64_min, i64_max in *; lia).
  cbn [snd worId_ lookup_]. split; [lia|]. intros id. unfold om_emplace. rewrite Ef, decide_False by lia. cbn [snd].
  rewrite om_find_set. destruct (decide (j + 1 = id)) as [<-|Hne].
  - by rewrite decide_True by lia.
  - rewrite Ef. destruct (decide (1 ≤ id ≤ j)), (decide (1 ≤ id ≤ S j)); lia || done.
Qed.

(** Registers that are written one after the other hold what was written to
    them, although they share the proposer. *)
Theorem chain_rounds_write clock f kvStores proposer chain f' xs :
  makeChainUsingPaxosWor clock f = (Ret (kvStores, proposer, chain), f') → new_stores kvStores →
  length xs ≤ i64_max →
  run_chain_ops 0 (rounds_from 1 xs) proposer (appended proposer (length xs)) (chain_world kvStores) =
    round_results xs.
Proof.
  intros E Hks Hlen. destruct (chain_factory _ _ _ _ _ _ E Hks) as (-> & -> & Hw).
  destruct (fresh_quiet 5 _ Hw) as [Hq _].
  rewrite (chain_ops_run 5 5 _ _ _ _ new_instance); [|done|split; [done|done|by left]|done].
  apply (spec_rounds _ _ _ (makeProposerImpl 5 (Local <$> seq 0 5))); [done|]. intros j Hj. split; [|done].
  destruct (appended_spec (makeProposerImpl 5 (Local <$> seq 0 5)) (length xs) Hlen) as [_ ->].
  by rewrite decide_True by lia.
Qed.
End chain_theorems.

(** *** Three acceptors *)

#[local] Existing Instance bits_codec.

Lemma empty_fresh : fresh_world 3 empty_world.
Proof. split; [apply empty_initial|by repeat constructor]. Qed.

(** Two registers: the first is written and locked again, with the second in
    between. *)
Definition two_registers : list reg_op :=
  [RegLock 0; RegWrite 0 1 "x"; RegLock 1; RegRead 1; RegLock 0; RegWrite 0 2 "y"; RegRead 0; RegWrite 1 1 "z"].
Definition two_results : list (outcome reg_result) := Ret <$>
  [LockIs (Some 1); Written true; LockIs (Some 1); ReadIs (inr NOT_WRITTEN); LockIs (Some 2); Written false;
   ReadIs (inl "x"%string); Written true].

(** The first register shares its proposer with the second: its write is the
    value the second one's prepare selected. *)
Definition shared_registers : Registers :=
  mkRegisters (factory_registers 3 [7; 8]) [0; 0]%nat [makeProposerImpl 3 (Local <$> seq 0 3)].
Definition shared_ops : list reg_op :=
  [RegLock 1; RegWrite 1 1 "y"; RegLock 0; RegLock 1; RegWrite 0 1 "x"; RegRead 0].

Lemma registers_refine_instances_witness :
  ∃ w' ts, (run_reg_ops 0 shared_ops shared_registers empty_world).1.1 =
      Ret <$> [LockIs (Some 1); Written true; LockIs (Some 1); LockIs (Some 2); Written true;
               ReadIs (inl "y"%string)] ∧
    rtc (sys_step exec always network reg_client) (empty_world, []) (w', ts).
Proof.
  destruct (fresh_quiet 3 _ empty_fresh) as [Hq Hs].
  assert (HR : all_reliable 3 3 shared_registers) by (repeat constructor).
  assert (Hos : Forall (has_register shared_registers) shared_ops) by (repeat constructor; by eexists).
  pose proof (registers_refine_instances 3 3 shared_ops shared_registers new_instance empty_world
    ltac:(lia) HR Hq Hos Hs) as Hr.
  set (res := Ret <$> _).
  assert (E : (spec_reg_ops shared_ops shared_registers new_instance).1.1 = res)
    by (vm_compute; reflexivity).
  destruct (spec_reg_ops _ _ new_instance) as [[al R'] σ']. simpl in E. subst al.
  destruct Hr as (w' & ts & Er & _ & Hst). exists w', ts. split; [exact (f_equal (λ x, x.1.1) Er)|exact Hst].
Defined.

Definition three_names : list string := ["a"; "b"; "c"]%string.
Definition three_acceptors : gmap string acceptor :=
  {["a"%string := Local 0; "b"%string := Local 1; "c"%string := Local 2]}.

Lemma paxos_is_in_memory_witness :
  (run_reg_ops 0 two_registers (own_proposers (factory_registers 3 [7; 8])) empty_world).1.1 = two_results.
Proof.
  rewrite (paxos_is_in_memory 3 three_names three_acceptors [7; 8] (factory_registers 3 [7; 8])
    two_registers empty_world); [by vm_compute|done|lia|apply empty_fresh| | | |done| |].
  - intros [|[|[|i]]] name Hi; simplify_eq/=; reflexivity.
  - repeat constructor; set_solver.
  - repeat constructor; lia.
  - by vm_compute.
  - repeat constructor.
Defined.

Lemma used_lock_rewrites_witness :
  (run_reg_ops 0 (twice_written "x" "y") (own_proposers (factory_registers 3 [7])) empty_world).1.1 =
    Ret <$> [LockIs (Some 1); Written true; ReadIs (inl "x"); Written false; ReadIs (inl "y")]%string.
Proof. apply (used_lock_rewrites 3 7); [lia|apply empty_fresh|lia]. Defined.

#[local] Instance new_files : RocksFiles () MemDB :=
  {| DestroyDB _ f := (StatusOk, f); DB_Open _ f := (StatusOk, Some empty_db, f) |}.
Definition five_stores : list (Rocks.RocksKVStoreLite MemDB) := replicate 5 empty_store.
Definition chain_proposer : ProposerImpl := makeProposerImpl 5 (Local <$> seq 0 5).
Definition noon (i : nat) : Z := 12 + i.

Lemma chain_made : makeChainUsingPaxosWor noon () = (Ret (five_stores, chain_proposer, Wor.makeChain), ()) ∧
  new_stores five_stores.
Proof. split; [by vm_compute|by repeat constructor]. Qed.

Lemma shared_proposer_mixes_witness :
  run_chain_ops 0 (mixed "a" "b") chain_proposer (appended chain_proposer 2) (chain_world five_stores) =
    Ret <$> [LockIs (Some 1); Written true; LockIs (Some 1); LockIs (Some 2); Written true; ReadIs (inl "b"%string)].
Proof. destruct chain_made as [E Hks]. exact (shared_proposer_mixes noon () _ _ _ () "a" "b" E Hks). Defined.

Lemma chain_rounds_write_witness :
  run_chain_ops 0 (rounds_from 1 ["a"; "b"]%string) chain_proposer (appended chain_proposer 2) (chain_world five_stores) =
    round_results ["a"; "b"]%string.
Proof.
  destruct chain_made as [E Hks].
  apply (chain_rounds_write noon () _ _ _ () ["a"; "b"]%string E Hks). unfold i64_max. simpl. lia.
Defined.
