(* ===== verification/ReplicatedMetadata.v ===== *)
(** * The replicated metadata store

    [src/statemachine/MetadataStoreApplicator.h],
    [src/statemachine/MetadataStoreStateMachine.h] and
    [src/log/impl/PersistentMetadataStore.h]: every node keeps a metadata store
    of its own and replays into it the configs of a chain of Paxos write-once
    registers, one register after the other.  A node is used by one coroutine at
    a time; nodes run at the same time, over the same acceptors.

    Whatever the nodes do, their stores are results of one common sequence of
    configs: of two nodes, one has what the other has, or that and more. *)

From stdpp Require Import base gmap sets list strings relations pretty.
From Stdlib Require Import ZArith Lia Eqdep.
From S2P Require Import Prelude LogTypes Metadata KVStore RocksNanoLog Replica Program Paxos Proposer PaxosSafety.

Open Scope Z_scope.

(** The serialization generated from [MetadataConfig.proto]. *)
Class MetadataConfigCodec := {
  Config_SerializeAsString : MetadataConfig → string;
  Config_ParseFromString : string → option MetadataConfig }.
Class MetadataConfigCodecLaws `{MetadataConfigCodec} :=
  parse_config c : Config_ParseFromString (Config_SerializeAsString c) = Some c.

(** ** MetadataStoreApplicator *)

Inductive ApplicationResult :=
  | Applied
  | ApplicationErrors (e : exn)
  | ExceptionWrapper (e : exn).

Section machine.
Context {MS : Set} `{MetadataStoreOps MS} `{MetadataConfigCodec}.
(** The registry of acceptors of the process; a null pointer is [None]. *)
Context (registry_ : option (gmap string acceptor)).

Definition applicator_apply (metadataConfig : MetadataConfig) : M MS ApplicationResult := λ d,
  match ms_compareAndAppendRange metadataConfig d with
  | (Ret _, d') => (Ret Applied, d')
  | (Throw OptimisticConcurrencyException, d') =>
      (Ret (ApplicationErrors OptimisticConcurrencyException), d')
  | (Throw e, d') => (Ret (ExceptionWrapper e), d')
  | (Block, d') => (Block, d')
  end.

(** [makeMetadataStoreStateMachine]'s [currentConfigSupplier] *)
Definition currentConfigSupplier : M MS MetadataConfig :=
  value ← ms_getCurrentVersionId;
  optionalConfig ← ms_getConfig value;
  match optionalConfig with
  | Some c => mret c
  | None => throw (RuntimeError "metadata config not found")
  end.

(** ** MetadataStoreStateMachine, with the store it applies to *)

Record MetadataStoreStateMachine := mkMachine {
  store_ : MS;
  currentConfig_ : MetadataConfig;
  lastAppliedWorId_ : Z }.

Definition makeMetadataStoreStateMachine (bootstrapConfig : MetadataConfig) (metadataStore : MS)
    : MetadataStoreStateMachine :=
  mkMachine metadataStore bootstrapConfig (start_index bootstrapConfig).

Definition on_store {A} : M MS A → M MetadataStoreStateMachine A :=
  zoom store_ (λ d s, mkMachine d (currentConfig_ s) (lastAppliedWorId_ s)).

Definition apply (config : MetadataConfig) : M MetadataStoreStateMachine ApplicationResult :=
  on_store (applicator_apply config).

(** Applying the value of a register and moving on to the next one. *)
Definition apply_next (nextWorId : Z) (config : MetadataConfig)
    : M MetadataStoreStateMachine ApplicationResult :=
  result ← apply config;
  current ← on_store currentConfigSupplier;
  _ ← modify (λ s, mkMachine (store_ s) current nextWorId);
  mret result.

(** The register after the last applied one. *)
Definition next_wor (s : MetadataStoreStateMachine) : outcome PaxosWriteOnceRegister :=
  makePaxosWor (lastAppliedWorId_ s + 1)
    (map replica_id (replica_set_config (currentConfig_ s))) registry_.

Abbreviation machine A := (sprog pax_call MetadataStoreStateMachine A).

(** A step without calls, and a register as a local variable. *)
Definition pure {S A} (m : M S A) : sprog pax_call S A := λ s, Done (Ret (m s)).
Definition with_local {S T A} (t : T) (m : sprog pax_call (S * T) A) : sprog pax_call S A := λ s,
  r ← m (s, t); mret (r.1, r.2.1).
Definition on_wor {S A} : sprog pax_call PaxosWriteOnceRegister A →
    sprog pax_call (S * PaxosWriteOnceRegister) A := szoom snd (λ r s, (s.1, r)).
Definition on_machine {S A} : M S A → sprog pax_call (S * PaxosWriteOnceRegister) A := λ m,
  szoom fst (λ x s, (x, s.2)) (pure m).

(** The inner loop of [append], for at most [fuel] rounds; [inr] is its early
    return. *)
Fixpoint wor_iteration (fuel : nat) (payload : string) (nextWorId : Z) (successfullyWritten : bool)
    : sprog pax_call (MetadataStoreStateMachine * PaxosWriteOnceRegister)
        (option (bool * ApplicationResult + ApplicationResult)) :=
  match fuel with
  | O => mret None
  | S fuel' =>
      lockId ← on_wor lock;
      match lockId with
      | None => wor_iteration fuel' payload nextWorId successfullyWritten
      | Some l =>
          writeResponse ← on_wor (write l payload);
          let successfullyWritten := successfullyWritten || writeResponse in
          readValue ← on_wor read;
          match readValue with
          | inr _ => wor_iteration fuel' payload nextWorId successfullyWritten
          | inl worValue =>
              match Config_ParseFromString worValue with
              | None => mret (Some (inr (ExceptionWrapper (RuntimeError "protobuf parse error"))))
              | Some metadataConfig =>
                  result ← on_machine (apply_next nextWorId metadataConfig);
                  mret (Some (inl (successfullyWritten || bool_decide (worValue = payload), result)))
              end
          end
      end
  end.

Fixpoint append_loop (fuel : nat) (payload : string) : machine (option ApplicationResult) :=
  match fuel with
  | O => mret None
  | S fuel' =>
      s ← sget;
      wor ← lift (Done (next_wor s));
      r ← with_local wor (wor_iteration fuel' payload (lastAppliedWorId_ s + 1) false);
      match r with
      | None => mret None
      | Some (inr result) => mret (Some result)
      | Some (inl (true, result)) => mret (Some result)
      | Some (inl (false, _)) => append_loop fuel' payload
      end
  end.

Definition append (fuel : nat) (config : MetadataConfig) : machine (option ApplicationResult) :=
  append_loop fuel (Config_SerializeAsString config).

Fixpoint sync (fuel : nat) : machine (option ()) :=
  match fuel with
  | O => mret None
  | S fuel' =>
      s ← sget;
      wor ← lift (Done (next_wor s));
      readResult ← with_local wor (on_wor read);
      match readResult with
      | inr NOT_WRITTEN => mret (Some ())
      | inr UNKNOWN => sync fuel'
      | inl worValue =>
          match Config_ParseFromString worValue with
          | None => sthrow (RuntimeError "protobuf parse error")
          | Some metadataConfig =>
              _ ← pure (apply_next (lastAppliedWorId_ s + 1) metadataConfig);
              sync fuel'
          end
      end
  end.

(** ** PersistentMetadataStore; [None] when the fuel runs out. *)

Definition synced {A} (fuel : nat) (m : M MS A) : machine (option A) :=
  r ← sync fuel;
  match r with
  | None => mret None
  | Some _ => a ← pure (on_store m); mret (Some a)
  end.
Definition getConfig (fuel : nat) (versionId : Z) : machine (option (option MetadataConfig)) :=
  synced fuel (ms_getConfig versionId).
Definition getConfigUsingLogId (fuel : nat) (logId : Z) : machine (option (option MetadataConfig)) :=
  synced fuel (ms_getConfigUsingLogId logId).
Definition getCurrentVersionId (fuel : nat) : machine (option Z) :=
  synced fuel ms_getCurrentVersionId.
Definition compareAndAppendRange (fuel : nat) (newMetadataConfig : MetadataConfig)
    : machine (option ()) :=
  result ← append fuel newMetadataConfig;
  match result with
  | None => mret None
  | Some Applied => mret (Some ())
  | Some (ApplicationErrors e) => sthrow e
  | Some (ExceptionWrapper e) => sthrow (WrappedException e)
  end.

(** The calls on a node. *)
Inductive node_call :=
  | CallGetConfig (fuel : nat) (versionId : Z)
  | CallGetConfigUsingLogId (fuel : nat) (logId : Z)
  | CallGetCurrentVersionId (fuel : nat)
  | CallCompareAndAppendRange (fuel : nat) (c : MetadataConfig).
Inductive node_answer :=
  | AnswerConfig (c : option (option MetadataConfig))
  | AnswerVersion (v : option Z)
  | AnswerInstalled (x : option ()).

Definition serve_call (c : node_call) : machine node_answer :=
  match c with
  | CallGetConfig fuel v => x ← getConfig fuel v; mret (AnswerConfig x)
  | CallGetConfigUsingLogId fuel l => x ← getConfigUsingLogId fuel l; mret (AnswerConfig x)
  | CallGetCurrentVersionId fuel => x ← getCurrentVersionId fuel; mret (AnswerVersion x)
  | CallCompareAndAppendRange fuel c => x ← compareAndAppendRange fuel c; mret (AnswerInstalled x)
  end.

(** A node answers one call after the other. *)
Fixpoint serve_calls (cs : list node_call) : machine (list (outcome node_answer)) :=
  match cs with
  | [] => mret []
  | c :: cs' => o ← sattempt (serve_call c); os ← serve_calls cs'; mret (o :: os)
  end.
End machine.
Arguments MetadataStoreStateMachine : clear implicits.

(** ** Safety: nodes with in-memory stores over [n] acceptors *)

Abbreviation Machine := (MetadataStoreStateMachine Metadata.State).

Section safety.
Context {K : Type} `{KVStoreLaws K} `{PaxosCodecLaws} `{MetadataConfigCodecLaws}.
Context (n : nat) (Hn : 0 < n) (registry : option (gmap string acceptor)).
Implicit Types (w : PaxosWorld K) (s : Machine) (d : Metadata.State) (c : MetadataConfig).

(** Configs whose replicas are the [n] acceptors. *)
Definition good c : Prop :=
  ∃ reg, registry = Some reg ∧ length (replica_set_config c) = n ∧
    collect (map (λ id, getAcceptor id reg) (map replica_id (replica_set_config c))) =
      Ret (Local <$> seq 0 n).
(** The values of registers. *)
Definition V (v : string) : Prop := ∃ c, Config_ParseFromString v = Some c ∧ good c.

Definition store_ok d : Prop :=
  ∃ ch, represents ch d ∧ ch ≠ [] ∧ Forall good ch ∧ Forall (λ c, 1 ≤ version_id c) ch.
Definition machine_ok s : Prop := store_ok (store_ s) ∧ good (currentConfig_ s).

(** The store after one more value. *)
Definition replay d (v : string) : Metadata.State :=
  match Config_ParseFromString v with
  | Some c => (Metadata.compareAndAppendRange c d).2
  | None => d
  end.

(** [s] is [s0] with the values of the registers in between. *)
Definition replayed (s0 s : Machine) w : Prop :=
  machine_ok s ∧ ∃ vs, lastAppliedWorId_ s = lastAppliedWorId_ s0 + length vs ∧
    store_ s = foldl replay (store_ s0) vs ∧
    ∀ (j : nat) v, vs !! j = Some v →
      chosen_value n n V (pretty (lastAppliedWorId_ s0 + 1 + j)) v w.

Lemma replayed_mono s0 s w w' : grows w w' → replayed s0 s w → replayed s0 s w'.
Proof.
  intros Hg (Hok & vs & ? & ? & Hv). split; [done|]. exists vs. split_and!; [done..|].
  intros j v Hj. by eapply chosen_value_mono, Hv.
Qed.

Lemma good_last c e : good c → good (set_end_index e c).
Proof. done. Qed.

Lemma supplier_ok d : store_ok d → ∃ c, currentConfigSupplier d = (Ret c, d) ∧ good c.
Proof.
  intros (ch & Hrep & Hne & Hg & Hv). destruct (chain_snoc_cases ch) as [->|(ch0 & l & ->)]; [done|].
  exists l. pose proof (represents_last _ _ Hrep) as Hlast. rewrite last_snoc in Hlast.
  destruct Hrep as (Hc & _ & Hcfg & _). destruct (configs_of_snoc ch0 l Hc) as (m & Hm & E & _).
  apply Forall_app in Hg as [_ Hg], Hv as [_ Hv]. inversion Hg; inversion Hv; subst.
  split; [|done]. unfold currentConfigSupplier. simpl. mred.
  unfold Metadata.getCurrentVersionId, Metadata.getConfig. rewrite Hlast. simpl.
  rewrite (proj2 (Z.eqb_neq _ _)) by lia. by rewrite Hcfg, E, om_find_last.
Qed.

Lemma applicator_ok d c :
  store_ok d → good c →
  ∃ r, applicator_apply c d = (Ret r, (Metadata.compareAndAppendRange c d).2) ∧
    store_ok (Metadata.compareAndAppendRange c d).2.
Proof.
  intros (ch & Hrep & Hne & Hg & Hv) Hc. unfold applicator_apply. simpl.
  destruct (chain_accepts c ch) eqn:Ea.
  - destruct (represents_append ch c d Hrep Ea) as [Eo Hrep'].
    destruct (Metadata.compareAndAppendRange c d) as [o d']. simpl in *. subst o.
    eexists. split; [done|]. exists (ch ++ [c]). split_and!; [done| | |].
    + by intros [_ ?]%app_eq_nil.
    + apply Forall_app. by split; [|constructor].
    + apply Forall_app. split; [done|]. constructor; [|done].
      destruct (chain_snoc_cases ch) as [->|(ch0 & l & ->)]; [done|].
      unfold chain_accepts in Ea. rewrite last_snoc, andb_true_iff, !Z.eqb_eq in Ea.
      apply Forall_app in Hv as [_ Hv]. inversion Hv; subst. lia.
  - rewrite (compareAndAppend_rejects ch c d Hrep Ea). eexists. split; [done|]. by exists ch.
Qed.

(** Applying the next value. *)
Lemma apply_next_replayed s0 s w v c :
  replayed s0 s w → Config_ParseFromString v = Some c → good c →
  chosen_value n n V (pretty (lastAppliedWorId_ s + 1)) v w →
  ∃ r s', apply_next (lastAppliedWorId_ s + 1) c s = (Ret r, s') ∧ replayed s0 s' w.
Proof.
  intros ([Hok Hcur] & vs & Hlast & Hst & Hvs) Hv Hc Hch.
  destruct (applicator_ok _ c Hok Hc) as (r & Ea & Hok').
  destruct (supplier_ok _ Hok') as (cur & Es & Hcur').
  exists r, (mkMachine (Metadata.compareAndAppendRange c (store_ s)).2 cur (lastAppliedWorId_ s + 1)).
  split.
  - unfold apply_next, apply, on_store. mred. rewrite Ea. simpl. rewrite Es. done.
  - split; [done|]. exists (vs ++ [v]). simpl. rewrite length_app. simpl. split_and!; [lia| |].
    + rewrite foldl_app. simpl. rewrite <- Hst. unfold replay. by rewrite Hv.
    + intros j v' [Hj|[Hle Hj]]%lookup_app_Some; [by apply Hvs|].
      apply list_lookup_singleton_Some in Hj as [Ej <-].
      replace (lastAppliedWorId_ s0 + 1 + j) with (lastAppliedWorId_ s + 1) by lia. done.
Qed.

Lemma next_wor_ok s :
  machine_ok s → ∃ r, next_wor registry s = Ret r ∧ register_ok n n r ∧
    registerId_ r = pretty (lastAppliedWorId_ s + 1).
Proof.
  intros [_ (reg & Hreg & Hlen & Hacc)]. unfold next_wor, makePaxosWor.
  rewrite Hreg, Hacc, length_map, Hlen. eexists. split; [done|]. done.
Qed.

Section thread.
Context (me : nat).
Abbreviation Method := (method exec always (inv n n V) grows others always me).

Lemma node_conseq {S A} (m : sprog pax_call S A) x (Q Q' : outcome A → S → PaxosWorld K → Prop) w :
  (∀ o x' w', grows w w' → Q o x' w' → Q' o x' w') → Method m x Q w → Method m x Q' w.
Proof. apply (method_conseq exec always (inv n n V) grows others o_grows always). Qed.

Lemma method_pure {S A} (m : M S A) x (Q : outcome A → S → PaxosWorld K → Prop) w :
  Q (m x).1 (m x).2 w → Method (pure m) x Q w.
Proof. done. Qed.
Lemma method_local {S T A} (t : T) (m : sprog pax_call (S * T) A) x
    (Q : outcome A → S → PaxosWorld K → Prop) w :
  Method m (x, t) (λ o y, Q o y.1) w → Method (with_local t m) x Q w.
Proof.
  intros Hm. apply safe_bind. eapply wp_weaken; [|exact Hm]. by intros [[o [s' t']]| |] w'.
Qed.

(** The calls on a register that is a local variable leave the node alone. *)
Lemma method_wor {A} (m : sprog pax_call PaxosWriteOnceRegister A) (s : Machine) r
    (Q : outcome A → Machine * PaxosWriteOnceRegister → PaxosWorld K → Prop) w :
  Method m r (λ o r', Q o (s, r')) w → Method (on_wor m) (s, r) Q w.
Proof. intros Hm. by apply method_zoom. Qed.

Lemma half : (n : Z) < 2 * n.
Proof. lia. Qed.

Lemma method_iteration s0 fuel payload written s r w :
  V payload → replayed s0 s w → register_ok n n r →
  registerId_ r = pretty (lastAppliedWorId_ s + 1) →
  Method (wor_iteration fuel payload (lastAppliedWorId_ s + 1) written) (s, r)
    (λ _ x w', replayed s0 x.1 w') w.
Proof.
  intros Hpay Hs. revert written r w Hs.
  induction fuel as [|fuel IH]; intros written r w Hs Hr Hid; [done|]. cbn [wor_iteration].
  apply method_bind, method_wor. eapply node_conseq; [|apply (method_lock n n V half); done].
  intros o r1 w1 Hg1 (Hr1 & Eid & Hl). apply (replayed_mono _ _ _ w1 Hg1) in Hs.
  destruct o as [[l|]|e|]; simpl; [|by apply IH; [..|by rewrite Eid]|done..].
  destruct (Hl l eq_refl) as (L & Hpre & Hmi).
  apply method_bind, method_wor. eapply node_conseq; [|by apply (method_write n n V half me r1 l L)].
  intros o r2 w2 Hg2 ->. apply (replayed_mono _ _ _ w2 Hg2) in Hs.
  destruct o as [b|e|]; simpl; [|done..].
  apply method_bind, method_wor. eapply node_conseq; [|apply (method_read n n V half)].
  intros o r3 w3 Hg3 [-> Hv]. apply (replayed_mono _ _ _ w3 Hg3) in Hs.
  destruct o as [[v|e]|e|]; simpl; [|by apply IH; [..|by rewrite Eid]|done..].
  specialize (Hv v eq_refl). rewrite Eid, Hid in Hv.
  destruct (Config_ParseFromString v) as [c|] eqn:Ev; [|by apply method_return].
  destruct (Hv (Z.le_refl _)) as [(c' & Ev' & Hc) _]. rewrite Ev in Ev'. injection Ev' as <-.
  destruct (apply_next_replayed s0 s w3 v c Hs Ev Hc Hv) as (res & s' & Ea & Hs').
  apply method_bind, method_zoom, method_pure. simpl. rewrite Ea. by apply method_return.
Qed.

Lemma method_append_loop s0 fuel payload s w :
  V payload → replayed s0 s w →
  Method (append_loop registry fuel payload) s (λ _ s' w', replayed s0 s' w') w.
Proof.
  intros Hpay. revert s w. induction fuel as [|fuel IH]; intros s w Hs; [done|]. cbn [append_loop].
  apply method_bind, method_get. cbv beta iota.
  destruct (next_wor_ok s) as (r & Er & Hr & Hid); [by destruct Hs|].
  apply method_bind, method_lift. rewrite Er. right. simpl.
  apply method_bind, method_local. eapply node_conseq; [|by apply (method_iteration s0)].
  intros o x w' _ Hx. destruct o as [[[[[] res]|res]|]|e|]; simpl; try done. by apply IH.
Qed.

Lemma method_sync s0 fuel s w :
  replayed s0 s w → Method (sync registry fuel) s (λ _ s' w', replayed s0 s' w') w.
Proof.
  revert s w. induction fuel as [|fuel IH]; intros s w Hs; [done|]. cbn [sync].
  apply method_bind, method_get. cbv beta iota.
  destruct (next_wor_ok s) as (r & Er & Hr & Hid); [by destruct Hs|].
  apply method_bind, method_lift. rewrite Er. right. simpl.
  apply method_bind, method_local, method_wor. eapply node_conseq; [|apply (method_read n n V half)].
  intros o r1 w1 Hg [-> Hv]. apply (replayed_mono _ _ _ w1 Hg) in Hs.
  destruct o as [[v|[]]|e|]; simpl; [|by apply IH|done..]. specialize (Hv v eq_refl).
  rewrite Hid in Hv. destruct (Config_ParseFromString v) as [c|] eqn:Ev; [|done].
  destruct (Hv (Z.le_refl _)) as [(c' & Ev' & Hc) _]. rewrite Ev in Ev'. injection Ev' as <-.
  destruct (apply_next_replayed s0 s w1 v c Hs Ev Hc Hv) as (res & s' & Ea & Hs').
  apply method_bind, method_pure. rewrite Ea. by apply IH.
Qed.

Lemma method_synced {A} s0 fuel (m : M Metadata.State A) s w :
  (∀ d, (m d).2 = d) → replayed s0 s w →
  Method (synced registry fuel m) s (λ _ s' w', replayed s0 s' w') w.
Proof.
  intros Hm Hs. apply method_bind. eapply node_conseq; [|by apply method_sync].
  intros [[[]|]|e|] s' w' _ Hs'; [|done..]. apply method_bind, method_pure.
  unfold on_store, zoom. specialize (Hm (store_ s')). destruct (m (store_ s')) as [o d]. simpl in *.
  subst d. assert (replayed s0 (mkMachine (store_ s') (currentConfig_ s') (lastAppliedWorId_ s')) w')
    by by destruct s'. by destruct o.
Qed.

(** The configs a node is asked to install are good. *)
Definition call_ok (x : node_call) : Prop :=
  match x with CallCompareAndAppendRange _ c => good c | _ => True end.

Lemma method_serve s0 x s w :
  call_ok x → replayed s0 s w →
  Method (serve_call registry x) s (λ _ s' w', replayed s0 s' w') w.
Proof.
  intros Hx Hs. destruct x as [f v|f l|f|f c]; simpl in *; apply method_bind.
  1-3: eapply node_conseq; [|by apply method_synced]; intros [?|?|] s' w' _ ?; by try apply method_return.
  apply (node_conseq _ _ (λ _ s' w', replayed s0 s' w')); cycle 1.
  - apply method_bind. eapply node_conseq; [|apply (method_append_loop s0); [|exact Hs]].
    + intros [[[]|]|e|] s' w' _ Hs'; exact Hs'.
    + exists c. by rewrite parse_config.
  - intros [?|?|] s' w' _ ?; by try apply method_return.
Qed.

Lemma method_serve_calls s0 xs s w :
  Forall call_ok xs → replayed s0 s w →
  Method (serve_calls registry xs) s (λ _ s' w', replayed s0 s' w') w.
Proof.
  intros Hxs. revert s w. induction Hxs as [|x xs Hx _ IH]; intros s w Hs; [done|].
  cbn [serve_calls]. apply method_bind, method_attempt.
  eapply node_conseq; [|by apply (method_serve s0)]. intros o s1 w1 _ Hs1. cbv beta iota.
  apply method_bind. eapply node_conseq; [|by apply IH].
  intros [?|?|] s2 w2 _ Hs2; [by apply method_return|done..].
Qed.
End thread.

(** ** The theorem *)

Inductive node_result : Set :=
  | NodeDone (calls : list node_call) (answers : outcome (list (outcome node_answer))) (s : Machine).
Definition run_node (xs : list node_call) s : pprog node_result :=
  r ← serve_calls registry xs s; mret (NodeDone xs r.1 r.2).

(** Any number of nodes, started from the same state, each with any calls. *)
Inductive node s0 : @thread pax_call → Prop :=
  | node_run xs : Forall call_ok xs → node s0 (existT _ (run_node xs s0)).
Definition runs s0 w0 (x : PaxosWorld K * list (@thread pax_call)) : Prop :=
  reaches exec always network (node s0) (w0, []) x.

(** A node that has answered its calls. *)
Definition finished xs os s : @thread pax_call := existT _ (Done (Ret (NodeDone xs os s))).

Definition node_replayed s0 (A : Set) (x : A) w : Prop :=
  ∀ xs os s, existT (P := λ A : Set, A) A x = existT node_result (NodeDone xs os s) → replayed s0 s w.

Lemma runs_replayed s0 w0 w ts :
  machine_ok s0 → initial n w0 → runs s0 w0 (w, ts) →
  inv n n V w ∧ ∀ xs os s, finished xs os s ∈ ts → replayed s0 s w.
Proof.
  intros Hok Hinit Hr.
  destruct (sys_safe exec always network (node s0) (inv n n V) grows others o_grows always
    (λ _, node_replayed s0) w0 w ts) as (Hi & _ & Hts);
    [|by apply pax_initial_inv|by apply (pax_network_inv n n V (half))| |exact Hr|].
  - intros _ A x w1 w2 Hg Hx ys os s E. by eapply replayed_mono, Hx.
  - intros i t w1 [xs Hxs] _. apply safe_bind. simpl.
    eapply wp_weaken; [|apply (method_serve_calls i s0 xs s0 w1 Hxs)].
    + intros [[o s]|?|] w2; simpl; try done. intros Hs ys os s' E.
      apply inj_pair2 in E as [= -> -> ->]. done.
    + split; [done|]. exists []. simpl. split_and!; [lia|done|done].
  - split; [done|]. intros xs os s [i Hi']%list_elem_of_lookup. exact (Hts i _ Hi' xs os s eq_refl).
Qed.

(** C6: the replicated metadata store is one sequence of configs.  Any number of
    nodes share one set of acceptors that they reach through local handles (the
    nodes of one process), start with the same bootstrap, and every config
    they have names these acceptors as its replicas.  Then in every execution,
    with the requests to the acceptors delayed, reordered and lost, of two nodes
    that have answered their calls, the one that has applied more registers has
    the store of the other one with more values applied to it, in order.  For
    nodes of different processes, whose acceptors are behind the network,
    [PaxosSafety.remote_acceptors_disagree] shows why it fails. *)
Theorem nodes_agree s0 w0 w ts xs os s xs' os' s' :
  machine_ok s0 → initial n w0 → runs s0 w0 (w, ts) →
  finished xs os s ∈ ts → finished xs' os' s' ∈ ts → lastAppliedWorId_ s ≤ lastAppliedWorId_ s' →
  ∃ vs, store_ s' = foldl replay (store_ s) vs ∧
    length vs = lastAppliedWorId_ s' - lastAppliedWorId_ s :> Z.
Proof.
  intros Hok Hinit Hr Hf Hf' Hle. destruct (runs_replayed s0 w0 w ts Hok Hinit Hr) as [Hi Hall].
  destruct (Hall _ _ _ Hf) as (_ & vs & El & Es & Hv), (Hall _ _ _ Hf') as (_ & vs' & El' & Es' & Hv').
  assert (Hpre : vs = take (length vs) vs').
  { apply list_eq. intros j. destruct (decide (j < length vs)%nat) as [Hj|Hj].
    - rewrite lookup_take_lt by done.
      destruct (lookup_lt_is_Some_2 vs j Hj) as [v Ev].
      destruct (lookup_lt_is_Some_2 vs' j) as [v' Ev']; [lia|]. rewrite Ev, Ev'. f_equal.
      destruct (Hv j v Ev (Z.le_refl _)) as [_ [b Hb]], (Hv' j v' Ev' (Z.le_refl _)) as [_ [b' Hb']].
      by eapply (chosen_agree n n V (half)).
    - rewrite !lookup_ge_None_2; [done|rewrite length_take; lia|lia]. }
  exists (drop (length vs) vs'). split.
  - rewrite Es', Es, <- foldl_app. rewrite Hpre at 1. by rewrite take_drop.
  - rewrite length_drop. lia.
Qed.
End safety.

(** ** A concrete codec and bootstrap: three acceptors *)

Definition config_fields (c : MetadataConfig) :=
  ([version_id c; previous_version_id c; start_index c; end_index c; previous_version_end_index c],
   (sequencer_id (sequencer_config c), host (sequencer_ip (sequencer_config c)),
    port (sequencer_ip (sequencer_config c))),
   map (λ r, (replica_id r, host (replica_ip r), port (replica_ip r), local r)) (replica_set_config c)).

Definition config_of_fields (x : list Z * (string * string * Z) * list (string * string * Z * bool))
    : MetadataConfig :=
  let '(l, (sid, sh, sp), rs) := x in
  {| version_id := nth 0 l 0; previous_version_id := nth 1 l 0; start_index := nth 2 l 0;
     end_index := nth 3 l 0; previous_version_end_index := nth 4 l 0;
     sequencer_config := {| sequencer_id := sid; sequencer_ip := {| host := sh; port := sp |} |};
     replica_set_config := map (λ '(i, h, p, b),
       {| replica_id := i; replica_ip := {| host := h; port := p |}; local := b |}) rs |}.

#[export] Instance MetadataConfig_countable : Countable MetadataConfig.
Proof.
  apply (inj_countable' config_fields config_of_fields). intros [? ? ? ? ? [? [? ?]] rs].
  unfold config_fields, config_of_fields. simpl. f_equal. rewrite map_map.
  rewrite <- (map_id rs) at 2. apply map_ext. by intros [? [? ?] ?].
Defined.

Definition bits_config_codec : MetadataConfigCodec :=
  {| Config_SerializeAsString := to_bits; Config_ParseFromString := of_bits |}.
#[export] Instance bits_config_codec_laws : @MetadataConfigCodecLaws bits_config_codec.
Proof. intros c. apply of_to_bits. Qed.

#[local] Existing Instance bits_codec.
#[local] Existing Instance bits_config_codec.
Abbreviation Store := (Rocks.RocksKVStoreLite MemDB).

Definition small_replica (id : string) : ReplicaConfig :=
  {| replica_id := id; replica_ip := default_IpAddress; local := false |}.
(** Version [v], from log id [i] on. *)
Definition small_config (v i : Z) : MetadataConfig :=
  {| version_id := v; previous_version_id := v - 1; start_index := i; end_index := 99;
     previous_version_end_index := i; sequencer_config := default_SequencerConfig;
     replica_set_config := map small_replica ["a"; "b"; "c"]%string |}.

Definition small_registry : gmap string acceptor :=
  {["a"%string := Local 0; "b"%string := Local 1; "c"%string := Local 2]}.
Definition bootstrap : Machine :=
  makeMetadataStoreStateMachine (small_config 1 1)
    (run_appends [small_config 1 1] Metadata.empty_store).2.

Lemma small_good v i : good 3 (Some small_registry) (small_config v i).
Proof. by exists small_registry. Qed.
Lemma bootstrap_ok : machine_ok 3 (Some small_registry) bootstrap.
Proof.
  split; [|apply small_good]. exists [small_config 1 1]. split_and!.
  - exact (proj2 (run_refines [small_config 1 1] [] Metadata.empty_store represents_empty)).
  - done.
  - constructor; [apply small_good|constructor].
  - constructor; [simpl; lia|constructor].
Qed.

Definition call_node (xs : list node_call) : action :=
  Spawn (existT _ (run_node (Some small_registry) xs bootstrap)).

(** The first node installs version 2, the second one asks for it. *)
Definition quiet_nodes : list action :=
  call_node [CallCompareAndAppendRange 9 (small_config 2 5)] ::
  call_node [CallGetConfig 9 2] ::
  do_prepare 0 0 ++ do_calls 0 3 7 ++ do_calls 1 10 4.

(** Both nodes install a version 2; the second one finds the proposal of the
    first one accepted and commits it. *)
Definition crossed_nodes : list action :=
  call_node [CallCompareAndAppendRange 9 (small_config 2 5)] ::
  call_node [CallCompareAndAppendRange 9 (small_config 2 7)] ::
  do_prepare 0 0 ++ do_calls 0 3 3 ++ do_prepare 1 6 ++ do_prepare 1 9 ++ do_calls 1 12 7.

(** The final state of a script of nodes. *)
Lemma nodes_run l (ts : list (@thread pax_call)) :
  spawns (node 3 (Some small_registry) bootstrap) l →
  snd <$> perform_actions l (empty_world, []) = Some ts →
  ∃ w, runs 3 (Some small_registry) bootstrap empty_world (w, ts).
Proof.
  intros Hl Hts. destruct (perform_actions l (empty_world, [])) as [[w ts']|] eqn:E; [|discriminate Hts].
  exists w. injection Hts as <-. by eapply run_actions_reaches.
Qed.

Ltac small_nodes := repeat constructor; apply small_good.

Lemma nodes_agree_witness :
  ∃ s s' : Machine, lastAppliedWorId_ s = 2 ∧ lastAppliedWorId_ s' = 2 ∧ store_ s = store_ s'.
Proof.
  destruct (snd <$> perform_actions quiet_nodes (empty_world, [])) as [ts|] eqn:E;
    [|vm_compute in E; discriminate E].
  destruct (nodes_run quiet_nodes ts) as [w Hr]; [small_nodes|exact E|].
  vm_compute in E. injection E as <-.
  match type of Hr with runs _ _ _ _ (_, [existT _ (Done (Ret (NodeDone ?xs ?os ?s)));
      existT _ (Done (Ret (NodeDone ?xs' ?os' ?s')))]) =>
    destruct (nodes_agree 3 ltac:(lia) (Some small_registry) bootstrap empty_world w _ xs os s xs' os' s'
      bootstrap_ok empty_initial Hr ltac:(left) ltac:(right; left) ltac:(done)) as (vs & Es & El);
    exists s, s'
  end.
  split; [reflexivity|]. split; [reflexivity|].
  destruct vs as [|v vs]; [symmetry; exact Es|discriminate El].
Defined.

(** Installing a config reports success as soon as a write by the node
    succeeds, even when it wrote another node's config: a node is told that its
    version 2 is installed while its store has another config there. *)
Theorem append_reports_other_config :
  ∃ w ts s c c', runs 3 (Some small_registry) bootstrap empty_world (w, ts) ∧
    finished [CallCompareAndAppendRange 9 c] (Ret [Ret (AnswerInstalled (Some ()))]) s ∈ ts ∧
    Metadata.getConfig (version_id c) (store_ s) = Some c' ∧ start_index c ≠ start_index c'.
Proof.
  assert (Hc : ∃ s, (snd <$> perform_actions crossed_nodes (empty_world, [])) ≫= (.!! 1%nat) =
      Some (finished [CallCompareAndAppendRange 9 (small_config 2 7)]
        (Ret [Ret (AnswerInstalled (Some ()))]) s) ∧
    Metadata.getConfig 2 (store_ s) = Some (small_config 2 5)).
  { eexists. split; [vm_compute; reflexivity|reflexivity]. }
  destruct Hc as (s & Hs & Hcfg).
  destruct (snd <$> perform_actions crossed_nodes (empty_world, [])) as [ts|] eqn:E; [|discriminate Hs].
  destruct (nodes_run crossed_nodes ts) as [w Hr]; [small_nodes|exact E|].
  exists w, ts, s, (small_config 2 7), (small_config 2 5). split; [exact Hr|].
  split; [by eapply list_elem_of_lookup_2|]. split; [exact Hcfg|discriminate].
Qed.
