(* ===== verification/Process.v ===== *)
(** * The objects and servers of a process

    [src/log/utils/GrpcServerFactory.h], and what the start of a log server and
    of an ensemble share: replicas, sequencers and acceptors as objects that
    are named by their place on a heap, and the gRPC servers that serve them.
    A remote object is the address it calls. *)

From stdpp Require Import base gmap list strings pretty.
From Stdlib Require Import ZArith Lia.
From S2P Require Import Prelude LogTypes KVStore Replica VirtualLog.

Open Scope Z_scope.

(** The implementations of [Replica]; a local one has the RocksDB config of
    its nanolog factory. *)
Inductive ReplicaObject (N : Type) :=
  | LocalReplica (replica : ReplicaImpl N) (rocksConfig : RocksDbConfig)
  | RemoteReplica (address : string).
Arguments LocalReplica {N} replica rocksConfig.
Arguments RemoteReplica {N} address.

(** The implementations of [Sequencer]. *)
Inductive SequencerObject :=
  | LocalSequencer (sequencer : SequencerImpl)
  | NullSequencer
  | RemoteSequencer (address : string).

(** The implementations of [paxos::Acceptor]. *)
Inductive AcceptorObject (K : Type) :=
  | LocalAcceptor (id : string) (kvStore : K)
  | RemoteAcceptor (address : string).
Arguments LocalAcceptor {K} id kvStore.
Arguments RemoteAcceptor {K} address.

(** [fmt::format] with GRPC_SVC_ADDRESS_FORMAT *)
Definition format_address (ip : IpAddress) : string := host ip +:+ ":" +:+ pretty (port ip).

(** A service and the object it serves. *)
Inductive GrpcService :=
  | ReplicaService (replica : nat)
  | AcceptorService (acceptor : nat)
  | SequencerService (sequencer : nat)
  | MetadataService
  | CounterService.
Record GrpcServer := mkServer {
  server_address : string;
  services : list GrpcService }.

(** [grpc::ServerBuilder::BuildAndStart]: does the server start? *)
Class GrpcHost (F : Type) := BuildAndStart : GrpcServer → F → bool * F.

(** The pointer is null when the server does not start. *)
Definition runRPCServer {F : Type} `{GrpcHost F} (serverAddress : string)
    (grpcServices : list GrpcService) : M F (option GrpcServer) := λ f,
  let server := mkServer serverAddress grpcServices in
  let '(started, f') := BuildAndStart server f in
  (Ret (if started : bool then Some server else None), f').

(** What [LogWorld] calls the kind of a sequencer, and its fields. *)
Definition sequencer_view (s : SequencerObject) : SequencerKind * SequencerImpl :=
  match s with
  | LocalSequencer sequencer => (KImpl, sequencer)
  | NullSequencer => (KNull, makeSequencerImpl "" [] 0 0 false)
  | RemoteSequencer _ => (KRemote, makeSequencerImpl "" [] 0 0 false)
  end.
