(* ===== verification/LogServer.v ===== *)
(** * Starting a log server

    [src/log/server/LogServer.h]: [start] makes the parts of a node from its
    configuration - the metadata store over Paxos registers, the replica and
    the acceptor with their server, the remote replicas and acceptors of the
    other nodes, the sequencer with its server, and the virtual log - and wires
    them together through the two registries. *)

From stdpp Require Import base gmap list strings pretty.
From Stdlib Require Import ZArith Lia.
From S2P Require Import Prelude LogTypes Metadata NanoLog KVStore RocksNanoLog Replica Program VirtualLog Paxos Proposer.
From S2P Require Import ReplicatedMetadata FailureDetector LogWorld LogFactory Process.

Open Scope Z_scope.

(** ** ServerConfig.proto *)

Record SequencerServerConfig := mkSequencerServer { ss_id : string; ss_ip : IpAddress }.
Record ReplicaServerConfig := mkReplicaServer {
  rs_id : string;
  rs_ip : IpAddress;
  rs_data_directory : string }.

(** The fields that are read. *)
Record ServerConfig := mkServerConfig {
  sequencer_server : SequencerServerConfig;
  replica_server : ReplicaServerConfig;
  metadata_ip : IpAddress;
  metric_ip : IpAddress;
  paxos_data_directory : string;
  replica_set : list ReplicaServerConfig;
  remote_sequencer_set : list SequencerServerConfig }.

(** What the failure detector takes from it. *)
Definition detector_config (c : ServerConfig) : FailureDetector.ServerConfig :=
  {| sc_sequencer_id := ss_id (sequencer_server c); sc_replica_set := map rs_id (replica_set c) |}.

(** ** LogServer::State *)

Section server.
Context {P D F : Type} `{HD : RocksDB D} `{HF : RocksFiles F D} `{HH : GrpcHost F}.
Abbreviation N := (AnyNanoLog P D).
Abbreviation K := (Rocks.RocksKVStoreLite D).

(** The heaps hold the replicas, sequencers and acceptors; pointers are
    [None] before they are set. *)
Record State := mkState {
  config : ServerConfig;
  exposer : option string;
  registry : RegistryImpl;
  paxosRegistry : gmap string acceptor;
  replicas : list (ReplicaObject N);
  sequencers : list SequencerObject;
  acceptors : list (AcceptorObject K);
  metadataStore : option (MetadataStoreStateMachine Metadata.State);
  metadataGRPCServer : option GrpcServer;
  replicaSet : list nat;
  replica : option nat;
  acceptor_ : option nat;
  replicaGRPCServer : option GrpcServer;
  sequencer : option nat;
  sequencerGRPCServer : option GrpcServer;
  virtualLog : option VLogState }.

(** [State{.config = config_}] with the registries and the store of nanologs
    that [start] makes first. *)
Definition makeState (c : ServerConfig) : State :=
  mkState c None makeRegistry ∅ [] [] [] None None [] None None None None None None.

Implicit Types s : State.
Definition set_exposer x s := mkState (config s) x (registry s) (paxosRegistry s) (replicas s)
  (sequencers s) (acceptors s) (metadataStore s) (metadataGRPCServer s) (replicaSet s) (replica s)
  (acceptor_ s) (replicaGRPCServer s) (sequencer s) (sequencerGRPCServer s) (virtualLog s).
Definition set_registry x s := mkState (config s) (exposer s) x (paxosRegistry s) (replicas s)
  (sequencers s) (acceptors s) (metadataStore s) (metadataGRPCServer s) (replicaSet s) (replica s)
  (acceptor_ s) (replicaGRPCServer s) (sequencer s) (sequencerGRPCServer s) (virtualLog s).
Definition set_paxosRegistry x s := mkState (config s) (exposer s) (registry s) x (replicas s)
  (sequencers s) (acceptors s) (metadataStore s) (metadataGRPCServer s) (replicaSet s) (replica s)
  (acceptor_ s) (replicaGRPCServer s) (sequencer s) (sequencerGRPCServer s) (virtualLog s).
Definition set_metadata x y s := mkState (config s) (exposer s) (registry s) (paxosRegistry s)
  (replicas s) (sequencers s) (acceptors s) (Some x) y (replicaSet s) (replica s) (acceptor_ s)
  (replicaGRPCServer s) (sequencer s) (sequencerGRPCServer s) (virtualLog s).
Definition add_replica (x : ReplicaObject N) s := mkState (config s) (exposer s) (registry s) (paxosRegistry s)
  (replicas s ++ [x]) (sequencers s) (acceptors s) (metadataStore s) (metadataGRPCServer s)
  (replicaSet s) (replica s) (acceptor_ s) (replicaGRPCServer s) (sequencer s)
  (sequencerGRPCServer s) (virtualLog s).
Definition add_sequencer (x : SequencerObject) s := mkState (config s) (exposer s) (registry s) (paxosRegistry s)
  (replicas s) (sequencers s ++ [x]) (acceptors s) (metadataStore s) (metadataGRPCServer s)
  (replicaSet s) (replica s) (acceptor_ s) (replicaGRPCServer s) (sequencer s)
  (sequencerGRPCServer s) (virtualLog s).
Definition add_acceptor (x : AcceptorObject K) s := mkState (config s) (exposer s) (registry s) (paxosRegistry s)
  (replicas s) (sequencers s) (acceptors s ++ [x]) (metadataStore s) (metadataGRPCServer s)
  (replicaSet s) (replica s) (acceptor_ s) (replicaGRPCServer s) (sequencer s)
  (sequencerGRPCServer s) (virtualLog s).
Definition set_replica x s := mkState (config s) (exposer s) (registry s) (paxosRegistry s)
  (replicas s) (sequencers s) (acceptors s) (metadataStore s) (metadataGRPCServer s)
  (replicaSet s) (Some x) (acceptor_ s) (replicaGRPCServer s) (sequencer s) (sequencerGRPCServer s)
  (virtualLog s).
Definition set_acceptor x s := mkState (config s) (exposer s) (registry s) (paxosRegistry s)
  (replicas s) (sequencers s) (acceptors s) (metadataStore s) (metadataGRPCServer s)
  (replicaSet s) (replica s) (Some x) (replicaGRPCServer s) (sequencer s) (sequencerGRPCServer s)
  (virtualLog s).
Definition set_replicaGRPCServer x s := mkState (config s) (exposer s) (registry s) (paxosRegistry s)
  (replicas s) (sequencers s) (acceptors s) (metadataStore s) (metadataGRPCServer s)
  (replicaSet s) (replica s) (acceptor_ s) x (sequencer s) (sequencerGRPCServer s) (virtualLog s).
Definition push_replicaSet x s := mkState (config s) (exposer s) (registry s) (paxosRegistry s)
  (replicas s) (sequencers s) (acceptors s) (metadataStore s) (metadataGRPCServer s)
  (replicaSet s ++ [x]) (replica s) (acceptor_ s) (replicaGRPCServer s) (sequencer s)
  (sequencerGRPCServer s) (virtualLog s).
Definition set_sequencer x y s := mkState (config s) (exposer s) (registry s) (paxosRegistry s)
  (replicas s) (sequencers s) (acceptors s) (metadataStore s) (metadataGRPCServer s)
  (replicaSet s) (replica s) (acceptor_ s) (replicaGRPCServer s) (Some x) y (virtualLog s).
Definition set_virtualLog x s := mkState (config s) (exposer s) (registry s) (paxosRegistry s)
  (replicas s) (sequencers s) (acceptors s) (metadataStore s) (metadataGRPCServer s)
  (replicaSet s) (replica s) (acceptor_ s) (replicaGRPCServer s) (sequencer s)
  (sequencerGRPCServer s) (Some x).

(** ** The steps of start *)

Abbreviation Start := (M (State * F)).
Definition on_outside {A} (m : M F A) : Start A := zoom snd (λ f x, (x.1, f)) m.
Definition get_state : Start State := gets fst.
Definition update (g : State → State) : Start () := modify (λ x, (g x.1, x.2)).
Definition pointer {A} (o : option A) : Start A :=
  match o with Some a => mret a | None => throw NullPointer end.

Definition makeMetricExposer : Start () :=
  s ← get_state;
  update (set_exposer (Some (format_address (metric_ip (config s))))).

(** The config that names the acceptors of the first register. *)
Definition bootstrap_config (c : ServerConfig) : MetadataConfig :=
  {| version_id := 0; previous_version_id := -1; start_index := 0; end_index := 1;
     previous_version_end_index := 0; sequencer_config := default_SequencerConfig;
     replica_set_config :=
       map (λ r, {| replica_id := rs_id r; replica_ip := rs_ip r; local := false |}) (replica_set c) |}.

Definition makeRemoteMetadataStore : Start () :=
  s ← get_state;
  let store := makeMetadataStoreStateMachine (bootstrap_config (config s)) makeMetadataStore in
  server ← on_outside (runRPCServer (format_address (metadata_ip (config s))) [MetadataService]);
  update (set_metadata store server).

Definition makeReplicaServer : Start () :=
  s ← get_state;
  let c := config s in
  let address := format_address (rs_ip (replica_server c)) in
  let rocksConfig := {| path := rs_data_directory (replica_server c); createIfMissing := true;
                        manualWALFlush := true; destroyIfExists := false |} in
  let r := length (replicas s) in
  let '(impl, factoryConfig) :=
    makeRocksReplica (rs_id (replica_server c)) "ReplicaName" makeNanoLogStore rocksConfig in
  _ ← update (add_replica (LocalReplica impl factoryConfig));
  _ ← update (set_replica r);
  _ ← update (λ s, set_registry (registerReplica (rs_id (replica_server c)) r (registry s)) s);
  paxosRocks ← on_outside (provideSharedPtr
    {| path := paxos_data_directory c; createIfMissing := true; manualWALFlush := true;
       destroyIfExists := false |});
  s ← get_state;
  let a := length (acceptors s) in
  _ ← update (add_acceptor (LocalAcceptor "" {| Rocks.rocks_ := paxosRocks |}));
  _ ← update (set_acceptor a);
  server ← on_outside (runRPCServer address [ReplicaService r; AcceptorService a]);
  _ ← update (set_replicaGRPCServer server);
  s ← get_state;
  let '(o, reg) := registerAcceptor (rs_id (replica_server c)) (Local a) (paxosRegistry s) in
  _ ← update (set_paxosRegistry reg);
  of_outcome o.

(** [replica->getId()] of the local replica *)
Definition replica_getId : Start string :=
  s ← get_state;
  r ← pointer (replica s);
  match replicas s !! r with
  | Some (LocalReplica impl _) => mret (Replica.id_ impl)
  | _ => throw NullPointer
  end.

Definition makeReplicaSet : Start () :=
  s ← get_state;
  _ ← for_each (replica_set (config s)) (λ remoteReplicaConfig,
    s ← get_state;
    let r := length (replicas s) in
    _ ← update (add_replica (RemoteReplica (format_address (rs_ip remoteReplicaConfig))));
    _ ← update (push_replicaSet r);
    id ← replica_getId;
    if decide (rs_id remoteReplicaConfig ≠ id)
    then update (λ s, set_registry (registerReplica (rs_id remoteReplicaConfig) r (registry s)) s)
    else mret ());
  s ← get_state;
  check (bool_decide (length (replicaSet s) = length (replica_set (config s)))).

Definition makeAcceptorSet : Start () :=
  s ← get_state;
  _ ← for_each (replica_set (config s)) (λ remoteReplicaConfig,
    s ← get_state;
    let a := length (acceptors s) in
    _ ← update (add_acceptor (RemoteAcceptor (format_address (rs_ip remoteReplicaConfig))));
    id ← replica_getId;
    if decide (rs_id remoteReplicaConfig ≠ id) then
      let '(o, reg) := registerAcceptor (rs_id remoteReplicaConfig) (Remote a) (paxosRegistry s) in
      _ ← update (set_paxosRegistry reg);
      of_outcome o
    else mret ());
  s ← get_state;
  check (bool_decide (length (replicaSet s) = length (replica_set (config s)))).

Definition makeSequencerServer : Start () :=
  s ← get_state;
  let q := length (sequencers s) in
  let c := sequencer_server (config s) in
  _ ← update (add_sequencer (LocalSequencer (makeSequencer (ss_id c) (replicaSet s))));
  server ← on_outside (runRPCServer (format_address (ss_ip c)) [SequencerService q]);
  update (set_sequencer q server).

Definition registerSequencers : Start () :=
  s ← get_state;
  q ← pointer (sequencer s);
  _ ← update (λ s, set_registry (registerSequencer (ss_id (sequencer_server (config s))) q (registry s)) s);
  for_each (remote_sequencer_set (config s)) (λ remoteSequencerConfig,
    s ← get_state;
    let q := length (sequencers s) in
    _ ← update (add_sequencer (RemoteSequencer (format_address (ss_ip remoteSequencerConfig))));
    update (λ s, set_registry (registerSequencer (ss_id remoteSequencerConfig) q (registry s)) s)).

Definition makeVirtualLog : Start () :=
  s ← get_state;
  let q := length (sequencers s) in
  _ ← update (add_sequencer NullSequencer);
  update (set_virtualLog {| VirtualLog.metadataConfig := default_MetadataConfig;
                            VirtualLog.sequencer := q; VirtualLog.replicaSet := replicaSet s |}).

Definition make : Start () :=
  _ ← makeMetricExposer;
  _ ← makeRemoteMetadataStore;
  _ ← makeReplicaServer;
  _ ← makeReplicaSet;
  _ ← makeAcceptorSet;
  _ ← makeSequencerServer;
  _ ← registerSequencers;
  makeVirtualLog.

(** ** LogServer: [None] is a server that has not started *)

Record LogServer := mkLogServer { config_ : ServerConfig; state_ : option State }.
Definition makeLogServer (c : ServerConfig) : LogServer := mkLogServer c None.

Definition start : M (LogServer * F) () := λ '(l, f),
  match state_ l with
  | Some _ => (Ret (), (l, f))
  | None =>
      match make (makeState (config_ l), f) with
      | (Ret _, (s, f')) => (Ret (), (mkLogServer (config_ l) (Some s), f'))
      | (Throw e, (_, f')) => (Throw e, (l, f'))
      | (Block, (_, f')) => (Block, (l, f'))
      end
  end.

(** The test is the wrong way round. *)
Definition stop : M (LogServer * F) () := λ '(l, f),
  match state_ l with
  | Some _ => (Ret (), (l, f))
  | None => (Throw NullPointer, (l, f))
  end.

Definition getVirtualLog : M (LogServer * F) (option VLogState) := λ '(l, f),
  match state_ l with
  | Some s => (Ret (virtualLog s), (l, f))
  | None => (Throw NullPointer, (l, f))
  end.
End server.

(** ** Lemmas: the loops *)

Section loops.
Context {P D F : Type} `{HD : RocksDB D} `{HF : RocksFiles F D} `{HH : GrpcHost F}.
Abbreviation St := (State (P := P) (D := D)).
Implicit Types (s : St) (f : F) (r : ReplicaServerConfig).
Context (own : string).

(** The local replica is there, under the name 0. *)
Definition local_replica s : Prop :=
  replica s = Some 0%nat ∧
  ∃ impl rc, replicas s !! 0%nat = Some (LocalReplica impl rc) ∧ Replica.id_ impl = own.

(** One round of each loop. *)
Definition add_remote s r : St :=
  let k := length (replicas s) in
  let s1 := push_replicaSet k (add_replica (RemoteReplica (format_address (rs_ip r))) s) in
  if decide (rs_id r ≠ own) then set_registry (registerReplica (rs_id r) k (registry s1)) s1 else s1.
Definition add_remote_acceptor s r : St :=
  let k := length (acceptors s) in
  let s1 := add_acceptor (RemoteAcceptor (format_address (rs_ip r))) s in
  if decide (rs_id r ≠ own) then set_paxosRegistry (<[rs_id r := Remote k]> (paxosRegistry s1)) s1 else s1.
Definition add_remote_sequencer s (r : SequencerServerConfig) : St :=
  let k := length (sequencers s) in
  let s1 := add_sequencer (RemoteSequencer (format_address (ss_ip r))) s in
  set_registry (registerSequencer (ss_id r) k (registry s1)) s1.

(** A loop whose rounds return is the fold of its rounds. *)
Lemma for_each_fold {X A} (body : A → M X ()) (g : X → A → X) (I : X → Prop) l x0 :
  (∀ x a, I x → body a x = (Ret (), g x a)) → (∀ x a, I x → I (g x a)) → I x0 →
  for_each l body x0 = (Ret (), foldl g x0 l).
Proof.
  intros Hb Hg. revert x0. induction l as [|a l IH]; intros x0 H0; [done|].
  simpl. mred. rewrite Hb by done. apply IH. auto.
Qed.

Lemma getId_local s f : local_replica s → replica_getId (s, f) = (Ret own, (s, f)).
Proof.
  intros (Hr & impl & rc & Hl & Hid). unfold replica_getId, get_state. mred. simpl.
  rewrite Hr. simpl. rewrite Hl. by subst.
Qed.

Lemma local_app s x : local_replica s → local_replica (add_replica x s).
Proof.
  intros (Hr & impl & rc & Hl & Hid). split; [done|]. exists impl, rc. split; [|done].
  by apply lookup_app_l_Some.
Qed.

Lemma fold_fst {A} (g : St → A → St) (l : list A) s f :
  foldl (λ (x : St * F) a, (g x.1 a, x.2)) (s, f) l = (foldl g s l, f).
Proof. revert s. induction l as [|a l IH]; intros s; [done|]. apply IH. Qed.

Lemma makeReplicaSet_fold s f :
  local_replica s → replicaSet s = [] → 
  makeReplicaSet (s, f) = (Ret (), (foldl add_remote s (replica_set (config s)), f)).
Proof.
  intros Hloc Hset. unfold makeReplicaSet, get_state. mred. simpl.
  rewrite (for_each_fold _ (λ (x : St * F) a, (add_remote x.1 a, x.2)) (λ x, local_replica x.1)).
  - rewrite fold_fst. simpl.
    assert (Hl : ∀ l s0, length (replicaSet (foldl add_remote s0 l)) = (length (replicaSet s0) + length l)%nat
      ∧ config (foldl add_remote s0 l) = config s0).
    { induction l as [|r l IH]; intros s0; simpl; [by rewrite Nat.add_0_r|].
      destruct (IH (add_remote s0 r)) as [-> ->]. unfold add_remote.
      case_decide; simpl; rewrite length_app; simpl; split; done || lia. }
    destruct (Hl (replica_set (config s)) s) as [-> ->]. rewrite Hset. unfold check.
    by rewrite bool_decide_true.
  - intros [s0 f0] r H0. simpl in *. unfold mbind, M_bind, gets, update, modify. simpl.
    rewrite getId_local by by apply local_app. unfold add_remote. by case_decide.
  - intros [s0 f0] r H0. simpl in *. unfold add_remote. case_decide; by apply local_app.
  - done.
Qed.

(** The ids of the other replicas. *)
Definition other_ids (l : list ReplicaServerConfig) : list string :=
  filter (λ id, id ≠ own) (map rs_id l).
Definition fresh_ids (reg : gmap string acceptor) (l : list ReplicaServerConfig) : Prop :=
  NoDup (other_ids l) ∧ ∀ id, id ∈ other_ids l → reg !! id = None.

Lemma fresh_cons reg r l k :
  fresh_ids reg (r :: l) ↔
  if decide (rs_id r ≠ own)
  then reg !! rs_id r = None ∧ fresh_ids (<[rs_id r := Remote k]> reg) l
  else fresh_ids reg l.
Proof.
  unfold fresh_ids, other_ids. simpl. rewrite filter_cons. case_decide as Hr; [|done].
  rewrite NoDup_cons. split.
  - intros [[Hnin Hnd] Hf]. split_and!; [apply Hf; by left|done|].
    intros id Hid. rewrite lookup_insert_ne; [apply Hf; by right|]. by intros <-.
  - intros (Hf & Hnd & Hrest). split_and!; [|done|].
    + intros Hin. apply Hrest in Hin. by rewrite lookup_insert_eq in Hin.
    + intros id [->|Hid]%elem_of_cons; [done|]. pose proof (Hrest id Hid) as Hi.
      rewrite lookup_insert in Hi. by case_decide.
Qed.

Lemma local_acceptor s r : local_replica s → local_replica (add_remote_acceptor s r).
Proof. unfold add_remote_acceptor. by case_decide. Qed.

(** The loop over the acceptors ends when the ids are fresh, and fails an
    assertion when they are not. *)
Lemma acceptors_fold (body : ReplicaServerConfig → M (St * F) ()) l s f :
  (∀ s f r, local_replica s → rs_id r = own ∨ paxosRegistry s !! rs_id r = None →
     body r (s, f) = (Ret (), (add_remote_acceptor s r, f))) →
  (∀ s f r x, local_replica s → rs_id r ≠ own → paxosRegistry s !! rs_id r = Some x →
     ∃ s', body r (s, f) = (Throw AssertFailure, (s', f))) →
  local_replica s →
  (fresh_ids (paxosRegistry s) l →
     for_each l body (s, f) = (Ret (), (foldl add_remote_acceptor s l, f))) ∧
  (¬ fresh_ids (paxosRegistry s) l → ∃ s', for_each l body (s, f) = (Throw AssertFailure, (s', f))).
Proof.
  intros Hok Hdup. revert s. induction l as [|r l IH]; intros s Hloc.
  { split; [done|]. intros []. split; [constructor|]. by intros id ?%elem_of_nil. }
  simpl. rewrite (fresh_cons _ r l (length (acceptors s))). mred.
  destruct (IH (add_remote_acceptor s r) (local_acceptor s r Hloc)) as [IH1 IH2].
  unfold add_remote_acceptor in IH1, IH2. simpl in *.
  case_decide as Hr; simpl in *.
  - destruct (paxosRegistry s !! rs_id r) as [x|] eqn:Ex.
    { split; [by intros [? _]|]. intros _. destruct (Hdup s f r x) as [s' ->]; eauto. }
    rewrite Hok by eauto. unfold add_remote_acceptor. rewrite decide_True by done. split.
    + intros [_ Hf]. by apply IH1.
    + intros Hf. apply IH2. intros Hf'. by apply Hf.
  - rewrite Hok by auto. unfold add_remote_acceptor. rewrite decide_False by (by intros Hn). by split.
Qed.

Lemma makeAcceptorSet_fold s f :
  local_replica s → length (replicaSet s) = length (replica_set (config s)) →
  (fresh_ids (paxosRegistry s) (replica_set (config s)) →
    makeAcceptorSet (s, f) = (Ret (), (foldl add_remote_acceptor s (replica_set (config s)), f))) ∧
  (¬ fresh_ids (paxosRegistry s) (replica_set (config s)) →
    ∃ s', makeAcceptorSet (s, f) = (Throw AssertFailure, (s', f))).
Proof.
  intros Hloc Hlen. unfold makeAcceptorSet, get_state. mred. simpl.
  match goal with |- context [for_each _ ?b _] =>
    destruct (acceptors_fold b (replica_set (config s)) s f) as [Hok Hfail]; [| |done|] end.
  - intros s0 f0 r H0 Hr. simpl in *. unfold mbind, M_bind, gets, update, modify. simpl.
    rewrite getId_local by done. unfold add_remote_acceptor. case_decide as Hd; [|done].
    destruct Hr as [Hr|Hr]; [done|]. unfold registerAcceptor. by rewrite Hr.
  - intros s0 f0 r x H0 Hr Hx. unfold mbind, M_bind, gets, update, modify. simpl.
    rewrite getId_local by done. rewrite decide_True by done. unfold registerAcceptor. rewrite Hx.
    by eexists.
  - split.
    + intros Hf. rewrite Hok by done. simpl.
      assert (Hl : ∀ l s0, replicaSet (foldl add_remote_acceptor s0 l) = replicaSet s0 ∧
        config (foldl add_remote_acceptor s0 l) = config s0).
      { induction l as [|r l IH]; intros s0; [done|]. simpl.
        destruct (IH (add_remote_acceptor s0 r)) as [-> ->]. unfold add_remote_acceptor. by case_decide. }
      destruct (Hl (replica_set (config s)) s) as [-> ->]. rewrite Hlen. unfold check.
      by rewrite bool_decide_true.
    + intros Hf. destruct (Hfail Hf) as [s' ->]. by eexists.
Qed.

Lemma registerSequencers_fold s f q :
  sequencer s = Some q →
  registerSequencers (s, f) =
  (Ret (), (foldl add_remote_sequencer
     (set_registry (registerSequencer (ss_id (sequencer_server (config s))) q (registry s)) s)
     (remote_sequencer_set (config s)), f)).
Proof.
  intros Hq. unfold registerSequencers, get_state. mred. simpl. rewrite Hq. simpl.
  rewrite (for_each_fold _ (λ (x : St * F) a, (add_remote_sequencer x.1 a, x.2)) (λ _, True)); [|done..].
  assert (Hf : ∀ l s0, foldl (λ (x : St * F) a, (add_remote_sequencer x.1 a, x.2)) (s0, f) l =
    (foldl add_remote_sequencer s0 l, f)).
  { induction l as [|a l IH]; intros s0; [done|]. apply IH. }
  by rewrite Hf.
Qed.

(** *** What the loops leave *)

(** The names under which the objects of a loop are registered. *)
Fixpoint replica_names (k : nat) (l : list ReplicaServerConfig) (reg : RegistryImpl) : RegistryImpl :=
  match l with
  | [] => reg
  | r :: l' => replica_names (S k) l'
      (if decide (rs_id r ≠ own) then registerReplica (rs_id r) k reg else reg)
  end.
Fixpoint acceptor_names (k : nat) (l : list ReplicaServerConfig) (reg : gmap string acceptor)
    : gmap string acceptor :=
  match l with
  | [] => reg
  | r :: l' => acceptor_names (S k) l'
      (if decide (rs_id r ≠ own) then <[rs_id r := Remote k]> reg else reg)
  end.
Fixpoint sequencer_names (k : nat) (l : list SequencerServerConfig) (reg : RegistryImpl) : RegistryImpl :=
  match l with
  | [] => reg
  | r :: l' => sequencer_names (S k) l' (registerSequencer (ss_id r) k reg)
  end.

Lemma add_remote_all s l :
  foldl add_remote s l =
  mkState (config s) (exposer s) (replica_names (length (replicas s)) l (registry s)) (paxosRegistry s)
    (replicas s ++ map (λ r, RemoteReplica (format_address (rs_ip r))) l) (sequencers s) (acceptors s)
    (metadataStore s) (metadataGRPCServer s)
    (replicaSet s ++ seq (length (replicas s)) (length l)) (replica s) (acceptor_ s)
    (replicaGRPCServer s) (sequencer s) (sequencerGRPCServer s) (virtualLog s).
Proof.
  revert s. induction l as [|r l IH]; intros s; simpl; [rewrite !app_nil_r; by destruct s|].
  rewrite IH. unfold add_remote. case_decide; simpl;
    by rewrite length_app, Nat.add_1_r, <-!app_assoc.
Qed.
Lemma add_remote_acceptor_all s l :
  foldl add_remote_acceptor s l =
  mkState (config s) (exposer s) (registry s)
    (acceptor_names (length (acceptors s)) l (paxosRegistry s))
    (replicas s) (sequencers s)
    (acceptors s ++ map (λ r, RemoteAcceptor (format_address (rs_ip r))) l)
    (metadataStore s) (metadataGRPCServer s) (replicaSet s) (replica s) (acceptor_ s)
    (replicaGRPCServer s) (sequencer s) (sequencerGRPCServer s) (virtualLog s).
Proof.
  revert s. induction l as [|r l IH]; intros s; simpl; [rewrite !app_nil_r; by destruct s|].
  rewrite IH. unfold add_remote_acceptor. case_decide; simpl;
    by rewrite length_app, Nat.add_1_r, <-!app_assoc.
Qed.
Lemma add_remote_sequencer_all s l :
  foldl add_remote_sequencer s l =
  mkState (config s) (exposer s) (sequencer_names (length (sequencers s)) l (registry s))
    (paxosRegistry s) (replicas s)
    (sequencers s ++ map (λ q, RemoteSequencer (format_address (ss_ip q))) l) (acceptors s)
    (metadataStore s) (metadataGRPCServer s) (replicaSet s) (replica s) (acceptor_ s)
    (replicaGRPCServer s) (sequencer s) (sequencerGRPCServer s) (virtualLog s).
Proof.
  revert s. induction l as [|r l IH]; intros s; simpl; [rewrite !app_nil_r; by destruct s|].
  rewrite IH. unfold add_remote_sequencer. simpl. by rewrite length_app, Nat.add_1_r, <-!app_assoc.
Qed.

(** A name that is taken stays, and so do the sequencers when a replica is
    registered. *)
Lemma replica_names_kept k l reg id x :
  registry_replica id reg = Some x → registry_replica id (replica_names k l reg) = Some x.
Proof.
  revert k reg. induction l as [|r l IH]; intros k reg Hid; [done|]. simpl. apply IH.
  case_decide; [|done]. unfold registry_replica, registerReplica, emplace in *. simpl.
  destruct (replicas_ reg !! rs_id r) eqn:E; [done|]. rewrite lookup_insert_ne; [done|].
  intros <-. by rewrite E in Hid.
Qed.
Lemma replica_names_sequencers k l reg : sequencers_ (replica_names k l reg) = sequencers_ reg.
Proof.
  revert k reg. induction l as [|r l IH]; intros k reg; [done|]. simpl. rewrite IH. by case_decide.
Qed.
Lemma sequencer_names_replicas k l reg : replicas_ (sequencer_names k l reg) = replicas_ reg.
Proof. revert k reg. induction l as [|r l IH]; intros k reg; [done|]. simpl. by rewrite IH. Qed.
Lemma sequencer_names_kept k l reg id x :
  registry_sequencer id reg = Some x → registry_sequencer id (sequencer_names k l reg) = Some x.
Proof.
  revert k reg. induction l as [|r l IH]; intros k reg Hid; [done|]. simpl. apply IH.
  unfold registry_sequencer, registerSequencer, emplace in *. simpl.
  destruct (sequencers_ reg !! ss_id r) eqn:E; [done|]. rewrite lookup_insert_ne; [done|].
  intros <-. by rewrite E in Hid.
Qed.

(** Every other replica is found under its id. *)
Lemma replica_names_lookup k l reg i r :
  NoDup (other_ids l) → (∀ id, id ∈ other_ids l → registry_replica id reg = None) →
  l !! i = Some r → rs_id r ≠ own →
  registry_replica (rs_id r) (replica_names k l reg) = Some (k + i)%nat.
Proof.
  revert k reg i. induction l as [|r0 l IH]; intros k reg i Hnd Hf Hi Hr; [done|]. simpl.
  unfold other_ids in Hnd, Hf. simpl in Hnd, Hf. rewrite filter_cons in Hnd, Hf.
  destruct i as [|i]; simpl in Hi.
  - simplify_eq. rewrite decide_True in Hf by done. rewrite decide_True by done. rewrite Nat.add_0_r. apply replica_names_kept.
    assert (Hnone : replicas_ reg !! rs_id r = None) by (apply Hf; by left).
    unfold registry_replica, registerReplica, emplace. simpl. rewrite Hnone.
    by rewrite lookup_insert_eq.
  - rewrite <-Nat.add_succ_comm. case_decide as Hr0; [|by apply IH].
    apply NoDup_cons in Hnd as [Hnin Hnd]. apply IH; [done| |done|done].
    intros id Hid. unfold registry_replica, registerReplica, emplace. simpl.
    assert (Hnone : replicas_ reg !! rs_id r0 = None) by (apply Hf; by left). rewrite Hnone.
    rewrite lookup_insert_ne; [apply Hf; by right|]. by intros <-.
Qed.

(** The acceptors of all replicas, the own one at the address. *)
Definition acceptor_of (k : nat) (own_acceptor : acceptor) (i : nat) (r : ReplicaServerConfig) : acceptor :=
  if decide (rs_id r = own) then own_acceptor else Remote (k + i).

Lemma acceptor_names_kept k l reg id :
  id ∉ other_ids l → acceptor_names k l reg !! id = reg !! id.
Proof.
  unfold other_ids. revert k reg. induction l as [|r l IH]; intros k reg Hid; [done|]. simpl in *.
  rewrite filter_cons in Hid. case_decide as Hr.
  - apply not_elem_of_cons in Hid as [Hne Hid]. rewrite IH by done. by apply lookup_insert_ne, not_eq_sym.
  - by apply IH.
Qed.
Lemma acceptor_names_lookup k l reg a i r :
  NoDup (other_ids l) → reg !! own = Some a → l !! i = Some r →
  getAcceptor (rs_id r) (acceptor_names k l reg) = Ret (acceptor_of k a i r).
Proof.
  unfold getAcceptor, acceptor_of. intros Hnd Ha Hi. case_decide as Hown.
  - rewrite Hown, acceptor_names_kept, Ha; [done|]. unfold other_ids. by intros [? _]%list_elem_of_filter.
  - clear Ha. revert k reg i Hi Hnd. induction l as [|r0 l IH]; intros k reg i Hi Hnd; [done|]. simpl.
    unfold other_ids in Hnd. simpl in Hnd. rewrite filter_cons in Hnd.
    destruct i as [|i]; simpl in Hi.
    + simplify_eq. rewrite decide_True in Hnd by done. rewrite decide_True by done. apply NoDup_cons in Hnd as [Hnin _].
      rewrite acceptor_names_kept by done. by rewrite lookup_insert_eq, Nat.add_0_r.
    + rewrite <-Nat.add_succ_comm. apply IH; [done|]. case_decide; [by apply NoDup_cons in Hnd as [_ ?]|done].
Qed.
Lemma collect_acceptors k l reg a :
  NoDup (other_ids l) → reg !! own = Some a →
  collect (map (λ id, getAcceptor id (acceptor_names k l reg)) (map rs_id l)) =
  Ret (imap (acceptor_of k a) l).
Proof.
  intros Hnd Ha.
  assert (Hall : ∀ l' j, (∀ i r, l' !! i = Some r → l !! (j + i)%nat = Some r) →
    collect (map (λ id, getAcceptor id (acceptor_names k l reg)) (map rs_id l')) =
    Ret (imap (λ i, acceptor_of k a (j + i)) l')).
  { induction l' as [|r l' IH]; intros j Hj; [done|]. simpl.
    rewrite (acceptor_names_lookup k l reg a (j + 0) r) by (try done; by apply Hj).
    rewrite (IH (S j)).
    - f_equal. f_equal. apply imap_ext. intros i x _. simpl. f_equal. lia.
    - intros i x Hx. rewrite Nat.add_succ_comm. by apply Hj. }
  by apply (Hall l 0%nat).
Qed.
End loops.

(** ** What start leaves *)

Section started.
Context {P D F : Type} `{HD : RocksDB D} `{HF : RocksFiles F D} `{HH : GrpcHost F}.
Abbreviation St := (State (P := P) (D := D)).
Implicit Types (c : ServerConfig) (f : F).

Definition own_id c : string := rs_id (replica_server c).
Definition replica_rocks c : RocksDbConfig :=
  {| path := rs_data_directory (replica_server c); createIfMissing := true; manualWALFlush := true;
     destroyIfExists := false |}.
Definition paxos_rocks c : RocksDbConfig :=
  {| path := paxos_data_directory c; createIfMissing := true; manualWALFlush := true;
     destroyIfExists := false |}.

(** The state of a started server, but for its gRPC servers. *)
Definition started c (db : D) (metadataServer replicaServer sequencerServer : option GrpcServer) : St :=
  let n := length (replica_set c) in
  mkState c (Some (format_address (metric_ip c)))
    (sequencer_names 1 (remote_sequencer_set c)
      (registerSequencer (ss_id (sequencer_server c)) 0
        (replica_names (own_id c) 1 (replica_set c) (registerReplica (own_id c) 0 makeRegistry))))
    (acceptor_names (own_id c) 1 (replica_set c) {[own_id c := Local 0]})
    (LocalReplica (mkReplicaImpl (own_id c) "ReplicaName" makeNanoLogStore InMemory) (replica_rocks c) ::
     map (λ r, RemoteReplica (format_address (rs_ip r))) (replica_set c))
    (LocalSequencer (makeSequencer (ss_id (sequencer_server c)) (seq 1 n)) ::
     map (λ q, RemoteSequencer (format_address (ss_ip q))) (remote_sequencer_set c) ++ [NullSequencer])
    (LocalAcceptor "" {| Rocks.rocks_ := db |} ::
     map (λ r, RemoteAcceptor (format_address (rs_ip r))) (replica_set c))
    (Some (makeMetadataStoreStateMachine (bootstrap_config c) makeMetadataStore)) metadataServer
    (seq 1 n) (Some 0%nat) (Some 0%nat) replicaServer (Some 0%nat) sequencerServer
    (Some {| VirtualLog.metadataConfig := default_MetadataConfig;
             VirtualLog.sequencer := S (length (remote_sequencer_set c));
             VirtualLog.replicaSet := seq 1 n |}).

(** A server that was asked to start at an address, with its services. *)
Definition server_at (address : string) (l : list GrpcService) (o : option GrpcServer) : Prop :=
  o = None ∨ o = Some (mkServer address l).

Lemma run_server address l (s : St) f :
  ∃ o f', on_outside (runRPCServer address l) (s, f) = (Ret o, (s, f')) ∧ server_at address l o.
Proof.
  unfold on_outside, zoom, runRPCServer. simpl.
  destruct (BuildAndStart (mkServer address l) f) as [[] f']; eexists _, f'; split;
    [done|by right|done|by left].
Qed.

(** RocksDB opens, for the acceptor. *)
Definition opens c : Prop := ∀ f, ∃ db f', provideSharedPtr (paxos_rocks c) f = (Ret db, f').

(** Up to the replica sets nothing fails. *)
Lemma make_replicas c f :
  opens c →
  ∃ db om ora f' (s : St),
    (_ ← makeMetricExposer; _ ← makeRemoteMetadataStore; _ ← makeReplicaServer; makeReplicaSet)
      (makeState c, f) = (Ret (), (s, f')) ∧
    server_at (format_address (metadata_ip c)) [MetadataService] om ∧
    server_at (format_address (rs_ip (replica_server c))) [ReplicaService 0; AcceptorService 0] ora ∧
    s = mkState c (Some (format_address (metric_ip c)))
      (replica_names (own_id c) 1 (replica_set c) (registerReplica (own_id c) 0 makeRegistry))
      {[own_id c := Local 0]}
      (LocalReplica (mkReplicaImpl (own_id c) "ReplicaName" makeNanoLogStore InMemory) (replica_rocks c) ::
       map (λ r, RemoteReplica (format_address (rs_ip r))) (replica_set c))
      [] [LocalAcceptor "" {| Rocks.rocks_ := db |}]
      (Some (makeMetadataStoreStateMachine (bootstrap_config c) makeMetadataStore)) om
      (seq 1 (length (replica_set c))) (Some 0%nat) (Some 0%nat) ora None None None.
Proof.
  intros Hopen. unfold makeMetricExposer, makeRemoteMetadataStore, makeReplicaServer, get_state.
  unfold mbind, M_bind, gets, update, modify. simpl.
  set (s1 := set_exposer _ (makeState c)).
  destruct (run_server (format_address (metadata_ip c)) [MetadataService] s1 f) as (om & f1 & Em & Hm).
  rewrite Em. simpl. destruct (Hopen f1) as (db & f2 & Edb).
  unfold on_outside at 1, zoom. simpl. fold (paxos_rocks c). rewrite Edb. simpl.
  match goal with |- context [on_outside (runRPCServer ?a ?l) (?s2, f2)] =>
    destruct (run_server a l s2 f2) as (ora & f3 & Er & Hr) end.
  rewrite Er. unfold registerAcceptor. simpl. rewrite lookup_empty. simpl.
  match goal with |- context [makeReplicaSet (?s3, f3)] => set (s3' := s3) end.
  assert (Hloc : local_replica (own_id c) s3').
  { split; [done|]. by eexists _, _. }
  rewrite (makeReplicaSet_fold (own_id c) s3' f3 Hloc eq_refl).
  exists db, om, ora, f3. eexists. split; [done|]. split; [done|]. split; [done|].
  by rewrite add_remote_all.
Qed.

Lemma bind_assoc {X A B C} (m : M X A) (g : A → M X B) (h : B → M X C) x :
  (y ← (z ← m; g z); h y) x = (z ← m; y ← g z; h y) x.
Proof. mred. by destruct (m x) as [[z| |] x']. Qed.

Lemma bind_cong {X A B} (m : M X A) (g h : A → M X B) x :
  (∀ a y, g a y = h a y) → (y ← m; g y) x = (y ← m; h y) x.
Proof. intros Hgh. mred. destruct (m x) as [[a| |] x']; [apply Hgh|done..]. Qed.

Lemma make_split c f :
  make (makeState c : St, f) =
  (_ ← (_ ← makeMetricExposer; _ ← makeRemoteMetadataStore; _ ← makeReplicaServer; makeReplicaSet);
   _ ← makeAcceptorSet; _ ← makeSequencerServer; _ ← registerSequencers; makeVirtualLog)
    (makeState c, f).
Proof.
  unfold make. rewrite bind_assoc. apply bind_cong. intros _ x.
  rewrite bind_assoc. apply bind_cong. intros _ x'. by rewrite bind_assoc.
Qed.

(** The ids of the other replicas are distinct. *)
Definition distinct_replicas c : Prop := NoDup (other_ids (own_id c) (replica_set c)).

Lemma distinct_fresh c :
  fresh_ids (own_id c) {[own_id c := Local 0]} (replica_set c) ↔ distinct_replicas c.
Proof.
  split; [by intros []|]. intros Hnd. split; [done|]. intros id [Hid _]%list_elem_of_filter.
  by apply lookup_singleton_ne, not_eq_sym.
Qed.

Lemma make_starts c f :
  opens c → distinct_replicas c →
  ∃ db om ora os f', make (makeState c, f) = (Ret (), (started c db om ora os, f')) ∧
    server_at (format_address (metadata_ip c)) [MetadataService] om ∧
    server_at (format_address (rs_ip (replica_server c))) [ReplicaService 0; AcceptorService 0] ora ∧
    server_at (format_address (ss_ip (sequencer_server c))) [SequencerService 0] os.
Proof.
  intros Hopen Hnd. rewrite make_split.
  destruct (make_replicas c f Hopen) as (db & om & ora & f1 & s & E & Hm & Hr & Es).
  rewrite (bind_Ret _ _ _ _ _ E). clear E.
  assert (Hloc : local_replica (own_id c) s) by (subst; split; [done|]; by eexists _, _).
  destruct (makeAcceptorSet_fold (own_id c) s f1 Hloc) as [Hacc _].
  { subst. simpl. by rewrite length_seq. }
  assert (Hcfg : config s = c) by by subst.
  rewrite (bind_Ret _ _ _ _ _ (Hacc ltac:(rewrite Hcfg; subst; by apply distinct_fresh))).
  rewrite Hcfg, add_remote_acceptor_all. subst s. simpl.
  unfold makeSequencerServer, get_state. unfold mbind, M_bind, gets, update, modify. simpl.
  match goal with |- context [on_outside (runRPCServer ?a ?l) (?s2, f1)] =>
    destruct (run_server a l s2 f1) as (os & f2 & Er & Hs) end.
  rewrite Er. simpl.
  match goal with |- context [registerSequencers (?s3, f2)] =>
    rewrite (registerSequencers_fold s3 f2 0%nat eq_refl) end.
  rewrite add_remote_sequencer_all. simpl. unfold makeVirtualLog, get_state.
  unfold mbind, M_bind, gets, update, modify. simpl.
  exists db, om, ora, os, f2. split_and!; [|done..]. unfold started. f_equal. f_equal.
  by rewrite length_map.
Qed.

Lemma make_fails c f :
  opens c → ¬ distinct_replicas c → ∃ (s : St) f', make (makeState c, f) = (Throw AssertFailure, (s, f')).
Proof.
  intros Hopen Hnd. rewrite make_split.
  destruct (make_replicas c f Hopen) as (db & om & ora & f1 & s & E & _ & _ & Es).
  rewrite (bind_Ret _ _ _ _ _ E). clear E.
  assert (Hloc : local_replica (own_id c) s) by (subst; split; [done|]; by eexists _, _).
  destruct (makeAcceptorSet_fold (own_id c) s f1 Hloc) as [_ Hacc].
  { subst. simpl. by rewrite length_seq. }
  assert (Hcfg : config s = c) by by subst.
  destruct Hacc as [s' Hs']; [rewrite Hcfg; subst; by rewrite distinct_fresh|].
  unfold mbind, M_bind. rewrite Hs'. by eexists _, _.
Qed.

(** What the parts of a started server are wired to. *)
Record wired c (s : St) : Prop := {
  (* the own replica, with no segments *)
  wi_own : registry_replica (own_id c) (registry s) = Some 0%nat ∧ replica s = Some 0%nat ∧
    ∃ rc, replicas s !! 0%nat = Some (LocalReplica (mkReplicaImpl (own_id c) "ReplicaName" ∅ InMemory) rc);
  (* the members of the replica set are remote, the own one too *)
  wi_set : replicaSet s = seq 1 (length (replica_set c));
  wi_remote i r : replica_set c !! i = Some r →
    replicas s !! S i = Some (RemoteReplica (format_address (rs_ip r))) ∧
    acceptors s !! S i = Some (RemoteAcceptor (format_address (rs_ip r))) ∧
    getAcceptor (rs_id r) (paxosRegistry s) = Ret (acceptor_of (own_id c) 1 (Local 0) i r) ∧
    (rs_id r ≠ own_id c → registry_replica (rs_id r) (registry s) = Some (S i));
  (* the own sequencer, over the replica set *)
  wi_sequencer : registry_sequencer (ss_id (sequencer_server c)) (registry s) = Some 0%nat ∧
    sequencers s !! 0%nat = Some (LocalSequencer
      (makeSequencerImpl (ss_id (sequencer_server c)) (seq 1 (length (replica_set c))) 1 1 false));
  wi_sequencers i q : remote_sequencer_set c !! i = Some q →
    sequencers s !! S i = Some (RemoteSequencer (format_address (ss_ip q)));
  (* the metadata store is empty, and its first register is over the acceptors
     of all replicas *)
  wi_metadata : ∃ m, metadataStore s = Some m ∧ store_ m = Metadata.empty_store ∧
    next_wor (Some (paxosRegistry s)) m = Ret (makePaxosWriteOnceRegister 1
      (makeProposerImpl (length (replica_set c))
         (imap (acceptor_of (own_id c) 1 (Local 0)) (replica_set c))));
  (* the virtual log has the null sequencer *)
  wi_log : ∃ v, virtualLog s = Some v ∧ VirtualLog.replicaSet v = replicaSet s ∧
    sequencers s !! VirtualLog.sequencer v = Some NullSequencer }.

Lemma started_wired c db om ora os : distinct_replicas c → wired c (started c db om ora os).
Proof.
  intros Hnd. split; simpl.
  - split_and!; [|done|by eexists]. unfold registry_replica. rewrite sequencer_names_replicas. simpl.
    change (registry_replica (own_id c) (replica_names (own_id c) 1 (replica_set c)
      (registerReplica (own_id c) 0 makeRegistry)) = Some 0%nat).
    apply replica_names_kept. unfold registry_replica, registerReplica, emplace. simpl.
    rewrite lookup_empty. by rewrite lookup_insert_eq.
  - done.
  - intros i r Hi. rewrite !list_lookup_fmap. change (list_fmap) with (@fmap list _). 
    split_and!.
    + by rewrite Hi.
    + by rewrite Hi.
    + apply acceptor_names_lookup; [done| |done]. by rewrite lookup_singleton_eq.
    + intros Hne. unfold registry_replica. rewrite sequencer_names_replicas. simpl.
      change (registry_replica (rs_id r) (replica_names (own_id c) 1 (replica_set c)
        (registerReplica (own_id c) 0 makeRegistry)) = Some (1 + i)%nat).
      apply replica_names_lookup; [done| |done|done].
      intros id [Hid _]%list_elem_of_filter. unfold registry_replica, registerReplica, emplace. simpl.
      rewrite lookup_empty, lookup_insert_ne by (by intros <-). by rewrite lookup_empty.
  - split; [|done]. apply sequencer_names_kept. unfold registry_sequencer, registerSequencer, emplace. simpl.
    rewrite replica_names_sequencers. simpl. by rewrite lookup_empty, lookup_insert_eq.
  - intros i q Hi. rewrite lookup_app_l by (rewrite length_map; by eapply lookup_lt_Some).
    rewrite list_lookup_fmap. by rewrite Hi.
  - eexists. split_and!; [done..|]. unfold next_wor, makePaxosWor.
    assert (Eids : map replica_id (replica_set_config (bootstrap_config c)) = map rs_id (replica_set c))
      by (simpl; by rewrite map_map).
    simpl currentConfig_. rewrite Eids. simpl.
    rewrite (collect_acceptors (own_id c) 1 (replica_set c) {[own_id c := Local 0]} (Local 0));
      [|done|by rewrite lookup_singleton_eq].
    by rewrite length_map.
  - eexists. split_and!; [done..|]. simpl. rewrite lookup_app_r by by rewrite length_map.
    by rewrite length_map, Nat.sub_diag.
Qed.

(** ** Theorems *)

(** Starting a server.  When RocksDB opens and the ids of the other replicas
    are distinct, [start] returns and leaves the parts wired: the registry has
    the own replica and sequencer as local objects and every other replica as a
    remote one at its address; the replica set of the sequencer and of the
    virtual log are remote replicas in the order of the configuration; the
    first register of the metadata store is over the acceptors of all replicas,
    the own one local.  When two of the ids are the same an assertion fails. *)
Theorem start_spec c f :
  opens c →
  (distinct_replicas c → ∃ (s : St) f',
     start (makeLogServer c, f) = (Ret (), (mkLogServer c (Some s), f')) ∧ wired c s) ∧
  (¬ distinct_replicas c → ∃ f',
     start (makeLogServer c : LogServer (P := P), f) = (Throw AssertFailure, (makeLogServer c, f'))).
Proof.
  intros Hopen. split; intros Hnd; unfold start; simpl.
  - destruct (make_starts c f Hopen Hnd) as (db & om & ora & os & f' & -> & _).
    eexists _, f'. split; [done|]. by apply started_wired.
  - destruct (make_fails c f Hopen Hnd) as (s & f' & ->). by eexists.
Qed.

(** Until it is reconfigured the log of a started server takes no appends. *)
Theorem started_log_cannot_append c (s : St) w v x :
  wired c s → w_sequencers w = map sequencer_view (sequencers s) →
  virtualLog s = Some v → w_vlogs w !! 0%nat = Some v →
  interp handle (VirtualLog.append 0 x) w = (Throw NullSequencerException, w).
Proof.
  intros Hw Hseq Hv Hl. destruct (wi_log c s Hw) as (v' & Hv' & _ & Hnull). simplify_eq.
  simpl. rewrite Hl. simpl. rewrite Hseq, list_lookup_fmap, Hnull. done.
Qed.

(** The configurations of one cluster: the same replica set everywhere, with
    distinct ids, whose i-th member is the i-th server. *)
Record consistent (cs : list ServerConfig) (rs : list ReplicaServerConfig) : Prop := {
  co_distinct : NoDup (map rs_id rs);
  co_length : length cs = length rs;
  co_member i c : cs !! i = Some c → replica_set c = rs ∧
    ∃ r, rs !! i = Some r ∧ rs_id r = own_id c ∧ rs_ip r = rs_ip (replica_server c) }.

Lemma consistent_distinct cs rs i c : consistent cs rs → cs !! i = Some c → distinct_replicas c.
Proof.
  intros Hc Hi. destruct (co_member _ _ Hc i c Hi) as [E _].
  unfold distinct_replicas, other_ids. rewrite E. apply NoDup_filter, (co_distinct _ _ Hc).
Qed.

(** C33: the servers of a cluster are wired to each other.  Started from
    consistent configurations, the j-th member of the replica set of the i-th
    server calls the address at which the j-th server serves its own replica
    and its own acceptor, and the register of the metadata store asks there
    too, except for the own acceptor, which it asks directly. *)
Theorem cluster_wired cs rs i j ci cj fi fj :
  consistent cs rs → opens ci → opens cj → cs !! i = Some ci → cs !! j = Some cj →
  ∃ (si sj : St) fi' fj' k a,
    start (makeLogServer ci, fi) = (Ret (), (mkLogServer ci (Some si), fi')) ∧
    start (makeLogServer cj, fj) = (Ret (), (mkLogServer cj (Some sj), fj')) ∧
    (replicaGRPCServer sj = None ∨
     replicaGRPCServer sj = Some (mkServer a [ReplicaService 0; AcceptorService 0])) ∧
    (∃ rc, replicas sj !! 0%nat =
       Some (LocalReplica (mkReplicaImpl (own_id cj) "ReplicaName" ∅ InMemory) rc)) ∧
    replicaSet si !! j = Some k ∧ replicas si !! k = Some (RemoteReplica a) ∧
    acceptors si !! k = Some (RemoteAcceptor a) ∧
    getAcceptor (own_id cj) (paxosRegistry si) = Ret (if decide (i = j) then Local 0 else Remote k).
Proof.
  intros Hc Hoi Hoj Hi Hj. pose proof (consistent_distinct _ _ _ _ Hc Hi) as Hdi.
  pose proof (consistent_distinct _ _ _ _ Hc Hj) as Hdj.
  destruct (co_member _ _ Hc i ci Hi) as (Eri & ri & Hri & Eidi & _).
  destruct (co_member _ _ Hc j cj Hj) as (Erj & rj & Hrj & Eidj & Eip).
  destruct (make_starts ci fi Hoi Hdi) as (dbi & omi & orai & osi & fi' & Ei & _).
  destruct (make_starts cj fj Hoj Hdj) as (dbj & omj & oraj & osj & fj' & Ej & _ & Hserver & _).
  pose proof (started_wired ci dbi omi orai osi Hdi) as Wi.
  pose proof (started_wired cj dbj omj oraj osj Hdj) as Wj.
  exists (started ci dbi omi orai osi), (started cj dbj omj oraj osj), fi', fj', (S j),
    (format_address (rs_ip rj)).
  unfold start. simpl state_. simpl config_. rewrite Ei, Ej.
  assert (Hj' : replica_set ci !! j = Some rj) by by rewrite Eri.
  destruct (wi_remote ci _ Wi j rj Hj') as (Hrep & Hacc & Hget & _).
  split_and!; [done|done| | |rewrite (wi_set ci _ Wi)|exact Hrep|exact Hacc|].
  - simpl. rewrite Eip. destruct Hserver as [->| ->]; auto.
  - apply (wi_own cj _ Wj).
  - rewrite Eri. apply lookup_lt_Some in Hrj. rewrite lookup_seq_lt by done. done.
  - rewrite <-Eidj, Hget. unfold acceptor_of. f_equal.
    destruct (decide (i = j)) as [->|Hne]; [by rewrite decide_True by congruence|].
    rewrite decide_False; [done|]. intros E. destruct Hne.
    eapply (NoDup_lookup (map rs_id rs) i j (rs_id rj)); [apply (co_distinct _ _ Hc)| |].
    + rewrite list_lookup_fmap, Hri. simpl. by rewrite Eidi, E.
    + by rewrite list_lookup_fmap, Hrj.
Qed.
End started.

(** ** The configurations of [src/configs/] *)

#[local] Instance one_file : RocksFiles () MemDB :=
  {| DestroyDB _ f := (StatusOk, f); DB_Open _ f := (StatusOk, Some empty_db, f) |}.
#[local] Instance free_ports : GrpcHost () := λ _ f, (true, f).

Definition local_ip (p : Z) : IpAddress := {| host := "127.0.0.1"; port := p |}.
Definition srv_names : list (string * Z) := [("00", 1); ("01", 2); ("02", 3); ("03", 4); ("04", 5)]%string.
Definition srv_replicas : list ReplicaServerConfig :=
  map (λ x : string * Z, mkReplicaServer ("REPLICA_" +:+ x.1) (local_ip (x.2 * 10000 + 2))
         ("/tmp/data/REPLICA_" +:+ x.1 +:+ "/")) srv_names.
(** [srv1_config.textproto] to [srv5_config.textproto] *)
Definition srv_config (x : string * Z) : ServerConfig := {|
  sequencer_server := mkSequencerServer ("SEQUENCER_" +:+ x.1) (local_ip (x.2 * 10000 + 1));
  replica_server := mkReplicaServer ("REPLICA_" +:+ x.1) (local_ip (x.2 * 10000 + 2)) "";
  metadata_ip := local_ip 60003;
  metric_ip := local_ip (x.2 * 10000 + 99);
  paxos_data_directory := "/tmp/data/PAXOS_" +:+ x.1 +:+ "/";
  replica_set := srv_replicas;
  remote_sequencer_set :=
    map (λ y : string * Z, mkSequencerServer ("SEQUENCER_" +:+ y.1) (local_ip (y.2 * 10000 + 1)))
      (filter (λ y : string * Z, y ≠ x) srv_names) |}.
Definition srv_configs : list ServerConfig := map srv_config srv_names.

Lemma srv_consistent : consistent srv_configs srv_replicas.
Proof.
  split.
  - apply (bool_decide_unpack _). vm_compute. done.
  - done.
  - intros i c Hi. unfold srv_configs in Hi. rewrite list_lookup_fmap in Hi.
    apply fmap_Some in Hi as (x & Hx & ->). split; [done|].
    eexists. unfold srv_replicas. rewrite list_lookup_fmap, Hx. by split_and!.
Qed.
Lemma srv_opens c : opens c.
Proof. intros []. by exists empty_db, (). Qed.

Definition srv1 : ServerConfig := srv_config ("00"%string, 1).
Definition srv2 : ServerConfig := srv_config ("01"%string, 2).
Definition duplicate : ServerConfig :=
  {| sequencer_server := sequencer_server srv1; replica_server := replica_server srv1;
     metadata_ip := metadata_ip srv1; metric_ip := metric_ip srv1;
     paxos_data_directory := paxos_data_directory srv1;
     replica_set := srv_replicas ++ srv_replicas; remote_sequencer_set := [] |}.

Lemma start_spec_witness :
  (∃ (s : State (P := nat) (D := MemDB)) f',
     start (makeLogServer srv1, ()) = (Ret (), (mkLogServer srv1 (Some s), f')) ∧
     registry_replica "REPLICA_03" (registry s) = Some 4%nat ∧
     replicas s !! 4%nat = Some (RemoteReplica "127.0.0.1:40002")) ∧
  (∃ f', start (makeLogServer duplicate : LogServer (P := nat), ()) =
     (Throw AssertFailure, (makeLogServer duplicate, f'))).
Proof.
  split.
  - destruct (start_spec (P := nat) srv1 () (srv_opens srv1)) as [Hs _].
    destruct Hs as (s & f' & E & W).
    { apply (consistent_distinct srv_configs srv_replicas 0%nat); [exact srv_consistent|done]. }
    exists s, f'. split; [exact E|].
    destruct (wi_remote srv1 s W 3%nat (mkReplicaServer "REPLICA_03" (local_ip 40002)
      "/tmp/data/REPLICA_03/")) as (Hr & _ & _ & Hn); [done|].
    split; [apply Hn; vm_compute; done|]. rewrite Hr. vm_compute. done.
  - destruct (start_spec (P := nat) duplicate () (srv_opens duplicate)) as [_ Hs].
    apply Hs. unfold distinct_replicas. apply (bool_decide_unpack _). vm_compute. done.
Defined.

Lemma cluster_wired_witness :
  ∃ (s : State (P := nat) (D := MemDB)) k a,
    replicaSet s !! 1%nat = Some k ∧ replicas s !! k = Some (RemoteReplica a) ∧
    acceptors s !! k = Some (RemoteAcceptor a) ∧
    getAcceptor "REPLICA_01" (paxosRegistry s) = Ret (Remote k).
Proof.
  destruct (cluster_wired (P := nat) srv_configs srv_replicas 0 1 srv1 srv2 () () srv_consistent
    (srv_opens srv1) (srv_opens srv2) eq_refl eq_refl)
    as (s & _ & _ & _ & k & a & _ & _ & _ & _ & Hk & Hr & Ha & Hg).
  exists s, k, a. split; [exact Hk|]. split; [exact Hr|]. split; [exact Ha|]. exact Hg.
Defined.
