(* ===== verification/Schema.v ===== *)
(** * The database: schemas

    [src/applications/mydb/backend/]: the messages of [proto/db.proto], the
    lookups of a table's schema ([Common.h]), the values of a row
    ([TableRow.h]), the default columns ([DbDefaults.cc]), the store of schemas
    ([SchemaStore.h]) and the error codes ([Errors.h]). *)

From stdpp Require Import base gmap sets list strings pretty.
From Stdlib Require Import ZArith Lia.
From S2P Require Import Prelude.

Open Scope Z_scope.

(** ** Messages; ids are [uint32] *)

Definition in_u32 (z : Z) : bool := bool_decide (0 ≤ z < 2 ^ 32).
Definition wrap32 (z : Z) : Z := z `mod` 2 ^ 32.

Inductive COLUMN_TYPE := INT64 | STRING.
#[export] Instance COLUMN_TYPE_eq_dec : EqDecision COLUMN_TYPE.
Proof. solve_decision. Defined.

Record Database := { db_id : Z; db_name : string }.
Record Column := { col_id : Z; col_name : string; column_type : COLUMN_TYPE }.
(** [PrimaryKeyIndex] and [SecondaryIndex] *)
Record Index := { index_id : Z; index_name : string; column_ids : list Z }.
Record Table := {
  table_id : Z;
  table_name : string;
  table_db : Database;
  columns : list Column;
  primary_key_index : Index;
  secondary_index : list Index }.

Definition default_Database : Database := {| db_id := 0; db_name := "" |}.

(** ** The values of a row *)

Inductive ColumnValue := IntValue (z : Z) | StringValue (s : string).
#[export] Instance ColumnValue_eq_dec : EqDecision ColumnValue.
Proof. solve_decision. Defined.

Definition toString (v : ColumnValue) : string :=
  match v with IntValue z => pretty z | StringValue s => s end.

(** The key-value pairs of one row in the store. *)
Abbreviation RawTableRow := (list (string * string)).

(** ** TableSchema *)

Record TableSchema := mkTableSchema {
  table_ : Table;
  columnIdToColLookup_ : gmap Z Column;
  columnNameToColLookup_ : gmap string Column;
  indexLookup_ : gmap Z Index;
  primaryKeyColumns_ : gset Z;
  secondaryKeyColumns_ : gmap Z (gset Z);
  colIdToSecondaryIdx_ : gmap Z (gset Z) }.

(** [m[k].insert(x)] *)
Definition insert_into (k x : Z) (m : gmap Z (gset Z)) : gmap Z (gset Z) :=
  <[k := {[x]} ∪ default ∅ (m !! k)]> m.

Definition makeTableSchema (table : Table) : TableSchema :=
  {| table_ := table;
     columnIdToColLookup_ := foldl (λ m c, <[col_id c := c]> m) ∅ (columns table);
     columnNameToColLookup_ := foldl (λ m c, <[col_name c := c]> m) ∅ (columns table);
     indexLookup_ := foldl (λ m i, <[index_id i := i]> m) ∅ (secondary_index table);
     primaryKeyColumns_ := foldl (λ s c, {[c]} ∪ s) ∅ (column_ids (primary_key_index table));
     secondaryKeyColumns_ := foldl (λ m i,
       foldl (λ m c, insert_into (index_id i) c m) m (column_ids i)) ∅ (secondary_index table);
     colIdToSecondaryIdx_ := foldl (λ m i,
       foldl (λ m c, insert_into c (index_id i) m) m (column_ids i)) ∅ (secondary_index table) |}.

(** [at] throws when the key is missing. *)
Definition at_or_throw {A} (x : option A) : outcome A :=
  match x with Some a => Ret a | None => Throw OutOfRange end.

Definition getColumn (colId : Z) (s : TableSchema) : outcome Column :=
  at_or_throw (columnIdToColLookup_ s !! colId).
Definition getColumnId (colName : string) (s : TableSchema) : outcome Z :=
  at_or_throw (col_id <$> columnNameToColLookup_ s !! colName).
Definition getColumnName (colId : Z) (s : TableSchema) : outcome string :=
  at_or_throw (col_name <$> columnIdToColLookup_ s !! colId).
Definition isPrimaryKeyColumn (colId : Z) (s : TableSchema) : bool :=
  bool_decide (colId ∈ primaryKeyColumns_ s).
Definition isPrimaryKeyColumnName (colName : string) (s : TableSchema) : bool :=
  match columnNameToColLookup_ s !! colName with
  | Some c => isPrimaryKeyColumn (col_id c) s
  | None => false
  end.
Definition isSecondIndexColumn (idxId colId : Z) (s : TableSchema) : bool :=
  match secondaryKeyColumns_ s !! idxId with
  | Some cols => bool_decide (colId ∈ cols)
  | None => false
  end.
Definition indexIds (colId : Z) (s : TableSchema) : gset Z :=
  match colIdToSecondaryIdx_ s !! colId with
  | Some idxs => idxs
  | None => ∅
  end.
Definition getColumnType (colId : Z) (s : TableSchema) : option COLUMN_TYPE :=
  column_type <$> columnIdToColLookup_ s !! colId.
Definition getSecondaryIndexById (idxId : Z) (s : TableSchema) : outcome Index :=
  at_or_throw (indexLookup_ s !! idxId).

(** ** Default columns *)

Definition LOCK_MODE_NAME : string := "__internal__lock_mode".
Definition LOCK_MODE_COL_ID : Z := 1001.
Definition getTableDefaultColumns : list Column :=
  [{| col_id := LOCK_MODE_COL_ID; col_name := LOCK_MODE_NAME; column_type := INT64 |}].

Inductive LockType := NO_LOCK | WRITE_LOCK | READ_LOCK.
(** [enumToInteger] *)
Definition LockType_value (l : LockType) : Z :=
  match l with NO_LOCK => 0 | WRITE_LOCK => 1 | READ_LOCK => 2 end.

Inductive ErrorCode :=
  | UNKNOWN_ERROR
  | UPDATE_CONDITION_FAILED
  | ROW_ALREADY_EXISTS
  | DATABASE_DOES_NOT_EXIST
  | DATABASE_ALREADY_EXISTS
  | TABLE_DOES_NOT_EXIST
  | TABLE_ALREADY_EXISTS.
Definition ErrorCode_value (e : ErrorCode) : Z :=
  match e with
  | UNKNOWN_ERROR => 0 | UPDATE_CONDITION_FAILED => 1 | ROW_ALREADY_EXISTS => 2
  | DATABASE_DOES_NOT_EXIST => 3 | DATABASE_ALREADY_EXISTS => 4
  | TABLE_DOES_NOT_EXIST => 5 | TABLE_ALREADY_EXISTS => 6
  end.
Definition makeDbError (e : ErrorCode) : exn := DbError (ErrorCode_value e).

(** ** SchemaStore *)

Record DatabaseStore := { database : Database; tableLookup : gmap string Table }.
Definition empty_DatabaseStore : DatabaseStore :=
  {| database := default_Database; tableLookup := ∅ |}.
Abbreviation SchemaStore := (gmap string DatabaseStore).

Definition getDatabase (dbName : string) (lookup_ : SchemaStore) : option Database :=
  database <$> lookup_ !! dbName.

Definition getTable (dbName tableName : string) (lookup_ : SchemaStore) : option Table :=
  d ← lookup_ !! dbName; tableLookup d !! tableName.

Definition registerDb (dbName : string) (db : Database) : M SchemaStore bool := λ lookup_,
  match lookup_ !! dbName with
  | Some _ => (Ret false, lookup_)
  | None => (Ret true, <[dbName := {| database := db; tableLookup := ∅ |}]> lookup_)
  end.

(** [operator[]] makes an empty entry for a database that is missing. *)
Definition registerTable (dbName tableName : string) (table : Table) : M SchemaStore bool :=
  λ lookup_,
  match getTable dbName tableName lookup_ with
  | Some _ => (Ret false, lookup_)
  | None =>
      let d := default empty_DatabaseStore (lookup_ !! dbName) in
      (Ret true, <[dbName := {| database := database d;
                                tableLookup := <[tableName := table]> (tableLookup d) |}]> lookup_)
  end.
