(* ===== verification/KeySerializer.v ===== *)
(** * The database: keys

    [src/applications/mydb/backend/KeySerializer.cc]: the keys under which the
    parts of a row are stored, and their parser.  A key is a sequence of tokens
    between slashes, a slash inside a token being doubled. *)

From stdpp Require Import base gmap list strings pretty.
From Stdlib Require Import ZArith Lia Ascii.
From S2P Require Import Prelude Schema.

Open Scope Z_scope.

(** [folly::to] for ids and values; [None] is its conversion error. *)
Class DbConv := {
  to_uint32 : string → option Z;
  to_int64 : string → option Z }.

Definition conversion (x : option Z) : outcome Z :=
  match x with Some z => Ret z | None => Throw (RuntimeError "conversion error") end.

Definition SLASH : ascii := "/".

(** [fmt::format("{:04}", num)] *)
Fixpoint zeros (n : nat) : string :=
  match n with O => "" | S n' => String "0" (zeros n') end.
Definition pad (num : Z) : string :=
  zeros (4 - String.length (pretty num)) +:+ pretty num.

(** What the code relies on: numerals, with leading zeros too, are read back. *)
Class DbConvLaws `{DbConv} : Prop := {
  to_uint32_pad z : in_u32 z = true → to_uint32 (pad z) = Some z;
  to_int64_pretty z : in_i64 z = true → to_int64 (pretty z) = Some z }.

(** ** Escaping *)

Fixpoint escapeString (input : string) : string :=
  match input with
  | EmptyString => EmptyString
  | String c s =>
      if decide (c = SLASH) then String SLASH (String SLASH (escapeString s))
      else String c (escapeString s)
  end.

(** [parse(str, startIndex)]: the token at the index, and the string from the
    new index on. *)
Fixpoint parse (str : string) : string * string :=
  match str with
  | EmptyString => (EmptyString, EmptyString)
  | String c s =>
      if decide (c = SLASH) then
        match s with
        | EmptyString => (EmptyString, s)
        | String c' s' =>
            if decide (c' = SLASH) then let '(token, rest) := parse s' in (String SLASH token, rest)
            else (EmptyString, s)
        end
      else let '(token, rest) := parse s in (String c token, rest)
  end.

(** ** Writing keys *)

(** The column id and the value of each column of an index. *)
Fixpoint key_parts (columnIds : list Z) (values : list ColumnValue) : outcome string :=
  match values with
  | [] => Ret EmptyString
  | v :: values' =>
      match columnIds with
      | [] => Throw OutOfRange
      | c :: columnIds' =>
          match key_parts columnIds' values' with
          | Ret rest => Ret ("/" +:+ pad c +:+ "/" +:+ escapeString (toString v) +:+ rest)
          | o => o
          end
      end
  end.

Definition minimumIndexKey (table : Table) (indexId : Z) : string :=
  pad (db_id (table_db table)) +:+ "/" +:+ pad (table_id table) +:+ "/" +:+ pad indexId.

Definition append_key (k : string) (o : outcome string) : outcome string :=
  match o with Ret rest => Ret (k +:+ rest) | _ => o end.

Definition primaryKey (table : Table) (values : list ColumnValue) : outcome string :=
  if decide (length (column_ids (primary_key_index table)) = length values) then
    append_key
      (pad (db_id (table_db table)) +:+ "/" +:+ pad (table_id table) +:+ "/" +:+
       pad (index_id (primary_key_index table)))
      (key_parts (column_ids (primary_key_index table)) values)
  else Throw AssertFailure.

Definition maximumIndexKey (table : Table) (indexId : Z) (values : list ColumnValue)
    : outcome string :=
  if index_id (primary_key_index table) =? indexId then
    match primaryKey table values with
    | Ret k => Ret (k +:+ "/" +:+ "ZZZZZZ")
    | o => o
    end
  else Throw (RuntimeError "i should not be here").

Definition columnKey (primaryKey : string) (colId : Z) : string :=
  primaryKey +:+ "/" +:+ pad colId.

Definition find_index (indexId : Z) (table : Table) : option Index :=
  head (filter (λ i, index_id i = indexId) (secondary_index table)).

Definition secondaryIndexKey (table : Table) (indexId : Z)
    (values primaryValues : list ColumnValue) : outcome string :=
  match find_index indexId table with
  | None => Throw AssertFailure
  | Some secondaryIndex =>
      if decide (length (column_ids secondaryIndex) = length values) then
        match key_parts (column_ids secondaryIndex) values with
        | Ret parts =>
            append_key (minimumIndexKey table indexId +:+ parts)
              (key_parts (column_ids (primary_key_index table)) primaryValues)
        | o => o
        end
      else Throw AssertFailure
  end.

Definition maximumSecondaryIndexKey (table : Table) (indexId : Z)
    (primaryKeyValues secondaryKeyValues : list ColumnValue) : outcome string :=
  match find_index indexId table with
  | None => Throw (RuntimeError "i should not be here")
  | Some _ =>
      match secondaryIndexKey table indexId secondaryKeyValues primaryKeyValues with
      | Ret k => Ret (k +:+ "/" +:+ "ZZZZZZ")
      | o => o
      end
  end.

(** ** Parsing keys *)

Record KeyIndex := { indexId : Z; values : list string }.
Record KeyFragments := mkKeyFragments {
  dbId : option Z;
  tableId : option Z;
  primaryIndex : option KeyIndex;
  colId : option Z;
  secondaryIndex : option KeyIndex }.

Inductive TokenType :=
  | DB_ID
  | TBL_ID
  | INDEX_ID
  | PRIMARY_KEY_PARTS
  | COL_ID
  | SECONDARY_INDEX_KEY_PARTS.

(** The local variables of [parseKey]; of the secondary index the code uses the
    number of columns. *)
Record ParseState := mkParseState {
  current : TokenType;
  indexKeyPartsColId : bool;
  keyFragments : KeyFragments;
  secondaryIndexColumns : nat }.

Definition add_value (token : string) (i : option KeyIndex) : option KeyIndex :=
  (λ i, {| indexId := indexId i; values := values i ++ [token] |}) <$> i.
Definition value_count (i : option KeyIndex) : nat :=
  match i with Some i => length (values i) | None => 0 end.

Definition set_primary (i : option KeyIndex) (f : KeyFragments) : KeyFragments :=
  mkKeyFragments (dbId f) (tableId f) i (colId f) (secondaryIndex f).
Definition set_secondary (i : option KeyIndex) (f : KeyFragments) : KeyFragments :=
  mkKeyFragments (dbId f) (tableId f) (primaryIndex f) (colId f) i.

Section conv.
Context `{DbConv}.

Definition with_id {A} (token : string) (f : Z → A) : outcome A :=
  match conversion (to_uint32 token) with
  | Ret z => Ret (f z)
  | Throw e => Throw e
  | Block => Block
  end.

(** The [switch] of [parseKey]. *)
Definition parse_token (table : Table) (token : string) (st : ParseState) : outcome ParseState :=
  let '(mkParseState current parts f cols) := st in
  match current with
  | DB_ID =>
      with_id token (λ z, mkParseState TBL_ID parts
        (mkKeyFragments (Some z) (tableId f) (primaryIndex f) (colId f) (secondaryIndex f)) cols)
  | TBL_ID =>
      with_id token (λ z, mkParseState INDEX_ID parts
        (mkKeyFragments (dbId f) (Some z) (primaryIndex f) (colId f) (secondaryIndex f)) cols)
  | INDEX_ID =>
      with_id token (λ z,
        if z =? 0 then
          mkParseState PRIMARY_KEY_PARTS parts
            (set_primary (Some {| indexId := z; values := [] |}) f) cols
        else
          mkParseState SECONDARY_INDEX_KEY_PARTS parts
            (set_secondary (Some {| indexId := z; values := [] |}) f)
            (match find_index z table with Some i => length (column_ids i) | None => cols end))
  | PRIMARY_KEY_PARTS =>
      let f' := if parts then f else set_primary (add_value token (primaryIndex f)) f in
      Ret (mkParseState
        (if decide (value_count (primaryIndex f') = length (column_ids (primary_key_index table)))
         then COL_ID else PRIMARY_KEY_PARTS)
        (negb parts) f' cols)
  | COL_ID =>
      with_id token (λ z, mkParseState COL_ID parts
        (mkKeyFragments (dbId f) (tableId f) (primaryIndex f) (Some z) (secondaryIndex f)) cols)
  | SECONDARY_INDEX_KEY_PARTS =>
      let f' := if parts then f else set_secondary (add_value token (secondaryIndex f)) f in
      Ret (if decide (value_count (secondaryIndex f') = cols)
           then mkParseState PRIMARY_KEY_PARTS (negb parts)
                  (set_primary (Some {| indexId := 0; values := [] |}) f') cols
           else mkParseState SECONDARY_INDEX_KEY_PARTS (negb parts) f' cols)
  end.

(** The loop; every round reads at least one character. *)
Fixpoint parse_loop (fuel : nat) (table : Table) (st : ParseState) (key : string)
    : outcome KeyFragments :=
  match key with
  | EmptyString => Ret (keyFragments st)
  | _ =>
      match fuel with
      | O => Block
      | S fuel' =>
          let '(token, rest) := parse key in
          match parse_token table token st with
          | Ret st' => parse_loop fuel' table st' rest
          | Throw e => Throw e
          | Block => Block
          end
      end
  end.

Definition initial_state : ParseState :=
  mkParseState DB_ID true (mkKeyFragments None None None None None) 0.
Definition parseKey (table : Table) (key : string) : outcome KeyFragments :=
  parse_loop (String.length key) table initial_state key.
End conv.

(** ** Tokens *)

(** A token the parser finds again: not empty, and without a slash at its
    start, which would double the separator before it. *)
Definition token_ok (t : string) : Prop :=
  match t with EmptyString => False | String c _ => c ≠ SLASH end.
#[export] Instance token_ok_dec t : Decision (token_ok t).
Proof. destruct t; simpl; apply _. Defined.

(** The tokens of a key, escaped, between slashes. *)
Fixpoint join (ts : list string) : string :=
  match ts with
  | [] => EmptyString
  | [t] => escapeString t
  | t :: ts' => escapeString t +:+ "/" +:+ join ts'
  end.

Lemma string_app_assoc (a b c : string) : (a +:+ b) +:+ c = a +:+ (b +:+ c).
Proof. induction a as [|x a IH]; [done|]. exact (f_equal (String x) IH). Qed.
Lemma string_app_nil (s : string) : s +:+ "" = s.
Proof. induction s as [|c s IH]; [done|]. exact (f_equal (String c) IH). Qed.

Lemma string_app_cons c (s t : string) : String c s +:+ t = String c (s +:+ t).
Proof. done. Qed.
Lemma string_app_empty (t : string) : "" +:+ t = t.
Proof. done. Qed.
Lemma slash_app (t : string) : "/" +:+ t = String SLASH t.
Proof. done. Qed.
(** Computing with [+:+], which [simpl] leaves alone. *)
Ltac sapp := rewrite ?slash_app, ?string_app_assoc, ?string_app_cons, ?string_app_empty; simpl.

Lemma escape_ok t : token_ok t → token_ok (escapeString t).
Proof. destruct t as [|c t]; simpl; [done|]. intros Hc. by rewrite decide_False. Qed.

Lemma join_ok t ts : token_ok t → token_ok (join (t :: ts)).
Proof.
  intros Ht%escape_ok. destruct ts; simpl; [done|]. by destruct (escapeString t); sapp.
Qed.

(** The parser undoes the escaping, up to a separator. *)
Lemma parse_escape t rest :
  token_ok rest → parse (escapeString t +:+ "/" +:+ rest) = (t, rest).
Proof.
  intros Hr. rewrite slash_app. induction t as [|c t IH]; simpl; sapp.
  - destruct rest as [|c rest]; [done|]. simpl in Hr. by rewrite decide_False.
  - destruct (decide (c = SLASH)) as [->|Hc]; sapp.
    + by rewrite IH.
    + by rewrite decide_False, IH.
Qed.
Lemma parse_last t : parse (escapeString t) = (t, "").
Proof.
  induction t as [|c t IH]; [done|]. simpl. destruct (decide (c = SLASH)) as [->|Hc]; simpl.
  - by rewrite IH.
  - by rewrite decide_False, IH.
Qed.

Lemma parse_join t ts : Forall token_ok ts → parse (join (t :: ts)) = (t, join ts).
Proof.
  intros Hts. destruct Hts as [|t' ts Ht' _]; [apply parse_last|].
  apply parse_escape. by apply join_ok.
Qed.

Lemma parse_shorter c s : (String.length (parse (String c s)).2 < String.length (String c s))%nat.
Proof.
  assert (Hall : ∀ n s, (String.length s ≤ n)%nat →
    match s with "" => True | String _ _ => (String.length (parse s).2 < String.length s)%nat end).
  { clear. induction n as [|n IH]; intros [|c s] Hn; simpl in *; try done; try lia.
    assert (Hs : ∀ u, (String.length u ≤ n)%nat → (String.length (parse u).2 ≤ String.length u)%nat).
    { intros [|d u] Hu; [done|]. specialize (IH (String d u) Hu). simpl in *. lia. }
    destruct (decide (c = SLASH)).
    - destruct s as [|c' s']; [simpl; lia|]. destruct (decide (c' = SLASH)); [|simpl; lia].
      specialize (Hs s'). destruct (parse s') as [t r]. simpl in *. lia.
    - specialize (Hs s). destruct (parse s) as [t r]. simpl in *. lia. }
  exact (Hall _ (String c s) (le_n _)).
Qed.

(** Numerals contain no slash. *)
Fixpoint no_slash (s : string) : Prop :=
  match s with EmptyString => True | String c s' => c ≠ SLASH ∧ no_slash s' end.

Lemma escape_no_slash s : no_slash s → escapeString s = s.
Proof.
  induction s as [|c s IH]; simpl; [done|]. intros [? ?]. by rewrite decide_False, IH.
Qed.
Lemma no_slash_app s t : no_slash s → no_slash t → no_slash (s +:+ t).
Proof. induction s as [|c s IH]; [done|]. intros [? ?] ?. split; [done|auto]. Qed.

Lemma pretty_N_char_slash d : (d < 10)%N → pretty_N_char d ≠ SLASH.
Proof. intros Hd. destruct d as [|d]; [done|]. do 10 (destruct d as [d|d|]; try done; try lia). Qed.

Lemma pretty_N_go_ok x s :
  no_slash s → no_slash (pretty_N_go x s) ∧ (token_ok s ∨ (0 < x)%N → token_ok (pretty_N_go x s)).
Proof.
  revert s. induction (N.lt_wf_0 x) as [x _ IH]; intros s Hs.
  destruct (decide (0 < x)%N) as [Hx|Hx].
  - rewrite pretty_N_go_step by done.
    pose proof (pretty_N_char_slash (x `mod` 10) (N.mod_lt x 10 ltac:(done))) as Hc.
    destruct (IH (x `div` 10)%N (N.div_lt x 10 Hx eq_refl) (String (pretty_N_char (x `mod` 10)) s))
      as [Hn Ht].
    { done. }
    split; [done|]. intros _. apply Ht. by left.
  - assert (x = 0%N) as -> by lia. rewrite pretty_N_go_0. split; [done|]. intros [?|?]; [done|lia].
Qed.

Lemma pretty_Z_ok (z : Z) : no_slash (pretty z) ∧ token_ok (pretty z).
Proof.
  assert (HN : ∀ x : N, no_slash (pretty x) ∧ token_ok (pretty x)).
  { intros x. unfold pretty, pretty_N. case_decide; [done|].
    destruct (pretty_N_go_ok x "") as [? Ht]; [done|]. split; [done|]. apply Ht. right. lia. }
  destruct z as [|p|p]; [done|apply (HN (Npos p))|].
  destruct (HN (Npos p)) as [Hn _]. split; [|done].
  change (pretty (Z.neg p)) with (String "-" (pretty (Npos p))). done.
Qed.

Lemma pad_ok z : no_slash (pad z) ∧ token_ok (pad z).
Proof.
  destruct (pretty_Z_ok z) as [Hn Ht]. unfold pad. generalize (4 - String.length (pretty z))%nat.
  intros k. split.
  - apply no_slash_app; [|done]. by induction k.
  - by destruct k.
Qed.

(** ** The keys as tokens *)

Fixpoint pair_tokens (cs : list Z) (vs : list ColumnValue) : list string :=
  match cs, vs with
  | c :: cs', v :: vs' => pad c :: toString v :: pair_tokens cs' vs'
  | _, _ => []
  end.

Lemma join_snoc_app ts us : ts ≠ [] → us ≠ [] → join (ts ++ us) = join ts +:+ "/" +:+ join us.
Proof.
  intros Hts Hus. induction ts as [|t ts IH]; [done|]. destruct ts as [|t' ts].
  - simpl. by destruct us.
  - change (join ((t :: t' :: ts) ++ us)) with (escapeString t +:+ "/" +:+ join ((t' :: ts) ++ us)).
    rewrite IH by done. simpl. by rewrite !string_app_assoc.
Qed.

Lemma key_parts_join cs vs ts :
  ts ≠ [] → length cs = length vs →
  ∃ parts, key_parts cs vs = Ret parts ∧ join ts +:+ parts = join (ts ++ pair_tokens cs vs).
Proof.
  revert vs ts. induction cs as [|c cs IH]; intros [|v vs] ts Hts Hlen; try done.
  - exists "". split; [done|]. simpl. by rewrite app_nil_r, string_app_nil.
  - injection Hlen as Hlen. destruct (IH vs (ts ++ [pad c; toString v])) as (parts & Ep & Ej); [|done|].
    { by intros [_ ?]%app_eq_nil. }
    simpl. rewrite Ep. eexists. split; [done|].
    replace (ts ++ pad c :: toString v :: pair_tokens cs vs)
      with ((ts ++ [pad c; toString v]) ++ pair_tokens cs vs) by by rewrite <- (assoc_L (++)).
    rewrite <- Ej, join_snoc_app by done. simpl.
    rewrite (escape_no_slash (pad c)) by apply pad_ok. by rewrite !string_app_assoc.
Qed.

Definition table_tokens (table : Table) (i : Z) : list string :=
  [pad (db_id (table_db table)); pad (table_id table); pad i].

Lemma minimumIndexKey_join table i : minimumIndexKey table i = join (table_tokens table i).
Proof.
  unfold minimumIndexKey. simpl. by rewrite !escape_no_slash by apply pad_ok.
Qed.

(** ** Parsing sequences of tokens *)

(** Values that make tokens the parser finds again. *)
Definition value_ok (v : ColumnValue) : Prop := token_ok (toString v).
Lemma IntValue_ok z : value_ok (IntValue z).
Proof. apply pretty_Z_ok. Qed.

Definition index_ok (i : Index) : Prop :=
  in_u32 (index_id i) = true ∧ Forall (λ c, in_u32 c = true) (column_ids i) ∧ column_ids i ≠ [].
(** Tables whose keys can be parsed: the primary index is number 0. *)
Record keys_ok (table : Table) : Prop := {
  ok_db : in_u32 (db_id (table_db table)) = true;
  ok_table : in_u32 (table_id table) = true;
  ok_primary : index_ok (primary_key_index table);
  ok_zero : index_id (primary_key_index table) = 0;
  ok_secondary i : i ∈ secondary_index table → index_ok i ∧ index_id i ≠ 0 }.

Section parsing.
Context `{DbConvLaws} (table : Table).
Implicit Types (f : KeyFragments) (st : ParseState).

Fixpoint parse_tokens (ts : list string) st : outcome ParseState :=
  match ts with
  | [] => Ret st
  | t :: ts' =>
      match parse_token table t st with
      | Ret st' => parse_tokens ts' st'
      | Throw e => Throw e
      | Block => Block
      end
  end.

Lemma parse_loop_join fuel ts st :
  Forall token_ok ts → (String.length (join ts) ≤ fuel)%nat →
  parse_loop fuel table st (join ts) =
    match parse_tokens ts st with
    | Ret st' => Ret (keyFragments st') | Throw e => Throw e | Block => Block
    end.
Proof.
  intros Hts. revert fuel st. induction Hts as [|t ts Ht Hts IH]; intros fuel st Hf; [by destruct fuel|].
  pose proof (parse_join t ts Hts) as Ep.
  assert (Hok : token_ok (join (t :: ts))) by by apply join_ok.
  destruct (join (t :: ts)) as [|c k] eqn:Ek; [done|].
  pose proof (parse_shorter c k) as Hlt. rewrite Ep in Hlt. simpl in Hlt, Hf.
  destruct fuel as [|fuel]; [lia|]. cbn [parse_loop parse_tokens]. rewrite Ep.
  destruct (parse_token table t st) as [st'| |]; [|done..]. apply IH. lia.
Qed.

Lemma parseKey_join ts :
  Forall token_ok ts →
  parseKey table (join ts) =
    match parse_tokens ts initial_state with
    | Ret st' => Ret (keyFragments st') | Throw e => Throw e | Block => Block
    end.
Proof. intros Hts. by apply parse_loop_join. Qed.

(** A round of the loop consumes characters: the parser comes to an end on
    every key. *)
Lemma parse_loop_ends fuel st key :
  (String.length key ≤ fuel)%nat → parse_loop fuel table st key ≠ Block.
Proof.
  revert st key. induction fuel as [|fuel IH]; intros st [|c key] Hlen; try done; simpl in Hlen; [lia|].
  cbn [parse_loop]. pose proof (parse_shorter c key) as Hlt.
  destruct (parse (String c key)) as [t rest]. simpl in Hlt.
  assert (parse_token table t st ≠ Block).
  { destruct st as [cur p f n]. unfold parse_token, with_id, conversion.
    by destruct cur, (to_uint32 t). }
  destruct (parse_token table t st); [apply IH; lia|done|done].
Qed.

Lemma with_id_pad {A} z (g : Z → A) : in_u32 z = true → with_id (pad z) g = Ret (g z).
Proof. intros Hz. unfold with_id. by rewrite to_uint32_pad. Qed.

Lemma parse_tokens_app ts us st :
  parse_tokens (ts ++ us) st =
    match parse_tokens ts st with
    | Ret st' => parse_tokens us st' | Throw e => Throw e | Block => Block
    end.
Proof.
  revert st. induction ts as [|t ts IH]; intros st; simpl; [done|].
  destruct (parse_token table t st); [apply IH|done..].
Qed.

(** The values of the primary key. *)
Lemma parse_primary_pairs cs vs f i n :
  length cs = length vs → vs ≠ [] → primaryIndex f = Some i →
  (length (values i) + length vs)%nat = length (column_ids (primary_key_index table)) →
  parse_tokens (pair_tokens cs vs) (mkParseState PRIMARY_KEY_PARTS true f n) =
    Ret (mkParseState COL_ID true
      (set_primary (Some {| indexId := indexId i; values := values i ++ map toString vs |}) f) n).
Proof.
  revert cs f i. induction vs as [|v vs IH]; intros [|c cs] f i Hlen Hne Hi Hcount; try done.
  injection Hlen as Hlen. simpl in Hcount. cbn [pair_tokens parse_tokens parse_token negb].
  rewrite Hi. simpl. rewrite decide_False by lia.
  rewrite length_app. simpl.
  destruct vs as [|v' vs].
  - destruct cs; [|done]. simpl. simpl in Hcount. rewrite decide_True by lia. done.
  - rewrite decide_False by (simpl in Hcount; lia).
    rewrite (IH cs (set_primary _ f) {| indexId := indexId i; values := values i ++ [toString v] |});
      [|done|done|done|simpl in *; rewrite length_app; simpl; lia].
    simpl. unfold set_primary. simpl. by rewrite <- (assoc_L (++)).
Qed.

Lemma parse_secondary_pairs cs vs f i n :
  length cs = length vs → vs ≠ [] → secondaryIndex f = Some i →
  (length (values i) + length vs)%nat = n →
  parse_tokens (pair_tokens cs vs) (mkParseState SECONDARY_INDEX_KEY_PARTS true f n) =
    Ret (mkParseState PRIMARY_KEY_PARTS true
      (set_primary (Some {| indexId := 0; values := [] |})
        (set_secondary (Some {| indexId := indexId i; values := values i ++ map toString vs |}) f)) n).
Proof.
  revert cs f i. induction vs as [|v vs IH]; intros [|c cs] f i Hlen Hne Hi Hcount; try done.
  injection Hlen as Hlen. simpl in Hcount. cbn [pair_tokens parse_tokens parse_token negb].
  rewrite Hi. simpl. rewrite decide_False by lia.
  cbn [parse_tokens parse_token negb]. rewrite Hi. simpl. rewrite length_app. simpl.
  destruct vs as [|v' vs].
  - destruct cs; [|done]. simpl. simpl in Hcount. rewrite decide_True by lia. done.
  - rewrite decide_False by (simpl in Hcount; lia).
    rewrite (IH cs (set_secondary _ f) {| indexId := indexId i; values := values i ++ [toString v] |});
      [|done|done|done|simpl in *; rewrite length_app; simpl; lia].
    simpl. unfold set_primary, set_secondary. simpl. by rewrite <- (assoc_L (++)).
Qed.

Lemma pair_tokens_ok cs vs : Forall value_ok vs → Forall token_ok (pair_tokens cs vs).
Proof.
  intros Hvs. revert cs. induction Hvs as [|v vs Hv _ IH]; intros [|c cs]; simpl; try constructor; [|constructor; auto].
  apply pad_ok.
Qed.
End parsing.

(** ** What the parser finds in the keys of a table *)

Section roundtrip.
Context `{DbConvLaws} (table : Table) (Hok : keys_ok table).
Implicit Types vs : list ColumnValue.

(** The ids every key of the table starts with, and what they parse to. *)
Definition table_fragments : KeyFragments :=
  mkKeyFragments (Some (db_id (table_db table))) (Some (table_id table)) None None None.
Definition primary_values vs : option KeyIndex :=
  Some {| indexId := 0; values := map toString vs |}.

Lemma parse_table_tokens i :
  parse_tokens table (table_tokens table i) initial_state =
    parse_tokens table [pad i] (mkParseState INDEX_ID true table_fragments 0).
Proof.
  unfold table_tokens. cbn [parse_tokens parse_token initial_state].
  rewrite with_id_pad by apply Hok. cbn [parse_token]. by rewrite with_id_pad by apply Hok.
Qed.

Lemma table_tokens_ok i : Forall token_ok (table_tokens table i).
Proof. repeat constructor; apply pad_ok. Qed.

Definition primary_tokens vs : list string :=
  table_tokens table (index_id (primary_key_index table)) ++
  pair_tokens (column_ids (primary_key_index table)) vs.

Lemma primaryKey_join vs :
  length (column_ids (primary_key_index table)) = length vs →
  primaryKey table vs = Ret (join (primary_tokens vs)).
Proof.
  intros Hlen. unfold primaryKey. rewrite decide_True by done.
  destruct (key_parts_join (column_ids (primary_key_index table)) vs
    (table_tokens table (index_id (primary_key_index table)))) as (parts & -> & E); [done..|].
  unfold primary_tokens, append_key. rewrite <- E, <- minimumIndexKey_join. by unfold minimumIndexKey.
Qed.

Lemma parse_primary_tokens vs :
  length (column_ids (primary_key_index table)) = length vs →
  parse_tokens table (primary_tokens vs) initial_state =
    Ret (mkParseState COL_ID true (set_primary (primary_values vs) table_fragments) 0).
Proof.
  intros Hlen. unfold primary_tokens. destruct (ok_primary _ Hok) as (Hi & _ & Hne).
  rewrite parse_tokens_app, parse_table_tokens. cbn [parse_tokens parse_token].
  rewrite with_id_pad by done. rewrite (ok_zero _ Hok), Z.eqb_refl.
  rewrite (parse_primary_pairs table _ vs _ {| indexId := 0; values := [] |}); [done|done| |done|done].
  intros ->. by destruct (column_ids _).
Qed.

Lemma primary_fragments vs :
  length (column_ids (primary_key_index table)) = length vs → Forall value_ok vs →
  parseKey table (join (primary_tokens vs)) = Ret (set_primary (primary_values vs) table_fragments).
Proof.
  intros Hlen Hvs. rewrite parseKey_join, parse_primary_tokens; [done|done|].
  apply Forall_app. split; [apply table_tokens_ok|by apply pair_tokens_ok].
Qed.

Lemma column_fragments vs c :
  length (column_ids (primary_key_index table)) = length vs → Forall value_ok vs → in_u32 c = true →
  parseKey table (columnKey (join (primary_tokens vs)) c) =
    Ret (mkKeyFragments (Some (db_id (table_db table))) (Some (table_id table))
           (primary_values vs) (Some c) None).
Proof.
  intros Hlen Hvs Hc.
  assert (columnKey (join (primary_tokens vs)) c = join (primary_tokens vs ++ [pad c])) as ->.
  { rewrite join_snoc_app by done. unfold columnKey. simpl.
    by rewrite (escape_no_slash (pad c)) by apply pad_ok. }
  rewrite parseKey_join, parse_tokens_app, parse_primary_tokens; [|done|].
  - cbn [parse_tokens parse_token]. by rewrite with_id_pad by done.
  - apply Forall_app. split; [|repeat constructor; apply pad_ok].
    apply Forall_app. split; [apply table_tokens_ok|by apply pair_tokens_ok].
Qed.

Definition secondary_tokens (i : Index) vs pvs : list string :=
  (table_tokens table (index_id i) ++ pair_tokens (column_ids i) vs) ++
  pair_tokens (column_ids (primary_key_index table)) pvs.

Lemma secondaryIndexKey_join i vs pvs :
  find_index (index_id i) table = Some i → length (column_ids i) = length vs →
  length (column_ids (primary_key_index table)) = length pvs →
  secondaryIndexKey table (index_id i) vs pvs = Ret (join (secondary_tokens i vs pvs)).
Proof.
  intros Hi Hlen Hplen. unfold secondaryIndexKey. rewrite Hi, decide_True by done.
  destruct (key_parts_join (column_ids i) vs (table_tokens table (index_id i)))
    as (parts & -> & E); [done..|].
  destruct (key_parts_join (column_ids (primary_key_index table)) pvs
    (table_tokens table (index_id i) ++ pair_tokens (column_ids i) vs)) as (parts' & -> & E'); [done..|].
  unfold secondary_tokens, append_key. by rewrite minimumIndexKey_join, E, E'.
Qed.

Lemma find_index_elem k i : find_index k table = Some i → i ∈ secondary_index table ∧ index_id i = k.
Proof.
  unfold find_index. intros Hi%head_Some_elem_of. by apply list_elem_of_filter in Hi as [? ?].
Qed.

Lemma secondary_fragments i vs pvs :
  find_index (index_id i) table = Some i → length (column_ids i) = length vs →
  length (column_ids (primary_key_index table)) = length pvs →
  Forall value_ok vs → Forall value_ok pvs →
  parseKey table (join (secondary_tokens i vs pvs)) =
    Ret (mkKeyFragments (Some (db_id (table_db table))) (Some (table_id table)) (primary_values pvs)
           None (Some {| indexId := index_id i; values := map toString vs |})).
Proof.
  intros Hi Hlen Hplen Hvs Hpvs. destruct (find_index_elem _ _ Hi) as [Hin _].
  destruct (ok_secondary _ Hok i Hin) as [(Hid & _ & Hne) Hnz], (ok_primary _ Hok) as (_ & _ & Hpne).
  unfold secondary_tokens. rewrite parseKey_join.
  - rewrite !parse_tokens_app, parse_table_tokens. cbn [parse_tokens parse_token].
    rewrite with_id_pad by done. rewrite (proj2 (Z.eqb_neq _ _)), Hi by done.
    rewrite (parse_secondary_pairs table _ vs _ {| indexId := index_id i; values := [] |});
      [|done|by intros ->; destruct (column_ids i)|done|done].
    rewrite (parse_primary_pairs table _ pvs _ {| indexId := 0; values := [] |});
      [done|done|by intros ->; destruct (column_ids (primary_key_index table))|done|done].
  - repeat (apply Forall_app; split); [apply table_tokens_ok|by apply pair_tokens_ok..].
Qed.

(** C12: the keys of a row parse back: the key of the row, of each of its columns
    and of each of its index entries is parsed into the ids and the values it
    was made of, when no value is empty or starts with a slash. *)
Theorem parseKey_reads_keys vs :
  length (column_ids (primary_key_index table)) = length vs → Forall value_ok vs →
  ∃ k, primaryKey table vs = Ret k ∧
    parseKey table k = Ret (set_primary (primary_values vs) table_fragments) ∧
    (∀ c, in_u32 c = true → parseKey table (columnKey k c) =
       Ret (mkKeyFragments (Some (db_id (table_db table))) (Some (table_id table))
              (primary_values vs) (Some c) None)) ∧
    (∀ i ivs, find_index (index_id i) table = Some i → length (column_ids i) = length ivs →
       Forall value_ok ivs →
       ∃ k', secondaryIndexKey table (index_id i) ivs vs = Ret k' ∧ parseKey table k' =
         Ret (mkKeyFragments (Some (db_id (table_db table))) (Some (table_id table)) (primary_values vs)
                None (Some {| indexId := index_id i; values := map toString ivs |}))).
Proof.
  intros Hlen Hvs. exists (join (primary_tokens vs)).
  split_and!; [by apply primaryKey_join|by apply primary_fragments|by intros; apply column_fragments|].
  intros i ivs Hi Hilen Hivs. eexists. split; [by apply secondaryIndexKey_join|].
  by apply secondary_fragments.
Qed.

(** Different key values make different keys. *)
Lemma primaryKey_inj vs vs' k :
  Forall value_ok vs → Forall value_ok vs' →
  primaryKey table vs = Ret k → primaryKey table vs' = Ret k → map toString vs = map toString vs'.
Proof.
  intros Hvs Hvs' E E'.
  assert (Hlen : ∀ vs, primaryKey table vs = Ret k → length (column_ids (primary_key_index table)) = length vs).
  { intros vs0. unfold primaryKey. by case_decide. }
  pose proof (primary_fragments vs (Hlen _ E) Hvs) as P.
  pose proof (primary_fragments vs' (Hlen _ E') Hvs') as P'.
  rewrite primaryKey_join in E, E' by by apply Hlen.
  assert (join (primary_tokens vs) = k ∧ join (primary_tokens vs') = k) as [Ek Ek'] by by split; congruence.
  rewrite Ek in P. rewrite Ek', P in P'. by injection P'.
Qed.

(** A row whose key is the empty string loses its columns: the separators
    around the empty value are taken for an escaped slash, and the keys of the
    columns are parsed as keys without a column. *)
Theorem empty_key_loses_columns col c :
  column_ids (primary_key_index table) = [col] → in_u32 c = true →
  ∃ k f, primaryKey table [StringValue ""] = Ret k ∧ parseKey table (columnKey k c) = Ret f ∧
    colId f = None ∧ primaryIndex f = Some {| indexId := 0; values := [] |}.
Proof.
  intros Hcol Hc. exists (join (primary_tokens [StringValue ""])).
  eexists. split; [by apply primaryKey_join; rewrite Hcol|].
  assert (columnKey (join (primary_tokens [StringValue ""])) c =
      join (table_tokens table (index_id (primary_key_index table)) ++ [pad col +:+ "/" +:+ pad c])) as ->.
  { unfold primary_tokens, columnKey. rewrite Hcol. cbn [pair_tokens].
    rewrite !join_snoc_app by done. simpl. rewrite !(escape_no_slash (pad _)) by apply pad_ok.
    assert (Hesc : ∀ a b, no_slash a → no_slash b →
      escapeString (a +:+ "/" +:+ b) = a +:+ "/" +:+ "/" +:+ b).
    { intros a b Ha Hb. rewrite !slash_app. revert Ha. induction a as [|x a IH]; sapp.
      - by rewrite (escape_no_slash b).
      - intros [Hx Ha]. rewrite decide_False by done. by rewrite (IH Ha). }
    rewrite Hesc by apply pad_ok. by rewrite !string_app_assoc. }
  rewrite parseKey_join, parse_tokens_app, parse_table_tokens.
  - cbn [parse_tokens parse_token]. rewrite with_id_pad by apply (ok_primary _ Hok).
    rewrite (ok_zero _ Hok), Z.eqb_refl. by split_and!.
  - repeat constructor; [apply pad_ok..|]. destruct (pad_ok col) as [_ ?]. by destruct (pad col).
Qed.
End roundtrip.

(** Parsing ends on every string: each round of the loop consumes a
    character, so that as many rounds as the key has characters are enough. *)
Theorem parseKey_terminates `{DbConv} table key : parseKey table key ≠ Block.
Proof. by apply parse_loop_ends. Qed.

(** ** The order of numerals *)

(** Four digits. *)
Definition digits4 (a b c d : Z) : string :=
  let digit z := pretty_N_char (Z.to_N z) in
  String (digit a) (String (digit b) (String (digit c) (String (digit d) EmptyString))).

Lemma pad_digits x :
  0 <= x < 10000 →
  ∃ a b c d, pad x = digits4 a b c d ∧ x = 1000 * a + 100 * b + 10 * c + d ∧
    0 <= a < 10 ∧ 0 <= b < 10 ∧ 0 <= c < 10 ∧ 0 <= d < 10.
Proof.
  assert (Hall : forallb (λ x, String.eqb (pad x)
    (digits4 (x / 10 / 10 / 10) ((x / 10 / 10) `mod` 10) ((x / 10) `mod` 10) (x `mod` 10))) (seqZ 0 10000) = true)
    by (vm_compute; reflexivity).
  intros Hx. exists (x / 10 / 10 / 10), ((x / 10 / 10) `mod` 10), ((x / 10) `mod` 10), (x `mod` 10). split.
  - apply String.eqb_eq. apply (proj1 (forallb_forall _ _) Hall). apply list_elem_of_In, elem_of_seqZ. lia.
  - clear Hall.
    pose proof (Z.div_mod x 10 ltac:(done)). pose proof (Z.mod_pos_bound x 10 ltac:(done)).
    pose proof (Z.div_mod (x / 10) 10 ltac:(done)). pose proof (Z.mod_pos_bound (x / 10) 10 ltac:(done)).
    pose proof (Z.div_mod (x / 10 / 10) 10 ltac:(done)). pose proof (Z.mod_pos_bound (x / 10 / 10) 10 ltac:(done)).
    lia.
Qed.

Lemma digit_compare a b :
  0 <= a < 10 → 0 <= b < 10 → Ascii.compare (pretty_N_char (Z.to_N a)) (pretty_N_char (Z.to_N b)) = (a ?= b).
Proof.
  assert (Hall : forallb (λ a, forallb (λ b,
    bool_decide (Ascii.compare (pretty_N_char (Z.to_N a)) (pretty_N_char (Z.to_N b)) = (a ?= b)))
    (seqZ 0 10)) (seqZ 0 10) = true) by (vm_compute; reflexivity).
  intros Ha Hb. pose proof (proj1 (forallb_forall _ _) Hall a) as H1'. cbv beta in H1'.
  refine (proj1 (bool_decide_eq_true _) _). apply (proj1 (forallb_forall _ _) (H1' ltac:(apply list_elem_of_In, elem_of_seqZ; lia))).
  apply list_elem_of_In, elem_of_seqZ. lia.
Qed.

Lemma digit_le a b s t :
  0 <= a < 10 → 0 <= b < 10 →
  String.le (String (pretty_N_char (Z.to_N a)) s) (String (pretty_N_char (Z.to_N b)) t) ↔
  a < b ∨ (a = b ∧ String.le s t).
Proof.
  intros Ha Hb. rewrite string_le_cons. pose proof (digit_compare a b Ha Hb) as Hc.
  assert (E : pretty_N_char (Z.to_N a) = pretty_N_char (Z.to_N b) ↔ a = b).
  { split; [|by intros ->]. intros E. rewrite E, Ascii_compare_refl in Hc. by apply Z.compare_eq_iff. }
  by rewrite Hc, E, Z.compare_lt_iff.
Qed.

Lemma pad_le x y : 0 <= x < 10000 → 0 <= y < 10000 → String.le (pad x) (pad y) ↔ x <= y.
Proof.
  intros (a & b & c & d & -> & -> & ?)%pad_digits (a' & b' & c' & d' & -> & -> & ?)%pad_digits.
  unfold digits4. rewrite !digit_le by lia. assert (Hnil : String.le "" "") by done. split; [lia|].
  intros Hle. destruct (decide (a = a')); [|left; lia]. right. split; [done|].
  destruct (decide (b = b')); [|left; lia]. right. split; [done|].
  destruct (decide (c = c')); [|left; lia]. right. split; [done|].
  destruct (decide (d = d')); [|left; lia]. by right.
Qed.

(** C39: ids are padded to four digits: keys are in the order of their ids as
    long as these are below 10000, and no longer. *)
Theorem pad_order_bound :
  (∀ x y, 0 <= x < 10000 → 0 <= y < 10000 → key_lt (pad x) (pad y) ↔ x < y) ∧
  key_lt (pad 10000) (pad 9999).
Proof.
  split.
  - intros x y Hx Hy. unfold key_lt, strict. simpl. rewrite !pad_le by done. lia.
  - apply (bool_decide_unpack _). vm_compute. exact I.
Qed.

(** ** Decimal numerals as conversions, and a table for the witnesses *)

Definition decimal_db_conv : DbConv := {|
  to_uint32 := λ s, z ← parse_decimal s; if in_u32 z then Some z else None;
  to_int64 := λ s, z ← parse_decimal s; if in_i64 z then Some z else None |}.

Lemma parse_padded k z : 0 ≤ z → parse_decimal (zeros k +:+ pretty z) = Some z.
Proof.
  intros Hz. destruct k as [|k]; [apply parse_pretty|].
  assert (Hd : parse_digits 0 (pretty z) = Some z).
  { destruct z as [|p|p]; [done|apply (parse_digits_pretty (Npos p))|done]. }
  change (zeros (S k) +:+ pretty z) with (String "0" (zeros k +:+ pretty z)).
  change (parse_digits 0 (zeros k +:+ pretty z) = Some z).
  induction k as [|k IH]; [done|exact IH].
Qed.

#[export] Instance decimal_db_conv_laws : @DbConvLaws decimal_db_conv.
Proof.
  split; intros z Hz; simpl.
  - unfold pad. rewrite parse_padded; simpl; [by rewrite Hz|].
    apply bool_decide_eq_true in Hz. lia.
  - rewrite parse_pretty. simpl. by rewrite Hz.
Qed.

#[local] Existing Instance decimal_db_conv.

(** Table 7 of database 3: an id and a name, with an index on the names. *)
Definition sample_columns : list Column :=
  [{| col_id := 0; col_name := "id"; column_type := INT64 |};
   {| col_id := 1; col_name := "name"; column_type := STRING |}].
Definition sample_index : Index := {| index_id := 1; index_name := "name_idx"; column_ids := [1] |}.
Definition sample_table : Table :=
  {| table_id := 7; table_name := "people"; table_db := {| db_id := 3; db_name := "app" |};
     columns := sample_columns ++ getTableDefaultColumns;
     primary_key_index := {| index_id := 0; index_name := "primary_key_idx"; column_ids := [0] |};
     secondary_index := [sample_index] |}.

Lemma sample_keys_ok : keys_ok sample_table.
Proof.
  split; [done|done| |done|].
  - split_and!; [done|repeat constructor|done].
  - intros i ->%list_elem_of_singleton. split_and!; [|done..]. split_and!; [done|repeat constructor|done].
Qed.

Lemma parseKey_reads_keys_witness :
  ∃ k, primaryKey sample_table [IntValue 42] = Ret k ∧
    parseKey sample_table (columnKey k 1) =
      Ret (mkKeyFragments (Some 3) (Some 7) (Some {| indexId := 0; values := ["42"%string] |}) (Some 1) None).
Proof.
  destruct (parseKey_reads_keys sample_table sample_keys_ok [IntValue 42]) as (k & Hk & _ & Hc & _).
  - reflexivity.
  - repeat constructor. apply IntValue_ok.
  - exists k. split; [exact Hk|]. exact (Hc 1 eq_refl).
Defined.

Lemma empty_key_loses_columns_witness :
  ∃ k f, primaryKey sample_table [StringValue ""] = Ret k ∧
    parseKey sample_table (columnKey k 1) = Ret f ∧ colId f = None.
Proof.
  destruct (empty_key_loses_columns sample_table sample_keys_ok 0 1) as (k & f & Hk & Hf & Hc & _);
    [reflexivity|reflexivity|].
  exists k, f. split; [exact Hk|split; [exact Hf|exact Hc]].
Defined.
