(* ===== verification/Arrow.v ===== *)
(** * Apache Arrow

    The tables the database works on are Arrow tables.  Arrow is not part of
    the program: [ArrowTable] lists the calls the program makes and
    [ArrowTableLaws] what Arrow documents of them, [ArrowCompute] and
    [ArrowComputeLaws] do so for the expressions of a filter.  An array, and the
    builder that makes it, is the list of the values appended to it. *)

From stdpp Require Import base list strings.
From Stdlib Require Import ZArith Lia.
From S2P Require Import Prelude Schema.

Open Scope Z_scope.

Definition has_type (ty : COLUMN_TYPE) (v : ColumnValue) : bool :=
  match ty, v with INT64, IntValue _ | STRING, StringValue _ => true | _, _ => false end.

Abbreviation Field := (string * COLUMN_TYPE)%type.

Class ArrowTable (T : Type) := {
  (** [RecordBatch::Make] and [Table::FromRecordBatches]: one chunk per column *)
  at_make : list Field → nat → list (list ColumnValue) → T;
  at_num_rows : T → Z;
  (** [columns().front()->num_chunks()] *)
  at_num_chunks : T → outcome Z;
  (** [GetColumnByName(name)->chunk(c)], cast to arrays of the type, [Value(r)] *)
  at_value : string → COLUMN_TYPE → Z → Z → T → outcome ColumnValue;
  (** [Slice(offset, length)]; the offset is at most the number of rows *)
  at_slice : Z → Z → T → T }.

(** The value of a row in a column. *)
Definition cell (fields : list Field) (row : list ColumnValue) (name : string) : option ColumnValue :=
  snd <$> head (filter (λ x : Field * ColumnValue, x.1.1 = name) (zip fields row)).

(** Rows as Arrow takes them: a value of the type of its field per column. *)
Definition row_ok (fields : list Field) (row : list ColumnValue) : Prop :=
  Forall2 (λ (f : Field) v, has_type f.2 v = true) fields row.

(** The arrays that hold [rows]. *)
Definition arrays_of (n : nat) (rows : list (list ColumnValue)) : list (list ColumnValue) :=
  map (λ j, omap (.!! j) rows) (seq 0 n).

Class ArrowTableLaws (T : Type) `{ArrowTable T} := {
  (** the rows of a table, and the fields of its columns *)
  at_rows : T → list (list ColumnValue);
  at_fields : T → list Field;
  at_num_rows_make fields n arrays : at_num_rows (at_make fields n arrays) = n;
  at_num_chunks_make fields n arrays :
    fields ≠ [] → at_num_chunks (at_make fields n arrays) = Ret 1;
  at_value_make fields n arrays (i : nat) name ty a (r : nat) v :
    NoDup (fields.*1) → fields !! i = Some (name, ty) → arrays !! i = Some a →
    a !! r = Some v → has_type ty v = true →
    at_value name ty 0 r (at_make fields n arrays) = Ret v;
  at_fields_make fields n arrays : at_fields (at_make fields n arrays) = fields;
  at_rows_make fields rows :
    NoDup (fields.*1) → Forall (row_ok fields) rows →
    at_rows (at_make fields (length rows) (arrays_of (length fields) rows)) = rows;
  at_num_rows_rows t : at_num_rows t = length (at_rows t);
  at_slice_make fields rows (i : nat) (n : Z) :
    NoDup (fields.*1) → Forall (row_ok fields) rows → 0 ≤ n → (i ≤ length rows)%nat →
    at_num_rows (at_slice i n (at_make fields (length rows) (arrays_of (length fields) rows))) =
      Z.min n (length rows - i);
  at_slice_chunks fields n arrays i k :
    fields ≠ [] → at_num_chunks (at_slice i k (at_make fields n arrays)) = Ret 1;
  at_slice_value fields n arrays i k name ty r v :
    0 ≤ i → 0 ≤ r < k → at_value name ty 0 (i + r) (at_make fields n arrays) = Ret v →
    at_value name ty 0 r (at_slice i k (at_make fields n arrays)) = Ret v }.

(** ** Expressions *)

Inductive Comparison := EQ | LEQ | LT | GEQ | GT.

Class ArrowCompute (E T : Type) := {
  ex_default : E;                                    (* [cp::Expression{}] *)
  ex_true : E;                                       (* [literal(true)] *)
  ex_int : Comparison → string → Z → E;              (* [equal(field_ref(c), literal(z))], ... *)
  ex_string_equal : string → string → E;             (* [equal(field_ref(c), literal(s))] *)
  ex_and : E → E → E;
  ex_or : E → E → E;
  (** [DeclarationToTable] of a table source, with a filter or without; [None]
      when the status is not ok *)
  run_source : T → option T;
  run_filter : E → T → option T }.

Definition compare_ints (op : Comparison) (x y : Z) : bool :=
  match op with
  | EQ => x =? y | LEQ => x <=? y | LT => x <? y | GEQ => x >=? y | GT => x >? y
  end.

(** [ex_holds e fields row]: the value of an expression on a row; [None] when
    it has none, as a comparison of an unknown column or of the wrong type. *)
Class ArrowComputeLaws (E T : Type) `{ArrowTableLaws T, !ArrowCompute E T} := {
  ex_holds : E → list Field → list ColumnValue → option bool;
  ex_holds_true fields row : ex_holds ex_true fields row = Some true;
  ex_holds_int op name z fields row :
    ex_holds (ex_int op name z) fields row =
      match cell fields row name with
      | Some (IntValue x) => Some (compare_ints op x z)
      | _ => None
      end;
  ex_holds_string name s fields row :
    ex_holds (ex_string_equal name s) fields row =
      match cell fields row name with
      | Some (StringValue x) => Some (bool_decide (x = s))
      | _ => None
      end;
  ex_holds_and e1 e2 fields row b1 b2 :
    ex_holds e1 fields row = Some b1 → ex_holds e2 fields row = Some b2 →
    ex_holds (ex_and e1 e2) fields row = Some (b1 && b2);
  ex_holds_or e1 e2 fields row b1 b2 :
    ex_holds e1 fields row = Some b1 → ex_holds e2 fields row = Some b2 →
    ex_holds (ex_or e1 e2) fields row = Some (b1 || b2);
  run_source_rows t : ∃ t', run_source t = Some t' ∧ at_fields t' = at_fields t ∧ at_rows t' = at_rows t;
  run_filter_rows e t :
    Forall (row_ok (at_fields t)) (at_rows t) →
    Forall (λ row, is_Some (ex_holds e (at_fields t) row)) (at_rows t) →
    ∃ t', run_filter e t = Some t' ∧ at_fields t' = at_fields t ∧
      at_rows t' = filter (λ row, ex_holds e (at_fields t) row = Some true) (at_rows t) }.

(** ** A concrete table for the witnesses *)

Record MemTable := mkMemTable {
  mem_fields : list Field; mem_rows : nat; mem_arrays : list (list ColumnValue) }.

Definition mem_row (t : MemTable) (r : nat) : list ColumnValue :=
  map (λ a, default (IntValue 0) (a !! r)) (mem_arrays t).
Definition mem_all_rows (t : MemTable) : list (list ColumnValue) := map (mem_row t) (seq 0 (mem_rows t)).

Definition mem_of_rows (fields : list Field) (rows : list (list ColumnValue)) : MemTable :=
  mkMemTable fields (length rows) (arrays_of (length fields) rows).

Inductive MemExpr :=
  | MDefault
  | MTrue
  | MInt (op : Comparison) (name : string) (z : Z)
  | MString (name s : string)
  | MAnd (e1 e2 : MemExpr)
  | MOr (e1 e2 : MemExpr).

Fixpoint mem_holds (e : MemExpr) (fields : list Field) (row : list ColumnValue) : option bool :=
  match e with
  | MDefault => None
  | MTrue => Some true
  | MInt op name z =>
      match cell fields row name with
      | Some (IntValue x) => Some (compare_ints op x z)
      | _ => None
      end
  | MString name s =>
      match cell fields row name with
      | Some (StringValue x) => Some (bool_decide (x = s))
      | _ => None
      end
  | MAnd e1 e2 => b1 ← mem_holds e1 fields row; b2 ← mem_holds e2 fields row; Some (b1 && b2)
  | MOr e1 e2 => b1 ← mem_holds e1 fields row; b2 ← mem_holds e2 fields row; Some (b1 || b2)
  end.

Definition field_index (name : string) (fields : list Field) : option nat :=
  fst <$> list_find (λ f : Field, f.1 = name) fields.

#[export] Instance MemTable_ArrowTable : ArrowTable MemTable := {|
  at_make := mkMemTable;
  at_num_rows := λ t, mem_rows t;
  at_num_chunks := λ t, match mem_fields t with [] => Throw OutOfRange | _ => Ret 1 end;
  at_value := λ name ty c r t,
    match i ← field_index name (mem_fields t); a ← mem_arrays t !! i; a !! Z.to_nat r with
    | Some v => if has_type ty v then Ret v else Throw OutOfRange
    | None => Throw OutOfRange
    end;
  at_slice := λ offset n t, mkMemTable (mem_fields t)
    (Z.to_nat (Z.min n (mem_rows t - Z.min offset (mem_rows t))))
    (map (take (Z.to_nat n) ∘ drop (Z.to_nat offset)) (mem_arrays t)) |}.

#[export] Instance MemTable_ArrowCompute : ArrowCompute MemExpr MemTable := {|
  ex_default := MDefault; ex_true := MTrue; ex_int := MInt; ex_string_equal := MString;
  ex_and := MAnd; ex_or := MOr;
  run_source := Some;
  run_filter := λ e t,
    if forallb (λ row, bool_decide (is_Some (mem_holds e (mem_fields t) row))) (mem_all_rows t)
    then Some (mem_of_rows (mem_fields t)
           (filter (λ row, mem_holds e (mem_fields t) row = Some true) (mem_all_rows t)))
    else None |}.

Lemma field_index_unique fields i name ty :
  NoDup (fields.*1) → fields !! i = Some (name, ty) → field_index name fields = Some i.
Proof.
  intros Hnd Hi. unfold field_index.
  assert (Hf : list_find (λ f : Field, f.1 = name) fields = Some (i, (name, ty))).
  { apply list_find_Some. split_and!; [done|done|]. intros j [n' ty'] Hj Hlt E. simpl in E. subst n'.
    assert (i = j); [|lia]. eapply (NoDup_lookup fields.*1); [done|..];
      rewrite list_lookup_fmap; [by rewrite Hi|by rewrite Hj]. }
  by rewrite Hf.
Qed.

(** The array of a column. *)
Lemma column_lookup n j r (rows : list (list ColumnValue)) :
  Forall (λ row, length row = n) rows → (j < n)%nat → omap (.!! j) rows !! r = rows !! r ≫= (.!! j).
Proof.
  intros Hrows Hj. revert r. induction Hrows as [|row rows Hrow _ IH]; intros r; [done|].
  destruct (lookup_lt_is_Some_2 row j) as [v Ev]; [lia|]. simpl. rewrite Ev. destruct r as [|r]; [by simpl; rewrite Ev|apply IH].
Qed.
Lemma arrays_lookup n j (rows : list (list ColumnValue)) :
  (j < n)%nat → arrays_of n rows !! j = Some (omap (.!! j) rows).
Proof. intros Hj. unfold arrays_of. by rewrite list_lookup_fmap, lookup_seq_lt. Qed.
Lemma row_ok_lengths fields rows :
  Forall (row_ok fields) rows → Forall (λ row, length row = length fields) rows.
Proof. intros Hr. eapply Forall_impl; [exact Hr|]. intros row Hrow%Forall2_length. by symmetry. Qed.

Lemma mem_all_rows_of fields rows :
  Forall (row_ok fields) rows → mem_all_rows (mem_of_rows fields rows) = rows.
Proof.
  intros Hrows. unfold mem_all_rows, mem_of_rows, mem_row. simpl.
  apply list_eq. intros r. rewrite list_lookup_fmap.
  destruct (decide (r < length rows)%nat) as [Hr|Hr].
  - rewrite lookup_seq_lt by done. simpl. destruct (lookup_lt_is_Some_2 rows r Hr) as [row Hrow].
    rewrite Hrow. f_equal. unfold arrays_of. rewrite map_map.
    assert (Hok : row_ok fields row) by by eapply (Forall_lookup_1 _ rows).
    apply list_eq. intros j. rewrite list_lookup_fmap. destruct (decide (j < length fields)%nat) as [Hj|Hj].
    + rewrite lookup_seq_lt by done. simpl.
      rewrite (column_lookup (length fields)), Hrow; [|by apply row_ok_lengths|done]. simpl.
      apply Forall2_length in Hok.
      destruct (lookup_lt_is_Some_2 row j) as [v Hv]; [lia|]. by rewrite Hv.
    + apply Forall2_length in Hok. rewrite !lookup_ge_None_2; [done|lia|rewrite length_seq; lia].
  - rewrite !lookup_ge_None_2; [done|lia|rewrite length_seq; lia].
Qed.

#[export, program] Instance MemTable_laws : ArrowTableLaws MemTable := {|
  at_rows := mem_all_rows; at_fields := mem_fields |}.
Next Obligation. done. Qed.
Next Obligation. by intros [|? ?] n arrays. Qed.
Next Obligation.
  intros fields n arrays i name ty a r v Hnd Hi Ha Hv Hty. simpl.
  rewrite (field_index_unique _ _ _ _ Hnd Hi). simpl. rewrite Ha. simpl.
  by rewrite Nat2Z.id, Hv, Hty.
Qed.
Next Obligation. done. Qed.
Next Obligation. intros. by apply mem_all_rows_of. Qed.
Next Obligation. intros t. simpl. unfold mem_all_rows. by rewrite length_map, length_seq. Qed.
Next Obligation. intros fields rows i n _ _ Hn Hi. simpl. lia. Qed.
Next Obligation. by intros [|? ?]. Qed.
Next Obligation.
  intros fields n arrays i k name ty r v Hi Hr. simpl.
  destruct (field_index name fields) as [j|]; simpl; [|done]. rewrite list_lookup_fmap.
  destruct (arrays !! j) as [a|]; simpl; [|done].
  rewrite lookup_take_lt, lookup_drop, <- Z2Nat.inj_add by lia. done.
Qed.

#[export, program] Instance MemExpr_laws : ArrowComputeLaws MemExpr MemTable := {|
  ex_holds := mem_holds |}.
Next Obligation. done. Qed.
Next Obligation. done. Qed.
Next Obligation. done. Qed.
Next Obligation. intros e1 e2 fields row b1 b2 E1 E2. simpl. by rewrite E1, E2. Qed.
Next Obligation. intros e1 e2 fields row b1 b2 E1 E2. simpl. by rewrite E1, E2. Qed.
Next Obligation. intros t. by exists t. Qed.
Next Obligation.
  intros e t Hok Hall. simpl in *. rewrite (proj2 (forallb_forall _ _)).
  - eexists. split_and!; [done|done|]. apply (mem_all_rows_of (mem_fields t)).
    apply Forall_forall. intros row [_ Hrow]%list_elem_of_filter.
    by eapply Forall_forall in Hok.
  - intros row Hrow%list_elem_of_In. apply bool_decide_eq_true. by eapply Forall_forall in Hall.
Qed.
