(* ===== verification/RowSerializer.v ===== *)
(** * The database: rows

    [src/applications/mydb/backend/RowSerializer.h]: between the rows of an
    Arrow table and the key-value pairs that store them. *)

From stdpp Require Import base gmap sets list strings pretty sorting.
From Stdlib Require Import ZArith Lia.
From S2P Require Import Prelude Schema KeySerializer Arrow.

Open Scope Z_scope.

(** A builder per column, in the order of the column ids; the arrays are made
    in this order, the fields in the order of the schema's columns. *)
Abbreviation Builders := (ordmap Z (list ColumnValue)).
Record Header := { colBuilder : Builders; fields : list Field }.

Section serializer.
Context {T : Type} `{ArrowTable T} `{DbConv}.

(** The positions [(row, chunk)] the loops over a table go through. *)
Definition positions (t : T) : outcome (list (Z * Z)) :=
  rows ← mapM (λ r, n ← at_num_chunks t; mret ((λ c, (r, c)) <$> seqZ 0 n)) (seqZ 0 (at_num_rows t));
  mret (mjoin rows).

Definition read_column (t : T) (p : Z * Z) (col : Column) : outcome ColumnValue :=
  at_value (col_name col) (column_type col) p.2 p.1 t.

(** ** From tables *)

(** [colValues], [primaryIdxValues] and [secondaryIdxValues] of [serialize]. *)
Definition emplace_all (l : list (Z * ColumnValue)) : ordmap Z ColumnValue :=
  foldl (λ m p, (om_emplace p.1 p.2 m).2) [] l.
Definition primary_of (schema : TableSchema) (l : list (Z * ColumnValue)) : list ColumnValue :=
  (filter (λ p : Z * ColumnValue, isPrimaryKeyColumn p.1 schema = true) l).*2.
Definition push_back (idx : Z) (v : ColumnValue) (m : gmap Z (list ColumnValue)) :=
  <[idx := default [] (m !! idx) ++ [v]]> m.
Definition secondary_of (schema : TableSchema) (l : list (Z * ColumnValue))
    : gmap Z (list ColumnValue) :=
  foldl (λ m p, foldr (λ idx m, push_back idx p.2 m) m (elements (indexIds p.1 schema))) ∅ l.

(** The key-value pairs of a row; the order of the index entries, which the
    code takes from a hash table, is that of [map_to_list]. *)
Definition serialize_values (schema : TableSchema) (l : list (Z * ColumnValue)) : outcome RawTableRow :=
  let primaryIdxValues := primary_of schema l in
  k ← primaryKey (table_ schema) primaryIdxValues;
  idxKeys ← mapM (λ x : Z * list ColumnValue,
      secondaryIndexKey (table_ schema) x.1 x.2 primaryIdxValues)
    (map_to_list (secondary_of schema l));
  mret ((k, "NULL"%string) ::
    ((λ x : Z * ColumnValue, (columnKey k x.1, toString x.2)) <$> emplace_all l) ++
    ((λ idxKey, (idxKey, "NULL"%string)) <$> idxKeys)).

Definition serialize_row (schema : TableSchema) (t : T) (p : Z * Z) : outcome RawTableRow :=
  l ← mapM (λ col, v ← read_column t p col; mret (col_id col, v)) (columns (table_ schema));
  serialize_values schema l.

Definition serialize (schema : TableSchema) (t : T) : outcome (list RawTableRow) :=
  ps ← positions t;
  mapM (serialize_row schema t) ps.

(** The values of some columns in a row. *)
Definition read_columns (schema : TableSchema) (t : T) (p : Z * Z) (colIds : list Z)
    : outcome (list ColumnValue) :=
  mapM (λ colId, col ← getColumn colId schema; read_column t p col) colIds.

Definition serializePrimaryKeys (schema : TableSchema) (t : T) : outcome (list string) :=
  ps ← positions t;
  mapM (λ p,
    primaryIdxValues ← read_columns schema t p (column_ids (primary_key_index (table_ schema)));
    primaryKey (table_ schema) primaryIdxValues) ps.

(** The key values of the first row. *)
Definition parsePrimaryKeyValues (schema : TableSchema) (t : T) : outcome (list ColumnValue) :=
  ps ← positions t;
  match ps with
  | [] => mret []
  | p :: _ => read_columns schema t p (column_ids (primary_key_index (table_ schema)))
  end.

(** The values of the first secondary index, whichever index is asked for. *)
Definition parseSecondaryKeyValues (schema : TableSchema) (t : T) (secondarykeyIndex : Z)
    : outcome (list ColumnValue) :=
  ps ← positions t;
  match ps with
  | [] => mret []
  | p :: _ =>
      match secondary_index (table_ schema) with
      | [] => Throw OutOfRange
      | i :: _ => read_columns schema t p (column_ids i)
      end
  end.

(** ** To tables *)

Definition getHeader (schema : TableSchema) : Header :=
  {| colBuilder := foldl (λ b col, om_set (col_id col) [] b) [] (columns (table_ schema));
     fields := (λ col, (col_name col, column_type col)) <$> columns (table_ schema) |}.

(** [Append], on the builder of a column. *)
Definition append_to (colId : Z) (v : ColumnValue) (b : Builders) : Builders :=
  (λ e : Z * list ColumnValue, if decide (e.1 = colId) then (e.1, e.2 ++ [v]) else e) <$> b.

(** The value of a column from its text; the type of an unknown column is an
    assertion failure. *)
Definition typed_value (ty : option COLUMN_TYPE) (value : string) : outcome ColumnValue :=
  match ty with
  | None => Throw AssertFailure
  | Some INT64 => z ← conversion (to_int64 value); mret (IntValue z)
  | Some STRING => mret (StringValue value)
  end.

(** [Finish] of the builders, and the table of one batch with their arrays. *)
Definition finish (fields : list Field) (b : Builders) : outcome T :=
  match b.*2 with
  | [] => Throw OutOfRange
  | a :: _ => Ret (at_make fields (length a) b.*2)
  end.

Fixpoint append_values (schema : TableSchema) (kvs : list (string * string)) (b : Builders)
    : outcome Builders :=
  match kvs with
  | [] => mret b
  | (key, value) :: kvs' =>
      keyFragments ← parseKey (table_ schema) key;
      b' ← match colId keyFragments with
           | Some c => v ← typed_value (getColumnType c schema) value; mret (append_to c v b)
           | None => mret b
           end;
      append_values schema kvs' b'
  end.

Definition deserialize (schema : TableSchema) (rows : list RawTableRow) : outcome T :=
  let header := getHeader schema in
  b ← append_values schema (mjoin rows) (colBuilder header);
  finish (fields header) b.

(** One value for each builder, in the order of the column ids. *)
Fixpoint append_key_values (schema : TableSchema) (values : list string) (b : Builders)
    : outcome Builders :=
  match b with
  | [] => mret []
  | (c, a) :: b' =>
      match values with
      | [] => Throw OutOfRange
      | value :: values' =>
          v ← typed_value (getColumnType c schema) value;
          rest ← append_key_values schema values' b';
          mret ((c, a ++ [v]) :: rest)
      end
  end.
Fixpoint append_index_keys (schema : TableSchema) (kvs : list (string * string)) (b : Builders)
    : outcome Builders :=
  match kvs with
  | [] => mret b
  | (key, _) :: kvs' =>
      keyFragments ← parseKey (table_ schema) key;
      b' ← match primaryIndex keyFragments with
           | Some i => append_key_values schema (values i) b
           | None => mret b
           end;
      append_index_keys schema kvs' b'
  end.

Definition deserializeSecondaryIndexKeys (schema : TableSchema) (rows : list RawTableRow)
    : outcome T :=
  cols ← mapM (λ colId, getColumn colId schema) (column_ids (primary_key_index (table_ schema)));
  b ← append_index_keys schema (mjoin rows) (foldl (λ b col, om_set (col_id col) [] b) [] cols);
  finish ((λ col, (col_name col, column_type col)) <$> cols) b.
End serializer.

(** ** Well-formed tables *)

Definition ids_of (table : Table) : list Z := col_id <$> columns table.
Definition fields_of (table : Table) : list Field :=
  (λ col, (col_name col, column_type col)) <$> columns table.

(** Column ids increase, and an index lists its columns in that order. *)
Definition in_order (ids cs : list Z) : Prop := cs = filter (λ c, c ∈ cs) ids.

Record table_ok (table : Table) : Prop := {
  ok_keys : keys_ok table;
  ok_ids : StronglySorted Z.lt (ids_of table);
  ok_names : NoDup ((fields_of table).*1);
  ok_u32 : Forall (λ c, in_u32 c = true) (ids_of table);
  ok_primary_order : in_order (ids_of table) (column_ids (primary_key_index table));
  ok_indexes : NoDup (index_id <$> secondary_index table);
  ok_index_order i : i ∈ secondary_index table → in_order (ids_of table) (column_ids i) }.

(** The columns whose values are part of keys. *)
Definition key_columns (table : Table) : list Z :=
  column_ids (primary_key_index table) ++ mjoin (column_ids <$> secondary_index table).

Definition in_range (v : ColumnValue) : Prop :=
  match v with IntValue z => in_i64 z = true | StringValue _ => True end.

Record row_good (table : Table) (row : list ColumnValue) : Prop := {
  good_types : row_ok (fields_of table) row;
  good_range : Forall in_range row;
  good_values c v : (c, v) ∈ zip (ids_of table) row → c ∈ key_columns table → value_ok v }.

(** The values of some columns. *)
Definition project (cs : list Z) (l : list (Z * ColumnValue)) : list ColumnValue :=
  (filter (λ p : Z * ColumnValue, p.1 ∈ cs) l).*2.

Definition table_of {T} `{ArrowTable T} (table : Table) (rows : list (list ColumnValue)) : T :=
  at_make (fields_of table) (length rows) (arrays_of (length (columns table)) rows).

Lemma sorted_NoDup (l : list Z) : StronglySorted Z.lt l → NoDup l.
Proof.
  induction 1 as [|x l Hs IH Hx]; constructor; [|done]. intros Hin.
  rewrite Forall_forall in Hx. specialize (Hx x Hin). lia.
Qed.

(** ** The lookups of a schema *)

Lemma foldl_insert_lookup {K A} `{Countable K} (f : A → K) (l : list A) (m : gmap K A) a :
  NoDup (f <$> l) → a ∈ l → foldl (λ m a, <[f a := a]> m) m l !! f a = Some a.
Proof.
  revert m. induction l as [|b l IH]; intros m Hnd Ha; [by apply elem_of_nil in Ha|]. rewrite fmap_cons in Hnd.
  apply NoDup_cons in Hnd as [Hb Hnd]. simpl. apply elem_of_cons in Ha as [->|Ha]; [|by apply IH].
  clear IH. assert (Hother : ∀ m : gmap K A, foldl (λ m a, <[f a:=a]> m) m l !! f b = m !! f b).
  { induction l as [|c l IH]; intros m'; [done|]. simpl.
    rewrite fmap_cons, not_elem_of_cons in Hb. destruct Hb as [Hbc Hb].
    apply NoDup_cons in Hnd as [_ Hnd]. rewrite (IH Hb Hnd). by rewrite lookup_insert_ne by congruence. }
  by rewrite Hother, lookup_insert_eq.
Qed.

Lemma foldl_union_elem (l : list Z) (s : gset Z) c : c ∈ foldl (λ s c, {[c]} ∪ s) s l ↔ c ∈ s ∨ c ∈ l.
Proof. revert s. induction l as [|d l IH]; intros s; simpl; [set_solver|]. rewrite IH. set_solver. Qed.

Lemma insert_into_elem k x m c i :
  (i ∈ default (∅ : gset Z) (insert_into k x m !! c)) ↔ (c = k ∧ i = x) ∨ i ∈ default ∅ (m !! c).
Proof.
  unfold insert_into. destruct (decide (k = c)) as [->|Hne].
  - rewrite lookup_insert_eq. simpl. set_solver.
  - rewrite lookup_insert_ne by done. set_solver.
Qed.

(** ** Appending the values of columns *)

Definition append_all (ps : list (Z * ColumnValue)) (b : Builders) : Builders :=
  (λ e : Z * list ColumnValue, (e.1, e.2 ++ (filter (λ p : Z * ColumnValue, p.1 = e.1) ps).*2)) <$> b.

(** The order of the entries does not matter to a builder of its columns. *)
Lemma append_all_perm ps ps' b :
  ps ≡ₚ ps' → NoDup (ps.*1) → append_all ps b = append_all ps' b.
Proof.
  intros Hp Hnd. unfold append_all. apply list_fmap_ext. intros i [c a] _. simpl. f_equal. f_equal. f_equal.
  assert (Hf : filter (λ p : Z * ColumnValue, p.1 = c) ps ≡ₚ filter (λ p : Z * ColumnValue, p.1 = c) ps')
    by by rewrite Hp.
  assert (Hl : ∀ x y l, filter (λ p : Z * ColumnValue, p.1 = c) ps ≠ x :: y :: l).
  { intros x y l E. assert (Hn : NoDup ((filter (λ p : Z * ColumnValue, p.1 = c) ps).*1)).
    { eapply sublist_NoDup; [exact Hnd|apply fmap_sublist, sublist_filter]. }
    assert (Hc : ∀ z, z ∈ filter (λ p : Z * ColumnValue, p.1 = c) ps → z.1 = c).
    { by intros z [? _]%list_elem_of_filter. }
    rewrite E in Hn, Hc. apply NoDup_cons in Hn as [Hn _]. apply Hn. simpl.
    rewrite (Hc x), (Hc y) by set_solver. left. }
  destruct (filter _ ps) as [|x [|y l]]; [|by apply Permutation_singleton_l|by destruct (Hl x y l eq_refl)].
  by apply Permutation_nil in Hf as ->.
Qed.

Lemma append_all_app ps ps' b : append_all (ps ++ ps') b = append_all ps' (append_all ps b).
Proof.
  unfold append_all. rewrite <- list_fmap_compose. apply list_fmap_ext. intros i [c a] _. simpl.
  by rewrite filter_app, fmap_app, (assoc_L (++)).
Qed.

Section schema.
Context (table : Table) (Hok : table_ok table).
Abbreviation schema := (makeTableSchema table).
Abbreviation ids := (ids_of table).

Lemma ids_NoDup : NoDup ids.
Proof. apply sorted_NoDup, Hok. Qed.

Lemma lookup_column col : col ∈ columns table → columnIdToColLookup_ schema !! col_id col = Some col.
Proof. intros Hcol. by apply (foldl_insert_lookup col_id); [apply ids_NoDup|]. Qed.

Lemma getColumn_ok col : col ∈ columns table → getColumn (col_id col) schema = Ret col.
Proof. intros Hcol. unfold getColumn. by rewrite lookup_column. Qed.
Lemma getColumnType_ok col :
  col ∈ columns table → getColumnType (col_id col) schema = Some (column_type col).
Proof. intros Hcol. unfold getColumnType. by rewrite lookup_column. Qed.

Lemma isPrimaryKeyColumn_ok c :
  isPrimaryKeyColumn c schema = true ↔ c ∈ column_ids (primary_key_index table).
Proof.
  unfold isPrimaryKeyColumn. rewrite bool_decide_eq_true. simpl.
  rewrite foldl_union_elem. set_solver.
Qed.

Lemma indexIds_ok c idx :
  idx ∈ indexIds c schema ↔ ∃ i, i ∈ secondary_index table ∧ index_id i = idx ∧ c ∈ column_ids i.
Proof.
  assert (E : indexIds c schema = default ∅ (colIdToSecondaryIdx_ schema !! c))
    by (unfold indexIds; by destruct (_ !! c)).
  rewrite E. simpl.
  assert (Hinner : ∀ (i : Index) cs m, idx ∈ default ∅ (foldl (λ m c, insert_into c (index_id i) m) m cs !! c) ↔
    idx ∈ default ∅ (m !! c) ∨ (idx = index_id i ∧ c ∈ cs)).
  { intros i cs. induction cs as [|d cs IH]; intros m; simpl; [set_solver|].
    rewrite IH, insert_into_elem. set_solver. }
  assert (Hall : ∀ l m, idx ∈ default ∅ (foldl (λ m i,
      foldl (λ m c, insert_into c (index_id i) m) m (column_ids i)) m l !! c) ↔
    idx ∈ default ∅ (m !! c) ∨ ∃ i, i ∈ l ∧ index_id i = idx ∧ c ∈ column_ids i).
  { intros l. induction l as [|i l IH]; intros m; simpl; [set_solver|].
    rewrite IH, Hinner. set_solver. }
  rewrite Hall, lookup_empty. simpl. set_solver.
Qed.

Lemma find_index_ok i : i ∈ secondary_index table → find_index (index_id i) table = Some i.
Proof.
  intros Hi. unfold find_index. pose proof (ok_indexes _ Hok) as Hnd.
  induction (secondary_index table) as [|j l IH]; [by apply elem_of_nil in Hi|].
  apply NoDup_cons in Hnd as [Hj Hnd]. rewrite filter_cons. apply elem_of_cons in Hi as [->|Hi].
  - by rewrite decide_True.
  - rewrite decide_False; [auto|]. intros E. apply Hj. rewrite E. by apply list_elem_of_fmap_2.
Qed.

(** ** The parts of a row *)

Lemma emplace_all_sorted l :
  StronglySorted Z.lt l.*1 → emplace_all l = l.
Proof.
  induction l as [|[c v] l IH] using rev_ind; intros Hs; [done|].
  unfold emplace_all in *. rewrite foldl_app. rewrite fmap_app in Hs.
  assert (Hl : StronglySorted Z.lt l.*1 ∧ Forall (λ e : Z * ColumnValue, e.1 < c) l).
  { clear IH. induction l as [|[d w] l IH]; simpl in *; [by split; constructor|].
    inversion Hs as [|? ? Hs' Hd]; subst. destruct (IH Hs') as [? ?].
    apply Forall_app in Hd as [Hd Hc]. inversion Hc; subst. split; constructor; done. }
  destruct Hl as [Hl Hlt]. rewrite (IH Hl). simpl.
  assert (Hk : Forall (λ e : Z * ColumnValue, key_lt e.1 c) l).
  { eapply Forall_impl; [exact Hlt|]. intros e. by rewrite key_lt_Z. }
  unfold om_emplace. rewrite (proj2 (om_find_None c l)).
  - simpl. by rewrite om_set_snoc.
  - intros ([d w] & E & Hin)%list_elem_of_fmap. simpl in E. subst.
    rewrite Forall_forall in Hlt. specialize (Hlt _ Hin). simpl in Hlt. lia.
Qed.

Lemma primary_of_project l : primary_of schema l = project (column_ids (primary_key_index table)) l.
Proof.
  unfold primary_of, project. f_equal. apply list_filter_iff. intros p. apply isPrimaryKeyColumn_ok.
Qed.

(** In-order projections have a value per column. *)
Lemma project_length cs row :
  in_order ids cs → length row = length (columns table) → length (project cs (zip ids row)) = length cs.
Proof.
  intros Hcs Hlen. unfold in_order in Hcs. rewrite Hcs at 2. unfold project. rewrite length_fmap.
  assert (Hl : length ids = length row) by (unfold ids_of; by rewrite length_fmap).
  clear Hcs Hlen. revert row Hl. generalize ids. intros l. induction l as [|c l IH]; intros [|v row] Hl; try done.
  injection Hl as Hl. simpl. rewrite !filter_cons. simpl. case_decide; simpl; by rewrite IH.
Qed.

Lemma foldr_push_back idx v (l : list Z) m :
  NoDup l →
  default [] (foldr (λ idx m, push_back idx v m) m l !! idx) =
    default [] (m !! idx) ++ (if decide (idx ∈ l) then [v] else []).
Proof.
  induction l as [|i l IH]; intros Hnd; simpl.
  - by rewrite app_nil_r.
  - apply NoDup_cons in Hnd as [Hi Hnd]. unfold push_back at 1. destruct (decide (i = idx)) as [->|Hne].
    + rewrite lookup_insert_eq. simpl. rewrite IH by done.
      rewrite (decide_False (P := idx ∈ l)) by done. rewrite decide_True by set_solver.
      by rewrite app_nil_r.
    + rewrite lookup_insert_ne, IH by done. f_equal.
      destruct (decide (idx ∈ l)); [rewrite decide_True by set_solver|rewrite decide_False by set_solver]; done.
Qed.
Lemma foldr_push_back_dom idx v (l : list Z) (m : gmap Z (list ColumnValue)) :
  is_Some (foldr (λ idx m, push_back idx v m) m l !! idx) ↔ is_Some (m !! idx) ∨ idx ∈ l.
Proof.
  induction l as [|i l IH]; simpl; [set_solver|]. unfold push_back at 1.
  rewrite lookup_insert_is_Some, IH. rewrite elem_of_cons. destruct (decide (i = idx)); naive_solver.
Qed.

Lemma secondary_of_lookup l idx vals :
  secondary_of schema l !! idx = Some vals →
  ∃ i, i ∈ secondary_index table ∧ index_id i = idx ∧ vals = project (column_ids i) l.
Proof.
  assert (Hall : default [] (secondary_of schema l !! idx) =
      (filter (λ p : Z * ColumnValue, idx ∈ indexIds p.1 schema) l).*2 ∧
    (is_Some (secondary_of schema l !! idx) → ∃ c, idx ∈ indexIds c schema)).
  { induction l as [|p l [IH1 IH2]] using rev_ind; [split; [done|by intros []]|].
    unfold secondary_of in *. rewrite foldl_app. simpl.
    rewrite foldr_push_back, IH1 by apply NoDup_elements. split.
    - rewrite filter_app, fmap_app, filter_cons, filter_nil. f_equal.
      destruct (decide (idx ∈ elements (indexIds p.1 schema))) as [E|E]; rewrite elem_of_elements in E.
      + by rewrite decide_True.
      + by rewrite decide_False.
    - rewrite foldr_push_back_dom, elem_of_elements. intros [?|?]; eauto. }
  intros E. rewrite E in Hall. destruct Hall as [Hv [c Hc]]; [by eexists|]. simpl in Hv. subst vals.
  apply indexIds_ok in Hc as (i & Hi & <- & _). exists i. split_and!; [done|done|].
  unfold project. f_equal. apply list_filter_iff. intros p. rewrite indexIds_ok.
  split; [|by exists i]. intros (j & Hj & E' & Hc).
  pose proof (find_index_ok i Hi) as Fi. pose proof (find_index_ok j Hj) as Fj.
  rewrite E', Fi in Fj. by injection Fj as ->.
Qed.

(** ** A row and its key-value pairs *)

Context `{DbConvLaws}.
Implicit Types row : list ColumnValue.

Lemma outcome_bind_Ret {A B} (a : A) (f : A → outcome B) : (Ret a ≫= f) = f a.
Proof. done. Qed.
Lemma mapM_Ret {A B} (f : A → outcome B) l k : Forall2 (λ a b, f a = Ret b) l k → mapM f l = Ret k.
Proof. induction 1 as [|a b l k E _ IH]; [done|]. simpl. by rewrite E, IH. Qed.

(** The key values of a row. *)
Definition key_of (row : list ColumnValue) : list ColumnValue :=
  project (column_ids (primary_key_index table)) (zip ids row).

Lemma good_length row : row_good table row → length row = length (columns table).
Proof. intros [Ht _ _]. apply Forall2_length in Ht. unfold fields_of in Ht. by rewrite length_fmap in Ht. Qed.

Lemma project_good row cs :
  row_good table row → (∀ c, c ∈ cs → c ∈ key_columns table) → Forall value_ok (project cs (zip ids row)).
Proof.
  intros Hrow Hcs. apply Forall_forall. intros v ([c v'] & -> & [Hc Hin]%list_elem_of_filter)%list_elem_of_fmap.
  simpl in Hc. by eapply good_values; [exact Hrow|exact Hin|apply Hcs].
Qed.

Lemma key_good row :
  row_good table row → Forall value_ok (key_of row) ∧
    length (column_ids (primary_key_index table)) = length (key_of row).
Proof.
  intros Hrow. split.
  - apply project_good; [done|]. intros c. unfold key_columns. set_solver.
  - symmetry. apply project_length; [apply Hok|by apply good_length].
Qed.

Lemma index_good row i :
  row_good table row → i ∈ secondary_index table →
  Forall value_ok (project (column_ids i) (zip ids row)) ∧
    length (column_ids i) = length (project (column_ids i) (zip ids row)).
Proof.
  intros Hrow Hi. split.
  - apply project_good; [done|]. intros c Hc. unfold key_columns. rewrite elem_of_app, list_elem_of_join.
    right. exists (column_ids i). split; [done|]. by apply list_elem_of_fmap_2.
  - symmetry. apply project_length; [by apply (ok_index_order _ Hok)|by apply good_length].
Qed.

Definition index_key (row : list ColumnValue) (k : string) : Prop :=
  ∃ i, i ∈ secondary_index table ∧
    k = join (secondary_tokens table i (project (column_ids i) (zip ids row)) (key_of row)).

Lemma zip_ids_fst row : length row = length (columns table) → (zip ids row).*1 = ids.
Proof. intros Hlen. apply fst_zip. unfold ids_of. rewrite length_fmap. lia. Qed.

Lemma serialize_values_good row :
  row_good table row →
  ∃ idxKeys, Forall (index_key row) idxKeys ∧
    serialize_values schema (zip ids row) =
      Ret ((join (primary_tokens table (key_of row)), "NULL"%string) ::
        ((λ x : Z * ColumnValue, (columnKey (join (primary_tokens table (key_of row))) x.1, toString x.2))
          <$> zip ids row) ++ ((λ k, (k, "NULL"%string)) <$> idxKeys)).
Proof.
  intros Hrow. destruct (key_good row Hrow) as [Hkv Hkl]. unfold serialize_values.
  rewrite primary_of_project. change (table_ schema) with table. fold (key_of row).
  rewrite (primaryKey_join table) by done. rewrite emplace_all_sorted.
  2: { rewrite zip_ids_fst by by apply good_length. apply Hok. }
  assert (Hkeys : ∃ ks, Forall (index_key row) ks ∧ mapM (λ x : Z * list ColumnValue,
      secondaryIndexKey table x.1 x.2 (key_of row)) (map_to_list (secondary_of schema (zip ids row))) = Ret ks).
  { assert (Hall : ∀ x, x ∈ map_to_list (secondary_of schema (zip ids row)) →
      ∃ k, index_key row k ∧ secondaryIndexKey table x.1 x.2 (key_of row) = Ret k).
    { intros [idx vals] Hx%elem_of_map_to_list.
      apply secondary_of_lookup in Hx as (i & Hi & <- & ->).
      destruct (index_good row i Hrow Hi) as [_ Hl]. eexists. split; [by exists i|].
      apply (secondaryIndexKey_join table); [by apply find_index_ok|done|done]. }
    induction (map_to_list _) as [|x l IH]; [by exists []|].
    destruct (Hall x) as (k & Hk & Ek); [by left|].
    destruct IH as (ks & Hks & Eks); [intros y Hy; apply Hall; by right|].
    exists (k :: ks). split; [by constructor|]. simpl. by rewrite Ek, Eks. }
  destruct Hkeys as (ks & Hks & Eks). exists ks. split; [done|].
  rewrite outcome_bind_Ret. by rewrite Eks.
Qed.

(** What the pairs of a row are read as: the columns with their values. *)
Definition yields (kv : string * string) (p : option (Z * ColumnValue)) : Prop :=
  ∃ f, parseKey table kv.1 = Ret f ∧
    match colId f, p with
    | None, None => True
    | Some c, Some (c', v) => c = c' ∧ typed_value (getColumnType c schema) kv.2 = Ret v
    | _, _ => False
    end.

Lemma append_values_yields kvs ps b :
  Forall2 yields kvs ps → append_values schema kvs b = Ret (append_all (omap id ps) b).
Proof.
  intros Hall. revert b. induction Hall as [|[k x] p kvs ps (f & Ef & Hp) _ IH]; intros b; simpl.
  - f_equal. unfold append_all. rewrite <- (list_fmap_id b) at 1. apply list_fmap_ext.
    intros i [c a] _. simpl. by rewrite app_nil_r.
  - simpl in Ef, Hp. rewrite Ef. simpl. destruct (colId f) as [c|], p as [[c' v]|]; try done.
    + destruct Hp as [<- Hv]. rewrite Hv. simpl. rewrite IH. f_equal. unfold append_all, append_to.
      rewrite <- list_fmap_compose. apply list_fmap_ext. intros i [d a] _. simpl.
      rewrite filter_cons. simpl. destruct (decide (d = c)) as [->|Hne].
      * rewrite decide_True by done. simpl. by rewrite <- (assoc_L (++)).
      * by rewrite decide_False by done.
    + simpl. apply IH.
Qed.

Lemma typed_value_good v : in_range v → ∀ ty, has_type ty v = true →
  typed_value (Some ty) (toString v) = Ret v.
Proof.
  intros Hv ty Hty. destruct ty, v as [z|s]; try done. simpl in *. by rewrite to_int64_pretty.
Qed.

Lemma row_column row c v :
  row_good table row → (c, v) ∈ zip ids row →
  ∃ col, col ∈ columns table ∧ col_id col = c ∧ has_type (column_type col) v = true ∧ in_range v.
Proof.
  intros [Ht Hr _] Hin. unfold row_ok, fields_of in Ht. rewrite Forall2_fmap_l in Ht.
  unfold ids_of in Hin. clear Hok. induction Ht as [|col w cols row Hw _ IH].
  - by apply elem_of_nil in Hin.
  - apply Forall_cons in Hr as [Hrw Hr]. simpl in Hin. apply elem_of_cons in Hin as [[= -> ->]|Hin].
    + exists col. split_and!; [left|done..].
    + destruct (IH Hr Hin) as (col' & ? & ?). exists col'. split; [by right|done].
Qed.

(** The key of a row, and its entries without those of its indexes. *)
Definition row_key (row : list ColumnValue) : string := join (primary_tokens table (key_of row)).
Definition entries (row : list ColumnValue) : list (string * string) :=
  (row_key row, "NULL"%string) ::
  ((λ x : Z * ColumnValue, (columnKey (row_key row) x.1, toString x.2)) <$> zip ids row).
(** What they are read as. *)
Definition readings (row : list ColumnValue) : list (option (Z * ColumnValue)) :=
  None :: (Some <$> zip ids row).

Lemma entries_yield row : row_good table row → Forall2 yields (entries row) (readings row).
Proof.
  intros Hrow. destruct (key_good row Hrow) as [Hkv Hkl]. constructor.
  - eexists. split; [apply (primary_fragments table); [apply Hok|done..]|done].
  - apply Forall2_fmap_2. apply Forall2_same_length_lookup_2; [done|].
    intros j [c v] x Hx Hx'. rewrite Hx in Hx'. injection Hx' as <-.
    apply list_elem_of_lookup_2 in Hx. destruct (row_column row c v Hrow Hx) as (col & Hcol & <- & Hty & Hr).
    eexists. split.
    { apply (column_fragments table); [apply Hok|done..|].
      pose proof (ok_u32 _ Hok) as Hu. rewrite Forall_forall in Hu. apply Hu. by apply (list_elem_of_fmap_2 col_id (columns table)). }
    simpl. split; [done|]. rewrite getColumnType_ok by done. by apply typed_value_good.
Qed.
Lemma index_yields row k : row_good table row → index_key row k → yields (k, "NULL"%string) None.
Proof.
  intros Hrow (i & Hi & ->). destruct (key_good row Hrow) as [Hkv Hkl], (index_good row i Hrow Hi) as [Hiv Hil].
  eexists. split; [apply (secondary_fragments table); [apply Hok|by apply find_index_ok|done..]|done].
Qed.
Lemma omap_readings row : omap id (readings row) = zip ids row.
Proof.
  unfold readings. simpl. generalize (zip ids row). intros l.
  induction l as [|x l IH]; [done|]. exact (f_equal (cons x) IH).
Qed.

(** A row is written as its entries and those of its indexes. *)
Lemma serialize_entries row :
  row_good table row → ∃ ks, Forall (index_key row) ks ∧
    serialize_values schema (zip ids row) = Ret (entries row ++ ((λ k, (k, "NULL"%string)) <$> ks)).
Proof. exact (serialize_values_good row). Qed.

(** The pairs of a row are read as its columns. *)
Lemma row_yields row kvs :
  row_good table row → serialize_values schema (zip ids row) = Ret kvs →
  ∃ ps, Forall2 yields kvs ps ∧ omap id ps = zip ids row.
Proof.
  intros Hrow E. destruct (serialize_entries row Hrow) as (ks & Hks & E'). rewrite E' in E.
  assert (Hkvs : kvs = entries row ++ ((λ k, (k, "NULL"%string)) <$> ks)) by congruence.
  clear E E'. subst kvs. exists (readings row ++ ((λ _, None) <$> ks)). split.
  - apply Forall2_app; [by apply entries_yield|].
    apply Forall2_fmap_2. apply Forall2_same_length_lookup_2; [done|].
    intros j k k' Hk _. rewrite Forall_forall in Hks. eapply index_yields, Hks; [done|]. by eapply list_elem_of_lookup_2.
  - rewrite omap_app, omap_readings.
    assert (Hnone : omap id ((λ _ : string, None) <$> ks) = @nil (Z * ColumnValue)) by (clear; by induction ks).
    by rewrite Hnone, app_nil_r.
Qed.
End schema.

(** ** Tables *)

Section tables.
Context {T : Type} `{ArrowTableLaws T, HC : DbConvLaws} (table : Table) (Hok : table_ok table).
Abbreviation schema := (makeTableSchema table).
Abbreviation ids := (ids_of table).
Implicit Types rows : list (list ColumnValue).

Lemma columns_inhabited : (0 < length (columns table))%nat.
Proof.
  destruct (ok_primary _ (ok_keys _ Hok)) as (_ & _ & Hne). pose proof (ok_primary_order _ Hok) as Ho.
  unfold in_order, ids_of in Ho. destruct (columns table); [done|]. simpl. lia.
Qed.

Lemma fields_length : length (fields_of table) = length (columns table).
Proof. apply length_fmap. Qed.

Lemma positions_make (n : nat) arrays :
  positions (T := T) (at_make (fields_of table) n arrays) = Ret ((λ r : nat, (Z.of_nat r, 0)) <$> seq 0 n).
Proof.
  unfold positions. rewrite at_num_rows_make, at_num_chunks_make.
  2: { pose proof columns_inhabited. rewrite <- fields_length in *. destruct (fields_of table); [simpl in *; lia|done]. }
  assert (E : mapM (λ r : Z, n ← Ret 1; mret ((λ c, (r, c)) <$> seqZ 0 n)) (seqZ 0 n) =
    Ret ((λ r : Z, [(r, 0)]) <$> seqZ 0 n)).
  { apply mapM_Ret. apply Forall2_fmap_r, Forall_Forall2_diag, Forall_true. done. }
  rewrite E. simpl. f_equal. unfold seqZ. rewrite Nat2Z.id. clear E.
  generalize 0%nat. induction n as [|n IH]; intros k; simpl; [done|]. rewrite IH. simpl. by rewrite Z.add_0_r.
Qed.

(** The column of the array that holds it. *)
Lemma read_column_make rows n arrays (r j : nat) row col v :
  Forall (row_ok (fields_of table)) rows → arrays !! j = Some (omap (.!! j) rows) →
  rows !! r = Some row → columns table !! j = Some col →
  row !! j = Some v →
  read_column (T := T) (at_make (fields_of table) n arrays) (Z.of_nat r, 0) col = Ret v.
Proof.
  intros Hrows Ha Hr Hj Hv. unfold read_column. simpl.
  assert (Hf : fields_of table !! j = Some (col_name col, column_type col))
    by (unfold fields_of; by rewrite list_lookup_fmap, Hj).
  apply (at_value_make _ _ _ j _ _ (omap (.!! j) rows)); [apply Hok|done|done| |].
  - rewrite (column_lookup (length (fields_of table))), Hr; [done|by apply row_ok_lengths|].
    rewrite fields_length. by eapply lookup_lt_Some.
  - assert (Hrow : row_ok (fields_of table) row) by by eapply (Forall_lookup_1 _ rows).
    by eapply (Forall2_lookup_lr _ _ _ _ _ _ Hrow Hf).
Qed.
Lemma positions_table rows :
  positions (table_of (T := T) table rows) = Ret ((λ r : nat, (Z.of_nat r, 0)) <$> seq 0 (length rows)).
Proof. apply positions_make. Qed.
Lemma read_column_table rows (r j : nat) row col v :
  Forall (row_ok (fields_of table)) rows → rows !! r = Some row → columns table !! j = Some col →
  row !! j = Some v → read_column (table_of (T := T) table rows) (Z.of_nat r, 0) col = Ret v.
Proof.
  intros Hrows Hr Hj Hv. apply (read_column_make rows _ _ r j row); [done| |done..].
  apply arrays_lookup. by eapply lookup_lt_Some.
Qed.

(** Reading all columns of a row. *)
Lemma read_row_table rows (r : nat) row :
  Forall (row_ok (fields_of table)) rows → rows !! r = Some row →
  mapM (λ col, v ← read_column (table_of (T := T) table rows) (Z.of_nat r, 0) col; mret (col_id col, v))
    (columns table) = Ret (zip ids row).
Proof.
  intros Hrows Hr. assert (Hrow : row_ok (fields_of table) row) by by eapply (Forall_lookup_1 _ rows).
  pose proof (Forall2_length _ _ _ Hrow) as Hlen. rewrite fields_length in Hlen.
  apply mapM_Ret, Forall2_same_length_lookup_2.
  { rewrite length_zip. unfold ids_of. rewrite length_fmap. lia. }
  intros j col [c v] Hj Hz. apply lookup_zip_Some in Hz as [Hc Hv].
  unfold ids_of in Hc. rewrite list_lookup_fmap, Hj in Hc. injection Hc as <-.
  by rewrite (read_column_table rows r j row col v).
Qed.

Lemma lookup_seq_forall2 {A B} (P : nat → B → Prop) (l : list A) (k : list B) :
  length l = length k → (∀ r b, k !! r = Some b → P r b) → Forall2 P (seq 0 (length l)) k.
Proof.
  intros Hlen HP. apply Forall2_same_length_lookup_2; [by rewrite length_seq|].
  intros r i b Hi Hb. apply lookup_seq in Hi as [-> _]. by apply HP.
Qed.

(** Arrays that hold the key columns of rows; the other ones can be empty, as
    in a request for rows. *)
Definition key_arrays (arrays : list (list ColumnValue)) rows : Prop :=
  ∀ j c, ids !! j = Some c → c ∈ column_ids (primary_key_index table) →
    arrays !! j = Some (omap (.!! j) rows).

Lemma table_key_arrays rows : key_arrays (arrays_of (length (columns table)) rows) rows.
Proof.
  intros j c Hj _. apply arrays_lookup. apply lookup_lt_Some in Hj. unfold ids_of in Hj.
  by rewrite length_fmap in Hj.
Qed.

(** The values of key columns, one by one. *)
Lemma project_values cs row :
  in_order ids cs → length row = length (columns table) →
  Forall2 (λ c v, c ∈ cs ∧ (c, v) ∈ zip ids row) cs (project cs (zip ids row)).
Proof.
  intros Hcs Hlen. unfold project. set (l := filter _ (zip ids row)).
  assert (E : cs = l.*1).
  { unfold in_order in Hcs. rewrite Hcs at 1. subst l. rewrite <- (zip_ids_fst table row Hlen) at 1.
    generalize (zip ids row). clear. intros l. induction l as [|[c v] l IH]; [done|]. simpl.
    rewrite !filter_cons. simpl. case_decide; [exact (f_equal (cons c) IH)|exact IH]. }
  assert (Hl : Forall2 (λ c v, c ∈ cs ∧ (c, v) ∈ zip ids row) l.*1 l.*2).
  { apply Forall2_fmap_2, Forall_Forall2_diag, Forall_forall. intros [c v] Hin. simpl.
    by apply list_elem_of_filter in Hin. }
  by rewrite <- E in Hl.
Qed.

(** Reading the key columns. *)
Lemma read_columns_key (t : T) p row :
  length row = length (columns table) →
  (∀ j col v, columns table !! j = Some col → col_id col ∈ column_ids (primary_key_index table) →
     row !! j = Some v → read_column t p col = Ret v) →
  read_columns schema t p (column_ids (primary_key_index (table_ schema))) = Ret (key_of table row).
Proof.
  intros Hlen Ht. unfold read_columns. apply mapM_Ret. unfold key_of.
  eapply Forall2_impl; [by apply project_values; [apply Hok|]|].
  intros c v [Hc (j & Hj)%list_elem_of_lookup]. cbv beta in Hj. apply lookup_zip_Some in Hj as [Hj Hv'].
  unfold ids_of in Hj. rewrite list_lookup_fmap in Hj.
  destruct (columns table !! j) as [col|] eqn:Hcol; [|done]. injection Hj as <-.
  rewrite (getColumn_ok table Hok) by by eapply list_elem_of_lookup_2.
  rewrite outcome_bind_Ret. by eapply Ht.
Qed.

Lemma serializePrimaryKeys_make rows arrays :
  Forall (row_ok (fields_of table)) rows → key_arrays arrays rows →
  serializePrimaryKeys schema (at_make (T := T) (fields_of table) (length rows) arrays) =
    Ret (row_key table <$> rows).
Proof.
  intros Hrows Ha. unfold serializePrimaryKeys. rewrite positions_make, outcome_bind_Ret.
  apply mapM_Ret, Forall2_fmap_l, lookup_seq_forall2; [by rewrite length_fmap|].
  intros r k Hk. rewrite list_lookup_fmap in Hk. destruct (rows !! r) as [row|] eqn:Hr; [|done].
  injection Hk as <-. pose proof (Forall_lookup_1 _ _ _ _ Hrows Hr) as Hrow.
  pose proof (Forall2_length _ _ _ Hrow) as Hlen. rewrite fields_length in Hlen. unfold compose. cbv beta.
  rewrite (read_columns_key _ _ row), outcome_bind_Ret by (done || (intros j col v Hcol Hc Hv;
    apply (read_column_make rows _ _ r j row); try done; apply (Ha j (col_id col)); [|done];
    unfold ids_of; by rewrite list_lookup_fmap, Hcol)).
  apply (primaryKey_join table).
  symmetry. unfold key_of. apply project_length; [apply Hok|done].
Qed.

(** The key values of the last row of a full page, and of none when the page is
    one row short. *)
Lemma parse_last_key rows row (n : nat) :
  Forall (row_ok (fields_of table)) rows → rows !! n = Some row →
  parsePrimaryKeyValues schema (at_slice n 1 (table_of (T := T) table rows)) = Ret (key_of table row).
Proof.
  intros Hrows Hr. unfold parsePrimaryKeyValues, positions, table_of. pose proof (lookup_lt_Some _ _ _ Hr) as Hlt.
  pose proof columns_inhabited as Hpos. rewrite <- fields_length in Hpos.
  rewrite at_slice_chunks by by destruct (fields_of table); [simpl in Hpos; lia|].
  rewrite <- fields_length, at_slice_make by (apply Hok || done || lia).
  replace (Z.min 1 (length rows - n)) with 1 by lia. cbn.
  pose proof (Forall_lookup_1 _ _ _ _ Hrows Hr) as Hrow. pose proof (Forall2_length _ _ _ Hrow) as Hlen.
  apply read_columns_key; [by rewrite fields_length in Hlen|]. intros j col v Hcol Hc Hv. unfold read_column. simpl.
  apply at_slice_value; [lia|lia|]. rewrite Z.add_0_r, fields_length.
  by apply (read_column_table rows n j row).
Qed.
Lemma parse_last_key_none rows (n : nat) :
  Forall (row_ok (fields_of table)) rows → length rows = n →
  parsePrimaryKeyValues schema (at_slice n 1 (table_of (T := T) table rows)) = Ret [].
Proof.
  intros Hrows Hn. unfold parsePrimaryKeyValues, positions, table_of.
  rewrite <- fields_length, at_slice_make by (apply Hok || done || lia).
  by replace (Z.min 1 (length rows - n)) with 0 by lia.
Qed.

Lemma serialize_table rows kvss :
  Forall (row_ok (fields_of table)) rows →
  Forall2 (λ row kvs, serialize_values schema (zip ids row) = Ret kvs) rows kvss →
  serialize schema (table_of (T := T) table rows) = Ret kvss.
Proof.
  intros Hrows Hall. unfold serialize. rewrite positions_table, outcome_bind_Ret.
  apply mapM_Ret, Forall2_fmap_l, lookup_seq_forall2; [by eapply Forall2_length|].
  intros r kvs Hkvs. destruct (Forall2_lookup_r _ _ _ _ _ Hall Hkvs) as (row & Hr & E).
  unfold serialize_row. unfold compose. cbv beta. change (columns (table_ schema)) with (columns table).
  by rewrite (read_row_table rows r row), outcome_bind_Ret.
Qed.

(** ** Deserializing *)

Lemma header_builders : colBuilder (getHeader schema) = (λ c, (c, [])) <$> ids.
Proof.
  simpl. unfold ids_of. pose proof (ok_ids _ Hok) as Hs. unfold ids_of in Hs.
  induction (columns table) as [|col cols IH] using rev_ind; [done|].
  rewrite foldl_app, !fmap_app. rewrite fmap_app in Hs.
  assert (Hl : StronglySorted Z.lt (col_id <$> cols) ∧ Forall (λ c, c < col_id col) (col_id <$> cols)).
  { clear IH Hok. induction cols as [|d cols IH]; simpl in *; [by split; constructor|].
    inversion Hs as [|? ? Hs' Hd]; subst. destruct (IH Hs') as [? ?].
    apply Forall_app in Hd as [Hd Hc]. inversion Hc; subst. split; constructor; done. }
  destruct Hl as [Hl Hlt]. rewrite (IH Hl). simpl. apply om_set_snoc.
  apply Forall_fmap. eapply Forall_impl; [exact Hlt|]. intros c. simpl. by rewrite key_lt_Z.
Qed.

Lemma filter_zip (l : list Z) (row : list ColumnValue) j c :
  NoDup l → l !! j = Some c → length row = length l →
  (filter (λ p : Z * ColumnValue, p.1 = c) (zip l row)).*2 = option_list (row !! j).
Proof.
  intros Hnd. revert j row. induction Hnd as [|d l Hd Hnd IH]; intros j row Hj Hlen; [done|].
  destruct row as [|v row]; [done|]. injection Hlen as Hlen. simpl. rewrite filter_cons. simpl.
  destruct j as [|j]; simpl in Hj.
  - injection Hj as ->. rewrite decide_True by done. simpl. rewrite filter_none; [done|].
    intros [d v'] Hin E. simpl in E. subst d. apply elem_of_zip_l in Hin. done.
  - rewrite decide_False by (intros ->; apply Hd; by eapply list_elem_of_lookup_2). exact (IH j row Hj Hlen).
Qed.

Lemma append_all_rows rows :
  Forall (row_ok (fields_of table)) rows →
  (append_all (mjoin (zip ids <$> rows)) ((λ c, (c, [])) <$> ids)).*2 =
    arrays_of (length (columns table)) rows.
Proof.
  intros Hrows. apply list_eq. intros j. unfold append_all. rewrite !list_lookup_fmap.
  destruct (decide (j < length (columns table))%nat) as [Hj|Hj].
  - rewrite arrays_lookup by done. destruct (lookup_lt_is_Some_2 ids j) as [c Hc];
      [unfold ids_of; by rewrite length_fmap|].
    rewrite Hc. simpl. f_equal. induction Hrows as [|row rows Hrow _ IH]; [done|].
    apply Forall2_length in Hrow. rewrite fields_length in Hrow.
    cbn [fmap list_fmap mjoin list_join]. rewrite filter_app, fmap_app, (filter_zip _ _ j);
      [|by apply ids_NoDup|done|unfold ids_of; by rewrite length_fmap].
    destruct (lookup_lt_is_Some_2 row j) as [v Hv]; [lia|]. simpl. rewrite Hv. simpl. by f_equal.
  - unfold arrays_of, ids_of. rewrite !lookup_ge_None_2; [done|rewrite length_fmap, length_seq; lia|].
    rewrite length_fmap. lia.
Qed.

(** The columns of rows, appended in any order, make the table of the rows. *)
Lemma finish_rows rows ps :
  Forall (row_ok (fields_of table)) rows →
  (∀ b, append_all ps b = append_all (mjoin (zip ids <$> rows)) b) →
  finish (fields_of table) (append_all ps ((λ c, (c, [])) <$> ids)) = Ret (table_of (T := T) table rows).
Proof.
  intros Hr Eps. rewrite Eps. unfold finish. rewrite append_all_rows by done.
  pose proof columns_inhabited as Hpos. unfold table_of.
  assert (E0 : arrays_of (length (columns table)) rows !! 0%nat = Some (omap (.!! 0%nat) rows))
    by by apply arrays_lookup.
  destruct (arrays_of (length (columns table)) rows) as [|a l] eqn:Ea; [done|]. injection E0 as ->.
  rewrite <- Ea. do 2 f_equal. rewrite <- fields_length in Hpos.
  apply row_ok_lengths in Hr. clear - Hr Hpos. induction Hr as [|row rows Hrow _ IH]; [done|].
  destruct (lookup_lt_is_Some_2 row 0) as [v Hv]; [lia|]. simpl. rewrite Hv. simpl. exact (f_equal S IH).
Qed.
Lemma deserialize_yields rows kvss ps :
  Forall (row_good table) rows → Forall2 (yields table) (mjoin kvss) ps →
  (∀ b, append_all (omap id ps) b = append_all (mjoin (zip ids <$> rows)) b) →
  deserialize schema kvss = Ret (table_of (T := T) table rows).
Proof.
  intros Hrows Hps Eps. unfold deserialize.
  rewrite (append_values_yields table _ ps) by done. rewrite outcome_bind_Ret, header_builders.
  apply finish_rows; [|done]. eapply Forall_impl; [exact Hrows|]. intros row Hrow. apply Hrow.
Qed.

Lemma deserialize_rows rows kvss :
  Forall (row_good table) rows →
  Forall2 (λ row kvs, serialize_values schema (zip ids row) = Ret kvs) rows kvss →
  deserialize schema kvss = Ret (table_of (T := T) table rows).
Proof.
  intros Hrows Hall.
  assert (Hps : ∃ ps, Forall2 (yields table) (mjoin kvss) ps ∧ omap id ps = mjoin (zip ids <$> rows)).
  { clear - HC Hok Hrows Hall. induction Hall as [|row kvs rows kvss E _ IH]; [by exists []|].
    apply Forall_cons in Hrows as [Hrow Hrows]. destruct (IH Hrows) as (ps & Hps & Eps).
    destruct (row_yields table Hok row kvs Hrow E) as (qs & Hqs & Eqs).
    exists (qs ++ ps). split; [change (mjoin (kvs :: kvss)) with (kvs ++ mjoin kvss); apply Forall2_app; [exact Hqs|exact Hps]|]. rewrite omap_app, Eqs, Eps. done. }
  destruct Hps as (ps & Hps & Eps). apply (deserialize_yields rows kvss ps); [done|done|]. intros b. by rewrite Eps.
Qed.

(** ** Types *)

(** The values in the builders have the types of their columns. *)
Definition builders_typed (b : Builders) : Prop :=
  Forall (λ e : Z * list ColumnValue, ∀ ty, getColumnType e.1 schema = Some ty →
    Forall (λ v, has_type ty v = true) e.2) b.

Lemma typed_value_type ty s v : typed_value (Some ty) s = Ret v → has_type ty v = true.
Proof.
  destruct ty; simpl; [|by intros [= <-]].
  destruct (conversion (to_int64 s)) as [z| |]; [|done..]. by intros [= <-].
Qed.

Lemma append_to_typed c v b :
  builders_typed b → (∀ ty, getColumnType c schema = Some ty → has_type ty v = true) →
  builders_typed (append_to c v b) ∧ (append_to c v b).*1 = b.*1.
Proof.
  intros Hb Hv. unfold append_to. split.
  - apply Forall_fmap. eapply Forall_impl; [exact Hb|]. intros [d a] Ha. simpl in *.
    destruct (decide (d = c)) as [->|]; simpl; [|done]. intros ty Hty.
    apply Forall_app. split; [by apply Ha|]. constructor; [by apply Hv|constructor].
  - rewrite <- list_fmap_compose. apply list_fmap_ext. intros i [d a] _. simpl. by case_decide.
Qed.

Lemma append_values_typed kvs b b' :
  append_values schema kvs b = Ret b' → builders_typed b → builders_typed b' ∧ b'.*1 = b.*1.
Proof.
  revert b. induction kvs as [|[k s] kvs IH]; intros b; simpl; [by intros [= <-]|].
  destruct (parseKey table k) as [f| |]; [|done..]. rewrite outcome_bind_Ret. destruct (colId f) as [c|].
  - destruct (typed_value (getColumnType c schema) s) as [v| |] eqn:Ev; [|done..]. simpl. intros E Hb.
    destruct (append_to_typed c v b Hb) as [Hb' Hf].
    { intros ty Hty. rewrite Hty in Ev. by apply typed_value_type in Ev. }
    destruct (IH _ E Hb') as [? E']. split; [done|]. by rewrite E', Hf.
  - simpl. apply IH.
Qed.

Lemma builders_columns b :
  builders_typed b → b.*1 = ids →
  Forall2 (λ col a, Forall (λ v, has_type (column_type col) v = true) a) (columns table) (b.*2).
Proof.
  intros Hb Hf. apply Forall2_same_length_lookup_2.
  { rewrite length_fmap, <- (length_fmap fst b), Hf. unfold ids_of. by rewrite length_fmap. }
  intros j col a Hcol Ha. rewrite list_lookup_fmap in Ha. destruct (b !! j) as [[c a']|] eqn:Ej; [|done].
  injection Ha as <-. assert (Hc : ids !! j = Some c) by (rewrite <- Hf, list_lookup_fmap, Ej; done).
  unfold ids_of in Hc. rewrite list_lookup_fmap, Hcol in Hc. injection Hc as <-.
  apply (Forall_lookup_1 _ _ _ _ Hb Ej). simpl. apply (getColumnType_ok table Hok). by eapply list_elem_of_lookup_2.
Qed.

(** C25: whatever is in the store, a table that is read from it is well typed:
    it has the fields of the schema and an array for each of them, with values
    of its type. *)
Theorem deserialize_well_typed kvss t :
  deserialize (T := T) schema kvss = Ret t →
  ∃ n arrays, t = at_make (fields_of table) n arrays ∧
    Forall2 (λ col a, Forall (λ v, has_type (column_type col) v = true) a) (columns table) arrays.
Proof.
  unfold deserialize. rewrite header_builders.
  destruct (append_values _ _ _) as [b| |] eqn:E; [|done..]. rewrite outcome_bind_Ret. unfold finish.
  destruct (b.*2) as [|a l] eqn:Eb; [done|]. intros [= <-]. exists (length a), (a :: l). split; [done|].
  apply append_values_typed in E as [Hb Hf].
  - rewrite <- Eb. apply builders_columns; [done|]. rewrite Hf, <- list_fmap_compose. apply list_fmap_id.
  - apply Forall_fmap, Forall_forall. by intros c _ ty _.
Qed.

Lemma good_rows_serialize rows :
  Forall (row_good table) rows →
  ∃ kvss, Forall2 (λ row kvs, serialize_values schema (zip ids row) = Ret kvs) rows kvss.
Proof.
  induction 1 as [|row rows Hrow _ [kvss IH]]; [by exists []|].
  destruct (serialize_values_good table Hok row Hrow) as (ks & _ & E).
  eexists. constructor; [exact E|exact IH].
Qed.

Lemma rows_good_ok rows : Forall (row_good table) rows → Forall (row_ok (fields_of table)) rows.
Proof. intros Hr. eapply Forall_impl; [exact Hr|]. intros row Hrow. apply Hrow. Qed.

(** C11: storing rows and reading them back gives the rows: a table is written
    as key-value pairs that are read as the same table, when the columns of the
    schema are in the order of their ids and no value of a key column is empty
    or starts with a slash. *)
Theorem deserialize_serialize rows :
  Forall (row_good table) rows →
  ∃ kvss, serialize schema (table_of (T := T) table rows) = Ret kvss ∧
    deserialize schema kvss = Ret (table_of (T := T) table rows) ∧
    at_rows (table_of (T := T) table rows) = rows.
Proof.
  intros Hrows. destruct (good_rows_serialize rows Hrows) as [kvss Hall]. exists kvss.
  split; [apply serialize_table; [by apply rows_good_ok|done]|]. split; [by apply deserialize_rows|].
  unfold table_of. rewrite <- fields_length. apply at_rows_make; [apply Hok|by apply rows_good_ok].
Qed.
End tables.

(** ** Witness *)

#[local] Existing Instance decimal_db_conv.

Definition person (id : Z) (name : string) (lock : Z) : list ColumnValue :=
  [IntValue id; StringValue name; IntValue lock].

Lemma sample_table_ok : table_ok sample_table.
Proof.
  split.
  - exact sample_keys_ok.
  - repeat constructor; lia.
  - apply (bool_decide_unpack _). vm_compute. exact I.
  - repeat constructor.
  - reflexivity.
  - apply (bool_decide_unpack _). vm_compute. exact I.
  - intros i ->%list_elem_of_singleton. reflexivity.
Qed.

Lemma person_good id name lock :
  in_i64 id = true → token_ok name → in_i64 lock = true → row_good sample_table (person id name lock).
Proof.
  intros Hid Hname Hlock. split.
  - repeat constructor.
  - by repeat constructor.
  - intros c v Hin _. simpl in Hin. rewrite !elem_of_cons, elem_of_nil in Hin.
    destruct Hin as [[= -> ->]|[[= -> ->]|[[= -> ->]|[]]]]; [apply IntValue_ok|exact Hname|apply IntValue_ok].
Qed.

Lemma deserialize_serialize_witness :
  ∃ kvss, serialize (makeTableSchema sample_table)
      (table_of (T := MemTable) sample_table [person 1 "ann" 0; person 2 "bob" 1]) = Ret kvss ∧
    deserialize (T := MemTable) (makeTableSchema sample_table) kvss =
      Ret (table_of sample_table [person 1 "ann" 0; person 2 "bob" 1]).
Proof.
  destruct (deserialize_serialize (T := MemTable) sample_table sample_table_ok
    [person 1 "ann" 0; person 2 "bob" 1]) as (kvss & Hs & Hd & _).
  - repeat constructor; apply person_good; done.
  - exists kvss. split; [exact Hs|exact Hd].
Defined.

Lemma deserialize_well_typed_witness :
  ∃ n arrays, deserialize (T := MemTable) (makeTableSchema sample_table) [[("0003/0007/0000/0000/1/0001", "ann")]]%string =
      Ret (at_make (fields_of sample_table) n arrays) ∧
    Forall2 (λ col a, Forall (λ v, has_type (column_type col) v = true) a) (columns sample_table) arrays.
Proof.
  destruct (deserialize (T := MemTable) (makeTableSchema sample_table) [[("0003/0007/0000/0000/1/0001", "ann")]]%string)
    as [t| |] eqn:E; [|vm_compute in E; discriminate..].
  destruct (deserialize_well_typed (T := MemTable) sample_table sample_table_ok _ t E) as (n & arrays & -> & Ha).
  exists n, arrays. split; [reflexivity|exact Ha].
Defined.
