(* ===== verification/QueryExecutor.v ===== *)
(** * The database: executing queries

    [src/applications/mydb/backend/RocksReaderWriter.cc] and
    [QueryExecutor.cc]: the rows of tables in RocksDB.  An executor does one
    call after the other. *)

From stdpp Require Import base gmap sets list strings pretty sorting.
From Stdlib Require Import ZArith Lia Ascii.
From S2P Require Import Prelude KVStore Schema KeySerializer Arrow RowSerializer.

Open Scope Z_scope.

(** ** Options *)

Inductive UpdateOptions := REPLACE | MERGE.
Inductive ScanDirection := FORWARD | BACKWARD.

Record IndexQueryOptions := {
  query_indexId : Z;
  query_direction : ScanDirection;
  query_secondaryKeyValues : list ColumnValue;
  query_primaryKeyValues : list ColumnValue;
  query_maxRowsReturnSize : Z }.

Record ScanOptions := {
  direction : ScanDirection;
  maxRowsReturnSize : Z;
  seekPosition : string;
  prefix : string }.

(** ** RocksReaderWriter *)

Section reader_writer.
Context {D : Type} `{RocksDB D}.

Definition write (rows : list RawTableRow) : M D bool := λ d,
  let '(status, d') := db_Write ((λ kv : string * string, BatchPut kv.1 kv.2) <$> mjoin rows) d in
  (Ret (ok status), d').

Definition del (keys : list string) : M D bool := λ d,
  let '(status, d') := db_Write (BatchDelete <$> keys) d in
  (Ret (ok status), d').

(** The entries from each key on that start with it. *)
Definition read (keys : list string) (d : D) : list RawTableRow :=
  (λ key, Rocks.scan_loop key (Rocks.seek key (db_Snapshot d))) <$> keys.

(** An [int32_t] compared with a [size_t]. *)
Definition to_size (z : Z) : Z := z `mod` 2 ^ 64.

(** The loop of [scan]: [rows], [row] and [prevKey] are its variables. *)
Fixpoint scan_loop (options : ScanOptions) (itr : list (string * string))
    (rows : list RawTableRow) (row : RawTableRow) (prevKey : string) : list RawTableRow * RawTableRow :=
  match itr with
  | [] => (rows, row)
  | (k, v) :: itr' =>
      if starts_with k prevKey then scan_loop options itr' rows (row ++ [(k, v)]) prevKey
      else if starts_with k (prefix options) then
        if length rows =? to_size (maxRowsReturnSize options) then (rows, row)
        else scan_loop options itr' (match row with [] => rows | _ => rows ++ [row] end) [(k, v)] k
      else (rows, row)
  end.

Definition scan (options : ScanOptions) (d : D) : list RawTableRow :=
  let '(rows, row) :=
    scan_loop options (Rocks.seek (seekPosition options) (db_Snapshot d)) [] [] "SOME WEIRD STRING" in
  if (length rows <? to_size (maxRowsReturnSize options)) && negb (bool_decide (row = []))
  then rows ++ [row] else rows.
End reader_writer.

(** ** QueryExecutor *)

Section executor.
Context {D T : Type} `{RocksDB D, ArrowTable T, DbConv}.
Implicit Types schema : TableSchema.

Definition get schema (internalTable : T) : M D T :=
  keys ← of_outcome (serializePrimaryKeys schema internalTable);
  kvRows ← gets (read keys);
  of_outcome (deserialize schema kvRows).

Definition insert schema (internalTable : T) : M D () :=
  getResult ← get schema internalTable;
  if at_num_rows getResult =? 0 then
    rawTableRows ← of_outcome (serialize schema internalTable);
    _ ← write rawTableRows;
    mret ()
  else throw (RuntimeError "row already exists").

Definition update schema (internalTable : T) (option : UpdateOptions) : M D () :=
  rawTableRows ← of_outcome (serialize schema internalTable);
  _ ← match option with
      | REPLACE => _ ← del ((mjoin rawTableRows).*1); mret ()
      | MERGE => mret ()
      end;
  _ ← write rawTableRows;
  mret ().

Definition seek_position schema (options : IndexQueryOptions) : outcome string :=
  let table := table_ schema in
  let primary := index_id (primary_key_index table) =? query_indexId options in
  match query_primaryKeyValues options with
  | [] => Ret (minimumIndexKey table
            (if primary then index_id (primary_key_index table) else query_indexId options))
  | values =>
      if decide (length values = length (column_ids (primary_key_index table))) then
        if primary then maximumIndexKey table (query_indexId options) values
        else maximumSecondaryIndexKey table (query_indexId options) values
               (query_secondaryKeyValues options)
      else Throw AssertFailure
  end.

Definition tableScan schema (options : IndexQueryOptions) : M D T :=
  let table := table_ schema in
  position ← of_outcome (seek_position schema options);
  kvRows ← gets (scan {| direction := query_direction options;
                         maxRowsReturnSize := query_maxRowsReturnSize options;
                         seekPosition := position;
                         prefix := minimumIndexKey table (query_indexId options) |});
  if index_id (primary_key_index table) =? query_indexId options then
    of_outcome (deserialize schema kvRows)
  else
    primaryKeys ← of_outcome (deserializeSecondaryIndexKeys schema kvRows);
    get schema primaryKeys.

Definition set_positions (primary secondary : list ColumnValue) (options : IndexQueryOptions)
    : IndexQueryOptions :=
  {| query_indexId := query_indexId options; query_direction := query_direction options;
     query_secondaryKeyValues := secondary; query_primaryKeyValues := primary;
     query_maxRowsReturnSize := query_maxRowsReturnSize options |}.

(** The first [fuel] responses of the generator, and whether it ended; the
    table of the argument, a null pointer at every call, is [None]. *)
Fixpoint tableScanGenerator (fuel : nat) schema (internalTable : option T) (options : IndexQueryOptions)
    : M D (list T * bool) :=
  match fuel with
  | O => mret ([], false)
  | S fuel' =>
      response ← tableScan schema options;
      if at_num_rows response =? 0 then mret ([], true)
      else
        let lastRow := at_slice (query_maxRowsReturnSize options - 1) 1 response in
        primaryKeyValues ← of_outcome (parsePrimaryKeyValues schema lastRow);
        secondaryKeyValues ←
          (if index_id (primary_key_index (table_ schema)) =? query_indexId options
           then mret (query_secondaryKeyValues options)
           else match internalTable with
                | None => throw NullPointer
                | Some t => of_outcome (parseSecondaryKeyValues schema t (query_indexId options))
                end);
        rest ← tableScanGenerator fuel' schema internalTable
                 (set_positions primaryKeyValues secondaryKeyValues options);
        mret (response :: rest.1, rest.2)
  end.
End executor.

(** ** What a table stores *)

Section stored.
Context {T D : Type} `{ArrowTableLaws T, RocksDBLaws D, HC : DbConvLaws} (table : Table) (Hok : table_ok table).
Abbreviation schema := (makeTableSchema table).
Abbreviation ids := (ids_of table).
Implicit Types (d : D) (row : list ColumnValue) (rows : list (list ColumnValue)).

Abbreviation row_key := (row_key table).
Abbreviation entries := (entries table).

(** The primary index of the table holds the rows. *)
Definition table_prefix : string := minimumIndexKey table 0.
Definition stores d rows : Prop :=
  ∀ k v, starts_with k table_prefix = true →
    om_find k (db_contents d) = Some v ↔ ∃ row, row ∈ rows ∧ (k, v) ∈ entries row.

(** The key is no prefix of an entry of the row. *)
Definition clear_of (key : string) row : Prop :=
  ∀ k v, (k, v) ∈ entries row → starts_with k key = false.

Lemma starts_with_app (s t : string) : starts_with (s +:+ t) s = true.
Proof.
  unfold starts_with. induction s as [|c s IH]; [by destruct t|]. rewrite string_app_cons. simpl.
  by destruct (ascii_dec c c).
Qed.
Lemma starts_with_inv (s p : string) : starts_with s p = true → ∃ t, s = p +:+ t.
Proof.
  unfold starts_with. revert s. induction p as [|c p IH]; intros s Hs; [by exists s|].
  destruct s as [|c' s]; [done|]. simpl in Hs. destruct (ascii_dec c c') as [->|]; [|done].
  destruct (IH s Hs) as [t ->]. by exists t.
Qed.
Lemma starts_with_trans s t u : starts_with s t = true → starts_with t u = true → starts_with s u = true.
Proof.
  intros [x ->]%starts_with_inv [y ->]%starts_with_inv. rewrite string_app_assoc. apply starts_with_app.
Qed.

Lemma row_key_prefix row : starts_with (row_key row) table_prefix = true.
Proof.
  unfold row_key, primary_tokens, table_prefix. rewrite minimumIndexKey_join, (ok_zero _ (ok_keys _ Hok)).
  set (ts := pair_tokens _ _). assert (∃ t, join (table_tokens table 0 ++ ts) = join (table_tokens table 0) +:+ t)
    as [t ->]; [|apply starts_with_app].
  destruct ts as [|u ts]; [exists ""; by rewrite app_nil_r, string_app_nil|].
  eexists. by rewrite join_snoc_app.
Qed.
Lemma entries_start row k v : (k, v) ∈ entries row → starts_with k (row_key row) = true.
Proof.
  intros [[= -> _]|(x & [= -> _] & _)%list_elem_of_fmap]%elem_of_cons.
  - rewrite <- (string_app_nil (row_key row)) at 1. apply starts_with_app.
  - apply starts_with_app.
Qed.
Lemma entries_prefix row k v : (k, v) ∈ entries row → starts_with k table_prefix = true.
Proof. intros Hk%entries_start. eapply starts_with_trans; [exact Hk|apply row_key_prefix]. Qed.

(** ** Keys of columns and of indexes *)

Lemma string_app_inj (a b c : string) : a +:+ b = a +:+ c → b = c.
Proof. induction a as [|x a IH]; [done|]. intros E. apply IH. by injection E. Qed.

Lemma columnKey_inj k c c' : in_u32 c = true → in_u32 c' = true → columnKey k c = columnKey k c' → c = c'.
Proof.
  unfold columnKey. intros Hc Hc' E%string_app_inj%string_app_inj.
  pose proof (to_uint32_pad c Hc) as P. rewrite E, to_uint32_pad in P by done. congruence.
Qed.
Lemma columnKey_ne k c : columnKey k c ≠ k.
Proof.
  unfold columnKey. rewrite <- (string_app_nil k) at 2. by intros ?%string_app_inj.
Qed.

Lemma zip_column row c v :
  length row = length (columns table) → (c, v) ∈ zip ids row → c ∈ ids ∧ in_u32 c = true.
Proof.
  intros Hlen Hin. apply elem_of_zip_l in Hin as Hc. split; [done|].
  pose proof (ok_u32 _ Hok) as Hu. rewrite Forall_forall in Hu. by apply Hu.
Qed.

Lemma entries_NoDup row : length row = length (columns table) → NoDup (entries row).*1.
Proof.
  intros Hlen. unfold entries. simpl. rewrite <- list_fmap_compose. constructor.
  - intros ([c v] & E & _)%list_elem_of_fmap. simpl in E. symmetry in E. by apply columnKey_ne in E.
  - assert (E : ((λ x : Z * ColumnValue, columnKey (row_key row) x.1) <$> zip ids row) =
      columnKey (row_key row) <$> ids).
    { rewrite <- (zip_ids_fst table row Hlen) at 2. by rewrite <- list_fmap_compose. }
    replace ((fst ∘ λ x : Z * ColumnValue, (columnKey (row_key row) x.1, toString x.2)) <$> zip ids row)
      with (columnKey (row_key row) <$> ids) by by rewrite <- E.
    pose proof (ids_NoDup table Hok) as Hnd. pose proof (ok_u32 _ Hok) as Hu. clear E Hlen.
    induction Hnd as [|c l Hc _ IH]; [constructor|].
    apply Forall_cons in Hu as [Huc Hu]. simpl. constructor; [|by apply IH].
    intros (c' & E & Hin)%list_elem_of_fmap. apply columnKey_inj in E as ->; [done|done|].
    rewrite Forall_forall in Hu. by apply Hu.
Qed.

(** The digits of a number above zero do not start with a zero. *)
Lemma pretty_N_go_nonzero x s :
  (0 < x)%N → ∃ c t, pretty_N_go x s = String c t ∧ c ≠ "0"%char ∧ Ascii.compare c "Z" = Lt.
Proof.
  revert s. induction (N.lt_wf_0 x) as [x _ IH]; intros s Hx. rewrite pretty_N_go_step by done.
  destruct (decide (0 < x `div` 10)%N) as [Hd|Hd].
  - apply IH; [by apply N.div_lt|done].
  - assert (E : (x `div` 10 = 0)%N) by (by apply N.le_0_r, N.nlt_ge). rewrite E, pretty_N_go_0. eexists _, _. split; [done|].
    assert (Hlt : (x < 10)%N) by (apply N.div_small_iff in E; done).
    rewrite N.mod_small by done. clear IH E Hd.
    destruct x as [|p]; [lia|]. do 9 (destruct p as [p|p|]; try done; try lia).
Qed.
Lemma starts_with_cons c s p : starts_with (String c s) (String c p) = starts_with s p.
Proof. unfold starts_with. cbn [String.prefix]. by destruct (ascii_dec c c). Qed.
Lemma starts_with_ne c c' s p : c' ≠ c → starts_with (String c s) (String c' p) = false.
Proof. intros Hc. unfold starts_with. cbn [String.prefix]. by destruct (ascii_dec c' c). Qed.
Lemma pad_not_zeros z t : 0 < z → starts_with (pad z +:+ t) "0000" = false.
Proof.
  intros Hz. unfold pad. destruct z as [|p|p]; try lia.
  change (pretty (Z.pos p)) with (pretty_N_go (Npos p) "").
  destruct (pretty_N_go_nonzero (Npos p) "" ltac:(lia)) as (c & u & -> & Hc & _).
  assert (Hgen : ∀ n q, (n < String.length q)%nat → (∀ i c', String.get i q = Some c' → c' = "0"%char) →
    starts_with ((zeros n +:+ String c u) +:+ t) q = false).
  { clear - Hc. induction n as [|n IH]; intros [|c' q] Hl Hq; simpl in Hl; try lia;
      rewrite (Hq 0%nat c') by done; cbn [zeros]; rewrite ?string_app_cons.
    - rewrite string_app_empty, string_app_cons. by apply starts_with_ne, not_eq_sym.
    - rewrite starts_with_cons. apply IH; [lia|]. intros i. apply (Hq (S i)). }
  apply Hgen; [simpl; lia|]. intros i c'. do 4 (destruct i as [|i]; simpl; [congruence|]). done.
Qed.

Lemma index_key_outside row k : index_key table row k → starts_with k table_prefix = false.
Proof.
  intros (i & Hi & ->). destruct (ok_secondary _ (ok_keys _ Hok) i Hi) as [(Hid & _ & Hne) Hnz].
  unfold secondary_tokens, table_prefix, table_tokens, minimumIndexKey.
  assert (Hpos : 0 < index_id i) by (apply bool_decide_eq_true in Hid; lia).
  assert (E : ∃ t, join (([pad (db_id (table_db table)); pad (table_id table); pad (index_id i)] ++
      pair_tokens (column_ids i) (project (column_ids i) (zip ids row))) ++
      pair_tokens (column_ids (primary_key_index table)) (key_of table row)) =
    (pad (db_id (table_db table)) +:+ "/" +:+ pad (table_id table) +:+ "/") +:+ pad (index_id i) +:+ t).
  { set (us := pair_tokens _ _). set (us' := pair_tokens _ _).
    change [pad (db_id (table_db table)); pad (table_id table); pad (index_id i)]
      with ([pad (db_id (table_db table)); pad (table_id table)] ++ [pad (index_id i)]).
    rewrite <- !(assoc_L (++)), join_snoc_app by done. simpl.
    rewrite !(escape_no_slash (pad _)) by apply pad_ok.
    destruct (us ++ us'); [exists ""; by rewrite string_app_nil, !string_app_assoc|].
    eexists. by rewrite !string_app_assoc. }
  destruct E as [t ->]. destruct (starts_with _ _) eqn:Es; [|done].
  apply starts_with_inv in Es as [u Eu].
  replace ((pad (db_id (table_db table)) +:+ "/" +:+ pad (table_id table) +:+ "/" +:+ pad 0) +:+ u)
    with ((pad (db_id (table_db table)) +:+ "/" +:+ pad (table_id table) +:+ "/") +:+ pad 0 +:+ u)
    in Eu by by rewrite !string_app_assoc.
  apply string_app_inj in Eu. pose proof (pad_not_zeros (index_id i) t Hpos) as Hno.
  rewrite Eu in Hno. change (pad 0) with "0000"%string in Hno. by rewrite starts_with_app in Hno.
Qed.

(** ** Reading *)

(** Rows whose keys differ from row to row, and none of which is taken for a
    part of another one. *)
Definition apart rows : Prop :=
  ∀ row row', row ∈ rows → row' ∈ rows → row_key row ≠ row_key row' → clear_of (row_key row) row'.

(** What [read] finds under a key. *)
Definition found (key : string) d : list (string * string) :=
  filter (λ e : string * string, starts_with e.1 key) (db_contents d).

Lemma read_found keys d : read keys d = (λ key, found key d) <$> keys.
Proof.
  unfold read, found. apply list_fmap_ext. intros i key _. rewrite db_Snapshot_spec.
  apply scan_spec, db_sorted.
Qed.

Lemma found_elem d rows key k v :
  stores d rows → starts_with key table_prefix = true →
  (k, v) ∈ found key d ↔ starts_with k key = true ∧ ∃ row, row ∈ rows ∧ (k, v) ∈ entries row.
Proof.
  intros Hd Hkey. unfold found. rewrite list_elem_of_filter, <- om_find_elem by apply db_sorted.
  simpl. rewrite Is_true_true. split; intros [Hk Hv]; (split; [done|]).
  - apply (Hd k v); [by eapply starts_with_trans|done].
  - apply (Hd k v); [by eapply starts_with_trans|done].
Qed.
Lemma found_NoDup key d : NoDup (found key d).
Proof. eapply NoDup_fmap_1, om_sorted_NoDup, om_sorted_filter, db_sorted. Qed.

Lemma key_eq_same rows row row' :
  NoDup (row_key <$> rows) → row ∈ rows → row' ∈ rows → row_key row = row_key row' → row = row'.
Proof.
  intros Hnd [i Hi]%list_elem_of_lookup [j Hj]%list_elem_of_lookup E.
  assert (i = j) as ->; [|congruence].
  eapply (NoDup_lookup (row_key <$> rows)); [done|..]; rewrite list_lookup_fmap; [by rewrite Hi|].
  by rewrite Hj, E.
Qed.

(** Exactly the entries of the row with the key are found. *)
Lemma found_row d rows row :
  stores d rows → NoDup (row_key <$> rows) → apart rows → Forall (row_good table) rows →
  row ∈ rows → found (row_key row) d ≡ₚ entries row.
Proof.
  intros Hd Hnd Hap Hgood Hin. apply NoDup_Permutation; [apply found_NoDup| |].
  { eapply NoDup_fmap_1, entries_NoDup, good_length. by eapply Forall_forall in Hgood. }
  intros [k v]. rewrite (found_elem d rows) by (done || apply row_key_prefix). split.
  - intros (Hk & row' & Hin' & Hv). destruct (decide (row_key row = row_key row')) as [E|E].
    + by rewrite (key_eq_same rows row row').
    + by rewrite (Hap row row' Hin Hin' E k v Hv) in Hk.
  - intros Hv. split; [by eapply entries_start|by exists row].
Qed.
Lemma found_nothing d rows row :
  stores d rows → (∀ row', row' ∈ rows → clear_of (row_key row) row') → found (row_key row) d = [].
Proof.
  intros Hd Hcl. destruct (found (row_key row) d) as [|[k v] l] eqn:E; [done|].
  assert (Hin : (k, v) ∈ found (row_key row) d) by (rewrite E; left).
  apply (found_elem d rows) in Hin as (Hk & row' & Hin' & Hv); [|done|apply row_key_prefix].
  by rewrite (Hcl row' Hin' k v Hv) in Hk.
Qed.

(** Keys and what is found under them: nothing, or the entries of a row. *)
Definition found_as (o : option (list ColumnValue)) (kvs : list (string * string)) : Prop :=
  match o with Some row => row_good table row ∧ kvs ≡ₚ entries row | None => kvs = [] end.

Lemma deserialize_found os kvss :
  Forall2 found_as os kvss → deserialize (T := T) schema kvss = Ret (table_of table (omap id os)).
Proof.
  intros Hos.
  assert (Hgood : Forall (row_good table) (omap id os)).
  { induction Hos as [|[row|] kvs os kvss Ho _ IH]; simpl; [constructor| |done]. by constructor; [apply Ho|]. }
  assert (Hps : ∃ ps, Forall2 (yields table) (mjoin kvss) ps ∧
    ∀ b, append_all (omap id ps) b = append_all (mjoin (zip ids <$> omap id os)) b).
  { clear Hgood. induction Hos as [|[row|] kvs os kvss Ho _ (ps & Hps & Eps)]; [by exists []| |].
    - destruct Ho as [Hrow Hp]. pose proof (entries_yield table Hok row Hrow) as Hy.
      destruct (Permutation_Forall2 (symmetry Hp) Hy) as (qs & Hqs & Hall).
      exists (qs ++ ps). split; [change (mjoin (kvs :: kvss)) with (kvs ++ mjoin kvss); by apply Forall2_app|]. intros b. simpl.
      rewrite omap_app, !append_all_app, Eps. f_equal. symmetry. apply append_all_perm.
      + rewrite <- (omap_readings table row). by apply omap_Permutation.
      + rewrite zip_ids_fst by by apply good_length. by apply ids_NoDup.
    - simpl in Ho. subst kvs. by exists ps. }
  destruct Hps as (ps & Hps & Eps). by apply (deserialize_yields table Hok _ _ ps).
Qed.

(** The stored row with a key. *)
Definition row_at rows (key : string) : option (list ColumnValue) :=
  head (filter (λ row, row_key row = key) rows).

Lemma row_at_Some rows key row : row_at rows key = Some row → row ∈ rows ∧ row_key row = key.
Proof. unfold row_at. intros Hin%head_Some_elem_of. by apply list_elem_of_filter in Hin as [? ?]. Qed.
Lemma row_at_None rows key : row_at rows key = None ↔ key ∉ (row_key <$> rows).
Proof.
  unfold row_at. rewrite list_elem_of_fmap. split.
  - intros Hn (row & -> & Hin). assert (Hr : row ∈ filter (λ r, row_key r = row_key row) rows)
      by by apply list_elem_of_filter.
    destruct (filter _ rows); [by apply elem_of_nil in Hr|done].
  - intros Hn. rewrite filter_none; [done|]. intros row Hin <-. apply Hn. by exists row.
Qed.

(** A request for rows [qs] by their keys gets the stored rows with these keys,
    in the order of the request. *)
Lemma get_stored d rows qs arrays :
  stores d rows → NoDup (row_key <$> rows) → apart (qs ++ rows) → Forall (row_good table) rows →
  Forall (row_ok (fields_of table)) qs → key_arrays table arrays qs →
  get schema (at_make (T := T) (fields_of table) (length qs) arrays) d =
    (Ret (table_of table (omap (λ q, row_at rows (row_key q)) qs)), d).
Proof.
  intros Hd Hnd Hap Hgood Hqs Ha. unfold get. mred.
  rewrite (serializePrimaryKeys_make table Hok) by done. rewrite read_found.
  rewrite (deserialize_found ((λ q, row_at rows (row_key q)) <$> qs)).
  - do 3 f_equal. clear. induction qs as [|q qs IH]; [done|]. simpl.
    destruct (row_at rows (row_key q)); simpl; [|exact IH]. exact (f_equal (cons _) IH).
  - rewrite <- list_fmap_compose. apply Forall2_fmap_2, Forall_Forall2_diag, Forall_forall.
    intros q Hq. unfold compose. destruct (row_at rows (row_key q)) as [row|] eqn:E; simpl.
    + apply row_at_Some in E as [Hin <-]. split; [by eapply Forall_forall in Hgood|].
      apply (found_row d rows); [done|done| |done|done]. intros r r' Hr Hr'. apply Hap; set_solver.
    + apply row_at_None in E. apply (found_nothing d rows); [done|]. intros row' Hin.
      apply Hap; [set_solver|set_solver|]. intros E'. apply E. rewrite E'. by apply list_elem_of_fmap_2.
Qed.

(** ** Writing *)

Definition puts (kvs : list (string * string)) (m : ordmap string string) : ordmap string string :=
  foldl apply_batch_op m ((λ kv : string * string, BatchPut kv.1 kv.2) <$> kvs).

Lemma puts_app kvs kvs' m : puts (kvs ++ kvs') m = puts kvs' (puts kvs m).
Proof. unfold puts. by rewrite fmap_app, foldl_app. Qed.
Lemma find_puts_other kvs m k : k ∉ kvs.*1 → om_find k (puts kvs m) = om_find k m.
Proof.
  revert m. induction kvs as [|[k' v'] kvs IH]; intros m Hk; [done|]. simpl in Hk.
  apply not_elem_of_cons in Hk as [Hne Hk]. unfold puts in *. simpl. rewrite IH by done.
  by rewrite om_find_set_ne.
Qed.
Lemma find_puts kvs m k v : NoDup (kvs.*1) → (k, v) ∈ kvs → om_find k (puts kvs m) = Some v.
Proof.
  revert m. induction kvs as [|[k' v'] kvs IH]; intros m Hnd Hin; [by apply elem_of_nil in Hin|].
  simpl in Hnd. apply NoDup_cons in Hnd as [Hk' Hnd]. apply elem_of_cons in Hin as [[= -> ->]|Hin].
  - change (puts ((k', v') :: kvs) m) with (puts kvs (om_set k' v' m)).
    rewrite find_puts_other by done. apply om_find_set_eq.
  - by apply (IH (om_set k' v' m)).
Qed.

Lemma find_deletes ks m k :
  om_find k (foldl apply_batch_op m (BatchDelete <$> ks)) = if decide (k ∈ ks) then None else om_find k m.
Proof.
  revert m. induction ks as [|k' ks IH]; intros m; [done|]. simpl. rewrite IH, om_find_erase.
  destruct (decide (k ∈ ks)); [by rewrite decide_True by (by right)|].
  destruct (decide (k' = k)) as [->|]; [by rewrite decide_True by left|].
  by rewrite decide_False by set_solver.
Qed.

Lemma write_healthy kvs d :
  db_healthy d → ∃ d', write [kvs] d = (Ret true, d') ∧ db_healthy d' ∧
    db_contents d' = puts kvs (db_contents d).
Proof.
  intros Hh. unfold write. simpl. rewrite app_nil_r.
  destruct (db_Write _ d) as [st d'] eqn:E. pose proof (db_Write_spec _ _ _ _ E) as Hc.
  destruct (db_healthy_Write ((λ kv : string * string, BatchPut kv.1 kv.2) <$> kvs) d Hh) as [Hst Hh'].
  rewrite E in Hst, Hh'. simpl in *. subst st. by exists d'.
Qed.
Lemma del_healthy ks d :
  db_healthy d → ∃ d', del ks d = (Ret true, d') ∧ db_healthy d' ∧
    ∀ k, om_find k (db_contents d') = if decide (k ∈ ks) then None else om_find k (db_contents d).
Proof.
  intros Hh. unfold del. destruct (db_Write _ d) as [st d'] eqn:E.
  pose proof (db_Write_spec _ _ _ _ E) as Hc. destruct (db_healthy_Write (BatchDelete <$> ks) d Hh) as [Hst Hh'].
  rewrite E in Hst, Hh'. simpl in *. subst st. exists d'. split_and!; [done|done|].
  intros k. rewrite Hc. apply find_deletes.
Qed.

(** The keys of the entries of a row depend on its key alone. *)
Lemma entries_keys row row' :
  length row = length (columns table) → length row' = length (columns table) →
  row_key row = row_key row' → (entries row).*1 = (entries row').*1.
Proof.
  assert (Hk : ∀ r, length r = length (columns table) →
    (entries r).*1 = row_key r :: (columnKey (row_key r) <$> ids)).
  { intros r Hr. unfold RowSerializer.entries. simpl. f_equal. rewrite <- (zip_ids_fst table r Hr) at 2.
    by rewrite <- !list_fmap_compose. }
  intros Hr Hr' E. rewrite !Hk by done. by rewrite E.
Qed.

(** After its entries are put, the row is stored in place of the one with its
    key. *)
Lemma stores_put rows row ks d d' m :
  row_good table row → Forall (row_good table) rows → stores d rows →
  (∀ row', row' ∈ rows → row_key row ≠ row_key row' → clear_of (row_key row) row') →
  Forall (index_key table row) ks →
  (∀ k, k ∉ (entries row).*1 → k ∉ ks → om_find k m = om_find k (db_contents d)) →
  db_contents d' = puts (entries row ++ ((λ k, (k, "NULL"%string)) <$> ks)) m →
  stores d' (row :: filter (λ r, row_key r ≠ row_key row) rows).
Proof.
  intros Hrow Hgood Hd Hcl Hks Hm Hd' k v Hk. pose proof (good_length table row Hrow) as Hlen.
  assert (Hkk : k ∉ ks).
  { intros Hin. rewrite Forall_forall in Hks. by rewrite (index_key_outside row k (Hks k Hin)) in Hk. }
  rewrite Hd', puts_app, find_puts_other; cycle 1.
  { rewrite <- list_fmap_compose. by intros (k' & -> & Hin)%list_elem_of_fmap. }
  destruct (decide (k ∈ (entries row).*1)) as [Hin|Hin].
  - pose proof Hin as ([k' v'] & E & He)%list_elem_of_fmap. simpl in E. subst k'.
    rewrite (find_puts _ _ _ v') by (done || by apply entries_NoDup).
    split; [intros [= <-]; exists row; split; [left|done]|].
    intros (row' & [->|[Hne Hr]%list_elem_of_filter]%elem_of_cons & Hv).
    + pose proof (find_puts _ [] k v (entries_NoDup row Hlen) Hv) as E1.
      by rewrite (find_puts _ [] k v' (entries_NoDup row Hlen) He) in E1.
    + pose proof (Hcl row' Hr ltac:(congruence) k v Hv) as Hf.
      by rewrite (entries_start row k v' He) in Hf.
  - rewrite find_puts_other, Hm, (Hd k v Hk) by done. split.
    + intros (row' & Hr & Hv). exists row'. split; [|done]. right. apply list_elem_of_filter.
      split; [|done]. intros E. apply Hin. rewrite <- (entries_keys row' row); [|by eapply good_length, Forall_forall| |];
        [|done|done]. by apply (list_elem_of_fmap_2 fst _ (k, v)).
    + intros (row' & [->|[Hne Hr]%list_elem_of_filter]%elem_of_cons & Hv); [|by exists row'].
      destruct Hin. by apply (list_elem_of_fmap_2 fst _ (k, v)).
Qed.

(** ** The executor as a set of rows *)

Abbreviation one row := (table_of (T := T) table [row]).

(** The store holds [rows], each under its own key. *)
Record holds d rows : Prop := {
  holds_healthy : db_healthy d;
  holds_stores : stores d rows;
  holds_keys : NoDup (row_key <$> rows);
  holds_good : Forall (row_good table) rows }.

Definition put_row row rows : list (list ColumnValue) :=
  row :: filter (λ r, row_key r ≠ row_key row) rows.

Lemma put_row_absent row rows : row_key row ∉ (row_key <$> rows) → put_row row rows = row :: rows.
Proof.
  intros Hn. unfold put_row. rewrite filter_all; [done|]. intros r Hr E. apply Hn. rewrite <- E.
  by apply list_elem_of_fmap_2.
Qed.

Lemma serialize_one row :
  row_good table row → ∃ ks, Forall (index_key table row) ks ∧
    serialize schema (one row) = Ret [entries row ++ ((λ k, (k, "NULL"%string)) <$> ks)].
Proof.
  intros Hrow. destruct (serialize_entries table Hok row Hrow) as (ks & Hks & E). exists ks.
  split; [done|]. apply (serialize_table table Hok); [|by repeat constructor].
  constructor; [apply Hrow|constructor].
Qed.

(** Writing the entries of a row, over a store where they may be missing. *)
Lemma holds_put rows row ks d d1 :
  holds d rows → row_good table row → apart (row :: rows) → Forall (index_key table row) ks →
  db_healthy d1 →
  (∀ k, k ∉ (entries row).*1 → k ∉ ks → om_find k (db_contents d1) = om_find k (db_contents d)) →
  ∃ d', write [entries row ++ ((λ k, (k, "NULL"%string)) <$> ks)] d1 = (Ret true, d') ∧
    holds d' (put_row row rows).
Proof.
  intros [Hh Hd Hnd Hgood] Hrow Hap Hks Hh1 Hsame.
  destruct (write_healthy (entries row ++ ((λ k, (k, "NULL"%string)) <$> ks)) d1 Hh1) as (d' & E & Hh' & Hc).
  exists d'. split; [done|]. split; [done| | |].
  - eapply (stores_put rows row ks d d'); try done. intros row' Hr. apply Hap; set_solver.
  - unfold put_row. simpl. constructor.
    + intros (r & E' & [Hne _]%list_elem_of_filter)%list_elem_of_fmap. congruence.
    + eapply sublist_NoDup; [exact Hnd|apply fmap_sublist, sublist_filter].
  - constructor; [done|]. apply Forall_forall. intros r [_ Hr]%list_elem_of_filter.
    by eapply Forall_forall in Hgood.
Qed.

Lemma get_one d rows row :
  holds d rows → row_good table row → apart (row :: rows) →
  get schema (one row) d = (Ret (table_of table (option_list (row_at rows (row_key row)))), d).
Proof.
  intros [Hh Hd Hnd Hgood] Hrow Hap.
  unfold table_of at 1. rewrite (get_stored d rows [row]); [|done|done|done|done| |by apply table_key_arrays].
  - simpl. by destruct (row_at rows (row_key row)).
  - constructor; [apply Hrow|constructor].
Qed.

Lemma insert_absent d rows row :
  holds d rows → row_good table row → apart (row :: rows) → row_at rows (row_key row) = None →
  ∃ d', insert schema (one row) d = (Ret (), d') ∧ holds d' (put_row row rows).
Proof.
  intros Hd Hrow Hap Hn. unfold insert. mred. rewrite (get_one d rows) by done. rewrite Hn.
  unfold table_of at 1. rewrite at_num_rows_make. simpl.
  destruct (serialize_one row Hrow) as (ks & Hks & ->).
  destruct (holds_put rows row ks d d Hd Hrow Hap Hks (holds_healthy _ _ Hd) ltac:(done)) as (d' & -> & Hd').
  by exists d'.
Qed.
Lemma insert_present d rows row row' :
  holds d rows → row_good table row → apart (row :: rows) → row_at rows (row_key row) = Some row' →
  insert schema (one row) d = (Throw (RuntimeError "row already exists"), d).
Proof.
  intros Hd Hrow Hap Hn. unfold insert. mred. rewrite (get_one d rows) by done. rewrite Hn.
  unfold table_of at 1. rewrite at_num_rows_make. done.
Qed.

Lemma update_puts d rows row option :
  holds d rows → row_good table row → apart (row :: rows) →
  ∃ d', update schema (one row) option d = (Ret (), d') ∧ holds d' (put_row row rows).
Proof.
  intros Hd Hrow Hap. unfold update. mred. destruct (serialize_one row Hrow) as (ks & Hks & ->).
  destruct option.
  - set (kvs := entries row ++ _). replace (mjoin [kvs]) with kvs by (symmetry; apply app_nil_r).
    destruct (del_healthy (kvs.*1) d (holds_healthy _ _ Hd)) as (d1 & -> & Hh1 & Hc).
    destruct (holds_put rows row ks d d1 Hd Hrow Hap Hks Hh1) as (d' & E & Hd');
      [|fold kvs in E; rewrite E; by exists d'].
    intros k Hk Hk'. rewrite Hc, decide_False; [done|]. subst kvs.
    rewrite fmap_app, elem_of_app, <- list_fmap_compose. intros [?|(k' & -> & Hin)%list_elem_of_fmap]; done.
  - destruct (holds_put rows row ks d d Hd Hrow Hap Hks (holds_healthy _ _ Hd) ltac:(done)) as (d' & -> & Hd').
    by exists d'.
Qed.

(** Calls of an executor, and what they mean on the rows. *)
Inductive Op :=
  | OpInsert (row : list ColumnValue)
  | OpUpdate (row : list ColumnValue) (option : UpdateOptions)
  | OpGet (qs : list (list ColumnValue)).

Definition exec_op (op : Op) : M D (option T) :=
  match op with
  | OpInsert row => _ ← insert schema (one row); mret None
  | OpUpdate row option => _ ← update schema (one row) option; mret None
  | OpGet qs => t ← get schema (table_of table qs); mret (Some t)
  end.

Definition spec_op (op : Op) : M (list (list ColumnValue)) (option T) := λ rows,
  match op with
  | OpInsert row =>
      match row_at rows (row_key row) with
      | Some _ => (Throw (RuntimeError "row already exists"), rows)
      | None => (Ret None, row :: rows)
      end
  | OpUpdate row _ => (Ret None, put_row row rows)
  | OpGet qs => (Ret (Some (table_of table (omap (λ q, row_at rows (row_key q)) qs))), rows)
  end.

(** The results of calls, one after the other. *)
Fixpoint results {S A} (ms : list (M S A)) (s : S) : list (outcome A) :=
  match ms with
  | [] => []
  | m :: ms' => let '(o, s') := m s in o :: results ms' s'
  end.

Definition rows_of (op : Op) : list (list ColumnValue) :=
  match op with OpInsert row | OpUpdate row _ => [row] | OpGet qs => qs end.

Lemma apart_sub rows rows' : apart rows' → (∀ r, r ∈ rows → r ∈ rows') → apart rows.
Proof. intros Hap Hs r r' Hr Hr'. apply Hap; by apply Hs. Qed.

(** One call, on the store and on the rows. *)
Lemma exec_op_refines d rows op :
  holds d rows → Forall (row_good table) (rows_of op) → apart (rows_of op ++ rows) →
  ∃ d', exec_op op d = ((spec_op op rows).1, d') ∧ holds d' (spec_op op rows).2 ∧
    ∀ r, r ∈ (spec_op op rows).2 → r ∈ rows_of op ++ rows.
Proof.
  intros Hd Hg Hap. destruct op as [row|row option|qs]; simpl in *.
  - apply Forall_cons in Hg as [Hrow _]. mred. destruct (row_at rows (row_key row)) as [row'|] eqn:E.
    + rewrite (insert_present d rows row row') by done. exists d. split_and!; [done|done|by right].
    + destruct (insert_absent d rows row) as (d' & -> & Hd'); [done..|]. exists d'.
      rewrite put_row_absent in Hd' by by apply row_at_None. by split_and!.
  - apply Forall_cons in Hg as [Hrow _]. mred.
    destruct (update_puts d rows row option Hd Hrow Hap) as (d' & -> & Hd').
    exists d'. split_and!; [done|done|]. intros r [->|[_ Hr]%list_elem_of_filter]%elem_of_cons; [left|by right].
  - mred. destruct Hd as [Hh Hd Hnd Hgood]. unfold table_of at 1.
    rewrite (get_stored d rows qs); [|done..|by apply rows_good_ok|by apply table_key_arrays].
    exists d. split_and!; [done|done|]. intros r Hr. apply elem_of_app. by right.
Qed.

(** C8: an executor is a set of rows, for rows that are apart - no key of a row is
    a prefix of a key of another row, as with ids of the same number of
    digits, and unlike ids 1 and 10 - on a database that reports no errors: every
    sequence of insertions, updates and lookups of such rows returns what it
    returns on a list of rows with one row per key.  An insertion of a key that
    is stored fails and changes nothing.  ([insert_rejects_prefix_key]: rows
    that are not apart can not all be inserted.) *)
Theorem executor_refines ops d rows :
  holds d rows → Forall (λ op, Forall (row_good table) (rows_of op)) ops →
  apart (mjoin (rows_of <$> ops) ++ rows) →
  results (exec_op <$> ops) d = results (spec_op <$> ops) rows.
Proof.
  intros Hd Hg. revert d rows Hd. induction Hg as [|op ops Hop _ IH]; intros d rows Hd Hap; [done|].
  simpl in *. destruct (exec_op_refines d rows op) as (d' & -> & Hd' & Hin); [done|done| |].
  { eapply apart_sub; [exact Hap|]. set_solver. }
  destruct (spec_op op rows) as [o rows'] eqn:E. f_equal. apply IH; [done|].
  eapply apart_sub; [exact Hap|]. simpl in Hin. set_solver.
Qed.

Lemma yields_unique kv p p' : yields table kv p → yields table kv p' → p = p'.
Proof.
  intros (f & E & Hp) (f' & E' & Hp'). rewrite E in E'. injection E' as <-.
  destruct (colId f) as [c|], p as [[c1 v1]|], p' as [[c2 v2]|]; try done.
  destruct Hp as [<- Hv], Hp' as [<- Hv']. congruence.
Qed.

(** Whatever is found under a key can be read. *)
Lemma found_yields d rows key :
  stores d rows → Forall (row_good table) rows → starts_with key table_prefix = true →
  ∃ ps, Forall2 (yields table) (found key d) ps.
Proof.
  intros Hd Hgood Hkey.
  assert (Hall : ∀ kv, kv ∈ found key d → ∃ p, yields table kv p).
  { intros [k v] Hin. apply (found_elem d rows) in Hin as (_ & row & Hr & Hv); [|done|done].
    apply list_elem_of_lookup in Hv as [i Hi]. rewrite Forall_forall in Hgood.
    destruct (Forall2_lookup_l _ _ _ _ _ (entries_yield table Hok row (Hgood row Hr)) Hi) as (p & _ & Hp). by exists p. }
  induction (found key d) as [|kv l IH]; [by exists []|].
  destruct (Hall kv) as [p Hp]; [left|]. destruct IH as [ps Hps]; [intros; apply Hall; by right|].
  exists (p :: ps). by constructor.
Qed.

(** A key that is a prefix of a stored one is taken: inserting a row fails
    when a stored row has a key that starts with the new key, as 10 starts
    with 1, although no row with the new key is stored. *)
Theorem insert_rejects_prefix_key d rows row row' :
  stores d rows → Forall (row_good table) rows → row_good table row → row' ∈ rows →
  starts_with (row_key row') (row_key row) = true →
  insert schema (one row) d = (Throw (RuntimeError "row already exists"), d).
Proof.
  intros Hd Hgood Hrow Hin Hst. unfold insert, get. mred. unfold table_of at 1.
  rewrite (serializePrimaryKeys_make table Hok [row]);
    [|constructor; [apply Hrow|constructor]|by apply table_key_arrays].
  rewrite read_found. simpl.
  destruct (found_yields d rows (row_key row) Hd Hgood (row_key_prefix row)) as [ps Hps].
  unfold deserialize. cbn [mjoin list_join]. rewrite app_nil_r.
  rewrite (append_values_yields table _ ps), outcome_bind_Ret, (header_builders table Hok) by done.
  rewrite Forall_forall in Hgood. pose proof (good_length table row' (Hgood _ Hin)) as Hlen.
  pose proof (columns_inhabited table Hok) as Hpos.
  destruct (columns table) as [|col cols] eqn:Hcols; [simpl in Hpos; lia|].
  destruct row' as [|v row']; [done|].
  assert (Hids : ids = col_id col :: (col_id <$> cols)) by (unfold ids_of; by rewrite Hcols).
  assert (He : (columnKey (row_key (v :: row')) (col_id col), toString v) ∈ found (row_key row) d).
  { apply (found_elem d rows); [done|apply row_key_prefix|]. split.
    - eapply starts_with_trans; [|exact Hst]. apply starts_with_app.
    - exists (v :: row'). split; [done|]. unfold RowSerializer.entries. rewrite Hids. right. left. }
  apply list_elem_of_lookup in He as [i Hi]. destruct (Forall2_lookup_l _ _ _ _ _ Hps Hi) as (p & Hp & Hy).
  assert (Hy' : yields table (columnKey (row_key (v :: row')) (col_id col), toString v) (Some (col_id col, v))).
  { pose proof (entries_yield table Hok _ (Hgood _ Hin)) as Hall. unfold readings, RowSerializer.entries in Hall.
    rewrite Hids in Hall. apply Forall2_cons in Hall as [_ Hall]. simpl in Hall. by apply Forall2_cons in Hall as [? _]. }
  pose proof (yields_unique _ _ _ Hy Hy') as ->. rewrite Hids. unfold finish, append_all. simpl.
  rewrite at_num_rows_make. apply list_elem_of_lookup_2 in Hp.
  assert (Hf : (col_id col, v) ∈ filter (λ p : Z * ColumnValue, p.1 = col_id col) (omap id ps)).
  { apply list_elem_of_filter. split; [done|]. apply list_elem_of_omap. by eexists. }
  destruct (filter _ (omap id ps)); [by apply elem_of_nil in Hf|done].
Qed.

(** ** Scans *)

(** The rows in the order of their keys. *)
Definition by_key rows : Prop := StronglySorted (λ a b, key_lt (row_key a) (row_key b)) rows.

Lemma starts_with_refl (s : string) : starts_with s s = true.
Proof. rewrite <- (string_app_nil s) at 1. apply starts_with_app. Qed.

Lemma entries_key row k v : (k, v) ∈ entries row → String.le (row_key row) k.
Proof. intros Hk%entries_start. by apply starts_with_le. Qed.

(** Strings that extend two strings are in the order of these. *)
Lemma extension_lt (a b s t : string) :
  key_lt a b → starts_with b a = false → starts_with s a = true → starts_with t b = true → key_lt s t.
Proof.
  intros Hab Hno Hs Ht. destruct (decide (String.le t s)) as [Hle|Hle].
  - exfalso. assert (Hb : starts_with b a = true); [|congruence].
    apply (starts_with_convex b s); [apply Hab| |done]. etrans; [by apply starts_with_le|done].
  - destruct (total String.le s t); [by split|done].
Qed.

Lemma apart_no_prefix rows row row' :
  apart rows → row ∈ rows → row' ∈ rows → row_key row ≠ row_key row' →
  starts_with (row_key row') (row_key row) = false.
Proof. intros Hap Hr Hr' Hne. apply (Hap row row' Hr Hr' Hne _ "NULL"%string). left. Qed.

(** Entries of different rows are in the order of their keys. *)
Lemma found_lt d rows row row' k v k' v' :
  apart rows → row ∈ rows → row' ∈ rows → key_lt (row_key row) (row_key row') →
  (k, v) ∈ found (row_key row) d → (k', v') ∈ found (row_key row') d → key_lt k k'.
Proof.
  intros Hap Hr Hr' Hlt [Hk%Is_true_true _]%list_elem_of_filter [Hk'%Is_true_true _]%list_elem_of_filter.
  eapply extension_lt; [exact Hlt| |done|done]. apply (apart_no_prefix rows); [done..|by apply key_lt_ne].
Qed.

Abbreviation groups d rows := ((λ row, found (row_key row) d) <$> rows).

Lemma groups_elem d rows k v :
  (k, v) ∈ mjoin (groups d rows) ↔ ∃ row, row ∈ rows ∧ (k, v) ∈ found (row_key row) d.
Proof.
  rewrite list_elem_of_join. split.
  - intros (g & Hg & (row & -> & Hr)%list_elem_of_fmap). by exists row.
  - intros (row & Hr & Hg). exists (found (row_key row) d). split; [done|]. by apply list_elem_of_fmap; exists row.
Qed.

Lemma groups_sorted d rows l :
  apart rows → by_key l → (∀ r, r ∈ l → r ∈ rows) → om_sorted (mjoin (groups d l)).
Proof.
  intros Hap Hs. induction Hs as [|row l _ IH Hlt]; intros Hsub; [constructor|].
  change (mjoin (groups d (row :: l))) with (found (row_key row) d ++ mjoin (groups d l)).
  unfold om_sorted. apply StronglySorted_app_2; [|apply om_sorted_filter, db_sorted|apply IH; set_solver].
  intros [k v] [k' v'] Hk (r & Hr & Hk')%groups_elem. simpl. rewrite Forall_forall in Hlt.
  apply (found_lt d rows row r k v k' v'); [done|set_solver|set_solver|by apply Hlt|done|done].
Qed.

(** The entries of the table are those of the rows, one row after the other. *)
Lemma table_found d rows :
  holds d rows → apart rows → by_key rows → found table_prefix d = mjoin (groups d rows).
Proof.
  intros [Hh Hd Hnd Hgood] Hap Hs. apply om_ext_elem.
  - apply om_sorted_filter, db_sorted.
  - by apply (groups_sorted d rows).
  - intros k v. rewrite (found_elem d rows), groups_elem by (done || apply starts_with_refl). split.
    + intros (_ & row & Hr & Hv). exists row. split; [done|].
      apply (found_elem d rows); [done|apply row_key_prefix|]. split; [by eapply entries_start|by exists row].
    + intros (row & Hr & Hg). apply (found_elem d rows) in Hg as (Hk & Hg); [|done|apply row_key_prefix].
      split; [eapply starts_with_trans; [exact Hk|apply row_key_prefix]|done].
Qed.

(** ** From a position *)

(** The position after the entries of a row. *)
Definition after row : string := row_key row +:+ "/" +:+ "ZZZZZZ".

Lemma after_start row : starts_with (after row) (row_key row) = true.
Proof. apply starts_with_app. Qed.

Lemma string_le_app (a s t : string) : String.le (a +:+ s) (a +:+ t) ↔ String.le s t.
Proof.
  induction a as [|c a IH]; [done|]. rewrite !string_app_cons, string_le_cons, <- IH.
  split; [|by right]. intros [E|[_ ?]]; [by rewrite Ascii_compare_refl in E|done].
Qed.

Lemma pad_head z : 0 ≤ z → ∃ c t, pad z = String c t ∧ Ascii.compare c "Z" = Lt.
Proof.
  intros Hz. unfold pad. destruct (4 - _)%nat as [|n]; [|by eexists _, _].
  simpl. rewrite string_app_empty. destruct z as [|p|p]; [by eexists _, _| |lia].
  change (pretty (Z.pos p)) with (pretty_N_go (Npos p) "").
  destruct (pretty_N_go_nonzero (Npos p) "" ltac:(lia)) as (c & u & -> & _ & Hc). by eexists _, _.
Qed.

Lemma entries_before row k v :
  length row = length (columns table) → (k, v) ∈ entries row → ¬ String.le (after row) k.
Proof.
  intros Hlen Hin Hle. unfold after in Hle. rewrite slash_app in Hle.
  revert Hin Hle. intros [[= -> _]|([c w] & [= -> _] & Hc)%list_elem_of_fmap]%elem_of_cons Hle.
  - rewrite <- (string_app_nil (row_key row)) in Hle at 2. by apply string_le_app in Hle.
  - apply zip_column in Hc as [_ Hc]; [|done]. simpl in Hle. unfold columnKey in Hle.
    rewrite slash_app in Hle. apply string_le_app, string_le_cons in Hle as [Hlt|[_ Hle]].
    { by rewrite Ascii_compare_refl in Hlt. }
    destruct (pad_head c) as (x & t & E & Hx); [apply bool_decide_eq_true in Hc; lia|]. rewrite E in Hle.
    apply string_le_cons in Hle as [Hle|[<- _]]; [|by rewrite Ascii_compare_refl in Hx].
    unfold Ascii.compare in *. rewrite N.compare_lt_iff in *. lia.
Qed.

(** Seeking behind a row skips the rows up to it. *)
Lemma seek_after d rows l row l' :
  holds d rows → apart rows → by_key rows → rows = l ++ row :: l' →
  filter (λ e : string * string, String.le (after row) e.1) (mjoin (groups d rows)) = mjoin (groups d l').
Proof.
  intros [Hh Hd Hnd Hgood] Hap Hs E. rewrite E, fmap_app, fmap_cons. unfold by_key in Hs.
  assert (Hr : row ∈ rows) by (rewrite E; set_solver).
  assert (Hl : ∀ r, r ∈ l → r ∈ rows ∧ key_lt (row_key r) (row_key row)).
  { intros r Hin. rewrite E in Hs |- *. split; [set_solver|].
    eapply StronglySorted_app_1_elem_of in Hs; [exact Hs|done|left]. }
  assert (Hl' : ∀ r, r ∈ l' → r ∈ rows ∧ key_lt (row_key row) (row_key r)).
  { intros r Hin. rewrite E in Hs |- *. split; [set_solver|].
    apply StronglySorted_app_1_r, StronglySorted_inv in Hs as [_ Hlt]. rewrite Forall_forall in Hlt. by apply Hlt. }
  assert (Hjoin : ∀ (a b : list (list (string * string))) g, mjoin (a ++ g :: b) = mjoin a ++ g ++ mjoin b).
  { clear. intros a b g. induction a as [|x a IH]; [done|].
    change (mjoin ((x :: a) ++ g :: b)) with (x ++ mjoin (a ++ g :: b)). rewrite IH.
    change (mjoin (x :: a)) with (x ++ mjoin a). by rewrite (assoc_L (++)). }
  rewrite Hjoin, !filter_app. rewrite (filter_none _ (mjoin (groups d l))), (filter_none _ (found _ d)), filter_all; [done|..].
  - intros [k v] (r & Hin & [Hk%Is_true_true _]%list_elem_of_filter)%groups_elem. simpl in *.
    destruct (Hl' r Hin) as [Hin' Hlt]. apply (extension_lt _ _ (after row) k) in Hlt as [? _]; [done| |apply after_start|done].
    apply (apart_no_prefix rows); [done..|by apply key_lt_ne].
  - intros [k v] Hin. apply (found_elem d rows) in Hin as (Hk & r & Hin & Hv); [|done|apply row_key_prefix].
    simpl. destruct (decide (row_key row = row_key r)) as [Er|Er].
    + rewrite (key_eq_same rows row r) by done. apply (entries_before r k v); [|done].
      eapply good_length. by eapply Forall_forall in Hgood.
    + by rewrite (Hap row r Hr Hin Er k v Hv) in Hk.
  - intros [k v] (r & Hin & [Hk%Is_true_true _]%list_elem_of_filter)%groups_elem. simpl in *.
    destruct (Hl r Hin) as [Hin' Hlt]. apply (extension_lt _ _ k (after row)) in Hlt as [_ ?];
      [done| |done|apply after_start].
    apply (apart_no_prefix rows); [done..|by apply key_lt_ne].
Qed.

(** ** The loop of a scan *)

Definition WEIRD : string := "SOME WEIRD STRING".
(** No key starts with the first value of [prevKey]. *)
Definition no_weird d : Prop := ∀ e, e ∈ db_contents d → starts_with e.1 WEIRD = false.

Lemma scan_loop_prefix options itr rs r prev :
  starts_with prev (prefix options) = true ∨ (∀ e, e ∈ itr → starts_with e.1 prev = false) →
  scan_loop options itr rs r prev = scan_loop options (Rocks.scan_loop (prefix options) itr) rs r prev.
Proof.
  revert rs r prev. induction itr as [|[k v] itr IH]; intros rs r prev Hp; [done|].
  cbn [Rocks.scan_loop scan_loop fst]. destruct (starts_with k prev) eqn:Ek.
  - destruct Hp as [Hp|Hp]; [|by specialize (Hp (k, v) ltac:(left)); simpl in Hp; rewrite Hp in Ek].
    rewrite (starts_with_trans _ _ _ Ek Hp). cbn [scan_loop]. rewrite Ek. apply IH. by left.
  - destruct (starts_with k (prefix options)) eqn:Ekp; [|done]. cbn [scan_loop]. rewrite Ek, Ekp.
    destruct (_ =? _); [done|]. apply IH. by left.
Qed.

Lemma scan_loop_rest options rest itr rs r prev :
  Forall (λ e : string * string, starts_with e.1 prev = true) rest →
  scan_loop options (rest ++ itr) rs r prev = scan_loop options itr rs (r ++ rest) prev.
Proof.
  intros Hrest. revert r. induction Hrest as [|[k v] rest Hk _ IH]; intros r; [by rewrite app_nil_r|].
  cbn [app scan_loop]. simpl in Hk. rewrite Hk, IH. by rewrite <- (assoc_L (++)).
Qed.

(** What [scan] returns after its loop. *)
Definition finish_scan options (x : list RawTableRow * RawTableRow) : list RawTableRow :=
  if (length x.1 <? to_size (maxRowsReturnSize options)) && negb (bool_decide (x.2 = []))
  then x.1 ++ [x.2] else x.1.

Lemma scan_finish options d :
  scan options d = finish_scan options
    (scan_loop options (Rocks.seek (seekPosition options) (db_Snapshot d)) [] [] WEIRD).
Proof. unfold scan, finish_scan. by destruct (scan_loop _ _ _ _ _). Qed.

(** The entries of a row start with the one of its key. *)
Lemma found_head d rows row :
  holds d rows → apart rows → row ∈ rows →
  ∃ rest, found (row_key row) d = (row_key row, "NULL"%string) :: rest ∧
    Forall (λ e : string * string, starts_with e.1 (row_key row) = true) rest.
Proof.
  intros [Hh Hd Hnd Hgood] Hap Hr. pose proof (found_row d rows row Hd Hnd Hap Hgood Hr) as Hp.
  assert (Hs : om_sorted (found (row_key row) d)) by apply om_sorted_filter, db_sorted.
  assert (Hin : (row_key row, "NULL"%string) ∈ found (row_key row) d) by (rewrite Hp; left).
  assert (Hall : Forall (λ e : string * string, starts_with e.1 (row_key row) = true) (found (row_key row) d)).
  { apply Forall_forall. by intros e [He%Is_true_true _]%list_elem_of_filter. }
  destruct (found (row_key row) d) as [|[k v] rest]; [by apply elem_of_nil in Hin|].
  apply Forall_cons in Hall as [Hk Hall]. exists rest. split; [|done].
  apply elem_of_cons in Hin as [<-|Hin]; [done|]. apply om_sorted_cons in Hs as [Hlt _].
  rewrite Forall_forall in Hlt. specialize (Hlt _ Hin). simpl in *. by apply starts_with_le in Hk; destruct Hlt.
Qed.

(** The loop collects the first rows. *)
Lemma scan_groups d rows options l acc cur prev :
  prefix options = table_prefix → holds d rows → apart rows → by_key l → (∀ r, r ∈ l → r ∈ rows) →
  (∀ r, r ∈ l → starts_with (row_key r) prev = false) → cur ≠ [] →
  length acc <= to_size (maxRowsReturnSize options) →
  finish_scan options (scan_loop options (mjoin (groups d l)) acc cur prev) =
    take (Z.to_nat (to_size (maxRowsReturnSize options))) (acc ++ cur :: groups d l).
Proof.
  set (n := to_size _). intros Hpre Hd Hap Hs. revert acc cur prev.
  induction Hs as [|row l Hs IH Hlt]; intros acc cur prev Hsub Hprev Hcur Hacc.
  - simpl. unfold finish_scan. simpl. fold n. rewrite bool_decide_false by done. simpl. rewrite andb_true_r.
    destruct (Z.ltb_spec (length acc) n).
    + by rewrite take_ge by (rewrite length_app; simpl; lia).
    + by rewrite take_app_le, take_ge by lia.
  - destruct (found_head d rows row Hd Hap) as (rest & E & Hrest); [apply Hsub; left|].
    change (mjoin (groups d (row :: l))) with (found (row_key row) d ++ mjoin (groups d l)).
    rewrite fmap_cons, E. cbn [app scan_loop]. fold n. rewrite Hprev by left.
    rewrite Hpre, row_key_prefix. destruct (Z.eqb_spec (length acc) n) as [En|En].
    + unfold finish_scan. simpl. fold n. rewrite (proj2 (Z.ltb_ge _ _)) by lia. simpl.
      by rewrite take_app_le, take_ge by lia.
    + rewrite scan_loop_rest by done. destruct cur as [|e cur]; [done|].
      change ([(row_key row, "NULL"%string)] ++ rest) with ((row_key row, "NULL"%string) :: rest).
      rewrite <- E, IH.
      * by rewrite <- (assoc_L (++)).
      * set_solver.
      * intros r Hr. rewrite Forall_forall in Hlt. apply (apart_no_prefix rows); [done|set_solver|set_solver|].
        by apply key_lt_ne, Hlt.
      * by rewrite E.
      * rewrite length_app. simpl. lia.
Qed.

Lemma scan_first_groups d rows options l :
  prefix options = table_prefix → holds d rows → apart rows → by_key l → (∀ r, r ∈ l → r ∈ rows) →
  no_weird d →
  finish_scan options (scan_loop options (mjoin (groups d l)) [] [] WEIRD) =
    take (Z.to_nat (to_size (maxRowsReturnSize options))) (groups d l).
Proof.
  intros Hpre Hd Hap Hs Hsub Hw. set (n := to_size _).
  assert (Hn : 0 <= n) by (unfold n, to_size; apply Z.mod_pos_bound; lia).
  destruct l as [|row l].
  - simpl. unfold finish_scan. simpl. rewrite andb_false_r. by rewrite take_nil.
  - apply StronglySorted_inv in Hs as [Hs Hlt].
    destruct (found_head d rows row Hd Hap) as (rest & E & Hrest); [apply Hsub; left|].
    change (mjoin (groups d (row :: l))) with (found (row_key row) d ++ mjoin (groups d l)).
    rewrite fmap_cons, E. cbn [app scan_loop]. fold n.
    assert (Hk : (row_key row, "NULL"%string) ∈ found (row_key row) d) by (rewrite E; left).
    unfold found in Hk. apply list_elem_of_filter in Hk as [_ Hk].
    apply Hw in Hk. simpl in Hk. rewrite Hk.
    rewrite Hpre, row_key_prefix. simpl length. destruct (Z.eqb_spec 0%nat n) as [En|En].
    + unfold finish_scan. simpl. rewrite andb_false_r. by rewrite <- En.
    + rewrite scan_loop_rest by done.
      change ([(row_key row, "NULL"%string)] ++ rest) with ((row_key row, "NULL"%string) :: rest). rewrite <- E.
      rewrite (scan_groups d rows); [done|done|done|done|done|set_solver| |by rewrite E|done].
      intros r Hr. rewrite Forall_forall in Hlt. apply (apart_no_prefix rows); [done|set_solver|set_solver|].
      by apply key_lt_ne, Hlt.
Qed.

(** ** Scans of the table *)

(** The options of a scan of the primary index, from the first row on or from
    after a row. *)
Definition page_options (n : Z) (values : list ColumnValue) : IndexQueryOptions :=
  {| query_indexId := 0; query_direction := FORWARD; query_secondaryKeyValues := [];
     query_primaryKeyValues := values; query_maxRowsReturnSize := n |}.
Definition from_values l : list ColumnValue :=
  match last l with Some row => key_of table row | None => [] end.
Definition from_position l : string :=
  match last l with Some row => after row | None => table_prefix end.

Lemma seek_position_page n l :
  Forall (row_good table) l → seek_position schema (page_options n (from_values l)) = Ret (from_position l).
Proof.
  intros Hgood. unfold seek_position, from_values, from_position. simpl.
  pose proof (ok_zero _ (ok_keys _ Hok)) as Hz. destruct (last l) as [row|] eqn:El.
  - assert (Hrow : row_good table row) by (eapply Forall_forall; [exact Hgood|by apply last_Some_elem_of]).
    destruct (key_good table Hok row Hrow) as [_ Hl]. destruct (ok_primary _ (ok_keys _ Hok)) as (_ & _ & Hne).
    destruct (key_of table row) as [|v vs] eqn:Ek; [by destruct (column_ids (primary_key_index table))|].
    rewrite decide_True by (simpl in Hl; lia). unfold maximumIndexKey. rewrite Hz. simpl.
    rewrite (primaryKey_join table) by done. unfold after, RowSerializer.row_key. by rewrite Ek.
  - by rewrite Hz.
Qed.

Lemma from_position_prefix l : starts_with (from_position l) table_prefix = true.
Proof.
  unfold from_position. destruct (last l) as [row|]; [|apply starts_with_refl].
  eapply starts_with_trans; [apply after_start|apply row_key_prefix].
Qed.

Lemma seek_from d rows l l' :
  holds d rows → apart rows → by_key rows → rows = l ++ l' →
  filter (λ e : string * string, String.le (from_position l) e.1) (found table_prefix d) = mjoin (groups d l').
Proof.
  intros Hd Hap Hs E. unfold from_position. destruct (last l) as [row|] eqn:El.
  - apply last_Some in El as [l0 ->]. rewrite table_found with (rows := rows) by done.
    apply (seek_after d rows l0); [done..|]. by rewrite E, <- (assoc_L (++)).
  - apply last_None in El as ->. simpl in E. subst l'. rewrite <- (table_found d rows) by done.
    apply filter_all. intros e [He%Is_true_true _]%list_elem_of_filter. by apply starts_with_le.
Qed.

Lemma scan_page d rows l l' n :
  holds d rows → apart rows → by_key rows → no_weird d → rows = l ++ l' →
  scan {| direction := FORWARD; maxRowsReturnSize := n; seekPosition := from_position l; prefix := table_prefix |} d =
    take (Z.to_nat (to_size n)) (groups d l').
Proof.
  intros Hd Hap Hs Hw E. rewrite scan_finish, db_Snapshot_spec. cbn [seekPosition].
  rewrite seek_spec by apply db_sorted. rewrite scan_loop_prefix; cycle 1.
  { right. intros e [_ He]%list_elem_of_filter. by apply Hw. }
  cbn [prefix]. rewrite scan_loop_filter.
  - assert (Ec : ∀ m : list (string * string), filter (λ e : string * string, starts_with e.1 table_prefix)
        (filter (λ e : string * string, String.le (from_position l) e.1) m) =
      filter (λ e : string * string, String.le (from_position l) e.1)
        (filter (λ e : string * string, starts_with e.1 table_prefix) m)).
    { intros m. rewrite !list_filter_filter. apply list_filter_iff. intros e. tauto. }
    rewrite Ec. change (filter (λ e : string * string, starts_with e.1 table_prefix) (db_contents d))
      with (found table_prefix d). rewrite (seek_from d rows l l') by done.
    apply (scan_first_groups d rows); [done|done|done| |set_solver|done].
    unfold by_key in *. rewrite E in Hs. by apply StronglySorted_app_1_r in Hs.
  - by apply om_sorted_filter, db_sorted.
  - apply Forall_forall. intros e [He _]%list_elem_of_filter. etrans; [|exact He].
    apply starts_with_le, from_position_prefix.
Qed.

Lemma deserialize_groups d rows l :
  holds d rows → apart rows → (∀ r, r ∈ l → r ∈ rows) →
  deserialize (T := T) schema (groups d l) = Ret (table_of table l).
Proof.
  intros [Hh Hd Hnd Hgood] Hap Hsub. rewrite (deserialize_found (Some <$> l)).
  - do 2 f_equal. clear. induction l as [|r l IH]; [done|]. exact (f_equal (cons r) IH).
  - apply Forall2_fmap_2, Forall_Forall2_diag, Forall_forall. intros r Hr. simpl. split.
    + rewrite Forall_forall in Hgood. by apply Hgood, Hsub.
    + apply (found_row d rows); [done..|by apply Hsub].
Qed.

(** A scan returns the next rows in the order of their keys. *)
Lemma tableScan_page d rows l l' n :
  holds d rows → apart rows → by_key rows → no_weird d → rows = l ++ l' →
  tableScan schema (page_options n (from_values l)) d =
    (Ret (table_of (T := T) table (take (Z.to_nat (to_size n)) l')), d).
Proof.
  intros Hd Hap Hs Hw E. unfold tableScan. mred. rewrite seek_position_page; cycle 1.
  { pose proof (holds_good _ _ Hd) as Hg. rewrite E in Hg. by apply Forall_app in Hg as [? _]. }
  change (index_id (primary_key_index (table_ schema))) with (index_id (primary_key_index table)).
  rewrite (ok_zero _ (ok_keys _ Hok)). simpl query_indexId. rewrite Z.eqb_refl.
  change (minimumIndexKey (table_ schema) 0) with table_prefix. simpl.
  rewrite (scan_page d rows l l') by done.
  rewrite <- fmap_take, (deserialize_groups d rows); [done..|].
  intros r Hr. rewrite E. apply elem_of_app. right. by apply elem_of_take in Hr as (i & ? & _); eapply list_elem_of_lookup_2.
Qed.

(** ** The pages of a generator *)

(** The pages of [rest], and those after it: after a page that is not full the
    scan starts again. *)
Fixpoint pages (fuel n : nat) rows (rest : list (list ColumnValue)) : list (list (list ColumnValue)) * bool :=
  match fuel with
  | O => ([], false)
  | S fuel' =>
      match rest with
      | [] => ([], true)
      | _ =>
          let page := take n rest in
          let '(ps, ended) := pages fuel' n rows (if decide (length page = n) then drop n rest else rows) in
          (page :: ps, ended)
      end
  end.

Definition page_size_ok (n : nat) : Prop := (0 < n)%nat ∧ Z.of_nat n < 2 ^ 31.

Lemma to_size_ok n : page_size_ok n → Z.to_nat (to_size n) = n.
Proof. intros [? ?]. unfold to_size. rewrite Z.mod_small by lia. lia. Qed.

Lemma drop_mod (n : nat) (l : list (list ColumnValue)) :
  (0 < n)%nat → length (take n l) = n → (length (drop n l) `mod` n = length l `mod` n)%nat.
Proof.
  intros Hn E. rewrite length_drop. rewrite length_take in E.
  replace (length l) with (length l - n + 1 * n)%nat at 2 by lia. by rewrite Nat.Div0.mod_add.
Qed.

(** The rest of a page is empty or one row short of a page. *)
Definition page_rest_ok (n k : nat) : Prop := (k `mod` n = 0 ∨ k `mod` n = n - 1)%nat.

Lemma drop_page (n : nat) (l : list (list ColumnValue)) :
  (0 < n)%nat → length (take n l) = n → page_rest_ok n (length l) → page_rest_ok n (length (drop n l)).
Proof. intros Hn E. unfold page_rest_ok. by rewrite drop_mod. Qed.

Lemma generator_pages fuel d rows l l' (n : nat) :
  holds d rows → apart rows → by_key rows → no_weird d → rows = l ++ l' → page_size_ok n →
  page_rest_ok n (length rows) → page_rest_ok n (length l') →
  tableScanGenerator fuel schema None (page_options n (from_values l)) d =
    (Ret (table_of (T := T) table <$> (pages fuel n rows l').1, (pages fuel n rows l').2), d).
Proof.
  intros Hd Hap Hs Hw E Hn Hr. revert l l' E. induction fuel as [|fuel IH]; intros l l' E Hl'; [done|].
  cbn [tableScanGenerator]. mred. rewrite (tableScan_page d rows l l') by done.
  rewrite to_size_ok by done. unfold table_of at 1. rewrite at_num_rows_make.
  destruct l' as [|row l']; [by rewrite take_nil|]. set (rest := row :: l') in *.
  assert (Hpage : ¬ Z.of_nat (length (take n rest)) = 0).
  { destruct Hn as [? _]. destruct n; [lia|]. simpl. lia. }
  rewrite (proj2 (Z.eqb_neq _ _)) by done. cbn [query_maxRowsReturnSize page_options].
  assert (Hsub : Forall (row_good table) (take n rest)).
  { pose proof (holds_good _ _ Hd) as Hg. rewrite E in Hg. apply Forall_app in Hg as [_ Hg]. by apply Forall_take. }
  replace (Z.of_nat n - 1) with (Z.of_nat (n - 1)) by (destruct Hn; lia).
  change (index_id (primary_key_index (table_ schema))) with (index_id (primary_key_index table)).
  rewrite (ok_zero _ (ok_keys _ Hok)), Z.eqb_refl.
  assert (Hnext : ∃ l1 l1', rows = l1 ++ l1' ∧
    parsePrimaryKeyValues schema (at_slice (n - 1)%nat 1 (table_of (T := T) table (take n rest))) = Ret (from_values l1) ∧
    l1' = (if decide (length (take n rest) = n) then drop n rest else rows) ∧ page_rest_ok n (length l1')).
  { destruct (decide (length (take n rest) = n)) as [El|El].
    - destruct (last (take n rest)) as [last_|] eqn:Elast; cycle 1.
      { apply last_None in Elast. rewrite Elast in El. destruct Hn. simpl in El. lia. }
      exists (l ++ take n rest), (drop n rest).
      split_and!; [by rewrite E, <- (assoc_L (++)), take_drop| |done|by apply drop_page; [apply Hn|..]].
      rewrite (parse_last_key table Hok _ last_); [|by apply rows_good_ok|].
      + unfold from_values. by rewrite last_app, Elast.
      + rewrite last_lookup, El in Elast. by replace (n - 1)%nat with (Init.Nat.pred n) by lia.
    - exists [], rows. split_and!; [done| |done|done]. apply (parse_last_key_none table Hok); [by apply rows_good_ok|].
      rewrite length_take in *. destruct Hn as [Hn _]. unfold page_rest_ok in Hl'.
      rewrite Nat.mod_small in Hl' by lia. lia. }
  destruct Hnext as (l1 & l1' & E1 & -> & El1' & Hl1). change (set_positions _ _ _) with (page_options n (from_values l1)).
  rewrite (IH l1 l1' E1 Hl1), El1'. simpl. by destruct (pages fuel n rows _).
Qed.

Lemma pages_full m n rows l :
  (0 < n)%nat → length l = (m * n)%nat → ∃ ps, pages (S m) n rows l = (ps, true) ∧ mjoin ps = l ∧
    Forall (λ p, length p = n) ps.
Proof.
  intros Hn. revert l. induction m as [|m IH]; intros l Hl; [by destruct l; [exists []|]|].
  cbn [pages]. destruct l as [|row l]; [simpl in Hl; lia|]. set (rest := row :: l) in *.
  assert (El : length (take n rest) = n) by (rewrite length_take; lia). rewrite decide_True by done.
  destruct (IH (drop n rest)) as (ps & E & Ej & Hps); [rewrite length_drop; lia|].
  cbn [pages] in E. rewrite E. exists (take n rest :: ps). split_and!; [done| |by constructor].
  change (mjoin (take n rest :: ps)) with (take n rest ++ mjoin ps). by rewrite Ej, take_drop.
Qed.

Lemma pages_not_full fuel n rows l :
  (0 < n)%nat → (length rows `mod` n ≠ 0)%nat → (length l `mod` n ≠ 0)%nat → (pages fuel n rows l).2 = false.
Proof.
  intros Hn Hr. revert l. induction fuel as [|fuel IH]; intros l Hl; [done|]. cbn [pages].
  destruct l as [|row l]; [by rewrite Nat.Div0.mod_0_l in Hl|]. set (rest := row :: l) in *.
  assert (Hf : (pages fuel n rows (if decide (length (take n rest) = n) then drop n rest else rows)).2 = false).
  { apply IH. case_decide as E; [|done]. by rewrite drop_mod. }
  by destruct (pages fuel n rows _).
Qed.

(** C23: a generator over the primary index of a table whose rows are apart (no
    key of a row is a prefix of a key of another row, unlike ids 1 and 10), on a
    database that reports no errors and in which no key starts like the scan's
    placeholder: when the number of rows is a multiple of the page size, it
    yields full pages, together the rows in the order of their keys, and ends. *)
Theorem generator_returns_rows d rows (m n : nat) :
  holds d rows → apart rows → by_key rows → no_weird d → page_size_ok n → length rows = (m * n)%nat →
  ∃ ps, tableScanGenerator (S m) schema None (page_options n []) d = (Ret (table_of (T := T) table <$> ps, true), d) ∧
    mjoin ps = rows ∧ Forall (λ p, length p = n) ps.
Proof.
  intros Hd Hap Hs Hw Hn Hm. destruct (pages_full m n rows rows) as (ps & E & Hj & Hf); [apply Hn|done|].
  exists ps. split; [|done]. change (@nil ColumnValue) with (from_values []).
  assert (Hr : page_rest_ok n (length rows)) by (left; rewrite Hm; apply Nat.Div0.mod_mul).
  by rewrite (generator_pages _ d rows [] rows), E.
Qed.

(** When the last page is one row short, a generator never ends: it slices
    the page at its end, finds no row to go on from and starts the scan again. *)
Theorem generator_never_ends fuel d rows (n : nat) :
  holds d rows → apart rows → by_key rows → no_weird d → page_size_ok n →
  (length rows `mod` n = n - 1)%nat → (2 ≤ n)%nat →
  ∃ ts : list T, tableScanGenerator fuel schema None (page_options n []) d = (Ret (ts, false), d).
Proof.
  intros Hd Hap Hs Hw Hn Hm Htwo. eexists. change (@nil ColumnValue) with (from_values []).
  rewrite (generator_pages _ d rows [] rows) by (done || by right).
  rewrite pages_not_full; [done|lia|lia|lia].
Qed.
End stored.

(** ** Witnesses *)

Section witnesses.
#[local] Existing Instance decimal_db_conv.
Abbreviation sample_schema := (makeTableSchema sample_table).
Abbreviation holds_sample := (holds (D := MemDB) sample_table).

Definition apartb (table : Table) (rows : list (list ColumnValue)) : bool :=
  forallb (λ row, forallb (λ row',
    bool_decide (row_key table row = row_key table row') ||
    forallb (λ e, negb (starts_with e.1 (row_key table row))) (entries table row')) rows) rows.

Lemma apartb_ok table rows : apartb table rows = true → apart table rows.
Proof.
  unfold apartb. intros Hb row row' Hr%list_elem_of_In Hr'%list_elem_of_In Hne k v Hin%list_elem_of_In.
  pose proof (proj1 (forallb_forall _ _) Hb row Hr) as Hb1. cbv beta in Hb1.
  pose proof (proj1 (forallb_forall _ _) Hb1 row' Hr') as Hb2. cbv beta in Hb2.
  rewrite bool_decide_false in Hb2 by done.
  pose proof (proj1 (forallb_forall _ _) Hb2 (k, v) Hin) as Hb3. by apply negb_true_iff in Hb3.
Qed.

Definition db_of (rows : list (list ColumnValue)) : MemDB :=
  foldr (λ row d, (insert sample_schema (table_of (T := MemTable) sample_table [row]) d).2) empty_db rows.

Lemma holds_empty table : holds (D := MemDB) table empty_db [].
Proof.
  split; [done| |constructor|constructor]. intros k v _. split; [done|]. by intros (row & Hr%elem_of_nil & _).
Qed.

Lemma holds_db_of row rows :
  holds_sample (db_of rows) rows → row_good sample_table row → apartb sample_table (row :: rows) = true →
  row_at sample_table rows (row_key sample_table row) = None → holds_sample (db_of (row :: rows)) (row :: rows).
Proof.
  intros Hd Hrow Hap Hn.
  destruct (insert_absent (T := MemTable) sample_table sample_table_ok _ _ row Hd Hrow (apartb_ok _ _ Hap) Hn)
    as (d' & E & Hd').
  rewrite put_row_absent in Hd' by by apply row_at_None. cbn [db_of foldr]. unfold db_of in E. by rewrite E.
Qed.

Definition people : list (list ColumnValue) := [person 1 "ann" 0; person 2 "bob" 0; person 3 "cy" 0].

Lemma person_ok id name : in_i64 id = true → token_ok name → row_good sample_table (person id name 0).
Proof. intros. by apply person_good. Qed.

Lemma people_stored : holds_sample (db_of people) people.
Proof.
  repeat (apply holds_db_of; [|apply person_ok; done|vm_compute; reflexivity|vm_compute; reflexivity]).
  apply holds_empty.
Qed.
Lemma people_by_key : by_key sample_table people.
Proof. repeat constructor; apply (bool_decide_unpack _); vm_compute; exact I. Qed.
Lemma people_not_weird : no_weird (db_of people).
Proof.
  assert (Hb : forallb (λ e : string * string, negb (starts_with e.1 WEIRD)) (db_contents (db_of people)) = true)
    by (vm_compute; reflexivity).
  intros e He%list_elem_of_In. by apply negb_true_iff, (proj1 (forallb_forall _ _) Hb).
Qed.

Lemma executor_refines_witness :
  results (exec_op (T := MemTable) sample_table <$>
    [OpInsert (person 1 "ann" 0); OpInsert (person 1 "eve" 0); OpUpdate (person 2 "bob" 0) MERGE;
     OpGet [person 1 "x" 0; person 2 "x" 0]]) empty_db =
  [Ret None; Throw (RuntimeError "row already exists"); Ret None;
   Ret (Some (table_of sample_table [person 1 "ann" 0; person 2 "bob" 0]))].
Proof.
  rewrite (executor_refines (T := MemTable) (D := MemDB) sample_table sample_table_ok _ empty_db []).
  - vm_compute. reflexivity.
  - apply holds_empty.
  - repeat first [apply person_ok; done | apply Forall_nil_2 | apply Forall_cons_2].
  - apply apartb_ok. vm_compute. reflexivity.
Defined.

Lemma insert_rejects_prefix_key_witness :
  insert sample_schema (table_of (T := MemTable) sample_table [person 1 "ann" 0]) (db_of [person 10 "bob" 0]) =
    (Throw (RuntimeError "row already exists"), db_of [person 10 "bob" 0]).
Proof.
  apply (insert_rejects_prefix_key (T := MemTable) sample_table sample_table_ok _ [person 10 "bob" 0] _ (person 10 "bob" 0)).
  - apply holds_db_of; [apply holds_empty|apply person_ok; done|vm_compute; reflexivity|reflexivity].
  - repeat first [apply person_ok; done | apply Forall_nil_2 | apply Forall_cons_2].
  - apply person_ok; done.
  - left.
  - vm_compute. reflexivity.
Defined.

Lemma generator_returns_rows_witness :
  ∃ ps, tableScanGenerator 4 sample_schema None (page_options 1 []) (db_of people) =
    (Ret (table_of (T := MemTable) sample_table <$> ps, true), db_of people) ∧ mjoin ps = people.
Proof.
  destruct (generator_returns_rows (T := MemTable) sample_table sample_table_ok (db_of people) people 3 1)
    as (ps & E & Hj & _).
  - apply people_stored.
  - apply apartb_ok. vm_compute. reflexivity.
  - apply people_by_key.
  - apply people_not_weird.
  - split; lia.
  - reflexivity.
  - exists ps. split; [exact E|exact Hj].
Defined.

Lemma generator_never_ends_witness :
  ∃ ts : list MemTable, tableScanGenerator 50 sample_schema None (page_options 2 []) (db_of people) =
    (Ret (ts, false), db_of people).
Proof.
  apply (generator_never_ends (T := MemTable) sample_table sample_table_ok 50 (db_of people) people 2).
  - apply people_stored.
  - apply apartb_ok. vm_compute. reflexivity.
  - apply people_by_key.
  - apply people_not_weird.
  - split; lia.
  - reflexivity.
  - lia.
Defined.
End witnesses.
