(* ===== verification/QueryPlanner.v ===== *)
(** * The database: query plans

    [src/applications/mydb/backend/QueryPlan.h], [QueryPlanner.cc] and
    [QueryParser.cc], with the conditions of [proto/condition.proto]: a plan
    scans a table and filters its rows by a condition. *)

From stdpp Require Import base gmap sets list strings pretty sorting.
From Stdlib Require Import ZArith Lia.
From S2P Require Import Prelude KVStore Schema KeySerializer Arrow RowSerializer QueryExecutor.

Open Scope Z_scope.

(** ** Conditions; an enumeration field can hold a number that is none of its
    names *)

Inductive IntOperation := INT_EQ | INT_LEQ | INT_LT | INT_GEQ | INT_GT | INT_UNKNOWN.
Inductive StringOperation :=
  | STR_EQ | STR_HAS_SUBSTR | STR_STARTS_WITH | STR_ENDS_WITH
  | STR_CASE_INSENSITIVE_EQ | STR_CASE_INSENSITIVE_HAS_SUBSTR
  | STR_CASE_INSENSITIVE_STARTS_WITH | STR_CASE_INSENSITIVE_ENDS_WITH
  | STR_UNKNOWN.
Inductive LogicalOperator := AND | OR | UNKNOWN_OPERATOR.

Record IntCondition := { int_col_name : string; int_value : Z; int_op : IntOperation }.
Record StringCondition := { str_name : string; str_value : string; str_op : StringOperation }.
Inductive UnaryCondition :=
  | NoUnary
  | OnInt (c : IntCondition)
  | OnString (c : StringCondition).
Inductive Condition :=
  | NoCondition
  | Unary (c : UnaryCondition)
  | Binary (c1 c2 : Condition) (op : LogicalOperator).

(** ** Plans *)

Inductive QueryOperation := TableScan | Update | NoOperation.
Record QueryPlan := {
  operation : QueryOperation;
  plan_schema : TableSchema;
  outputColumns : list Z;
  plan_condition : Condition }.
(** The declaration is a table source, with a filter or without. *)
Record ExecutableQueryPlan (E T : Type) := {
  source : T;
  filter_ : option E;
  inputPlan : QueryPlan }.
Arguments source {E T} _.
Arguments filter_ {E T} _.
Arguments inputPlan {E T} _.

(** ** QueryPlanner *)

Section planner.
Context {D E T : Type} `{RocksDB D, ArrowTable T, !ArrowCompute E T, DbConv}.

Definition parseUnaryCondition (unaryCondition : UnaryCondition) : outcome E :=
  match unaryCondition with
  | OnInt c =>
      match int_op c with
      | INT_EQ => Ret (ex_int EQ (int_col_name c) (int_value c))
      | INT_LEQ => Ret (ex_int LEQ (int_col_name c) (int_value c))
      | INT_LT => Ret (ex_int LT (int_col_name c) (int_value c))
      | INT_GEQ => Ret (ex_int GEQ (int_col_name c) (int_value c))
      | INT_GT => Ret (ex_int GT (int_col_name c) (int_value c))
      | INT_UNKNOWN => Throw AssertFailure
      end
  | OnString c =>
      match str_op c with
      | STR_EQ => Ret (ex_string_equal (str_name c) (str_value c))
      | STR_UNKNOWN => Throw AssertFailure
      | _ => Ret ex_default
      end
  | NoUnary => Throw AssertFailure
  end.

Fixpoint parseCondition (condition : Condition) : outcome E :=
  match condition with
  | Unary c => parseUnaryCondition c
  | Binary c1 c2 op =>
      left ← parseCondition c1;
      right ← parseCondition c2;
      match op with
      | AND => Ret (ex_and left right)
      | OR => Ret (ex_or left right)
      | UNKNOWN_OPERATOR => Throw AssertFailure
      end
  | NoCondition => Ret ex_true
  end.

(** The scan starts at the first row and reads at most 100000 rows. *)
Definition MAX_ROWS : Z := 100000.
Definition plan_options (schema : TableSchema) : IndexQueryOptions :=
  {| query_indexId := index_id (primary_key_index (table_ schema)); query_direction := FORWARD;
     query_secondaryKeyValues := []; query_primaryKeyValues := []; query_maxRowsReturnSize := MAX_ROWS |}.

(** The filter of a plan, if its condition is set. *)
Definition plan_filter (condition : Condition) : outcome (option E) :=
  match condition with
  | NoCondition => Ret None
  | _ => e ← parseCondition condition; Ret (Some e)
  end.

Definition plan (schema : TableSchema) (plan_ : QueryPlan) : M D (ExecutableQueryPlan E T) :=
  table ← tableScan schema (plan_options schema);
  filterExpr ← of_outcome (plan_filter (plan_condition plan_));
  mret {| source := table; filter_ := filterExpr; inputPlan := plan_ |}.

(** A status that is not ok is an assertion failure. *)
Definition execute (executableQueryPlan : ExecutableQueryPlan E T) : outcome T :=
  match (match filter_ executableQueryPlan with
         | Some e => run_filter e (source executableQueryPlan)
         | None => run_source (source executableQueryPlan)
         end) with
  | Some responseTable => Ret responseTable
  | None => Throw AssertFailure
  end.
End planner.

(** ** QueryParser *)

Record ScanTableRequest := {
  scan_database_name : string;
  scan_table_name : string;
  return_columns : list string;
  scan_condition : Condition }.

(** [Request]: of the request to add a row the parser reads the names. *)
Inductive Request :=
  | ScanRequest (r : ScanTableRequest)
  | AddRequest (database_name table_name : string).

Definition parse_request (request_ : Request) (schemaStore_ : SchemaStore) : outcome QueryPlan :=
  let '(databaseName, tableName, outputColumnNames, queryOperation, condition) :=
    match request_ with
    | ScanRequest r =>
        (scan_database_name r, scan_table_name r, return_columns r, TableScan, scan_condition r)
    | AddRequest database_name table_name => (database_name, table_name, [], Update, NoCondition)
    end in
  match getTable databaseName tableName schemaStore_ with
  | None => Throw AssertFailure
  | Some table =>
      let tableSchema := makeTableSchema table in
      outputColumns ← mapM (λ colName, getColumnId colName tableSchema) outputColumnNames;
      mret {| operation := queryOperation; plan_schema := tableSchema;
              outputColumns := outputColumns; plan_condition := condition |}
  end.

(** ** The rows that satisfy a condition *)

(** A condition that can be evaluated: its columns are columns of the table,
    of the right type, and of the operations on strings it uses equality. *)
Definition int_comparison (op : IntOperation) : option Comparison :=
  match op with
  | INT_EQ => Some EQ | INT_LEQ => Some LEQ | INT_LT => Some LT | INT_GEQ => Some GEQ
  | INT_GT => Some GT | INT_UNKNOWN => None
  end.
Definition supported_unary (fields : list Field) (c : UnaryCondition) : bool :=
  match c with
  | NoUnary => false
  | OnInt c =>
      bool_decide ((int_col_name c, INT64) ∈ fields) && bool_decide (is_Some (int_comparison (int_op c)))
  | OnString c =>
      bool_decide ((str_name c, STRING) ∈ fields) && match str_op c with STR_EQ => true | _ => false end
  end.
Fixpoint supported (fields : list Field) (c : Condition) : bool :=
  match c with
  | NoCondition => true
  | Unary c => supported_unary fields c
  | Binary c1 c2 op =>
      supported fields c1 && supported fields c2 &&
      match op with UNKNOWN_OPERATOR => false | _ => true end
  end.

(** What a condition means. *)
Definition satisfies_unary (fields : list Field) (row : list ColumnValue) (c : UnaryCondition) : bool :=
  match c with
  | NoUnary => false
  | OnInt c =>
      match cell fields row (int_col_name c), int_comparison (int_op c) with
      | Some (IntValue x), Some op => compare_ints op x (int_value c)
      | _, _ => false
      end
  | OnString c =>
      match cell fields row (str_name c) with
      | Some (StringValue x) => bool_decide (x = str_value c)
      | _ => false
      end
  end.
Fixpoint satisfies (fields : list Field) (row : list ColumnValue) (c : Condition) : bool :=
  match c with
  | NoCondition => true
  | Unary c => satisfies_unary fields row c
  | Binary c1 c2 AND => satisfies fields row c1 && satisfies fields row c2
  | Binary c1 c2 _ => satisfies fields row c1 || satisfies fields row c2
  end.

(** The cell of a column has its type. *)
Lemma cell_type fields row name ty :
  NoDup (fields.*1) → row_ok fields row → (name, ty) ∈ fields →
  ∃ v, cell fields row name = Some v ∧ has_type ty v = true.
Proof.
  intros Hnd Hrow. unfold cell. induction Hrow as [|[n t] v fields row Hv _ IH]; intros Hin; [by apply elem_of_nil in Hin|].
  simpl in Hnd. apply NoDup_cons in Hnd as [Hn Hnd]. simpl. rewrite filter_cons. simpl.
  apply elem_of_cons in Hin as [[= -> ->]|Hin].
  - rewrite decide_True by done. by exists v.
  - rewrite decide_False; [by apply IH|]. intros ->. apply Hn. by apply (list_elem_of_fmap_2 fst _ (name, ty)).
Qed.

Section correct.
Context {D E T : Type} `{RocksDBLaws D, ArrowComputeLaws E T, HC : DbConvLaws} (table : Table) (Hok : table_ok table).
Abbreviation schema := (makeTableSchema table).
Abbreviation fields := (fields_of table).

(** The expression of a condition evaluates to its meaning. *)
Lemma parseCondition_ok c :
  supported fields c = true →
  ∃ e : E, parseCondition c = Ret e ∧
    ∀ row, row_ok fields row → ex_holds e fields row = Some (satisfies fields row c).
Proof.
  induction c as [|c|c1 IH1 c2 IH2 op]; simpl; intros Hc.
  - exists ex_true. split; [done|]. intros. apply ex_holds_true.
  - destruct c as [|c|c]; simpl in *; [done|..]; apply andb_true_iff in Hc as [Hin Hop]; apply bool_decide_eq_true in Hin.
    + destruct (int_comparison (int_op c)) as [op|] eqn:Eop; [|done].
      exists (ex_int op (int_col_name c) (int_value c)). split.
      { destruct (int_op c); simpl in Eop; congruence. }
      intros row Hrow. rewrite ex_holds_int.
      destruct (cell_type fields row _ _ (ok_names _ Hok) Hrow Hin) as (v & -> & Hv). by destruct v.
    + destruct (str_op c); try done. eexists. split; [done|].
      intros row Hrow. rewrite ex_holds_string.
      destruct (cell_type fields row _ _ (ok_names _ Hok) Hrow Hin) as (v & -> & Hv). by destruct v.
  - apply andb_true_iff in Hc as [[Hc1 Hc2]%andb_true_iff Hop].
    destruct (IH1 Hc1) as (e1 & -> & H1'), (IH2 Hc2) as (e2 & -> & H2'). rewrite !outcome_bind_Ret.
    destruct op; [| |done]; (eexists; split; [done|]); intros row Hrow.
    + apply ex_holds_and; auto.
    + apply ex_holds_or; auto.
Qed.

(** Executing a plan whose source is a table of rows. *)
Lemma execute_selects rows c p :
  Forall (row_ok fields) rows → supported fields c = true →
  ∃ (fl : option E) (t : T), plan_filter c = Ret fl ∧
    execute {| source := table_of table rows; filter_ := fl; inputPlan := p |} = Ret t ∧
    at_fields t = fields ∧ at_rows t = filter (λ row, satisfies fields row c = true) rows.
Proof.
  intros Hrows Hc. assert (Hf : at_fields (table_of (T := T) table rows) = fields) by apply at_fields_make.
  assert (Hr : at_rows (table_of (T := T) table rows) = rows).
  { unfold table_of. rewrite <- fields_length. apply at_rows_make; [apply Hok|done]. }
  unfold execute. assert (c = NoCondition ∨ c ≠ NoCondition) as [->|Hne] by (destruct c; auto).
  - exists None. destruct (run_source_rows (E := E) (table_of (T := T) table rows)) as (t & Et & Ef & Er).
    exists t. simpl. rewrite Et. split_and!; [done|done|by rewrite Ef|]. rewrite Er, Hr. by rewrite filter_all.
  - destruct (parseCondition_ok c Hc) as (e & Ee & Hsat). exists (Some e).
    destruct (run_filter_rows e (table_of (T := T) table rows)) as (t & Et & Ef & Er).
    + by rewrite Hf, Hr.
    + rewrite Hf, Hr. eapply Forall_impl; [exact Hrows|]. intros row Hrow. simpl. by rewrite Hsat.
    + exists t. simpl. rewrite Et. split_and!; [by destruct c; [done|..]; unfold plan_filter; rewrite Ee|done|by rewrite Ef|].
      rewrite Er, Hf, Hr. clear -Hrows Hsat.
      induction Hrows as [|row rows Hrow _ IH]; [done|]. rewrite !filter_cons, IH, Hsat by done.
      destruct (satisfies fields row c); [by rewrite !decide_True|by rewrite !decide_False].
Qed.

(** Planning and executing a query. *)
Definition run_query (p : QueryPlan) : M D T := x ← plan (E := E) schema p; of_outcome (execute x).

Lemma run_query_selects d rows p :
  holds table d rows → apart table rows → by_key table rows → no_weird d →
  Z.of_nat (length rows) <= MAX_ROWS → supported fields (plan_condition p) = true →
  ∃ t : T, run_query p d = (Ret t, d) ∧ at_fields t = fields ∧
    at_rows t = filter (λ row, satisfies fields row (plan_condition p) = true) rows.
Proof.
  intros Hd Hap Hs Hw Hlen Hc. unfold run_query, plan. mred.
  replace (plan_options schema) with (page_options MAX_ROWS (from_values table []))
    by (unfold plan_options; simpl; by rewrite (ok_zero _ (ok_keys _ Hok))).
  rewrite (tableScan_page table Hok d rows [] rows) by done.
  replace (take _ rows) with rows by (symmetry; apply take_ge; unfold MAX_ROWS in *; change (to_size 100000) with 100000; lia).
  destruct (execute_selects rows (plan_condition p) p) as (fl & t & -> & E' & Ef & Er); [|done|].
  { apply rows_good_ok, (holds_good _ _ _ Hd). }
  exists t. by rewrite E'.
Qed.

(** C21: a query selects rows, on a table of at most 100000 rows that are apart (no
    key of a row is a prefix of a key of another row, unlike ids 1 and 10) in a
    database that reports no errors, for a condition that is [supported]:
    comparisons of integer columns, equality of string columns - the other
    seven string operators are not - and their combinations.  Planning and
    executing it gives the stored rows that satisfy the condition, in the order
    of their keys and with all their columns. *)
Theorem query_selects d rows p :
  holds table d rows → apart table rows → by_key table rows → no_weird d →
  Z.of_nat (length rows) <= MAX_ROWS → supported fields (plan_condition p) = true →
  ∃ (x : ExecutableQueryPlan E T) t, plan schema p d = (Ret x, d) ∧ execute x = Ret t ∧
    at_fields t = fields ∧
    at_rows t = filter (λ row, satisfies fields row (plan_condition p) = true) rows.
Proof.
  intros Hd Hap Hs Hw Hlen Hc. destruct (run_query_selects d rows p) as (t & E1 & Ef & Er); [done..|].
  unfold run_query in E1. apply bind_inv_Ret in E1 as (x & s1 & Ep & Ex).
  unfold of_outcome in Ex. injection Ex as Ex ->. by exists x, t.
Qed.
End correct.

(** ** Witness *)

Section planner_witness.
#[local] Existing Instance decimal_db_conv.

(** id at least 2, and not locked. *)
Definition sample_condition : Condition :=
  Binary (Unary (OnInt {| int_col_name := "id"; int_value := 2; int_op := INT_GEQ |}))
    (Unary (OnInt {| int_col_name := LOCK_MODE_NAME; int_value := 0; int_op := INT_EQ |})) AND.
Definition sample_plan : QueryPlan :=
  {| operation := TableScan; plan_schema := makeTableSchema sample_table; outputColumns := [];
     plan_condition := sample_condition |}.

Lemma people_apart : apart sample_table people.
Proof. apply apartb_ok. vm_compute. reflexivity. Qed.

Lemma query_selects_witness :
  ∃ (x : ExecutableQueryPlan MemExpr MemTable) t,
    plan (makeTableSchema sample_table) sample_plan (db_of people) = (Ret x, db_of people) ∧
    execute x = Ret t ∧ at_rows t = [person 2 "bob" 0; person 3 "cy" 0].
Proof.
  destruct (query_selects (E := MemExpr) (T := MemTable) sample_table sample_table_ok (db_of people) people sample_plan)
    as (x & t & Hx & Ht & _ & Hr).
  - apply people_stored.
  - apply people_apart.
  - apply people_by_key.
  - apply people_not_weird.
  - vm_compute. discriminate.
  - vm_compute. reflexivity.
  - exists x, t. split; [exact Hx|]. split; [exact Ht|]. rewrite Hr. vm_compute. reflexivity.
Defined.
End planner_witness.
