(* ===== verification/Transformer.v ===== *)
(** * The database: requests

    [src/applications/mydb/backend/RequestTransformer.h]: between the messages
    of [client/proto/db.proto] and tables.  Of a message the fields that the
    program reads are kept; an [Any] is its [value]. *)

From stdpp Require Import base gmap sets list strings pretty sorting.
From Stdlib Require Import ZArith Lia.
From S2P Require Import Prelude Schema KeySerializer Arrow RowSerializer.

Open Scope Z_scope.

(** ** Messages *)

(** [client::ColumnValue] *)
Record NamedValue := { value_name : string; value_value : string }.

(** [client::Column]; an enumeration field can hold an unknown number. *)
Inductive ClientColumnType := CLIENT_INT64 | CLIENT_STRING | CLIENT_UNKNOWN.
Record ClientColumn := { client_column_name : string; client_column_type : ClientColumnType }.
Record ClientIndex := { client_index_name : string; client_index_columns : list string }.
(** [client::Table]; its serialization is an argument of the code that stores
    it. *)
Record ClientTable := {
  client_table_name : string;
  client_db : string;
  client_columns : list ClientColumn;
  primary_key_columns : list string;
  client_secondary_index : list ClientIndex }.

(** [TableRows]: the values of the rows, as text. *)
Abbreviation TableRows := (list (list string)).

Section transformer.
Context {T : Type} `{ArrowTable T} `{DbConv}.

(** ** To tables *)

(** The body of the loops of [from(columnValues, schema)]. *)
Definition append_named (schema : TableSchema) (columnValue : NamedValue) (b : Builders) : outcome Builders :=
  colId ← getColumnId (value_name columnValue) schema;
  _ ← at_or_throw (om_find colId b);
  v ← match getColumnType colId schema with
      | None => Throw NullPointer
      | ty => typed_value ty (value_value columnValue)
      end;
  mret (append_to colId v b).

Fixpoint append_all_named (schema : TableSchema) (columnValues : list NamedValue) (b : Builders)
    : outcome Builders :=
  match columnValues with
  | [] => mret b
  | columnValue :: columnValues' =>
      b' ← append_named schema columnValue b;
      append_all_named schema columnValues' b'
  end.

Definition from_values (columnValues : list (list NamedValue)) (schema : TableSchema) : outcome T :=
  let header := getHeader schema in
  b ← append_all_named schema (mjoin columnValues) (colBuilder header);
  finish (fields header) b.

Definition named (name value : string) : NamedValue := {| value_name := name; value_value := value |}.

Definition from_AddDatabaseRequest (name : string) (schema : TableSchema) (dbId seconds : Z) : outcome T :=
  from_values [[named "id" (pretty dbId); named "name" name; named "created" (pretty seconds);
                named "modified" (pretty seconds)]] schema.

Definition from_AddTableRequest (name serialized : string) (schema : TableSchema) (tableId seconds : Z)
    : outcome T :=
  from_values [[named "id" (pretty tableId); named "name" name; named "created" (pretty seconds);
                named "modified" (pretty seconds); named "serialized_table_str" serialized;
                named "max_id_num" "0"]] schema.

(** [AddRowRequest] and [UpdateRowRequest] *)
Definition from_row_request (column_values : list NamedValue) (schema : TableSchema) : outcome T :=
  from_values [column_values] schema.

Definition from_GetRowRequest (primary_key_values : list (list NamedValue)) (schema : TableSchema) : outcome T :=
  from_values primary_key_values schema.

(** ** From tables *)

Definition from_table (schema : TableSchema) (internalTable : T) : outcome TableRows :=
  ps ← positions internalTable;
  mapM (λ p, mapM (λ col, v ← read_column internalTable p col; mret (toString v))
    (columns (table_ schema))) ps.

(** ** Printing

    [src/applications/mydb/format/FormatTable.h]: the cells of the
    [tabulate::Table]; fonts and alignment are left out. *)

Definition header_cell (col : Column) : string :=
  let columnTypeName := match column_type col with INT64 => "INT64" | STRING => "STRING" end in
  (col_name col +:+ " (id=" +:+ pretty (col_id col) +:+ ") (type=" +:+ columnTypeName +:+ ")")%string.

Definition format (schema : TableSchema) (internalTable : T) : outcome (list (list string)) :=
  let header := header_cell <$> columns (table_ schema) in
  ps ← positions internalTable;
  rows ← mapM (λ p, mapM (λ col, v ← read_column internalTable p col; mret (toString v))
    (columns (table_ schema))) ps;
  mret (header :: rows).

(** ** Schemas *)

Definition from_column_type (ty : ClientColumnType) : outcome COLUMN_TYPE :=
  match ty with
  | CLIENT_INT64 => Ret INT64
  | CLIENT_STRING => Ret STRING
  | CLIENT_UNKNOWN => Throw AssertFailure
  end.

(** Columns are numbered from [idCounter] on. *)
Fixpoint number_columns (idCounter : Z) (cols : list ClientColumn) : outcome (list Column) :=
  match cols with
  | [] => mret []
  | c :: cols' =>
      ty ← from_column_type (client_column_type c);
      rest ← number_columns (wrap32 (idCounter + 1)) cols';
      mret ({| col_id := idCounter; col_name := client_column_name c; column_type := ty |} :: rest)
  end.

(** [idLookup]: the id of the last column with a name. *)
Definition id_lookup (cols : list Column) : gmap string Z :=
  foldl (λ m c, <[col_name c := col_id c]> m) ∅ cols.
Definition lookup_ids (idLookup : gmap string Z) (names : list string) : outcome (list Z) :=
  mapM (λ n, at_or_throw (idLookup !! n)) names.

(** A secondary index is given no id, and has the default one. *)
Definition from_client_table (clientTable : ClientTable) (dbId tableId : Z) : outcome Table :=
  cols ← number_columns 0 (client_columns clientTable);
  let idLookup := id_lookup cols in
  primary ← lookup_ids idLookup (primary_key_columns clientTable);
  secondary ← mapM (λ i,
      colIds ← lookup_ids idLookup (client_index_columns i);
      mret {| index_id := 0; index_name := client_index_name i; column_ids := colIds |})
    (client_secondary_index clientTable);
  mret {| table_id := tableId; table_name := client_table_name clientTable;
          table_db := {| db_id := dbId; db_name := client_db clientTable |};
          columns := cols ++ getTableDefaultColumns;
          primary_key_index :=
            {| index_id := 0; index_name := "primary_key_idx"; column_ids := primary |};
          secondary_index := secondary |}.
End transformer.

(** ** Requests for rows *)

Section requests.
Context {T : Type} `{ArrowTableLaws T, HC : DbConvLaws} (table : Table) (Hok : table_ok table).
Abbreviation schema := (makeTableSchema table).
Abbreviation ids := (ids_of table).
Implicit Types (row : list ColumnValue) (rows : list (list ColumnValue)).

(** The value of a column as a request gives it. *)
Definition names_value (nv : NamedValue) (p : Z * ColumnValue) : Prop :=
  ∃ col, col ∈ columns table ∧ value_name nv = col_name col ∧ p.1 = col_id col ∧
    typed_value (Some (column_type col)) (value_value nv) = Ret p.2.

Lemma getColumnId_ok col : col ∈ columns table → getColumnId (col_name col) schema = Ret (col_id col).
Proof.
  intros Hcol. unfold getColumnId. simpl.
  rewrite (foldl_insert_lookup col_name); [done| |done].
  pose proof (ok_names _ Hok) as Hnd. unfold fields_of in Hnd. by rewrite <- list_fmap_compose in Hnd.
Qed.

Lemma append_to_all c v b : append_to c v b = append_all [(c, v)] b.
Proof.
  unfold append_to, append_all. apply list_fmap_ext. intros i [d a] _. simpl. rewrite filter_cons. simpl.
  destruct (decide (d = c)) as [->|Hne]; [by rewrite decide_True|]. rewrite decide_False by congruence.
  simpl. by rewrite app_nil_r.
Qed.
Lemma append_all_cons p ps b : append_all (p :: ps) b = append_all ps (append_all [p] b).
Proof.
  unfold append_all. rewrite <- list_fmap_compose. apply list_fmap_ext. intros i [c a] _. simpl.
  rewrite !filter_cons. simpl. case_decide; simpl; [by rewrite <- (assoc_L (++))|by rewrite app_nil_r].
Qed.
Lemma append_all_fst ps b : (append_all ps b).*1 = b.*1.
Proof. unfold append_all. by rewrite <- list_fmap_compose. Qed.

Lemma append_all_named_ok nvs ps b :
  Forall2 names_value nvs ps → b.*1 = ids → append_all_named schema nvs b = Ret (append_all ps b).
Proof.
  intros Hall. revert b. induction Hall as [|nv [c v] nvs ps (col & Hcol & En & Ec & Ev) _ IH]; intros b Hb; simpl.
  - f_equal. unfold append_all. rewrite <- (list_fmap_id b) at 1. apply list_fmap_ext.
    intros i [d a] _. simpl. by rewrite app_nil_r.
  - simpl in *. subst c. unfold append_named. rewrite En, getColumnId_ok, outcome_bind_Ret by done.
    destruct (om_find (col_id col) b) eqn:Ef; cycle 1.
    { apply om_find_None in Ef. destruct Ef. rewrite Hb. by apply (list_elem_of_fmap_2 col_id). }
    simpl. rewrite (getColumnType_ok table Hok) by done. rewrite Ev, !outcome_bind_Ret.
    rewrite append_to_all, (append_all_cons (col_id col, v) ps). apply IH. by rewrite append_all_fst.
Qed.

Lemma from_values_ok nvss ps :
  Forall2 names_value (mjoin nvss) ps →
  from_values (T := T) nvss schema = finish (fields_of table) (append_all ps ((λ c, (c, [])) <$> ids)).
Proof.
  intros Hall. unfold from_values. rewrite (header_builders table Hok).
  rewrite (append_all_named_ok _ ps); [done|done|]. rewrite <- list_fmap_compose. apply list_fmap_id.
Qed.

(** The values of a row, named by their columns. *)
Definition named_row row : list NamedValue :=
  zip_with (λ col v, named (col_name col) (toString v)) (columns table) row.

Lemma named_row_values row :
  row_ok (fields_of table) row → Forall in_range row → Forall2 names_value (named_row row) (zip ids row).
Proof.
  intros Ht Hr. apply Forall2_same_length_lookup_2.
  { unfold named_row, ids_of. by rewrite length_zip_with, length_zip, length_fmap. }
  intros i nv [c v] Hnv Hp. unfold named_row in Hnv. apply lookup_zip_with_Some in Hnv as (col & w & -> & Hcol & Hw).
  apply lookup_zip_Some in Hp as [Hc Hv]. rewrite Hw in Hv. injection Hv as ->.
  unfold ids_of in Hc. rewrite list_lookup_fmap, Hcol in Hc. injection Hc as <-.
  exists col. split_and!; [by eapply list_elem_of_lookup_2|done|done|].
  apply typed_value_good; [by eapply (Forall_lookup_1 in_range)|].
  assert (Hf : fields_of table !! i = Some (col_name col, column_type col))
    by (unfold fields_of; by rewrite list_lookup_fmap, Hcol).
  by apply (Forall2_lookup_lr _ _ _ _ _ _ Ht Hf Hw).
Qed.

(** A request that names the values of a row, in any order, is the row. *)
Lemma from_row_request_ok row nvs :
  row_good table row → nvs ≡ₚ named_row row →
  from_row_request (T := T) nvs schema = Ret (table_of table [row]).
Proof.
  intros [Ht Hr Hv] Hp. pose proof (named_row_values row Ht Hr) as Hall.
  destruct (Permutation_Forall2 (symmetry Hp) Hall) as (ps & Hps & Hall').
  unfold from_row_request. rewrite (from_values_ok _ ps) by by (simpl; rewrite app_nil_r).
  apply (finish_rows table Hok); [by repeat constructor|]. intros b. simpl. rewrite app_nil_r.
  symmetry. apply append_all_perm; [done|].
  rewrite zip_ids_fst; [by apply ids_NoDup|by apply good_length].
Qed.

(** ** Requests for keys *)

Abbreviation pk := (column_ids (primary_key_index table)).
(** The key columns of rows. *)
Definition key_pairs row : list (Z * ColumnValue) := filter (λ p : Z * ColumnValue, p.1 ∈ pk) (zip ids row).

Lemma key_pairs_column row j c :
  length row = length (columns table) → ids !! j = Some c →
  (filter (λ p : Z * ColumnValue, p.1 = c) (key_pairs row)).*2 =
    if decide (c ∈ pk) then option_list (row !! j) else [].
Proof.
  intros Hlen Hj. unfold key_pairs. rewrite list_filter_filter. case_decide as Hc.
  - rewrite <- (filter_zip ids row j c); [|by apply ids_NoDup|done|unfold ids_of; by rewrite length_fmap].
    f_equal. apply list_filter_iff. intros p. split; [by intros []|]. by intros <-.
  - rewrite filter_none; [done|]. intros p _ [<- ?]. done.
Qed.

Lemma key_columns_arrays qs j c :
  Forall (row_ok (fields_of table)) qs → ids !! j = Some c →
  (append_all (mjoin (key_pairs <$> qs)) ((λ c, (c, [])) <$> ids)).*2 !! j =
    Some (if decide (c ∈ pk) then omap (.!! j) qs else []).
Proof.
  intros Hqs Hj. unfold append_all. rewrite !list_lookup_fmap, Hj. simpl. f_equal.
  induction Hqs as [|q qs Hq _ IH]; [by case_decide|].
  apply Forall2_length in Hq. rewrite fields_length in Hq.
  change (mjoin (key_pairs <$> q :: qs)) with (key_pairs q ++ mjoin (key_pairs <$> qs)).
  rewrite filter_app, fmap_app, IH, (key_pairs_column q j c) by done.
  case_decide; [|done]. destruct (lookup_lt_is_Some_2 q j) as [v Hv].
  { apply lookup_lt_Some in Hj. unfold ids_of in Hj. rewrite length_fmap in Hj. lia. }
  simpl. by rewrite Hv.
Qed.

(** A request that names the key columns makes a table with their values, when
    the first column of the table is one of them. *)
Lemma from_GetRowRequest_ok nvss qs :
  Forall (row_ok (fields_of table)) qs → Forall2 names_value (mjoin nvss) (mjoin (key_pairs <$> qs)) →
  (∃ c, ids !! 0%nat = Some c ∧ c ∈ pk) →
  ∃ arrays, from_GetRowRequest (T := T) nvss schema = Ret (at_make (fields_of table) (length qs) arrays) ∧
    key_arrays table arrays qs.
Proof.
  intros Hqs Hall (c & Hzero & Hc). unfold from_GetRowRequest. rewrite (from_values_ok _ _ Hall).
  set (b := append_all _ _). pose proof (key_columns_arrays qs 0 c Hqs Hzero) as Ha. fold b in Ha.
  rewrite decide_True in Ha by done. unfold finish. destruct (b.*2) as [|a l] eqn:Eb; [done|].
  injection Ha as ->. eexists. split.
  - do 2 f_equal. pose proof (columns_inhabited table Hok) as Hpos. rewrite <- fields_length in Hpos.
    apply row_ok_lengths in Hqs. clear - Hqs Hpos. induction Hqs as [|q qs Hq _ IH]; [done|].
    destruct (lookup_lt_is_Some_2 q 0) as [v Hv]; [lia|]. simpl. rewrite Hv. simpl. exact (f_equal S IH).
  - rewrite <- Eb. intros j c' Hj Hc'. subst b. rewrite (key_columns_arrays qs j c'), decide_True by done. done.
Qed.

(** ** Responses *)

Lemma from_table_ok rows :
  Forall (row_ok (fields_of table)) rows →
  from_table schema (table_of (T := T) table rows) = Ret ((λ row, toString <$> row) <$> rows).
Proof.
  intros Hrows. unfold from_table. rewrite (positions_table table Hok), outcome_bind_Ret.
  apply mapM_Ret, Forall2_fmap_l, lookup_seq_forall2; [by rewrite length_fmap|].
  intros r ts Hts. rewrite list_lookup_fmap in Hts. destruct (rows !! r) as [row|] eqn:Hr; [|done].
  injection Hts as <-. assert (Hrow : row_ok (fields_of table) row) by by eapply (Forall_lookup_1 _ rows).
  pose proof (Forall2_length _ _ _ Hrow) as Hlen. rewrite fields_length in Hlen. unfold compose. cbv beta.
  change (columns (table_ schema)) with (columns table).
  apply mapM_Ret, Forall2_same_length_lookup_2; [by rewrite length_fmap|].
  intros j col t Hj Ht. rewrite list_lookup_fmap in Ht. destruct (row !! j) as [v|] eqn:Hv; [|done].
  injection Ht as <-. by rewrite (read_column_table table Hok rows r j row col v).
Qed.

(** A table is printed as its response shows it, below a header. *)
Theorem format_ok rows :
  Forall (row_ok (fields_of table)) rows →
  format schema (table_of (T := T) table rows) =
    Ret ((header_cell <$> columns table) :: ((λ row, toString <$> row) <$> rows)).
Proof.
  intros Hrows%from_table_ok. unfold from_table in Hrows. unfold format.
  destruct (positions (table_of table rows)) as [ps| |]; [|done..]. rewrite outcome_bind_Ret in *.
  by rewrite Hrows.
Qed.
End requests.
