(* ===== verification/DbImpl.v ===== *)
(** * The database: its operations

    [src/applications/mydb/backend/DbImpl.cc], the implementation of the
    interface [Db] ([include/Db.h]), and the tables it is bootstrapped with
    ([proto/meta_db_schema.textproto], [meta_db_table_schema.textproto]). *)

From stdpp Require Import base gmap sets list strings pretty sorting.
From Stdlib Require Import ZArith Lia.
From S2P Require Import Prelude KVStore Schema KeySerializer Arrow RowSerializer QueryExecutor QueryPlanner Transformer.

Open Scope Z_scope.

(** ** Requests *)

Record AddTableRequest := { add_table : ClientTable; add_table_serialized : string }.
Record AddRowRequest := {
  add_database_name : string; add_table_name : string; add_column_values : list NamedValue }.
Inductive UPDATE_TYPE := UPDATE_REPLACE | UPDATE_MERGE | UPDATE_UNKNOWN.
Record UpdateRowRequest := {
  update_database_name : string; update_table_name : string;
  update_column_values : list NamedValue;
  update_type : UPDATE_TYPE;
  update_condition : Condition }.
Record GetRowRequest := {
  get_database_name : string; get_table_name : string;
  primary_key_values : list (list NamedValue) }.

Inductive SingleTableOperationRequest :=
  | SingleAdd (r : AddRowRequest)
  | SingleUpdate (r : UpdateRowRequest)
  | SingleGet (r : GetRowRequest)
  | SingleNothing.
(** The rows of a response; an update has none. *)
Inductive SingleTableOperationResponse :=
  | AddRowResponse (rows : TableRows)
  | UpdateRowResponse
  | GetRowResponse (rows : TableRows)
  | NothingResponse.

(** ** State *)

Section db.
Context (E : Type) {D T : Type} `{RocksDB D, ArrowTable T, !ArrowCompute E T, DbConv}.

Record DbImpl := mkDbImpl {
  schemaStore_ : SchemaStore;
  rocks_ : D;
  dbIds_ : Z;
  tableIds_ : Z }.

Definition with_schemas {A} (m : M SchemaStore A) : M DbImpl A :=
  zoom schemaStore_ (λ x s, mkDbImpl x (rocks_ s) (dbIds_ s) (tableIds_ s)) m.
Definition with_rocks {A} (m : M D A) : M DbImpl A :=
  zoom rocks_ (λ x s, mkDbImpl (schemaStore_ s) x (dbIds_ s) (tableIds_ s)) m.

Definition makeDbImpl (schemaStore : SchemaStore) (rocks : D) : DbImpl := mkDbImpl schemaStore rocks 0 0.

(** [dbIds_++], on a [uint32] *)
Definition next_db_id : M DbImpl Z := λ s,
  (Ret (dbIds_ s), mkDbImpl (schemaStore_ s) (rocks_ s) (wrap32 (dbIds_ s + 1)) (tableIds_ s)).
Definition next_table_id : M DbImpl Z := λ s,
  (Ret (tableIds_ s), mkDbImpl (schemaStore_ s) (rocks_ s) (dbIds_ s) (wrap32 (tableIds_ s + 1))).

(** [getTable] and the assertion that the table is found; its schema. *)
Definition find_schema (dbName tableName : string) : M DbImpl TableSchema :=
  table ← gets (λ s, getTable dbName tableName (schemaStore_ s));
  match table with
  | Some t => mret (makeTableSchema t)
  | None => throw AssertFailure
  end.

(** ** Creation of databases and tables; [seconds] is the clock. *)

Definition addDatabase (seconds : Z) (name : string) : M DbImpl () :=
  tableSchema ← find_schema "meta" "meta_db";
  dbId ← next_db_id;
  internalTable ← of_outcome (from_AddDatabaseRequest (T := T) name tableSchema dbId seconds);
  _ ← with_rocks (insert tableSchema internalTable);
  result ← with_schemas (registerDb name {| db_id := dbId; db_name := name |});
  if result : bool then mret () else throw (makeDbError DATABASE_ALREADY_EXISTS).

Definition addTable (seconds : Z) (request : AddTableRequest) : M DbImpl () :=
  let name := client_table_name (add_table request) in
  let db := client_db (add_table request) in
  tableSchema ← find_schema "meta" "meta_db_table";
  database ← gets (λ s, getDatabase db (schemaStore_ s));
  match database with
  | None => throw (makeDbError DATABASE_DOES_NOT_EXIST)
  | Some database =>
      table ← gets (λ s, getTable db name (schemaStore_ s));
      match table with
      | Some _ => throw (makeDbError TABLE_ALREADY_EXISTS)
      | None =>
          tableId ← next_table_id;
          internalTable ← of_outcome
            (from_AddTableRequest (T := T) name (add_table_serialized request) tableSchema tableId seconds);
          _ ← with_rocks (insert tableSchema internalTable);
          newTable ← of_outcome (from_client_table (add_table request) (db_id database) tableId);
          result ← with_schemas (registerTable db name newTable);
          check result
      end
  end.

(** ** Rows *)

Definition addRow (request : AddRowRequest) : M DbImpl TableRows :=
  tableSchema ← find_schema (add_database_name request) (add_table_name request);
  internalTable ← of_outcome (from_row_request (T := T) (add_column_values request) tableSchema);
  _ ← with_rocks (insert tableSchema internalTable);
  insertedRow ← with_rocks (get tableSchema internalTable);
  of_outcome (from_table tableSchema insertedRow).

Definition addConditionToCheckWriteLock (condition : Condition) : Condition :=
  Binary condition
    (Unary (OnInt {| int_col_name := LOCK_MODE_NAME; int_value := LockType_value NO_LOCK;
                     int_op := INT_EQ |})) AND.

(** Planning and executing a query, as [updateRow] and [scanTable] do. *)
Definition query (tableSchema : TableSchema) (outputColumns : list Z) (condition : Condition) : M DbImpl T :=
  executableQueryPlan ← with_rocks (plan (E := E) tableSchema
    {| operation := TableScan; plan_schema := tableSchema; outputColumns := outputColumns;
       plan_condition := condition |});
  of_outcome (execute executableQueryPlan).

Definition updateRow (request : UpdateRowRequest) : M DbImpl () :=
  tableSchema ← find_schema (update_database_name request) (update_table_name request);
  result ← query tableSchema [] (addConditionToCheckWriteLock (update_condition request));
  if at_num_rows result =? 0 then throw (makeDbError UPDATE_CONDITION_FAILED)
  else
    internalTable ← of_outcome (from_row_request (T := T) (update_column_values request) tableSchema);
    updateOptions ← match update_type request with
                    | UPDATE_REPLACE => mret REPLACE
                    | UPDATE_MERGE => mret MERGE
                    | UPDATE_UNKNOWN => throw AssertFailure
                    end;
    with_rocks (update tableSchema internalTable updateOptions).

Definition getRow (request : GetRowRequest) : M DbImpl TableRows :=
  tableSchema ← find_schema (get_database_name request) (get_table_name request);
  internalTable ← of_outcome (from_GetRowRequest (T := T) (primary_key_values request) tableSchema);
  response ← with_rocks (get tableSchema internalTable);
  of_outcome (from_table tableSchema response).

(** The requests are executed one after the other; an exception of one ends
    the operation. *)
Fixpoint multiTableOperation (requests : list SingleTableOperationRequest)
    : M DbImpl (list SingleTableOperationResponse) :=
  match requests with
  | [] => mret []
  | r :: requests' =>
      response ← match r with
                 | SingleAdd a => rows ← addRow a; mret (AddRowResponse rows)
                 | SingleUpdate u => _ ← updateRow u; mret UpdateRowResponse
                 | SingleGet g => rows ← getRow g; mret (GetRowResponse rows)
                 | SingleNothing => mret NothingResponse
                 end;
      rest ← multiTableOperation requests';
      mret (response :: rest)
  end.

Definition scanTable (request : ScanTableRequest) : M DbImpl TableRows :=
  tableSchema ← find_schema (scan_database_name request) (scan_table_name request);
  colIds ← of_outcome (mapM (λ colName, getColumnId colName tableSchema) (return_columns request));
  result ← query tableSchema colIds (scan_condition request);
  of_outcome (from_table tableSchema result).

(** ** Transactions *)

Definition prepareTransaction {A} (txn_id : string) (requests : list SingleTableOperationRequest)
    : M DbImpl A := throw (RuntimeError "METHOD_NOT_IMPLEMENTED").
Definition commitTransaction {A} (txn_id : string) : M DbImpl A :=
  throw (RuntimeError "METHOD_NOT_IMPLEMENTED").
Definition abortTransaction {A} (txn_id : string) : M DbImpl A :=
  throw (RuntimeError "METHOD_NOT_IMPLEMENTED").
End db.

(** ** Bootstrapping *)

Definition meta_database : Database := {| db_id := 1; db_name := "meta" |}.
Definition int_column (id : Z) (name : string) : Column :=
  {| col_id := id; col_name := name; column_type := INT64 |}.
Definition string_column (id : Z) (name : string) : Column :=
  {| col_id := id; col_name := name; column_type := STRING |}.
Definition id_index : Index := {| index_id := 0; index_name := "id_idx"; column_ids := [0] |}.
Definition name_index : Index := {| index_id := 1; index_name := "name_idx"; column_ids := [1] |}.

Definition meta_db : Table :=
  {| table_id := 1; table_name := "meta_db"; table_db := meta_database;
     columns := [int_column 0 "id"; string_column 1 "name"; int_column 2 "created"; int_column 3 "modified"];
     primary_key_index := id_index; secondary_index := [name_index] |}.
Definition meta_db_table : Table :=
  {| table_id := 2; table_name := "meta_db_table"; table_db := meta_database;
     columns := [int_column 0 "id"; string_column 1 "name"; int_column 2 "created"; int_column 3 "modified";
                 string_column 4 "serialized_table_str"; int_column 5 "max_id_num"];
     primary_key_index := id_index; secondary_index := [name_index] |}.

(** The two tables as read from their files; each is registered in turn. *)
Definition bootstrap (metaDbSchema metaTableSchema : option Table) : M SchemaStore bool :=
  match metaDbSchema, metaTableSchema with
  | Some db, Some tbl =>
      result ← registerTable (db_name (table_db db)) (table_name db) db;
      if result : bool then registerTable (db_name (table_db tbl)) (table_name tbl) tbl
      else mret false
  | _, _ => mret false
  end.

(** ** What the operations do *)

Section operations.
Context {D E T : Type} `{RocksDBLaws D, ArrowComputeLaws E T, HC : DbConvLaws}.
Context (table : Table) (Hok : table_ok table).
Abbreviation schema := (makeTableSchema table).
Abbreviation pk := (column_ids (primary_key_index table)).
Implicit Types (s : DbImpl (D := D)) (row : list ColumnValue) (rows : list (list ColumnValue)).

Definition set_rocks (d : D) s : DbImpl := mkDbImpl (schemaStore_ s) d (dbIds_ s) (tableIds_ s).

(** A database whose store of schemas has the table, and whose store the rows. *)
Record has_rows (dbName tableName : string) s rows : Prop := {
  rows_table : getTable dbName tableName (schemaStore_ s) = Some table;
  rows_held : holds table (rocks_ s) rows }.

Lemma find_schema_ok db tbl s rows :
  has_rows db tbl s rows → find_schema db tbl s = (Ret schema, s).
Proof. intros [Ht _]. unfold find_schema. mred. by rewrite Ht. Qed.

Lemma with_rocks_run {A} (m : M D A) s o d : m (rocks_ s) = (o, d) → with_rocks m s = (o, set_rocks d s).
Proof. intros E'. unfold with_rocks, zoom. by rewrite E'. Qed.
Lemma set_rocks_same s : set_rocks (rocks_ s) s = s.
Proof. by destruct s. Qed.

Lemma row_at_put row rows : row_at table (put_row table row rows) (row_key table row) = Some row.
Proof. unfold row_at, put_row. by rewrite filter_cons_True. Qed.

(** The rows as a response shows them. *)
Definition as_text rows : TableRows := (λ row, toString <$> row) <$> rows.

(** [addRow] on a table: when the key is free, the row is stored and is the
    response; when it is taken, the operation fails and changes nothing.  The
    request names the values of the columns in any order. *)
Theorem addRow_spec db tbl s rows row nvs :
  has_rows db tbl s rows → row_good table row → nvs ≡ₚ named_row table row →
  apart table (row :: rows) →
  let request := {| add_database_name := db; add_table_name := tbl; add_column_values := nvs |} in
  match row_at table rows (row_key table row) with
  | Some _ => addRow (T := T) request s = (Throw (RuntimeError "row already exists"), s)
  | None => ∃ s', addRow (T := T) request s = (Ret (as_text [row]), s') ∧ has_rows db tbl s' (row :: rows)
  end.
Proof.
  intros Hs Hrow Hp Hap request. unfold addRow. cbn [add_database_name add_table_name add_column_values request].
  mred. rewrite (find_schema_ok db tbl s rows) by done. rewrite (from_row_request_ok table Hok row) by done.
  destruct Hs as [Ht Hd]. destruct (row_at table rows (row_key table row)) as [row'|] eqn:Er.
  - rewrite (with_rocks_run _ s _ _ (insert_present (T := T) table Hok _ _ _ row' Hd Hrow Hap Er)).
    by rewrite set_rocks_same.
  - destruct (insert_absent (T := T) table Hok _ _ _ Hd Hrow Hap Er) as (d' & E1 & Hd').
    rewrite (with_rocks_run _ s _ _ E1).
    pose proof Hd' as Hput. rewrite put_row_absent in Hput by by apply row_at_None.
    assert (Hap2 : apart table (row :: row :: rows)).
    { eapply apart_sub; [exact Hap|]. intros r. rewrite !elem_of_cons. tauto. }
    rewrite (with_rocks_run _ (set_rocks d' s) _ d' (get_one (T := T) table Hok d' (row :: rows) row Hput Hrow Hap2)).
    rewrite <- (put_row_absent table row rows), row_at_put by by apply row_at_None. simpl option_list.
    rewrite (from_table_ok table Hok) by (repeat constructor; apply Hrow).
    eexists. split; [done|]. by split.
Qed.

(** [getRow] answers a list of keys with the stored rows that have them, in
    the order of the request; the request names the key columns, the first
    column of the table among them. *)
Theorem getRow_spec db tbl s rows qs nvss :
  has_rows db tbl s rows → Forall (row_ok (fields_of table)) qs → apart table (qs ++ rows) →
  Forall2 (names_value table) (mjoin nvss) (mjoin (key_pairs table <$> qs)) →
  (∃ c, ids_of table !! 0%nat = Some c ∧ c ∈ pk) →
  getRow (T := T) {| get_database_name := db; get_table_name := tbl; primary_key_values := nvss |} s =
    (Ret (as_text (omap (λ q, row_at table rows (row_key table q)) qs)), s).
Proof.
  intros Hs Hqs Hap Hn Hfirst. unfold getRow. cbn [get_database_name get_table_name primary_key_values]. mred.
  rewrite (find_schema_ok db tbl s rows) by done.
  destruct (from_GetRowRequest_ok (T := T) table Hok nvss qs Hqs Hn Hfirst) as (arrays & -> & Ha).
  destruct Hs as [Ht [Hh Hd Hnd Hgood]].
  rewrite (with_rocks_run _ s _ _ (get_stored (T := T) table Hok _ rows qs arrays Hd Hnd Hap Hgood Hqs Ha)).
  rewrite set_rocks_same, (from_table_ok table Hok); [done|].
  apply (rows_good_ok table), Forall_forall. intros r (q & Hq & Er)%list_elem_of_omap.
  apply row_at_Some in Er as [Hin _]. by eapply Forall_forall in Hgood.
Qed.

(** ** Updates *)

(** The rows an update looks at: those that satisfy the condition and are not
    locked. *)
Definition candidates (c : Condition) rows : list (list ColumnValue) :=
  filter (λ row, satisfies (fields_of table) row (addConditionToCheckWriteLock c) = true) rows.

Lemma query_rows s rows c :
  holds table (rocks_ s) rows → apart table rows → by_key table rows → no_weird (rocks_ s) →
  Z.of_nat (length rows) <= MAX_ROWS → supported (fields_of table) c = true →
  ∃ t : T, query E schema [] c s = (Ret t, s) ∧
    at_rows t = filter (λ row, satisfies (fields_of table) row c = true) rows.
Proof.
  intros Hd Hap Hby Hw Hlen Hc.
  destruct (run_query_selects (E := E) (T := T) table Hok (rocks_ s) rows
    {| operation := TableScan; plan_schema := schema; outputColumns := []; plan_condition := c |})
    as (t & E1 & _ & Er); [done..|].
  exists t. split; [|done]. unfold run_query in E1. apply bind_inv_Ret in E1 as (x & d1 & Ep & Ex).
  injection Ex as Ex ->. unfold query. mred. rewrite (with_rocks_run _ s _ _ Ep), set_rocks_same. by rewrite Ex.
Qed.

(** C24: [updateRow] does not look at the row it writes.  On a table of at most
    100000 rows, which are apart from each other and from the new one (no key
    of a row is a prefix of a key of another row, unlike ids 1 and 10), in a
    database that reports no errors and for a condition that is [supported]
    (integer comparisons and string equality), it fails when no row of the
    table satisfies the condition without being locked, and otherwise writes
    its row, whichever key that has and whether or not the stored row with this
    key satisfies the condition or is locked. *)
Theorem updateRow_spec db tbl s rows row nvs c o :
  has_rows db tbl s rows → row_good table row → nvs ≡ₚ named_row table row →
  apart table (row :: rows) → by_key table rows → no_weird (rocks_ s) →
  Z.of_nat (length rows) <= MAX_ROWS →
  supported (fields_of table) (addConditionToCheckWriteLock c) = true → o ≠ UPDATE_UNKNOWN →
  let request := {| update_database_name := db; update_table_name := tbl; update_column_values := nvs;
                    update_type := o; update_condition := c |} in
  match candidates c rows with
  | [] => updateRow E (T := T) request s = (Throw (makeDbError UPDATE_CONDITION_FAILED), s)
  | _ => ∃ s', updateRow E (T := T) request s = (Ret (), s') ∧
           has_rows db tbl s' (put_row table row rows)
  end.
Proof.
  intros Hs Hrow Hp Hap Hby Hw Hlen Hc Ho request. unfold updateRow.
  cbn [update_database_name update_table_name update_column_values update_type update_condition request].
  mred. rewrite (find_schema_ok db tbl s rows) by done. destruct Hs as [Ht Hd].
  destruct (query_rows s rows (addConditionToCheckWriteLock c)) as (t & -> & Er); [done| |done..|].
  { eapply apart_sub; [exact Hap|set_solver]. }
  rewrite at_num_rows_rows, Er. fold (candidates c rows).
  destruct (candidates c rows) as [|x l]; [done|]. simpl.
  rewrite (from_row_request_ok table Hok row) by done.
  assert (Hgo : ∀ opt, ∃ s', with_rocks (update schema (table_of (T := T) table [row]) opt) s = (Ret (), s') ∧
    has_rows db tbl s' (put_row table row rows)).
  { intros opt. destruct (update_puts (T := T) table Hok _ _ _ opt Hd Hrow Hap) as (d' & E1 & Hd').
    eexists. split; [apply (with_rocks_run _ s _ _ E1)|]. done. }
  destruct o; [exact (Hgo REPLACE)|exact (Hgo MERGE)|done].
Qed.
End operations.

(** ** Several operations at once *)

Section several.
Context {D E T : Type} `{RocksDBLaws D, ArrowComputeLaws E T, HC : DbConvLaws}.
Context (table : Table) (Hok : table_ok table).
Implicit Types (s : DbImpl (D := D)) (row : list ColumnValue) (rows : list (list ColumnValue)).

(** An operation on several tables is not atomic: when one of its requests
    fails, those before it stay done.  Adding the same row twice fails, and the
    row is stored. *)
Theorem multiTableOperation_not_atomic db tbl s rows row nvs :
  has_rows table db tbl s rows → row_good table row → nvs ≡ₚ named_row table row →
  apart table (row :: rows) → row_at table rows (row_key table row) = None →
  let request := SingleAdd {| add_database_name := db; add_table_name := tbl; add_column_values := nvs |} in
  ∃ s', multiTableOperation E (T := T) [request; request] s = (Throw (RuntimeError "row already exists"), s') ∧
    has_rows table db tbl s' (row :: rows).
Proof.
  intros Hs Hrow Hp Hap Hn request. pose proof (addRow_spec (T := T) table Hok db tbl s rows row nvs Hs Hrow Hp Hap) as H1'.
  cbv zeta in H1'. rewrite Hn in H1'. destruct H1' as (s1 & E1 & Hs1).
  pose proof (addRow_spec (T := T) table Hok db tbl s1 (row :: rows) row nvs Hs1 Hrow Hp) as H2'.
  cbv zeta in H2'. rewrite <- (put_row_absent table row rows), row_at_put in H2' by by apply row_at_None.
  exists s1. split; [|done]. unfold multiTableOperation, request. mred. rewrite E1, H2'; [done|].
  rewrite put_row_absent by by apply row_at_None.
  eapply apart_sub; [exact Hap|]. intros r. rewrite !elem_of_cons. tauto.
Qed.
End several.

(** ** The tables of the database itself *)

Lemma meta_db_ok : table_ok meta_db.
Proof.
  split; [split|..].
  - done.
  - done.
  - split_and!; [done|repeat constructor|done].
  - done.
  - intros i ->%list_elem_of_singleton. split_and!; [|done..]. split_and!; [done|repeat constructor|done].
  - repeat constructor; lia.
  - apply (bool_decide_unpack _). vm_compute. exact I.
  - repeat constructor.
  - reflexivity.
  - apply (bool_decide_unpack _). vm_compute. exact I.
  - intros i ->%list_elem_of_singleton. reflexivity.
Qed.

(** The row of a database. *)
Definition database_row (dbId seconds : Z) (name : string) : list ColumnValue :=
  [IntValue dbId; StringValue name; IntValue seconds; IntValue seconds].

Lemma database_row_good dbId seconds name :
  in_u32 dbId = true → in_i64 seconds = true → token_ok name → row_good meta_db (database_row dbId seconds name).
Proof.
  intros Hid%bool_decide_eq_true Hs Hname. split.
  - repeat constructor.
  - repeat constructor; try done. apply in_i64_spec. unfold i64_min, i64_max. lia.
  - intros c v Hin _. simpl in Hin. rewrite !elem_of_cons, elem_of_nil in Hin.
    destruct Hin as [[= -> ->]|[[= -> ->]|[[= -> ->]|[[= -> ->]|[]]]]]; [apply IntValue_ok|exact Hname|apply IntValue_ok..].
Qed.

Section metadata.
Context {D T : Type} `{RocksDBLaws D, ArrowTableLaws T, HC : DbConvLaws}.
Implicit Types (s : DbImpl (D := D)) (rows : list (list ColumnValue)).
Abbreviation has_databases := (has_rows meta_db "meta" "meta_db").

Lemma from_AddDatabaseRequest_ok dbId seconds name :
  in_u32 dbId = true → in_i64 seconds = true → token_ok name →
  from_AddDatabaseRequest (T := T) name (makeTableSchema meta_db) dbId seconds =
    Ret (table_of meta_db [database_row dbId seconds name]).
Proof.
  intros Hid Hs Hname.
  apply (from_row_request_ok meta_db meta_db_ok (database_row dbId seconds name)); [by apply database_row_good|].
  done.
Qed.

(** [addDatabase] stores a row for the database before it looks whether the
    name is taken: with a name that is registered it fails, and the row of
    a second database of that name is stored all the same. *)
Theorem addDatabase_spec seconds name s rows :
  has_databases s rows → in_u32 (dbIds_ s) = true → in_i64 seconds = true → token_ok name →
  let row := database_row (dbIds_ s) seconds name in
  apart meta_db (row :: rows) → row_at meta_db rows (row_key meta_db row) = None →
  ∃ s', has_databases s' (row :: rows) ∧
    match getDatabase name (schemaStore_ s) with
    | Some _ =>
        addDatabase (T := T) seconds name s = (Throw (makeDbError DATABASE_ALREADY_EXISTS), s') ∧
        schemaStore_ s' = schemaStore_ s
    | None =>
        addDatabase (T := T) seconds name s = (Ret (), s') ∧
        getDatabase name (schemaStore_ s') = Some {| db_id := dbIds_ s; db_name := name |}
    end.
Proof.
  intros Hs Hid Hsec Hname row Hap Hn. unfold addDatabase, next_db_id. mred.
  rewrite (find_schema_ok meta_db "meta" "meta_db" s rows) by done.
  rewrite from_AddDatabaseRequest_ok by done. fold row. destruct Hs as [Ht Hd].
  set (s1 := mkDbImpl _ _ _ _).
  destruct (insert_absent (T := T) meta_db meta_db_ok _ _ row Hd (database_row_good _ _ _ Hid Hsec Hname) Hap Hn)
    as (d' & E1 & Hd').
  rewrite put_row_absent in Hd' by by apply row_at_None.
  rewrite (with_rocks_run _ s1 _ d' E1). unfold with_schemas, zoom, registerDb. simpl.
  unfold getDatabase. destruct (schemaStore_ s !! name) as [ds|] eqn:El; simpl.
  - eexists. split; [|split; reflexivity]. by split.
  - eexists. split; [|split; [reflexivity|]].
    + split; [|done]. simpl. unfold getTable in *. rewrite lookup_insert_ne; [done|]. intros ->.
      by rewrite El in Ht.
    + simpl. by rewrite lookup_insert_eq.
Qed.

(** The ids given to databases and tables are also those of the database's
    own tables: a second table, created in the second database, has the id of
    [meta_db] and so have its keys. *)
Theorem table_ids_collide seconds request s s' database :
  addTable (T := T) seconds request s = (Ret (), s') →
  getDatabase (client_db (add_table request)) (schemaStore_ s) = Some database →
  db_id database = 1 → tableIds_ s = 1 →
  ∃ t, getTable (client_db (add_table request)) (client_table_name (add_table request)) (schemaStore_ s') = Some t ∧
    ∀ i, minimumIndexKey t i = minimumIndexKey meta_db i.
Proof.
  intros E1 Hdb Hid Htid. unfold addTable in E1.
  apply bind_inv_Ret in E1 as (sch & s1 & Ef & E1).
  assert (s1 = s) as ->. { unfold find_schema in Ef. revert Ef. mred. destruct (getTable "meta" "meta_db_table" (schemaStore_ s)); congruence. }
  apply bind_inv_Ret in E1 as (odb & s1 & Eg & E1). unfold gets in Eg. injection Eg as <- <-.
  rewrite Hdb in E1. apply bind_inv_Ret in E1 as (ot & s1 & Eg & E1). unfold gets in Eg. injection Eg as Eg <-.
  destruct ot as [?|]; [done|].
  apply bind_inv_Ret in E1 as (tid & s1 & En & E1). unfold next_table_id in En. injection En as <- <-.
  apply bind_inv_Ret in E1 as (it & s1 & _ & E1). apply bind_inv_Ret in E1 as ([] & s2 & _ & E1).
  apply bind_inv_Ret in E1 as (t & s3 & Et & E1). unfold of_outcome in Et. injection Et as Et <-.
  apply bind_inv_Ret in E1 as (r & s4 & Er & E1). exists t. split.
  - assert (s4 = s' ∧ r = true) as [-> ->] by (destruct r; [by injection E1 as <-|done]).
    unfold with_schemas, zoom, registerTable in Er. destruct (getTable _ _ (schemaStore_ s2)) eqn:El; [done|].
    injection Er as <-. simpl. unfold getTable. rewrite lookup_insert_eq. simpl. by rewrite lookup_insert_eq.
  - intros i. unfold from_client_table in Et.
    destruct (number_columns _ _) as [cols| |]; try done. rewrite outcome_bind_Ret in Et.
    destruct (lookup_ids _ (primary_key_columns _)) as [ks| |]; try done. rewrite outcome_bind_Ret in Et.
    destruct (mapM _ _) as [idx| |]; try done. rewrite outcome_bind_Ret in Et. injection Et as <-.
    unfold minimumIndexKey. simpl. by rewrite Hid, Htid.
Qed.
End metadata.

(** ** Witnesses *)

Section db_witnesses.
#[local] Existing Instance decimal_db_conv.

Definition sample_schemas : SchemaStore :=
  (registerTable "app" "people" sample_table (registerDb "app" {| db_id := 3; db_name := "app" |} ∅).2).2.
Definition app_with (rows : list (list ColumnValue)) : DbImpl := makeDbImpl sample_schemas (db_of rows).

Lemma app_has_rows rows :
  holds (D := MemDB) sample_table (db_of rows) rows → has_rows sample_table "app" "people" (app_with rows) rows.
Proof. intros Hd. split; [vm_compute; reflexivity|exact Hd]. Qed.

Definition ann : list ColumnValue := person 4 "ann" 0.
Definition ann_values : list NamedValue :=
  [named "name" "ann"; named "id" "4"; named LOCK_MODE_NAME "0"].

Lemma ann_apart : apart sample_table (ann :: people).
Proof. apply apartb_ok. vm_compute. reflexivity. Qed.
Lemma ann_named : ann_values ≡ₚ named_row sample_table ann.
Proof. apply Permutation_swap. Qed.

Lemma addRow_spec_witness :
  ∃ s', addRow (T := MemTable)
      {| add_database_name := "app"; add_table_name := "people"; add_column_values := ann_values |} (app_with people) =
    (Ret [["4"; "ann"; "0"]%string], s') ∧ has_rows sample_table "app" "people" s' (ann :: people).
Proof.
  pose proof (addRow_spec (T := MemTable) sample_table sample_table_ok "app" "people" (app_with people) people ann ann_values
    (app_has_rows people people_stored) (person_ok 4 "ann" eq_refl ltac:(done)) ann_named ann_apart) as X.
  cbv zeta in X. replace (row_at sample_table people (row_key sample_table ann)) with (@None (list ColumnValue)) in X
    by (vm_compute; reflexivity). exact X.
Defined.

Lemma getRow_spec_witness :
  getRow (T := MemTable) {| get_database_name := "app"; get_table_name := "people";
      primary_key_values := [[named "id" "3"]; [named "id" "1"]] |} (app_with people) =
    (Ret [["3"; "cy"; "0"]; ["1"; "ann"; "0"]]%string, app_with people).
Proof.
  rewrite (getRow_spec (T := MemTable) sample_table sample_table_ok "app" "people" (app_with people) people
    [person 3 "x" 0; person 1 "x" 0]).
  - vm_compute. reflexivity.
  - apply (app_has_rows people people_stored).
  - repeat first [apply person_ok; done | apply Forall_nil_2 | apply Forall_cons_2].
  - apply apartb_ok. vm_compute. reflexivity.
  - simpl. repeat constructor; (eexists; split; [left|split_and!; reflexivity]).
  - exists 0. split; [reflexivity|left].
Defined.

(** Row 1 is locked, row 2 satisfies the condition: row 1 is overwritten. *)
Definition locked_people : list (list ColumnValue) := [person 1 "ann" 1; person 2 "bob" 0].
Definition id_is_2 : Condition := Unary (OnInt {| int_col_name := "id"; int_value := 2; int_op := INT_EQ |}).

Lemma locked_stored : holds (D := MemDB) sample_table (db_of locked_people) locked_people.
Proof.
  apply holds_db_of; [|apply person_good; done|vm_compute; reflexivity|vm_compute; reflexivity].
  apply holds_db_of; [|apply person_good; done|vm_compute; reflexivity|vm_compute; reflexivity].
  apply holds_empty.
Qed.
Lemma locked_not_weird : no_weird (db_of locked_people).
Proof.
  assert (Hb : forallb (λ e : string * string, negb (starts_with e.1 WEIRD)) (db_contents (db_of locked_people)) = true)
    by (vm_compute; reflexivity).
  intros e He%list_elem_of_In. by apply negb_true_iff, (proj1 (forallb_forall _ _) Hb).
Qed.

Lemma updateRow_spec_witness :
  ∃ s', updateRow MemExpr (T := MemTable) {| update_database_name := "app"; update_table_name := "people";
      update_column_values := [named "id" "1"; named "name" "eve"; named LOCK_MODE_NAME "0"];
      update_type := UPDATE_REPLACE; update_condition := id_is_2 |} (app_with locked_people) = (Ret (), s') ∧
    has_rows sample_table "app" "people" s' [person 1 "eve" 0; person 2 "bob" 0].
Proof.
  pose proof (updateRow_spec (E := MemExpr) (T := MemTable) sample_table sample_table_ok "app" "people"
    (app_with locked_people) locked_people (person 1 "eve" 0)
    [named "id" "1"; named "name" "eve"; named LOCK_MODE_NAME "0"] id_is_2 UPDATE_REPLACE
    (app_has_rows locked_people locked_stored) (person_ok 1 "eve" eq_refl ltac:(done)) ltac:(reflexivity)
    ltac:(apply apartb_ok; vm_compute; reflexivity)
    ltac:(repeat constructor; apply (bool_decide_unpack _); vm_compute; exact I)
    locked_not_weird ltac:(vm_compute; discriminate) ltac:(vm_compute; reflexivity) ltac:(discriminate)) as X.
  cbv zeta in X. replace (candidates sample_table id_is_2 locked_people) with [person 2 "bob" 0] in X
    by (vm_compute; reflexivity).
  replace (put_row sample_table (person 1 "eve" 0) locked_people) with [person 1 "eve" 0; person 2 "bob" 0] in X
    by (vm_compute; reflexivity). exact X.
Defined.

Lemma multiTableOperation_not_atomic_witness :
  ∃ s', multiTableOperation MemExpr (T := MemTable)
      [SingleAdd {| add_database_name := "app"; add_table_name := "people"; add_column_values := ann_values |};
       SingleAdd {| add_database_name := "app"; add_table_name := "people"; add_column_values := ann_values |}]
      (app_with people) = (Throw (RuntimeError "row already exists"), s') ∧
    has_rows sample_table "app" "people" s' (ann :: people).
Proof.
  apply (multiTableOperation_not_atomic (E := MemExpr) (T := MemTable) sample_table sample_table_ok "app" "people"
    (app_with people) people ann ann_values).
  - apply (app_has_rows people people_stored).
  - apply person_ok; done.
  - apply ann_named.
  - apply ann_apart.
  - vm_compute. reflexivity.
Defined.

(** A new database, and one with the databases "a" and "b". *)
Definition fresh_db : DbImpl :=
  makeDbImpl (bootstrap (Some meta_db) (Some meta_db_table) ∅).2 empty_db.
Definition db_a : DbImpl := (addDatabase (T := MemTable) 100 "a" fresh_db).2.
Definition db_ab : DbImpl := (addDatabase (T := MemTable) 101 "b" db_a).2.
Definition table_request (db : string) : AddTableRequest :=
  {| add_table := {| client_table_name := "t"; client_db := db;
       client_columns := [{| client_column_name := "id"; client_column_type := CLIENT_INT64 |}];
       primary_key_columns := ["id"%string]; client_secondary_index := [] |};
     add_table_serialized := "..." |}.
Definition db_one_table : DbImpl := (addTable (T := MemTable) 102 (table_request "a") db_ab).2.

Lemma addDatabase_spec_witness :
  ∃ s', has_rows meta_db "meta" "meta_db" s' [database_row 0 100 "meta"] ∧
    addDatabase (T := MemTable) 100 "meta" fresh_db = (Throw (makeDbError DATABASE_ALREADY_EXISTS), s').
Proof.
  destruct (addDatabase_spec (T := MemTable) 100 "meta" fresh_db []) as (s' & Hr & E1).
  - split; [vm_compute; reflexivity|apply holds_empty].
  - reflexivity.
  - reflexivity.
  - discriminate.
  - apply apartb_ok. vm_compute. reflexivity.
  - reflexivity.
  - exists s'. split; [exact Hr|].
    replace (getDatabase "meta" (schemaStore_ fresh_db)) with (Some default_Database) in E1 by (vm_compute; reflexivity).
    exact (proj1 E1).
Defined.

Lemma table_ids_collide_witness :
  ∃ s' t, addTable (T := MemTable) 103 (table_request "b") db_one_table = (Ret (), s') ∧
    getTable "b" "t" (schemaStore_ s') = Some t ∧ minimumIndexKey t 0 = minimumIndexKey meta_db 0.
Proof.
  destruct (addTable (T := MemTable) 103 (table_request "b") db_one_table) as [o s'] eqn:E1.
  assert (o = Ret ()) as ->.
  { replace o with (addTable (T := MemTable) 103 (table_request "b") db_one_table).1 by (rewrite E1; reflexivity).
    vm_compute. reflexivity. }
  destruct (table_ids_collide (T := MemTable) 103 (table_request "b") db_one_table s' {| db_id := 1; db_name := "b" |} E1)
    as (t & Ht & Hm).
  - vm_compute. reflexivity.
  - reflexivity.
  - vm_compute. reflexivity.
  - exists s', t. split; [reflexivity|]. split; [exact Ht|apply Hm].
Defined.
End db_witnesses.
