(* ===== verification/Partitions.v ===== *)
(** * The database: partitions and two-phase commit

    [src/applications/mydb/backend/]: [PartitionMap.h] and
    [transaction/TwoPhaseCommit.cc].  Both are unfinished: a table that is added
    to a partition is not found there, and no step of a commit is implemented.
    What would use them, [transaction/TxnCoordinator.cc] and [TxnManager.cc],
    names types and fields that do not exist, and is not modelled. *)

From stdpp Require Import base list strings.
From S2P Require Import Prelude.

(** ** [PartitionMap] *)

Record PartitionMap := mkPartitionMap { lookup_ : ordmap string string }.
Definition makePartitionMap : PartitionMap := mkPartitionMap [].

Definition addTableToPartition (shardId tableName : string) : M PartitionMap bool := λ s,
  match om_find tableName (lookup_ s) with
  | Some _ => (Ret false, s)
  | None => (Ret true, s)
  end.
Definition getPartition (tableName : string) : M PartitionMap (option string) :=
  gets (λ s, om_find tableName (lookup_ s)).

(** Any calls of a map. *)
Inductive partition_call := AddTable (shardId tableName : string) | GetPartition (tableName : string).
Definition run_call (c : partition_call) : M PartitionMap () :=
  match c with
  | AddTable shardId tableName => _ ← addTableToPartition shardId tableName; mret ()
  | GetPartition tableName => _ ← getPartition tableName; mret ()
  end.
Fixpoint run_calls (cs : list partition_call) : M PartitionMap () :=
  match cs with [] => mret () | c :: cs' => _ ← run_call c; run_calls cs' end.

(** ** [TwoPhaseCommit] *)

Inductive AbortOrCommitResult := Abort_ | Commit_.
Record TwoPhaseCommit (Transaction TxnManager : Type) := mkTwoPhaseCommit {
  txnId_ : string;
  transaction_ : Transaction;
  txnManager_ : TxnManager }.

Section commit.
Context {Transaction TxnManager : Type} (id : Transaction → string).
Abbreviation St := (TwoPhaseCommit Transaction TxnManager).
Definition makeTwoPhaseCommit (transaction : Transaction) (txnManager : TxnManager) : St :=
  {| txnId_ := id transaction; transaction_ := transaction; txnManager_ := txnManager |}.
Definition prepare : M St () := throw (RuntimeError "METHOD_NOT_IMPLEMENTED").
Definition commit : M St () := throw (RuntimeError "METHOD_NOT_IMPLEMENTED").
Definition abort : M St () := throw (RuntimeError "METHOD_NOT_IMPLEMENTED").
Definition abortOrCommit : M St AbortOrCommitResult := throw (RuntimeError "METHOD_NOT_IMPLEMENTED").
Definition getTxn : M St Transaction := throw (RuntimeError "METHOD_NOT_IMPLEMENTED").
End commit.

(** ** What is missing *)

Lemma run_calls_empty cs : run_calls cs makePartitionMap = (Ret (), makePartitionMap).
Proof. induction cs as [|[]? IH]; [done|exact IH..]. Qed.

(** Whatever was added before, a table is added again and again with success,
    and its partition is not found. *)
Theorem partitions_are_forgotten cs shardId tableName :
  let '(_, s) := run_calls cs makePartitionMap in
  (addTableToPartition shardId tableName s).1 = Ret true ∧
  (_ ← addTableToPartition shardId tableName; getPartition tableName) s = (Ret None, s).
Proof. by rewrite run_calls_empty. Qed.
