(* ===== verification/Deadlock.v ===== *)
(** * The database: deadlock detection

    [src/applications/mydb/experimental/]: resources with locks and the
    transactions that wait for them ([Models.h], [WaitForGraph.cc]), and the
    search for a cycle among the transactions ([Dfs.cc]).  Transactions are
    shared objects: a heap keeps them by address. *)

From stdpp Require Import base gmap sets list strings sorting.
From Stdlib Require Import ZArith Lia.
From S2P Require Import Prelude Schema.

Open Scope Z_scope.

(** ** Models *)

Inductive LockMode := LOCK_NONE | LOCK_READ | LOCK_WRITE.
#[export] Instance LockMode_eq_dec : EqDecision LockMode.
Proof. solve_decision. Defined.

Record Element := { element_name : string; lockModeRequired : LockMode }.

Record Resource := mkResource {
  lockMode : LockMode;
  writersWaitingCount : Z;
  txnsQ : ordmap string () }.
Definition isWriterAwaiting (r : Resource) : bool := 0 <? writersWaitingCount r.

Abbreviation addr := nat.
(** The elements are a set ordered by name, the first of a name being kept. *)
Record Transaction := mkTransaction {
  id : string;
  elements : ordmap string LockMode;
  waitedBy : option addr }.

Record WaitForGraph := mkGraph {
  resources : gmap string Resource;      (* ResourceManager::lookup_ *)
  txnLookup : gmap string addr;          (* TransactionManager::lookup_ *)
  heap : gmap addr Transaction }.

Definition deref (a : addr) : M WaitForGraph Transaction := λ g,
  match heap g !! a with Some t => (Ret t, g) | None => (Throw NullPointer, g) end.
Definition set_txn (a : addr) (t : Transaction) : M WaitForGraph () := λ g,
  (Ret (), mkGraph (resources g) (txnLookup g) (<[a := t]> (heap g))).

Definition registerResource (resourceName : string) : M WaitForGraph bool := λ g,
  match resources g !! resourceName with
  | Some _ => (Ret false, g)
  | None => (Ret true, mkGraph (<[resourceName := mkResource LOCK_NONE 0 []]> (resources g)) (txnLookup g) (heap g))
  end.
Definition getResource (resourceName : string) (g : WaitForGraph) : option Resource :=
  resources g !! resourceName.
Definition set_resource (resourceName : string) (r : Resource) : M WaitForGraph () := λ g,
  (Ret (), mkGraph (<[resourceName := r]> (resources g)) (txnLookup g) (heap g)).

Definition getTransaction (txnId : string) (g : WaitForGraph) : option addr := txnLookup g !! txnId.
(** [TransactionManager::add] *)
Definition add_transaction (a : addr) : M WaitForGraph bool :=
  t ← deref a;
  g ← get;
  match txnLookup g !! id t with
  | Some _ => mret false
  | None =>
      _ ← put (mkGraph (resources g) (<[id t := a]> (txnLookup g)) (heap g));
      mret true
  end.

(** ** WaitForGraph *)

Fixpoint getNewlyAddedResource (txn : addr) (requested : list Element) : M WaitForGraph (list Element) :=
  match requested with
  | [] => mret []
  | e :: requested' =>
      t ← deref txn;
      let '(inserted, es) := om_emplace (element_name e) (lockModeRequired e) (elements t) in
      if inserted : bool then
        _ ← set_txn txn (mkTransaction (id t) es (waitedBy t));
        output ← getNewlyAddedResource txn requested';
        mret (e :: output)
      else getNewlyAddedResource txn requested'
  end.

Definition getOrAddResource (element : Element) : M WaitForGraph Resource :=
  r ← gets (getResource (element_name element));
  match r with
  | Some r => mret r
  | None =>
      _ ← registerResource (element_name element);
      r ← gets (getResource (element_name element));
      match r with Some r => mret r | None => throw AssertFailure end
  end.

(** The first transaction of the queue that no one waits for. *)
Fixpoint first_not_waited (queue : list string) : M WaitForGraph (option addr) :=
  match queue with
  | [] => mret None
  | txnId :: queue' =>
      a ← gets (getTransaction txnId);
      match a with
      | None => throw AssertFailure
      | Some a =>
          t ← deref a;
          match waitedBy t with
          | None => mret (Some a)
          | Some _ => first_not_waited queue'
          end
      end
  end.
Definition getTransactionToWaitFor (element : Element) : M WaitForGraph (option addr) :=
  resource ← getOrAddResource element;
  first_not_waited (txnsQ resource).*1.

(** The body of the loop of [add]. *)
Definition add_element (txn : addr) (txnId : string) (element : Element) : M WaitForGraph () :=
  resource ← getOrAddResource element;
  mode ←
    (if decide (lockMode resource = LOCK_NONE) then mret (lockModeRequired element)
     else if bool_decide (lockMode resource = LOCK_READ) && negb (isWriterAwaiting resource) then mret LOCK_READ
     else
       waitFor ← getTransactionToWaitFor element;
       match waitFor with
       | None => throw AssertFailure
       | Some a =>
           t ← deref a;
           _ ← set_txn a (mkTransaction (id t) (elements t) (Some txn));
           mret (lockMode resource)
       end);
  set_resource (element_name element)
    (mkResource mode
       (match lockModeRequired element with
        | LOCK_WRITE => wrap32 (writersWaitingCount resource + 1)
        | _ => writersWaitingCount resource
        end)
       (om_emplace txnId () (txnsQ resource)).2).

Definition add (txn : addr) (requested : list Element) : M WaitForGraph () :=
  transaction ← deref txn;
  new ← getNewlyAddedResource txn requested;
  for_each new (add_element txn (id transaction)).

(** ** Dfs *)

Inductive Color := Black | Gray.
#[export] Instance Color_eq_dec : EqDecision Color.
Proof. solve_decision. Defined.

Record Dfs := mkDfs { colorLookup_ : gmap string Color; cycle_ : list addr }.
Definition set_color (txnId : string) (c : Color) : M Dfs () := λ s,
  (Ret (), mkDfs (<[txnId := c]> (colorLookup_ s)) (cycle_ s)).

Section dfs.
Context (h : gmap addr Transaction).

Definition the (a : addr) : M Dfs Transaction := λ s,
  match h !! a with Some t => (Ret t, s) | None => (Throw NullPointer, s) end.

(** [getCycle(cycleFound, txn, cycle)]: the result is [cycleFound] and
    [cycle], which the code passes by reference. *)
Fixpoint search (fuel : nat) (cycleFound : bool) (txn : addr) (cycle : list addr) : M Dfs (bool * list addr) :=
  match fuel with
  | O => block
  | S fuel' =>
      t ← the txn;
      _ ← check (negb (bool_decide (id t = ""%string)));
      if cycleFound then mret (cycleFound, cycle)
      else
        color ← gets (λ s, default Gray (colorLookup_ s !! id t));
        _ ← set_color (id t) color;
        if decide (color = Black) then mret (cycleFound, cycle)
        else
          match waitedBy t with
          | None => _ ← set_color (id t) Black; mret (cycleFound, cycle)
          | Some waitingFor =>
              let cycle := cycle ++ [waitingFor] in
              w ← the waitingFor;
              found ← gets (λ s, bool_decide (colorLookup_ s !! id w = Some Gray));
              if found : bool then
                _ ← modify (λ s, mkDfs (colorLookup_ s) cycle);
                mret (true, cycle)
              else
                r ← search fuel' cycleFound waitingFor cycle;
                _ ← set_color (id t) Black;
                mret (r.1, removelast r.2)
          end
  end.

(** As many calls as there are transactions, and one more, are enough. *)
Definition getCycle (txn_ : addr) : M Dfs (list addr) :=
  _ ← search (S (size h)) false txn_ [txn_];
  gets cycle_.
End dfs.

Definition makeDfs : Dfs := mkDfs ∅ [].

(** ** The search finds the cycles *)

Section search.
Context (h : gmap addr Transaction).

(** Addresses of transactions are valid, and ids identify them. *)
Record heap_ok : Prop := {
  heap_closed a t w : h !! a = Some t → waitedBy t = Some w → is_Some (h !! w);
  heap_ids a t : h !! a = Some t → id t ≠ ""%string;
  heap_unique a b t u : h !! a = Some t → h !! b = Some u → id t = id u → a = b }.

(** The transaction that waits for a transaction, and the sequences of these. *)
Definition next (a : addr) : option addr := h !! a ≫= waitedBy.
Definition walk (l : list addr) : Prop :=
  ∀ i a b, l !! i = Some a → l !! S i = Some b → next a = Some b.
Definition ends (a : addr) : Prop := ∃ n, Nat.iter n (λ o, o ≫= next) (Some a) = None.

Lemma iter_none n : Nat.iter n (λ o, o ≫= next) None = None.
Proof. induction n as [|n IH]; [done|]. simpl. by rewrite IH. Qed.
Lemma iter_succ n o : Nat.iter (S n) (λ o, o ≫= next) o = Nat.iter n (λ o, o ≫= next) (o ≫= next).
Proof. apply Nat.iter_succ_r. Qed.

Lemma ends_next a b : next a = Some b → ends a ↔ ends b.
Proof.
  intros Hn. split; intros [n Hn'].
  - destruct n as [|n]; [done|]. exists n. rewrite iter_succ in Hn'. simpl in Hn'. by rewrite Hn in Hn'.
  - exists (S n). rewrite iter_succ. simpl. by rewrite Hn.
Qed.

Lemma walk_snoc l a b : last l = Some a → next a = Some b → walk l → walk (l ++ [b]).
Proof.
  intros Hl Hn Hw i x y Hx Hy. destruct (decide (S i < length l)%nat) as [Hi|Hi].
  - rewrite lookup_app_l in Hx, Hy by lia. by apply (Hw i).
  - rewrite lookup_app_r in Hy by lia. apply list_lookup_singleton_Some in Hy as [Hi' <-].
    rewrite lookup_app_l in Hx by lia. rewrite last_lookup in Hl.
    replace (Init.Nat.pred (length l)) with i in Hl by lia. congruence.
Qed.

(** A walk that comes back never ends. *)
Definition loop (c : list addr) : Prop := ∃ c0 b, c = c0 ++ [b] ∧ walk c ∧ NoDup c0 ∧ b ∈ c0.

Lemma loop_never_ends c a : loop c → a ∈ c → ¬ ends a.
Proof.
  intros (c0 & b & -> & Hw & Hnd & Hb).
  assert (Hstep : ∀ x, x ∈ c0 → ∃ y, next x = Some y ∧ y ∈ c0).
  { intros x [i Hi]%list_elem_of_lookup. destruct (c0 !! S i) as [y|] eqn:Ey.
    - exists y. split; [|by eapply list_elem_of_lookup_2].
      apply (Hw i); rewrite lookup_app_l; [done|by eapply lookup_lt_Some|done|by eapply lookup_lt_Some].
    - exists b. split; [|done]. apply lookup_ge_None in Ey. pose proof (lookup_lt_Some _ _ _ Hi) as Hlt.
      apply (Hw i); [by rewrite lookup_app_l|].
      rewrite lookup_app_r by lia. by replace (S i - length c0)%nat with 0%nat by lia. }
  intros Ha [n Hn]. assert (Ha0 : a ∈ c0) by (apply elem_of_app in Ha as [?| ->%list_elem_of_singleton]; done).
  clear Ha. revert a Ha0 Hn. induction n as [|n IH]; intros a Ha Hn; [done|].
  destruct (Hstep a Ha) as (y & Ey & Hy). rewrite iter_succ in Hn. simpl in Hn. rewrite Ey in Hn. by apply (IH y).
Qed.

Context (Hok : heap_ok).

(** The colors while the walk [q] is being extended. *)
Definition colored (q : list addr) (s : Dfs) : Prop :=
  ∀ a t, h !! a = Some t → colorLookup_ s !! id t = if decide (a ∈ q) then Some Gray else None.

Lemma colored_snoc q a t s :
  colored q s → h !! a = Some t → colored (q ++ [a]) (mkDfs (<[id t := Gray]> (colorLookup_ s)) (cycle_ s)).
Proof.
  intros Hc Ha b u Hb. simpl. destruct (decide (b = a)) as [->|Hne].
  - rewrite Ha in Hb. injection Hb as <-. rewrite lookup_insert_eq, decide_True by set_solver. done.
  - rewrite lookup_insert_ne by (intros E; by apply Hne, (heap_unique Hok b a u t)).
    rewrite (Hc b u) by done. destruct (decide (b ∈ q)); [by rewrite decide_True by set_solver|].
    by rewrite decide_False by set_solver.
Qed.

Lemma walk_bound (l : list addr) : NoDup l → (∀ a, a ∈ l → is_Some (h !! a)) → (length l ≤ size h)%nat.
Proof.
  intros Hnd Hin. rewrite <- size_dom. rewrite <- (size_list_to_set (C := gset addr)) by done.
  apply subseteq_size. intros a Ha%elem_of_list_to_set. by apply elem_of_dom, Hin.
Qed.

Lemma search_spec fuel txn q s :
  walk (q ++ [txn]) → NoDup (q ++ [txn]) → (∀ a, a ∈ q ++ [txn] → is_Some (h !! a)) → colored q s →
  (size h < fuel + length q)%nat →
  (∃ c s', search h fuel false txn (q ++ [txn]) s = (Ret (true, c), s') ∧
     loop (cycle_ s') ∧ (q ++ [txn]) `prefix_of` cycle_ s') ∨
  (∃ s', search h fuel false txn (q ++ [txn]) s = (Ret (false, q ++ [txn]), s') ∧
     cycle_ s' = cycle_ s ∧ ends txn).
Proof.
  revert txn q s. induction fuel as [|fuel IH]; intros txn q s Hw Hnd Hin Hc Hf.
  { pose proof (walk_bound _ Hnd Hin) as Hlen. rewrite length_app in Hlen. simpl in *. lia. }
  destruct (Hin txn) as [t Ht]; [set_solver|]. cbn [search]. unfold the, set_color. mred. rewrite Ht.
  rewrite bool_decide_false by by apply (heap_ids Hok txn t). simpl.
  assert (Hq : txn ∉ q) by (apply NoDup_app in Hnd as (_ & Hq & _); intros ?; by apply (Hq txn); [|left]).
  rewrite (Hc txn t) by done. rewrite (decide_False (P := txn ∈ q)) by done. simpl.
  assert (Hlast : last (q ++ [txn]) = Some txn) by by rewrite last_snoc.
  destruct (waitedBy t) as [w|] eqn:Ew.
  - assert (Hn : next txn = Some w) by (unfold next; by rewrite Ht).
    destruct (heap_closed Hok txn t w Ht Ew) as [u Hu]. rewrite Hu. simpl.
    pose proof (colored_snoc q txn t s Hc Ht) as Hc'. pose proof (Hc' w u Hu) as Hcw. simpl in Hcw. rewrite Hcw.
    assert (Hw' : walk ((q ++ [txn]) ++ [w])) by by apply (walk_snoc _ txn).
    destruct (decide (w ∈ q ++ [txn])) as [Hin'|Hin'].
    + left. rewrite bool_decide_true by done. eexists _, _. split; [done|]. simpl.
      split; [by exists (q ++ [txn]), w|by apply prefix_app_r].
    + rewrite bool_decide_false by done.
      destruct (IH w (q ++ [txn]) (mkDfs (<[id t := Gray]> (colorLookup_ s)) (cycle_ s)))
        as [(c & s' & -> & Hl & Hp)|(s' & -> & Hs & He)]; [done| | |done| | |].
      * apply NoDup_app. split_and!; [done|by intros ? ? ->%list_elem_of_singleton|by apply NoDup_singleton].
      * intros a [Ha| ->%list_elem_of_singleton]%elem_of_app; [by apply Hin|by eexists].
      * rewrite length_app. simpl. lia.
      * left. eexists _, _. split; [done|]. split; [done|]. simpl. etrans; [|exact Hp]. by apply prefix_app_r.
      * right. eexists. split; [simpl; by rewrite removelast_last|]. split; [done|]. by apply (ends_next _ _ Hn).
  - right. eexists. split; [done|]. split; [done|]. exists 1%nat. simpl. unfold next. by rewrite Ht.
Qed.

(** C22: the search for a cycle ends, and is right: it reports no cycle exactly
    when the chain of waiting transactions from the given one ends; what it
    reports otherwise is the chain up to the first transaction that comes
    back. *)
Theorem getCycle_finds_cycles txn :
  is_Some (h !! txn) →
  ∃ c s', getCycle h txn makeDfs = (Ret c, s') ∧ (c = [] ↔ ends txn) ∧
    (c ≠ [] → head c = Some txn ∧ loop c).
Proof.
  intros Ht. unfold getCycle. mred.
  destruct (search_spec (S (size h)) txn [] makeDfs) as [(c & s' & E & Hl & [k Hp])|(s' & E & Hs & He)].
  - intros i a b _ Hb. by destruct i.
  - apply NoDup_singleton.
  - intros a ->%list_elem_of_singleton. done.
  - intros a t _. done.
  - simpl. lia.
  - change ([] ++ [txn]) with [txn] in E. rewrite E. eexists _, s'. split; [done|]. rewrite Hp in Hl |- *.
    split; [|done]. split; [done|]. intros He. exfalso. eapply loop_never_ends; [exact Hl|left|exact He].
  - change ([] ++ [txn]) with [txn] in E. rewrite E. eexists _, s'. split; [done|]. rewrite Hs. by split.
Qed.
End search.

(** ** Waiting for resources *)

Section waiting.
Implicit Types (g : WaitForGraph) (t : Transaction).

(** The heap after a transaction took note of a new element. *)
Definition noted (txn : addr) (e : Element) t g : WaitForGraph :=
  mkGraph (resources g) (txnLookup g)
    (<[txn := mkTransaction (id t) (om_set (element_name e) (lockModeRequired e) (elements t)) (waitedBy t)]> (heap g)).

Lemma add_one txn e t g :
  heap g !! txn = Some t → om_find (element_name e) (elements t) = None →
  add txn [e] g = (match add_element txn (id t) e (noted txn e t g) with
                   | (Ret _, g') => (Ret (), g') | (Throw x, g') => (Throw x, g') | (Block, g') => (Block, g')
                   end).
Proof.
  intros Ht He. unfold add, deref. mred. rewrite Ht. cbn [getNewlyAddedResource].
  unfold deref, set_txn, om_emplace. mred. rewrite Ht, He. simpl.
  fold (noted txn e t g). cbn [for_each]. mred. by destruct (add_element _ _ _ _) as [[] ?].
Qed.

(** Who waits for whom is the same. *)
Definition same_waits g g' : Prop := ∀ a, waitedBy <$> heap g' !! a = waitedBy <$> heap g !! a.
Lemma noted_waits txn e t g : heap g !! txn = Some t → same_waits g (noted txn e t g).
Proof.
  intros Ht a. simpl. destruct (decide (txn = a)) as [<-|Hne].
  - by rewrite lookup_insert_eq, Ht.
  - by rewrite lookup_insert_ne.
Qed.

(** A writer joins the readers of a resource: when the resource is locked
    for reading and no writer is counted, a request to write is granted at
    once, no transaction waits, and the resource stays locked for reading. *)
Theorem writer_joins_readers txn name t r g :
  heap g !! txn = Some t → om_find name (elements t) = None →
  resources g !! name = Some r → lockMode r = LOCK_READ → isWriterAwaiting r = false →
  ∃ g', add txn [{| element_name := name; lockModeRequired := LOCK_WRITE |}] g = (Ret (), g') ∧
    same_waits g g' ∧
    ∃ r', resources g' !! name = Some r' ∧ lockMode r' = LOCK_READ ∧ id t ∈ (txnsQ r').*1.
Proof.
  intros Ht He Hr Hm Hw. rewrite (add_one _ _ t) by done.
  set (e := {| element_name := name; lockModeRequired := LOCK_WRITE |}).
  unfold add_element, getOrAddResource, getResource. mred. simpl. rewrite Hr, Hm, Hw. simpl.
  eexists. split; [done|]. split; [by apply (noted_waits txn e t g)|].
  eexists. split; [apply lookup_insert_eq|]. split; [done|]. simpl.
  destruct (om_emplace (id t) () (txnsQ r)) as [b q] eqn:Eq. simpl.
  apply om_emplace_spec in Eq as [(_ & -> & [x Hx])|(_ & -> & _)].
  - apply list_elem_of_fmap. exists (id t, x). split; [done|]. by apply om_find_Some_elem.
  - apply list_elem_of_fmap. exists (id t, ()). split; [done|]. apply om_find_Some_elem, om_find_set_eq.
Qed.

(** Every transaction of a queue is registered, and another one waits for it. *)
Definition all_waited g (queue : list string) : Prop :=
  Forall (λ q, ∃ a w, txnLookup g !! q = Some a ∧ waitedBy <$> heap g !! a = Some (Some w)) queue.

Lemma first_not_waited_none g queue : all_waited g queue → first_not_waited queue g = (Ret None, g).
Proof.
  induction 1 as [|q queue (a & w & Ha & Hw) _ IH]; [done|]. cbn [first_not_waited]. unfold getTransaction, deref. mred.
  rewrite Ha. destruct (heap g !! a) as [u|]; [|done]. simpl in Hw. injection Hw as Hw. by rewrite Hw.
Qed.

(** A transaction is waited for by at most one other: when every holder of
    a locked resource is waited for already, be it for another resource, the
    next request for the resource fails an assertion. *)
Theorem second_waiter_asserts txn name mode t r g :
  heap g !! txn = Some t → om_find name (elements t) = None →
  resources g !! name = Some r →
  lockMode r = LOCK_WRITE ∨ (lockMode r = LOCK_READ ∧ isWriterAwaiting r = true) →
  all_waited g (txnsQ r).*1 →
  (add txn [{| element_name := name; lockModeRequired := mode |}] g).1 = Throw AssertFailure.
Proof.
  intros Ht He Hr Hm Hw. rewrite (add_one _ _ t) by done.
  set (e := {| element_name := name; lockModeRequired := mode |}).
  assert (Hw' : all_waited (noted txn e t g) (txnsQ r).*1).
  { eapply Forall_impl; [exact Hw|]. intros q (a & w & Ha & Hwa). exists a, w. split; [done|].
    by rewrite (noted_waits txn e t g Ht a). }
  assert (Hres : resources (noted txn e t g) !! name = Some r) by done. revert Hw' Hres.
  generalize (noted txn e t g). intros g1 Hw' Hres.
  unfold add_element, getTransactionToWaitFor, getOrAddResource, getResource. mred. simpl. rewrite Hres.
  destruct Hm as [->|[-> Hwa]]; simpl.
  - rewrite Hres, first_not_waited_none by done. done.
  - rewrite Hwa. simpl. rewrite Hres, first_not_waited_none by done. done.
Qed.
End waiting.

(** ** Witnesses *)

Definition fresh_txn (name : string) : Transaction := mkTransaction name [] None.
Definition three_txns : WaitForGraph :=
  mkGraph ∅ (<["t1" := 1%nat]> (<["t2" := 2%nat]> (<["t3" := 3%nat]> ∅)))
    (<[1%nat := fresh_txn "t1"]> (<[2%nat := fresh_txn "t2"]> (<[3%nat := fresh_txn "t3"]> ∅))).
Definition wants (name : string) (mode : LockMode) : Element :=
  {| element_name := name; lockModeRequired := mode |}.

(** Transaction 1 writes a and b, and 2 waits for a. *)
Definition one_waits : WaitForGraph :=
  (add 2 [wants "a" LOCK_WRITE] (add 1 [wants "a" LOCK_WRITE; wants "b" LOCK_WRITE] three_txns).2).2.

Lemma second_waiter_asserts_witness :
  (add 3 [wants "b" LOCK_WRITE] one_waits).1 = Throw AssertFailure.
Proof.
  eapply (second_waiter_asserts 3 "b" LOCK_WRITE (fresh_txn "t3")
    (mkResource LOCK_WRITE 1 [("t1"%string, ())]) one_waits).
  - vm_compute. reflexivity.
  - reflexivity.
  - vm_compute. reflexivity.
  - left. reflexivity.
  - constructor; [|constructor]. exists 1%nat, 2%nat. split; vm_compute; reflexivity.
Defined.

Definition one_reads : WaitForGraph := (add 1 [wants "a" LOCK_READ] three_txns).2.
Lemma writer_joins_readers_witness :
  ∃ g', add 2 [wants "a" LOCK_WRITE] one_reads = (Ret (), g') ∧ same_waits one_reads g'.
Proof.
  destruct (writer_joins_readers 2 "a" (fresh_txn "t2") (mkResource LOCK_READ 0 [("t1"%string, ())]) one_reads)
    as (g' & E & Hs & _).
  - vm_compute. reflexivity.
  - reflexivity.
  - vm_compute. reflexivity.
  - reflexivity.
  - reflexivity.
  - exists g'. split; [exact E|exact Hs].
Defined.

(** Transactions 1 and 2 wait for each other; 3 is waited for by 1. *)
Definition deadlock_heap : gmap addr Transaction :=
  <[1%nat := mkTransaction "t1" [] (Some 2%nat)]> (<[2%nat := mkTransaction "t2" [] (Some 1%nat)]>
    (<[3%nat := mkTransaction "t3" [] (Some 1%nat)]> ∅)).
Lemma deadlock_heap_ok : heap_ok deadlock_heap.
Proof.
  assert (Hc : ∀ a t, deadlock_heap !! a = Some t →
    (a, t) = (1%nat, mkTransaction "t1" [] (Some 2%nat)) ∨ (a, t) = (2%nat, mkTransaction "t2" [] (Some 1%nat)) ∨
    (a, t) = (3%nat, mkTransaction "t3" [] (Some 1%nat))).
  { unfold deadlock_heap. intros a t Ha. rewrite !lookup_insert_Some, lookup_empty in Ha. naive_solver. }
  split.
  - intros a t w Ha. apply Hc in Ha as [[= -> ->]|[[= -> ->]|[= -> ->]]]; simpl; intros [= <-]; vm_compute; by eexists.
  - intros a t Ha. by apply Hc in Ha as [[= -> ->]|[[= -> ->]|[= -> ->]]].
  - intros a b t u Ha Hb. apply Hc in Ha, Hb. naive_solver.
Qed.

Lemma getCycle_finds_cycles_witness :
  ∃ c s', getCycle deadlock_heap 3 makeDfs = (Ret c, s') ∧ loop deadlock_heap c.
Proof.
  destruct (getCycle_finds_cycles deadlock_heap deadlock_heap_ok 3) as (c & s' & E & _ & Hc).
  - eexists. vm_compute. reflexivity.
  - exists c, s'. split; [exact E|]. apply Hc. intros ->. vm_compute in E. discriminate.
Defined.
