(* ===== verification/FlatMap.v ===== *)
(** * FlatMapSequential

    [src/log/utils/FlatMapSequential.h]: tasks that run at the same time and a
    generator that yields their results in the order in which the tasks were
    added.  A task is known by its number of arrival; it finishes at any time,
    with a value or by throwing, which breaks its promise.  The thread that
    calls [add], the tasks and the consumer of the generator take turns in any
    order: [action] lists their steps. *)

From stdpp Require Import base gmap list strings.
From Stdlib Require Import ZArith Lia.
From S2P Require Import Prelude.

Local Open Scope nat_scope.

Section flatmap.
Context {F T : Type}.

(** Where the coroutine of the generator is: before the wait for a list
    element, at the [co_await] of the one it took, or finished. *)
Inductive Generator :=
  | Looping
  | Awaiting (i : nat)
  | Ended (o : outcome ()).

Record FlatMapSequential := mkFlatMap {
  added : nat;
  tasks : gmap nat F;
  values : gmap nat (outcome T);
  list_ : list nat;
  drainAndStop_ : bool;
  generator : Generator }.

Definition makeFlatMapSequential : FlatMapSequential := mkFlatMap 0 ∅ ∅ [] false Looping.

Definition add (func : F) (s : FlatMapSequential) : FlatMapSequential :=
  mkFlatMap (S (added s)) (<[added s := func]> (tasks s)) (values s)
    (list_ s ++ [added s]) (drainAndStop_ s) (generator s).

(** The coroutine of task [i] ends: it sets the value of its promise, or
    destroys the promise with it. *)
Definition finish (i : nat) (o : outcome T) (s : FlatMapSequential)
    : option FlatMapSequential :=
  let completed p := Some (mkFlatMap (added s) (delete i (tasks s)) (<[i := p]> (values s))
    (list_ s) (drainAndStop_ s) (generator s)) in
  match tasks s !! i, o with
  | Some _, Ret v => completed (Ret v)
  | Some _, Throw _ => completed (Throw (RuntimeError "folly::BrokenPromise"))
  | _, _ => None
  end.

Definition stop (s : FlatMapSequential) : FlatMapSequential :=
  mkFlatMap (added s) (tasks s) (values s) (list_ s) true (generator s).

(** [getGenerator], up to its [co_await]; it waits while there is nothing to
    take. *)
Definition take_front (s : FlatMapSequential) : option FlatMapSequential :=
  match generator s, list_ s with
  | Looping, i :: l =>
      Some (mkFlatMap (added s) (tasks s) (values s) l (drainAndStop_ s) (Awaiting i))
  | Looping, [] =>
      if drainAndStop_ s
      then Some (mkFlatMap (added s) (tasks s) (values s) [] true (Ended (Ret ())))
      else None
  | _, _ => None
  end.

(** The [co_await] returns: the generator yields the value, or throws, after
    which it has ended. *)
Definition yield (s : FlatMapSequential) : option (outcome T * FlatMapSequential) :=
  match generator s with
  | Awaiting i =>
      match values s !! i with
      | Some (Ret v) =>
          Some (Ret v, mkFlatMap (added s) (tasks s) (values s) (list_ s) (drainAndStop_ s) Looping)
      | Some (Throw e) =>
          Some (Throw e, mkFlatMap (added s) (tasks s) (values s) (list_ s) (drainAndStop_ s)
                           (Ended (Throw e)))
      | _ => None
      end
  | _ => None
  end.

(** ** Runs *)

Inductive action :=
  | Add (func : F)
  | Finish (i : nat) (o : outcome T)
  | Stop
  | TakeFront
  | Yield.

(** A step, with what it yields. *)
Definition step (a : action) (s : FlatMapSequential)
    : option (list (outcome T) * FlatMapSequential) :=
  match a with
  | Add f => Some ([], add f s)
  | Finish i o => s' ← finish i o s; Some ([], s')
  | Stop => Some ([], stop s)
  | TakeFront => s' ← take_front s; Some ([], s')
  | Yield => '(o, s') ← yield s; Some ([o], s')
  end.

Fixpoint run (l : list action) (s : FlatMapSequential)
    : option (list (outcome T) * FlatMapSequential) :=
  match l with
  | [] => Some ([], s)
  | a :: l' =>
      '(ys, s1) ← step a s;
      '(ys', s2) ← run l' s1;
      Some (ys ++ ys', s2)
  end.

(** ** The invariant *)

(** The tasks whose results are still to come, and how many have come. *)
Definition pending (s : FlatMapSequential) : list nat :=
  match generator s with Awaiting i => i :: list_ s | _ => list_ s end.
Definition yielded (s : FlatMapSequential) : nat := added s - length (pending s).

Record flat_ok (s : FlatMapSequential) : Prop := {
  f_order : pending s = seq (yielded s) (added s - yielded s);
  f_tasks : ∀ i, is_Some (tasks s !! i) → i < added s ∧ values s !! i = None;
  f_values : ∀ i o, values s !! i = Some o → i < added s ∧ o ≠ Block;
  f_cover : ∀ i, i < added s → is_Some (tasks s !! i) ∨ is_Some (values s !! i) }.

Lemma flat_ok_make : flat_ok makeFlatMapSequential.
Proof.
  split; [done|..]; simpl; [intros i; rewrite lookup_empty; by intros []|done|lia].
Qed.

Lemma length_pending s : flat_ok s → yielded s + length (pending s) = added s.
Proof.
  intros Hs. pose proof (f_equal length (f_order s Hs)) as E.
  rewrite length_seq in E. unfold yielded in *. lia.
Qed.

Lemma yielded_add f s : flat_ok s → yielded (add f s) = yielded s.
Proof.
  intros Hs. pose proof (length_pending s Hs). unfold yielded, pending in *. simpl in *.
  destruct (generator s); simpl in *; rewrite ?length_app; simpl; lia.
Qed.

Lemma pending_add f s : pending (add f s) = pending s ++ [added s].
Proof. unfold pending. simpl. by destruct (generator s). Qed.

Lemma flat_ok_add f s : flat_ok s → flat_ok (add f s).
Proof.
  intros Hs. pose proof (length_pending s Hs). split.
  - rewrite yielded_add, pending_add, (f_order s Hs) by done. simpl.
    replace (S (added s) - yielded s) with (S (added s - yielded s)) by lia.
    rewrite seq_S. do 2 f_equal. lia.
  - simpl. intros i. rewrite lookup_insert. case_decide as E.
    + intros _. subst. split; [lia|]. destruct (values s !! added s) eqn:E; [|done].
      apply (f_values s Hs) in E. lia.
    + intros [??]%(f_tasks s Hs). split; [lia|done].
  - simpl. intros i o [??]%(f_values s Hs). split; [lia|done].
  - simpl. intros i Hi. rewrite lookup_insert. case_decide; [eauto|]. apply (f_cover s Hs). lia.
Qed.

Lemma finish_inv i o s s' :
  finish i o s = Some s' →
  ∃ f p, tasks s !! i = Some f ∧ p ≠ Block ∧
    (∀ v, p = Ret v → o = Ret v) ∧ (∀ v, o = Ret v → p = Ret v) ∧
    s' = mkFlatMap (added s) (delete i (tasks s)) (<[i := p]> (values s))
           (list_ s) (drainAndStop_ s) (generator s).
Proof.
  unfold finish. intros E. destruct (tasks s !! i) as [f|]; [|done].
  destruct o as [v|e|]; [| |done]; injection E as <-.
  - exists f, (Ret v). by split_and!.
  - exists f, (Throw (RuntimeError "folly::BrokenPromise")). by split_and!.
Qed.

Lemma flat_ok_finish i o s s' :
  flat_ok s → finish i o s = Some s' →
  flat_ok s' ∧ yielded s' = yielded s ∧ pending s' = pending s ∧ added s' = added s.
Proof.
  intros Hs (f & p & Ei & Hp & _ & _ & ->)%finish_inv. split_and!; [|done..].
  destruct (f_tasks s Hs i) as [Hi _]; [by rewrite Ei|]. split; simpl.
  - apply Hs.
  - intros k. rewrite lookup_delete_is_Some. intros [Hk Hk']. rewrite lookup_insert_ne by done.
    by apply (f_tasks s Hs).
  - intros k o'. rewrite lookup_insert. case_decide; [|apply (f_values s Hs)].
    intros [= <-]. by subst.
  - intros k Hk. rewrite lookup_insert, lookup_delete. case_decide; [eauto|].
    by apply (f_cover s Hs).
Qed.

Lemma flat_ok_take s s' :
  flat_ok s → take_front s = Some s' →
  flat_ok s' ∧ yielded s' = yielded s ∧ pending s' = pending s ∧ added s' = added s ∧
  tasks s' = tasks s ∧ values s' = values s.
Proof.
  intros Hs E. unfold take_front in E. destruct (generator s) eqn:Eg; [|done..].
  destruct (list_ s) as [|i l] eqn:El.
  - destruct (drainAndStop_ s); [|done]. injection E as <-.
    assert (Ep : pending s = []) by (unfold pending; by rewrite Eg).
    split_and!; simpl; try done; [|unfold yielded, pending; simpl; by rewrite Eg, El].
    split; simpl; try apply Hs. unfold yielded, pending. simpl. by rewrite Nat.sub_0_r, Nat.sub_diag.
  - injection E as <-.
    assert (Ep : pending s = i :: l) by (unfold pending; by rewrite Eg).
    split_and!; simpl; try done; [|unfold yielded, pending; simpl; by rewrite Eg, El].
    pose proof (f_order s Hs) as Eo. split; simpl; try apply Hs.
    unfold yielded in *. rewrite Ep in Eo. exact Eo.
Qed.

Lemma flat_ok_yield s o s' :
  flat_ok s → yield s = Some (o, s') →
  flat_ok s' ∧ values s !! yielded s = Some o ∧ yielded s' = S (yielded s) ∧
  added s' = added s ∧ tasks s' = tasks s ∧ values s' = values s ∧
  pending s = yielded s :: pending s' ∧
  (generator s' = Looping ∧ (∃ v, o = Ret v) ∨ ∃ e, generator s' = Ended (Throw e) ∧ o = Throw e).
Proof.
  intros Hs E. pose proof (length_pending s Hs) as Hl. unfold yield in E.
  destruct (generator s) as [|i|] eqn:Eg; [done| |done].
  pose proof (f_order s Hs) as Eo.
  assert (Ep : pending s = i :: list_ s) by (unfold pending; by rewrite Eg).
  rewrite Ep in Eo, Hl. simpl in Hl.
  destruct (added s - yielded s) as [|n] eqn:En; [lia|]. simpl in Eo. injection Eo as Ei El.
  assert (Hy : S (yielded s) = added s - length (list_ s)) by lia.
  rewrite <- Ei in *.
  destruct (values s !! i) as [[v|e|]|] eqn:Ev; [| |done..]; injection E as <- <-;
    (split_and!; [|done|unfold yielded, pending; simpl; lia|done..|exact Ep|by eauto]);
    (split; simpl; [|apply Hs..]); unfold yielded, pending; simpl; rewrite <- Hy, El; f_equal; lia.
Qed.

Lemma flat_ok_step a s ys s' :
  flat_ok s → step a s = Some (ys, s') →
  flat_ok s' ∧ yielded s' = yielded s + length ys ∧
  (∀ i o, values s !! i = Some o → values s' !! i = Some o) ∧
  ∀ k y, ys !! k = Some y → values s' !! (yielded s + k) = Some y.
Proof.
  intros Hs E. destruct a as [f|i o| | |]; simpl in E.
  - injection E as <- <-. rewrite yielded_add by done. split_and!; [by apply flat_ok_add|simpl; lia|done..].
  - apply bind_Some in E as (s1 & E & [= <- <-]). pose proof E as (f & p & Ei & _ & _ & _ & Es)%finish_inv.
    apply flat_ok_finish in E as (? & -> & _); [|done]. split_and!; [done|simpl; lia| |done].
    intros k o'. subst s1. simpl. rewrite lookup_insert. case_decide; [|done]. subst k.
    destruct (f_tasks s Hs i) as [_ ->]; [by rewrite Ei|done].
  - injection E as <- <-. split_and!; [|unfold yielded, pending; simpl; lia|done..].
    destruct Hs. by split.
  - apply bind_Some in E as (s1 & E & [= <- <-]).
    apply flat_ok_take in E as (? & -> & _ & _ & _ & ->); [|done]. split_and!; [done|simpl; lia|done..].
  - apply bind_Some in E as ([o s1] & E & [= <- <-]).
    apply flat_ok_yield in E as (? & Ev & -> & _ & _ & -> & _); [|done]. split_and!; [done|simpl; lia|done|].
    intros [|k] y; [|done]. intros [= <-]. by rewrite Nat.add_0_r.
Qed.

Lemma run_spec l s ys s' :
  flat_ok s → run l s = Some (ys, s') →
  flat_ok s' ∧ yielded s' = yielded s + length ys ∧
  (∀ i o, values s !! i = Some o → values s' !! i = Some o) ∧
  ∀ k y, ys !! k = Some y → values s' !! (yielded s + k) = Some y.
Proof.
  revert s ys. induction l as [|a l IH]; intros s ys Hs E; simpl in E.
  { injection E as <- <-. split_and!; [done|simpl; lia|done..]. }
  apply bind_Some in E as ([y1 s1] & E1 & E). apply bind_Some in E as ([y2 s2] & E2 & [= <- <-]).
  apply flat_ok_step in E1 as (Hs1 & Ey1 & Hv1 & Hy1); [|done].
  apply IH in E2 as (Hs2 & Ey2 & Hv2 & Hy2); [|done].
  split_and!; [done|rewrite length_app; lia|by auto|]. intros k y Ek.
  apply lookup_app_Some in Ek as [Ek|[Hk Ek]]; [by eauto|].
  specialize (Hy2 _ _ Ek). rewrite Ey1 in Hy2.
  by replace (yielded s + k) with (yielded s + length y1 + (k - length y1)) by lia.
Qed.

(** Whatever the order in which the tasks finish, the results the generator
    yields are those of the tasks in the order in which they were added: the
    [k]-th one is what task [k] left in its promise. *)
Theorem generator_yields_in_order l ys s :
  run l makeFlatMapSequential = Some (ys, s) →
  length ys ≤ added s ∧ ∀ k y, ys !! k = Some y → values s !! k = Some y.
Proof.
  intros (Hs & Ey & _ & Hy)%run_spec; [|apply flat_ok_make].
  pose proof (length_pending s Hs). split; [|exact Hy]. unfold yielded at 2 in Ey. simpl in Ey. lia.
Qed.
End flatmap.
Arguments FlatMapSequential : clear implicits.
Arguments action : clear implicits.

(** Three tasks that finish in the opposite order; the generator waits for the
    first one. *)
Definition opposite_order : list (action () nat) :=
  [Add (); Add (); Add (); Finish 2 (Ret 30); TakeFront; Finish 1 (Ret 20); Finish 0 (Ret 10);
   Yield; TakeFront; Yield; TakeFront; Yield].

Lemma generator_yields_in_order_witness :
  ∃ ys s, run opposite_order makeFlatMapSequential = Some (ys, s) ∧ ys = [Ret 10; Ret 20; Ret 30] ∧
    length ys ≤ added s ∧ ∀ k y, ys !! k = Some y → values s !! k = Some y.
Proof.
  assert (Ey : fst <$> run opposite_order makeFlatMapSequential = Some [Ret 10; Ret 20; Ret 30])
    by (vm_compute; reflexivity).
  destruct (run opposite_order makeFlatMapSequential) as [[ys s]|] eqn:E; [|discriminate Ey].
  exists ys, s. split; [reflexivity|]. split; [by injection Ey|].
  exact (generator_yields_in_order opposite_order ys s E).
Defined.
