(* ===== verification/LogMachine.v ===== *)
(** * State machines over the virtual log

    [src/statemachine/]: [VirtualLogStateMachine.h], [LogTrimStateMachine.h],
    [LogTrimApplicator.h], [NullStateMachine.h], [SinkStateMachine.h] and the
    stack [Factory.h] makes of them.

    A machine appends entries to a log that it shares with other machines,
    fetches the entries of the log with concurrent reads, applies them one by
    one to the machine above it, and hands the result of applying an entry to
    the call that appended it.  The loops of the machine, its reads and the
    calls of its clients are steps that happen in any order; any number of
    machines run on one log, and the log may grow by itself.

    The state of the machine above is always what the first entries of the log
    make of its initial state, and each append returns the result of its own
    entry at its own position.  A machine that can read the log serves all the
    calls that registered in time; a call that registers late, or after a read
    failed, is never answered. *)

From stdpp Require Import base gmap list strings relations.
From Stdlib Require Import ZArith Lia.
From S2P Require Import Prelude LogTypes KVStore FlatMap.

Open Scope Z_scope.

(** ** The messages of [LogEntry.proto] *)

Record SingleLogEntry := mkSingle { entry_id : Z; entry_payload : string }.
Record LogTrimEntry := mkTrim { trim_id : Z; trim_replica_id : string; trim_snapshot_id : Z }.
Inductive TransactionalLogEntry :=
  | txn_entry_not_set
  | txn_single_log_entry (e : SingleLogEntry)
  | txn_batch_log_entry (log_entries : list SingleLogEntry).
Inductive LogEntry_1 :=
  | entry_not_set
  | single_log_entry (e : SingleLogEntry)
  | batch_log_entry (log_entries : list SingleLogEntry)
  | transactional_log_entry (e : TransactionalLogEntry)
  | log_trim_entry (e : LogTrimEntry).

Class LogEntryCodec := {
  Entry_SerializeAsString : LogEntry_1 → string;
  Entry_ParseFromString : string → option LogEntry_1 }.
Class LogEntryCodecLaws `{LogEntryCodec} :=
  parse_entry t : Entry_ParseFromString (Entry_SerializeAsString t) = Some t.

(** ** Interfaces *)

(** What a state machine calls on its [VirtualLog]. *)
Class VirtualLogOps (L : Type) := {
  vlog_append : string → M L Z;
  vlog_getLogEntry : Z → M L (LogEntry + LogReadError);
  vlog_sync : M L Z }.

Definition extends (wr wr' : Z → option string) : Prop :=
  ∀ id p, wr id = Some p → wr' id = Some p.
#[global] Instance extends_preorder : PreOrder extends.
Proof. split; [by intros wr id p|]. intros w1 w2 w3 E1 E2 id p Ep. by apply E2, E1. Qed.

(** A log keeps what is written: an append that returns an id has written its
    payload there, and what is read at an id is written there. *)
Class VirtualLogLaws (L : Type) `{VirtualLogOps L} := {
  written : L → Z → option string;
  vlog_append_law p l o l' : vlog_append p l = (o, l') →
    extends (written l) (written l') ∧ ∀ id, o = Ret id → written l' id = Some p;
  vlog_getLogEntry_law id l o l' : vlog_getLogEntry id l = (o, l') →
    extends (written l) (written l') ∧
    ∀ e, o = Ret (inl e) → written l' id = Some (payload e);
  vlog_sync_law l o l' : vlog_sync l = (o, l') → extends (written l) (written l') }.

(** [StateMachine<LogEntry_1, R>] as the machine below it sees it: [append] and
    [sync] of the machines above only forward to the one below. *)
Class StateMachine (U R : Type) := { sm_apply : LogEntry_1 → M U R }.

(** States that a machine below cannot tell apart: applying an entry gives the
    same result in both, and states that cannot be told apart. *)
Class StateMachineLaws (U R : Type) `{Equiv U} `{StateMachine U R} := {
  #[global] sm_equivalence :: Equivalence (≡@{U});
  #[global] sm_apply_proper ::
    Proper ((=) ==> (≡) ==> prod_relation (=) (≡)) (sm_apply : LogEntry_1 → M U R) }.

(** ** VirtualLogStateMachine *)

Record State := mkState { s_logId : Z; s_log : LogEntry_1 }.

Section machine.
Context {L : Type} `{VirtualLogOps L} `{LogEntryCodec} {U R : Type} `{StateMachine U R}.

Inductive call :=
  | CallAppend (t : LogEntry_1)
  | CallSync.

(** A call of a client: the log has answered an id; it awaits the future of its
    promise; it has returned ([sync] may return without a result); the log has
    thrown.  The promise of a call is known by the number of the call. *)
Inductive call_state :=
  | Located (c : call) (logId : Z)
  | AwaitsFuture (c : call) (logId : Z)
  | Returned (c : call) (logId : Z) (result : option R)
  | Failed (c : call) (e : exn).

(** [to_] is the local variable [to] of [producerLoop]; [singleExecutor_] holds
    the tasks [consumeLoop] has scheduled; [aborted_] after a failed [assert]. *)
Record VirtualLogStateMachine := mkMachine {
  upstreamStateMachine_ : U;
  lastFetchId_ : Z;
  targetLogId_ : Z;
  lastAppliedLogId_ : Z;
  to_ : Z;
  flatMapSeq_ : FlatMapSequential Z State;
  singleExecutor_ : list State;
  promises_ : list (Z * nat);
  calls_ : gmap nat call_state;
  aborted_ : bool }.
Implicit Types n : VirtualLogStateMachine.

Definition makeVirtualLogStateMachine (upstream : U) (lastAppliedLogId : Z) :
    VirtualLogStateMachine :=
  mkMachine upstream 0 (-1) lastAppliedLogId 0 makeFlatMapSequential [] [] ∅ false.

Definition set_call (k : nat) (c : call_state) n : VirtualLogStateMachine :=
  mkMachine (upstreamStateMachine_ n) (lastFetchId_ n) (targetLogId_ n) (lastAppliedLogId_ n)
    (to_ n) (flatMapSeq_ n) (singleExecutor_ n) (promises_ n) (<[k := c]> (calls_ n)) (aborted_ n).

Definition set_flat (f : FlatMapSequential Z State) n : VirtualLogStateMachine :=
  mkMachine (upstreamStateMachine_ n) (lastFetchId_ n) (targetLogId_ n) (lastAppliedLogId_ n)
    (to_ n) f (singleExecutor_ n) (promises_ n) (calls_ n) (aborted_ n).

(** [append] and [sync], up to the answer of the log. *)
Definition locate (c : call) : M L Z :=
  match c with
  | CallAppend t => vlog_append (Entry_SerializeAsString t)
  | CallSync => v ← vlog_sync; mret (v - 1)
  end.
Definition start_call (k : nat) (c : call) (l : L) n : option (L * VirtualLogStateMachine) :=
  match calls_ n !! k with
  | Some _ => None
  | None =>
      match locate c l with
      | (Ret logId, l') => Some (l', set_call k (Located c logId) n)
      | (Throw e, l') => Some (l', set_call k (Failed c e) n)
      | (Block, l') => None
      end
  end.

(** [emplace] into a multimap: behind the entries with the same key. *)
Fixpoint multi_emplace (key : Z) (v : nat) (m : list (Z * nat)) : list (Z * nat) :=
  match m with
  | [] => [(key, v)]
  | (k, x) :: m' => if k <=? key then (k, x) :: multi_emplace key v m' else (key, v) :: m
  end.

(** The blocks of [append] and [sync] under the mutex. *)
Definition emplace_promise (k : nat) (c : call) (logId : Z) n : VirtualLogStateMachine :=
  mkMachine (upstreamStateMachine_ n) (lastFetchId_ n) (Z.max logId (targetLogId_ n))
    (lastAppliedLogId_ n) (to_ n) (flatMapSeq_ n) (singleExecutor_ n)
    (multi_emplace logId k (promises_ n)) (<[k := AwaitsFuture c logId]> (calls_ n)) (aborted_ n).
Definition register_call (k : nat) n : option VirtualLogStateMachine :=
  match calls_ n !! k with
  | Some (Located (CallAppend t) logId) => Some (emplace_promise k (CallAppend t) logId n)
  | Some (Located CallSync logId) =>
      if logId <=? lastAppliedLogId_ n then Some (set_call k (Returned CallSync logId None) n)
      else Some (emplace_promise k CallSync logId n)
  | _ => None
  end.

(** [producerLoop]: the wait on the condition variable, and one round of the
    inner loop. *)
Definition producer_wake n : option VirtualLogStateMachine :=
  if (to_ n <? lastFetchId_ n + 1) && (to_ n <? targetLogId_ n) then
    Some (mkMachine (upstreamStateMachine_ n) (lastFetchId_ n) (targetLogId_ n)
            (lastAppliedLogId_ n) (targetLogId_ n) (flatMapSeq_ n) (singleExecutor_ n)
            (promises_ n) (calls_ n) (aborted_ n))
  else None.
Definition producer_fetch n : option VirtualLogStateMachine :=
  if lastFetchId_ n + 1 <=? to_ n then
    let nextLogId := lastFetchId_ n + 1 in
    Some (mkMachine (upstreamStateMachine_ n) nextLogId (targetLogId_ n)
            (lastAppliedLogId_ n) (to_ n) (add nextLogId (flatMapSeq_ n)) (singleExecutor_ n)
            (promises_ n) (calls_ n) (aborted_ n))
  else None.

(** The task [producerLoop] adds. *)
Definition fetch_entry (nextLogId : Z) : M L State :=
  nextLog ← vlog_getLogEntry nextLogId;
  match nextLog with
  | inr _ => throw (RuntimeError "log read error")
  | inl serializedLogEntry =>
      match Entry_ParseFromString (payload serializedLogEntry) with
      | None => throw (RuntimeError "protobuf parse result")
      | Some logEntry => mret (mkState nextLogId logEntry)
      end
  end.
Definition run_task (i : nat) (l : L) n : option (L * VirtualLogStateMachine) :=
  match tasks (flatMapSeq_ n) !! i with
  | None => None
  | Some nextLogId =>
      let '(o, l') := fetch_entry nextLogId l in
      f ← finish i o (flatMapSeq_ n); Some (l', set_flat f n)
  end.

(** [consumeLoop]: the generator takes the next future; [next] returns, and the
    task is scheduled, or throws, which ends the loop. *)
Definition consumer_take n : option VirtualLogStateMachine :=
  f ← take_front (flatMapSeq_ n); Some (set_flat f n).
Definition consumer_next n : option VirtualLogStateMachine :=
  '(o, f) ← yield (flatMapSeq_ n);
  Some (mkMachine (upstreamStateMachine_ n) (lastFetchId_ n) (targetLogId_ n)
          (lastAppliedLogId_ n) (to_ n) f
          (singleExecutor_ n ++ match o with Ret v => [v] | _ => [] end)
          (promises_ n) (calls_ n) (aborted_ n)).

(** [setValue] on the promise of a call. *)
Definition set_value (result : R) (calls : gmap nat call_state) (k : nat) : gmap nat call_state :=
  match calls !! k with
  | Some (AwaitsFuture c logId) => <[k := Returned c logId (Some result)]> calls
  | _ => calls
  end.

(** The task of [consumeLoop], on the executor with one thread.  What [apply]
    throws is lost with the task; a task whose [apply] never returns leaves the
    thread to the next one. *)
Definition complete (logId : Z) (result : R) n : VirtualLogStateMachine :=
  let calls := foldl (set_value result) (calls_ n)
                 (snd <$> filter (λ p : Z * nat, p.1 = logId) (promises_ n)) in
  let promises := filter (λ p : Z * nat, p.1 ≠ logId) (promises_ n) in
  if lastAppliedLogId_ n + 1 =? logId then
    mkMachine (upstreamStateMachine_ n) (lastFetchId_ n) (targetLogId_ n) logId (to_ n)
      (flatMapSeq_ n) (singleExecutor_ n) promises calls (aborted_ n)
  else
    mkMachine (upstreamStateMachine_ n) (lastFetchId_ n) (targetLogId_ n) (lastAppliedLogId_ n)
      (to_ n) (flatMapSeq_ n) (singleExecutor_ n) promises calls true.
Definition apply_task n : option VirtualLogStateMachine :=
  match singleExecutor_ n with
  | [] => None
  | state :: rest =>
      let '(o, u) := sm_apply (s_log state) (upstreamStateMachine_ n) in
      let n' := mkMachine u (lastFetchId_ n) (targetLogId_ n) (lastAppliedLogId_ n) (to_ n)
                  (flatMapSeq_ n) rest (promises_ n) (calls_ n) (aborted_ n) in
      Some match o with Ret result => complete (s_logId state) result n' | _ => n' end
  end.

(** ** The steps of a machine *)

Inductive machine_action :=
  | StartCall (k : nat) (c : call)
  | RegisterCall (k : nat)
  | ProducerWake
  | ProducerFetch
  | RunTask (i : nat)
  | ConsumerTake
  | ConsumerNext
  | ApplyTask.

Definition machine_step (a : machine_action) (l : L) n : option (L * VirtualLogStateMachine) :=
  if aborted_ n then None else
  match a with
  | StartCall k c => start_call k c l n
  | RegisterCall k => pair l <$> register_call k n
  | ProducerWake => pair l <$> producer_wake n
  | ProducerFetch => pair l <$> producer_fetch n
  | RunTask i => run_task i l n
  | ConsumerTake => pair l <$> consumer_take n
  | ConsumerNext => pair l <$> consumer_next n
  | ApplyTask => pair l <$> apply_task n
  end.

Fixpoint machine_run (acts : list machine_action) (l : L) n : option (L * VirtualLogStateMachine) :=
  match acts with
  | [] => Some (l, n)
  | a :: acts' => '(l', n') ← machine_step a l n; machine_run acts' l' n'
  end.

Definition set_upstream (u : U) n : VirtualLogStateMachine :=
  mkMachine u (lastFetchId_ n) (targetLogId_ n) (lastAppliedLogId_ n)
    (to_ n) (flatMapSeq_ n) (singleExecutor_ n) (promises_ n) (calls_ n) (aborted_ n).

(** ** The system: machines on one log

    [step_access]: the application reads the state above a machine, which may
    change it without a visible difference; [step_log]: other clients of the
    log. *)

Record World := mkWorld { w_log : L; w_machines : list VirtualLogStateMachine }.

Inductive world_step `{!VirtualLogLaws L} `{Equiv U} (w : World) : World → Prop :=
  | step_machine i a n l' n' :
      w_machines w !! i = Some n → machine_step a (w_log w) n = Some (l', n') →
      world_step w (mkWorld l' (<[i := n']> (w_machines w)))
  | step_access i n u :
      w_machines w !! i = Some n → u ≡ upstreamStateMachine_ n →
      world_step w (mkWorld (w_log w) (<[i := set_upstream u n]> (w_machines w)))
  | step_log l' :
      extends (written (w_log w)) (written l') →
      world_step w (mkWorld l' (w_machines w)).

(** ** What a machine should have done

    The results of applying entries one after the other. *)
Fixpoint apply_all (es : list LogEntry_1) : M U (list R) :=
  match es with
  | [] => mret []
  | e :: es' => r ← sm_apply e; rs ← apply_all es'; mret (r :: rs)
  end.

Definition entry_at (wr : Z → option string) (id : Z) : option LogEntry_1 :=
  p ← wr id; Entry_ParseFromString p.

(** [es] are the entries of the log from position 1 on. *)
Definition log_prefix (wr : Z → option string) (es : list LogEntry_1) : Prop :=
  ∀ (j : nat) t, es !! j = Some t → entry_at wr (j + 1) = Some t.

(** How many entries the consumer has scheduled, and how many of them have been
    applied. *)
Definition handed n : nat :=
  (yielded (flatMapSeq_ n) - match generator (flatMapSeq_ n) with Ended _ => 1 | _ => 0 end)%nat.
Definition applying n : nat := (handed n - length (singleExecutor_ n))%nat.

(** No [apply] has thrown. *)
Definition clean n : Prop := lastAppliedLogId_ n = applying n.
End machine.
Arguments World : clear implicits.
Arguments call_state : clear implicits.
Arguments VirtualLogStateMachine : clear implicits.

(** ** Lemmas: calls and promises *)

Section calls.
Context {R : Type}.
Implicit Types calls : gmap nat (call_state R).

Lemma set_value_lookup (r : R) calls k k' :
  set_value r calls k !! k' =
    match calls !! k' with
    | Some (AwaitsFuture c id) =>
        if decide (k = k') then Some (Returned c id (Some r)) else calls !! k'
    | x => x
    end.
Proof.
  unfold set_value. destruct (decide (k = k')) as [->|Hk].
  - destruct (calls !! k') as [[]|] eqn:E; rewrite ?lookup_insert, ?decide_True, ?E; done.
  - destruct (calls !! k) as [[]|] eqn:E; rewrite ?lookup_insert_ne by done;
      by destruct (calls !! k') as [[]|].
Qed.

Lemma set_values_lookup (r : R) calls ks k :
  foldl (set_value r) calls ks !! k =
    match calls !! k with
    | Some (AwaitsFuture c id) =>
        if decide (k ∈ ks) then Some (Returned c id (Some r)) else calls !! k
    | x => x
    end.
Proof.
  revert calls. induction ks as [|k' ks IH]; intros calls; simpl.
  { by destruct (calls !! k) as [[]|]. }
  rewrite IH, set_value_lookup.
  destruct (calls !! k) as [[c id|c id|c id o|c e]|] eqn:E; try done.
  destruct (decide (k' = k)) as [->|Hk].
  - by rewrite decide_True by left.
  - destruct (decide (k ∈ ks)), (decide (k ∈ k' :: ks)); set_solver.
Qed.
End calls.

Lemma elem_of_multi_emplace key v m p :
  p ∈ multi_emplace key v m ↔ p = (key, v) ∨ p ∈ m.
Proof.
  induction m as [|[k x] m IH]; simpl; [set_solver|].
  destruct (k <=? key); set_solver.
Qed.

(** ** Lemmas: the reference *)

Section reference.
Context {U R : Type} `{StateMachine U R} `{LogEntryCodec}.

Lemma apply_all_snoc es e u0 rs u r u' :
  apply_all es u0 = (Ret rs, u) → sm_apply e u = (Ret r, u') →
  apply_all (es ++ [e]) u0 = (Ret (rs ++ [r]), u').
Proof.
  revert u0 rs. induction es as [|e0 es IH]; intros u0 rs; simpl.
  - intros [= <- <-] E. by rewrite (bind_Ret _ _ _ _ _ E).
  - intros (r0 & u1 & E0 & (rs1 & u2 & E1 & [= <- <-])%bind_inv_Ret)%bind_inv_Ret E.
    rewrite (bind_Ret _ _ _ _ _ E0). by rewrite (bind_Ret _ _ _ _ _ (IH _ _ E1 E)).
Qed.

(** The state in which one of the entries was applied. *)
Lemma apply_all_lookup es u0 rs u j t r :
  apply_all es u0 = (Ret rs, u) → es !! j = Some t → rs !! j = Some r →
  ∃ rs1 u1 u2, apply_all (take j es) u0 = (Ret rs1, u1) ∧ sm_apply t u1 = (Ret r, u2).
Proof.
  revert u0 rs j. induction es as [|e es IH]; intros u0 rs j; [done|]. simpl.
  intros (r0 & u1 & E0 & (rs1 & u2 & E1 & [= <- <-])%bind_inv_Ret)%bind_inv_Ret.
  destruct j as [|j]; simpl.
  - intros [= ->] [= ->]. by exists [], u0, u1.
  - intros Ej Er. destruct (IH _ _ _ E1 Ej Er) as (rs3 & u3 & u4 & Ea & Et).
    exists (r0 :: rs3), u3, u4. split; [|done]. rewrite (bind_Ret _ _ _ _ _ E0).
    by rewrite (bind_Ret _ _ _ _ _ Ea).
Qed.

Lemma apply_all_length es u0 rs u : apply_all es u0 = (Ret rs, u) → length rs = length es.
Proof.
  revert u0 rs. induction es as [|e es IH]; intros u0 rs; simpl; [by intros [= <- _]|].
  intros (r0 & u1 & E0 & (rs1 & u2 & E1 & [= <- <-])%bind_inv_Ret)%bind_inv_Ret.
  simpl. by rewrite (IH _ _ E1).
Qed.

Lemma entry_at_extends wr wr' id t :
  extends wr wr' → entry_at wr id = Some t → entry_at wr' id = Some t.
Proof.
  intros Hw (p & Ep & Et)%bind_Some. unfold entry_at. by rewrite (Hw _ _ Ep).
Qed.

Lemma log_prefix_extends wr wr' es : extends wr wr' → log_prefix wr es → log_prefix wr' es.
Proof. intros Hw Hes j t Ej. eapply entry_at_extends; [done|]. by apply Hes. Qed.

Lemma log_prefix_snoc wr es t :
  log_prefix wr es → entry_at wr (length es + 1) = Some t → log_prefix wr (es ++ [t]).
Proof.
  intros Hes Et j t' [Ej|[Hj Ej]]%lookup_app_Some; [by apply Hes|].
  destruct (j - length es)%nat eqn:Ed; [|done]. injection Ej as <-.
  by replace (j + 1) with (length es + 1) by lia.
Qed.

Lemma log_prefix_unique wr es es' :
  log_prefix wr es → log_prefix wr es' → length es = length es' → es = es'.
Proof.
  intros He He' El. apply list_eq. intros j.
  destruct (es !! j) as [t|] eqn:Ej.
  - destruct (lookup_lt_is_Some_2 es' j) as [t' Ej']; [rewrite <- El; by eapply lookup_lt_Some|].
    apply He in Ej. rewrite Ej'. apply He' in Ej'. congruence.
  - symmetry. apply lookup_ge_None. rewrite <- El. by apply lookup_ge_None.
Qed.
End reference.

(** ** The invariant of a machine *)

Section safety.
Context {L : Type} `{HL : VirtualLogOps L} `{HC : LogEntryCodec} {U R : Type} `{HU : StateMachine U R}.
Context `{HLL : !VirtualLogLaws L} `{HCL : !LogEntryCodecLaws} `{HE : Equiv U} `{HUL : !StateMachineLaws U R}.
Implicit Types n : VirtualLogStateMachine U R.
Implicit Types wr : Z → option string.
Context (u0 : U).

(** What a call was answered: its own entry is at its position, and its result
    is that of the entry there. *)
Definition answered wr (es : list LogEntry_1) (rs : list R) (c : call) (id : Z) (result : option R)
    : Prop :=
  match c, result with
  | CallAppend t, Some r =>
      wr id = Some (Entry_SerializeAsString t) ∧ 1 ≤ id ∧
      es !! Z.to_nat (id - 1) = Some t ∧ rs !! Z.to_nat (id - 1) = Some r
  | CallAppend _, None => False
  | CallSync, _ => id ≤ length es
  end.

Definition located_ok wr (c : call) (id : Z) : Prop :=
  match c with CallAppend t => wr id = Some (Entry_SerializeAsString t) | CallSync => True end.

Definition call_ok wr es rs (x : call_state R) : Prop :=
  match x with
  | Located c id | AwaitsFuture c id => located_ok wr c id
  | Returned c id result => answered wr es rs c id result
  | Failed _ _ => True
  end.

(** The machine has applied the first entries of the log. *)
Definition history_ok wr n : Prop :=
  ∃ es rs u, Z.of_nat (length es) = lastAppliedLogId_ n ∧ log_prefix wr es ∧
    apply_all es u0 = (Ret rs, u) ∧ (clean n → upstreamStateMachine_ n ≡ u) ∧
    ∀ k x, calls_ n !! k = Some x → call_ok wr es rs x.

Record promises_ok n : Prop := {
  p_call : ∀ k id, (id, k) ∈ promises_ n → ∃ c, calls_ n !! k = Some (AwaitsFuture c id);
  p_promise : ∀ k c id, calls_ n !! k = Some (AwaitsFuture c id) → lastAppliedLogId_ n < id →
    (id, k) ∈ promises_ n;
  p_target : ∀ k c id, calls_ n !! k = Some (AwaitsFuture c id) → id ≤ targetLogId_ n }.

(** The entries between the log and the upstream machine. *)
Record pipeline_ok wr n : Prop := {
  m_flat : flat_ok (flatMapSeq_ n);
  m_drain : drainAndStop_ (flatMapSeq_ n) = false;
  m_ended : ∀ o, generator (flatMapSeq_ n) = Ended o → (1 ≤ yielded (flatMapSeq_ n))%nat;
  m_fetch : lastFetchId_ n = added (flatMapSeq_ n);
  m_tasks : ∀ (i : nat) id, tasks (flatMapSeq_ n) !! i = Some id → id = i + 1;
  m_values : ∀ (i : nat) st, values (flatMapSeq_ n) !! i = Some (Ret st) →
    s_logId st = i + 1 ∧ entry_at wr (i + 1) = Some (s_log st);
  m_length : (length (singleExecutor_ n) ≤ handed n)%nat;
  m_queue : ∀ (j : nat) st, singleExecutor_ n !! j = Some st →
    s_logId st = applying n + j + 1 ∧ entry_at wr (applying n + j + 1) = Some (s_log st);
  m_applied : lastAppliedLogId_ n ≤ applying n;
  m_to : lastFetchId_ n ≤ to_ n ≤ Z.max 0 (targetLogId_ n) }.

Record machine_ok wr n : Prop := {
  k_history : history_ok wr n;
  k_promises : promises_ok n;
  k_pipeline : pipeline_ok wr n }.

Lemma call_ok_extends wr wr' es rs x : extends wr wr' → call_ok wr es rs x → call_ok wr' es rs x.
Proof.
  intros Hw. destruct x as [[t|] id|[t|] id|[t|] id [r|]|c e]; simpl; try done; try apply Hw.
  intros (Ew & ?). split; [by apply Hw|done].
Qed.

Lemma machine_ok_extends wr wr' n : extends wr wr' → machine_ok wr n → machine_ok wr' n.
Proof.
  intros Hw [(es & rs & u & El & Hes & Ea & Hu & Hc) Hp Hq]. split; [|done|].
  - exists es, rs, u. split_and!; try done; [by eapply log_prefix_extends|].
    intros k x Ek. eapply call_ok_extends; [done|]. by apply (Hc k).
  - destruct Hq as [q1 q2 q3 q4 q5 q6 q7 q8 q9 q10]. split; try done.
    + intros i st Ei. destruct (q6 i st Ei). split; [done|by eapply entry_at_extends].
    + intros j st Ej. destruct (q8 j st Ej). split; [done|by eapply entry_at_extends].
Qed.

Lemma machine_ok_make wr : machine_ok wr (makeVirtualLogStateMachine u0 0).
Proof.
  split.
  - exists [], [], u0. by split_and!.
  - split; simpl; [set_solver|done..].
  - split; simpl; try done. apply flat_ok_make.
Qed.

(** A step that changes only the calls. *)
Lemma machine_ok_set_call wr n k x :
  machine_ok wr n →
  (∀ es rs, Z.of_nat (length es) = lastAppliedLogId_ n → call_ok wr es rs x) →
  (∀ c id, calls_ n !! k ≠ Some (AwaitsFuture c id)) → (∀ c id, x ≠ AwaitsFuture c id) →
  machine_ok wr (set_call k x n).
Proof.
  intros [(es & rs & u & El & Hes & Ea & Hu & Hc) [Hp Hp' Ht] Hq] Hx Hk Hx'. split.
  - exists es, rs, u. split_and!; try done. simpl. intros k' x'. rewrite lookup_insert.
    case_decide; [intros [= <-]; by apply Hx|by apply Hc].
  - split; simpl.
    + intros k' id Hin. apply Hp in Hin as [c Ec]. exists c. rewrite lookup_insert_ne; [done|].
      intros ->. by eapply Hk.
    + intros k' c id. rewrite lookup_insert. case_decide; [|apply Hp'].
      intros [= E]. by destruct (Hx' _ _ E).
    + intros k' c id. rewrite lookup_insert. case_decide; [|apply Ht].
      intros [= E]. by destruct (Hx' _ _ E).
  - destruct Hq. by split.
Qed.

Lemma start_call_ok k c l n l' n' :
  machine_ok (written l) n → start_call k c l n = Some (l', n') →
  machine_ok (written l') n' ∧ extends (written l) (written l').
Proof.
  intros Hn E. unfold start_call in E. destruct (calls_ n !! k) eqn:Ek; [done|].
  assert (Hl : extends (written l) (written (locate c l).2) ∧
               ∀ id, (locate c l).1 = Ret id → located_ok (written (locate c l).2) c id).
  { destruct c as [t|]; simpl.
    - destruct (vlog_append _ l) as [o l1] eqn:E1. by apply vlog_append_law in E1.
    - unfold mbind, M_bind. destruct (vlog_sync l) as [[v|e|] l1] eqn:E1; simpl; split; try done;
        by apply vlog_sync_law in E1. }
  destruct Hl as [Hl Hid].
  destruct (locate c l) as [[id|e|] l1]; simpl in *; [| |done]; injection E as <- <-;
    (split; [|done]); apply machine_ok_set_call; try done;
    [by eapply machine_ok_extends| |congruence|by eapply machine_ok_extends|congruence].
  intros es rs _. by apply Hid.
Qed.

Lemma emplace_promise_ok wr n k c id :
  machine_ok wr n → calls_ n !! k = Some (Located c id) → machine_ok wr (emplace_promise k c id n).
Proof.
  intros [(es & rs & u & El & Hes & Ea & Hu & Hc) [Hp Hp' Ht] Hq] Ek. split.
  - exists es, rs, u. split_and!; try done. simpl. intros k' x'. rewrite lookup_insert.
    case_decide; [intros [= <-]; by apply Hc in Ek|by apply Hc].
  - split; simpl.
    + intros k' id' [[= -> ->]|Hin]%elem_of_multi_emplace.
      * exists c. by rewrite lookup_insert_eq.
      * destruct (Hp _ _ Hin) as [c' Ec]. exists c'. rewrite lookup_insert_ne; [done|congruence].
    + intros k' c' id'. rewrite elem_of_multi_emplace, lookup_insert. case_decide.
      * intros [= -> ->] _. left. by subst.
      * intros Ec Hid. right. by eapply Hp'.
    + intros k' c' id'. rewrite lookup_insert. case_decide; [intros [= -> ->]; lia|].
      intros Ec%Ht. lia.
  - destruct Hq as [q1 q2 q3 q4 q5 q6 q7 q8 q9 q10]. split; try done. simpl. lia.
Qed.

Lemma register_call_ok wr k n n' :
  machine_ok wr n → register_call k n = Some n' → machine_ok wr n'.
Proof.
  intros Hn E. unfold register_call in E.
  destruct (calls_ n !! k) as [[[t|] id|c id|c id o|c e]|] eqn:Ek; try done.
  - injection E as <-. by apply emplace_promise_ok.
  - destruct (Z.leb_spec id (lastAppliedLogId_ n)) as [Hid|Hid]; injection E as <-.
    + apply machine_ok_set_call; try done; [|by rewrite Ek].
      intros es rs El. simpl. lia.
    + by apply emplace_promise_ok.
Qed.

(** The steps inside the machine change neither the calls nor what has been
    applied, until [apply_task]. *)
Lemma machine_ok_pipeline wr n n' :
  machine_ok wr n → upstreamStateMachine_ n' = upstreamStateMachine_ n →
  lastAppliedLogId_ n' = lastAppliedLogId_ n → targetLogId_ n' = targetLogId_ n →
  promises_ n' = promises_ n → calls_ n' = calls_ n →
  (applying n' = applying n → pipeline_ok wr n') → applying n' = applying n → machine_ok wr n'.
Proof.
  intros [(es & rs & u & El & Hes & Ea & Hu & Hc) [Hp Hp' Ht] _] Eu Ela Eta Ep Ec Hq Eap. split; [..|by apply Hq].
  - exists es, rs, u. rewrite Ela, Ec. split_and!; try done. unfold clean. by rewrite Ela, Eap, Eu.
  - split; rewrite ?Ep, Ec, ?Ela, ?Eta; [exact Hp|exact Hp'|exact Ht].
Qed.

Lemma producer_wake_ok wr n n' : machine_ok wr n → producer_wake n = Some n' → machine_ok wr n'.
Proof.
  intros Hn E. unfold producer_wake in E. destruct (_ && _) eqn:Eb; [|done]. injection E as <-.
  apply andb_prop in Eb as [_ Eb%Z.ltb_lt].
  apply (machine_ok_pipeline wr n); try done. intros _.
  destruct (k_pipeline _ _ Hn) as [q1 q2 q3 q4 q5 q6 q7 q8 q9 q10]. split; try done. simpl. lia.
Qed.

Lemma producer_fetch_ok wr n n' : machine_ok wr n → producer_fetch n = Some n' → machine_ok wr n'.
Proof.
  intros Hn E. unfold producer_fetch in E.
  destruct (Z.leb_spec (lastFetchId_ n + 1) (to_ n)); [|done]. injection E as <-.
  destruct (k_pipeline _ _ Hn) as [q1 q2 q3 q4 q5 q6 q7 q8 q9 q10].
  assert (Ea : applying (mkMachine (upstreamStateMachine_ n) (lastFetchId_ n + 1) (targetLogId_ n)
                 (lastAppliedLogId_ n) (to_ n) (add (lastFetchId_ n + 1) (flatMapSeq_ n))
                 (singleExecutor_ n) (promises_ n) (calls_ n) (aborted_ n)) = applying n).
  { unfold applying, handed. cbn [flatMapSeq_ singleExecutor_]. by rewrite yielded_add. }
  apply (machine_ok_pipeline wr n); try done. intros _. split; rewrite ?Ea; try done; simpl.
  - by apply flat_ok_add.
  - intros o Eo. rewrite yielded_add by done. by eapply q3.
  - rewrite q4. lia.
  - intros i id. rewrite lookup_insert. case_decide; [|apply q5]. intros [= <-]. lia.
  - unfold handed in *. cbn [flatMapSeq_]. by rewrite yielded_add.
  - lia.
Qed.

Lemma run_task_inv i l n l' n' :
  run_task i l n = Some (l', n') →
  ∃ id o f, tasks (flatMapSeq_ n) !! i = Some id ∧ fetch_entry id l = (o, l') ∧
    finish i o (flatMapSeq_ n) = Some f ∧ n' = set_flat f n.
Proof.
  unfold run_task. destruct (tasks _ !! i) as [id|]; [|done].
  destruct (fetch_entry id l) as [o l1] eqn:E. intros (f & Ef & [= <- <-])%bind_Some.
  by exists id, o, f.
Qed.

Lemma fetch_entry_spec id l o l' :
  fetch_entry id l = (o, l') →
  extends (written l) (written l') ∧
  ∀ st, o = Ret st → s_logId st = id ∧ entry_at (written l') id = Some (s_log st).
Proof.
  unfold fetch_entry, mbind, M_bind. destruct (vlog_getLogEntry id l) as [[r|e|] l1] eqn:E;
    apply vlog_getLogEntry_law in E as [Hl Hr].
  - destruct r as [e|err]; [|by intros [= <- <-]]. specialize (Hr e eq_refl).
    destruct (Entry_ParseFromString (payload e)) as [t|] eqn:Et; [|by intros [= <- <-]].
    intros [= <- <-]. split; [done|]. intros st [= <-]. split; [done|].
    unfold entry_at. rewrite Hr. simpl. exact Et.
  - by intros [= <- <-].
  - by intros [= <- <-].
Qed.

Lemma run_task_ok i l n l' n' :
  machine_ok (written l) n → run_task i l n = Some (l', n') →
  machine_ok (written l') n' ∧ extends (written l) (written l').
Proof.
  intros Hn (id & o & f & Ei & Ef & Efin & ->)%run_task_inv.
  apply fetch_entry_spec in Ef as [Hl Hst]. split; [|done].
  apply (machine_ok_extends _ _ _ Hl) in Hn.
  destruct (k_pipeline _ _ Hn) as [q1 q2 q3 q4 q5 q6 q7 q8 q9 q10].
  pose proof (q5 i id Ei) as ->.
  pose proof Efin as (f0 & p & _ & _ & Hp & _ & Es)%finish_inv.
  apply flat_ok_finish in Efin as (Hf & Ey & Epe & Ead); [|done].
  assert (Eh : handed (set_flat f n) = handed n)
    by (unfold handed; cbn [set_flat flatMapSeq_]; rewrite Ey, Es; done).
  assert (Ea : applying (set_flat f n) = applying n) by (unfold applying; by rewrite Eh).
  apply (machine_ok_pipeline _ n); try done. intros _. split; rewrite ?Ea, ?Eh; simpl; try done.
  - by rewrite Es.
  - intros o'. rewrite Ey. rewrite Es. apply q3.
  - by rewrite Ead.
  - intros k id. rewrite Es. simpl. rewrite lookup_delete_Some. intros [_ ?]. by apply q5.
  - intros k st. rewrite Es. simpl. rewrite lookup_insert. case_decide; [|apply q6].
    subst k. intros [= ->]. by apply Hst, Hp.
Qed.

Lemma consumer_take_ok wr n n' : machine_ok wr n → consumer_take n = Some n' → machine_ok wr n'.
Proof.
  intros Hn (f & Ef & [= <-])%bind_Some.
  destruct (k_pipeline _ _ Hn) as [q1 q2 q3 q4 q5 q6 q7 q8 q9 q10].
  assert (Eg : (∃ i, generator f = Awaiting i) ∧ generator (flatMapSeq_ n) = Looping ∧
               drainAndStop_ f = false).
  { unfold take_front in Ef. destruct (generator (flatMapSeq_ n)); [|done..].
    destruct (list_ (flatMapSeq_ n)); [by rewrite q2 in Ef|]. injection Ef as <-. eauto. }
  destruct Eg as ([i Eg] & Eg0 & Ed).
  apply flat_ok_take in Ef as (Hf & Ey & _ & Ead & Et & Ev); [|done].
  assert (Eh : handed (set_flat f n) = handed n)
    by (unfold handed; cbn [set_flat flatMapSeq_]; by rewrite Ey, Eg, Eg0).
  assert (Ea : applying (set_flat f n) = applying n) by (unfold applying; by rewrite Eh).
  apply (machine_ok_pipeline _ n); try done. intros _. split; rewrite ?Ea, ?Eh; simpl; try done.
  - intros o'. by rewrite Eg.
  - by rewrite Ead.
  - intros k id. rewrite Et. apply q5.
  - intros k st. rewrite Ev. apply q6.
Qed.

Lemma consumer_next_ok wr n n' : machine_ok wr n → consumer_next n = Some n' → machine_ok wr n'.
Proof.
  intros Hn ([o f] & Ef & [= <-])%bind_Some.
  destruct (k_pipeline _ _ Hn) as [q1 q2 q3 q4 q5 q6 q7 q8 q9 q10].
  assert (Eg0 : ∃ i, generator (flatMapSeq_ n) = Awaiting i)
    by (unfold yield in Ef; destruct (generator (flatMapSeq_ n)); naive_solver).
  destruct Eg0 as [i Eg0].
  assert (Ed : drainAndStop_ f = false).
  { unfold yield in Ef. rewrite Eg0 in Ef. destruct (values _ !! i) as [[]|]; naive_solver. }
  apply flat_ok_yield in Ef as (Hf & Ev & Ey & Ead & Et & Ev' & _ & Eo); [|done].
  assert (Hh : handed n = yielded (flatMapSeq_ n)) by (unfold handed; rewrite Eg0; lia).
  assert (Eh : handed (mkMachine (upstreamStateMachine_ n) (lastFetchId_ n) (targetLogId_ n)
            (lastAppliedLogId_ n) (to_ n) f
            (singleExecutor_ n ++ match o with Ret v => [v] | _ => [] end)
            (promises_ n) (calls_ n) (aborted_ n)) =
          (handed n + length (match o with Ret v => [v] | _ => [] end))%nat).
  { rewrite Hh. unfold handed. cbn [flatMapSeq_]. rewrite Ey.
    destruct Eo as [[-> [v ->]]|(e & -> & ->)]; simpl; lia. }
  match type of Eh with handed ?m = _ => assert (Ea : applying m = applying n) end.
  { unfold applying. rewrite Eh. cbn [singleExecutor_]. rewrite length_app. lia. }
  apply (machine_ok_pipeline _ n); try done. intros _.
  split; rewrite ?Ea, ?Eh; cbn [flatMapSeq_ singleExecutor_ lastFetchId_ lastAppliedLogId_]; try done.
  - intros o' _. rewrite Ey. lia.
  - by rewrite Ead.
  - intros k id. rewrite Et. apply q5.
  - intros k st. rewrite Ev'. apply q6.
  - rewrite length_app. lia.
  - intros j st [Ej|[Hj Ej]]%lookup_app_Some; [by apply q8|].
    destruct o as [v|e|]; [|done..]. destruct (j - length (singleExecutor_ n))%nat eqn:Ed'; [|done].
    injection Ej as <-. destruct (q6 _ _ Ev) as [E1 E2]. unfold applying. rewrite Hh in *.
    replace (Z.of_nat (yielded (flatMapSeq_ n) - length (singleExecutor_ n)) + j + 1)
      with (yielded (flatMapSeq_ n) + 1) by lia. done.
Qed.

(** *** [apply_task] *)

Lemma applying_rest wr n st rest u :
  pipeline_ok wr n → singleExecutor_ n = st :: rest →
  applying (mkMachine u (lastFetchId_ n) (targetLogId_ n) (lastAppliedLogId_ n) (to_ n)
    (flatMapSeq_ n) rest (promises_ n) (calls_ n) (aborted_ n) : VirtualLogStateMachine U R) =
  S (applying n).
Proof.
  intros Hq Er. pose proof (m_length _ _ Hq) as Hl. unfold applying, handed in *.
  cbn [flatMapSeq_ singleExecutor_]. rewrite Er in *. simpl in *. lia.
Qed.

Lemma pipeline_ok_rest wr n st rest u lastApplied promises calls :
  pipeline_ok wr n → singleExecutor_ n = st :: rest → lastApplied ≤ S (applying n) →
  pipeline_ok wr (mkMachine u (lastFetchId_ n) (targetLogId_ n) lastApplied (to_ n)
    (flatMapSeq_ n) rest promises calls (aborted_ n)).
Proof.
  intros Hq Er Hla. pose proof (applying_rest wr n st rest u Hq Er) as Ea.
  assert (Ea' : applying (mkMachine u (lastFetchId_ n) (targetLogId_ n) lastApplied (to_ n)
    (flatMapSeq_ n) rest promises calls (aborted_ n)) = S (applying n)) by exact Ea.
  destruct Hq as [q1 q2 q3 q4 q5 q6 q7 q8 q9 q10]. split; rewrite ?Ea'; try done.
  - cbn [singleExecutor_]. unfold handed in *. cbn [flatMapSeq_]. rewrite Er in q7. simpl in q7. lia.
  - cbn [singleExecutor_]. intros j st' Ej. destruct (q8 (S j) st') as [E1 E2]; [by rewrite Er|].
    replace (S (applying n) + j + 1) with (applying n + S j + 1) by lia. done.
Qed.

(** The promises for an id, and the calls that wait for them. *)
Lemma awaits_promise n id k :
  promises_ok n → lastAppliedLogId_ n < id →
  k ∈ snd <$> filter (λ p : Z * nat, p.1 = id) (promises_ n) ↔
  ∃ c, calls_ n !! k = Some (AwaitsFuture c id).
Proof.
  intros [Hp Hp' Ht] Hid. rewrite list_elem_of_fmap. split.
  - intros ([id' k'] & -> & [Ei Hin]%list_elem_of_filter). simpl in Ei. subst. by apply Hp.
  - intros [c Ec]. exists (id, k). split; [done|]. apply list_elem_of_filter. split; [done|].
    by eapply Hp'.
Qed.

Lemma complete_promises_ok n id r :
  promises_ok n → lastAppliedLogId_ n + 1 = id → promises_ok (complete id r n).
Proof.
  intros Hpo Eid. pose proof Hpo as [Hp Hp' Ht]. unfold complete. rewrite (proj2 (Z.eqb_eq _ _) Eid).
  split; simpl.
  - intros k id' [Hne Hin]%list_elem_of_filter. simpl in Hne. destruct (Hp _ _ Hin) as [c Ec].
    exists c. rewrite set_values_lookup, Ec, decide_False; [done|].
    rewrite (awaits_promise n id k Hpo) by lia. intros [c' Ec']. congruence.
  - intros k c id'. rewrite set_values_lookup. intros Ec Hid'.
    destruct (calls_ n !! k) as [[]|] eqn:Ek; try done. case_decide; [done|].
    injection Ec as -> ->. apply list_elem_of_filter. simpl. split; [lia|].
    apply (Hp' _ _ _ Ek). lia.
  - intros k c id'. rewrite set_values_lookup. intros Ec. apply (Ht k c id').
    destruct (calls_ n !! k) as [[]|]; try done. by case_decide.
Qed.

Lemma call_ok_snoc wr es rs t r x : call_ok wr es rs x → call_ok wr (es ++ [t]) (rs ++ [r]) x.
Proof.
  destruct x as [c id|c id|[t'|] id [r'|]|c e]; simpl; try done.
  - intros (?&?&?&?). split_and!; [done..| |]; by apply lookup_app_l_Some.
  - rewrite length_app. lia.
  - rewrite length_app. lia.
Qed.

Lemma history_ok_complete wr n st r u :
  (** of the machine before the task *)
  machine_ok wr n → lastAppliedLogId_ n + 1 = s_logId st → s_logId st = applying n + 1 →
  entry_at wr (s_logId st) = Some (s_log st) →
  sm_apply (s_log st) (upstreamStateMachine_ n) = (Ret r, u) →
  ∃ es rs v, Z.of_nat (length es) = s_logId st ∧ log_prefix wr es ∧ apply_all es u0 = (Ret rs, v) ∧
    u ≡ v ∧ ∀ k x, foldl (set_value r) (calls_ n)
             (snd <$> filter (λ p : Z * nat, p.1 = s_logId st) (promises_ n)) !! k = Some x →
           call_ok wr es rs x.
Proof.
  intros [(es & rs & v & El & Hes & Ea & Hu & Hc) Hpo _] Eid Eap Et Er.
  pose proof (apply_all_length _ _ _ _ Ea) as Elr.
  destruct (sm_apply_proper (s_log st) _ eq_refl _ _ (Hu ltac:(unfold clean; lia))) as [Er1 Er2].
  rewrite Er in Er1, Er2. destruct (sm_apply (s_log st) v) as [o v'] eqn:Ev. simpl in Er1, Er2. subst o.
  exists (es ++ [s_log st]), (rs ++ [r]), v'. split_and!.
  - rewrite length_app. simpl. lia.
  - apply log_prefix_snoc; [done|]. by replace (length es + 1) with (s_logId st) by lia.
  - by eapply apply_all_snoc.
  - done.
  - intros k x. rewrite set_values_lookup.
    destruct (calls_ n !! k) as [x0|] eqn:Ek; [|done]. pose proof (Hc _ _ Ek) as Hx0.
    destruct x0 as [c id|c id|c id o|c e]; try (intros [= <-]; by apply call_ok_snoc).
    case_decide as Hin; [|intros [= <-]; by apply call_ok_snoc].
    apply (awaits_promise n _ k Hpo) in Hin as [c' Ec']; [|lia]. rewrite Ek in Ec'.
    injection Ec' as <- ->. intros [= <-]. destruct c as [t|]; simpl in *.
    + assert (t = s_log st) as <-.
      { unfold entry_at in Et. rewrite Hx0 in Et. simpl in Et. rewrite parse_entry in Et. by injection Et. }
      replace (Z.to_nat (s_logId st - 1)) with (length es) by lia. split_and!; [done|lia|..].
      * by rewrite lookup_app_r, Nat.sub_diag.
      * by rewrite <- Elr, lookup_app_r, Nat.sub_diag.
    + rewrite length_app. simpl. lia.
Qed.

(** A task that throws. *)
Lemma machine_ok_stuck wr n st rest u :
  machine_ok wr n → singleExecutor_ n = st :: rest →
  machine_ok wr (mkMachine u (lastFetchId_ n) (targetLogId_ n) (lastAppliedLogId_ n) (to_ n)
    (flatMapSeq_ n) rest (promises_ n) (calls_ n) (aborted_ n)).
Proof.
  intros [(es & rs & v & El & Hes & Ea & Hu & Hc) [Hp Hp' Ht] Hq] Er.
  pose proof (m_applied _ _ Hq) as Hla. split; [|by split|apply (pipeline_ok_rest wr n st); [done..|lia]].
  exists es, rs, v. split_and!; try done. unfold clean. rewrite (applying_rest wr n st rest u Hq Er).
  simpl. lia.
Qed.

Lemma apply_task_ok wr n n' :
  machine_ok wr n → apply_task n = Some n' → aborted_ n' = false → machine_ok wr n'.
Proof.
  intros Hn E Hab. unfold apply_task in E. destruct (singleExecutor_ n) as [|st rest] eqn:Er; [done|].
  pose proof (k_pipeline _ _ Hn) as Hq.
  destruct (m_queue _ _ Hq 0%nat st) as [Eid Et]; [by rewrite Er|].
  replace (applying n + 0%nat + 1) with (applying n + 1) in * by lia. rewrite <- Eid in Et.
  pose proof (m_applied _ _ Hq) as Hla.
  destruct (sm_apply _ _) as [[r|e|] u] eqn:Ea; injection E as <-.
  - unfold complete in Hab |- *. cbn [lastAppliedLogId_] in *.
    destruct (Z.eqb_spec (lastAppliedLogId_ n + 1) (s_logId st)) as [Enext|]; [|done].
    split.
    + destruct (history_ok_complete wr n st r u) as (es & rs & v & El & Hes & Eall & Hv & Hc); [done..|].
      exists es, rs, v. by split_and!.
    + pose proof (complete_promises_ok n (s_logId st) r (k_promises _ _ Hn) Enext) as Hp.
      unfold complete in Hp. rewrite (proj2 (Z.eqb_eq _ _) Enext) in Hp. destruct Hp. by split.
    + cbn [upstreamStateMachine_ lastFetchId_ targetLogId_ to_ flatMapSeq_ singleExecutor_ aborted_].
      apply (pipeline_ok_rest wr n st); [done..|lia].
  - apply (machine_ok_stuck wr n st rest u Hn Er).
  - apply (machine_ok_stuck wr n st rest u Hn Er).
Qed.

(** ** Runs *)

Lemma machine_step_ok a l n l' n' :
  machine_ok (written l) n → machine_step a l n = Some (l', n') →
  extends (written l) (written l') ∧ (aborted_ n' = false → machine_ok (written l') n').
Proof.
  intros Hn E. unfold machine_step in E. destruct (aborted_ n); [done|].
  destruct a as [k c|k| | |i| | |].
  1: by apply start_call_ok in E as [].
  4: by apply run_task_ok in E as [].
  all: apply fmap_Some in E as (n1 & E & [= -> ->]); split; [done|intros Hab].
  - by apply (register_call_ok _ k n).
  - by apply (producer_wake_ok _ n).
  - by apply (producer_fetch_ok _ n).
  - by apply (consumer_take_ok _ n).
  - by apply (consumer_next_ok _ n).
  - by apply (apply_task_ok _ n).
Qed.

Lemma machine_ok_access wr n u :
  machine_ok wr n → u ≡ upstreamStateMachine_ n → machine_ok wr (set_upstream u n).
Proof.
  intros [(es & rs & v & El & Hes & Ea & Hu & Hc) [Hp Hp' Ht] Hq] Hu'. split; [|by split|].
  - exists es, rs, v. split_and!; try done. simpl. intros Hcl. rewrite Hu'. by apply Hu.
  - destruct Hq. by split.
Qed.

Lemma machine_run_ok acts l n l' n' :
  machine_ok (written l) n → machine_run acts l n = Some (l', n') → aborted_ n' = false →
  machine_ok (written l') n'.
Proof.
  revert l n. induction acts as [|a acts IH]; intros l n Hn; simpl; [by intros [= <- <-]|].
  intros ([l1 n1] & Es & Er)%bind_Some Hab. eapply IH; [|done..].
  eapply machine_step_ok; [done..|]. destruct acts as [|a' acts]; simpl in Er; [congruence|].
  apply bind_Some in Er as ([l2 n2] & Es2 & _). unfold machine_step in Es2. by destruct (aborted_ n1).
Qed.

Definition world_ok (w : World L U R) : Prop :=
  ∀ i n, w_machines w !! i = Some n → aborted_ n = false → machine_ok (written (w_log w)) n.

Definition initial (w : World L U R) : Prop :=
  ∀ i n, w_machines w !! i = Some n → n = makeVirtualLogStateMachine u0 0.

Lemma world_ok_initial w : initial w → world_ok w.
Proof. intros Hw i n ->%Hw _. apply machine_ok_make. Qed.

Lemma machine_step_aborted a l n l' n' : machine_step a l n = Some (l', n') → aborted_ n = false.
Proof. unfold machine_step. by destruct (aborted_ n). Qed.

Lemma world_ok_step w w' : world_ok w → world_step w w' → world_ok w'.
Proof.
  intros Hw [i a n l' n' Ei Es|i n u Ei Hu|l' Hl] j m Ej Hab; simpl in *.
  - pose proof (machine_step_aborted _ _ _ _ _ Es) as Hn. apply machine_step_ok in Es as [Hl Hok]; [|by eapply Hw].
    destruct (decide (i = j)) as [->|Hij].
    + rewrite list_lookup_insert_eq in Ej by (by eapply lookup_lt_Some). injection Ej as <-. by apply Hok.
    + rewrite list_lookup_insert_ne in Ej by done. eapply machine_ok_extends; [done|]. by eapply Hw.
  - destruct (decide (i = j)) as [->|Hij].
    + rewrite list_lookup_insert_eq in Ej by (by eapply lookup_lt_Some). injection Ej as <-.
      apply machine_ok_access; [by apply (Hw j)|done].
    + rewrite list_lookup_insert_ne in Ej by done. by eapply Hw.
  - eapply machine_ok_extends; [done|]. by eapply Hw.
Qed.

Lemma world_ok_reachable w0 w : initial w0 → rtc world_step w0 w → world_ok w.
Proof.
  intros H0%world_ok_initial Hr. induction Hr as [|w0 w1 w2 Hs _ IH]; [done|].
  apply IH. by eapply world_ok_step.
Qed.

(** C9: whatever the machines, their clients and the log do, a machine has
    applied the first entries of the log in order, the state above it is what
    they make of the initial state, and an append that returned found its own
    entry at its position and got the result of applying it there. *)
Theorem machines_apply_log w0 w i n :
  initial w0 → rtc world_step w0 w → w_machines w !! i = Some n → aborted_ n = false →
  ∃ es rs u, Z.of_nat (length es) = lastAppliedLogId_ n ∧
    log_prefix (written (w_log w)) es ∧ apply_all es u0 = (Ret rs, u) ∧
    (clean n → upstreamStateMachine_ n ≡ u) ∧
    ∀ k t id r, calls_ n !! k = Some (Returned (CallAppend t) id (Some r)) →
      1 ≤ id ∧ es !! Z.to_nat (id - 1) = Some t ∧ rs !! Z.to_nat (id - 1) = Some r.
Proof.
  intros H0 Hr Ei Hab. destruct (world_ok_reachable w0 w H0 Hr i n Ei Hab) as [Hh _ _].
  destruct Hh as (es & rs & u & El & Hes & Ea & Hu & Hc). exists es, rs, u.
  split_and!; [done..|]. intros k t id r Ek. by apply Hc in Ek as (_ & ? & ? & ?).
Qed.

(** Two machines that have applied the same number of entries are in the same
    state. *)
Theorem machines_agree w0 w i j n m :
  initial w0 → rtc world_step w0 w →
  w_machines w !! i = Some n → w_machines w !! j = Some m →
  aborted_ n = false → aborted_ m = false → clean n → clean m →
  lastAppliedLogId_ n = lastAppliedLogId_ m →
  upstreamStateMachine_ n ≡ upstreamStateMachine_ m.
Proof.
  intros H0 Hr Ei Ej Hn Hm Cn Cm El. pose proof (world_ok_reachable w0 w H0 Hr) as Hw.
  destruct (Hw i n Ei Hn) as [(es & rs & u & El1 & Hes & Ea & Hu & _) _ _].
  destruct (Hw j m Ej Hm) as [(es' & rs' & u' & El2 & Hes' & Ea' & Hu' & _) _ _].
  rewrite Hu, Hu' by done. assert (es = es') as <- by (eapply log_prefix_unique; [done..|lia]).
  rewrite Ea in Ea'. by injection Ea' as -> ->.
Qed.
End safety.

(** ** Calls that wait *)

Section waiting.
Context {L : Type} `{HL : VirtualLogOps L} `{HC : LogEntryCodec} {U R : Type} `{HU : StateMachine U R}.
Context `{HLL : !VirtualLogLaws L} `{HCL : !LogEntryCodecLaws} `{HE : Equiv U} `{HUL : !StateMachineLaws U R}.
Implicit Types n : VirtualLogStateMachine U R.
Context (u0 : U).

(** Only the task of its own entry completes the promise of a call. *)
Lemma complete_awaits n id r k c id' :
  promises_ok n → lastAppliedLogId_ n < id →
  calls_ n !! k = Some (AwaitsFuture c id') →
  calls_ (complete id r n) !! k =
    if decide (id' = id) then Some (Returned c id' (Some r)) else Some (AwaitsFuture c id').
Proof.
  intros Hp Hid Ek. unfold complete.
  assert (E : foldl (set_value r) (calls_ n)
      (snd <$> filter (λ p : Z * nat, p.1 = id) (promises_ n)) !! k =
    if decide (id' = id) then Some (Returned c id' (Some r)) else Some (AwaitsFuture c id')).
  { rewrite set_values_lookup, Ek. pose proof (awaits_promise n id k Hp Hid) as Hin.
    destruct (decide (id' = id)) as [->|Hne].
    - rewrite decide_True; [done|]. apply Hin. by exists c.
    - rewrite decide_False; [done|]. rewrite Hin. intros [c' Ec]. congruence. }
  by destruct (_ =? _).
Qed.

Lemma step_awaits wr a l n l' n' k c id :
  machine_ok u0 wr n → machine_step a l n = Some (l', n') → aborted_ n' = false →
  calls_ n !! k = Some (AwaitsFuture c id) →
  calls_ n' !! k = Some (AwaitsFuture c id) ∧
    (lastAppliedLogId_ n < id → lastAppliedLogId_ n' < id) ∧
    lastAppliedLogId_ n ≤ lastAppliedLogId_ n' ∨
  lastAppliedLogId_ n < id ∧ singleExecutor_ n ≠ [] ∧
    ∃ r, calls_ n' !! k = Some (Returned c id (Some r)).
Proof.
  intros Hn E Hab Ek. unfold machine_step in E. destruct (aborted_ n); [done|].
  assert (Hother : ∀ n1, calls_ n1 = calls_ n → lastAppliedLogId_ n1 = lastAppliedLogId_ n →
    calls_ n1 !! k = Some (AwaitsFuture c id) ∧
    (lastAppliedLogId_ n < id → lastAppliedLogId_ n1 < id) ∧
    lastAppliedLogId_ n ≤ lastAppliedLogId_ n1) by (intros n1 -> ->; split_and!; [done..|lia]).
  destruct a as [k' c'|k'| | |i| | |].
  - left. unfold start_call in E. destruct (calls_ n !! k') eqn:Ek'; [done|].
    assert (k' ≠ k) by congruence.
    destruct (locate c' l) as [[]]; [..|done]; injection E as <- <-; simpl;
      rewrite lookup_insert_ne by done; split_and!; (done || lia).
  - left. apply fmap_Some in E as (n1 & E & [= -> ->]). unfold register_call in E.
    destruct (calls_ n !! k') as [[[t|] id'|? ?|? ?|? ?]|] eqn:Ek'; try done;
      try (destruct (id' <=? _)); injection E as <-; simpl;
      rewrite lookup_insert_ne by congruence; split_and!; (done || lia).
  - left. apply fmap_Some in E as (n1 & E & [= -> ->]). unfold producer_wake in E.
    destruct (_ && _); [|done]. injection E as <-. by apply Hother.
  - left. apply fmap_Some in E as (n1 & E & [= -> ->]). unfold producer_fetch in E.
    destruct (_ <=? _); [|done]. injection E as <-. by apply Hother.
  - left. apply run_task_inv in E as (?&?&?&_&_&_&->). by apply Hother.
  - left. apply fmap_Some in E as (n1 & E & [= -> ->]). apply bind_Some in E as (f & _ & [= <-]).
    by apply Hother.
  - left. apply fmap_Some in E as (n1 & E & [= -> ->]). apply bind_Some in E as ([o f] & _ & [= <-]).
    by apply Hother.
  - apply fmap_Some in E as (n1 & E & [= -> ->]). unfold apply_task in E.
    destruct (singleExecutor_ n) as [|st rest] eqn:Er; [done|].
    pose proof (m_queue _ _ (k_pipeline _ _ _ Hn) 0%nat st) as Hq. rewrite Er in Hq.
    destruct Hq as [Eid _]; [done|]. pose proof (m_applied _ _ (k_pipeline _ _ _ Hn)) as Hla.
    destruct (sm_apply _ _) as [[r|e|] u]; injection E as <-; [|left; by apply Hother..].
    set (n1 := mkMachine u _ _ _ _ _ _ _ _ _) in *.
    assert (Hp1 : promises_ok n1) by (destruct (k_promises _ _ _ Hn); by split).
    pose proof (complete_awaits n1 (s_logId st) r k c id Hp1 ltac:(simpl; lia) Ek) as Ec.
    assert (El : lastAppliedLogId_ (complete (s_logId st) r n1) = s_logId st).
    { unfold complete in Hab |- *. by destruct (_ =? _). }
    rewrite Ec, El. case_decide as Ed; [right; subst id; split_and!; [lia|done|eauto]|left].
    split_and!; [done| |lia]. intros Hid. unfold complete in Hab.
    destruct (Z.eqb_spec (lastAppliedLogId_ n1 + 1) (s_logId st)); [simpl in *; lia|done].
Qed.

(** A call is lost when its entry has been applied before it registered, or
    when a read has ended the consumer before its entry was scheduled. *)
Definition lost n (id : Z) : Prop :=
  id ≤ lastAppliedLogId_ n ∨
  (∃ o, generator (flatMapSeq_ n) = Ended o) ∧ singleExecutor_ n = [].

Lemma step_ended a l n l' n' :
  machine_step a l n = Some (l', n') →
  (∃ o, generator (flatMapSeq_ n) = Ended o) ∧ singleExecutor_ n = [] →
  (∃ o, generator (flatMapSeq_ n') = Ended o) ∧ singleExecutor_ n' = [].
Proof.
  intros E [[o Eg] Eq]. unfold machine_step in E. destruct (aborted_ n); [done|].
  destruct a as [k c|k| | |i| | |].
  - unfold start_call in E. destruct (calls_ n !! k); [done|].
    destruct (locate c l) as [[]]; [..|done]; injection E as <- <-; eauto.
  - apply fmap_Some in E as (n1 & E & [= -> ->]). unfold register_call in E.
    destruct (calls_ n !! k) as [[[t|] id'|? ?|? ?|? ?]|]; try done;
      try (destruct (id' <=? _)); injection E as <-; eauto.
  - apply fmap_Some in E as (n1 & E & [= -> ->]). unfold producer_wake in E.
    destruct (_ && _); [|done]. injection E as <-. eauto.
  - apply fmap_Some in E as (n1 & E & [= -> ->]). unfold producer_fetch in E.
    destruct (_ <=? _); [|done]. injection E as <-. eauto.
  - apply run_task_inv in E as (?&?&?&_&_&(?&?&_&_&_&_&->)%finish_inv&->). eauto.
  - apply fmap_Some in E as (n1 & E & [= -> ->]). apply bind_Some in E as (f & E & _).
    unfold take_front in E. by rewrite Eg in E.
  - apply fmap_Some in E as (n1 & E & [= -> ->]). apply bind_Some in E as ([o' f] & E & _).
    unfold yield in E. by rewrite Eg in E.
  - apply fmap_Some in E as (n1 & E & [= -> ->]). unfold apply_task in E. by rewrite Eq in E.
Qed.

Lemma lost_step wr a l n l' n' k c id :
  machine_ok u0 wr n → machine_step a l n = Some (l', n') → aborted_ n' = false →
  calls_ n !! k = Some (AwaitsFuture c id) → lost n id →
  calls_ n' !! k = Some (AwaitsFuture c id) ∧ lost n' id.
Proof.
  intros Hn E Hab Ek Hl.
  destruct (step_awaits wr a l n l' n' k c id Hn E Hab Ek) as [(Ek' & _ & Hla)|(Hid & Hq & _)].
  - split; [done|]. destruct Hl as [Hl|Hl]; [left; lia|right; by eapply step_ended].
  - destruct Hl as [Hl|[_ Hl]]; [lia|done].
Qed.

(** A call that registers after its entry has been applied, or that still
    waits after a read of the log has failed, is never answered. *)
Theorem lost_call_never_returns w0 w w' i n k c id :
  initial u0 w0 → rtc world_step w0 w → w_machines w !! i = Some n → aborted_ n = false →
  calls_ n !! k = Some (AwaitsFuture c id) → lost n id →
  rtc world_step w w' →
  ∃ n', w_machines w' !! i = Some n' ∧
    (aborted_ n' = true ∨ calls_ n' !! k = Some (AwaitsFuture c id)).
Proof.
  intros H0 Hr Ei Hab Ek Hl Hr'. pose proof (world_ok_reachable u0 w0 w H0 Hr) as Hw.
  assert (Hgoal : ∃ n', w_machines w' !! i = Some n' ∧
    (aborted_ n' = true ∨ calls_ n' !! k = Some (AwaitsFuture c id) ∧ lost n' id)).
  { clear H0 Hr. assert (Hn : aborted_ n = true ∨ calls_ n !! k = Some (AwaitsFuture c id) ∧ lost n id)
      by by right.
    clear Hab Ek Hl. revert n Ei Hn.
    induction Hr' as [w|w w1 w2 Hs _ IH]; intros n Ei Hn; [by exists n|].
    pose proof (world_ok_step u0 w w1 Hw Hs) as Hw1.
    destruct Hs as [j a m l' m' Ej Es|j m u Ej _|l' _]; [| |by apply (IH Hw1 n)].
    2: { destruct (decide (j = i)) as [->|Hij].
         - assert (m = n) as -> by congruence. apply (IH Hw1 (set_upstream u n)); simpl; [|done].
           apply list_lookup_insert_eq. by eapply lookup_lt_Some.
         - apply (IH Hw1 n); simpl; [by rewrite list_lookup_insert_ne|done]. }
    destruct (decide (j = i)) as [->|Hij].
    2: { apply (IH Hw1 n); simpl; [by rewrite list_lookup_insert_ne|done]. }
    assert (m = n) as -> by congruence. pose proof (machine_step_aborted _ _ _ _ _ Es) as Hm.
    apply (IH Hw1 m'); simpl; [apply list_lookup_insert_eq; by eapply lookup_lt_Some|].
    destruct Hn as [Hn|[Ek Hl]]; [congruence|].
    destruct (aborted_ m') eqn:Ha; [by left|right].
    by apply (lost_step (written (w_log w)) a (w_log w) n l' m' k c id (Hw i n Ei Hm) Es Ha Ek). }
  destruct Hgoal as (n' & Ei' & [Ha|[Ek' _]]); eauto.
Qed.
End waiting.

(** ** Progress *)

Section progress.
Context {L : Type} `{HL : VirtualLogOps L} `{HC : LogEntryCodec} {U R : Type} `{HU : StateMachine U R}.
Context `{HLL : !VirtualLogLaws L} `{HCL : !LogEntryCodecLaws} `{HE : Equiv U} `{HUL : !StateMachineLaws U R}.
Implicit Types n : VirtualLogStateMachine U R.
Context (u0 : U) (l : L).

(** The steps of the loops and of the executors, while the log stays. *)
Definition internal (a : machine_action) : bool :=
  match a with StartCall _ _ | RegisterCall _ => false | _ => true end.
Definition internal_step n n' : Prop :=
  ∃ a, internal a = true ∧ machine_step a l n = Some (l, n').

(** All entries up to the target can be read and applied, and none of the reads
    so far has failed. *)
Record ready n : Prop := {
  y_ok : machine_ok u0 (written l) n;
  y_running : aborted_ n = false;
  y_clean : clean n;
  y_generator : ∀ o, generator (flatMapSeq_ n) ≠ Ended o;
  y_values : ∀ (i : nat) o, values (flatMapSeq_ n) !! i = Some o → ∃ st, o = Ret st;
  y_read : ∀ id, 1 ≤ id ≤ targetLogId_ n → ∃ st, fetch_entry id l = (Ret st, l);
  y_apply : ∀ id t (u : U), entry_at (written l) id = Some t → ∃ r u', sm_apply t u = (Ret r, u') }.

(** The steps a machine has left. *)
Definition work n : nat :=
  (5 * Z.to_nat (targetLogId_ n - lastFetchId_ n)%Z + size (tasks (flatMapSeq_ n)) +
   3 * length (list_ (flatMapSeq_ n)) +
   match generator (flatMapSeq_ n) with Awaiting _ => 2 | _ => 0 end +
   length (singleExecutor_ n) + (if (to_ n <? targetLogId_ n)%Z then 1 else 0))%nat.

(** Each internal step keeps a machine ready and leaves less work. *)
Definition serves n n' : Prop :=
  ready n' ∧ (work n' < work n)%nat ∧ targetLogId_ n' = targetLogId_ n.

(** The part of [ready] that the steps keep for their own reasons. *)
Lemma ready_step a n n' :
  ready n → machine_step a l n = Some (l, n') → aborted_ n' = false →
  targetLogId_ n' = targetLogId_ n → clean n' →
  (∀ o, generator (flatMapSeq_ n') ≠ Ended o) →
  (∀ (i : nat) o, values (flatMapSeq_ n') !! i = Some o → ∃ st, o = Ret st) → ready n'.
Proof.
  intros [y1 y2 y3 y4 y5 y6 y7] E Hab Et Hc Hg Hv.
  split; [..|by rewrite Et|done]; try done. apply (machine_step_ok u0) in E as [_ Hok]; auto.
Qed.

Lemma machine_step_running a n n' :
  aborted_ n = false →
  match a with
  | StartCall k c => start_call k c l n
  | RegisterCall k => pair l <$> register_call k n
  | ProducerWake => pair l <$> producer_wake n
  | ProducerFetch => pair l <$> producer_fetch n
  | RunTask i => run_task i l n
  | ConsumerTake => pair l <$> consumer_take n
  | ConsumerNext => pair l <$> consumer_next n
  | ApplyTask => pair l <$> apply_task n
  end = Some (l, n') → machine_step a l n = Some (l, n').
Proof. intros Hab E. unfold machine_step. by rewrite Hab. Qed.

Lemma wake_serves n n' : ready n → producer_wake n = Some n' → serves n n'.
Proof.
  intros Hn E. assert (Es : machine_step ProducerWake l n = Some (l, n'))
    by (apply machine_step_running; [apply Hn|by rewrite E]).
  unfold producer_wake in E. destruct (_ && _) eqn:Eb; [|done]. injection E as <-.
  apply andb_prop in Eb as [_ Eb]. pose proof Hn as [y1 y2 y3 y4 y5 y6 y7].
  split_and!; [by apply (ready_step _ _ _ Hn Es)| |done].
  unfold work. cbn [targetLogId_ lastFetchId_ flatMapSeq_ singleExecutor_ to_].
  rewrite Eb, Z.ltb_irrefl. lia.
Qed.

Lemma fetch_serves n n' : ready n → producer_fetch n = Some n' → serves n n'.
Proof.
  intros Hn E. assert (Es : machine_step ProducerFetch l n = Some (l, n'))
    by (apply machine_step_running; [apply Hn|by rewrite E]).
  unfold producer_fetch in E. destruct (Z.leb_spec (lastFetchId_ n + 1) (to_ n)) as [Hto|]; [|done].
  injection E as <-. pose proof Hn as [y1 y2 y3 y4 y5 y6 y7].
  destruct (k_pipeline _ _ _ y1) as [q1 q2 q3 q4 q5 q6 q7 q8 q9 q10].
  split_and!; [apply (ready_step _ _ _ Hn Es); try done| |done].
  - unfold clean, applying, handed in *. cbn [lastAppliedLogId_ flatMapSeq_ singleExecutor_].
    by rewrite yielded_add.
  - unfold work. cbn [targetLogId_ lastFetchId_ flatMapSeq_ singleExecutor_ to_ add tasks list_ generator].
    rewrite map_size_insert_None, length_app; [simpl; lia|].
    destruct (tasks (flatMapSeq_ n) !! _) eqn:Ei; [|done].
    destruct (f_tasks _ q1 (added (flatMapSeq_ n))); [by rewrite Ei|lia].
Qed.

Lemma task_serves i n l' n' : ready n → run_task i l n = Some (l', n') → l' = l ∧ serves n n'.
Proof.
  intros Hn E. pose proof Hn as [y1 y2 y3 y4 y5 y6 y7].
  destruct (k_pipeline _ _ _ y1) as [q1 q2 q3 q4 q5 q6 q7 q8 q9 q10].
  pose proof E as (id & o & f & Ei & Ef & Efin & ->)%run_task_inv.
  destruct (f_tasks _ q1 i) as [Hi _]; [by rewrite Ei|]. pose proof (q5 _ _ Ei) as Eid.
  destruct (y6 id) as [st Est]; [lia|]. rewrite Ef in Est. injection Est as -> ->. split; [done|].
  assert (Es : machine_step (RunTask i) l n = Some (l, set_flat f n))
    by (by apply machine_step_running).
  pose proof Efin as (f0 & p & _ & _ & _ & Hp & Efl)%finish_inv. specialize (Hp st eq_refl).
  apply flat_ok_finish in Efin as (_ & Ey & _); [|done].
  assert (Hg : generator f = generator (flatMapSeq_ n)) by (by rewrite Efl).
  split_and!; [apply (ready_step _ _ _ Hn Es); try done; cbn [flatMapSeq_ set_flat]| |done].
  - unfold clean, applying, handed in *. cbn [lastAppliedLogId_ flatMapSeq_ singleExecutor_ set_flat].
    by rewrite Ey, Hg.
  - by rewrite Hg.
  - intros k o'. rewrite Efl. simpl. rewrite lookup_insert. case_decide; [|apply y5].
    intros [= <-]. eauto.
  - unfold work. cbn [targetLogId_ lastFetchId_ flatMapSeq_ singleExecutor_ to_ set_flat].
    rewrite Hg, Efl. cbn [tasks list_]. rewrite map_size_delete_Some by (by rewrite Ei).
    assert (size (tasks (flatMapSeq_ n)) ≠ 0)%nat by (eapply map_size_ne_0_lookup_2; by rewrite Ei).
    lia.
Qed.

Lemma take_serves n n' : ready n → consumer_take n = Some n' → serves n n'.
Proof.
  intros Hn E. assert (Es : machine_step ConsumerTake l n = Some (l, n'))
    by (apply machine_step_running; [apply Hn|by rewrite E]).
  apply bind_Some in E as (f & Ef & [= <-]). pose proof Hn as [y1 y2 y3 y4 y5 y6 y7].
  destruct (k_pipeline _ _ _ y1) as [q1 q2 q3 q4 q5 q6 q7 q8 q9 q10].
  pose proof Ef as (_ & Ey & _)%flat_ok_take; [|done]. unfold take_front in Ef.
  destruct (generator (flatMapSeq_ n)) eqn:Eg; [|done..].
  destruct (list_ (flatMapSeq_ n)) as [|i rest] eqn:El; [by rewrite q2 in Ef|]. injection Ef as Ef.
  split_and!; [apply (ready_step _ _ _ Hn Es); try done; cbn [flatMapSeq_ set_flat]; rewrite <- ?Ef; try done| |done].
  - unfold clean, applying, handed in *. cbn [lastAppliedLogId_ flatMapSeq_ singleExecutor_ set_flat].
    rewrite <- Ef in Ey. rewrite Ey. simpl. by rewrite Eg in y3.
  - unfold work. cbn [targetLogId_ lastFetchId_ flatMapSeq_ singleExecutor_ to_ set_flat].
    rewrite <- Ef, Eg, El. simpl. lia.
Qed.

Lemma next_serves n n' : ready n → consumer_next n = Some n' → serves n n'.
Proof.
  intros Hn E. assert (Es : machine_step ConsumerNext l n = Some (l, n'))
    by (apply machine_step_running; [apply Hn|by rewrite E]).
  apply bind_Some in E as ([o f] & Ef & [= <-]). pose proof Hn as [y1 y2 y3 y4 y5 y6 y7].
  destruct (k_pipeline _ _ _ y1) as [q1 q2 q3 q4 q5 q6 q7 q8 q9 q10].
  pose proof Ef as (_ & _ & Ey & _)%flat_ok_yield; [|done]. unfold yield in Ef.
  destruct (generator (flatMapSeq_ n)) as [|i|] eqn:Eg; [done| |done].
  destruct (values (flatMapSeq_ n) !! i) as [v|] eqn:Ev; [|done].
  destruct (y5 _ _ Ev) as [st ->]. injection Ef as <- Ef.
  split_and!; [apply (ready_step _ _ _ Hn Es); try done; cbn [flatMapSeq_]; rewrite <- ?Ef; try done| |done].
  - unfold clean, applying, handed in *. cbn [lastAppliedLogId_ flatMapSeq_ singleExecutor_].
    rewrite <- Ef in Ey. rewrite Ey, length_app. simpl. rewrite Eg in *. simpl in *. lia.
  - unfold work. cbn [targetLogId_ lastFetchId_ flatMapSeq_ singleExecutor_ to_].
    rewrite <- Ef, Eg, length_app. simpl. lia.
Qed.

Lemma apply_serves n n' : ready n → apply_task n = Some n' → serves n n'.
Proof.
  intros Hn E. assert (Es : machine_step ApplyTask l n = Some (l, n'))
    by (apply machine_step_running; [apply Hn|by rewrite E]).
  pose proof Hn as [y1 y2 y3 y4 y5 y6 y7]. unfold apply_task in E.
  destruct (singleExecutor_ n) as [|st rest] eqn:Er; [done|].
  destruct (m_queue _ _ (k_pipeline _ _ _ y1) 0%nat st) as [Eid Et]; [by rewrite Er|].
  destruct (y7 _ _ (upstreamStateMachine_ n) Et) as (r & u & Ea). rewrite Ea in E. injection E as <-.
  pose proof (applying_rest _ n st rest u (k_pipeline _ _ _ y1) Er) as Eap.
  unfold complete in Es |- *. cbn [lastAppliedLogId_] in *. unfold clean in y3.
  rewrite (proj2 (Z.eqb_eq _ _)) in Es |- * by lia.
  split_and!; [apply (ready_step _ _ _ Hn Es); try done| |done].
  - unfold clean. cbn [lastAppliedLogId_]. rewrite Eid. unfold applying, handed in *.
    cbn [flatMapSeq_ singleExecutor_] in *. lia.
  - unfold work. cbn [targetLogId_ lastFetchId_ flatMapSeq_ singleExecutor_ to_].
    rewrite Er. simpl. lia.
Qed.

Lemma internal_serves n n' : ready n → internal_step n n' → serves n n'.
Proof.
  intros Hn (a & Ha & E). unfold machine_step in E. rewrite (y_running n Hn) in E.
  destruct a as [| | | |i| | |]; try done.
  3: by apply task_serves in E as [_ ?].
  all: apply fmap_Some in E as (n1 & E & [= ->]).
  - by apply wake_serves.
  - by apply fetch_serves.
  - by apply take_serves.
  - by apply next_serves.
  - by apply apply_serves.
Qed.

(** A ready machine without an internal step has applied everything up to its
    target. *)
Lemma idle_applied n :
  ready n → (∀ n', ¬ internal_step n n') → targetLogId_ n ≤ lastAppliedLogId_ n.
Proof.
  intros Hn Hidle. pose proof Hn as [y1 y2 y3 y4 y5 y6 y7].
  destruct (k_pipeline _ _ _ y1) as [q1 q2 q3 q4 q5 q6 q7 q8 q9 q10].
  assert (Hno : ∀ a n', internal a = true → machine_step a l n ≠ Some (l, n'))
    by (intros a n' Ha E; apply (Hidle n'); by exists a).
  assert (Hlf : targetLogId_ n ≤ lastFetchId_ n).
  { pose proof (Hno ProducerFetch) as Hf. pose proof (Hno ProducerWake) as Hw.
    unfold machine_step in Hf, Hw. rewrite y2 in Hf, Hw. unfold producer_fetch in Hf.
    unfold producer_wake in Hw.
    destruct (Z.leb_spec (lastFetchId_ n + 1) (to_ n)); [by destruct (Hf _ eq_refl eq_refl)|].
    rewrite (proj2 (Z.ltb_lt (to_ n) (lastFetchId_ n + 1))) in Hw by lia.
    destruct (Z.ltb_spec (to_ n) (targetLogId_ n)); [by destruct (Hw _ eq_refl eq_refl)|]. lia. }
  assert (Hq : singleExecutor_ n = []).
  { pose proof (Hno ApplyTask) as Hf. unfold machine_step, apply_task in Hf. rewrite y2 in Hf.
    destruct (singleExecutor_ n); [done|]. destruct (sm_apply _ _). by destruct (Hf _ eq_refl eq_refl). }
  assert (Hpend : pending (flatMapSeq_ n) = []).
  { unfold pending. pose proof (y4) as Hg. pose proof (f_order _ q1) as Ho. pose proof (length_pending _ q1) as Hl.
    pose proof (Hno ConsumerTake) as Ht. pose proof (Hno ConsumerNext) as Hx.
    unfold machine_step, consumer_take, consumer_next, take_front, yield in Ht, Hx. rewrite y2 in Ht, Hx.
    unfold pending in Ho, Hl. destruct (generator (flatMapSeq_ n)) as [|i|o] eqn:Eg; [| |by destruct (Hg o)].
    - destruct (list_ (flatMapSeq_ n)); [done|]. by destruct (Ht _ eq_refl eq_refl).
    - exfalso. simpl in Hl. destruct (added (flatMapSeq_ n) - yielded (flatMapSeq_ n))%nat eqn:Ed; [lia|].
      injection Ho as Ei _. destruct (f_cover _ q1 i) as [[id Ei']|[o Ei']]; [lia|..].
      + pose proof (Hno (RunTask i)) as Hr. unfold machine_step, run_task, finish in Hr.
        rewrite y2, Ei' in Hr. pose proof (q5 _ _ Ei'). destruct (y6 id) as [st Est]; [lia|].
        rewrite Est in Hr. simpl in Hr. by destruct (Hr _ eq_refl eq_refl).
      + rewrite Ei' in Hx. destruct (y5 _ _ Ei') as [st ->]. by destruct (Hx _ eq_refl eq_refl). }
  unfold clean in y3. rewrite y3. pose proof (length_pending _ q1) as Hl. rewrite Hpend in Hl. simpl in Hl.
  unfold applying, handed. rewrite Hq. simpl.
  destruct (generator (flatMapSeq_ n)) eqn:Eg; [lia..|by destruct (y4 o)].
Qed.

Lemma internal_run k n n' :
  ready n → nsteps internal_step k n n' →
  ready n' ∧ (k + work n' ≤ work n)%nat ∧ targetLogId_ n' = targetLogId_ n.
Proof.
  intros Hn Hr. induction Hr as [|k n n1 n2 Hs _ IH]; [by split_and!|].
  destruct (internal_serves _ _ Hn Hs) as (Hn1 & Hw & Et). destruct (IH Hn1) as (? & ? & ?).
  split_and!; [done|lia|congruence].
Qed.

Lemma internal_returned n n' j c id r :
  internal_step n n' → calls_ n !! j = Some (Returned c id (Some r)) →
  calls_ n' !! j = Some (Returned c id (Some r)).
Proof.
  intros (a & Ha & E) Ej. unfold machine_step in E. destruct (aborted_ n); [done|].
  destruct a as [| | | |i| | |]; try done.
  3: by apply run_task_inv in E as (?&?&?&_&_&_&->).
  all: apply fmap_Some in E as (n1 & E & [= ->]).
  - unfold producer_wake in E. destruct (_ && _); [|done]. by injection E as <-.
  - unfold producer_fetch in E. destruct (_ <=? _); [|done]. by injection E as <-.
  - by apply bind_Some in E as (f & _ & [= <-]).
  - by apply bind_Some in E as ([o f] & _ & [= <-]).
  - unfold apply_task in E. destruct (singleExecutor_ n) as [|st rest]; [done|].
    destruct (sm_apply _ _) as [[r'|e|] u]; injection E as <-; [|done..].
    unfold complete. destruct (_ =? _); simpl; by rewrite set_values_lookup, Ej.
Qed.

Lemma internal_run_calls k n n' j c id :
  ready n → nsteps internal_step k n n' →
  calls_ n !! j = Some (AwaitsFuture c id) → lastAppliedLogId_ n < id →
  calls_ n' !! j = Some (AwaitsFuture c id) ∧ lastAppliedLogId_ n' < id ∨
  ∃ r, calls_ n' !! j = Some (Returned c id (Some r)).
Proof.
  intros Hn Hr. induction Hr as [|k n n1 n2 Hs Hr IH]; [by left|]. intros Ej Hid.
  destruct (internal_serves _ _ Hn Hs) as (Hn1 & _). pose proof Hs as (a & _ & E).
  destruct (step_awaits u0 (written l) a l n l n1 j c id) as [(Ej1 & Hla & _)|(_ & _ & r & Ej1)];
    [apply Hn|done|apply Hn1|done|by apply IH; auto|].
  right. exists r. clear -Hr Ej1 HLL. induction Hr as [|k n1 n3 n2 Hs _ IH]; [done|].
  apply IH. by eapply internal_returned.
Qed.

(** C27: whatever the order of its steps, a machine that can read and apply the
    entries up to its target comes to rest after a bounded number of them, and
    then it has applied all these entries and has answered every call that
    waited for one of them. *)
Theorem machine_serves k n n' :
  ready n → nsteps internal_step k n n' →
  (k ≤ work n)%nat ∧
  ((∀ n'', ¬ internal_step n' n'') →
   targetLogId_ n ≤ lastAppliedLogId_ n' ∧
   ∀ j c id, calls_ n !! j = Some (AwaitsFuture c id) → lastAppliedLogId_ n < id →
     ∃ r, calls_ n' !! j = Some (Returned c id (Some r))).
Proof.
  intros Hn Hr. destruct (internal_run k n n' Hn Hr) as (Hn' & Hk & Et). split; [lia|].
  intros Hidle. apply idle_applied in Hidle; [|done]. rewrite Et in Hidle. split; [done|].
  intros j c id Ej Hid. destruct (internal_run_calls k n n' j c id Hn Hr Ej Hid) as [[Ej' Hid']|?]; [|done].
  pose proof (p_target _ (k_promises _ _ _ (y_ok n Hn)) _ _ _ Ej). lia.
Qed.
End progress.

(** ** [sync] *)

Section synchronization.
Context {L : Type} `{HL : VirtualLogOps L} `{HC : LogEntryCodec} {U R : Type} `{HU : StateMachine U R}.
Context `{HLL : !VirtualLogLaws L} `{HCL : !LogEntryCodecLaws} `{HE : Equiv U} `{HUL : !StateMachineLaws U R}.
Implicit Types n : VirtualLogStateMachine U R.

(** A [sync] that returned has waited for the entries below the position the
    log answered, and what the machine has applied at that time it never
    loses. *)
Theorem sync_waits (u0 : U) w0 w i n k id o :
  initial u0 w0 → rtc world_step w0 w → w_machines w !! i = Some n → aborted_ n = false →
  calls_ n !! k = Some (Returned CallSync id o) →
  ∃ es rs u, id ≤ length es ∧ Z.of_nat (length es) = lastAppliedLogId_ n ∧
    log_prefix (written (w_log w)) es ∧ apply_all es u0 = (Ret rs, u) ∧
    (clean n → upstreamStateMachine_ n ≡ u).
Proof.
  intros H0 Hr Ei Hab Ek. destruct (world_ok_reachable u0 w0 w H0 Hr i n Ei Hab) as [Hh _ _].
  destruct Hh as (es & rs & u & El & Hes & Ea & Hu & Hc). exists es, rs, u.
  split_and!; try done. by apply Hc in Ek.
Qed.

(** Over a log whose [sync] answers its last position, as that of the
    sequencer does ([VirtualLog.SequencerImpl_latestAppendPosition]), [sync]
    returns at once while the last entry is not applied. *)
Theorem sync_misses_last_entry l l' n k last :
  vlog_sync l = (Ret last, l') → lastAppliedLogId_ n = last - 1 →
  aborted_ n = false → calls_ n !! k = None →
  ∃ n', machine_run [StartCall k CallSync; RegisterCall k] l n = Some (l', n') ∧
    calls_ n' !! k = Some (Returned CallSync (last - 1) None) ∧
    lastAppliedLogId_ n' < last ∧ upstreamStateMachine_ n' = upstreamStateMachine_ n.
Proof.
  intros Es El Hab Ek. eexists. split.
  - assert (E1 : machine_step (StartCall k CallSync) l n =
                 Some (l', set_call k (Located CallSync (last - 1)) n)).
    { unfold machine_step, start_call. rewrite Hab, Ek. cbn [locate]. by rewrite (bind_Ret _ _ _ _ _ Es). }
    cbn [machine_run]. rewrite E1. cbn. unfold machine_step. cbn [aborted_ set_call]. rewrite Hab.
    unfold register_call. cbn. rewrite lookup_insert_eq.
    rewrite (proj2 (Z.leb_le _ _)) by lia. reflexivity.
  - simpl. rewrite lookup_insert_eq. split_and!; [done|lia|done].
Qed.
End synchronization.

(** ** The other machines of [statemachine/] *)

(** [NullStateMachine] *)
Record NullStateMachine := mkNull {}.
#[export] Instance NullStateMachine_StateMachine {R} : StateMachine NullStateMachine R :=
  {| sm_apply _ := throw NullStateMachineError |}.

(** [SinkStateMachine] *)
Record SinkStateMachine := mkSink { entries_ : list LogEntry_1 }.
Definition Sink_apply (input : LogEntry_1) : M SinkStateMachine LogEntry_1 := λ s,
  (Ret input, mkSink (entries_ s ++ [input])).
Definition getAllLogEntries (s : SinkStateMachine) : list LogEntry_1 := entries_ s.
#[export] Instance SinkStateMachine_StateMachine : StateMachine SinkStateMachine LogEntry_1 :=
  {| sm_apply := Sink_apply |}.
#[export] Instance SinkStateMachine_equiv : Equiv SinkStateMachine := (=).
#[export] Instance SinkStateMachine_laws : StateMachineLaws SinkStateMachine LogEntry_1.
Proof. split; [apply _|]. by intros t _ <- s _ <-. Qed.

(** The result types are variants with [folly::Unit]. *)
Class HasUnit (R : Type) := folly_unit : R.

(** The serialization generated for [LogTrimView]. *)
Class LogTrimViewCodec := { View_ParseFromString : string → option (gmap string LogTrimEntry) }.

(** [LogTrimApplicator]; null pointers are [None].  The view it builds is not
    stored; [scheduleOn] dereferences the executor. *)
Section trim.
Context {K : Type} `{KVStoreLite K} `{LogTrimViewCodec} {U R : Type} `{StateMachine U R}.
Context (unit_ : R).

Record LogTrimApplicator := mkApplicator {
  kvStore_ : option K;
  executor_ : option () }.
Definition makeLogTrimApplicator (kvStore : option K) : LogTrimApplicator :=
  mkApplicator kvStore None.

Definition read_view (stored : option string) : outcome (gmap string LogTrimEntry) :=
  match stored with
  | None => Ret ∅
  | Some v =>
      match View_ParseFromString v with
      | None => Throw (RuntimeError "trim entry parse error")
      | Some view => Ret view
      end
  end.
Definition emplace_entry (e : LogTrimEntry) (view : gmap string LogTrimEntry)
    : gmap string LogTrimEntry :=
  match view !! trim_replica_id e with
  | Some _ => view
  | None => <[trim_replica_id e := e]> view
  end.

Definition LogTrimApplicator_apply (t : LogEntry_1) : M LogTrimApplicator R := λ s,
  match t with
  | log_trim_entry logTrimEntry =>
      match kvStore_ s with
      | None => (Throw NullPointer, s)
      | Some k =>
          let '(o, k') := kv_get "LOG_TRIM_VIEW" k in
          let s' := mkApplicator (Some k') (executor_ s) in
          (result ← o;
           logTrimView ← read_view result;
           let logTrimView := emplace_entry logTrimEntry logTrimView in
           match executor_ s' with
           | None => Throw NullPointer
           | Some _ => Ret unit_
           end, s')
      end
  | _ => (Ret unit_, s)
  end.

(** [LogTrimStateMachine] *)
Record LogTrimStateMachine := mkTrimMachine {
  applicator_ : LogTrimApplicator;
  trim_upstream : U }.
Definition LogTrim_apply (t : LogEntry_1) : M LogTrimStateMachine R :=
  match t with
  | log_trim_entry _ =>
      zoom applicator_ (λ a s, mkTrimMachine a (trim_upstream s)) (LogTrimApplicator_apply t)
  | _ => zoom trim_upstream (λ u s, mkTrimMachine (applicator_ s) u) (sm_apply t)
  end.

(** The stack of [makeStateMachineStack] above the virtual log, once
    [setUpstreamStateMachine] has put the application on top. *)
Definition makeStateMachineStack (kvStore : option K) (upstream : U) : LogTrimStateMachine :=
  mkTrimMachine (makeLogTrimApplicator kvStore) upstream.
End trim.
Arguments LogTrimApplicator : clear implicits.
Arguments LogTrimStateMachine : clear implicits.

#[export] Instance LogTrimStateMachine_StateMachine {K U R} `{KVStoreLite K} `{LogTrimViewCodec}
    `{StateMachine U R} `{HasUnit R} : StateMachine (LogTrimStateMachine K U) R :=
  {| sm_apply := LogTrim_apply folly_unit |}.

#[export] Instance LogTrimStateMachine_equiv {K U} `{Equiv U} : Equiv (LogTrimStateMachine K U) :=
  λ a b, applicator_ a = applicator_ b ∧ trim_upstream a ≡ trim_upstream b.

#[export] Instance LogTrimStateMachine_laws {K U R} `{KVStoreLite K} `{LogTrimViewCodec}
    `{Equiv U} `{StateMachine U R} `{HasUnit R} `{!StateMachineLaws U R} :
  StateMachineLaws (LogTrimStateMachine K U) R.
Proof.
  split.
  - split.
    + by intros a.
    + intros a b [E1 E2]. by split.
    + intros a b c [E1 E2] [E3 E4]. split; by etrans.
  - intros t _ <- [a u] [b v] [E Eu]. simpl in E, Eu. subst b.
    pose proof (sm_apply_proper t t eq_refl u v Eu) as [Ho Hu].
    destruct t as [| | | |e]; simpl; unfold LogTrim_apply, zoom; cbn [applicator_ trim_upstream];
      [| | | |by destruct (LogTrimApplicator_apply (folly_unit : R) (log_trim_entry e) a)];
      destruct (sm_apply _ u) as [o1 u1], (sm_apply _ v) as [o2 v1]; by split.
Qed.

(** A trim entry is never applied. *)
Lemma trim_entry_fails {K U R} `{KVStoreLite K} `{LogTrimViewCodec} `{StateMachine U R} (unit_ : R)
    (e : LogTrimEntry) (kvStore : option K) (u : U) o s :
  LogTrim_apply unit_ (log_trim_entry e) (makeStateMachineStack kvStore u) = (o, s) →
  (∀ r, o ≠ Ret r) ∧ trim_upstream s = u.
Proof.
  unfold LogTrim_apply, zoom, LogTrimApplicator_apply. simpl. destruct kvStore as [k|]; simpl.
  - destruct (kv_get _ k) as [[v|x|] k']; simpl; [|by intros [= <- <-]..].
    destruct (read_view v); by intros [= <- <-].
  - by intros [= <- <-].
Qed.

(** ** A concrete log: [InMemoryFakeVirtualLog]

    of [src/applications/counter/test/]; ids are handed out in order. *)

Record InMemoryFakeVirtualLog := mkFakeLog {
  logEntries_ : gmap Z string;
  logId_ : Z;
  below : ∀ id p, logEntries_ !! id = Some p → id < logId_ }.

Lemma below_insert (l : InMemoryFakeVirtualLog) payload id p :
  <[logId_ l := payload]> (logEntries_ l) !! id = Some p → id < logId_ l + 1.
Proof. rewrite lookup_insert. case_decide; [lia|]. intros ?%below. lia. Qed.

Lemma below_empty id p : (∅ : gmap Z string) !! id = Some p → id < 1.
Proof. by rewrite lookup_empty. Qed.

Definition makeInMemoryFakeVirtualLog : InMemoryFakeVirtualLog := mkFakeLog ∅ 1 below_empty.

Definition Fake_append (logEntryPayload : string) : M InMemoryFakeVirtualLog Z := λ l,
  (Ret (logId_ l), mkFakeLog (<[logId_ l := logEntryPayload]> (logEntries_ l)) (logId_ l + 1)
                     (below_insert l logEntryPayload)).
Definition Fake_getLogEntry (logId : Z) : M InMemoryFakeVirtualLog (LogEntry + LogReadError) :=
  gets (λ l, match logEntries_ l !! logId with
             | Some p => inl (mkLogEntry logId p)
             | None => inr Unknown
             end).
Definition Fake_sync : M InMemoryFakeVirtualLog Z := gets logId_.

#[export] Instance Fake_ops : VirtualLogOps InMemoryFakeVirtualLog :=
  {| vlog_append := Fake_append; vlog_getLogEntry := Fake_getLogEntry; vlog_sync := Fake_sync |}.
#[export] Instance Fake_laws : VirtualLogLaws InMemoryFakeVirtualLog.
Proof.
  refine {| written l id := logEntries_ l !! id |}.
  - intros p l o l' [= <- <-]. simpl. split.
    + intros id p' Ep. rewrite lookup_insert_ne; [done|]. apply below in Ep. lia.
    + intros id [= <-]. by rewrite lookup_insert_eq.
  - intros id l o l' [= <- <-]. split; [done|]. intros e. simpl.
    destruct (logEntries_ l !! id) as [p|]; [|done]. by intros [= <-].
  - by intros l o l' [= <- <-].
Defined.

(** ** A concrete codec *)

#[export] Instance SingleLogEntry_eq_dec : EqDecision SingleLogEntry.
Proof. solve_decision. Defined.
#[export] Instance LogTrimEntry_eq_dec : EqDecision LogTrimEntry.
Proof. solve_decision. Defined.
#[export] Instance TransactionalLogEntry_eq_dec : EqDecision TransactionalLogEntry.
Proof. solve_decision. Defined.
#[export] Instance LogEntry_1_eq_dec : EqDecision LogEntry_1.
Proof. solve_decision. Defined.
#[export] Instance SingleLogEntry_countable : Countable SingleLogEntry.
Proof.
  by apply (inj_countable' (λ e, (entry_id e, entry_payload e)) (λ '(i, p), mkSingle i p)); intros [].
Defined.
#[export] Instance LogTrimEntry_countable : Countable LogTrimEntry.
Proof.
  by apply (inj_countable' (λ e, (trim_id e, trim_replica_id e, trim_snapshot_id e))
              (λ '(i, r, s), mkTrim i r s)); intros [].
Defined.
#[export] Instance TransactionalLogEntry_countable : Countable TransactionalLogEntry.
Proof.
  by apply (inj_countable'
    (λ e, match e with txn_entry_not_set => None | txn_single_log_entry e => Some (inl e)
          | txn_batch_log_entry es => Some (inr es) end)
    (λ x, match x with None => txn_entry_not_set | Some (inl e) => txn_single_log_entry e
          | Some (inr es) => txn_batch_log_entry es end)); intros [].
Defined.
#[export] Instance LogEntry_1_countable : Countable LogEntry_1.
Proof.
  by apply (inj_countable'
    (λ e, match e with entry_not_set => inl None | single_log_entry e => inl (Some (inl e))
          | batch_log_entry es => inl (Some (inr es)) | transactional_log_entry e => inr (inl e)
          | log_trim_entry e => inr (inr e) end)
    (λ x, match x with inl None => entry_not_set | inl (Some (inl e)) => single_log_entry e
          | inl (Some (inr es)) => batch_log_entry es | inr (inl e) => transactional_log_entry e
          | inr (inr e) => log_trim_entry e end)); intros [].
Defined.

Definition bits_entry_codec : LogEntryCodec :=
  {| Entry_SerializeAsString := to_bits; Entry_ParseFromString := of_bits |}.
#[export] Instance bits_entry_codec_laws : @LogEntryCodecLaws bits_entry_codec.
Proof. intros t. apply of_to_bits. Qed.

(** ** Runs of the system *)

Section runs.
Context {L : Type} `{HL : VirtualLogOps L} `{HC : LogEntryCodec} {U R : Type} `{HU : StateMachine U R}.
Context `{HLL : !VirtualLogLaws L} `{HE : Equiv U}.

Fixpoint world_run (acts : list (nat * machine_action)) (w : World L U R) : option (World L U R) :=
  match acts with
  | [] => Some w
  | (i, a) :: acts' =>
      n ← w_machines w !! i;
      '(l', n') ← machine_step a (w_log w) n;
      world_run acts' (mkWorld l' (<[i := n']> (w_machines w)))
  end.

Lemma world_run_reachable acts w w' : world_run acts w = Some w' → rtc world_step w w'.
Proof.
  revert w. induction acts as [|[i a] acts IH]; intros w; simpl; [by intros [= <-]|].
  intros (n & Ei & ([l' n'] & Es & Er)%bind_Some)%bind_Some.
  eapply rtc_l; [by eapply step_machine|]. by apply IH.
Qed.

Lemma machine_run_internal acts l l' (n n' : VirtualLogStateMachine U R) :
  (∀ id, (vlog_getLogEntry id l).2 = l) → forallb internal acts = true →
  machine_run acts l n = Some (l', n') → nsteps (internal_step l) (length acts) n n'.
Proof.
  intros Hl. revert n. induction acts as [|a acts IH]; intros n; simpl; [intros _ [= <- <-]; constructor|].
  intros [Ha Hacts]%andb_prop ([l1 n1] & Es & Er)%bind_Some.
  assert (l1 = l) as ->; [|eapply nsteps_l; [by exists a|by apply IH]].
  unfold machine_step in Es. destruct (aborted_ n); [done|]. destruct a; try done;
    try (by apply fmap_Some in Es as (? & _ & [= -> _])).
  apply run_task_inv in Es as (id & o & f & _ & Ef & _). unfold fetch_entry, mbind, M_bind in Ef.
  specialize (Hl id). destruct (vlog_getLogEntry id l) as [[[e|e]| |] l2]; simpl in Hl; subst l2;
    [destruct (Entry_ParseFromString _)|..]; by injection Ef as _ <-.
Qed.
End runs.

(** ** Concrete runs *)

#[local] Existing Instance bits_entry_codec.
Abbreviation FakeWorld := (World InMemoryFakeVirtualLog SinkStateMachine LogEntry_1).
Abbreviation FakeMachine := (VirtualLogStateMachine SinkStateMachine LogEntry_1).

Definition entry_of_payload (p : string) : LogEntry_1 := single_log_entry (mkSingle 0 p).
Definition empty_sink : SinkStateMachine := mkSink [].
Definition two_machines : FakeWorld :=
  mkWorld makeInMemoryFakeVirtualLog
    [makeVirtualLogStateMachine empty_sink 0; makeVirtualLogStateMachine empty_sink 0].

(** Both machines append, the second one reads the entries in the opposite
    order; then the first one synchronizes. *)
Definition two_clients_of (t1 t2 : LogEntry_1) : list (nat * machine_action) :=
  [(0, StartCall 0 (CallAppend t1)); (1, StartCall 0 (CallAppend t2));
   (1, RegisterCall 0); (1, ProducerWake); (1, ProducerFetch); (1, ProducerFetch);
   (1, RunTask 1); (1, RunTask 0); (1, ConsumerTake); (1, ConsumerNext); (1, ConsumerTake);
   (1, ConsumerNext); (1, ApplyTask); (1, ApplyTask);
   (0, RegisterCall 0); (0, ProducerWake); (0, ProducerFetch); (0, RunTask 0); (0, ConsumerTake);
   (0, ConsumerNext); (0, ApplyTask);
   (0, StartCall 1 CallSync); (0, RegisterCall 1); (0, ProducerWake); (0, ProducerFetch);
   (0, RunTask 1); (0, ConsumerTake); (0, ConsumerNext); (0, ApplyTask)]%nat.
Definition two_clients : list (nat * machine_action) :=
  two_clients_of (entry_of_payload "a") (entry_of_payload "b").

Lemma initial_two_machines : initial empty_sink two_machines.
Proof. intros [|[|i]] n; simpl; by intros [= <-]. Qed.

(** What the witnesses look at. *)
Definition view (w : FakeWorld) (i : nat) :=
  n ← w_machines w !! i;
  Some (aborted_ n, lastAppliedLogId_ n, upstreamStateMachine_ n, calls_ n !! 0%nat, applying n).

Lemma view_Some w i b la u c ap :
  view w i = Some (b, la, u, c, ap) →
  ∃ n, w_machines w !! i = Some n ∧ aborted_ n = b ∧ lastAppliedLogId_ n = la ∧
    upstreamStateMachine_ n = u ∧ calls_ n !! 0%nat = c ∧ applying n = ap.
Proof. unfold view. intros (n & Ei & [= <- <- <- <- <-])%bind_Some. by exists n. Qed.

Lemma run_view acts w i x :
  (w' ← world_run acts w; view w' i) = Some x →
  ∃ w', world_run acts w = Some w' ∧ rtc world_step w w' ∧ view w' i = Some x.
Proof. intros (w' & E & Ev)%bind_Some. exists w'. split_and!; [done|by eapply world_run_reachable|done]. Qed.

Definition both_entries : SinkStateMachine := mkSink [entry_of_payload "a"; entry_of_payload "b"].

Lemma machines_apply_log_witness :
  ∃ w n, rtc world_step two_machines w ∧ w_machines w !! 1%nat = Some n ∧
    lastAppliedLogId_ n = 2 ∧ upstreamStateMachine_ n = both_entries ∧
    calls_ n !! 0%nat = Some (Returned (CallAppend (entry_of_payload "b")) 2 (Some (entry_of_payload "b"))) ∧
    ∃ es rs u, Z.of_nat (length es) = lastAppliedLogId_ n ∧
      log_prefix (written (w_log w)) es ∧ apply_all es empty_sink = (Ret rs, u) ∧
      (clean n → upstreamStateMachine_ n ≡ u) ∧
      ∀ k t id r, calls_ n !! k = Some (Returned (CallAppend t) id (Some r)) →
        1 ≤ id ∧ es !! Z.to_nat (id - 1) = Some t ∧ rs !! Z.to_nat (id - 1) = Some r.
Proof.
  destruct (run_view two_clients two_machines 1 (false, 2, both_entries,
    Some (Returned (CallAppend (entry_of_payload "b")) 2 (Some (entry_of_payload "b"))), 2%nat))
    as (w & _ & Hr & (n & Ei & Hab & El & Eu & Ec & _)%view_Some); [by vm_compute|].
  exists w, n. split_and!; [done..|].
  exact (machines_apply_log empty_sink two_machines w 1 n initial_two_machines Hr Ei Hab).
Defined.

Lemma machines_agree_witness :
  ∃ w n m, rtc world_step two_machines w ∧ w_machines w !! 0%nat = Some n ∧
    w_machines w !! 1%nat = Some m ∧ upstreamStateMachine_ n = both_entries ∧
    upstreamStateMachine_ n ≡ upstreamStateMachine_ m.
Proof.
  assert (E : (w' ← world_run two_clients two_machines; x ← view w' 0; y ← view w' 1;
      Some (x.1.1.1.1, x.1.1.1.2, x.1.1.2, x.2, (y.1.1.1.1, y.1.1.1.2, y.2))) =
    Some (false, 2, both_entries, 2%nat, (false, 2, 2%nat))) by (by vm_compute).
  apply bind_Some in E as (w & Er & ([[[[b la] u] c] ap] & Ex & ([[[[b' la'] u'] c'] ap'] & Ey & E)%bind_Some)%bind_Some).
  simpl in E. injection E as -> -> -> -> -> -> ->.
  apply view_Some in Ex as (n & Ei & Hn & El & Eu & _ & Ea), Ey as (m & Ej & Hm & El' & _ & _ & Ea').
  apply world_run_reachable in Er. exists w, n, m. split_and!; [done..|].
  apply (machines_agree empty_sink two_machines w 0 1 n m initial_two_machines Er Ei Ej Hn Hm);
    unfold clean; by rewrite ?El, ?Ea, ?El', ?Ea'.
Defined.

(** Two appends at once: the second one registers first and brings the machine
    past the entry of the first one. *)
Definition late_call : list (nat * machine_action) :=
  [(0, StartCall 0 (CallAppend (entry_of_payload "a"))); (0, StartCall 1 (CallAppend (entry_of_payload "b")));
   (0, RegisterCall 1); (0, ProducerWake); (0, ProducerFetch); (0, ProducerFetch);
   (0, RunTask 0); (0, RunTask 1); (0, ConsumerTake); (0, ConsumerNext); (0, ConsumerTake);
   (0, ConsumerNext); (0, ApplyTask); (0, ApplyTask); (0, RegisterCall 0)]%nat.

Lemma lost_call_never_returns_witness :
  ∃ w n, rtc world_step two_machines w ∧ w_machines w !! 0%nat = Some n ∧
    lastAppliedLogId_ n = 2 ∧
    calls_ n !! 0%nat = Some (AwaitsFuture (CallAppend (entry_of_payload "a")) 1) ∧
    ∀ w', rtc world_step w w' → ∃ n', w_machines w' !! 0%nat = Some n' ∧
      (aborted_ n' = true ∨
       calls_ n' !! 0%nat = Some (AwaitsFuture (CallAppend (entry_of_payload "a")) 1)).
Proof.
  destruct (run_view late_call two_machines 0 (false, 2, both_entries,
    Some (AwaitsFuture (CallAppend (entry_of_payload "a")) 1), 2%nat))
    as (w & _ & Hr & (n & Ei & Hab & El & Eu & Ec & _)%view_Some); [by vm_compute|].
  exists w, n. split_and!; [done..|]. intros w' Hr'.
  apply (lost_call_never_returns empty_sink two_machines w w' 0 n 0 _ 1 initial_two_machines Hr Ei Hab Ec);
    [left; lia|done].
Defined.

(** One append, served by the steps of its machine. *)
Definition fake_machine : FakeMachine := makeVirtualLogStateMachine empty_sink 0.
Definition one_append : list machine_action :=
  [StartCall 0 (CallAppend (entry_of_payload "a")); RegisterCall 0].
Definition serve_one : list machine_action :=
  [ProducerWake; ProducerFetch; RunTask 0; ConsumerTake; ConsumerNext; ApplyTask].

Lemma fake_fetch_log id (l : InMemoryFakeVirtualLog) : (fetch_entry id l).2 = l.
Proof.
  unfold fetch_entry, mbind, M_bind. simpl. destruct (logEntries_ l !! id) as [p|]; [|done].
  by destruct (Entry_ParseFromString p) eqn:E; simpl in *; rewrite E.
Qed.

(** A machine in which no entry has been fetched yet. *)
Lemma sink_ready (l : InMemoryFakeVirtualLog) (n : FakeMachine) st :
  machine_ok empty_sink (written l) n → aborted_ n = false → clean n →
  generator (flatMapSeq_ n) = Looping → values (flatMapSeq_ n) = ∅ → targetLogId_ n = 1 →
  (fetch_entry 1 l).1 = Ret st → ready empty_sink l n.
Proof.
  intros Hok Hab Hc Hg Hv Ht Hf. split; try done.
  - intros o. by rewrite Hg.
  - intros i o. by rewrite Hv.
  - intros id Hid. assert (id = 1) as -> by lia. exists st.
    rewrite <- Hf. rewrite <- (fake_fetch_log 1 l) at 3. by destruct (fetch_entry 1 l).
  - intros id t u _. by eexists _, _.
Qed.

Lemma machine_serves_witness :
  ∃ l n n', ready empty_sink l n ∧ nsteps (internal_step l) 6 n n' ∧
    calls_ n !! 0%nat = Some (AwaitsFuture (CallAppend (entry_of_payload "a")) 1) ∧
    lastAppliedLogId_ n' = 1 ∧
    (6 ≤ work n)%nat ∧
    ((∀ n'', ¬ internal_step l n' n'') →
     targetLogId_ n ≤ lastAppliedLogId_ n' ∧
     ∀ j c id, calls_ n !! j = Some (AwaitsFuture c id) → lastAppliedLogId_ n < id →
       ∃ r, calls_ n' !! j = Some (Returned c id (Some r))).
Proof.
  assert (E : ('(l, n) ← machine_run one_append makeInMemoryFakeVirtualLog fake_machine;
               '(_, n') ← machine_run serve_one l n;
               Some (aborted_ n, (lastAppliedLogId_ n, applying n), (generator (flatMapSeq_ n),
                     values (flatMapSeq_ n), targetLogId_ n), (fetch_entry 1 l).1, calls_ n !! 0%nat,
                     lastAppliedLogId_ n')) =
    Some (false, (0, 0%nat), (Looping, ∅, 1), Ret (mkState 1 (entry_of_payload "a")),
          Some (AwaitsFuture (CallAppend (entry_of_payload "a")) 1), 1)) by (by vm_compute).
  apply bind_Some in E as ([l n] & Er & ([l' n'] & Es & E)%bind_Some).
  injection E as Hab El Eap Eg Ev Et Ef Ec El'. exists l, n, n'.
  assert (Hn : ready empty_sink l n).
  { apply (sink_ready l n (mkState 1 (entry_of_payload "a"))); try done.
    - by apply (machine_run_ok empty_sink one_append makeInMemoryFakeVirtualLog fake_machine);
        [apply machine_ok_make|..].
    - unfold clean. by rewrite El, Eap. }
  assert (Hs : nsteps (internal_step l) 6 n n')
    by (by apply (machine_run_internal serve_one l l' n n')).
  refine (conj Hn (conj Hs (conj Ec (conj El' _)))). exact (machine_serves empty_sink l 6 n n' Hn Hs).
Defined.

(** The log of the first run, read by [sync]. *)
Lemma sync_waits_witness :
  ∃ w n o, rtc world_step two_machines w ∧ w_machines w !! 0%nat = Some n ∧
    calls_ n !! 1%nat = Some (Returned CallSync 2 o) ∧
    ∃ es rs u, 2 ≤ length es ∧ Z.of_nat (length es) = lastAppliedLogId_ n ∧
      log_prefix (written (w_log w)) es ∧ apply_all es empty_sink = (Ret rs, u) ∧
      (clean n → upstreamStateMachine_ n ≡ u).
Proof.
  assert (E : (w' ← world_run two_clients two_machines; n ← w_machines w' !! 0%nat;
      Some (aborted_ n, calls_ n !! 1%nat)) =
    Some (false, Some (Returned CallSync 2 (Some (entry_of_payload "b"))))) by (by vm_compute).
  apply bind_Some in E as (w & Er & (n & Ei & E)%bind_Some). injection E as Hab Ec.
  apply world_run_reachable in Er. exists w, n, (Some (entry_of_payload "b")).
  refine (conj Er (conj Ei (conj Ec _))).
  exact (sync_waits empty_sink two_machines w 0 n 1 2 _ initial_two_machines Er Ei Hab Ec).
Defined.

(** The log in memory, but with the [sync] of the sequencer: its last
    position. *)
Record LastIdLog := mkLastIdLog { fake_log : InMemoryFakeVirtualLog }.
#[local] Instance LastId_ops : VirtualLogOps LastIdLog := {|
  vlog_append p := zoom fake_log (λ l _, mkLastIdLog l) (vlog_append p);
  vlog_getLogEntry id := zoom fake_log (λ l _, mkLastIdLog l) (vlog_getLogEntry id);
  vlog_sync := gets (λ l, logId_ (fake_log l) - 1) |}.

Lemma sync_misses_last_entry_witness :
  ∃ l, vlog_append "x" (mkLastIdLog makeInMemoryFakeVirtualLog) = (Ret 1, l) ∧
    vlog_sync l = (Ret 1, l) ∧
    ∃ n', machine_run [StartCall 0 CallSync; RegisterCall 0] l fake_machine = Some (l, n') ∧
      calls_ n' !! 0%nat = Some (Returned CallSync (1 - 1) None) ∧
      lastAppliedLogId_ n' < 1 ∧ upstreamStateMachine_ n' = upstreamStateMachine_ fake_machine.
Proof.
  eexists. split; [reflexivity|]. split; [reflexivity|].
  apply (sync_misses_last_entry _ _ fake_machine 0 1); reflexivity.
Defined.
