(* ===== verification/Counter.v ===== *)
(** * The counter application

    [src/applications/counter/]: [CounterApp.cc], [CounterApplicator.cc],
    [CounterAppStateMachine.cc], [CounterHealthCheck.cc] and the services of
    [server/CounterAppServer.h].  Counters are replicated by appending their
    changes to the log; the application is the state above a machine of
    [LogMachine.v].

    A value is an [int64]; where a sum leaves its range the behaviour of C++ is
    undefined, and the model wraps around.  In the program the application and
    the trim applicator share one store, of which the latter only reads a key
    that nobody writes; in the model each has its own. *)

From stdpp Require Import base gmap list strings pretty relations.
From Stdlib Require Import ZArith Lia.
From S2P Require Import Prelude LogTypes KVStore FlatMap LogMachine.

Open Scope Z_scope.

(** ** Messages: [CounterEntry.proto] and [CounterService.proto] *)

(** [CommandType]; an enum field of a message can hold any number. *)
Definition INCR : Z := 0.
Definition DECR : Z := 1.
Record CounterLogEntry := mkCounterLogEntry {
  entry_key : string; entry_val : Z; commandType : Z; description : string }.
Abbreviation CounterLogEntries := (list CounterLogEntry).
Record CounterAppSnapshot := mkSnapshot { snap_log_id : Z; snap_values : gmap string Z }.

Record CounterKeyValue := mkKeyValue { kv_key : string; kv_val : Z }.

Inductive Operation :=
  | IncrOperation (key : string) (incrBy : Z)
  | DecrOperation (key : string) (decrBy : Z).

Record CounterValue := mkCounterValue { value_key : string; value : Z }.
Inductive grpc_Status := Grpc_OK | Grpc_Unknown (e : exn).

Class CounterCodec := {
  Entries_SerializeAsString : CounterLogEntries → string;
  Entries_ParseFromString : string → option CounterLogEntries;
  Snapshot_SerializeAsString : CounterAppSnapshot → string;
  Snapshot_ParseFromString : string → option CounterAppSnapshot }.
Class CounterCodecLaws `{CounterCodec} := {
  parse_entries t : Entries_ParseFromString (Entries_SerializeAsString t) = Some t;
  parse_snapshot s : Snapshot_ParseFromString (Snapshot_SerializeAsString s) = Some s }.

(** [state_machine::ReturnType<std::vector<CounterKeyValue>, folly::Unit>] *)
Abbreviation ReturnType := (list CounterKeyValue + ())%type.
#[export] Instance ReturnType_unit : HasUnit ReturnType := inr ().

(** The directories of checkpoints on disk: RocksDB creates a checkpoint in a
    directory that does not exist yet and otherwise reports an error, which
    [RocksKVStoreLite::checkpoint] only logs. *)
Class Checkpoints (K F : Type) := { checkpoint : string → K → F → F }.
Class CheckpointsLaws (K F : Type) `{Checkpoints K F} := {
  checkpoint_at : F → string → option K;
  checkpoint_law dir k f dir' : checkpoint_at (checkpoint dir k f) dir' =
    if decide (dir = dir')
    then match checkpoint_at f dir with Some k0 => Some k0 | None => Some k end
    else checkpoint_at f dir' }.

(** A checkpoint of a store over RocksDB. *)
#[export] Instance rocks_checkpoints {D F : Type} `{RocksDB D} `{RocksCheckpoints D F}
    : Checkpoints (Rocks.RocksKVStoreLite D) F :=
  {| checkpoint dir k f := (Rocks.checkpoint dir (k, f)).2.2 |}.

(** ** CounterApp *)

Section app.
Context {K F : Type} `{KVStoreLite K} `{Checkpoints K F} `{CounterCodec}.

Record CounterApp := mkApp {
  lookup_ : gmap string Z;
  lastAppliedEntry_ : Z;
  lastSnapshotId_ : Z;
  app_kvStore_ : option K;
  disk : F }.
Implicit Types a : CounterApp.

Definition makeCounterApp (kvStore : option K) (f : F) : CounterApp := mkApp ∅ 0 0 kvStore f.

Definition set_lookup (m : gmap string Z) a : CounterApp :=
  mkApp m (lastAppliedEntry_ a) (lastSnapshotId_ a) (app_kvStore_ a) (disk a).

(** [lookup_[key]]: a new entry is zero. *)
Definition lookup_ref (key : string) : M CounterApp Z := λ a,
  match lookup_ a !! key with
  | Some v => (Ret v, a)
  | None => (Ret 0, set_lookup (<[key := 0]> (lookup_ a)) a)
  end.
Definition assign (key : string) (v : Z) : M CounterApp CounterKeyValue :=
  _ ← modify (λ a, set_lookup (<[key := v]> (lookup_ a)) a);
  mret (mkKeyValue key v).

(** One round of the loop of [apply]. *)
Definition apply_entry (e : CounterLogEntry) : M CounterApp CounterKeyValue :=
  val ← lookup_ref (entry_key e);
  if commandType e =? INCR then assign (entry_key e) (wrap64 (val + entry_val e))
  else if commandType e =? DECR then assign (entry_key e) (wrap64 (val - entry_val e))
  else throw (RuntimeError "Unknown Command. This is a non-recoverable error.").
Fixpoint apply_entries (es : CounterLogEntries) : M CounterApp (list CounterKeyValue) :=
  match es with
  | [] => mret []
  | e :: es' => v ← apply_entry e; vs ← apply_entries es'; mret (v :: vs)
  end.
Definition apply (counterLogEntries : CounterLogEntries) (logId : Z)
    : M CounterApp (list CounterKeyValue) :=
  counterValues ← apply_entries counterLogEntries;
  _ ← modify (λ a, mkApp (lookup_ a) logId (lastSnapshotId_ a) (app_kvStore_ a) (disk a));
  mret counterValues.

Definition getValues : M CounterApp (gmap string Z) := gets lookup_.
Definition getLastSnapshotId a : Z := lastSnapshotId_ a.

(** A call on the store; [null] is what a null pointer leads to. *)
Definition on_kv {A} (null : exn) (m : M K A) : M CounterApp A := λ a,
  match app_kvStore_ a with
  | None => (Throw null, a)
  | Some k =>
      let '(o, k') := m k in
      (o, mkApp (lookup_ a) (lastAppliedEntry_ a) (lastSnapshotId_ a) (Some k') (disk a))
  end.

Definition SNAPSHOT_KEY : string := "COUNTER_APP_SNAPSHOT".
Definition make_snapshot a : CounterAppSnapshot := mkSnapshot (lastAppliedEntry_ a) (lookup_ a).
Definition checkpoint_path (snapshotDirectory : string) (id : Z) : string :=
  (snapshotDirectory +:+ "/" +:+ pretty id)%string.
(** [lastSnapshotId_ = lastAppliedEntry_] and the checkpoint. *)
Definition checkpointed (snapshotDirectory : string) a : CounterApp :=
  mkApp (lookup_ a) (lastAppliedEntry_ a) (lastAppliedEntry_ a) (app_kvStore_ a)
    (match app_kvStore_ a with
     | Some k => checkpoint (checkpoint_path snapshotDirectory (lastAppliedEntry_ a)) k (disk a)
     | None => disk a
     end).
Definition snapshot (snapshotDirectory : string) : M CounterApp CounterAppSnapshot :=
  counterAppSnapshot ← gets make_snapshot;
  result ← on_kv AssertFailure (kv_put SNAPSHOT_KEY (Snapshot_SerializeAsString counterAppSnapshot));
  if result : bool then
    fsyncResult ← on_kv AssertFailure kv_flushWal;
    if fsyncResult : bool then
      _ ← modify (checkpointed snapshotDirectory);
      mret counterAppSnapshot
    else throw (RuntimeError "could not save snapshot")
  else throw (RuntimeError "could not save snapshot").

Definition restoreFromSnapshot : M CounterApp (option CounterAppSnapshot) :=
  serializedMap ← on_kv NullPointer (kv_get SNAPSHOT_KEY);
  match serializedMap with
  | None => mret None
  | Some v =>
      match Snapshot_ParseFromString v with
      | None => throw (RuntimeError "snapshot could not be deserialized")
      | Some counterAppSnapshot =>
          _ ← modify (set_lookup (snap_values counterAppSnapshot));
          mret (Some counterAppSnapshot)
      end
  end.

(** ** CounterApplicator, and [CounterAppStateMachine::apply], once
    [setApplicator] has been called *)

Definition CounterApplicator_apply (t : LogEntry_1) : M CounterApp ReturnType :=
  match t with
  | single_log_entry e =>
      match Entries_ParseFromString (entry_payload e) with
      | None => throw (RuntimeError "log entry could not be parsed")
      | Some entries => counterValues ← apply entries (entry_id e); mret (inl counterValues)
      end
  | _ => throw (RuntimeError "unknown type of entry to apply")
  end.

#[global] Instance CounterApp_StateMachine : StateMachine CounterApp ReturnType :=
  {| sm_apply := CounterApplicator_apply |}.

(** [CounterApp::serialize] *)
Definition entry_of_operation (op : Operation) : CounterLogEntry :=
  match op with
  | IncrOperation key incrBy => mkCounterLogEntry key incrBy INCR ""
  | DecrOperation key decrBy => mkCounterLogEntry key decrBy DECR ""
  end.
Definition serialize (operations : list Operation) : CounterLogEntries :=
  map entry_of_operation operations.

(** The entry of [CounterAppStateMachine::append]; its id is not set. *)
Definition log_entry (t : CounterLogEntries) : LogEntry_1 :=
  single_log_entry (mkSingle 0 (Entries_SerializeAsString t)).
End app.
Arguments CounterApp : clear implicits.

(** ** The calls of clients

    [sm_append] and [sm_sync] are the machine below the application, whose
    state is part of [S].  The mutex of the application is held to the end of
    each call. *)
Class Downstream (S : Type) := { sm_append : LogEntry_1 → M S ReturnType; sm_sync : M S () }.

Section calls.
Context {K F S : Type} `{KVStoreLite K} `{CounterCodec} `{Downstream S}.
Context (get_app : S → CounterApp K F) (set_app : CounterApp K F → S → S).

Definition CounterAppStateMachine_append (t : CounterLogEntries) : M S (list CounterKeyValue) :=
  result ← sm_append (log_entry t);
  match result with
  | inl counterValues => mret counterValues
  | inr _ => throw (RuntimeError "unknown result type")
  end.

(** [result.at(0).val] *)
Definition first_val (result : list CounterKeyValue) : M S Z :=
  match result with
  | v :: _ => mret (kv_val v)
  | [] => throw OutOfRange
  end.

Definition incrementAndGet (key : string) (incrBy : Z) : M S Z :=
  result ← CounterAppStateMachine_append (serialize [IncrOperation key incrBy]);
  first_val result.
Definition decrementAndGet (key : string) (decrBy : Z) : M S Z :=
  result ← CounterAppStateMachine_append (serialize [DecrOperation key decrBy]);
  first_val result.
Definition getValue (key : string) : M S Z :=
  _ ← sm_sync;
  zoom get_app set_app (lookup_ref key).
Definition batchUpdate (operations : list Operation) : M S (list CounterKeyValue) :=
  CounterAppStateMachine_append (serialize operations).

(** [CounterHealthCheck::isAlive] *)
Definition isAlive (KEY_NAME : string) : M S bool :=
  catch (_ ← incrementAndGet KEY_NAME 1; _ ← decrementAndGet KEY_NAME 1; mret true)
        (λ e, if is_std_exception e then mret false else throw e).

(** [CounterAppService]: gRPC answers a handler that throws with [UNKNOWN]; a
    failed assertion ends the server. *)
Definition answer (key : string) (m : M S Z) : M S (grpc_Status * CounterValue) :=
  catch (v ← m; mret (Grpc_OK, mkCounterValue key v))
        (λ e, match e with
              | AssertFailure => throw e
              | _ => mret (Grpc_Unknown e, mkCounterValue "" 0)
              end).
Definition IncrementAndGet (key : string) (incr_by : Z) : M S (grpc_Status * CounterValue) :=
  answer key (incrementAndGet key incr_by).
Definition DecrementAndGet (key : string) (decr_by : Z) : M S (grpc_Status * CounterValue) :=
  answer key (decrementAndGet key decr_by).
Definition GetCounterValue (key : string) : M S (grpc_Status * CounterValue) :=
  answer key (getValue key).
Definition BatchUpdate (request : list Operation) : M S (grpc_Status * list CounterValue) :=
  mret (Grpc_OK, []).

(** [CounterAppClient]: the status of the call is not kept, so that a failed
    call answers with the empty response. *)
Definition client_value (m : M S (grpc_Status * CounterValue)) : M S Z :=
  r ← m; mret (value r.2).
Definition Client_incrementAndGet (key : string) (incrBy : Z) : M S Z :=
  client_value (IncrementAndGet key incrBy).
Definition Client_decrementAndGet (key : string) (decrBy : Z) : M S Z :=
  client_value (DecrementAndGet key decrBy).
Definition Client_getValue (key : string) : M S Z := client_value (GetCounterValue key).
End calls.

(** ** What the counters should be *)

Lemma wrap64_add x y : wrap64 (wrap64 x + y) = wrap64 (x + y).
Proof.
  unfold wrap64.
  replace ((x + 2 ^ 63) `mod` 2 ^ 64 - 2 ^ 63 + y + 2 ^ 63) with ((x + 2 ^ 63) `mod` 2 ^ 64 + y) by lia.
  rewrite Zplus_mod_idemp_l. do 2 f_equal. lia.
Qed.

Definition zsum : list Z → Z := foldr Z.add 0.
Lemma zsum_cons x l : zsum (x :: l) = x + zsum l.
Proof. done. Qed.

(** The change of a counter by a command, a list of commands, an entry of the
    log and an operation. *)
Definition entry_delta (key : string) (e : CounterLogEntry) : Z :=
  if decide (entry_key e = key)
  then if commandType e =? INCR then entry_val e else - entry_val e
  else 0.
Definition entries_delta (key : string) (es : CounterLogEntries) : Z :=
  zsum (entry_delta key <$> es).
Definition log_delta `{CounterCodec} (key : string) (t : LogEntry_1) : Z :=
  match t with
  | single_log_entry e =>
      match Entries_ParseFromString (entry_payload e) with
      | Some es => entries_delta key es
      | None => 0
      end
  | _ => 0
  end.
Definition operation_key (op : Operation) : string :=
  match op with IncrOperation key _ | DecrOperation key _ => key end.
Definition operation_delta (key : string) (op : Operation) : Z :=
  match op with
  | IncrOperation k v => if decide (k = key) then v else 0
  | DecrOperation k v => if decide (k = key) then - v else 0
  end.

Section counters.
Context {K F : Type} `{HK : KVStoreLite K} `{HF : Checkpoints K F} `{HC : CounterCodec}.
Implicit Types a b : CounterApp K F.

(** A counter that has no entry is zero. *)
Definition counter a (key : string) : Z := default 0 (lookup_ a !! key).

#[export] Instance CounterApp_equiv : Equiv (CounterApp K F) := λ a b, ∀ key, counter a key = counter b key.
#[export] Instance CounterApp_equivalence : Equivalence (≡@{CounterApp K F}).
Proof.
  split; [by intros a key|by intros a b E key|].
  intros a b c E1 E2 key. by rewrite E1.
Qed.

Lemma counter_set key v a key' :
  counter (set_lookup (<[key := v]> (lookup_ a)) a) key' =
  if decide (key = key') then v else counter a key'.
Proof. unfold counter. simpl. rewrite lookup_insert. by case_decide. Qed.

Lemma lookup_ref_spec key a :
  lookup_ref key a = (Ret (counter a key), set_lookup (<[key := counter a key]> (lookup_ a)) a).
Proof.
  unfold lookup_ref, counter. destruct (lookup_ a !! key) as [v|] eqn:E; simpl; [|done].
  rewrite insert_id by done. by destruct a.
Qed.

(** Reading a counter is not visible. *)
Lemma lookup_ref_equiv key a : (lookup_ref key a).2 ≡ a.
Proof. rewrite lookup_ref_spec. intros key'. simpl. rewrite counter_set. by case_decide; subst. Qed.

(** The value [apply] gives to the counter of a command. *)
Definition command_value (e : CounterLogEntry) a : option Z :=
  if commandType e =? INCR then Some (wrap64 (counter a (entry_key e) + entry_val e))
  else if commandType e =? DECR then Some (wrap64 (counter a (entry_key e) - entry_val e))
  else None.

Lemma apply_entry_spec e a :
  apply_entry e a =
    match command_value e a with
    | Some v => (Ret (mkKeyValue (entry_key e) v), set_lookup (<[entry_key e := v]> (lookup_ a)) a)
    | None => (Throw (RuntimeError "Unknown Command. This is a non-recoverable error."),
               set_lookup (<[entry_key e := counter a (entry_key e)]> (lookup_ a)) a)
    end.
Proof.
  unfold apply_entry, command_value. rewrite (bind_Ret _ _ _ _ _ (lookup_ref_spec _ _)).
  destruct (commandType e =? INCR); [|destruct (commandType e =? DECR); [|done]];
    cbv [assign modify mbind M_bind mret M_ret set_lookup]; simpl; by rewrite insert_insert_eq.
Qed.

Lemma command_value_equiv e a b : a ≡ b → command_value e a = command_value e b.
Proof. intros E. unfold command_value. by rewrite (E (entry_key e)). Qed.

Lemma set_lookup_equiv key v a b :
  a ≡ b → set_lookup (<[key := v]> (lookup_ a)) a ≡ set_lookup (<[key := v]> (lookup_ b)) b.
Proof. intros E key'. rewrite !counter_set. by case_decide. Qed.

Lemma apply_entry_equiv e a b :
  a ≡ b → (apply_entry e a).1 = (apply_entry e b).1 ∧ (apply_entry e a).2 ≡ (apply_entry e b).2.
Proof.
  intros E. rewrite !apply_entry_spec, (command_value_equiv e a b E), (E (entry_key e)).
  destruct (command_value e b); simpl; (split; [done|by apply set_lookup_equiv]).
Qed.

(** Equal results and equivalent states carry over to sequences. *)
Lemma bind_equiv {A B} (m : M (CounterApp K F) A) (f : A → M (CounterApp K F) B) a b :
  (m a).1 = (m b).1 ∧ (m a).2 ≡ (m b).2 →
  (∀ x a' b', a' ≡ b' → (f x a').1 = (f x b').1 ∧ (f x a').2 ≡ (f x b').2) →
  ((x ← m; f x) a).1 = ((x ← m; f x) b).1 ∧ ((x ← m; f x) a).2 ≡ ((x ← m; f x) b).2.
Proof.
  intros [E1 E2] Hf. unfold mbind, M_bind.
  destruct (m a) as [o a'], (m b) as [o' b']. simpl in *. subst o'. destruct o; [by apply Hf|done..].
Qed.

Lemma apply_entries_equiv es a b :
  a ≡ b → (apply_entries es a).1 = (apply_entries es b).1 ∧ (apply_entries es a).2 ≡ (apply_entries es b).2.
Proof.
  revert a b. induction es as [|e es IH]; intros a b E; [done|]. simpl.
  apply bind_equiv; [by apply apply_entry_equiv|]. intros v a' b' E'.
  apply bind_equiv; [by apply IH|]. by intros vs a'' b'' E''.
Qed.

#[export] Instance CounterApp_laws : StateMachineLaws (CounterApp K F) ReturnType.
Proof.
  split; [apply _|]. intros t _ <- a b E. simpl. unfold CounterApplicator_apply.
  destruct t as [|e| | |]; try by split.
  destruct (Entries_ParseFromString (entry_payload e)) as [es|]; [|by split].
  apply bind_equiv; [|by intros v a' b' E'].
  unfold apply. apply bind_equiv; [by apply apply_entries_equiv|]. by intros vs a' b' E'.
Qed.
End counters.

(** ** What [apply] does *)

Section functional.
Context {K F : Type} `{HK : KVStoreLite K} `{HF : Checkpoints K F} `{HC : CounterCodec}.
Context `{HCL : !CounterCodecLaws}.
Implicit Types a b : CounterApp K F.

(** All values are [int64]. *)
Definition app_ok a : Prop := ∀ key v, lookup_ a !! key = Some v → in_i64 v = true.

Lemma counter_in a key : app_ok a → in_i64 (counter a key) = true.
Proof. intros Ha. unfold counter. destruct (lookup_ a !! key) eqn:E; [by eapply Ha|done]. Qed.

Lemma app_ok_set key v a :
  app_ok a → in_i64 v = true → app_ok (set_lookup (<[key := v]> (lookup_ a)) a).
Proof. intros Ha Hv key' v'. simpl. rewrite lookup_insert. case_decide; [by intros [= <-]|apply Ha]. Qed.

Lemma apply_entry_counter e a v a' :
  app_ok a → apply_entry e a = (Ret v, a') →
  app_ok a' ∧ v = mkKeyValue (entry_key e) (counter a' (entry_key e)) ∧
  ∀ key, counter a' key = wrap64 (counter a key + entry_delta key e).
Proof.
  intros Ha. rewrite apply_entry_spec. destruct (command_value e a) as [x|] eqn:Ex; [|done].
  intros [= <- <-].
  assert (E : x = wrap64 (counter a (entry_key e) + entry_delta (entry_key e) e)).
  { unfold command_value in Ex. unfold entry_delta. rewrite decide_True by done.
    destruct (commandType e =? INCR); [by injection Ex|]. destruct (commandType e =? DECR); [|done].
    by injection Ex as <-. }
  split_and!.
  - apply app_ok_set; [done|]. rewrite E. apply wrap64_in.
  - by rewrite counter_set, decide_True.
  - intros key. rewrite counter_set. case_decide as Ed; [by subst key|].
    unfold entry_delta. rewrite decide_False, Z.add_0_r by done. symmetry.
    by apply wrap64_id, counter_in.
Qed.

Lemma entries_delta_cons key e es :
  entries_delta key (e :: es) = entry_delta key e + entries_delta key es.
Proof. done. Qed.

Lemma apply_entries_counter es a vs a' :
  app_ok a → apply_entries es a = (Ret vs, a') →
  app_ok a' ∧ length vs = length es ∧
  (∀ key, counter a' key = wrap64 (counter a key + entries_delta key es)) ∧
  ∀ i e, es !! i = Some e →
    vs !! i = Some (mkKeyValue (entry_key e)
      (wrap64 (counter a (entry_key e) + entries_delta (entry_key e) (take (S i) es)))).
Proof.
  revert a vs. induction es as [|e es IH]; intros a vs Ha; simpl.
  - intros [= <- <-]. split_and!; try done. intros key. unfold entries_delta. simpl.
    rewrite Z.add_0_r. symmetry. by apply wrap64_id, counter_in.
  - intros (v & a1 & E1 & (vs1 & a2 & E2 & [= <- <-])%bind_inv_Ret)%bind_inv_Ret.
    apply apply_entry_counter in E1 as (Ha1 & -> & Hc1); [|done].
    apply IH in E2 as (Ha2 & El & Hc2 & Hv2); [|done]. split_and!; [done|simpl; lia|..].
    + intros key. rewrite Hc2, Hc1, wrap64_add, entries_delta_cons. f_equal. lia.
    + intros [|i] e' Ei; simpl in *.
      * injection Ei as <-. rewrite Hc1. cbn [take]. rewrite entries_delta_cons. do 3 f_equal.
        unfold entries_delta. simpl. lia.
      * rewrite (Hv2 _ _ Ei), Hc1, wrap64_add, entries_delta_cons. do 3 f_equal. lia.
Qed.

Lemma apply_keeps es id a o a' :
  apply es id a = (o, a') → app_kvStore_ a' = app_kvStore_ a ∧ disk a' = disk a.
Proof.
  assert (Hs : ∀ es a o a', apply_entries es a = (o, a') →
            app_kvStore_ a' = app_kvStore_ a ∧ disk a' = disk a).
  { clear es a o a'. intros es. induction es as [|e es IH]; intros a o a'; simpl; [by intros [= _ <-]|].
    unfold mbind, M_bind. rewrite apply_entry_spec. destruct (command_value e a); [|by intros [= _ <-]].
    destruct (apply_entries es _) as [[vs|x|] a1] eqn:E; intros [= _ <-]; by apply IH in E. }
  unfold apply, mbind, M_bind. destruct (apply_entries es a) as [[vs|x|] a1] eqn:E; simpl;
    intros [= _ <-]; by apply Hs in E.
Qed.

Lemma operation_entry_delta key op : entry_delta key (entry_of_operation op) = operation_delta key op.
Proof. by destruct op. Qed.

Lemma entries_delta_serialize key ops :
  entries_delta key (serialize ops) = zsum (operation_delta key <$> ops).
Proof.
  unfold entries_delta, serialize. f_equal. rewrite <- list_fmap_compose.
  apply list_fmap_ext. intros i op _. apply operation_entry_delta.
Qed.

(** The commands the application writes are known to it. *)
Lemma apply_entries_serialize ops a : ∃ vs a', apply_entries (serialize ops) a = (Ret vs, a').
Proof.
  revert a. induction ops as [|op ops IH]; intros a; [by eexists _, _|]. simpl.
  assert (E : ∃ v a1, apply_entry (entry_of_operation op) a = (Ret v, a1))
    by (rewrite apply_entry_spec; destruct op; eexists _, _; done).
  destruct E as (v & a1 & E). destruct (IH a1) as (vs & a2 & E2). exists (v :: vs), a2.
  rewrite (bind_Ret _ _ _ _ _ E). by rewrite (bind_Ret _ _ _ _ _ E2).
Qed.

(** Applying the operations of a request answers one value for each of them,
    the value of its counter after the operations up to it, and each counter
    ends at its old value with all its changes, modulo [2^64]. *)
Lemma apply_operations ops id a :
  app_ok a →
  ∃ vs a', apply (serialize ops) id a = (Ret vs, a') ∧ length vs = length ops ∧
    (∀ i op, ops !! i = Some op → vs !! i = Some (mkKeyValue (operation_key op)
       (wrap64 (counter a (operation_key op) +
                zsum (operation_delta (operation_key op) <$> take (S i) ops))))) ∧
    (∀ key, counter a' key = wrap64 (counter a key + zsum (operation_delta key <$> ops))) ∧
    lastAppliedEntry_ a' = id.
Proof.
  intros Ha. destruct (apply_entries_serialize ops a) as (vs & a1 & E).
  pose proof (apply_entries_counter _ _ _ _ Ha E) as (_ & El & Hc & Hv).
  eexists vs, _. unfold apply. rewrite (bind_Ret _ _ _ _ _ E). split; [reflexivity|]. split_and!.
  - rewrite El. apply length_map.
  - intros i op Ei. rewrite <- entries_delta_serialize. unfold serialize. rewrite <- firstn_map.
    rewrite (Hv i (entry_of_operation op)); [by destruct op|].
    unfold serialize. by rewrite list_lookup_fmap, Ei.
  - intros key. rewrite <- entries_delta_serialize. apply Hc.
  - done.
Qed.

Lemma applicator_counter t a r a' :
  app_ok a → CounterApplicator_apply t a = (Ret r, a') →
  app_ok a' ∧ ∀ key, counter a' key = wrap64 (counter a key + log_delta key t).
Proof.
  intros Ha. unfold CounterApplicator_apply, log_delta. destruct t as [|e| | |]; try done.
  destruct (Entries_ParseFromString (entry_payload e)) as [es|]; [|done].
  intros (vs & a1 & E & [= <- <-])%bind_inv_Ret.
  apply bind_inv_Ret in E as (vs1 & a2 & E & [= <- <-]).
  by apply apply_entries_counter in E as (? & _ & ? & _).
Qed.
End functional.

(** ** The counters over the log *)

Section replicated.
Context {L : Type} `{HL : VirtualLogOps L} `{HE : LogEntryCodec}.
Context `{HLL : !VirtualLogLaws L} `{HEL : !LogEntryCodecLaws}.
Context {K F : Type} `{HK : KVStoreLite K} `{HF : Checkpoints K F} `{HC : CounterCodec}.
Context `{HCL : !CounterCodecLaws} `{HV : LogTrimViewCodec}.

(** What is above a machine: the trim machine and the application. *)
Abbreviation Stack := (LogTrimStateMachine K (CounterApp K F)).

Definition stack_ok (s : Stack) : Prop :=
  executor_ (applicator_ s) = None ∧ app_ok (trim_upstream s).

(** The trim machine passes every entry on that has a result. *)
Lemma stack_apply_app t (s : Stack) r s' :
  executor_ (applicator_ s) = None → sm_apply t s = (Ret (r : ReturnType), s') →
  CounterApplicator_apply t (trim_upstream s) = (Ret r, trim_upstream s') ∧
  applicator_ s' = applicator_ s.
Proof.
  destruct s as [x a]. simpl. intros Hx. unfold LogTrim_apply, zoom. simpl.
  destruct t as [|e| | |e]; try done; cbn [applicator_ trim_upstream].
  - destruct (CounterApplicator_apply (single_log_entry e) a) as [o a']. by intros [= -> <-].
  - unfold LogTrimApplicator_apply. destruct (kvStore_ x) as [k|] eqn:Ek; [|done].
    destruct (kv_get _ k) as [[v|y|] k']; simpl; try done.
    destruct (read_view v); simpl; try done. by rewrite Hx.
Qed.

Lemma stack_apply_counter t (s : Stack) r s' :
  stack_ok s → sm_apply t s = (Ret (r : ReturnType), s') →
  stack_ok s' ∧
  ∀ key, counter (trim_upstream s') key = wrap64 (counter (trim_upstream s) key + log_delta key t).
Proof.
  intros [Hx Ha] E. apply stack_apply_app in E as [E Ex]; [|done].
  apply applicator_counter in E as [Ha' Hc]; [|done]. split; [split; [by rewrite Ex|done]|done].
Qed.

Lemma apply_all_counter es (s : Stack) rs s' :
  stack_ok s → apply_all es s = (Ret (rs : list ReturnType), s') →
  stack_ok s' ∧
  ∀ key, counter (trim_upstream s') key =
         wrap64 (counter (trim_upstream s) key + zsum (log_delta key <$> es)).
Proof.
  revert s rs. induction es as [|t es IH]; intros s rs Hs; cbn [apply_all].
  - intros [= <- <-]. split; [done|]. intros key. simpl. rewrite Z.add_0_r. symmetry.
    apply wrap64_id, counter_in, Hs.
  - intros (r & s1 & E1 & (rs1 & s2 & E2 & [= <- <-])%bind_inv_Ret)%bind_inv_Ret.
    apply stack_apply_counter in E1 as [Hs1 Hc1]; [|done].
    apply IH in E2 as [Hs2 Hc2]; [|done]. split; [done|]. intros key.
    rewrite Hc2, Hc1, wrap64_add, fmap_cons, zsum_cons. f_equal. lia.
Qed.

(** The result of a request at its place in the log. *)
Lemma returned_values (s0 : Stack) es (rs : list ReturnType) u (i : nat) ops r :
  stack_ok s0 → apply_all es s0 = (Ret rs, u) → es !! i = Some (log_entry (serialize ops)) →
  rs !! i = Some r →
  ∃ vs, r = inl vs ∧ length vs = length ops ∧
    ∀ (j : nat) op, ops !! j = Some op → vs !! j = Some (mkKeyValue (operation_key op)
      (wrap64 (counter (trim_upstream s0) (operation_key op) +
               zsum (log_delta (operation_key op) <$> take i es) +
               zsum (operation_delta (operation_key op) <$> take (S j) ops)))).
Proof.
  intros Hs0 Ea Et Er.
  destruct (apply_all_lookup _ _ _ _ _ _ _ Ea Et Er) as (rs1 & s1 & s2 & Ea1 & Er1).
  apply apply_all_counter in Ea1 as [Hs1 Hc1]; [|done].
  apply stack_apply_app in Er1 as [Er1 _]; [|apply Hs1]. simpl in Er1. rewrite parse_entries in Er1.
  apply bind_inv_Ret in Er1 as (vs & a1 & E & [= <- _]).
  destruct (apply_operations ops 0 (trim_upstream s1)) as (vs' & a' & E' & El' & Hv & _); [apply Hs1|].
  rewrite E in E'. injection E' as <- _. exists vs. split_and!; [done..|]. intros j op Ej.
  rewrite (Hv _ _ Ej), Hc1, wrap64_add. done.
Qed.

(** C10: whatever the nodes and their clients do, the counters of a node are the
    sums of the changes in the entries of the log it has applied, and a request
    that returned, on any node, got the values its counters have after all
    entries before its own and its own operations. *)
Theorem counters_follow_log (s0 : Stack) w0 w i n :
  stack_ok s0 → initial s0 w0 → rtc world_step w0 w → w_machines w !! i = Some n →
  aborted_ n = false →
  ∃ es, Z.of_nat (length es) = lastAppliedLogId_ n ∧ log_prefix (written (w_log w)) es ∧
    (clean n → ∀ key, counter (trim_upstream (upstreamStateMachine_ n)) key =
       wrap64 (counter (trim_upstream s0) key + zsum (log_delta key <$> es))) ∧
    ∀ k ops id r,
      calls_ n !! k = Some (Returned (CallAppend (log_entry (serialize ops))) id (Some r)) →
      ∃ vs, r = inl vs ∧ length vs = length ops ∧
        ∀ j op, ops !! j = Some op → vs !! j = Some (mkKeyValue (operation_key op)
          (wrap64 (counter (trim_upstream s0) (operation_key op) +
                   zsum (log_delta (operation_key op) <$> take (Z.to_nat (id - 1)) es) +
                   zsum (operation_delta (operation_key op) <$> take (S j) ops)))).
Proof.
  intros Hs0 H0 Hr Ei Hab.
  destruct (world_ok_reachable s0 w0 w H0 Hr i n Ei Hab) as [(es & rs & u & El & Hes & Ea & Hu & Hc) _ _].
  exists es. split_and!; [done..| |].
  - intros Hcl key. destruct (Hu Hcl) as [_ E]. rewrite (E key).
    by apply apply_all_counter in Ea as [_ Hk].
  - intros k ops id r Ek. destruct (Hc _ _ Ek) as (_ & _ & Et & Er).
    by apply (returned_values s0 es rs u (Z.to_nat (id - 1)) ops r).
Qed.
End replicated.

(** ** Snapshots *)

Section snapshots.
Context {K F : Type} `{HK : KVStoreLite K} `{HKL : !KVStoreLaws K}.
Context `{HF : Checkpoints K F} `{HFL : !CheckpointsLaws K F} `{HC : CounterCodec} `{HCL : !CounterCodecLaws}.
Implicit Types a b : CounterApp K F.

(** The store after a snapshot. *)
Definition saved a (k : K) : K :=
  (kv_flushWal (kv_put SNAPSHOT_KEY (Snapshot_SerializeAsString (make_snapshot a)) k).2).2.

Lemma snapshot_spec a dir k :
  app_kvStore_ a = Some k → kv_healthy k →
  snapshot dir a = (Ret (make_snapshot a),
    mkApp (lookup_ a) (lastAppliedEntry_ a) (lastAppliedEntry_ a) (Some (saved a k))
      (checkpoint (checkpoint_path dir (lastAppliedEntry_ a)) (saved a k) (disk a))).
Proof.
  intros Ek Hk. unfold snapshot, saved.
  rewrite (bind_Ret _ _ a (make_snapshot a) a) by done.
  destruct (kv_healthy_put SNAPSHOT_KEY (Snapshot_SerializeAsString (make_snapshot a)) k Hk) as [E1 Hk1].
  destruct (kv_put _ _ k) as [o k1] eqn:E1'. simpl in E1, Hk1. subst o.
  destruct (kv_healthy_flushWal k1 Hk1) as [E2 _].
  destruct (kv_flushWal k1) as [o k2] eqn:E2'. simpl in E2. subst o.
  erewrite bind_Ret by (unfold on_kv; rewrite Ek, E1'; done). cbn iota.
  erewrite bind_Ret by (unfold on_kv; cbn [app_kvStore_]; rewrite E2'; done). cbn iota. simpl.
  by rewrite E2'.
Qed.

Lemma saved_healthy a k : kv_healthy k → kv_healthy (saved a k).
Proof.
  intros Hk. exact (proj2 (kv_healthy_flushWal _ (proj2 (kv_healthy_put _ _ _ Hk)))).
Qed.

Lemma saved_contents a k :
  kv_healthy k →
  om_find SNAPSHOT_KEY (kv_contents (saved a k)) = Some (Snapshot_SerializeAsString (make_snapshot a)).
Proof.
  intros Hk. unfold saved. rewrite kv_flushWal_spec.
  destruct (kv_put _ _ k) as [o k1] eqn:E. pose proof E as E'. apply kv_put_spec in E'.
  destruct (kv_healthy_put SNAPSHOT_KEY (Snapshot_SerializeAsString (make_snapshot a)) k Hk) as [Eo _].
  rewrite E in Eo. simpl in Eo. subst o. simpl in *. rewrite E'. by rewrite om_find_set_eq.
Qed.

Lemma restore_spec a b k :
  kv_healthy k → app_kvStore_ b = Some (saved a k) →
  restoreFromSnapshot b = (Ret (Some (make_snapshot a)), set_lookup (lookup_ a) b).
Proof.
  intros Hk Eb. unfold restoreFromSnapshot.
  erewrite bind_Ret by (unfold on_kv; rewrite Eb, kv_healthy_get, saved_contents by (done || by apply saved_healthy); done).
  cbn iota. rewrite parse_snapshot. simpl. by destruct b; simpl in *; subst.
Qed.

(** On a healthy store, an application started on the store of a snapshot
    restores the counters of the application that took it. *)
Theorem snapshot_restores a dir k :
  app_kvStore_ a = Some k → kv_healthy k →
  ∃ a1 k1, snapshot dir a = (Ret (make_snapshot a), a1) ∧ app_kvStore_ a1 = Some k1 ∧
    lookup_ a1 = lookup_ a ∧ getLastSnapshotId a1 = lastAppliedEntry_ a ∧
    ∀ b, app_kvStore_ b = Some k1 →
      ∃ b', restoreFromSnapshot b = (Ret (Some (make_snapshot a)), b') ∧ lookup_ b' = lookup_ a.
Proof.
  intros Ek Hk. eexists _, (saved a k). split; [exact (snapshot_spec a dir k Ek Hk)|]. split_and!; [done..|].
  intros b Eb. eexists. split; [by apply (restore_spec a b k)|done].
Qed.

(** The id of the entries of the application is never set, so that the last
    applied entry stays entry 0. *)
Lemma applied_id_is_zero t a r a' :
  CounterApplicator_apply (log_entry t) a = (Ret r, a') → lastAppliedEntry_ a' = 0.
Proof.
  simpl. rewrite parse_entries. intros (vs & a1 & E & [= _ <-])%bind_inv_Ret.
  by apply bind_inv_Ret in E as (vs1 & a2 & _ & [= _ <-]).
Qed.

(** An application that takes a second snapshot into the same directory,
    after more operations, answers that it did; but the checkpoint in the
    directory still restores the counters of the first snapshot. *)
Theorem second_snapshot_is_lost a dir k ops :
  app_kvStore_ a = Some k → kv_healthy k → lastAppliedEntry_ a = 0 →
  checkpoint_at (disk a) (checkpoint_path dir 0) = None →
  ∃ a1 r a2 a3 k0, snapshot dir a = (Ret (make_snapshot a), a1) ∧
    CounterApplicator_apply (log_entry (serialize ops)) a1 = (Ret r, a2) ∧
    snapshot dir a2 = (Ret (make_snapshot a2), a3) ∧
    checkpoint_at (disk a3) (checkpoint_path dir 0) = Some k0 ∧
    ∀ b, app_kvStore_ b = Some k0 →
      ∃ b', restoreFromSnapshot b = (Ret (Some (make_snapshot a)), b') ∧ lookup_ b' = lookup_ a.
Proof.
  intros Ek Hk E0 Ef. pose proof (snapshot_spec a dir k Ek Hk) as E1. rewrite E0 in E1.
  match type of E1 with _ = (_, ?x) => set (a1 := x) in * end.
  destruct (apply_entries_serialize ops a1) as (vs & a2 & E2).
  assert (Ea : apply (serialize ops) 0 a1 = (Ret vs,
    mkApp (lookup_ a2) 0 (lastSnapshotId_ a2) (app_kvStore_ a2) (disk a2)))
    by (unfold apply; by rewrite (bind_Ret _ _ _ _ _ E2)).
  pose proof (apply_keeps _ _ _ _ _ Ea) as [Ek2 Ed2]. simpl in Ek2, Ed2.
  set (a3 := mkApp (lookup_ a2) 0 (lastSnapshotId_ a2) (app_kvStore_ a2) (disk a2)) in *.
  exists a1, (inl vs), a3. eexists _, (saved a k). split_and!; [done| | |..].
  - simpl. rewrite parse_entries. by rewrite (bind_Ret _ _ _ _ _ Ea).
  - by apply (snapshot_spec a3 dir (saved a k)), saved_healthy.
  - simpl. rewrite Ed2. rewrite checkpoint_law, decide_True by done.
    by rewrite checkpoint_law, decide_True, Ef by done.
  - intros b Eb. eexists. split; [by apply (restore_spec a b k)|done].
Qed.
End snapshots.

(** ** Restoring *)

Section restoring.
Context {L : Type} `{HL : VirtualLogOps L} `{HE : LogEntryCodec}.
Context `{HLL : !VirtualLogLaws L} `{HEL : !LogEntryCodecLaws}.
Context {K F : Type} `{HK : KVStoreLite K} `{HF : Checkpoints K F} `{HC : CounterCodec}.
Context `{HCL : !CounterCodecLaws} `{HV : LogTrimViewCodec}.
Abbreviation Stack := (LogTrimStateMachine K (CounterApp K F)).

(** A node that restores the counters of a snapshot applies the log again
    from its first entry: once it has applied the entries before the snapshot,
    each of their changes is in its counters twice. *)
Theorem restored_counts_twice (s0 s1 : Stack) es rs (b : Stack) w0 w i n :
  (** the life before the snapshot *)
  stack_ok s0 → (∀ key, counter (trim_upstream s0) key = 0) → apply_all es s0 = (Ret rs, s1) →
  (** the node that restored it *)
  executor_ (applicator_ b) = None → lookup_ (trim_upstream b) = lookup_ (trim_upstream s1) →
  initial b w0 → rtc world_step w0 w → w_machines w !! i = Some n → aborted_ n = false → clean n →
  log_prefix (written (w_log w)) es → lastAppliedLogId_ n = length es →
  ∀ key, counter (trim_upstream (upstreamStateMachine_ n)) key =
         wrap64 (2 * zsum (log_delta key <$> es)).
Proof.
  intros Hs0 Hz Ea Hx Eb Hi Hr Ei Hab Hcl Hes El key.
  destruct (apply_all_counter es s0 rs s1 Hs0 Ea) as [[_ Hok] Hc1].
  assert (Hb : stack_ok b) by (split; [done|unfold app_ok; by rewrite Eb]).
  destruct (world_ok_reachable b w0 w Hi Hr i n Ei Hab) as [(es' & rs' & u & El' & Hes' & Ea' & Hu & _) _ _].
  assert (es' = es) as -> by (eapply log_prefix_unique; [done..|lia]).
  destruct (Hu Hcl) as [_ E]. rewrite (E key).
  destruct (apply_all_counter es b rs' u Hb Ea') as [_ Hc2]. rewrite Hc2.
  assert (counter (trim_upstream b) key = counter (trim_upstream s1) key) as ->
    by (unfold counter; by rewrite Eb).
  rewrite Hc1, Hz, wrap64_add. f_equal. lia.
Qed.
End restoring.

(** ** A node that serves one call at a time

    [LogMachine.machine_serves]: what is left of a machine when each call is
    served to the end before the next one. *)

Section direct.
Context {K F : Type} `{HK : KVStoreLite K} `{HF : Checkpoints K F} `{HC : CounterCodec}.
Context `{HCL : !CounterCodecLaws}.
Implicit Types a : CounterApp K F.

Definition direct : Downstream (CounterApp K F) :=
  {| sm_append := CounterApplicator_apply; sm_sync := mret () |}.
#[local] Existing Instance direct.

Lemma direct_append ops a :
  app_ok a →
  ∃ vs a', CounterAppStateMachine_append (serialize ops) a = (Ret vs, a') ∧
    apply (serialize ops) 0 a = (Ret vs, a') ∧ app_ok a'.
Proof.
  intros Ha. destruct (apply_operations ops 0 a Ha) as (vs & a' & E & _). exists vs, a'.
  assert (Et : sm_append (log_entry (serialize ops)) a = (Ret (inl vs), a')).
  { simpl. rewrite parse_entries. by rewrite (bind_Ret _ _ _ _ _ E). }
  split_and!; [|done|by apply (applicator_counter _ _ _ _ Ha) in Et as [? _]].
  unfold CounterAppStateMachine_append. by rewrite (bind_Ret _ _ _ _ _ Et).
Qed.

Lemma incrementAndGet_direct key x a :
  app_ok a →
  ∃ a', incrementAndGet key x a = (Ret (wrap64 (counter a key + x)), a') ∧ app_ok a' ∧
    ∀ key', counter a' key' = wrap64 (counter a key' + if decide (key = key') then x else 0).
Proof.
  intros Ha. destruct (direct_append [IncrOperation key x] a Ha) as (vs & a' & E & E' & Ha').
  destruct (apply_operations [IncrOperation key x] 0 a Ha) as (vs' & a'' & E'' & El & Hv & Hc & _).
  rewrite E' in E''. injection E'' as <- <-. exists a'. unfold incrementAndGet.
  rewrite (bind_Ret _ _ _ _ _ E). pose proof (Hv 0%nat _ eq_refl) as Hv0. simpl in Hv0.
  rewrite decide_True, Z.add_0_r in Hv0 by done. destruct vs as [|v vs]; [done|]. injection Hv0 as ->.
  split_and!; [done..|]. intros key'. rewrite Hc. simpl. by rewrite Z.add_0_r.
Qed.

Lemma decrementAndGet_direct key x a :
  app_ok a →
  ∃ a', decrementAndGet key x a = (Ret (wrap64 (counter a key - x)), a') ∧ app_ok a' ∧
    ∀ key', counter a' key' = wrap64 (counter a key' + if decide (key = key') then - x else 0).
Proof.
  intros Ha. destruct (direct_append [DecrOperation key x] a Ha) as (vs & a' & E & E' & Ha').
  destruct (apply_operations [DecrOperation key x] 0 a Ha) as (vs' & a'' & E'' & El & Hv & Hc & _).
  rewrite E' in E''. injection E'' as <- <-. exists a'. unfold decrementAndGet.
  rewrite (bind_Ret _ _ _ _ _ E). pose proof (Hv 0%nat _ eq_refl) as Hv0. simpl in Hv0.
  rewrite decide_True, Z.add_0_r in Hv0 by done. destruct vs as [|v vs]; [done|]. injection Hv0 as ->.
  split_and!; [done..|]. intros key'. rewrite Hc. simpl. by rewrite Z.add_0_r.
Qed.

(** The health check leaves all counters as they are. *)
Lemma isAlive_neutral key a :
  app_ok a → ∃ a', isAlive key a = (Ret true, a') ∧ ∀ key', counter a' key' = counter a key'.
Proof.
  intros Ha. destruct (incrementAndGet_direct key 1 a Ha) as (a1 & E1 & Ha1 & Hc1).
  destruct (decrementAndGet_direct key 1 a1 Ha1) as (a2 & E2 & Ha2 & Hc2). exists a2. split.
  - unfold isAlive, catch. rewrite (bind_Ret _ _ _ _ _ E1). by rewrite (bind_Ret _ _ _ _ _ E2).
  - intros key'. rewrite Hc2, Hc1, wrap64_add.
    etrans; [|by apply wrap64_id, counter_in]. f_equal. case_decide; lia.
Qed.

(** The clients of a service that fails read zero. *)
Lemma client_failure_is_zero (key : string) (m : M (CounterApp K F) Z) a e a' :
  m a = (Throw e, a') → e ≠ AssertFailure → client_value (answer key m) a = (Ret 0, a').
Proof.
  intros E He. unfold client_value, answer, catch, mbind, M_bind. rewrite E. by destruct e.
Qed.
End direct.

(** ** Concrete instances *)

#[export] Instance CounterLogEntry_eq_dec : EqDecision CounterLogEntry.
Proof. solve_decision. Defined.
#[export] Instance CounterLogEntry_countable : Countable CounterLogEntry.
Proof.
  by apply (inj_countable' (λ e, (entry_key e, entry_val e, commandType e, description e))
    (λ '(k, v, c, d), mkCounterLogEntry k v c d)); intros [].
Defined.
#[export] Instance CounterAppSnapshot_eq_dec : EqDecision CounterAppSnapshot.
Proof. solve_decision. Defined.
#[export] Instance CounterAppSnapshot_countable : Countable CounterAppSnapshot.
Proof.
  apply (inj_countable' (λ s, (snap_log_id s, map_to_list (snap_values s)))
    (λ '(i, l), mkSnapshot i (list_to_map l))). intros [i m]. simpl. by rewrite list_to_map_to_list.
Defined.

Definition bits_counter_codec : CounterCodec := {|
  Entries_SerializeAsString := to_bits; Entries_ParseFromString := of_bits;
  Snapshot_SerializeAsString := to_bits; Snapshot_ParseFromString := of_bits |}.
#[export] Instance bits_counter_codec_laws : @CounterCodecLaws bits_counter_codec.
Proof. split; intros x; apply of_to_bits. Qed.

Definition no_view_codec : LogTrimViewCodec := {| View_ParseFromString _ := None |}.

(** Directories in memory. *)
Definition map_checkpoints {K} : Checkpoints K (gmap string K) := {|
  checkpoint dir k f := match f !! dir with Some _ => f | None => <[dir := k]> f end |}.
#[export] Instance map_checkpoints_laws {K} : @CheckpointsLaws K (gmap string K) map_checkpoints.
Proof.
  refine (@Build_CheckpointsLaws K (gmap string K) map_checkpoints (λ f d, f !! d) _).
  intros dir k f dir'. simpl. case_decide as Ed.
  - subst dir'. destruct (f !! dir) eqn:E; [done|by rewrite lookup_insert_eq].
  - destruct (f !! dir); [done|by rewrite lookup_insert_ne].
Defined.

#[local] Existing Instance bits_entry_codec.
#[local] Existing Instance bits_counter_codec.
#[local] Existing Instance no_view_codec.
#[local] Existing Instance map_checkpoints.

Abbreviation Store := (Rocks.RocksKVStoreLite MemDB).
Abbreviation App := (CounterApp Store (gmap string Store)).
Abbreviation Node := (LogTrimStateMachine Store App).
Abbreviation CounterWorld := (World InMemoryFakeVirtualLog Node ReturnType).

(** ** Concrete runs *)

Definition small_app : App := makeCounterApp (Some empty_store) ∅.
Definition small_node : Node := makeStateMachineStack (Some empty_store) small_app.

Lemma small_node_ok : stack_ok small_node.
Proof. split; [done|]. intros key v. simpl. by rewrite lookup_empty. Qed.

(** Two nodes on one log: the first one increments a counter, the second one
    sends a batch. *)
Definition two_nodes : CounterWorld :=
  mkWorld makeInMemoryFakeVirtualLog
    [makeVirtualLogStateMachine small_node 0; makeVirtualLogStateMachine small_node 0].
Definition incr_x : LogEntry_1 := log_entry (serialize [IncrOperation "x" 5]).
Definition batch : list Operation := [IncrOperation "x" 3; DecrOperation "y" 2].

Lemma initial_two_nodes : initial small_node two_nodes.
Proof. intros [|[|i]] n; simpl; by intros [= <-]. Qed.

Lemma counters_follow_log_witness :
  ∃ w n, rtc world_step two_nodes w ∧ w_machines w !! 1%nat = Some n ∧ lastAppliedLogId_ n = 2 ∧
    counter (trim_upstream (upstreamStateMachine_ n)) "x" = 8 ∧
    calls_ n !! 0%nat = Some (Returned (CallAppend (log_entry (serialize batch))) 2
      (Some (inl [mkKeyValue "x" 8; mkKeyValue "y" (-2)]))) ∧
    ∃ es, Z.of_nat (length es) = lastAppliedLogId_ n ∧ log_prefix (written (w_log w)) es ∧
      (clean n → ∀ key, counter (trim_upstream (upstreamStateMachine_ n)) key =
         wrap64 (counter (trim_upstream small_node) key + zsum (log_delta key <$> es))) ∧
      ∀ k ops id r,
        calls_ n !! k = Some (Returned (CallAppend (log_entry (serialize ops))) id (Some r)) →
        ∃ vs, r = inl vs ∧ length vs = length ops ∧
          ∀ j op, ops !! j = Some op → vs !! j = Some (mkKeyValue (operation_key op)
            (wrap64 (counter (trim_upstream small_node) (operation_key op) +
                     zsum (log_delta (operation_key op) <$> take (Z.to_nat (id - 1)) es) +
                     zsum (operation_delta (operation_key op) <$> take (S j) ops)))).
Proof.
  assert (E : (w ← world_run (two_clients_of incr_x (log_entry (serialize batch))) two_nodes;
      n ← w_machines w !! 1%nat;
      Some (aborted_ n, lastAppliedLogId_ n, counter (trim_upstream (upstreamStateMachine_ n)) "x",
            calls_ n !! 0%nat)) =
    Some (false, 2, 8, Some (Returned (CallAppend (log_entry (serialize batch))) 2
      (Some (inl [mkKeyValue "x" 8; mkKeyValue "y" (-2)]))))) by (by vm_compute).
  apply bind_Some in E as (w & Er & (n & Ei & E)%bind_Some). injection E as Hab El Ex Ec.
  apply world_run_reachable in Er. exists w, n.
  refine (conj Er (conj Ei (conj El (conj Ex (conj Ec _))))).
  exact (counters_follow_log small_node two_nodes w 1 n small_node_ok initial_two_nodes Er Ei Hab).
Defined.

(** A counter application with a counter, on an empty healthy store. *)
Definition counting_app : App := set_lookup {["x"%string := 5]} small_app.

Lemma empty_store_healthy : kv_healthy empty_store.
Proof. done. Qed.

Lemma snapshot_restores_witness :
  app_kvStore_ counting_app = Some empty_store ∧
  ∃ a1 k1, snapshot "snapshots" counting_app = (Ret (make_snapshot counting_app), a1) ∧
    app_kvStore_ a1 = Some k1 ∧ lookup_ a1 = lookup_ counting_app ∧
    getLastSnapshotId a1 = lastAppliedEntry_ counting_app ∧
    ∀ b : App, app_kvStore_ b = Some k1 →
      ∃ b', restoreFromSnapshot b = (Ret (Some (make_snapshot counting_app)), b') ∧
            lookup_ b' = lookup_ counting_app.
Proof.
  split; [reflexivity|].
  exact (snapshot_restores counting_app "snapshots" empty_store eq_refl empty_store_healthy).
Defined.

Lemma second_snapshot_is_lost_witness :
  ∃ (a1 : App) r (a2 a3 : App) k0, snapshot "snapshots" counting_app = (Ret (make_snapshot counting_app), a1) ∧
    CounterApplicator_apply (log_entry (serialize batch)) a1 = (Ret r, a2) ∧
    snapshot "snapshots" a2 = (Ret (make_snapshot a2), a3) ∧
    checkpoint_at (disk a3) (checkpoint_path "snapshots" 0) = Some k0 ∧
    ∀ b : App, app_kvStore_ b = Some k0 →
      ∃ b', restoreFromSnapshot b = (Ret (Some (make_snapshot counting_app)), b') ∧
            lookup_ b' = lookup_ counting_app.
Proof.
  apply (second_snapshot_is_lost counting_app "snapshots" empty_store batch eq_refl
           empty_store_healthy); reflexivity.
Defined.

(** One entry in the log, and a node that has restored the counter it made. *)
Definition one_entry : list LogEntry_1 := [incr_x].
Definition restored_node : Node := makeStateMachineStack (Some empty_store) counting_app.
Definition restored_world : CounterWorld :=
  mkWorld (vlog_append (Entry_SerializeAsString incr_x) makeInMemoryFakeVirtualLog).2
    [makeVirtualLogStateMachine restored_node 0].
Definition replay_one : list (nat * machine_action) :=
  [(0, StartCall 0 CallSync); (0, RegisterCall 0); (0, ProducerWake); (0, ProducerFetch);
   (0, RunTask 0); (0, ConsumerTake); (0, ConsumerNext); (0, ApplyTask)]%nat.

Lemma restored_counts_twice_witness :
  ∃ w n rs s1, rtc world_step restored_world w ∧ w_machines w !! 0%nat = Some n ∧
    apply_all one_entry small_node = (Ret (rs : list ReturnType), s1) ∧
    lookup_ (trim_upstream restored_node) = lookup_ (trim_upstream s1) ∧
    zsum (log_delta "x" <$> one_entry) = 5 ∧
    counter (trim_upstream (upstreamStateMachine_ n)) "x" = wrap64 (2 * zsum (log_delta "x" <$> one_entry)).
Proof.
  assert (E : (w ← world_run replay_one restored_world; n ← w_machines w !! 0%nat;
      Some (aborted_ n, lastAppliedLogId_ n, applying n, entry_at (written (w_log w)) 1)) =
    Some (false, 1, 1%nat, Some incr_x)) by (by vm_compute).
  apply bind_Some in E as (w & Er & (n & Ei & E)%bind_Some). injection E as Hab El Eap Ee.
  apply world_run_reachable in Er.
  destruct (apply_all one_entry small_node) as [o s1] eqn:Ea.
  assert (Eo : o = Ret [inl [mkKeyValue "x" 5]])
    by (change o with (o, s1).1; rewrite <- Ea; by vm_compute).
  subst o. exists w, n, [inl [mkKeyValue "x" 5] : ReturnType], s1.
  assert (Els : lookup_ (trim_upstream restored_node) = lookup_ (trim_upstream s1))
    by (change s1 with (Ret [inl [mkKeyValue "x" 5] : ReturnType], s1).2; rewrite <- Ea; by vm_compute).
  refine (conj Er (conj Ei (conj eq_refl (conj Els (conj _ _))))); [by vm_compute|].
  refine (restored_counts_twice small_node s1 one_entry _ restored_node restored_world w 0 n
    small_node_ok (λ _, eq_refl) Ea eq_refl Els _ Er Ei Hab _ _ El "x"%string).
  - intros [|j] m; simpl; by intros [= <-].
  - unfold clean. by rewrite El, Eap.
  - intros [|j] t; [|done]. intros [= <-]. exact Ee.
Defined.
