(* ===== verification/ReplicatedLog.v ===== *)
(** * State machines on the replicated log

    The programs of [VirtualLog.v] behind the interface that the state machines
    of [LogMachine.v] call: quiet worlds of [LogRun.v], in which calls are
    served one after the other by a majority of the replicas.  The laws of the
    interface hold, so what is proved of machines over any log holds over this
    one, also when others append and reconfigure; and the list of payloads says
    what the counters of [Counter.v] are. *)

From stdpp Require Import base gmap list strings relations.
From Stdlib Require Import ZArith Lia.
From S2P Require Import Prelude LogTypes Metadata NanoLog Program VirtualLog.
From S2P Require Import LogWorld LogSafety LogRun.
From S2P Require Import KVStore FlatMap LogMachine.
From S2P Require Import Counter.

Open Scope Z_scope.

(** The replicas, those that are up, what a call to another one throws, what
    shuffles do, the sequencers that reconfigurations may name, and the virtual
    log. *)
Record Ensemble := mkEnsemble {
  e_size : nat;
  e_up : nat → bool;
  e_lost : exn;
  e_shuffle : LogWorld.World → list nat → list nat;
  e_names : string → Prop;
  e_vlog : nat;
  e_majority : (e_size < 2 * length (filter (λ r, e_up r = true) (seq 0 e_size)))%nat;
  e_permutes : ∀ w l, e_shuffle w l ≡ₚ l }.

Section log.
Context (e : Ensemble).

(** A world with no call under way, and the list it stands for. *)
Record QuietLog := mkQuiet {
  ql_log : alog;
  ql_world : LogWorld.World;
  ql_quiet : quiet (e_size e) (e_up e) (e_names e) (e_vlog e) ql_log ql_world }.
Implicit Types l : QuietLog.

Abbreviation ok := (admissible (e_size e) (e_up e) (e_shuffle e) (e_names e)).

(** An operation, as long as there are positions left. *)
Definition ql_call (o : log_op) (Ho : ok o) : M QuietLog log_result := λ l,
  match decide (next_position (ql_log l) + 1 < i64_max) with
  | left Hn =>
      ((interp (serve (e_up e) (e_lost e) (e_shuffle e)) (op_prog (e_vlog e) o) (ql_world l)).1,
       mkQuiet (spec_op o (ql_log l)).2
         (interp (serve (e_up e) (e_lost e) (e_shuffle e)) (op_prog (e_vlog e) o) (ql_world l)).2
         (proj1 (proj2 (op_agrees _ _ (e_lost e) (e_shuffle e) (e_permutes e) _ _ (e_majority e) o (ql_log l) (ql_world l) (ql_quiet l) Ho Hn))))
  | right _ => (Block, l)
  end.

#[global] Instance QuietLog_ops : VirtualLogOps QuietLog := {|
  vlog_append p := r ← ql_call (LogAppend p) I; match r with AppendedAt id => mret id | _ => block end;
  vlog_getLogEntry id := r ← ql_call (LogRead id) I; match r with EntryRead x => mret x | _ => block end;
  vlog_sync := r ← ql_call LogSync I; match r with SyncedTo id => mret id | _ => block end |}.

Lemma ql_call_spec o Ho l r l' : ql_call o Ho l = (r, l') →
  (r = Block ∧ l' = l) ∨ (agrees (spec_op o (ql_log l)).1 r ∧ ql_log l' = (spec_op o (ql_log l)).2).
Proof.
  unfold ql_call. destruct (decide _) as [Hn|]; intros [= <- <-]; [right|by left]. split; [|done].
  by apply (op_agrees _ _ (e_lost e) (e_shuffle e) (e_permutes e) _ _ (e_majority e) o _ _ (ql_quiet l) Ho Hn).
Qed.

(** What is stored at a position. *)
Definition payload_at l (id : Z) : option string := LogRun.entry_at (ql_log l) id.

(** An operation that is not refused. *)
Lemma ql_answer {A} o Ho (f : log_result → M QuietLog A) l r l' :
  (∀ x l1, (f x l1).2 = l1) → (ql_call o Ho ≫= f) l = (r, l') →
  (r = Block ∧ l' = l) ∨ ql_log l' = (spec_op o (ql_log l)).2 ∧
    ∀ v, r = Ret v → ∃ x, (spec_op o (ql_log l)).1 = Some x ∧ (f x l').1 = Ret v.
Proof.
  intros Hf. unfold mbind, M_bind. destruct (ql_call o Ho l) as [x l1] eqn:E.
  apply ql_call_spec in E as [[-> ->]|[Hx Hl]]; [intros [= <- <-]; by left|].
  intros E. right. destruct x as [x|ex|].
  - pose proof (Hf x l1) as H1. rewrite E in H1. simpl in H1. subst l'. split; [done|].
    intros v ->. exists x. rewrite E. split; [|done].
    destruct (spec_op o (ql_log l)) as [[y|] a']; simpl in *; [by simplify_eq|by destruct Hx].
  - injection E as <- <-. by split.
  - injection E as <- <-. by split.
Qed.

Lemma payload_extends a p : chain_ok a →
  extends (LogRun.entry_at a) (LogRun.entry_at (mkLog (a_chain a) (a_entries a ++ [p]))).
Proof.
  intros Ha id x Hx. rewrite entry_append. case_decide; [|done]. subst. by rewrite entry_next in Hx by lia.
Qed.

#[global] Instance QuietLog_laws : VirtualLogLaws QuietLog.
Proof.
  refine {| written := payload_at |}; unfold payload_at.
  - intros p l o l' E. pose proof (q_chain _ _ _ _ _ _ (ql_quiet l)) as Ha.
    apply ql_answer in E as [[-> ->]|[-> Ho]]; [done| |by intros []]. simpl in *.
    destruct (a_chain (ql_log l)) as [|c ch] eqn:Ech; simpl in *.
    + split; [done|]. intros id Eo. by destruct (Ho id Eo) as (x & [=] & _).
    + rewrite <- Ech in *. split; [by apply payload_extends|]. intros id Eo.
      destruct (Ho id Eo) as (x & [= <-] & [= <-]). by rewrite entry_append, decide_True.
  - intros id l o l' E. apply ql_answer in E as [[-> ->]|[-> Ho]]; [done| |by intros []]. simpl in *.
    split; [done|]. intros en Eo. destruct (Ho _ Eo) as (x & Ex & Ev).
    apply fmap_Some in Ex as (y & Ey & ->). injection Ev as <-. done.
  - intros l o l' E. apply ql_answer in E as [[-> ->]|[-> Ho]]; [done| |by intros []].
    simpl. by destruct (a_chain (ql_log l)).
Defined.

(** Others reconfigure: nothing that was written changes. *)
Lemma reconfigure_extends target Ho l : extends (written l) (written (ql_call (LogReconfigure target) Ho l).2).
Proof.
  destruct (ql_call (LogReconfigure target) Ho l) as [r l'] eqn:E.
  apply ql_call_spec in E as [[-> ->]|[_ El]]; [done|]. simpl. unfold payload_at. rewrite El. simpl.
  intros id x Hx. change (mkLog (a_chain (ql_log l) ++ _) (a_entries (ql_log l))) with
    (with_config (ql_log l) (config_after (ql_log l) target)).
  rewrite entry_with_config; [done|apply (ql_quiet l)|done].
Qed.

(** ** The first append

    A chain of configs that starts in an empty metadata store starts at
    position 0; state machines start at position 1. *)
Section first.
Context `{HE : LogEntryCodec} `{HEL : !LogEntryCodecLaws} {U R : Type} `{HU : StateMachine U R}.
Context `{HQ : Equiv U} `{HUL : !StateMachineLaws U R}.

Lemma ql_call_answers o Ho l : next_position (ql_log l) + 1 < i64_max →
  agrees (spec_op o (ql_log l)).1 (ql_call o Ho l).1 ∧ ql_log (ql_call o Ho l).2 = (spec_op o (ql_log l)).2.
Proof.
  intros Hn. unfold ql_call. destruct (decide _) as [Hn'|]; [|done]. split; [|done].
  by apply (op_agrees _ _ (e_lost e) (e_shuffle e) (e_permutes e) _ _ (e_majority e) o _ _ (ql_quiet l) Ho Hn').
Qed.

Lemma append_answers p l : a_chain (ql_log l) ≠ [] → next_position (ql_log l) + 1 < i64_max →
  ∃ l', vlog_append p l = (Ret (next_position (ql_log l)), l') ∧
    ql_log l' = mkLog (a_chain (ql_log l)) (a_entries (ql_log l) ++ [p]).
Proof.
  intros Hne Hn. destruct (ql_call_answers (LogAppend p) I l Hn) as [Ha El].
  simpl. unfold mbind, M_bind. destruct (ql_call (LogAppend p) I l) as [r l']. exists l'.
  simpl in *. destruct (a_chain (ql_log l)); [done|]. by rewrite Ha.
Qed.

(** C37: After the first reconfiguration, a client of a state machine that appends
    takes position 0 and its entry is stored there; the call never returns on
    that machine, and what any machine has applied are the entries from position
    1 on. *)
Theorem first_append_is_lost (u0 : U) target Ho l0 (ms : list (VirtualLogStateMachine U R)) i k t :
  a_chain (ql_log l0) = [] → ms !! i = Some (makeVirtualLogStateMachine u0 0) →
  (∀ j m, ms !! j = Some m → m = makeVirtualLogStateMachine u0 0) →
  let l1 := (ql_call (LogReconfigure target) Ho l0).2 in
  ∃ l2 n, machine_run [StartCall k (CallAppend t); RegisterCall k] l1 (makeVirtualLogStateMachine u0 0) = Some (l2, n) ∧
    written l2 0 = Some (Entry_SerializeAsString t) ∧
    calls_ n !! k = Some (AwaitsFuture (CallAppend t) 0) ∧
    ∀ w', rtc world_step (LogMachine.mkWorld l2 (<[i := n]> ms)) w' →
      (∃ n', w_machines w' !! i = Some n' ∧
        (aborted_ n' = true ∨ calls_ n' !! k = Some (AwaitsFuture (CallAppend t) 0))) ∧
      ∀ j m, w_machines w' !! j = Some m → aborted_ m = false → ∃ es rs u,
        lastAppliedLogId_ m = Z.of_nat (length es) ∧
        (∀ (p : nat) x, es !! p = Some x → LogMachine.entry_at (written (w_log w')) (p + 1) = Some x) ∧
        apply_all es u0 = (Ret rs, u) ∧ (clean m → upstreamStateMachine_ m ≡ u).
Proof.
  intros E0 Ei Hms l1. set (m0 := makeVirtualLogStateMachine u0 0) in *.
  pose proof (ch_entries _ (q_chain _ _ _ _ _ _ (ql_quiet l0)) E0) as Ee.
  assert (En0 : next_position (ql_log l0) = 0).
  { unfold next_position, first_position. by rewrite E0, Ee. }
  assert (El1 : ql_log l1 = mkLog [config_after (ql_log l0) target] []).
  { destruct (ql_call_answers (LogReconfigure target) Ho l0) as [_ E]; [by rewrite En0|].
    unfold l1. rewrite E. simpl. by rewrite E0, Ee. }
  assert (En1 : next_position (ql_log l1) = 0).
  { unfold next_position, first_position. rewrite El1. simpl. by rewrite En0. }
  destruct (append_answers (Entry_SerializeAsString t) l1) as (l2 & Ea & El2); [by rewrite El1|by rewrite En1|].
  rewrite En1 in Ea. set (n1 := set_call k (Located (CallAppend t) 0) m0).
  set (n2 := emplace_promise k (CallAppend t) 0 n1). exists l2, n2.
  assert (Es1 : machine_step (StartCall k (CallAppend t)) l1 m0 = Some (l2, n1)).
  { unfold machine_step, start_call, m0. simpl calls_. rewrite lookup_empty. cbn [locate aborted_].
    by rewrite Ea. }
  assert (Es2 : machine_step (RegisterCall k) l2 n1 = Some (l2, n2)).
  { unfold machine_step, register_call, n1. simpl. by rewrite lookup_insert_eq. }
  assert (Ec : calls_ n2 !! k = Some (AwaitsFuture (CallAppend t) 0)) by (simpl; by rewrite lookup_insert_eq).
  split_and!; [cbn [machine_run]; rewrite Es1; simpl; by rewrite Es2| |done|].
  - simpl. unfold payload_at. rewrite El2, El1. unfold LogRun.entry_at, first_position. simpl. by rewrite En0.
  - assert (Hr : rtc world_step (LogMachine.mkWorld l1 ms) (LogMachine.mkWorld l2 (<[i := n2]> ms))).
    { eapply rtc_l; [by apply (step_machine _ i (StartCall k (CallAppend t)) m0)|]. simpl.
      eapply rtc_l; [apply (step_machine _ i (RegisterCall k) n1)|].
      - simpl. apply list_lookup_insert_eq. by eapply lookup_lt_Some.
      - exact Es2.
      - simpl. by rewrite list_insert_insert_eq. }
    intros w' Hw'. split; cycle 1.
    { intros j m Ej Hab. destruct (world_ok_reachable u0 (LogMachine.mkWorld l1 ms) w' Hms ltac:(by etrans) j m Ej Hab)
        as [(es & rs & u & El & Hes & Eapp & Hu & _) _ _]. by exists es, rs, u. }
    apply (lost_call_never_returns u0 (LogMachine.mkWorld l1 ms) (LogMachine.mkWorld l2 (<[i := n2]> ms)) w' i n2 k (CallAppend t) 0);
      try done; [|by left].
    simpl. apply list_lookup_insert_eq. by eapply lookup_lt_Some.
Qed.
End first.

(** ** The counters *)

Context `{HE : LogEntryCodec} `{HEL : !LogEntryCodecLaws}.
Context {K F : Type} `{HK : KVStoreLite K} `{HF : Checkpoints K F} `{HC : CounterCodec}.
Context `{HCL : !CounterCodecLaws} `{HV : LogTrimViewCodec}.
Abbreviation Stack := (LogTrimStateMachine K (CounterApp K F)).

(** What a payload changes. *)
Definition payload_delta (key p : string) : Z :=
  match Entry_ParseFromString p with Some t => log_delta key t | None => 0 end.

(** The payloads at positions 1 to [k]. *)
Definition payloads_to l (k : nat) : list string := omap (λ j : nat, payload_at l (j + 1)) (seq 0 k).

Lemma prefix_payloads l es : log_prefix (written l) es →
  let ps := payloads_to l (length es) in
  length ps = length es ∧ ∀ key, log_delta key <$> es = payload_delta key <$> ps.
Proof.
  unfold payloads_to. induction es as [|t es IH] using rev_ind; intros Hes; [done|]. simpl.
  destruct IH as [Hl Hd].
  { intros j x Hj. apply Hes. rewrite lookup_app_l; [done|]. by eapply lookup_lt_Some. }
  assert (Ht : LogMachine.entry_at (written l) (length es + 1) = Some t).
  { apply Hes. by rewrite list_lookup_middle. }
  unfold LogMachine.entry_at in Ht. apply bind_Some in Ht as (p & Ep & Et). simpl in Ep.
  rewrite length_app, Nat.add_1_r, seq_S, omap_app. simpl. rewrite Ep. split.
  - rewrite length_app, Hl. simpl. lia.
  - intros key. rewrite !fmap_app, Hd. simpl. unfold payload_delta at 3. by rewrite Et.
Qed.

(** C3: Counters on the replicated log.  The nodes call the log of [LogRun.v],
    whose calls are served one after the other by a majority of the replicas,
    and between these calls it is appended to and reconfigured by others.  The
    counters of a node are the sums of the changes in the payloads the log has
    at positions 1 to the one the node has applied, and a request that
    returned, on any node, got the values at its position. *)
Theorem replicated_counters (s0 : Stack) (w0 w : World QuietLog Stack ReturnType) i n :
  stack_ok s0 → LogMachine.initial s0 w0 → rtc world_step w0 w → w_machines w !! i = Some n →
  aborted_ n = false →
  let ps := payloads_to (w_log w) (Z.to_nat (lastAppliedLogId_ n)) in
  Z.of_nat (length ps) = lastAppliedLogId_ n ∧
  (clean n → ∀ key, counter (trim_upstream (upstreamStateMachine_ n)) key =
     wrap64 (counter (trim_upstream s0) key + zsum (payload_delta key <$> ps))) ∧
  ∀ k ops id r,
    calls_ n !! k = Some (Returned (CallAppend (log_entry (serialize ops))) id (Some r)) →
    ∃ vs, r = inl vs ∧ length vs = length ops ∧
      ∀ (j : nat) op, ops !! j = Some op → vs !! j = Some (mkKeyValue (operation_key op)
        (wrap64 (counter (trim_upstream s0) (operation_key op) +
                 zsum (payload_delta (operation_key op) <$> take (Z.to_nat (id - 1)) ps) +
                 zsum (operation_delta (operation_key op) <$> take (S j) ops)))).
Proof.
  intros Hs0 H0 Hr Ei Hab ps.
  destruct (world_ok_reachable s0 w0 w H0 Hr i n Ei Hab) as [(es & rs & u & El & Hes & Ea & Hu & Hc) _ _].
  destruct (prefix_payloads (w_log w) es Hes) as [Hlen Hd].
  assert (ps = payloads_to (w_log w) (length es)) as -> by (unfold ps; f_equal; lia).
  split_and!; [lia| |].
  - intros Hcl key. destruct (Hu Hcl) as [_ E]. rewrite (E key), <- Hd.
    by apply apply_all_counter in Ea as [_ Hk].
  - intros k ops id r Ek. destruct (Hc _ _ Ek) as (_ & _ & Et & Er).
    destruct (returned_values s0 es rs u _ ops r Hs0 Ea Et Er) as (vs & -> & Hl & Hv).
    exists vs. split_and!; [done..|]. intros j op Ej. rewrite (Hv j op Ej).
    by rewrite (fmap_take (log_delta _)), Hd, <- fmap_take.
Qed.
End log.

(** ** Concrete logs: three replicas, replica 2 is down *)

Lemma two_of_three : (3 < 2 * length (filter (λ r, first_replicas r = true) (seq 0 3)))%nat.
Proof. vm_compute. lia. Qed.
Definition ensemble_two : Ensemble := mkEnsemble 3 first_replicas NullPointer swapping two_names 0 two_of_three swapping_perm.

Definition unconfigured_ql : QuietLog ensemble_two :=
  mkQuiet ensemble_two (mkLog [] []) unconfigured_world unconfigured_quiet.

#[local] Existing Instance bits_entry_codec.
#[local] Existing Instance bits_counter_codec.
#[local] Existing Instance no_view_codec.
#[local] Existing Instance map_checkpoints.

Lemma s1_ok : admissible 3 first_replicas swapping two_names (LogReconfigure (config_for "s1")).
Proof. split; [simpl; set_solver|apply swapping_reachable]. Qed.
Lemma s2_ok : admissible 3 first_replicas swapping two_names (LogReconfigure (config_for "s2")).
Proof. split; [simpl; set_solver|apply swapping_reachable]. Qed.

Lemma first_append_is_lost_witness :
  let l1 := (ql_call ensemble_two (LogReconfigure (config_for "s1")) s1_ok unconfigured_ql).2 in
  ∃ l2 n, machine_run [StartCall 0 (CallAppend (entry_of_payload "a")); RegisterCall 0] l1
      (makeVirtualLogStateMachine empty_sink 0) = Some (l2, n) ∧
    written l2 0 = Some (Entry_SerializeAsString (entry_of_payload "a")) ∧
    ∀ w', rtc world_step (LogMachine.mkWorld l2 [n]) w' →
      ∃ n', w_machines w' !! 0%nat = Some n' ∧
        (aborted_ n' = true ∨ calls_ n' !! 0%nat = Some (AwaitsFuture (CallAppend (entry_of_payload "a")) 0)).
Proof.
  destruct (first_append_is_lost ensemble_two empty_sink (config_for "s1") s1_ok unconfigured_ql
    [makeVirtualLogStateMachine empty_sink 0] 0 0 (entry_of_payload "a") eq_refl eq_refl) as (l2 & n & E & Ew & _ & Hr).
  { intros [|j] m; simpl; by intros [= <-]. }
  exists l2, n. split; [exact E|split; [exact Ew|]]. intros w' Hw'. apply (Hr w' Hw').
Defined.

(** Two nodes on an ensemble without a config: another client reconfigures and
    takes position 0, the nodes append, and between their appends and the reads
    there is a reconfiguration to another sequencer. *)
Abbreviation LogWorld := (World (QuietLog ensemble_two) Node ReturnType).
Definition on_log (f : QuietLog ensemble_two → QuietLog ensemble_two) (w : LogWorld) : LogWorld :=
  LogMachine.mkWorld (f (w_log w)) (w_machines w).
Definition reconfigure_to (id : string) Ho (l : QuietLog ensemble_two) : QuietLog ensemble_two :=
  (ql_call ensemble_two (LogReconfigure (config_for id)) Ho l).2.
Definition nodes_on_log : LogWorld :=
  LogMachine.mkWorld unconfigured_ql [makeVirtualLogStateMachine small_node 0; makeVirtualLogStateMachine small_node 0].
Definition run_nodes : option LogWorld :=
  let acts := take 21 (two_clients_of incr_x (log_entry (serialize batch))) in
  w1 ← world_run (take 1 acts)
    (on_log (λ l, (vlog_append "lost" l).2) (on_log (reconfigure_to "s1" s1_ok) nodes_on_log));
  world_run (drop 1 acts) (on_log (reconfigure_to "s2" s2_ok) w1).

Lemma run_nodes_reachable w : run_nodes = Some w → rtc world_step nodes_on_log w.
Proof.
  intros (w1 & E1%world_run_reachable & E2%world_run_reachable)%bind_Some.
  assert (Hr : ∀ id Ho x, world_step x (on_log (reconfigure_to id Ho) x)).
  { intros id Ho x. apply step_log, reconfigure_extends. }
  assert (Ha : ∀ x, world_step x (on_log (λ l, (vlog_append "lost" l).2) x)).
  { intros x. apply step_log. destruct (vlog_append "lost" (w_log x)) as [o l'] eqn:E.
    by apply vlog_append_law in E as [? _]. }
  eapply rtc_l; [apply Hr|]. eapply rtc_l; [apply Ha|]. etrans; [exact E1|].
  eapply rtc_l; [apply Hr|exact E2].
Qed.

Lemma replicated_counters_witness :
  ∃ w n, rtc world_step nodes_on_log w ∧ w_machines w !! 1%nat = Some n ∧
    length (a_chain (ql_log ensemble_two (w_log w))) = 2%nat ∧
    counter (trim_upstream (upstreamStateMachine_ n)) "x" = 8 ∧
    calls_ n !! 0%nat = Some (Returned (CallAppend (log_entry (serialize batch))) 2
      (Some (inl [mkKeyValue "x" 8; mkKeyValue "y" (-2)]))) ∧
    let ps := payloads_to ensemble_two (w_log w) (Z.to_nat (lastAppliedLogId_ n)) in
    Z.of_nat (length ps) = lastAppliedLogId_ n ∧
    (clean n → ∀ key, counter (trim_upstream (upstreamStateMachine_ n)) key =
       wrap64 (counter (trim_upstream small_node) key + zsum (payload_delta key <$> ps))).
Proof.
  assert (E : (w ← run_nodes; n ← w_machines w !! 1%nat;
      Some (aborted_ n, length (a_chain (ql_log ensemble_two (w_log w))),
            counter (trim_upstream (upstreamStateMachine_ n)) "x", calls_ n !! 0%nat)) =
    Some (false, 2%nat, 8, Some (Returned (CallAppend (log_entry (serialize batch))) 2
      (Some (inl [mkKeyValue "x" 8; mkKeyValue "y" (-2)]))))) by (by vm_compute).
  apply bind_Some in E as (w & Er & (n & Ei & E)%bind_Some). injection E as Hab Hlen Ex Ec.
  apply run_nodes_reachable in Er. exists w, n.
  assert (Hi : LogMachine.initial small_node nodes_on_log) by (intros [|[|i]] m; simpl; by intros [= <-]).
  destruct (replicated_counters ensemble_two small_node nodes_on_log w 1 n small_node_ok Hi Er Ei Hab)
    as (Hl & Hc & _).
  exact (conj Er (conj Ei (conj Hlen (conj Ex (conj Ec (conj Hl Hc)))))).
Defined.
