(* ===== verification/CounterServer.v ===== *)
(** * Starting the counters

    [src/applications/counter/CounterAppServer.h]: a log server with the
    counters on top of its log, served over gRPC; and
    [CounterAppEnsembleNode.h] with [log/impl/Ensemble.h], [EnsembleNode.h] and
    [EnsembleConfig.h]: five nodes in one process. *)

From stdpp Require Import base gmap list strings pretty.
From Stdlib Require Import ZArith Lia.
From S2P Require Import Prelude LogTypes Metadata NanoLog KVStore Replica Program VirtualLog FailureDetector.
From S2P Require Import LogWorld LogSafety LogReads LogFactory Process LogServer FlatMap LogMachine Counter.

Open Scope Z_scope.

(** [CounterAppConfig] *)
Record CounterAppConfig := mkCounterAppConfig {
  app_name : string;
  app_data_directory : string;
  app_ip : IpAddress }.

Section server.
Context {P D F Disk : Type} `{HD : RocksDB D} `{HF : RocksFiles F D} `{HH : GrpcHost F}.
Context `{HK : Checkpoints (Rocks.RocksKVStoreLite D) Disk} `{HC : CounterCodec} `{HV : LogTrimViewCodec}.
(** The disk the checkpoints of the counters go to. *)
Context (disk0 : Disk).

Abbreviation K := (Rocks.RocksKVStoreLite D).
Abbreviation App := (CounterApp K Disk).
Abbreviation Stack := (LogTrimStateMachine K App).
Abbreviation Server := (LogServer.LogServer (P := P) (D := D)).

(** [CounterAppServer::State]; the application is at the top of the stack of
    the machine. *)
Record CounterState := mkCounterState {
  logServer : Server;
  kvStore : K;
  stateMachineStack : VirtualLogStateMachine Stack ReturnType;
  counterAppGRPCServer : option GrpcServer;
  failureDetector : option FailureDetectorImpl }.
Record CounterAppServer := mkCounterAppServer {
  appConfig_ : CounterAppConfig;
  logServerConfig_ : LogServer.ServerConfig;
  counter_state : option CounterState }.
Definition makeCounterAppServer (appConfig : CounterAppConfig) (c : LogServer.ServerConfig) :
    CounterAppServer := mkCounterAppServer appConfig c None.

(** The virtual log is passed on; the stack is made without it. *)
Definition makeCounterState (appConfig : CounterAppConfig) (c : LogServer.ServerConfig)
    : M (Server * F) CounterState :=
  _ ← LogServer.start;
  rocks ← zoom snd (λ f x, (x.1, f)) (provideSharedPtr
    {| path := app_data_directory appConfig; createIfMissing := true; manualWALFlush := true;
       destroyIfExists := false |});
  let kvStore := {| Rocks.rocks_ := rocks |} in
  _ ← getVirtualLog;
  let counterApp := makeCounterApp (Some kvStore) disk0 in
  let stack := makeVirtualLogStateMachine (LogMachine.makeStateMachineStack (Some kvStore) counterApp) 0 in
  server ← zoom snd (λ f x, (x.1, f)) (runRPCServer (format_address (app_ip appConfig)) [CounterService]);
  x ← get;
  mret (mkCounterState x.1 kvStore stack server
          (if decide (app_name appConfig = "COUNTER_APP_1")
           then Some (makeFailureDetectorImpl (detector_config c)) else None)).

Definition start : M (CounterAppServer * F) () := λ '(a, f),
  match makeCounterState (appConfig_ a) (logServerConfig_ a) (makeLogServer (logServerConfig_ a), f) with
  | (Ret s, (_, f')) => (Ret (), (mkCounterAppServer (appConfig_ a) (logServerConfig_ a) (Some s), f'))
  | (Throw e, (_, f')) => (Throw e, (a, f'))
  | (Block, (_, f')) => (Block, (a, f'))
  end.

(** Only the pool of the failure detector is stopped. *)
Definition stop : M (CounterAppServer * F) () := λ '(a, f),
  match counter_state a with
  | Some _ => (Ret (), (a, f))
  | None => (Throw NullPointer, (a, f))
  end.

(** RocksDB opens for the counters, too. *)
Definition app_opens (a : CounterAppConfig) : Prop := ∀ f : F, ∃ db f',
  provideSharedPtr {| path := app_data_directory a; createIfMissing := true; manualWALFlush := true;
                      destroyIfExists := false |} f = (Ret db, f').

(** Starting the counters.  [start] returns with a wired log server below a
    stack that has applied nothing and whose counters are all zero, over one
    key-value store.  The server whose name is COUNTER_APP_1 has a failure
    detector, and the configuration this detector asks for is one the log can
    take over: its sequencer is the own one, found in the registry, and its
    replicas are those of the configuration.  Every other server has no
    failure detector, so that nothing of it ever reconfigures its log. *)
Theorem counter_server_starts a c f :
  opens c → distinct_replicas c → app_opens a →
  ∃ (cs : CounterState) (s : LogServer.State (P := P) (D := D)) f',
    start (makeCounterAppServer a c, f) = (Ret (), (mkCounterAppServer a c (Some cs), f')) ∧
    logServer cs = LogServer.mkLogServer c (Some s) ∧ wired c s ∧
    (let app := trim_upstream (upstreamStateMachine_ (stateMachineStack cs)) in
     lookup_ app = ∅ ∧ app_kvStore_ app = Some (kvStore cs) ∧
     lastAppliedLogId_ (stateMachineStack cs) = 0) ∧
    match failureDetector cs with
    | Some fd =>
        app_name a = "COUNTER_APP_1"%string ∧
        let target := ensemble_config (FailureDetector.logServerConfig_ fd) in
        registry_sequencer (sequencer_id (sequencer_config target)) (LogServer.registry s) = Some 0%nat ∧
        map replica_id (replica_set_config target) = map rs_id (replica_set c)
    | None => app_name a ≠ "COUNTER_APP_1"%string
    end.
Proof.
  intros Hopen Hnd Happ. unfold start, makeCounterState. simpl.
  destruct (make_starts (P := P) c f Hopen Hnd) as (db & om & ora & os & f1 & E & _).
  pose proof (started_wired (P := P) c db om ora os Hnd) as W.
  set (s := LogServer.started c db om ora os) in *.
  assert (Es : LogServer.start (makeLogServer c : Server, f) =
    (Ret (), (LogServer.mkLogServer c (Some s), f1))) by (unfold LogServer.start; simpl; by rewrite E).
  rewrite (bind_Ret _ _ _ _ _ Es). unfold mbind, M_bind, zoom. simpl.
  destruct (Happ f1) as (kv & f2 & ->). simpl. unfold runRPCServer.
  destruct (BuildAndStart _ f2) as [b f3]. simpl.
  eexists _, s, f3. split; [done|]. split; [done|]. split; [exact W|]. split; [done|]. simpl.
  case_decide as Hn; [|done]. split; [done|]. split.
  - simpl. apply (wi_sequencer c s W).
  - simpl. by rewrite !map_map.
Qed.
End server.

(** ** The configurations of [src/configs/] *)

#[local] Instance one_file : RocksFiles () MemDB :=
  {| DestroyDB _ f := (StatusOk, f); DB_Open _ f := (StatusOk, Some empty_db, f) |}.
#[local] Instance free_ports : GrpcHost () := λ _ f, (true, f).
#[local] Instance no_checkpoints : Checkpoints (Rocks.RocksKVStoreLite MemDB) () :=
  {| checkpoint _ _ f := f |}.
#[local] Existing Instance bits_counter_codec.
#[local] Existing Instance no_view_codec.

(** [app1_config.textproto], [app2_config.textproto] *)
Definition app_config (x : string) (p : Z) : CounterAppConfig :=
  mkCounterAppConfig ("COUNTER_APP_" +:+ x) ("/tmp/COUNTER_APP_" +:+ x +:+ "/") (local_ip p).

Lemma counter_server_starts_witness :
  (∃ cs f', start (P := nat) () (makeCounterAppServer (app_config "1" 10098) srv1, ()) =
     (Ret (), (mkCounterAppServer (app_config "1" 10098) srv1 (Some cs), f')) ∧
     is_Some (failureDetector cs)) ∧
  (∃ cs f', start (P := nat) () (makeCounterAppServer (app_config "2" 20098) srv2, ()) =
     (Ret (), (mkCounterAppServer (app_config "2" 20098) srv2 (Some cs), f')) ∧
     failureDetector cs = None).
Proof.
  assert (Happ : ∀ a, app_opens a) by (intros a []; by exists empty_db, ()).
  assert (Hop : ∀ c, opens c) by (intros c []; by exists empty_db, ()).
  assert (H1 : distinct_replicas srv1).
  { by apply (consistent_distinct srv_configs srv_replicas 0%nat); [exact srv_consistent|]. }
  assert (H2 : distinct_replicas srv2).
  { by apply (consistent_distinct srv_configs srv_replicas 1%nat); [exact srv_consistent|]. }
  split.
  - destruct (counter_server_starts (P := nat) () (app_config "1" 10098) srv1 () (Hop _) H1 (Happ _))
      as (cs & s & f' & E & _ & _ & _ & Hfd).
    exists cs, f'. split; [exact E|]. destruct (failureDetector cs); [by eexists|]. by destruct Hfd.
  - destruct (counter_server_starts (P := nat) () (app_config "2" 20098) srv2 () (Hop _) H2 (Happ _))
      as (cs & s & f' & E & _ & _ & _ & Hfd).
    exists cs, f'. split; [exact E|]. destruct (failureDetector cs) as [fd|]; [|done].
    by destruct Hfd as [Hn _].
Defined.

(** ** The ensemble: five nodes in one process *)

Record EnsembleNodeConfig := mkNodeConfig {
  sequencerId : string;
  sequencerPort : Z;
  replicaId : string;
  replicaPort : Z;
  metadataStorePort : Z }.

(** [getId] of a remote object asks the server at its address. *)
Class RemoteIds (F : Type) := getId_at : string → F → outcome string * F.

Section ensemble.
Context {F K Disk : Type} `{HU : Uuid F} `{HH : GrpcHost F} `{HI : RemoteIds F}.
(** The disk of the counters. *)
Context (disk0 : Disk).

(** [ensembleNode1] to [ensembleNode5] *)
Definition ensembleNodeConfig (port : Z) : M F EnsembleNodeConfig :=
  s ← fresh_uuid;
  r ← fresh_uuid;
  mret (mkNodeConfig ("SEQUENCER_" +:+ s) port ("REPLICA_" +:+ r) (port + 1) (port + 2)).
Definition ensembleNodeConfigs : M F (list EnsembleNodeConfig) :=
  c1 ← ensembleNodeConfig 10000;
  c2 ← ensembleNodeConfig 20000;
  c3 ← ensembleNodeConfig 30000;
  c4 ← ensembleNodeConfig 40000;
  c5 ← ensembleNodeConfig 50000;
  mret [c1; c2; c3; c4; c5].

Record EnsembleNode := mkNode {
  n_app : option (CounterApp K Disk);
  n_sequencer : option nat;
  n_replica : option nat;
  n_replicaSet : list nat;
  n_log : option VLogState;
  n_failureDetector : option FailureDetectorImpl }.

(** The nodes, with the objects they share but for the registry. *)
Record Ensemble := mkEnsemble {
  nodes_ : list EnsembleNode;
  e_metadataStore : Metadata.State;
  e_replicas : list (ReplicaObject Nano);
  e_sequencers : list SequencerObject }.

Abbreviation Make := (M (Ensemble * (RegistryImpl * F))).
Definition with_outside {A} (m : M F A) : Make A := zoom (λ x, x.2.2) (λ f x, (x.1, (x.2.1, f))) m.
Definition update_ensemble (g : Ensemble → Ensemble) : Make () := modify (λ x, (g x.1, x.2)).
Definition update_registry (g : RegistryImpl → RegistryImpl) : Make () :=
  modify (λ x, (x.1, (g x.2.1, x.2.2))).

Definition remote_getId (address : string) : Make string := with_outside (getId_at address).
(** [replica->getId()] *)
Definition object_getId (r : nat) : Make string :=
  x ← get;
  match e_replicas x.1 !! r with
  | Some (LocalReplica impl _) => mret (Replica.id_ impl)
  | Some (RemoteReplica address) => remote_getId address
  | None => throw NullPointer
  end.

Definition localhost (port : Z) : string := "localhost:" +:+ pretty port.

Definition push_replica (k : nat) (n : EnsembleNode) : EnsembleNode :=
  mkNode (n_app n) (n_sequencer n) (n_replica n) (n_replicaSet n ++ [k]) (n_log n) (n_failureDetector n).
Definition serve_replica (k : nat) (n : EnsembleNode) : EnsembleNode :=
  mkNode (n_app n) (n_sequencer n) (Some k) (n_replicaSet n) (n_log n) (n_failureDetector n).

(** A round of the first loop: the remote and the local replica of a node. *)
Definition add_replicas (e : Ensemble) (x : nat * EnsembleNodeConfig) : Ensemble :=
  let '(index, c) := x in
  let remote := length (e_replicas e) in
  let '(impl, rocksConfig) := makeReplica (replicaId c) "" makeNanoLogStore in
  mkEnsemble
    (imap (λ otherReplica n,
       if decide (otherReplica = index) then push_replica (S remote) (serve_replica (S remote) n)
       else push_replica remote n) (nodes_ e))
    (e_metadataStore e)
    (e_replicas e ++ [RemoteReplica (localhost (replicaPort c)); LocalReplica impl rocksConfig])
    (e_sequencers e).
Definition make_node_replicas (x : nat * EnsembleNodeConfig) : Make () :=
  s ← get;
  let remote := length (e_replicas s.1) in
  _ ← update_ensemble (λ e, add_replicas e x);
  _ ← with_outside (runRPCServer (localhost (replicaPort x.2)) [ReplicaService (S remote)]);
  id ← remote_getId (localhost (replicaPort x.2));
  update_registry (registerReplica id remote).

(** A round of the second loop: the sequencers, the virtual log, the counters
    and the failure detector of a node. *)
Definition set_node (index : nat) (q : nat) (st : VLogState) (n : EnsembleNode) : EnsembleNode :=
  mkNode (Some (makeCounterApp None disk0)) (Some q) (n_replica n) (n_replicaSet n) (Some st)
    (Some (makeFailureDetectorImpl {| sc_sequencer_id := ""; sc_replica_set := [] |})).
Definition add_node (e : Ensemble) (x : nat * EnsembleNodeConfig) : Ensemble :=
  let '(index, c) := x in
  match nodes_ e !! index with
  | None => e
  | Some node =>
      let q := length (e_sequencers e) in
      mkEnsemble
        (<[index := set_node index (S q)
             {| VirtualLog.metadataConfig := default_MetadataConfig; VirtualLog.sequencer := S (S q);
                VirtualLog.replicaSet := n_replicaSet node |} node]> (nodes_ e))
        (e_metadataStore e) (e_replicas e)
        (e_sequencers e ++ [RemoteSequencer (localhost (sequencerPort c));
           LocalSequencer (makeSequencer (sequencerId c) (n_replicaSet node)); NullSequencer])
  end.
Definition make_node (x : nat * EnsembleNodeConfig) : Make () :=
  s ← get;
  let q := length (e_sequencers s.1) in
  let replicaSet := default [] (n_replicaSet <$> nodes_ s.1 !! x.1) in
  _ ← check (bool_decide (length replicaSet = 5%nat));
  _ ← for_each replicaSet (λ r, _ ← object_getId r; mret ());
  _ ← update_ensemble (λ e, add_node e x);
  _ ← with_outside (runRPCServer (localhost (sequencerPort x.2)) [SequencerService (S q)]);
  id ← remote_getId (localhost (sequencerPort x.2));
  update_registry (registerSequencer id q).

Definition makeCounterAppEnsemble (configs : list EnsembleNodeConfig) : M F Ensemble := λ f,
  match Metadata.compareAndAppendRange first_config makeMetadataStore with
  | (Ret _, metadataStore) =>
      let nodes := replicate 5 (mkNode None None None [] None None) in
      match (_ ← for_each (imap pair configs) make_node_replicas; for_each (imap pair configs) make_node)
              (mkEnsemble nodes metadataStore [] [], (makeRegistry, f)) with
      | (Ret _, (e, (_, f'))) => (Ret e, f')
      | (Throw err, (_, (_, f'))) => (Throw err, f')
      | (Block, (_, (_, f'))) => (Block, f')
      end
  | (Throw err, _) => (Throw err, f)
  | (Block, _) => (Block, f)
  end.

(** ** Lemmas *)

Lemma for_each_core {A} (body : A → Make ()) (g : Ensemble → A → Ensemble) l x y :
  (∀ x a y, body a x = (Ret (), y) → y.1 = g x.1 a) →
  for_each l body x = (Ret (), y) → y.1 = foldl g x.1 l.
Proof.
  intros Hb. revert x. induction l as [|a l IH]; intros x; simpl; [by intros [= <-]|].
  intros E. apply bind_inv_Ret in E as ([] & x1 & E1 & E2). apply IH in E2. by rewrite E2, (Hb _ _ _ E1).
Qed.
Lemma outside_core {A} (m : M F A) x o y : with_outside m x = (o, y) → y.1 = x.1.
Proof. unfold with_outside, zoom. destruct (m x.2.2). by intros [= _ <-]. Qed.
Lemma getIds_core (l : list nat) x o y :
  for_each l (λ r, _ ← object_getId r; mret ()) x = (o, y) → y.1 = x.1.
Proof.
  revert x o y. induction l as [|r l IH]; intros x o y; simpl; [by intros [= _ <-]|].
  unfold object_getId. mred. destruct (e_replicas x.1 !! r) as [[impl rc|a]|].
  - apply IH.
  - destruct (remote_getId a x) as [[i| |] x1] eqn:E; apply outside_core in E; intros E'.
    + apply IH in E'. by rewrite E'.
    + by injection E' as _ <-.
    + by injection E' as _ <-.
  - by intros [= _ <-].
Qed.

Lemma make_node_replicas_core x a y : make_node_replicas a x = (Ret (), y) → y.1 = add_replicas x.1 a.
Proof.
  unfold make_node_replicas, update_ensemble, update_registry, modify, get. mred.
  destruct (with_outside _ _) as [[o| |] x1] eqn:E1; [|done..]. apply outside_core in E1.
  destruct (remote_getId _ x1) as [[i| |] x2] eqn:E2; [|done..]. apply outside_core in E2.
  intros [= <-]. simpl in *. by rewrite E2, E1.
Qed.
Lemma make_node_core x a y : make_node a x = (Ret (), y) → y.1 = add_node x.1 a.
Proof.
  unfold make_node, update_ensemble, update_registry, modify, get, check. mred.
  destruct (bool_decide _); [|done].
  destruct (for_each _ _ x) as [[o| |] x0] eqn:E0; [|done..]. apply getIds_core in E0.
  destruct (with_outside _ _) as [[o1| |] x1] eqn:E1; [|done..]. apply outside_core in E1.
  destruct (remote_getId _ x1) as [[i| |] x2] eqn:E2; [|done..]. apply outside_core in E2.
  intros [= <-]. simpl in *. by rewrite E2, E1, E0.
Qed.

(** Whatever the servers answer to [getId], an ensemble that is returned has
    five nodes.  The replica set of each node lists the replicas in the order
    of the configurations, the own one local and the others remote; its virtual
    log has the null sequencer; and its failure detector asks for the
    configuration that names no sequencer and no replicas. *)
Theorem ensemble_nodes c1 c2 c3 c4 c5 f e f' :
  makeCounterAppEnsemble [c1; c2; c3; c4; c5] f = (Ret e, f') →
  length (nodes_ e) = 5%nat ∧
  ∀ i n, nodes_ e !! i = Some n →
    (∀ j c, [c1; c2; c3; c4; c5] !! j = Some c → ∃ k, n_replicaSet n !! j = Some k ∧
       e_replicas e !! k = Some (
         if decide (i = j)
         then LocalReplica (mkReplicaImpl (replicaId c) "" ∅ InMemory) default_RocksDbConfig
         else RemoteReplica (localhost (replicaPort c)))) ∧
    (∃ st, n_log n = Some st ∧ VirtualLog.replicaSet st = n_replicaSet n ∧
       e_sequencers e !! VirtualLog.sequencer st = Some NullSequencer) ∧
    (∃ fd, n_failureDetector n = Some fd ∧
       ensemble_config (FailureDetector.logServerConfig_ fd) = default_MetadataConfig).
Proof.
  unfold makeCounterAppEnsemble.
  change (Metadata.compareAndAppendRange first_config makeMetadataStore)
    with (Ret (), Metadata.append_config first_config Metadata.empty_store).
  cbv beta iota zeta.
  match goal with |- context [match ?x with _ => _ end] => destruct x as [[[]| |] [e' [r' f1]]] eqn:E end;
    [|done..].
  apply bind_inv_Ret in E as ([] & x1 & E1 & E2).
  apply (for_each_core _ _ _ _ _ make_node_replicas_core) in E1.
  apply (for_each_core _ _ _ _ _ make_node_core) in E2. rewrite E1 in E2.
  cbn in E2. intros [= <- _]. simpl in E2. subst e'. split; [done|].
  intros i n Hi. destruct i as [|[|[|[|[|i]]]]]; [..|done]; injection Hi as <-.
  all: split; [|split; by eexists].
  all: intros j c Hj; destruct j as [|[|[|[|[|j]]]]]; [..|done]; injection Hj as <-; by eexists.
Qed.
End ensemble.
