(* ===== verification/EntryPoints.v ===== *)
(** * Entry points

    [src/log/main.cc], [src/applications/counter/main.cc] and
    [src/metadata/main.cc]: the processes of a deployment.  The first two read
    configuration files and start a server; the third one serves a metadata
    store of its own.  After that they sleep; the sleep is left out. *)

From stdpp Require Import base gmap list strings.
From Stdlib Require Import ZArith Lia.
From S2P Require Import Prelude LogTypes Metadata KVStore Program VirtualLog FailureDetector Process LogServer.
From S2P Require Import FlatMap LogMachine Counter CounterServer.

Open Scope Z_scope.

(** [std::ifstream]: what is in a file that can be opened. *)
Class TextFiles (F : Type) := read_file : string → F → option string.
(** [TextFormat::ParseFromString] for the messages of type [A]. *)
Class TextFormat (A : Type) := parse_text : string → option A.

(** Reading a configuration; without one, [main] returns 1. *)
Definition read_config {F A} `{TextFiles F} `{TextFormat A} (fileName : string) : M F (option A) :=
  gets (λ f, read_file fileName f ≫= parse_text).

Section mains.
Context {P D F Disk : Type} `{HD : RocksDB D} `{HF : RocksFiles F D} `{HH : GrpcHost F}.
Context `{HT : TextFiles F} `{HL : TextFormat LogServer.ServerConfig} `{HA : TextFormat CounterAppConfig}.
Context `{HK : Checkpoints (Rocks.RocksKVStoreLite D) Disk} `{HC : CounterCodec} `{HV : LogTrimViewCodec}.
Context (disk0 : Disk).
Abbreviation Server := (LogServer.LogServer (P := P) (D := D)).
Abbreviation App := (CounterAppServer (P := P) (D := D) (Disk := Disk)).

(** A call on an object that [main] has made, and the object after it. *)
Definition run_on {X} (x : X) (m : M (X * F) ()) : M F X := λ f,
  let '(o, (x', f')) := m (x, f) in
  (match o with Ret _ => Ret x' | Throw e => Throw e | Block => Block end, f').

(** [log/main.cc]: the exit code, and the server that runs. *)
Definition log_main (argv : list string) : M F (Z * option Server) :=
  match argv with
  | _ :: fileName :: _ =>
      c ← read_config (A := LogServer.ServerConfig) fileName;
      match c with
      | None => mret (1, None)
      | Some srv1Config =>
          runServer ← run_on (makeLogServer srv1Config) LogServer.start;
          mret (0, Some runServer)
      end
  | _ => mret (1, None)
  end.

(** [applications/counter/main.cc]: the number of arguments is compared with
    that of the log server; a second argument that is not there is a null
    pointer. *)
Definition counter_main (argv : list string) : M F (Z * option App) :=
  match argv with
  | _ :: fileName :: rest =>
      c ← read_config (A := LogServer.ServerConfig) fileName;
      match c with
      | None => mret (1, None)
      | Some srv1Config =>
          match rest with
          | [] => throw NullPointer
          | appFileName :: _ =>
              a ← read_config (A := CounterAppConfig) appFileName;
              match a with
              | None => mret (1, None)
              | Some appConfig =>
                  appServer ← run_on (makeCounterAppServer appConfig srv1Config)
                                (CounterServer.start disk0);
                  mret (0, Some appServer)
              end
          end
      end
  | _ => mret (1, None)
  end.

(** [metadata/main.cc] *)
Definition initial_config : MetadataConfig :=
  {| version_id := 1; previous_version_id := 0; start_index := 1; end_index := 1000;
     previous_version_end_index := 0; sequencer_config := default_SequencerConfig;
     replica_set_config := [] |}.
Definition metadataServerAddress : string := "127.0.0.1:60003".
Definition metadata_main : M F (Metadata.State * option GrpcServer) := λ f,
  match compareAndAppendRange initial_config Metadata.empty_store with
  | (Ret _, metadataStore) =>
      let '(o, f') := runRPCServer metadataServerAddress [MetadataService] f in
      (match o with Ret server => Ret (metadataStore, server) | Throw e => Throw e | Block => Block end, f')
  | (Throw e, _) => (Throw e, f)
  | (Block, _) => (Block, f)
  end.

(** ** The log server and the counters *)

(** With a configuration whose replicas have distinct names, the process runs
    a wired log server; with two of one name it fails. *)
Theorem log_main_spec argv0 fileName rest (c : LogServer.ServerConfig) f :
  read_file fileName f ≫= parse_text = Some c → opens c →
  (distinct_replicas c → ∃ s f',
     log_main (argv0 :: fileName :: rest) f = (Ret (0, Some (mkLogServer c (Some s))), f') ∧ wired c s) ∧
  (¬ distinct_replicas c → ∃ f',
     log_main (argv0 :: fileName :: rest) f = (Throw AssertFailure, f')).
Proof.
  intros Hc Hopen. destruct (start_spec (P := P) c f Hopen) as [Hok Hbad].
  split; intros Hnd; unfold log_main, read_config, run_on; mred; rewrite Hc.
  - destruct (Hok Hnd) as (s & f' & E & W). exists s, f'. split; [|done]. mred. by rewrite E.
  - destruct (Hbad Hnd) as (f' & E). exists f'. mred. by rewrite E.
Qed.

(** Started like a log server, with one argument, the process of the counters
    does not return 1 but uses the argument that is not there. *)
Theorem counter_main_needs_two argv0 fileName (c : LogServer.ServerConfig) f :
  read_file fileName f ≫= parse_text = Some c →
  counter_main [argv0; fileName] f = (Throw NullPointer, f).
Proof. intros Hc. unfold counter_main, read_config. mred. by rewrite Hc. Qed.
End mains.

(** ** The metadata server *)

(** The configs a store can find are those appended to it. *)
Lemma run_appends_configs (Q : MetadataConfig → Prop) cs st :
  Forall Q cs → Forall Q (logIdToConfig_ st).*2 → Forall Q (logIdToConfig_ (run_appends cs st).2).*2.
Proof.
  intros Hcs. revert st. induction Hcs as [|c cs Hc _ IH]; intros st Hst; [done|]. simpl.
  destruct (compareAndAppendRange c st) as [o st1] eqn:E. specialize (IH st1).
  destruct (run_appends cs st1) as [os st2]. apply IH.
  assert (Ha : Forall Q (logIdToConfig_ (append_config c st)).*2).
  { rewrite Forall_fmap in *. by apply Forall_om_set. }
  revert E. unfold compareAndAppendRange. destruct (om_last (configs_ st)) as [[last ?]|];
    (destruct (_ : bool); intros [= _ <-]; done).
Qed.

(** The metadata server says of its first version that it ends at position
    1000, and the end of a version is not brought up to date where a position
    is looked up: whatever versions are appended later, a position from 1000 on
    that is before the start of all of them is in none. *)
Theorem metadata_server_loses_positions {F} `{GrpcHost F} (f : F) cs l :
  1000 ≤ l → Forall (λ c, l < start_index c) cs →
  ∃ st server f', metadata_main f = (Ret (st, server), f') ∧ getCurrentVersionId st = 1 ∧
    getConfigUsingLogId l (run_appends cs st).2 = None.
Proof.
  intros Hl Hcs. unfold metadata_main, runRPCServer. simpl.
  destruct (BuildAndStart _ f) as [b f']. eexists _, _, f'. split; [done|]. split; [done|].
  set (st := append_config _ _).
  destruct (getConfigUsingLogId l (run_appends cs st).2) as [c|] eqn:E; [exfalso|done].
  pose proof (getConfigUsingLogId_range _ _ _ E) as Hr. apply getConfigUsingLogId_elem in E.
  assert (HQ : Forall (λ c, l < start_index c ∨ c = initial_config) (logIdToConfig_ (run_appends cs st).2).*2).
  { apply run_appends_configs; [eapply Forall_impl; [exact Hcs|]; simpl; auto|]. apply Forall_singleton. by right. }
  rewrite Forall_forall in HQ. destruct (HQ _ E) as [?| ->]; [lia|]. simpl in Hr. lia.
Qed.

(** ** Witnesses *)

Section main_witnesses.
#[local] Instance one_config : TextFiles () := λ name _, Some name.
#[local] Instance parse_srv1 : TextFormat LogServer.ServerConfig := λ _, Some srv1.
#[local] Instance one_db : RocksFiles () MemDB :=
  {| DestroyDB _ f := (StatusOk, f); DB_Open _ f := (StatusOk, Some empty_db, f) |}.
#[local] Instance ports : GrpcHost () := λ _ f, (true, f).

Lemma log_main_spec_witness :
  ∃ s f', log_main (P := nat) (D := MemDB) ["LogServer"; "srv1_config.textproto"]%string () =
    (Ret (0, Some (mkLogServer srv1 (Some s))), f') ∧ wired srv1 s.
Proof.
  apply (log_main_spec (P := nat) "LogServer" "srv1_config.textproto" [] srv1 ()).
  - vm_compute. reflexivity.
  - intros []. by exists empty_db, ().
  - by apply (consistent_distinct srv_configs srv_replicas 0%nat); [exact srv_consistent|].
Defined.

(** A second version that starts at 1500: position 1200 is gone. *)
Definition second_config : MetadataConfig :=
  {| version_id := 2; previous_version_id := 1; start_index := 1500; end_index := i64_max;
     previous_version_end_index := 1500; sequencer_config := default_SequencerConfig;
     replica_set_config := [] |}.
Lemma metadata_server_loses_positions_witness :
  ∃ st server f', metadata_main () = (Ret (st, server), f') ∧ getCurrentVersionId st = 1 ∧
    getConfigUsingLogId 1200 (run_appends [second_config] st).2 = None ∧
    getConfigUsingLogId 999 (run_appends [second_config] st).2 = Some initial_config.
Proof.
  destruct (metadata_server_loses_positions () [second_config] 1200 ltac:(lia) ltac:(repeat constructor))
    as (st & server & f' & E & Hv & Hn).
  exists st, server, f'. split; [exact E|]. split; [exact Hv|]. split; [exact Hn|].
  injection E as <- _ _. vm_compute. reflexivity.
Defined.
End main_witnesses.
