(* ===== verification/TxnMachine.v ===== *)
(** * Transactions over a chain of registers

    [src/statemachine/]: [Common.h], [ConflictDetector.h],
    [RocksTxnApplicator.h] and [RocksStateMachine.h].  A transaction is a set of
    writes and deletes; it is applied to RocksDB in the order of a chain of
    write-once registers.  A transaction that was executed before it got its
    place carries the batch of that execution, which is used unless a key it
    depends on has been modified since. *)

From stdpp Require Import base gmap sets list strings sorting.
From Stdlib Require Import ZArith Lia.
From S2P Require Import Prelude Program Proposer Wor KVStore.

Open Scope Z_scope.

(** ** [Common.h] and [RocksTxn.proto] *)

Record SpeculativeTxnResult := mkSpecResult { conflictDetected : bool; spec_txnSucceeded : bool }.
Record RocksTxnResult := mkTxnResult { txnSucceeded : bool; speculativeTxnResult : SpeculativeTxnResult }.
Record SpeculativeExecution := mkSpec { keySet : list string; batch : list BatchOp; spec_logId : Z }.
Record RocksTxn := mkTxn {
  txnId : Z;
  speculativeExecution : option SpeculativeExecution;
  serializedPayload : string;
  txn_logId : Z }.
(** The transaction of an entry of the chain: the other fields are zero. *)
Definition payload_txn (p : string) : RocksTxn := mkTxn 0 None p 0.

Record RocksTxn_1 := mkTxn_1 {
  txn_id : string;
  read_set : list string;
  write_set : list (string * string);
  delete_set : list string }.
Class RocksTxnCodec := { Txn_ParseFromString : string → option RocksTxn_1 }.

(** ** ConflictDetector *)

Record ConflictDetector := mkDetector { keysModifiedSet_ : ordmap Z (gset string) }.
Definition makeConflictDetector : ConflictDetector := mkDetector [].

Definition addKeySet (logId : Z) (keys : list string) (d : ConflictDetector) : ConflictDetector :=
  mkDetector (om_emplace logId (list_to_set keys) (keysModifiedSet_ d)).2.

Definition conflicted (speculativeExecution : SpeculativeExecution) (d : ConflictDetector) : bool :=
  existsb (λ e : Z * gset string,
      existsb (λ key, bool_decide (key ∈ e.2)) (keySet speculativeExecution))
    (om_upper_bound (spec_logId speculativeExecution) (keysModifiedSet_ d)).

(** ** RocksTxnApplicator *)

Section applicator.
Context {D : Type} `{RocksDB D} `{RocksTxnCodec}.

Record RocksTxnApplicator := mkTxnApplicator {
  conflictDetector_ : ConflictDetector;
  rocks_ : D }.

Definition txn_result (succeeded conflict specSucceeded : bool) : RocksTxnResult :=
  mkTxnResult succeeded (mkSpecResult conflict specSucceeded).

(** The fast path: the batch of the speculative execution. *)
Definition write_speculative (logId : Z) (spec : SpeculativeExecution)
    : M RocksTxnApplicator RocksTxnResult := λ s,
  let '(status, d) := db_Write (batch spec) (rocks_ s) in
  if ok status
  then (Ret (txn_result false false true),
        mkTxnApplicator (addKeySet logId (keySet spec) (conflictDetector_ s)) d)
  else (Ret (txn_result false true false), mkTxnApplicator (conflictDetector_ s) d).

Definition batch_of (t : RocksTxn_1) : list BatchOp :=
  map (λ '(k, v), BatchPut k v) (write_set t) ++ map BatchDelete (delete_set t).
Definition modified_keys (t : RocksTxn_1) : list string :=
  map fst (write_set t) ++ delete_set t.

(** Executing the transaction itself. *)
Definition execute (txn : RocksTxn) : M RocksTxnApplicator RocksTxnResult := λ s,
  match Txn_ParseFromString (serializedPayload txn) with
  | None => (Throw AssertFailure, s)
  | Some rockTxn1 =>
      let '(status, d) := db_Write (batch_of rockTxn1) (rocks_ s) in
      if ok status
      then (Ret (txn_result true false false),
            mkTxnApplicator (addKeySet (txn_logId txn) (modified_keys rockTxn1) (conflictDetector_ s)) d)
      else (Ret (txn_result false false false), mkTxnApplicator (conflictDetector_ s) d)
  end.

Definition apply (txn : RocksTxn) : M RocksTxnApplicator RocksTxnResult := λ s,
  match speculativeExecution txn with
  | Some spec =>
      if conflicted spec (conflictDetector_ s) then execute txn s
      else write_speculative (txn_logId txn) spec s
  | None => execute txn s
  end.

(** ** RocksStateMachine, with its applicator *)

Record RocksStateMachine := mkRocksMachine {
  lastAppliedWorId_ : Z;
  applicator_ : RocksTxnApplicator }.
Definition makeRocksStateMachine (a : RocksTxnApplicator) : RocksStateMachine := mkRocksMachine 0 a.

Definition on_applicator {A} (m : M RocksTxnApplicator A) : sprog chain_call RocksStateMachine A := λ s,
  let '(o, a) := m (applicator_ s) in mret (o, mkRocksMachine (lastAppliedWorId_ s) a).

(** One round of the loop: the value of register [i] is applied. *)
Definition apply_register (i : Z) : sprog chain_call RocksStateMachine () :=
  wor ← lift (perform (ChainGet i));
  if wor : bool then
    readValue ← lift (perform (WorRead i));
    match readValue with
    | inl serializedPayload => _ ← on_applicator (apply (payload_txn serializedPayload)); mret ()
    | inr _ => sthrow (RuntimeError "std::bad_variant_access")
    end
  else sthrow AssertFailure.

(** [for (i = first; i < first + n; i++)] *)
Fixpoint apply_registers (first : Z) (n : nat) : sprog chain_call RocksStateMachine () :=
  match n with
  | O => mret ()
  | S n' => _ ← apply_register first; apply_registers (first + 1) n'
  end.

(** [append]; the appender tries [INT32_MAX] times, each time for at most
    [fuel] rounds, and [None] stands for a try that is still going on. *)
Definition append (fuel : nat) (txn : RocksTxn) : sprog chain_call RocksStateMachine (option RocksTxnResult) :=
  toWorId ← lift (Appender_append fuel (serializedPayload txn) (2 ^ 31 - 1));
  match toWorId with
  | None => mret None
  | Some to =>
      s ← sget;
      _ ← apply_registers (lastAppliedWorId_ s + 1) (Z.to_nat (to - (lastAppliedWorId_ s + 1)));
      r ← on_applicator (apply txn);
      mret (Some r)
  end.
End applicator.
Arguments RocksTxnApplicator : clear implicits.
Arguments RocksStateMachine : clear implicits.

(** ** Conflicts *)

(** A speculative execution conflicts exactly when a transaction with a later
    log id is known to have modified one of its keys. *)
Lemma conflicted_spec spec d :
  conflicted spec d = true ↔
  ∃ logId keys key, (logId, keys) ∈ keysModifiedSet_ d ∧ spec_logId spec < logId ∧
    key ∈ keySet spec ∧ key ∈ keys.
Proof.
  unfold conflicted. rewrite existsb_exists. split.
  - intros ([logId keys] & Hin%list_elem_of_In & (key & Hk%list_elem_of_In & Hb)%existsb_exists).
    apply bool_decide_eq_true in Hb. apply list_elem_of_filter in Hin as [Hlt Hin]. simpl in *.
    exists logId, keys, key. split_and!; [done|lia|done..].
  - intros (logId & keys & key & Hin & Hlt & Hk & Hks). exists (logId, keys). split.
    + apply list_elem_of_In, list_elem_of_filter. simpl. split; [lia|done].
    + apply existsb_exists. exists key. split; [by apply list_elem_of_In|by apply bool_decide_eq_true].
Qed.

Section laws.
Context {D : Type} `{HD : RocksDB D} `{HDL : !RocksDBLaws D} `{HC : RocksTxnCodec}.
Implicit Types s : RocksTxnApplicator D.

Definition contents s : ordmap string string := db_contents (rocks_ s).

(** ** The applicator, on every branch *)

(** What a write that answers [status] leaves in the database. *)
Definition written_if (status : Status) (ops : list BatchOp) (m : ordmap string string)
    : ordmap string string := if ok status then foldl apply_batch_op m ops else m.

(** [apply] uses the batch of the speculative execution when nothing
    conflicts with it and executes the transaction otherwise; it records the
    keys of what it wrote; and it answers that there was a conflict when there
    was none and the write failed, and never when there was one. *)
Lemma apply_branches txn s :
  let spec_ok := match speculativeExecution txn with
                 | Some spec => if conflicted spec (conflictDetector_ s) then None else Some spec
                 | None => None
                 end in
  match spec_ok, Txn_ParseFromString (serializedPayload txn) with
  | Some spec, _ => ∃ status s', apply txn s =
      (Ret (mkTxnResult false (mkSpecResult (negb (ok status)) (ok status))), s') ∧
      contents s' = written_if status (batch spec) (contents s) ∧
      conflictDetector_ s' =
        if ok status then addKeySet (txn_logId txn) (keySet spec) (conflictDetector_ s)
        else conflictDetector_ s
  | None, Some t => ∃ status s', apply txn s =
      (Ret (mkTxnResult (ok status) (mkSpecResult false false)), s') ∧
      contents s' = written_if status (batch_of t) (contents s) ∧
      conflictDetector_ s' =
        if ok status then addKeySet (txn_logId txn) (modified_keys t) (conflictDetector_ s)
        else conflictDetector_ s
  | None, None => apply txn s = (Throw AssertFailure, s)
  end.
Proof.
  intros spec_ok. unfold apply, spec_ok.
  assert (Hex : match Txn_ParseFromString (serializedPayload txn) with
    | Some t => ∃ status s', execute txn s =
        (Ret (mkTxnResult (ok status) (mkSpecResult false false)), s') ∧
        contents s' = written_if status (batch_of t) (contents s) ∧
        conflictDetector_ s' =
          if ok status then addKeySet (txn_logId txn) (modified_keys t) (conflictDetector_ s)
          else conflictDetector_ s
    | None => execute txn s = (Throw AssertFailure, s)
    end).
  { unfold execute. destruct (Txn_ParseFromString _) as [t|]; [|done].
    destruct (db_Write (batch_of t) (rocks_ s)) as [status d] eqn:E. exists status.
    apply db_Write_spec in E. unfold contents, written_if. rewrite <- E.
    by destruct (ok status); eexists. }
  destruct (speculativeExecution txn) as [spec|]; [|done].
  destruct (conflicted spec (conflictDetector_ s)); [done|].
  unfold write_speculative. destruct (db_Write (batch spec) (rocks_ s)) as [status d] eqn:E.
  exists status. apply db_Write_spec in E. unfold contents, written_if. rewrite <- E.
  by destruct (ok status); eexists.
Qed.

(** ** What a transaction touches *)

Definition op_key (op : BatchOp) : string :=
  match op with BatchPut k _ | BatchDelete k => k end.

Lemma batch_other key ops m :
  (∀ op, op ∈ ops → op_key op ≠ key) →
  om_find key (foldl apply_batch_op m ops) = om_find key m.
Proof.
  revert m. induction ops as [|op ops IH]; intros m Ho; [done|]. simpl. rewrite IH by set_solver.
  pose proof (Ho op ltac:(set_solver)). destruct op as [k v|k]; simpl in *.
  - by rewrite om_find_set_ne.
  - rewrite om_find_erase. by rewrite decide_False.
Qed.

Lemma batch_of_keys t op : op ∈ batch_of t → op_key op ∈ modified_keys t.
Proof.
  unfold batch_of, modified_keys. rewrite !elem_of_app. intros [Hin|Hin].
  - apply list_elem_of_fmap in Hin as ([k v] & -> & Hin). left. by apply (list_elem_of_fmap_2 fst) in Hin.
  - apply list_elem_of_fmap in Hin as (k & -> & Hin). by right.
Qed.

(** The batch of a speculative execution writes keys of its key set. *)
Definition within (txn : RocksTxn) : Prop :=
  ∀ spec, speculativeExecution txn = Some spec → ∀ op, op ∈ batch spec → op_key op ∈ keySet spec.

Lemma apply_effect txn s :
  within txn →
  let s' := (apply txn s).2 in
  contents s' = contents s ∧ conflictDetector_ s' = conflictDetector_ s ∨
  ∃ ks, conflictDetector_ s' = addKeySet (txn_logId txn) ks (conflictDetector_ s) ∧
    ∀ key, key ∉ ks → om_find key (contents s') = om_find key (contents s).
Proof.
  intros Hw. pose proof (apply_branches txn s) as Hb. cbv zeta in Hb |- *.
  destruct (speculativeExecution txn) as [spec|] eqn:Es;
    [destruct (conflicted spec (conflictDetector_ s))|].
  2: { destruct Hb as (status & s' & -> & Hc & Hd). simpl. rewrite Hc, Hd. unfold written_if.
       destruct (ok status); [right|by left]. exists (keySet spec). split; [done|]. intros key Hk.
       apply batch_other. intros op Hop <-. by apply Hk, (Hw spec). }
  all: destruct (Txn_ParseFromString (serializedPayload txn)) as [t|]; [|rewrite Hb; by left];
    destruct Hb as (status & s' & -> & Hc & Hd); simpl; rewrite Hc, Hd; unfold written_if;
    destruct (ok status); [right|by left]; exists (modified_keys t); (split; [done|]);
    intros key Hk; apply batch_other; intros op Hop <-; by apply Hk, batch_of_keys.
Qed.

(** ** Sequences of transactions *)

Definition apply_txns (l : list RocksTxn) s : RocksTxnApplicator D :=
  foldl (λ s txn, (apply txn s).2) s l.

(** The detector knows no transaction from [bound] on. *)
Definition detector_below (bound : Z) (d : ConflictDetector) : Prop :=
  ∀ e, e ∈ keysModifiedSet_ d → e.1 < bound.

Lemma elem_of_addKeySet_inv logId ks d e :
  e ∈ keysModifiedSet_ (addKeySet logId ks d) →
  e = (logId, list_to_set ks) ∨ e ∈ keysModifiedSet_ d.
Proof.
  unfold addKeySet, om_emplace. simpl. destruct (om_find logId (keysModifiedSet_ d)); simpl; [by right|].
  induction (keysModifiedSet_ d) as [|[k v] m IH]; simpl; [set_solver|]. repeat case_decide; set_solver.
Qed.

Lemma elem_of_addKeySet logId ks d e :
  e ∈ keysModifiedSet_ d → e ∈ keysModifiedSet_ (addKeySet logId ks d).
Proof.
  unfold addKeySet, om_emplace. simpl. destruct (om_find logId _) eqn:E; [done|]. simpl.
  intros Hin. apply om_find_None in E.
  induction (keysModifiedSet_ d) as [|[k v] m IH]; [by apply elem_of_nil in Hin|]. simpl.
  assert (logId ≠ k) by (intros ->; apply E; simpl; by left). rewrite decide_False by done.
  case_decide; [by right|]. apply elem_of_cons in Hin as [->|Hin]; [by left|right].
  apply IH; [|done]. intros Hk. apply E. simpl. by right.
Qed.

Lemma addKeySet_new logId ks d :
  detector_below logId d → (logId, list_to_set ks) ∈ keysModifiedSet_ (addKeySet logId ks d).
Proof.
  intros Hb. unfold addKeySet, om_emplace.
  destruct (om_find logId (keysModifiedSet_ d)) as [x|] eqn:E.
  - apply om_find_Some_elem, Hb in E. simpl in E. lia.
  - simpl. apply om_find_Some_elem. by rewrite om_find_set_eq.
Qed.

Lemma addKeySet_below logId ks d :
  detector_below logId d → detector_below (logId + 1) (addKeySet logId ks d).
Proof.
  intros Hb e [->|He%Hb]%elem_of_addKeySet_inv; simpl; lia.
Qed.

Lemma detector_below_weaken b b' d : b ≤ b' → detector_below b d → detector_below b' d.
Proof. intros Hle Hb e He. specialize (Hb e He). lia. Qed.

Lemma apply_txns_keeps l s e :
  Forall within l → e ∈ keysModifiedSet_ (conflictDetector_ s) →
  e ∈ keysModifiedSet_ (conflictDetector_ (apply_txns l s)).
Proof.
  revert s. induction l as [|txn l IH]; intros s Hl He; [done|].
  apply Forall_cons in Hl as [Hw Hl]. simpl. apply IH; [done|].
  destruct (apply_effect txn s Hw) as [[_ ->]|(ks & -> & _)]; [done|]. by apply elem_of_addKeySet.
Qed.

(** Transactions with increasing log ids, of which none later than [logId] has
    modified [key] to the knowledge of the detector, leave it alone. *)
Lemma apply_txns_key l s logId key :
  StronglySorted Z.lt (map txn_logId l) → Forall (λ t, logId < txn_logId t) l → Forall within l →
  (∀ t, t ∈ l → detector_below (txn_logId t) (conflictDetector_ s)) →
  (∀ e, e ∈ keysModifiedSet_ (conflictDetector_ (apply_txns l s)) → logId < e.1 → key ∉ e.2) →
  om_find key (contents (apply_txns l s)) = om_find key (contents s).
Proof.
  revert s. induction l as [|txn l IH]; intros s Hs Hl Hw Hb Hk; [done|]. simpl in *.
  apply StronglySorted_inv in Hs as [Hs Hlt]. apply Forall_cons in Hl as [Hid Hl].
  apply Forall_cons in Hw as [Hwt Hw]. pose proof (Hb txn ltac:(left)) as Hbt.
  destruct (apply_effect txn s Hwt) as [[Ec Ed]|(ks & Ed & Ec)].
  - rewrite IH; [by rewrite Ec|done..| |done]. intros t Ht. rewrite Ed. apply Hb. by right.
  - rewrite IH; [|done..| |done].
    + apply Ec. assert (Hin : (txn_logId txn, list_to_set ks) ∈
          keysModifiedSet_ (conflictDetector_ (apply_txns l (apply txn s).2))).
      { apply apply_txns_keeps; [done|]. rewrite Ed. by apply addKeySet_new. }
      intros Hks. apply (Hk _ Hin Hid). simpl. by apply elem_of_list_to_set.
    + intros t Ht. rewrite Ed. eapply detector_below_weaken; [|by apply addKeySet_below].
      rewrite Forall_forall in Hlt. pose proof (Hlt (txn_logId t) ltac:(by apply (list_elem_of_fmap_2 txn_logId))).
      lia.
Qed.

Lemma apply_txns_below l s bound :
  Forall within l → detector_below bound (conflictDetector_ s) →
  Forall (λ t, txn_logId t < bound) l → detector_below bound (conflictDetector_ (apply_txns l s)).
Proof.
  revert s. induction l as [|txn l IH]; intros s Hw Hb Hl; [done|]. simpl.
  apply Forall_cons in Hw as [Hwt Hw]. apply Forall_cons in Hl as [Hlt Hl]. apply IH; [done| |done].
  destruct (apply_effect txn s Hwt) as [[_ ->]|(ks & -> & _)]; [done|].
  by intros e [->|He%Hb]%elem_of_addKeySet_inv.
Qed.

(** C34: transactions are applied with strictly increasing log ids, to an
    applicator that has seen none yet; speculative executions write keys of
    their own key set only.  Then, when the detector finds no conflict with a
    speculative execution at log id [ℓ], the database holds, for each of its
    keys, the value it had after the transactions up to [ℓ].  (Entries of the
    chain are replayed with log id 0 by [RocksStateMachine.h], and are not
    covered: [replayed_writes_unseen].) *)
Theorem speculation_is_valid l1 l2 s0 spec key :
  keysModifiedSet_ (conflictDetector_ s0) = [] →
  StronglySorted Z.lt (map txn_logId (l1 ++ l2)) → Forall within (l1 ++ l2) →
  Forall (λ t, txn_logId t ≤ spec_logId spec) l1 → Forall (λ t, spec_logId spec < txn_logId t) l2 →
  let s1 := apply_txns l1 s0 in let s2 := apply_txns l2 s1 in
  conflicted spec (conflictDetector_ s2) = false → key ∈ keySet spec →
  om_find key (contents s2) = om_find key (contents s1).
Proof.
  intros E0 Hs [Hw1 Hw2]%Forall_app Hl1 Hl2 s1 s2 Hc Hk.
  rewrite map_app in Hs. apply (apply_txns_key l2 s1 (spec_logId spec)); [|done..| |].
  - by apply StronglySorted_app_1_r in Hs.
  - intros t Ht. apply apply_txns_below; [done| |].
    + intros e. rewrite E0. set_solver.
    + rewrite Forall_forall in Hl1, Hl2. apply Forall_forall. intros t' Ht'.
      specialize (Hl1 t' Ht'). specialize (Hl2 t Ht). lia.
  - intros [logId keys] He Hlt Hin. simpl in *.
    assert (conflicted spec (conflictDetector_ s2) = true); [|congruence].
    apply conflicted_spec. by exists logId, keys, key.
Qed.
End laws.

(** ** Entries of the chain *)

Section chain.
Context {D : Type} `{HD : RocksDB D} `{HDL : !RocksDBLaws D} `{HC : RocksTxnCodec}.

(** What a machine applies from the chain, with the log id 0, never conflicts
    with a speculative execution at a log id from 0 on. *)
Theorem replayed_writes_unseen p (s : RocksTxnApplicator D) spec :
  0 ≤ spec_logId spec →
  conflicted spec (conflictDetector_ (apply (payload_txn p) s).2) =
  conflicted spec (conflictDetector_ s).
Proof.
  intros Hid. assert (Hw : within (payload_txn p)) by done.
  destruct (apply_effect (payload_txn p) s Hw) as [[_ ->]|(ks & -> & _)]; [done|].
  apply eq_true_iff_eq. rewrite !conflicted_spec. split.
  - intros (logId & keys & key & [[= -> ->]|Hin]%elem_of_addKeySet_inv & Hlt & Hk);
      [simpl in *; lia|by exists logId, keys, key].
  - intros (logId & keys & key & Hin & Hk). exists logId, keys, key.
    split; [by apply elem_of_addKeySet|done].
Qed.

(** ** Applying the chain again *)

(** The last write of a key in a batch: a value, or nothing for a delete. *)
Fixpoint last_write (key : string) (ops : list BatchOp) : option (option string) :=
  match ops with
  | [] => None
  | op :: ops' =>
      match last_write key ops' with
      | Some o => Some o
      | None =>
          if decide (op_key op = key)
          then Some (match op with BatchPut _ v => Some v | BatchDelete _ => None end)
          else None
      end
  end.

Lemma find_batch key ops m :
  om_find key (foldl apply_batch_op m ops) = default (om_find key m) (last_write key ops).
Proof.
  revert m. induction ops as [|op ops IH]; intros m; [done|]. simpl. rewrite IH.
  destruct (last_write key ops); [done|]. simpl.
  destruct op as [k v|k]; simpl; [rewrite om_find_set|rewrite om_find_erase];
    destruct (decide (k = key)), (decide (key = k)); congruence || done.
Qed.

Lemma last_write_app key l1 l2 :
  last_write key (l1 ++ l2) = match last_write key l2 with Some o => Some o | None => last_write key l1 end.
Proof.
  induction l1 as [|op l1 IH]; simpl; [by destruct (last_write key l2)|].
  rewrite IH. by destruct (last_write key l2).
Qed.

Lemma batch_sorted ops m : om_sorted m → om_sorted (foldl apply_batch_op m ops).
Proof.
  revert m. induction ops as [|op ops IH]; intros m Hm; [done|]. simpl. apply IH.
  destruct op; [by apply om_sorted_set|by apply om_sorted_erase].
Qed.

(** Writes that were applied before can be applied again. *)
Lemma batch_again l1 l2 m :
  om_sorted m →
  foldl apply_batch_op (foldl apply_batch_op m l1) (l1 ++ l2) = foldl apply_batch_op m (l1 ++ l2).
Proof.
  intros Hm. apply om_ext; [by repeat apply batch_sorted|by apply batch_sorted|]. intros key.
  rewrite !find_batch, last_write_app. destruct (last_write key l2); [done|].
  by destruct (last_write key l1).
Qed.

(** The writes of the payloads of a chain. *)
Definition payload_ops (p : string) : list BatchOp :=
  match Txn_ParseFromString p with Some t => batch_of t | None => [] end.
Definition chain_ops (ps : list string) : list BatchOp := mjoin (payload_ops <$> ps).
Definition replay (m : ordmap string string) (ps : list string) : ordmap string string :=
  foldl apply_batch_op m (chain_ops ps).

Lemma chain_ops_app ps qs : chain_ops (ps ++ qs) = chain_ops ps ++ chain_ops qs.
Proof. unfold chain_ops. by rewrite fmap_app, join_app. Qed.

Lemma replay_again m ps k : om_sorted m → replay (replay m (take k ps)) ps = replay m ps.
Proof.
  intros Hm. unfold replay.
  assert (E : chain_ops ps = chain_ops (take k ps) ++ chain_ops (drop k ps))
    by (by rewrite <- chain_ops_app, take_drop).
  rewrite E. by apply batch_again.
Qed.

(** ** The program of [append] *)

Lemma filled_find k vs (j : nat) v :
  vs !! j = Some v → om_find (k + Z.of_nat j) (filled k vs) = Some (mkRegister 1 true v).
Proof.
  revert k j. induction vs as [|x vs IH]; intros k j; [done|]. destruct j as [|j]; simpl.
  - intros [= ->]. by rewrite decide_True by lia.
  - intros Ej. rewrite decide_False by lia. replace (k + S j) with (k + 1 + j) by lia. by apply IH.
Qed.

Lemma filled_sorted k vs : om_sorted (filled k vs).
Proof.
  revert k. induction vs as [|x vs IH]; intros k; simpl; [apply om_sorted_nil|].
  constructor; [apply IH|]. clear IH. assert (Hk : k < k + 1) by lia. revert Hk.
  generalize (k + 1). induction vs as [|y vs IH]; intros k' Hk; simpl; constructor.
  - by apply key_lt_Z.
  - apply IH. lia.
Qed.

(** Reading a written register. *)
Lemma read_filled us (j : nat) v :
  us !! j = Some v →
  on_register (j + 1) read (chain_of us) = (Ret (inl v), chain_of us).
Proof.
  intros Ej. unfold on_register, chain_of. simpl.
  pose proof (filled_find 1 us j v Ej) as E. rewrite (Z.add_comm 1) in E. rewrite E.
  unfold read, gets. simpl. do 2 f_equal.
  apply om_ext; [apply om_sorted_set, filled_sorted|apply filled_sorted|].
  intros id. rewrite om_find_set. case_decide as Ed; [by subst|done].
Qed.

Abbreviation runs m s w o s' w' := (interp handle (m s) w = (Ret (o, s'), w')).

Lemma runs_bind {S A B} (m : sprog chain_call S A) (f : A → sprog chain_call S B) s w a s1 w1 x :
  runs m s w (Ret a) s1 w1 → interp handle (f a s1) w1 = x → interp handle ((y ← m; f y) s) w = x.
Proof. intros E <-. by apply interp_sbind. Qed.

(** On a healthy database a transaction without speculation succeeds. *)
Lemma apply_healthy txn (s : RocksTxnApplicator D) t :
  db_healthy (rocks_ s) → speculativeExecution txn = None →
  Txn_ParseFromString (serializedPayload txn) = Some t →
  ∃ s', apply txn s = (Ret (txn_result true false false), s') ∧
    contents s' = foldl apply_batch_op (contents s) (payload_ops (serializedPayload txn)) ∧
    db_healthy (rocks_ s').
Proof.
  intros Hh Es Et. unfold apply, execute, payload_ops. rewrite Es, Et.
  pose proof (db_healthy_Write (batch_of t) (rocks_ s) Hh) as [E1 E2].
  destruct (db_Write (batch_of t) (rocks_ s)) as [st d] eqn:E. simpl in E1, E2. subst st.
  eexists. split; [done|]. split; [|done]. unfold contents. simpl. by rewrite (db_Write_spec _ _ _ _ E).
Qed.

Definition parses (p : string) : Prop := is_Some (Txn_ParseFromString p).

Lemma apply_registers_run us (k n : nat) (s : RocksStateMachine D) :
  db_healthy (rocks_ (applicator_ s)) → Forall parses us → (k + n ≤ length us)%nat →
  ∃ s', runs (apply_registers (k + 1) n) s (chain_of us) (Ret ()) s' (chain_of us) ∧
    contents (applicator_ s') = replay (contents (applicator_ s)) (take n (drop k us)) ∧
    lastAppliedWorId_ s' = lastAppliedWorId_ s ∧ db_healthy (rocks_ (applicator_ s')).
Proof.
  intros Hh Hp. revert k s Hh. induction n as [|n IH]; intros k s Hh Hkn.
  { exists s. split_and!; [done| |done..]. by rewrite take_0. }
  destruct (lookup_lt_is_Some_2 us k) as [p Ek]; [lia|].
  destruct (proj1 (Forall_lookup _ _) Hp k p Ek) as [t Et].
  destruct (apply_healthy (payload_txn p) (applicator_ s) t Hh eq_refl Et) as (a & Ea & Ec & Ha).
  destruct (IH (S k) (mkRocksMachine (lastAppliedWorId_ s) a) Ha) as (s' & Er & Ec' & El & Hh'); [lia|].
  exists s'. split_and!; [|..|done].
  - cbn [apply_registers].
    apply (runs_bind _ _ _ _ () (mkRocksMachine (lastAppliedWorId_ s) a) (chain_of us)).
    2: { replace (k + 1 + 1) with (S k + 1) by lia. exact Er. }
    unfold apply_register.
    apply (runs_bind _ _ _ _ true s (chain_of us)).
    { apply interp_lift. rewrite interp_perform. cbn [handle]. unfold get, gets, chain_of. simpl.
      pose proof (filled_find 1 us k p Ek) as E. rewrite (Z.add_comm 1) in E. by rewrite E. }
    apply (runs_bind _ _ _ _ (inl p) s (chain_of us)).
    { apply interp_lift. rewrite interp_perform. by apply read_filled. }
    apply (runs_bind _ _ _ _ (txn_result true false false) (mkRocksMachine (lastAppliedWorId_ s) a) (chain_of us)); [|done].
    unfold on_applicator. by rewrite Ea.
  - rewrite Ec'. simpl. rewrite Ec. simpl. rewrite (drop_S _ _ _ Ek). unfold replay. simpl.
    unfold chain_ops. simpl. by rewrite foldl_app.
  - done.
Qed.

(** A machine on a healthy database that holds the transactions of the first
    registers of a chain holds those of the whole chain after an append, with
    its own as the last one; its position does not advance, so that every append
    applies the chain again from the first register. *)
Theorem append_applies_chain fuel us (k : nat) txn (s : RocksStateMachine D) c0 :
  length us < i64_max → om_sorted c0 → db_healthy (rocks_ (applicator_ s)) →
  Forall parses (us ++ [serializedPayload txn]) → speculativeExecution txn = None →
  lastAppliedWorId_ s = 0 → contents (applicator_ s) = replay c0 (take k us) →
  ∃ s', runs (append (S (S fuel)) txn) s (chain_of us)
          (Ret (Some (txn_result true false false))) s' (chain_of (us ++ [serializedPayload txn])) ∧
    contents (applicator_ s') = replay c0 (us ++ [serializedPayload txn]) ∧
    lastAppliedWorId_ s' = 0 ∧ db_healthy (rocks_ (applicator_ s')).
Proof.
  intros Hlen Hc0 Hh Hp Es E0 Ec. pose proof Hp as [Hpu [[t Et] _]%Forall_cons]%Forall_app.
  set (us' := us ++ [serializedPayload txn]) in *.
  assert (Hl : length us' = S (length us)) by (unfold us'; rewrite length_app; simpl; lia).
  destruct (apply_registers_run us' 0 (length us) s Hh Hp) as (s1 & Er & Ec1 & El1 & Hh1); [lia|].
  destruct (apply_healthy txn (applicator_ s1) t Hh1 Es Et) as (a & Ea & Ec2 & Ha).
  exists (mkRocksMachine (lastAppliedWorId_ s1) a). split_and!; [| |by rewrite <- E0|done].
  - unfold append. eapply runs_bind.
    { apply interp_lift. apply (interp_append us); [lia|done]. }
    cbv iota. eapply runs_bind; [done|]. rewrite E0. change (0 + 1) with (Z.of_nat 0 + 1).
    replace (Z.to_nat (length us + 1 - (0%nat + 1))) with (length us) by lia.
    eapply runs_bind; [exact Er|]. eapply runs_bind; [unfold on_applicator; by rewrite Ea|done].
  - simpl. rewrite Ec2, Ec1, Ec. rewrite drop_0. unfold us'. rewrite take_app_length.
    rewrite replay_again by done. unfold replay. rewrite chain_ops_app, foldl_app. simpl.
    unfold chain_ops. simpl. by rewrite app_nil_r.
Qed.
End chain.

(** ** Concrete runs *)

#[export] Instance RocksTxn_1_eq_dec : EqDecision RocksTxn_1.
Proof. solve_decision. Defined.
#[export] Instance RocksTxn_1_countable : Countable RocksTxn_1.
Proof.
  by apply (inj_countable' (λ t, (txn_id t, read_set t, write_set t, delete_set t))
    (λ '(i, r, w, d), mkTxn_1 i r w d)); intros [].
Defined.
Definition bits_txn_codec : RocksTxnCodec := {| Txn_ParseFromString := of_bits |}.
#[local] Existing Instance bits_txn_codec.

Definition put_payload (key value : string) : string :=
  to_bits (mkTxn_1 "txn" [] [(key, value)] []).
Definition put_txn (logId : Z) (key value : string) : RocksTxn :=
  mkTxn logId None (put_payload key value) logId.
Definition empty_applicator : RocksTxnApplicator MemDB := mkTxnApplicator makeConflictDetector empty_db.
(** An execution at log id 1 that read and wrote [a]. *)
Definition spec_a : SpeculativeExecution := mkSpec ["a"%string] [BatchPut "a" "2"] 1.

Lemma speculation_is_valid_witness :
  conflicted spec_a (conflictDetector_ (apply_txns [put_txn 1 "a" "1"; put_txn 2 "b" "1"] empty_applicator)) = false ∧
  om_find "a"%string (contents (apply_txns [put_txn 2 "b" "1"] (apply_txns [put_txn 1 "a" "1"] empty_applicator))) =
    om_find "a"%string (contents (apply_txns [put_txn 1 "a" "1"] empty_applicator)) ∧
  om_find "a"%string (contents (apply_txns [put_txn 1 "a" "1"] empty_applicator)) = Some "1"%string.
Proof.
  split; [by vm_compute|]. split; [|by vm_compute].
  apply (speculation_is_valid [put_txn 1 "a" "1"] [put_txn 2 "b" "1"] empty_applicator spec_a "a").
  - reflexivity.
  - repeat constructor.
  - by repeat constructor.
  - by repeat constructor.
  - by repeat constructor.
  - by vm_compute.
  - by left.
Defined.

(** The entry of another node changes the key the execution read. *)
Lemma replayed_writes_unseen_witness :
  conflicted (mkSpec ["a"%string] [] 0)
    (conflictDetector_ (apply (payload_txn (put_payload "a" "7")) empty_applicator).2) =
  conflicted (mkSpec ["a"%string] [] 0) (conflictDetector_ empty_applicator) ∧
  om_find "a"%string (contents (apply (payload_txn (put_payload "a" "7")) empty_applicator).2) =
    Some "7"%string.
Proof.
  split; [|by vm_compute].
  apply (replayed_writes_unseen (put_payload "a" "7") empty_applicator (mkSpec ["a"%string] [] 0)).
  simpl. lia.
Defined.

Lemma append_applies_chain_witness :
  ∃ s', interp handle (append 2 (put_txn 0 "a" "2") (makeRocksStateMachine empty_applicator))
          (chain_of [put_payload "a" "1"; put_payload "b" "1"]) =
      (Ret (Ret (Some (txn_result true false false)), s'),
       chain_of ([put_payload "a" "1"; put_payload "b" "1"] ++ [put_payload "a" "2"])) ∧
    contents (applicator_ s') =
      replay [] ([put_payload "a" "1"; put_payload "b" "1"] ++ [put_payload "a" "2"]) ∧
    lastAppliedWorId_ s' = 0 ∧ db_healthy (rocks_ (applicator_ s')).
Proof.
  apply (append_applies_chain 0 [put_payload "a" "1"; put_payload "b" "1"] 0 (put_txn 0 "a" "2")
    (makeRocksStateMachine empty_applicator) []).
  - reflexivity.
  - constructor.
  - done.
  - repeat constructor; eexists; apply of_to_bits.
  - reflexivity.
  - reflexivity.
  - reflexivity.
Defined.
