(* ===== verification/Remote.v ===== *)
(** * Calls between processes

    [src/log/server/]: [ReplicaServer.cc], [SequencerServer.cc],
    [MetadataServer.cc], [AdminServer.cc]; [src/log/client/]; and
    [RemoteReplica.h], [RemoteSequencer.h], [RemoteMetadataStore.h] of
    [src/log/impl/].  A remote object forwards each call to a server, which
    makes it on its own object and turns exceptions into a status.

    gRPC is a parameter: the class [Grpc] is a call of a handler, its laws say
    what a client can conclude from the status.  What a remote object answers,
    its object has answered; but the client learns neither the type of an
    exception nor that there is nothing to return. *)

From stdpp Require Import base list strings pretty.
From Stdlib Require Import ZArith Lia.
From S2P Require Import Prelude LogTypes Metadata NanoLog KVStore RocksNanoLog Replica Program VirtualLog.

Open Scope Z_scope.

(** ** gRPC *)

Inductive grpc_status :=
  | OK
  | UNKNOWN (message : string)
  | INTERNAL (message : string)
  | UNIMPLEMENTED
  | Unavailable (message : string).

(** A call of a handler of a service whose state is in [S], with a deadline.
    Without an answer the client has the empty response. *)
Class Grpc (S : Type) := {
  grpc_call : ∀ {Resp : Type} `{Inhabited Resp}, M S (grpc_status * Resp) → M S (grpc_status * Resp);
  debug_error_string : grpc_status → string }.

(** A call answers a status.  [OK] is the answer of the handler; with any other
    status the handler may have run or not; one that is still running when the
    client gives up is not considered. *)
Class GrpcLaws (S : Type) `{Grpc S} := {
  grpc_call_law {Resp} `{Inhabited Resp} (m : M S (grpc_status * Resp)) s o s' : grpc_call m s = (o, s') →
    ∃ status response, o = Ret (status, response) ∧ (s' = s ∨ s' = (m s).2) ∧
      (status = OK → m s = (Ret (OK, response), s')) }.

(** A transport that loses nothing: what the handler answers arrives. *)
Definition reliable (S : Type) `{Grpc S} : Prop :=
  ∀ Resp `(Inhabited Resp) (m : M S (grpc_status * Resp)) s status response s',
    m s = (Ret (status, response), s') → grpc_call m s = (Ret (status, response), s').

(** ** The interfaces [Replica] and [Sequencer] *)

Class ReplicaOps (S : Type) := {
  r_getId : M S string;
  r_append : option Z → Z → Z → string → bool → M S ();
  r_getLogEntry : Z → Z → M S (LogEntry + LogReadError);
  r_getCommitIndex : Z → M S Z;
  r_seal : Z → M S Z;
  r_trim : Z → Z → M S Z }.
Class SequencerOps (S : Type) := {
  q_getId : M S string;
  q_append : string → M S Z;
  q_latestAppendPosition : M S Z;
  q_isAlive : M S bool;
  q_start : Z → Z → M S ();
  q_stop : M S () }.

(** [e.what()] *)
Definition what (e : exn) : string :=
  match e with
  | NonRecoverableError => "NonRecoverableError"
  | NullSequencerException => "Null Sequencer cannot answer."
  | NotImplementedException => "Method Not Implmented"
  | MetadataBlockNotFound => "metadatablock not found"
  | OptimisticConcurrencyException => "Optimistic Concurrency Exception"
  | NanoLogSealedException v => "nanolog is sealed. versionId: " +:+ v
  | NanoLogLogPositionAlreadyOccupied => "there is already a log entry at that position."
  | NanoLogLogNotAvailable => "NanoLog is not available."
  | RuntimeError m => m
  | DbError errorCode => "error encountered. error-code: " +:+ pretty errorCode
  | _ => "std::exception"
  end.

(** The [try] block of a handler; [prefix] begins its error message. *)
Definition handler {S Resp} (prefix : string) (empty : Resp) (m : M S Resp) : M S (grpc_status * Resp) :=
  catch (r ← m; mret (OK, r))
        (λ e, if is_std_exception e then mret (UNKNOWN (prefix +:+ what e), empty) else throw e).

(** [status.error_message()] *)
Definition error_message (status : grpc_status) : string :=
  match status with UNKNOWN m | INTERNAL m => m | OK | UNIMPLEMENTED => "" | Unavailable m => m end.

(** ** Messages *)

Record GetLogEntryResponse := mkEntryResponse {
  log_read_error : option Z;
  resp_log_id : Z;
  resp_payload : string }.
#[export] Instance GetLogEntryResponse_inhabited : Inhabited GetLogEntryResponse :=
  populate (mkEntryResponse None 0 "").
#[export] Instance MetadataConfig_inhabited : Inhabited MetadataConfig := populate default_MetadataConfig.
Definition ERROR_UNKNOWN : Z := 0.
Definition ERROR_INDEX_OUT_OF_BOUNDS : Z := 1.
Definition ERROR_NOT_FOUND : Z := 2.

(** The switch of the server, and that of the client. *)
Definition entry_response (r : LogEntry + LogReadError) : GetLogEntryResponse :=
  match r with
  | inl e => mkEntryResponse None (logId e) (payload e)
  | inr NotFound => mkEntryResponse (Some ERROR_NOT_FOUND) 0 ""
  | inr IndexOutOfBounds => mkEntryResponse (Some ERROR_INDEX_OUT_OF_BOUNDS) 0 ""
  | inr Unknown => mkEntryResponse (Some ERROR_UNKNOWN) 0 ""
  end.
Definition entry_of_response (r : GetLogEntryResponse) : LogEntry + LogReadError :=
  match log_read_error r with
  | Some c =>
      if c =? ERROR_INDEX_OUT_OF_BOUNDS then inr IndexOutOfBounds
      else if c =? ERROR_NOT_FOUND then inr NotFound
      else inr Unknown
  | None => inl (mkLogEntry (resp_log_id r) (resp_payload r))
  end.

(** ** Replicas *)

Section replica.
Context {S : Type} `{Grpc S} `{ReplicaOps S}.

Definition ReplicaServer_getId : M S (grpc_status * string) := handler "" ""%string r_getId.
Definition ReplicaServer_append (g : option Z) (versionId logId : Z) (payload : string)
    (skip_seal : bool) : M S (grpc_status * ()) :=
  handler "" () (r_append g versionId logId payload skip_seal).
Definition ReplicaServer_getLogEntry (versionId logId : Z) : M S (grpc_status * GetLogEntryResponse) :=
  handler "" (mkEntryResponse None 0 "")
    (logEntryResponse ← r_getLogEntry versionId logId; mret (entry_response logEntryResponse)).
Definition ReplicaServer_getLocalCommitIndex (versionId : Z) : M S (grpc_status * Z) :=
  handler "" 0 (r_getCommitIndex versionId).
Definition ReplicaServer_seal (versionId : Z) : M S (grpc_status * Z) := handler "" 0 (r_seal versionId).
(** The server does not override [trim]. *)
Definition ReplicaServer_trim (versionId logId : Z) : M S (grpc_status * ()) := mret (UNIMPLEMENTED, ()).

(** The end of each client call. *)
Definition client_result {A} (r : grpc_status * A) : M S A :=
  match r with
  | (OK, a) => mret a
  | (status, _) => throw (RuntimeError (debug_error_string status))
  end.

Definition ReplicaClient_getId : M S string :=
  r ← grpc_call ReplicaServer_getId;
  match r with
  | (OK, id) => mret id
  | _ => throw (RuntimeError "failed to get replica id")
  end.
Definition ReplicaClient_append (g : option Z) (versionId logId : Z) (payload : string)
    (skipSeal : bool) : M S () :=
  r ← grpc_call (ReplicaServer_append g versionId logId payload skipSeal); client_result r.
Definition ReplicaClient_getLogEntry (versionId logId : Z) : M S (LogEntry + LogReadError) :=
  r ← grpc_call (ReplicaServer_getLogEntry versionId logId);
  response ← client_result r;
  mret (entry_of_response response).
Definition ReplicaClient_getLocalCommitIndex (versionId : Z) : M S Z :=
  r ← grpc_call (ReplicaServer_getLocalCommitIndex versionId); client_result r.
Definition ReplicaClient_seal (versionId : Z) : M S Z :=
  r ← grpc_call (ReplicaServer_seal versionId); client_result r.
Definition ReplicaClient_trim (versionId logId : Z) : M S Z :=
  r ← grpc_call (ReplicaServer_trim versionId logId);
  match r with
  | (OK, _) => mret logId
  | (status, _) => throw (RuntimeError (error_message status))
  end.

Definition RemoteReplica : ReplicaOps S := {|
  r_getId := ReplicaClient_getId;
  r_append := ReplicaClient_append;
  r_getLogEntry := ReplicaClient_getLogEntry;
  r_getCommitIndex := ReplicaClient_getLocalCommitIndex;
  r_seal := ReplicaClient_seal;
  r_trim := ReplicaClient_trim |}.
End replica.

(** ** Sequencers *)

Section sequencer.
Context {S : Type} `{Grpc S} `{SequencerOps S}.

(** [getId] has no [try] block: gRPC answers an exception with a status of its
    own. *)
Definition SequencerServer_getId : M S (grpc_status * string) := id ← q_getId; mret (OK, id).
Definition SequencerServer_append (payload : string) : M S (grpc_status * Z) :=
  handler "method name: SequencerServer::append, error: " 0 (q_append payload).
Definition SequencerServer_latestAppendPosition : M S (grpc_status * Z) :=
  handler "method name: SequencerServer::latestAppendPosition, error: " 0 q_latestAppendPosition.
Definition SequencerServer_isAlive : M S (grpc_status * bool) :=
  handler "method name: SequencerServer::isAlive, error: " false q_isAlive.

Definition SequencerClient_getId : M S string :=
  r ← grpc_call SequencerServer_getId; client_result r.
Definition SequencerClient_append (logEntryPayload : string) : M S Z :=
  r ← grpc_call (SequencerServer_append logEntryPayload); client_result r.
Definition SequencerClient_latestAppendPosition : M S Z :=
  r ← grpc_call SequencerServer_latestAppendPosition; client_result r.
(** The response is not looked at. *)
Definition SequencerClient_isAlive : M S bool :=
  r ← grpc_call SequencerServer_isAlive; _ ← client_result r; mret true.

Definition RemoteSequencer : SequencerOps S := {|
  q_getId := SequencerClient_getId;
  q_append := SequencerClient_append;
  q_latestAppendPosition := SequencerClient_latestAppendPosition;
  q_isAlive := SequencerClient_isAlive;
  q_start := λ _ _, throw NotImplementedException;
  q_stop := throw NotImplementedException |}.
End sequencer.

(** ** Metadata stores *)

Section metadata.
Context {S : Type} `{Grpc S} `{MetadataStoreOps S}.

Definition found (message : string) (c : option MetadataConfig) : M S (grpc_status * MetadataConfig) :=
  match c with
  | Some c => mret (OK, c)
  | None => mret (INTERNAL message, default_MetadataConfig)
  end.
Definition MetadataServer_getConfig (id : Z) : M S (grpc_status * MetadataConfig) :=
  metadataConfig ← ms_getConfig id; found "config not found" metadataConfig.
Definition MetadataServer_getCurrentConfig : M S (grpc_status * MetadataConfig) :=
  versionId ← ms_getCurrentVersionId;
  metadataConfig ← ms_getConfig versionId;
  found "config not found" metadataConfig.
Definition MetadataServer_getConfigUsingLogId (id : Z) : M S (grpc_status * MetadataConfig) :=
  metadataConfig ← ms_getConfigUsingLogId id; found "config not Round" metadataConfig.
(** Other exceptions leave the handler. *)
Definition MetadataServer_compareAndAppendRange (c : MetadataConfig) : M S (grpc_status * ()) :=
  catch (_ ← ms_compareAndAppendRange c; mret (OK, ()))
        (λ e, match e with
              | OptimisticConcurrencyException => mret (UNKNOWN (what e), ())
              | _ => throw e
              end).

Definition MetadataStoreClient_getConfig (versionId : Z) : M S MetadataConfig :=
  r ← grpc_call (MetadataServer_getConfig versionId); client_result r.
Definition MetadataStoreClient_getConfigUsingLogId (logId : Z) : M S MetadataConfig :=
  r ← grpc_call (MetadataServer_getConfigUsingLogId logId); client_result r.
Definition MetadataStoreClient_getCurrentVersionId : M S Z :=
  r ← grpc_call MetadataServer_getCurrentConfig;
  response ← client_result r;
  mret (version_id response).
Definition MetadataStoreClient_compareAndAppendRange (newMetadataConfig : MetadataConfig) : M S () :=
  r ← grpc_call (MetadataServer_compareAndAppendRange newMetadataConfig);
  match r with
  | (OK, _) => mret ()
  | (status, _) => throw (RuntimeError ("debug string: " +:+ debug_error_string status)%string)
  end.

Definition RemoteMetadataStore : MetadataStoreOps S := {|
  ms_getConfig := λ v, c ← MetadataStoreClient_getConfig v; mret (Some c);
  ms_getConfigUsingLogId := λ l, c ← MetadataStoreClient_getConfigUsingLogId l; mret (Some c);
  ms_getCurrentVersionId := MetadataStoreClient_getCurrentVersionId;
  ms_compareAndAppendRange := MetadataStoreClient_compareAndAppendRange |}.
End metadata.

(** ** The name of an acceptor

    The rest of the service is in Paxos.v. *)
Section acceptor.
Context {S : Type} `{Grpc S} (acceptor_getId : M S string).

(** The response is filled in, and the status is that of the generated
    service. *)
Definition AcceptorServer_getId : M S (grpc_status * string) :=
  id ← acceptor_getId; mret (UNIMPLEMENTED, id).
Definition AcceptorClient_getId : M S string :=
  r ← grpc_call AcceptorServer_getId; client_result r.
End acceptor.

(** ** AdminServer

    [getCurrentConfig] and [reconfigure] of the virtual log are arguments; the
    latter is called with an empty config, and the handler then returns what
    the generated service returns. *)
Section admin.
Context {S : Type} (getCurrentConfig_ : M S MetadataConfig)
  (reconfigure_ : MetadataConfig → M S MetadataConfig).
Definition AdminServer_getCurrentConfig : M S (grpc_status * MetadataConfig) :=
  c ← getCurrentConfig_; mret (OK, c).
Definition AdminServer_reconfigure : M S (grpc_status * Z) :=
  _ ← reconfigure_ default_MetadataConfig; mret (UNIMPLEMENTED, 0).
End admin.

(** ** What remote objects promise

    A remote call answers what its object answers and leaves it in the state
    that call leaves, or throws a [std::runtime_error], the call having been
    made or not. *)
Definition sound {S A} (remote local : M S A) : Prop := ∀ s o s', remote s = (o, s') →
  (∃ a, o = Ret a ∧ local s = (Ret a, s')) ∨
  (∃ message, o = Throw (RuntimeError message)) ∧ (s' = s ∨ s' = (local s).2).

Section lemmas.
Context {S : Type} `{HG : Grpc S} `{HL : !GrpcLaws S}.

Lemma handler_state {Resp} p (e : Resp) (m : M S Resp) s : (handler p e m s).2 = (m s).2.
Proof.
  unfold handler, catch, mbind, M_bind, mret, M_ret.
  destruct (m s) as [[|x|] ?]; [done| |done]. by destruct (is_std_exception x).
Qed.

Lemma handler_ok {Resp} p (e : Resp) (m : M S Resp) s r s' :
  handler p e m s = (Ret (OK, r), s') ↔ m s = (Ret r, s').
Proof.
  unfold handler, catch, mbind, M_bind, mret, M_ret.
  destruct (m s) as [[|x|] ?]; [|destruct (is_std_exception x)|];
    split; intros; simplify_eq/=; done.
Qed.

Lemma call_state {Resp} `{Inhabited Resp} (m : M S (grpc_status * Resp)) s o s' :
  grpc_call m s = (o, s') → s' = s ∨ s' = (m s).2.
Proof. intros E. by destruct (grpc_call_law _ _ _ _ E) as (?&?&_&?&_). Qed.

(** A client that reads the answer with [OK] by [f]. *)
Lemma call_sound {Resp A} `{Inhabited Resp} (f : Resp → A) (m : M S (grpc_status * Resp)) (local : M S A) :
  (∀ s, (m s).2 = (local s).2) →
  (∀ s r s', m s = (Ret (OK, r), s') → local s = (Ret (f r), s')) →
  sound (r ← grpc_call m; response ← client_result r; mret (f response)) local.
Proof.
  intros Hst Hok s o s'. unfold mbind, M_bind, mret, M_ret.
  destruct (grpc_call m s) as [o1 s1] eqn:E.
  destruct (grpc_call_law _ _ _ _ E) as (st&r&->&Hs&Hr). rewrite Hst in Hs.
  destruct st; cbn; intros [= <- <-]; [left|right..]; eauto.
Qed.

Lemma sound_ext {A} (r1 r2 l : M S A) : (∀ s, r1 s = r2 s) → sound r1 l → sound r2 l.
Proof. intros Hr Hs s o s' E. rewrite <-Hr in E. by apply Hs. Qed.

Lemma client_result_ret {A} (r : grpc_status * A) (s : S) :
  (a ← client_result r; mret a) s = client_result r s.
Proof. by destruct r as [[] ?]. Qed.

Lemma handler_sound {Resp} `{Inhabited Resp} p (e : Resp) (m : M S Resp) :
  sound (r ← grpc_call (handler p e m); client_result r) m.
Proof.
  eapply sound_ext; [|apply (call_sound id (handler p e m) m)].
  - intros s. unfold mbind at 1 3, M_bind. destruct (grpc_call _ s) as [[r| |] ?]; [|done..].
    apply client_result_ret.
  - apply handler_state.
  - intros ???. apply handler_ok.
Qed.

Lemma entry_round_trip r : entry_of_response (entry_response r) = r.
Proof. by destruct r as [[]|[]]. Qed.
End lemmas.

(** C29: whatever the network does, an answer of a remote replica is the answer
    the replica has given in the call, whose effect has taken place; anything
    else is a [runtime_error].  [trim] is never answered. *)
Theorem remote_replica_sound {S} `{HG : Grpc S, HL : !GrpcLaws S} (R : ReplicaOps S)
    (g : option Z) (v l : Z) (p : string) (skip_seal : bool) :
  sound (r_getId (ReplicaOps := RemoteReplica)) r_getId ∧
  sound (r_append (ReplicaOps := RemoteReplica) g v l p skip_seal) (r_append g v l p skip_seal) ∧
  sound (r_getLogEntry (ReplicaOps := RemoteReplica) v l) (r_getLogEntry v l) ∧
  sound (r_getCommitIndex (ReplicaOps := RemoteReplica) v) (r_getCommitIndex v) ∧
  sound (r_seal (ReplicaOps := RemoteReplica) v) (r_seal v) ∧
  (∀ s o s', r_trim (ReplicaOps := RemoteReplica) v l s = (o, s') →
     s' = s ∧ ∃ message, o = Throw (RuntimeError message)).
Proof.
  refine (conj _ (conj _ (conj _ (conj _ (conj _ _))))); [|apply handler_sound| |apply handler_sound..|].
  - intros s o s'. cbn. unfold ReplicaClient_getId, mbind, M_bind.
    destruct (grpc_call _ s) as [o1 s1] eqn:E.
    destruct (grpc_call_law _ _ _ _ E) as (st&r&->&Hs&Hr).
    unfold ReplicaServer_getId in *. rewrite handler_state in Hs.
    destruct st; intros [= <- <-]; [left|right; eauto..].
    eexists. split; [done|]. by eapply handler_ok, Hr.
  - apply call_sound.
    + intros s. unfold ReplicaServer_getLogEntry. rewrite handler_state.
      unfold mbind, M_bind. by destruct (r_getLogEntry v l s) as [[]].
    + intros s r s' E%handler_ok. unfold mbind, M_bind, mret, M_ret in E.
      destruct (r_getLogEntry v l s) as [[e| |] ?]; simplify_eq/=. by rewrite entry_round_trip.
  - intros s o s'. cbn. unfold ReplicaClient_trim, mbind, M_bind.
    destruct (grpc_call _ s) as [o1 s1] eqn:E.
    destruct (grpc_call_law _ _ _ _ E) as (st&r&->&Hs&Hr).
    assert (s1 = s) as -> by (by destruct Hs).
    destruct st; intros [= <- <-]; [discriminate (Hr eq_refl)|eauto..].
Qed.

Section store.
Context {S : Type} `{HG : Grpc S} `{HM : MetadataStoreOps S}.

Lemma found_ok message c (s s' : S) r : found message c s = (Ret (OK, r), s') ↔ c = Some r ∧ s' = s.
Proof. destruct c; cbn; unfold mret, M_ret; split; intros; destruct_and?; by simplify_eq. Qed.

Lemma append_handler_state c (s : S) :
  (MetadataServer_compareAndAppendRange c s).2 = (ms_compareAndAppendRange c s).2.
Proof.
  unfold MetadataServer_compareAndAppendRange, catch, mbind, M_bind.
  by destruct (ms_compareAndAppendRange c s) as [[|[]|] ?].
Qed.

Lemma append_handler_ok c (s s' : S) :
  MetadataServer_compareAndAppendRange c s = (Ret (OK, ()), s') →
  ms_compareAndAppendRange c s = (Ret (), s').
Proof.
  unfold MetadataServer_compareAndAppendRange, catch, mbind, M_bind.
  destruct (ms_compareAndAppendRange c s) as [[[]|[]|] ?]; intros; by simplify_eq/=.
Qed.

(** Lookups of a store that answer a config. *)
Lemma lookup_sound `{!GrpcLaws S} message (look : M S (option MetadataConfig)) :
  sound (c ← (r ← grpc_call (metadataConfig ← look; found message metadataConfig); client_result r);
         mret (Some c)) look.
Proof.
  eapply sound_ext; [|apply (call_sound Some (metadataConfig ← look; found message metadataConfig))].
  - intros s. unfold mbind, M_bind. by destruct (grpc_call _ s) as [[[]| |] ?].
  - intros s. unfold mbind, M_bind. by destruct (look s) as [[[]| |] ?].
  - intros s r s'. unfold mbind, M_bind. destruct (look s) as [[c| |] ?]; [|done..].
    by intros [-> ->]%found_ok.
Qed.
End store.

(** A remote metadata store answers what its store has answered, with a
    [runtime_error] where the store has no config; the version it answers is
    the one in the newest config. *)
Theorem remote_store_sound {S} `{HG : Grpc S, HL : !GrpcLaws S} (M0 : MetadataStoreOps S)
    (v l : Z) (c : MetadataConfig) :
  sound (ms_getConfig (MetadataStoreOps := RemoteMetadataStore) v) (ms_getConfig v) ∧
  sound (ms_getConfigUsingLogId (MetadataStoreOps := RemoteMetadataStore) l)
    (ms_getConfigUsingLogId l) ∧
  sound (ms_getCurrentVersionId (MetadataStoreOps := RemoteMetadataStore))
    (w ← ms_getCurrentVersionId; c ← ms_getConfig w;
     match c with Some c => mret (version_id c) | None => throw MetadataBlockNotFound end) ∧
  sound (ms_compareAndAppendRange (MetadataStoreOps := RemoteMetadataStore) c)
    (ms_compareAndAppendRange c).
Proof.
  refine (conj (lookup_sound _ _) (conj (lookup_sound _ _) (conj _ _))).
  - apply call_sound; intros s; unfold MetadataServer_getCurrentConfig, mbind, M_bind;
      destruct (ms_getCurrentVersionId s) as [[w| |] s1]; try done;
      destruct (ms_getConfig w s1) as [[[]| |] ?]; try done.
    cbn. intros r s'. by intros [= -> ->].
  - intros s o s'. cbn. unfold MetadataStoreClient_compareAndAppendRange, mbind, M_bind.
    destruct (grpc_call _ s) as [o1 s1] eqn:E.
    destruct (grpc_call_law _ _ _ _ E) as (st&[]&->&Hs&Hr).
    rewrite append_handler_state in Hs.
    destruct st; intros [= <- <-]; [left|right; eauto..].
    exists (). split; [done|]. by apply append_handler_ok, Hr.
Qed.

(** No remote acceptor has a name. *)
Lemma remote_acceptor_nameless {S} `{HG : Grpc S, HL : !GrpcLaws S} (acceptor_getId : M S string) s o s' :
  AcceptorClient_getId acceptor_getId s = (o, s') → ∃ message, o = Throw (RuntimeError message).
Proof.
  unfold AcceptorClient_getId, mbind, M_bind. destruct (grpc_call _ s) as [o1 s1] eqn:E.
  destruct (grpc_call_law _ _ _ _ E) as (st&r&->&_&Hr).
  destruct st; intros [= <- <-]; [|eauto..]. exfalso.
  specialize (Hr eq_refl). revert Hr. unfold AcceptorServer_getId, mbind, M_bind.
  by destruct (acceptor_getId s) as [[]].
Qed.

(** A sequencer that answers [false] is reported as alive. *)
Lemma remote_sequencer_alive {S} `{HG : Grpc S, HQ : SequencerOps S} s s' :
  reliable S → q_isAlive s = (Ret false, s') →
  q_isAlive (SequencerOps := RemoteSequencer) s = (Ret true, s').
Proof.
  intros Hr E. cbn. unfold SequencerClient_isAlive, mbind, M_bind.
  rewrite (Hr _ _ SequencerServer_isAlive s OK false s'); [done|]. by apply handler_ok.
Qed.

(** An installation that loses against another one is caught by the virtual
    log when the metadata store is in its process.  Through a remote store the
    same refusal arrives as a [runtime_error], which the virtual log does not
    catch, and the reconfiguration fails instead of taking over the newer
    config. *)
Theorem remote_conflict_escapes {S} `{HG : Grpc S, HM : MetadataStoreOps S} vl c s s'
    (local remote : ∀ X : Set, log_call X → M S X) :
  reliable S →
  (∀ s, local _ (MetaCompareAndAppend c) s = ms_compareAndAppendRange c s) →
  (∀ s, remote _ (MetaCompareAndAppend c) s =
        ms_compareAndAppendRange (MetadataStoreOps := RemoteMetadataStore) c s) →
  ms_compareAndAppendRange c s = (Throw OptimisticConcurrencyException, s') →
  interp local (install vl c) s = (Ret None, s') ∧
  ∃ message, interp remote (install vl c) s = (Throw (RuntimeError message), s').
Proof.
  intros Hr Hl Hm E. unfold install. cbn. rewrite Hl, Hm, E. split; [done|].
  set (message := "Optimistic Concurrency Exception"%string).
  exists ("debug string: " +:+ debug_error_string (UNKNOWN message))%string.
  cbn. unfold MetadataStoreClient_compareAndAppendRange, mbind, M_bind.
  rewrite (Hr _ _ (MetadataServer_compareAndAppendRange c) s (UNKNOWN message) () s'); [done|].
  unfold MetadataServer_compareAndAppendRange, catch, mbind, M_bind. by rewrite E.
Qed.

(** ** Witnesses: a network that loses nothing, and one that delivers nothing *)

Definition lossless (S : Type) : Grpc S := {|
  grpc_call Resp _ m s :=
    match m s with
    | (Ret r, s') => (Ret r, s')
    | (_, s') => (Ret (UNKNOWN "", inhabitant), s')
    end;
  debug_error_string st := error_message st |}.
Definition disconnected (S : Type) : Grpc S := {|
  grpc_call Resp _ m s := (Ret (Unavailable "deadline exceeded", inhabitant), s);
  debug_error_string st := error_message st |}.

Lemma lossless_laws S : GrpcLaws S (H := lossless S).
Proof.
  constructor. intros Resp ? m s o s'. cbn.
  destruct (m s) as [[[st r]|e|] s1] eqn:E; intros [= <- <-]; do 2 eexists;
    (split; [done|]); (split; [by right|]); intros Hst; by simplify_eq.
Qed.
Lemma disconnected_laws S : GrpcLaws S (H := disconnected S).
Proof. constructor. intros ??????. intros [= <- <-]. do 2 eexists. split; [done|]. split; [by left|done]. Qed.
Lemma lossless_reliable S : reliable S (H := lossless S).
Proof. intros Resp ? m s st r s' E. cbn. by rewrite E. Qed.

(** [ReplicaImpl]: an append is answered when its promise is completed. *)
Definition settled (r : future nat * list (nat * Z)) : outcome () :=
  match r.1 with
  | Ready (Ret _) => Ret ()
  | Ready (Throw e) => Throw e
  | Ready Block => Block
  | Pending p => if decide (p ∈ r.2.*1) then Ret () else Block
  end.
Definition replica_process : Type := ReplicaImpl (AnyNanoLog nat MemDB) * (Metadata.State * ()).
Definition local_append (g : option Z) (v l : Z) (p : string) (skip : bool) : M replica_process () :=
  λ s, let '(r, s') := Replica.append 0%nat g v l p skip s in (settled r, s').
Definition local_replica : ReplicaOps replica_process := {|
  r_getId := gets (λ s, Replica.id_ s.1);
  r_append := local_append;
  r_getLogEntry := Replica.getLogEntry (P := nat);
  r_getCommitIndex := Replica.getCommitIndex (P := nat);
  r_seal := Replica.seal (P := nat);
  r_trim := Replica.trim (P := nat) |}.

Lemma remote_replica_sound_witness :
  let H := lossless _ in
  sound (r_seal (ReplicaOps := RemoteReplica (H0 := local_replica)) 1) (Replica.seal (P := nat) 1) ∧
  (r_seal (ReplicaOps := RemoteReplica (H0 := local_replica)) 1
     (sample_replica InMemory, sample_env)).1 = Ret 1.
Proof.
  split.
  - apply (remote_replica_sound (HG := lossless _) (HL := lossless_laws _) local_replica None 1 1 "" false).
  - vm_compute. reflexivity.
Defined.

Lemma remote_store_sound_witness :
  let H := lossless _ in
  sound (ms_getCurrentVersionId (MetadataStoreOps := RemoteMetadataStore))
    (w ← gets Metadata.getCurrentVersionId; c ← gets (Metadata.getConfig w);
     match c with Some c => mret (version_id c) | None => throw MetadataBlockNotFound end) ∧
  (ms_getCurrentVersionId (MetadataStoreOps := RemoteMetadataStore) sample_env.1).1 = Ret 1.
Proof.
  split.
  - apply (remote_store_sound (HG := lossless _) (HL := lossless_laws _) InMemory_MetadataStoreOps
             1 1 default_MetadataConfig).
  - vm_compute. reflexivity.
Defined.

(** A process whose virtual log uses the store [ms]. *)
Definition over_store (ms : MetadataStoreOps Metadata.State) (X : Set) (e : log_call X)
    : M Metadata.State X :=
  match e with
  | MetaCompareAndAppend c => ms_compareAndAppendRange c
  | MetaGetConfig v => ms_getConfig v
  | MetaCurrentVersionId => ms_getCurrentVersionId
  | _ => block
  end.
(** The config of an ensemble that has not seen version 1. *)
Definition late_config : MetadataConfig :=
  {| version_id := 1; previous_version_id := 0; start_index := 1; end_index := i64_max;
     previous_version_end_index := 1; sequencer_config := default_SequencerConfig;
     replica_set_config := [] |}.

Lemma remote_conflict_escapes_witness :
  let H := lossless _ in
  interp (over_store InMemory_MetadataStoreOps) (install 0 late_config) sample_env.1
    = (Ret None, sample_env.1) ∧
  ∃ message, interp (over_store RemoteMetadataStore) (install 0 late_config) sample_env.1
    = (Throw (RuntimeError message), sample_env.1).
Proof.
  apply (remote_conflict_escapes (HG := lossless _) (HM := InMemory_MetadataStoreOps) 0 late_config
    sample_env.1 sample_env.1 (over_store InMemory_MetadataStoreOps)
    (over_store (RemoteMetadataStore (H := lossless _)))).
  - apply lossless_reliable.
  - done.
  - done.
  - vm_compute. reflexivity.
Defined.
