(* ===== verification/DbServer.v ===== *)
(** * The database: its server and client

    [src/applications/mydb/backend/]: [server/DbServer.cc] and
    [client/RemoteDb.h], over the interface [Db] of [include/Db.h].  The server
    makes each call on its database and answers a [DbError] with a status; the
    client makes an exception of every status but OK.

    What the client hears is what the database has done, but two calls are
    never made, and when the client hears nothing it cannot find out whether
    the database has heard it. *)

From stdpp Require Import base gmap sets list strings pretty.
From Stdlib Require Import ZArith Lia.
From S2P Require Import Prelude LogTypes KVStore Schema KeySerializer Arrow RowSerializer QueryExecutor QueryPlanner.
From S2P Require Import Transformer DbImpl Remote.

Open Scope Z_scope.

(** ** The interface [Db] *)

Inductive PREPARE_TRANSACTION_STATUS := PREPARE_OK | PREPARE_ABORT.
Record PrepareTransactionResponse := mkPrepareResponse {
  prepare_status : PREPARE_TRANSACTION_STATUS;
  prepare_response : list SingleTableOperationResponse }.
Inductive COMMIT_TRANSACTION_STATUS := COMMIT_SUCCESS | COMMIT_FAILED.

(** The messages without any field set. *)
#[export] Instance PrepareTransactionResponse_inhabited : Inhabited PrepareTransactionResponse :=
  populate (mkPrepareResponse PREPARE_OK []).
#[export] Instance COMMIT_TRANSACTION_STATUS_inhabited : Inhabited COMMIT_TRANSACTION_STATUS :=
  populate COMMIT_SUCCESS.

Class DbOps (S : Type) := {
  db_addDatabase : string → M S ();
  db_addTable : AddTableRequest → M S ();
  db_addRow : AddRowRequest → M S TableRows;
  db_updateRow : UpdateRowRequest → M S ();
  db_getRow : GetRowRequest → M S TableRows;
  db_multiTableOperation :
    list SingleTableOperationRequest → M S (list SingleTableOperationResponse);
  db_scanTable : ScanTableRequest → M S TableRows;
  db_prepareTransaction : string → list SingleTableOperationRequest → M S PrepareTransactionResponse;
  db_commitTransaction : string → M S COMMIT_TRANSACTION_STATUS;
  db_abortTransaction : string → M S () }.

(** [DbImpl]; the clock stands still. *)
Definition DbImpl_ops (E : Type) {D T : Type} `{RocksDB D, ArrowTable T, !ArrowCompute E T, DbConv}
    (seconds : Z) : DbOps (DbImpl (D := D)) := {|
  db_addDatabase := addDatabase (T := T) seconds;
  db_addTable := addTable (T := T) seconds;
  db_addRow := addRow (T := T);
  db_updateRow := updateRow E (T := T);
  db_getRow := getRow (T := T);
  db_multiTableOperation := multiTableOperation E (T := T);
  db_scanTable := scanTable E (T := T);
  db_prepareTransaction := prepareTransaction;
  db_commitTransaction := commitTransaction;
  db_abortTransaction := abortTransaction |}.

(** ** The server *)

Section server.
Context {S : Type} `{DbOps S}.

(** What the handlers have in common: exceptions that are not a [DbError]
    leave them. *)
Definition DbServer_handler {Resp} `{Inhabited Resp} (m : M S Resp) : M S (grpc_status * Resp) :=
  catch (response ← m; mret (OK, response))
        (λ error, match error with
                  | DbError _ => mret (UNKNOWN (what error), inhabitant)
                  | _ => throw error
                  end).
(** What the generated [Service] answers. *)
Definition Service_unimplemented {Resp} `{Inhabited Resp} : M S (grpc_status * Resp) :=
  mret (UNIMPLEMENTED, inhabitant).

Definition DbServer_addDatabase (request : string) : M S (grpc_status * ()) :=
  DbServer_handler (db_addDatabase request).
Definition DbServer_addTable (request : AddTableRequest) : M S (grpc_status * ()) :=
  DbServer_handler (db_addTable request).
Definition DbServer_addRow (request : AddRowRequest) : M S (grpc_status * TableRows) :=
  DbServer_handler (db_addRow request).
Definition DbServer_updateRow (request : UpdateRowRequest) : M S (grpc_status * ()) :=
  DbServer_handler (db_updateRow request).
Definition DbServer_getRows (request : GetRowRequest) : M S (grpc_status * TableRows) :=
  Service_unimplemented.
Definition DbServer_multiTableOperation (request : list SingleTableOperationRequest)
    : M S (grpc_status * list SingleTableOperationResponse) :=
  DbServer_handler (db_multiTableOperation request).
Definition DbServer_scanTable (request : ScanTableRequest) : M S (grpc_status * TableRows) :=
  DbServer_handler (db_scanTable request).
Definition DbServer_prepareTransaction (txn_id : string) (request : list SingleTableOperationRequest)
    : M S (grpc_status * PrepareTransactionResponse) :=
  DbServer_handler (db_prepareTransaction txn_id request).
Definition DbServer_commitTransaction (txn_id : string)
    : M S (grpc_status * COMMIT_TRANSACTION_STATUS) := Service_unimplemented.
Definition DbServer_abortTransaction (txn_id : string) : M S (grpc_status * ()) :=
  DbServer_handler (db_abortTransaction txn_id).
End server.

(** ** The client *)

Section client.
Context {S : Type} `{Grpc S} `{DbOps S}.

Definition RemoteDb_addDatabase (request : string) : M S () :=
  r ← grpc_call (DbServer_addDatabase request); client_result r.
Definition RemoteDb_addTable (request : AddTableRequest) : M S () :=
  r ← grpc_call (DbServer_addTable request); client_result r.
Definition RemoteDb_addRow (request : AddRowRequest) : M S TableRows :=
  r ← grpc_call (DbServer_addRow request); client_result r.
Definition RemoteDb_updateRow (request : UpdateRowRequest) : M S () :=
  r ← grpc_call (DbServer_updateRow request); client_result r.
Definition RemoteDb_getRow (request : GetRowRequest) : M S TableRows :=
  r ← grpc_call (DbServer_getRows request); client_result r.
Definition RemoteDb_multiTableOperation (request : list SingleTableOperationRequest)
    : M S (list SingleTableOperationResponse) :=
  r ← grpc_call (DbServer_multiTableOperation request); client_result r.
Definition RemoteDb_scanTable (request : ScanTableRequest) : M S TableRows :=
  r ← grpc_call (DbServer_scanTable request); client_result r.
Definition RemoteDb_prepareTransaction (txn_id : string) (request : list SingleTableOperationRequest)
    : M S PrepareTransactionResponse :=
  r ← grpc_call (DbServer_prepareTransaction txn_id request); client_result r.
Definition RemoteDb_commitTransaction (txn_id : string) : M S COMMIT_TRANSACTION_STATUS :=
  r ← grpc_call (DbServer_commitTransaction txn_id); client_result r.

(** [RemoteDb] leaves [abortTransaction] abstract: it takes a class derived
    from it to make an object, which says what the call does. *)
Definition RemoteDb (abortTransaction : string → M S ()) : DbOps S := {|
  db_addDatabase := RemoteDb_addDatabase;
  db_addTable := RemoteDb_addTable;
  db_addRow := RemoteDb_addRow;
  db_updateRow := RemoteDb_updateRow;
  db_getRow := RemoteDb_getRow;
  db_multiTableOperation := RemoteDb_multiTableOperation;
  db_scanTable := RemoteDb_scanTable;
  db_prepareTransaction := RemoteDb_prepareTransaction;
  db_commitTransaction := RemoteDb_commitTransaction;
  db_abortTransaction := abortTransaction |}.
End client.

(** ** What a call promises *)

(** A call that is never made: it throws, and nothing has changed. *)
Definition unavailable {S A} (remote : M S A) : Prop := ∀ s o s', remote s = (o, s') →
  s' = s ∧ ∃ message, o = Throw (RuntimeError message).

Section calls.
Context {S : Type} `{HG : Grpc S}.

Lemma DbServer_handler_state {Resp} `{Inhabited Resp} (m : M S Resp) s :
  (DbServer_handler m s).2 = (m s).2.
Proof. unfold DbServer_handler, catch, mbind, M_bind. by destruct (m s) as [[|[]|] ?]. Qed.

Lemma DbServer_handler_ok {Resp} `{Inhabited Resp} (m : M S Resp) s r s' :
  DbServer_handler m s = (Ret (OK, r), s') ↔ m s = (Ret r, s').
Proof.
  unfold DbServer_handler, catch, mbind, M_bind, mret, M_ret.
  destruct (m s) as [[|[]|] ?]; split; intros; by simplify_eq/=.
Qed.

(** The status of an error of the database; of any other exception there is
    none, and gRPC answers. *)
Lemma DbServer_handler_error {Resp} `{Inhabited Resp} (m : M S Resp) s e s' :
  m s = (Throw e, s') →
  DbServer_handler m s =
    match e with
    | DbError n => (Ret (UNKNOWN ("error encountered. error-code: " +:+ pretty n), inhabitant), s')
    | _ => (Throw e, s')
    end.
Proof. intros E. unfold DbServer_handler, catch, mbind, M_bind. rewrite E. by destruct e. Qed.

Lemma bind_client_result {A} `{Inhabited A} (m : M S (grpc_status * A)) s :
  (r ← grpc_call m; response ← client_result r; mret (id response)) s =
    (r ← grpc_call m; client_result r) s.
Proof.
  unfold mbind at 1 3, M_bind. destruct (grpc_call m s) as [[r| |] ?]; [|done..].
  apply client_result_ret.
Qed.

Context `{HL : !GrpcLaws S}.

Lemma DbServer_call_sound {Resp} `{Inhabited Resp} (m : M S Resp) :
  sound (r ← grpc_call (DbServer_handler m); client_result r) m.
Proof.
  eapply sound_ext; [apply bind_client_result|]. apply call_sound.
  - intros s. apply DbServer_handler_state.
  - intros s r s'. apply DbServer_handler_ok.
Qed.

Lemma unimplemented_call {Resp} `{Inhabited Resp} :
  unavailable (r ← grpc_call (Service_unimplemented (S := S) (Resp := Resp)); client_result r).
Proof.
  intros s o s'. unfold mbind, M_bind. destruct (grpc_call _ s) as [o1 s1] eqn:E.
  destruct (grpc_call_law _ _ _ _ E) as (st&r&->&Hs&Hr).
  assert (s1 = s) as -> by (by destruct Hs).
  destruct st; intros [= <- <-]; [discriminate (Hr eq_refl)|eauto..].
Qed.
End calls.

(** Whatever the network does, an answer of a remote database is the answer
    its database has given in the call, whose effect has taken place; anything
    else is a [runtime_error], which says neither whether the call was made nor
    what was wrong.  Rows cannot be read by key, and transactions not be
    committed. *)
Theorem remote_db_sound {S} `{HG : Grpc S, HL : !GrpcLaws S} (Db : DbOps S) abort :
  (∀ name, sound (db_addDatabase (DbOps := RemoteDb abort) name) (db_addDatabase (DbOps := Db) name)) ∧
  (∀ request, sound (db_addTable (DbOps := RemoteDb abort) request) (db_addTable (DbOps := Db) request)) ∧
  (∀ request, sound (db_addRow (DbOps := RemoteDb abort) request) (db_addRow (DbOps := Db) request)) ∧
  (∀ request, sound (db_updateRow (DbOps := RemoteDb abort) request) (db_updateRow (DbOps := Db) request)) ∧
  (∀ requests, sound (db_multiTableOperation (DbOps := RemoteDb abort) requests) (db_multiTableOperation (DbOps := Db) requests)) ∧
  (∀ request, sound (db_scanTable (DbOps := RemoteDb abort) request) (db_scanTable (DbOps := Db) request)) ∧
  (∀ id requests, sound (db_prepareTransaction (DbOps := RemoteDb abort) id requests)
                        (db_prepareTransaction id requests)) ∧
  (∀ request, unavailable (db_getRow (DbOps := RemoteDb abort) request)) ∧
  (∀ id, unavailable (db_commitTransaction (DbOps := RemoteDb abort) id)).
Proof.
  cbn. split_and!; intros.
  all: first [apply DbServer_call_sound | apply unimplemented_call].
Qed.

(** ** Rows through a network *)

Section rows.
Context {D E T : Type} `{RocksDBLaws D, ArrowComputeLaws E T, HC : DbConvLaws}.
Context `{HG : Grpc (DbImpl (D := D)), HL : !GrpcLaws (DbImpl (D := D))}.
Context (table : Table) (Hok : table_ok table).
Abbreviation Db := (DbImpl_ops E (T := T)).
Implicit Types (s : DbImpl (D := D)) (row : list ColumnValue) (rows : list (list ColumnValue)).

(** C36: a row with a new key is added by a remote database, where it and the
    stored rows are apart (no key of a row is a prefix of a key of another row,
    unlike ids 1 and 10) and the store reports no errors: an answer is the row,
    and it is stored.  An exception comes only over a network that is not
    reliable; then the row is stored or not, and nothing else has changed. *)
Theorem remote_addRow seconds db tbl s rows row nvs o s' :
  has_rows table db tbl s rows → row_good table row → nvs ≡ₚ named_row table row →
  apart table (row :: rows) → row_at table rows (row_key table row) = None →
  let request := {| add_database_name := db; add_table_name := tbl; add_column_values := nvs |} in
  RemoteDb_addRow (H0 := Db seconds) request s = (o, s') →
  o = Ret (as_text [row]) ∧ has_rows table db tbl s' (row :: rows) ∨
  (∃ message, o = Throw (RuntimeError message)) ∧ ¬ reliable (DbImpl (D := D)) ∧
    (s' = s ∨ has_rows table db tbl s' (row :: rows)).
Proof.
  intros Hs Hrow Hp Hap Hn request Er.
  pose proof (addRow_spec (T := T) table Hok db tbl s rows row nvs Hs Hrow Hp Hap) as Ha.
  cbv zeta in Ha. rewrite Hn in Ha. destruct Ha as (s1 & Ea & Hs1).
  assert (Hsound := DbServer_call_sound (addRow (T := T) request) s o s' Er).
  unfold request in Hsound. rewrite Ea in Hsound.
  destruct Hsound as [(a & -> & [= <- <-])|(Hm & Hs')]; [left; auto|right].
  split; [done|]. split; [|destruct Hs' as [->| ->]; auto].
  intros Hr. destruct Hm as [message ->]. revert Er. unfold RemoteDb_addRow, mbind, M_bind.
  rewrite (Hr _ _ (DbServer_addRow (H := Db seconds) request) s OK (as_text [row]) s1); [done|].
  by apply DbServer_handler_ok.
Qed.

(** A client that repeats the call gets a [runtime_error] from a network that
    loses nothing, and the row stays as it is: it cannot tell this error from
    a lost answer. *)
Theorem repeated_addRow seconds db tbl s rows row nvs o s' :
  has_rows table db tbl s (row :: rows) → row_good table row → nvs ≡ₚ named_row table row →
  apart table (row :: row :: rows) →
  let request := {| add_database_name := db; add_table_name := tbl; add_column_values := nvs |} in
  RemoteDb_addRow (H0 := Db seconds) request s = (o, s') →
  s' = s ∧ ∃ message, o = Throw (RuntimeError message).
Proof.
  intros Hs Hrow Hp Hap request Er.
  pose proof (addRow_spec (T := T) table Hok db tbl s (row :: rows) row nvs Hs Hrow Hp Hap) as Ha.
  cbv zeta in Ha. assert (Hat : row_at table (row :: rows) (row_key table row) = Some row).
  { unfold row_at. by rewrite filter_cons_True. }
  rewrite Hat in Ha.
  assert (Hsound := DbServer_call_sound (addRow (T := T) request) s o s' Er).
  unfold request in Hsound. rewrite Ha in Hsound.
  by destruct Hsound as [(a & -> & [=])|(Hm & [->| ->])].
Qed.
End rows.

(** ** Witnesses *)

(** A network that loses every answer. *)
Definition answerless (S : Type) : Grpc S := {|
  grpc_call Resp _ m s := (Ret (Unavailable "deadline exceeded", inhabitant), (m s).2);
  debug_error_string st := error_message st |}.
Lemma answerless_laws S : GrpcLaws S (H := answerless S).
Proof. constructor. intros ??????. intros [= <- <-]. do 2 eexists. split; [done|]. split; [by right|done]. Qed.

Section server_witnesses.
#[local] Existing Instance decimal_db_conv.

Definition mem_db : DbOps (DbImpl (D := MemDB)) := DbImpl_ops MemExpr (T := MemTable) 100.
Definition add_ann : AddRowRequest :=
  {| add_database_name := "app"; add_table_name := "people"; add_column_values := ann_values |}.

(** Databases are created through the network; a name that is taken is a
    status. *)
Lemma remote_db_sound_witness :
  let H := lossless _ in
  sound (db_addDatabase (DbOps := RemoteDb (H0 := mem_db) (λ _, throw NonRecoverableError)) "meta")
    (addDatabase (T := MemTable) 100 "meta") ∧
  (RemoteDb_addDatabase (H0 := mem_db) "a" fresh_db).1 = Ret () ∧
  (RemoteDb_addDatabase (H0 := mem_db) "meta" fresh_db).1 =
    Throw (RuntimeError "error encountered. error-code: 4").
Proof.
  split; [|split; vm_compute; reflexivity].
  apply (remote_db_sound (HG := lossless _) (HL := lossless_laws _) mem_db (λ _, throw NonRecoverableError)).
Defined.

Lemma remote_addRow_witness :
  let H := lossless _ in
  ∃ s', RemoteDb_addRow (H0 := mem_db) add_ann (app_with people) = (Ret [["4"; "ann"; "0"]%string], s') ∧
    has_rows sample_table "app" "people" s' (ann :: people).
Proof.
  destruct (RemoteDb_addRow (H := lossless _) (H0 := mem_db) add_ann (app_with people)) as [o s'] eqn:Ea.
  destruct (remote_addRow (HG := lossless _) (HL := lossless_laws _) (E := MemExpr) (T := MemTable)
    sample_table sample_table_ok 100 "app" "people" (app_with people) people ann ann_values o s'
    (app_has_rows people people_stored) (person_ok 4 "ann" eq_refl ltac:(done)) ann_named ann_apart
    ltac:(vm_compute; reflexivity) Ea) as [[-> Hs]|(_ & Hr & _)].
  - exists s'. split; [exact Ea|exact Hs].
  - destruct (Hr (lossless_reliable _)).
Defined.

(** The answer of the first call is lost; the second one is refused. *)
Lemma repeated_addRow_witness :
  ∃ s1, RemoteDb_addRow (H := answerless _) (H0 := mem_db) add_ann (app_with people) =
      (Throw (RuntimeError "deadline exceeded"), s1) ∧
    (RemoteDb_addRow (H := lossless _) (H0 := mem_db) add_ann s1).2 = s1.
Proof.
  destruct (RemoteDb_addRow (H := answerless _) (H0 := mem_db) add_ann (app_with people)) as [o s1] eqn:Ea.
  destruct addRow_spec_witness as (s1' & Eb & Hs).
  unfold RemoteDb_addRow, DbServer_addRow, mbind, M_bind in Ea. cbn [grpc_call answerless] in Ea.
  rewrite DbServer_handler_state in Ea. cbn in Ea. unfold add_ann in Ea. rewrite Eb in Ea. injection Ea as <- <-.
  exists s1'. split; [reflexivity|].
  destruct (RemoteDb_addRow (H := lossless _) (H0 := mem_db) add_ann s1') as [o2 s2] eqn:E2.
  apply (repeated_addRow (HG := lossless _) (HL := lossless_laws _) (E := MemExpr) (T := MemTable)
    sample_table sample_table_ok 100 "app" "people" s1' people ann ann_values o2 s2 Hs
    (person_ok 4 "ann" eq_refl ltac:(done)) ann_named
    ltac:(apply apartb_ok; vm_compute; reflexivity) E2).
Defined.
End server_witnesses.
